(* ===== verification/_CoqProject ===== *)
-Q . S2P
Prelude.v
Persister.v
FilePersister.v
RaftNode.v
Transport.v
RaftDemo.v
RaftFacts.v
RaftTimer.v
RaftDurable.v
RaftVotes.v
RaftCluster.v
RaftCalls.v
RaftLog.v
RaftPositions.v
RaftCommit.v
RaftElection.v
RaftReplication.v
RaftDivergence.v
RaftGhost.v
RaftLogMatching.v
RaftChosen.v
RaftSafety.v
RaftCommitted.v
Replicated.v
Dedup.v
Waiters.v
KVServer.v
KVServerFacts.v
ReplicatedKV.v
KVReads.v
KvTest.v
ShardConfig.v
ShardConfigFacts.v
Ctrler.v
ReplicatedCtrlers.v
GroupServer.v
GroupFacts.v
ReplicatedGroups.v
ShardOwners.v
Linearize.v
Ring.v
RingFacts.v
RingCtrler.v
ReplicatedRings.v
Clerk.v
Cache.v
CacheFacts.v
Pool.v
ClerkFacts.v
ServedKV.v
ShardClerk.v
Clients.v
AutoSplit.v
AutoSplitFacts.v
