(* ===== verification/Prelude.v ===== *)
(** * distsys-lab: a verification development

    The repository is a sequence of Go packages, each built on the one before:
    a Raft node (src/01-raft), a replicated key-value server and its clerk
    (src/02-kv-store), an RPC client with a connection pool
    (src/03-connection-pooling), a read cache (src/04-caching), a sharded store
    with a controller, shard groups that migrate data, and a linearizability
    checker (src/05-sharded-kv), and a hash ring whose hot shards are split
    (src/06-hot-shard-splitting). This library models them as shallow
    embeddings: a struct is a record, an operation that holds a lock is a
    function from state to state, an operation that releases a lock in the
    middle is one function per critical section, and the interleavings are
    step relations. A run-time panic is the value [Panic] of the outcome monad
    below.

    ** Files and what they model

    - Prelude (this file): the outcome monad, slices indexed by Go ints, the
      lemmas, hints and tactics the files share, the
      contract of encoding/gob ([Codec]: what is decoded is what was encoded,
      and an encoding is never empty) with an instance for the witnesses.
    - Persister (01-raft/persister.go): the storage interface, its laws,
      MemoryPersister. FilePersister: the temporary file, fsync, rename and
      directory fsync over a model of files in which every call can fail and a
      crash loses what was not synced; the laws, and crash safety.
    - RaftNode (01-raft: state, log, rpc, election, log_replication, commit,
      apply, raft, persist, snapshot, heartbeat): one node. RaftFacts: its step
      function over events. RaftTimer (election_timer, heartbeat): the timer
      loop in real time. RaftDurable: storage holds the persistent state
      after every operation, and a restart recovers it. RaftVotes: terms,
      votes, RequestVote. RaftLog, RaftPositions: AppendEntries, snapshots, the
      order of the log positions and the messages that break it. RaftCommit:
      the commit rule against the k-th largest match position, and delivery.
      RaftElection, RaftReplication: the outcome of an election and of
      replication rounds. RaftCluster: any number of nodes over a network that
      loses, delays, duplicates and reorders, with crashes; election safety.
      RaftDivergence: executions by evaluation, and one of that cluster in
      which two nodes apply different commands. RaftGhost: a node's log as it
      was before compaction, what each handler does to it, and the record of
      leaders' logs. RaftLogMatching: log matching over the unrestricted
      network. RaftChosen: the network that delivers no overtaken
      AppendEntries, what a majority has chosen, leader completeness as a
      consequence of the invariant. RaftSafety: every step keeps that
      invariant; state machine safety. RaftCommitted: the committed log as a
      function of what the nodes have shown, and the cluster as that
      append-only log. RaftDemo: nodes for the witnesses.
    - Transport (01-raft/fake_transport.go, net_transport.go): partitions and
      cached connections, and what a history of registrations and partitions
      amounts to. RaftCalls (those and transport.go): the handlers a node serves,
      and what a call over the in-process transport does: no route, no peer, or
      one step of RaftCluster; over TCP the same by what is assumed of net/rpc.
    - Replicated: a service on the nodes of RaftCluster - the messages on
      ApplyCh between a node and its server, the server's apply loop, crashes
      and restarts of both - for any state machine and any server of it
      ([Machine], [Server], [ServerLaws], [ServerTotal]).
    - Dedup: duplicate detection specified without a table, and the table as a
      refinement. Waiters: the channels between handlers and apply loop. Both
      are used by every replicated server.
    - KVServer, KVServerFacts (02-kv-store/server.go, op.go, rpc.go).
      ReplicatedKV: they as an instance of Replicated, with client requests,
      running PutAppend handlers and the no-op loop. KVReads: what a Get sees.
      KvTest (internal/kvtest/kvtest.go): endpoints that crash and start again,
      and the test clusters as initial states of ReplicatedKV.
    - ShardConfig, ShardConfigFacts (05-sharded-kv/shard.go, config.go): the key
      hash and the rebalancing behind Join and Leave.
    - Ctrler (05-sharded-kv/ctrler*.go): the replicated history of versions.
      ReplicatedCtrlers: the controllers as an instance of Replicated.
    - GroupServer, GroupFacts (05-sharded-kv/group_*.go): writes gated by
      ownership, shard migration, garbage collection, the background loops.
      ReplicatedGroups: a group's replicas as an instance of Replicated.
      ShardOwners: the logs of all groups with one another.
    - Linearize (05-sharded-kv/history.go): the recorder and the search.
    - Ring, RingFacts, RingCtrler (06-hot-shard-splitting/ring*.go).
      ReplicatedRings: the ring controllers as an instance of Replicated.
    - Clerk, ClerkFacts (02-kv-store/clerk.go, 03-connection-pooling/client.go,
      05-sharded-kv/ctrler_clerk.go): the retry loops, over a world that holds
      the servers. ServedKV: that world is the system of ReplicatedKV.
      ShardClerk (05-sharded-kv/group_clerk.go, client.go). Clients
      (03-connection-pooling/client.go, pooled_client.go, server.go,
      05-sharded-kv/client.go): the client with a dial per call, with a pool per
      address, and one of these per shard group.
    - Cache, CacheFacts (04-caching/cache.go).
    - Pool (03-connection-pooling/pooled_client.go).
    - AutoSplit, AutoSplitFacts (06-hot-shard-splitting/load.go, detect.go,
      autosplit.go, ring_clerk.go).

    ** How the parts meet

    A Raft node is generic in its command and its storage: its theorems use the
    class [Persister] with [PersisterLaws], which MemoryPersister and
    FilePersister both implement. The replicated servers instantiate the
    command with their operation type; [Request] gives Dedup the client id and
    sequence number of an operation. Replicated puts node and server together,
    once for all services: its steps are those of the cluster, the apply
    goroutine handing over a message, the server applying one (which may notify
    a handler and compact the node's log), and a crash and restart of node and
    server. A service gives its state machine and shows that its server's apply
    loop, snapshots and restart implement it; then all its replicas are at
    points of one run. The key-value servers, both controllers and the shard
    groups are instances. ReplicatedKV adds the clients' side: proposals of
    handlers and of the no-op loop, and the handlers' register, select and
    return. The clients are proved against the class [ReplicatedLog] of
    ClerkFacts (a log that only grows, holds only what was sent, and holds what
    was acknowledged), and exactly-once follows with the at-most-once half
    proved of the server's apply loop. ServedKV proves the system of
    ReplicatedKV an instance of that class ([served_log]), so that what the
    clerk is promised is what cluster, servers and handlers together do. The
    auto-splitter is proved against [QuietRing] of AutoSplitFacts.

    ShardOwners takes the groups' committed logs, which ReplicatedGroups shows to
    be all that determines a replica's state, and the versions of one history,
    which ReplicatedCtrlers shows the controllers to have; a Pull is answered
    from a prefix of the donor's log, as any replica may lag behind.

    ** What the theorems show

    Safety of elections and log matching of a cluster over any network. Where
    no overtaken AppendEntries is delivered: leader completeness, state machine
    safety, and the cluster as an append-only log. Where in addition no
    snapshot behind what a node applied is installed and no entry is handed
    over while a snapshot waits: the replicas of each service - key-value
    servers, controllers, ring controllers, shard groups - as one state machine,
    snapshots and restarts included, whose apply loops do not panic; one history
    of versions, and Query answers that agree; the same shard handed over by
    every replica; end to end, a clerk's writes take effect exactly once and in
    order in the log all stores come from; what a Get may and may not miss.

    Of all shard groups at most one serves a shard, and it has every write any
    group took for it, once and in order, across hand-overs; where a Migrate
    entry carries an answer given since the group last acquired the shard, a
    collection was confirmed since it was lost, and no version is without groups
    once one has some. The code ensures none of these: [late_migrate_two_owners],
    [GC_deletes_owned_shard] and [abandoned_shard_is_empty] are what happens then.

    Durability and recovery of a node, the times between which elections start,
    the in-process transport as a network of the cluster, the functional
    behaviour of each Raft handler on every branch, the commit rule, in-order
    delivery, convergence of replication; crash safety of the files;
    at-most-once application, recovery from snapshots; termination of the
    clients' loops; coherence of the cache under every interleaving and its
    refinement of a bounded list in order of use; exactness and bounds of the
    pool's count; totality, balance and minimality of rebalancing; a client for
    every key of a sharded client; exactness of the linearizability checker, key
    by key; the ring as a partition of the hash space, splits, and a whole step
    of the auto-splitter; the test clusters as initial states of the replicated
    system, and endpoints that sever what they served.

    Where the code does not do what it means to, the theorem states what it
    does: two nodes that apply different commands once an overtaken
    AppendEntries is delivered (the restriction of state machine safety is
    needed; it holds where calls return only once they are handled, as
    RunHeartbeats starts a round when the last has returned), panics of
    AppendEntries, a state machine rolled back by a snapshot that is old or
    arrives while entries are handed over (the restrictions on the replicas are
    needed), a shard lost to a stale garbage collection, two groups that wait
    for each other, a shard that is regained under the same leader and never
    fetched, a pool below its minimum for good, a clerk that never fetches a
    configuration.

    ** Bounds and fuel

    Loops that Go runs for ever (retry loops, apply loops) take fuel: the
    number of rounds or of deliveries; the theorems say how much is enough, or
    hold for every amount. Recursions on data use no fuel or a measure that is
    proved enough ([sortSearch]). Hashes, ring positions, widths and bit masks
    are kept at their width (32 or 64 bits) with the wrap-around written out;
    float64 is IEEE binary64 of the Standard Library's SpecFloat. Go's int and
    int64 counters (terms, log indexes, sequence numbers, statistics, loads)
    are unbounded integers: each is moved by one from 0 or added up from such,
    and 2^63 steps are out of reach.

    ** What is not modelled, and why

    Timers, tickers and goroutine scheduling as such, but for the election timer
    of RaftTimer: each tick is an operation and every order of them is allowed.
    The time limits of the servers' handlers are events that may come at any
    time. net/rpc, TCP and file system calls: parameters, or the model of
    FilePersister; the accept loop and the registration of a served object are
    net/rpc's. Close of clients beyond which connections it closes. The wiring
    of peers (SetPeers) and of stop channels. The tests. Reply fields a handler
    leaves at their zero value and log messages.

    ** Plan

    What is left is composition: the sharded clerks and the recording clerk
    against the groups of ShardOwners, with the reads; Pull and HasShard as
    calls between the clusters of ReplicatedGroups, where ShardOwners takes the
    logs they commit. *)
From Stdlib Require Export ZArith Lia.
From stdpp Require Export sorting.
From stdpp Require Export base tactics option strings gmap fin_maps countable.
From stdpp Require Export list_basics list_relations list_monad list_misc list_tactics list_numbers list.

Declare Scope outcome_scope.
Delimit Scope outcome_scope with outcome.

(** ** Outcomes: a Go call either returns or panics *)

Inductive outcome (A : Type) : Type :=
| Ret (a : A)
| Panic.
Arguments Ret {A} a.
Arguments Panic {A}.

#[export] Instance outcome_ret : MRet outcome := @Ret.
#[export] Instance outcome_bind : MBind outcome := fun A B f m =>
  match m with
  | Ret a => f a
  | Panic => Panic
  end.
#[export] Instance outcome_fmap : FMap outcome := fun A B f m =>
  match m with
  | Ret a => Ret (f a)
  | Panic => Panic
  end.

#[export] Instance outcome_eq_dec {A} `{!EqDecision A} : EqDecision (outcome A).
Proof. solve_decision. Defined.

(** An option whose [None] is a run-time panic (an index out of range). *)
Definition or_panic {A} (o : option A) : outcome A :=
  match o with
  | Some a => Ret a
  | None => Panic
  end.

Section outcome_facts.
Context {A B : Type}.

Lemma bind_Ret_inv (m : outcome A) (f : A → outcome B) b :
  m ≫= f = Ret b → ∃ a, m = Ret a ∧ f a = Ret b.
Proof. destruct m as [a|]; [by exists a | done]. Qed.

Lemma fmap_Ret_inv (m : outcome A) (f : A → B) b :
  f <$> m = Ret b → ∃ a, m = Ret a ∧ f a = b.
Proof. destruct m as [a|]; [intros [= <-]; by exists a | done]. Qed.

Lemma bind_Ret_l (a : A) (f : A → outcome B) : Ret a ≫= f = f a.
Proof. done. Qed.

Lemma or_panic_Ret (o : option A) a : or_panic o = Ret a ↔ o = Some a.
Proof. destruct o; naive_solver. Qed.
End outcome_facts.

(** A call that evaluates to a value returns. *)
Definition returned {A} (m : outcome A) : bool :=
  match m with Ret _ => true | Panic => false end.

Lemma returned_Ret {A} (m : outcome A) : returned m = true → ∃ a, m = Ret a.
Proof. destruct m as [a|]; [by exists a | done]. Qed.

(** Invert every bind that is known to return. *)
Ltac inv_ret :=
  repeat match goal with
  | H : Ret _ = Ret _ |- _ => injection H as H; subst
  | H : Panic = Ret _ |- _ => discriminate H
  | H : mret _ = Ret _ |- _ => cbv [mret outcome_ret] in H
  | H : _ ≫= _ = Ret _ |- _ =>
      let a := fresh "a" in let Ha := fresh "Ha" in
      apply bind_Ret_inv in H as (a & Ha & H)
  | H : _ <$> _ = Ret _ |- _ =>
      let a := fresh "a" in let Ha := fresh "Ha" in
      apply fmap_Ret_inv in H as (a & Ha & H)
  | H : or_panic _ = Ret _ |- _ => apply or_panic_Ret in H
  | p : (_ * _)%type |- _ => destruct p
  end; simplify_eq.

(** ** Slices indexed by Go ints *)

Section zlist.
Context {A : Type}.
Implicit Types (l : list A) (i : Z).
Local Open Scope Z_scope.

Definition zlen l : Z := Z.of_nat (length l).

(** [l[i]]; [None] stands for the index-out-of-range panic. *)
Definition zget l i : option A :=
  if bool_decide (0 ≤ i) then l !! Z.to_nat i else None.

(** [l[i:]]; panics unless [0 <= i <= len l]. *)
Definition slice_from l i : outcome (list A) :=
  if bool_decide (0 ≤ i ≤ zlen l) then Ret (drop (Z.to_nat i) l) else Panic.

(** [l[:i]]; panics unless [0 <= i <= len l] (a slice whose bound lies
    between its length and its capacity never occurs in the sources). *)
Definition slice_to l i : outcome (list A) :=
  if bool_decide (0 ≤ i ≤ zlen l) then Ret (take (Z.to_nat i) l) else Panic.

Lemma zlen_nonneg l : 0 ≤ zlen l.
Proof. unfold zlen. lia. Qed.

Lemma zlen_nil : zlen (@nil A) = 0.
Proof. done. Qed.

Lemma zlen_cons x l : zlen (x :: l) = zlen l + 1.
Proof. unfold zlen. simpl. lia. Qed.

Lemma zlen_app l1 l2 : zlen (l1 ++ l2) = zlen l1 + zlen l2.
Proof. unfold zlen. rewrite length_app. lia. Qed.

Lemma zlen_take l i : 0 ≤ i ≤ zlen l → zlen (take (Z.to_nat i) l) = i.
Proof. unfold zlen. intros ?. rewrite length_take. lia. Qed.

Lemma zlen_drop l i : 0 ≤ i ≤ zlen l → zlen (drop (Z.to_nat i) l) = zlen l - i.
Proof. unfold zlen. intros ?. rewrite length_drop. lia. Qed.

Lemma zlen_0 l : zlen l = 0 ↔ l = [].
Proof. unfold zlen. destruct l; simpl; split; intros; (done || lia). Qed.

Lemma zget_Some_bound l i x : zget l i = Some x → 0 ≤ i < zlen l.
Proof.
  unfold zget, zlen. case_bool_decide as Hi; [|done].
  intros Hl%lookup_lt_Some. lia.
Qed.

Lemma zget_is_Some l i : is_Some (zget l i) ↔ 0 ≤ i < zlen l.
Proof.
  split; [intros [x Hx]; by eapply zget_Some_bound|].
  unfold zget, zlen. intros ?. rewrite bool_decide_true by lia.
  apply lookup_lt_is_Some. lia.
Qed.

Lemma zget_None l i : zget l i = None ↔ i < 0 ∨ zlen l ≤ i.
Proof.
  rewrite eq_None_not_Some, zget_is_Some. lia.
Qed.

Lemma zget_app_l l1 l2 i : i < zlen l1 → zget (l1 ++ l2) i = zget l1 i.
Proof.
  unfold zget, zlen. intros ?. case_bool_decide; [|done].
  apply lookup_app_l. lia.
Qed.

Lemma zget_app_r l1 l2 i :
  zlen l1 ≤ i → zget (l1 ++ l2) i = zget l2 (i - zlen l1).
Proof.
  unfold zget, zlen. intros ?. rewrite !bool_decide_true by lia.
  rewrite lookup_app_r by lia. f_equal. lia.
Qed.

Lemma zget_take l n i :
  0 ≤ n → i < n → zget (take (Z.to_nat n) l) i = zget l i.
Proof.
  unfold zget. intros ??. case_bool_decide; [|done].
  apply lookup_take_lt. lia.
Qed.

Lemma zget_drop l n i :
  0 ≤ n → 0 ≤ i → zget (drop (Z.to_nat n) l) i = zget l (n + i).
Proof.
  unfold zget. intros ??. rewrite !bool_decide_true by lia.
  rewrite lookup_drop. f_equal. lia.
Qed.

Lemma slice_from_Ret l i l' :
  slice_from l i = Ret l' ↔ 0 ≤ i ≤ zlen l ∧ l' = drop (Z.to_nat i) l.
Proof.
  unfold slice_from. case_bool_decide as Hb;
    split; [intros [= <-]; done|by intros [_ ->]|done|by intros [? _]].
Qed.

Lemma slice_to_Ret l i l' :
  slice_to l i = Ret l' ↔ 0 ≤ i ≤ zlen l ∧ l' = take (Z.to_nat i) l.
Proof.
  unfold slice_to. case_bool_decide as Hb;
    split; [intros [= <-]; done|by intros [_ ->]|done|by intros [? _]].
Qed.

Lemma zget_elem_of l i x : zget l i = Some x → x ∈ l.
Proof.
  unfold zget. case_bool_decide; [|done].
  intros. by eapply list_elem_of_lookup_2.
Qed.
End zlist.

(** What an assignment [l[k] = x] can leave in the list. *)
Lemma list_insert_elem {A} (l : list A) k x y : y ∈ <[k := x]> l → y ∈ l ∨ y = x.
Proof.
  intros (j & Hj)%list_elem_of_lookup_1. destruct (decide (k = j)) as [->|Hne].
  - apply list_lookup_insert_Some in Hj as [(_ & -> & _)|[? _]]; [by right|done].
  - rewrite list_lookup_insert_ne in Hj by done. left. by eapply list_elem_of_lookup_2.
Qed.

Create Rewrite HintDb zlist.
Create HintDb zlist.
#[export] Hint Rewrite @zlen_nil @zlen_cons @zlen_app : zlist.
#[export] Hint Rewrite @zlen_take @zlen_drop using lia : zlist.
#[export] Hint Resolve zlen_nonneg : zlist.

(** Record that a length is not negative, once. *)
Ltac zlen_pos_of l :=
  lazymatch goal with
  | _ : (0 ≤ zlen l)%Z |- _ => fail
  | _ => pose proof (zlen_nonneg l)
  end.

(** Normalise lengths, then finish with linear arithmetic. *)
Ltac zlia :=
  autorewrite with zlist in *;
  repeat match goal with
  | |- context [zlen ?l] => zlen_pos_of l
  | _ : context [zlen ?l] |- _ => zlen_pos_of l
  end; lia.

(** ** Majorities *)

Section quorum.
Context {A : Type} `{!EqDecision A}.
Implicit Types l members : list A.

(** Two duplicate-free majorities of the same members share a member. *)
Lemma quorum_intersect members l1 l2 :
  NoDup l1 → NoDup l2 → l1 ⊆ members → l2 ⊆ members →
  (zlen members / 2 + 1 ≤ zlen l1)%Z → (zlen members / 2 + 1 ≤ zlen l2)%Z →
  ∃ x, x ∈ l1 ∧ x ∈ l2.
Proof.
  intros Hn1 Hn2 Hs1 Hs2 Hq1 Hq2.
  destruct (decide (Exists (λ x, x ∈ l2) l1)) as [He|Hd].
  { apply Exists_exists in He as (x & ? & ?). by exists x. }
  apply not_Exists_Forall in Hd; [|intros x; apply _].
  rewrite Forall_forall in Hd.
  assert (l1 ++ l2 ⊆+ members) as Hsub%submseteq_length.
  { apply NoDup_submseteq; [by apply NoDup_app|].
    intros x [?|?]%elem_of_app; auto. }
  rewrite length_app in Hsub. unfold zlen in *.
  pose proof (Z.div_mod (Z.of_nat (length members)) 2).
  pose proof (Z.mod_pos_bound (Z.of_nat (length members)) 2). lia.
Qed.

(** Removing one member of a duplicate-free list. *)
Lemma zlen_without members x :
  NoDup members → x ∈ members →
  (zlen (filter (λ y, y ≠ x) members) + 1 = zlen members)%Z.
Proof.
  intros Hn Hx. rewrite <- (zlen_cons x). unfold zlen. f_equal.
  apply Permutation_length, NoDup_Permutation; [|done|].
  - apply NoDup_cons. split; [by intros [? _]%list_elem_of_filter|by apply NoDup_filter].
  - intros y. rewrite elem_of_cons, list_elem_of_filter.
    destruct (decide (y = x)); naive_solver.
Qed.
End quorum.

(** ** Byte strings and the codec contract

    The programs serialise their durable state with encoding/gob. The byte
    format is not modelled; the contract of an encoder/decoder pair is. *)

Abbreviation bytes := (list Byte.byte).

Class Codec (A : Type) := {
  gob_encode : A → bytes;
  gob_decode : bytes → option A;
  gob_round_trip : ∀ a, gob_decode (gob_encode a) = Some a;
  gob_nonempty : ∀ a, gob_encode a ≠ []
}.

(** A concrete codec for every countable type: the bits of its code, one per
    byte. It shows that the contract can be met; witnesses compute with it. *)
Section countable_codec.
Context `{Countable A}.

Fixpoint pos_bytes (p : positive) : bytes :=
  match p with
  | xH => [Byte.x01]
  | xO p => Byte.x02 :: pos_bytes p
  | xI p => Byte.x03 :: pos_bytes p
  end.

Fixpoint bytes_pos (b : bytes) : option positive :=
  match b with
  | [Byte.x01] => Some xH
  | Byte.x02 :: b => xO <$> bytes_pos b
  | Byte.x03 :: b => xI <$> bytes_pos b
  | _ => None
  end.

Lemma bytes_pos_bytes p : bytes_pos (pos_bytes p) = Some p.
Proof. induction p as [p IH|p IH|]; simpl; rewrite ?IH; done. Qed.

Lemma pos_bytes_nonempty p : pos_bytes p ≠ [].
Proof. by destruct p. Qed.

Lemma decode_pos_bytes (a : A) :
  bytes_pos (pos_bytes (encode a)) ≫= decode (A:=A) = Some a.
Proof. by rewrite bytes_pos_bytes; simpl; rewrite decode_encode. Qed.

Definition countable_codec : Codec A := {|
  gob_encode a := pos_bytes (encode a);
  gob_decode b := bytes_pos b ≫= decode (A:=A);
  gob_round_trip := decode_pos_bytes;
  gob_nonempty a := pos_bytes_nonempty (encode a)
|}.
End countable_codec.
