(* ===== verification/Persister.v ===== *)
(** * Durable storage of a Raft node (01-raft/persister.go)

    The [Persister] interface, the laws the Raft node relies on, and the
    in-memory implementation [MemoryPersister] with the proof that it obeys
    them. *)
From S2P Require Import Prelude.

(** ** The interface

    A save returns the new storage and whether Go's error result was nil; a
    read returns [None] for a non-nil error. *)
Class Persister (P : Type) := {
  SaveState : P → bytes → P * bool;
  ReadState : P → option bytes;
  SaveStateAndSnapshot : P → bytes → bytes → P * bool;
  ReadSnapshot : P → option bytes
}.

(** What a successful save promises to a later read, also after a restart. *)
Class PersisterLaws (P : Type) `{Persister P} := {
  save_state_read p b p' :
    SaveState p b = (p', true) →
    ReadState p' = Some b ∧ ReadSnapshot p' = ReadSnapshot p;
  save_both_read p b d p' :
    SaveStateAndSnapshot p b d = (p', true) →
    ReadState p' = Some b ∧ ReadSnapshot p' = Some d
}.

(** Storage whose saves never fail. *)
Class PersisterTotal (P : Type) `{Persister P} := {
  save_state_ok p b : (SaveState p b).2 = true;
  save_both_ok p b d : (SaveStateAndSnapshot p b d).2 = true
}.

(** ** MemoryPersister *)

Record MemoryPersister := mkMemoryPersister {
  mp_state : bytes;
  mp_snapshot : bytes
}.

Definition NewMemoryPersister : MemoryPersister := mkMemoryPersister [] [].

Definition MemoryPersister_SaveState (p : MemoryPersister) (state : bytes) :=
  (mkMemoryPersister state (mp_snapshot p), true).

Definition MemoryPersister_ReadState (p : MemoryPersister) : option bytes :=
  Some (mp_state p).

Definition MemoryPersister_SaveStateAndSnapshot
    (p : MemoryPersister) (state snapshot : bytes) :=
  (mkMemoryPersister state snapshot, true).

Definition MemoryPersister_ReadSnapshot (p : MemoryPersister) : option bytes :=
  Some (mp_snapshot p).

#[export] Instance memory_persister : Persister MemoryPersister := {
  SaveState := MemoryPersister_SaveState;
  ReadState := MemoryPersister_ReadState;
  SaveStateAndSnapshot := MemoryPersister_SaveStateAndSnapshot;
  ReadSnapshot := MemoryPersister_ReadSnapshot
}.

#[export] Instance memory_persister_laws : PersisterLaws MemoryPersister.
Proof.
  split.
  - intros p b p' [= <-]. done.
  - intros p b d p' [= <-]. done.
Qed.

#[export] Instance memory_persister_total : PersisterTotal MemoryPersister.
Proof. by split. Qed.
