(* ===== verification/FilePersister.v ===== *)
(** * Storage on files (01-raft/persister.go, FilePersister)

    The file system as far as the persister uses it: names and contents that
    reach the disk only when synced, and crashes that lose what was not. The
    write of a temporary file, its sync, the rename over the real name and the
    sync of the directory, with every call able to fail; and the theorem that a
    crash at any point leaves the old contents or the new. *)
From S2P Require Import Prelude Persister.
Local Open Scope Z_scope.

(** ** The directory and its files *)

(** The names the persister uses in its directory: path, path + ".snapshot",
    and the names CreateTemp makes from either, which contain ".tmp-". *)
Inductive fileName := FState | FSnapshot | FTemp (n : Z).

#[export] Instance fileName_eq_dec : EqDecision fileName.
Proof. solve_decision. Defined.

#[export] Instance fileName_countable : Countable fileName.
Proof.
  apply (inj_countable'
    (λ f, match f with FState => inl (inl ()) | FSnapshot => inl (inr ()) | FTemp n => inr n end)
    (λ x, match x with inl (inl _) => FState | inl (inr _) => FSnapshot | inr n => FTemp n end)).
  by intros [].
Defined.

(** [i_synced]: the data are on the disk. *)
Record inode := mkInode { i_data : bytes; i_synced : bool }.

(** [fs_dir] is what a reader sees; [fs_unsynced] the directories since the
    last directory sync, any entry of which a crash may bring back. *)
Record FS := mkFS {
  fs_dir : gmap fileName Z;
  fs_unsynced : list (gmap fileName Z);
  fs_inodes : gmap Z inode
}.

Definition fs_dirs (fs : FS) : list (gmap fileName Z) := fs_dir fs :: fs_unsynced fs.

(** Inode numbers that are in use, and one that is not. *)
Definition usedInodes (fs : FS) : list Z :=
  (map_to_list (fs_inodes fs)).*1 ++ mjoin ((λ d, (map_to_list d).*2) <$> fs_dirs fs).
Definition nextInode (fs : FS) : Z := 1 + foldr Z.max 0 (usedInodes fs).

(** ** System calls *)

Inductive fsCall :=
| CreateTemp (n : Z)
| Write (n : Z) (data : bytes)
| Sync (n : Z)
| CloseFile
| Rename (n : Z) (to : fileName)
| OpenDir
| SyncDir
| Remove (n : Z).

(** A change of the directory. *)
Definition setDir (d : gmap fileName Z) (fs : FS) : FS :=
  mkFS d (fs_dirs fs) (fs_inodes fs).

Definition fs_exec (fs : FS) (call : fsCall) : FS :=
  match call with
  | CreateTemp n =>
      let i := nextInode fs in
      let fs := setDir (<[FTemp n := i]> (fs_dir fs)) fs in
      mkFS (fs_dir fs) (fs_unsynced fs) (<[i := mkInode [] false]> (fs_inodes fs))
  | Write n data =>
      match fs_dir fs !! FTemp n with
      | Some i =>
          mkFS (fs_dir fs) (fs_unsynced fs) (alter (λ x, mkInode (i_data x ++ data) false) i (fs_inodes fs))
      | None => fs
      end
  | Sync n =>
      match fs_dir fs !! FTemp n with
      | Some i => mkFS (fs_dir fs) (fs_unsynced fs) (alter (λ x, mkInode (i_data x) true) i (fs_inodes fs))
      | None => fs
      end
  | Rename n to =>
      match fs_dir fs !! FTemp n with
      | Some i => setDir (<[to := i]> (delete (FTemp n) (fs_dir fs))) fs
      | None => fs
      end
  | SyncDir => mkFS (fs_dir fs) [] (fs_inodes fs)
  | Remove n => setDir (delete (FTemp n) (fs_dir fs)) fs
  | CloseFile | OpenDir => fs
  end.

(** A crash keeps synced data; other data may be anything. Each directory
    entry is one of those since the last directory sync. *)
Record crash (fs fs' : FS) : Prop := {
  crash_dir name : ∃ d, d ∈ fs_dirs fs ∧ fs_dir fs' !! name = d !! name;
  crash_unsynced : fs_unsynced fs' = [];
  crash_inodes i x : fs_inodes fs !! i = Some x → ∃ x', fs_inodes fs' !! i = Some x' ∧
    (i_synced x = true → x' = x)
}.

(** ** The persister *)

(** [fp_temp] is the number the next CreateTemp picks; [fp_faults] says which
    of the system calls to come fail (none, once the list is used up). *)
Record FilePersister := mkFilePersister {
  fp_fs : FS;
  fp_temp : Z;
  fp_faults : list bool
}.

(** Calls in order until one fails, with every state passed through; a call
    that fails has no effect. The result says whether all succeeded. *)
Fixpoint fs_run (fs : FS) (calls : list fsCall) (faults : list bool) :
    list FS * FS * list bool * bool :=
  match calls with
  | [] => ([], fs, faults, true)
  | call :: calls =>
      if default false (head faults) then ([], fs, tail faults, false)
      else
        let fs' := fs_exec fs call in
        let '(trace, fs'', faults, ok) := fs_run fs' calls (tail faults) in
        (fs' :: trace, fs'', faults, ok)
  end.

(** writeFileAtomicLocked; the deferred removal of the temporary file runs at
    every return after CreateTemp (its error is ignored). The first component
    lists the states passed through, the last one included. *)
Definition writeFileAtomicLocked (p : FilePersister) (path : fileName) (data : bytes) :
    list FS * FilePersister * bool :=
  let n := fp_temp p in
  let '(trace1, fs1, faults, created) := fs_run (fp_fs p) [CreateTemp n] (fp_faults p) in
  if negb created then ([fs1], mkFilePersister fs1 n faults, false)
  else
    let '(trace2, fs2, faults, ok) :=
      fs_run fs1 [Write n data; Sync n; CloseFile; Rename n path; OpenDir; SyncDir] faults in
    let fs3 := fs_exec fs2 (Remove n) in
    (trace1 ++ trace2 ++ [fs3], mkFilePersister fs3 (n + 1) faults, ok).

Definition readFileOrEmpty (fs : FS) (path : fileName) : option bytes :=
  match fs_dir fs !! path with
  | None => Some []
  | Some i => Some (default [] (i_data <$> fs_inodes fs !! i))
  end.

Definition FilePersister_SaveState (p : FilePersister) (state : bytes) : FilePersister * bool :=
  let '(_, p, ok) := writeFileAtomicLocked p FState state in (p, ok).

Definition FilePersister_ReadState (p : FilePersister) : option bytes :=
  readFileOrEmpty (fp_fs p) FState.

(** The snapshot first, then the state; with the states passed through. *)
Definition saveBoth (p : FilePersister) (state snapshot : bytes) : list FS * FilePersister * bool :=
  let '(trace1, p, ok) := writeFileAtomicLocked p FSnapshot snapshot in
  if negb ok then (trace1, p, false)
  else
    let '(trace2, p, ok) := writeFileAtomicLocked p FState state in
    (trace1 ++ trace2, p, ok).

Definition FilePersister_SaveStateAndSnapshot (p : FilePersister) (state snapshot : bytes) :
    FilePersister * bool :=
  let '(_, p, ok) := saveBoth p state snapshot in (p, ok).

Definition FilePersister_ReadSnapshot (p : FilePersister) : option bytes :=
  readFileOrEmpty (fp_fs p) FSnapshot.

#[export] Instance file_persister : Persister FilePersister := {
  SaveState := FilePersister_SaveState;
  ReadState := FilePersister_ReadState;
  SaveStateAndSnapshot := FilePersister_SaveStateAndSnapshot;
  ReadSnapshot := FilePersister_ReadSnapshot
}.

(** ** What may be found under a name *)

Definition real (name : fileName) : Prop := match name with FTemp _ => False | _ => True end.

(** Whatever directory a crash brings back, the name's file is on the disk
    and its contents satisfy [V] (an absent file reads as empty). *)
Definition entry_holds (fs : FS) (V : bytes → Prop) (entry : option Z) : Prop :=
  match entry with
  | None => V []
  | Some i => ∃ x, fs_inodes fs !! i = Some x ∧ i_synced x = true ∧ V (i_data x)
  end.

Definition holds (fs : FS) (name : fileName) (V : bytes → Prop) : Prop :=
  ∀ d, d ∈ fs_dirs fs → entry_holds fs V (d !! name).

Lemma entry_holds_weaken fs (V V' : bytes → Prop) entry : (∀ v, V v → V' v) →
  entry_holds fs V entry → entry_holds fs V' entry.
Proof. intros HV. destruct entry as [i|]; simpl; [|by auto]. intros (x & ? & ? & ?). eauto. Qed.

Lemma holds_weaken fs name (V V' : bytes → Prop) : (∀ v, V v → V' v) → holds fs name V → holds fs name V'.
Proof. intros HV H d Hd. eapply entry_holds_weaken; [exact HV|by apply H]. Qed.

Lemma holds_read fs name V : holds fs name V → ∃ v, readFileOrEmpty fs name = Some v ∧ V v.
Proof.
  intros H. specialize (H (fs_dir fs) ltac:(by left)). unfold readFileOrEmpty, entry_holds in *.
  destruct (fs_dir fs !! name) as [i|]; [|eauto]. destruct H as (x & -> & _ & HV). eauto.
Qed.

Lemma holds_crash fs fs' name V : crash fs fs' → holds fs name V →
  ∃ v, readFileOrEmpty fs' name = Some v ∧ V v ∧ holds fs' name (eq v).
Proof.
  intros [Hdir Hun Hin] H. destruct (Hdir name) as (d & Hd & Heq). specialize (H d Hd).
  unfold readFileOrEmpty, holds, fs_dirs. rewrite Hun. unfold entry_holds in H. rewrite <- Heq in H.
  destruct (fs_dir fs' !! name) as [i|] eqn:Hi.
  - destruct H as (x & Hx & Hs & HV). destruct (Hin i x Hx) as (x' & Hx' & Hsame).
    rewrite Hsame in Hx' by done. exists (i_data x). rewrite Hx'. split_and!; [done|done|].
    intros d' ->%list_elem_of_singleton. rewrite Hi. exists x. done.
  - exists []. split_and!; [done|done|]. intros d' ->%list_elem_of_singleton. by rewrite Hi.
Qed.

Lemma usedInodes_bound fs i : i ∈ usedInodes fs → i < nextInode fs.
Proof.
  unfold nextInode. induction (usedInodes fs) as [|j l IH]; simpl; [by intros ?%not_elem_of_nil|].
  intros [->|Hi]%elem_of_cons; [lia|]. apply IH in Hi. lia.
Qed.

Lemma used_dir fs d name i : d ∈ fs_dirs fs → d !! name = Some i → i ∈ usedInodes fs.
Proof.
  intros Hd Hi. unfold usedInodes. apply elem_of_app. right. apply list_elem_of_join.
  exists ((map_to_list d).*2). split; [|by apply (list_elem_of_fmap_2 (λ d : gmap fileName Z, (map_to_list d).*2))].
  apply list_elem_of_fmap. exists (name, i). split; [done|]. by apply elem_of_map_to_list.
Qed.

Lemma used_inode fs i x : fs_inodes fs !! i = Some x → i ∈ usedInodes fs.
Proof.
  intros Hi. unfold usedInodes. apply elem_of_app. left.
  apply list_elem_of_fmap. exists (i, x). split; [done|]. by apply elem_of_map_to_list.
Qed.

(** Changing the data of an inode no real name has. *)
Lemma entry_holds_alter fs f i V entry d u : entry ≠ Some i →
  entry_holds fs V entry → entry_holds (mkFS d u (alter f i (fs_inodes fs))) V entry.
Proof.
  intros Hne. destruct entry as [j|]; simpl; [|done]. intros (x & Hx & ?). exists x.
  by rewrite lookup_alter_ne by congruence.
Qed.

(** ** The atomic write *)

(** A temporary file exists under number [n] as inode [i], which no real name
    has in any directory a crash may bring back. *)
Definition staged (fs : FS) (n i : Z) (V : fileName → bytes → Prop) : Prop :=
  fs_dir fs !! FTemp n = Some i ∧
  ∀ name, real name → holds fs name (V name) ∧ ∀ d, d ∈ fs_dirs fs → d !! name ≠ Some i.

Lemma CreateTemp_staged fs n V : (∀ name, real name → holds fs name (V name)) →
  ∃ i, staged (fs_exec fs (CreateTemp n)) n i V ∧
    fs_inodes (fs_exec fs (CreateTemp n)) !! i = Some (mkInode [] false).
Proof.
  intros H. exists (nextInode fs). simpl. split; [|by rewrite lookup_insert_eq].
  split; [simpl; by rewrite lookup_insert_eq|]. intros name Hname.
  assert (∀ d, d ∈ fs_dirs fs → d !! name ≠ Some (nextInode fs)) as Hne.
  { intros d Hd Hi. apply (used_dir fs d name) in Hi; [|done]. apply usedInodes_bound in Hi. lia. }
  assert (∀ d, d ∈ fs_dirs (fs_exec fs (CreateTemp n)) → ∃ d0, d0 ∈ fs_dirs fs ∧ d !! name = d0 !! name) as Hd0.
  { intros d [->|Hd]%elem_of_cons; [|by exists d]. exists (fs_dir fs). split; [by left|].
    simpl. rewrite lookup_insert_ne; [done|]. by intros <-. }
  split.
  - intros d Hd. destruct (Hd0 d Hd) as (d0 & Hin & ->). specialize (H name Hname d0 Hin).
    unfold entry_holds in *. destruct (d0 !! name) as [j|] eqn:Hj; [|done].
    destruct H as (x & Hx & ?). exists x. simpl. rewrite lookup_insert_ne; [done|].
    intros <-. by apply (Hne d0 Hin).
  - intros d Hd. destruct (Hd0 d Hd) as (d0 & Hin & ->). by apply Hne.
Qed.

(** Write and Sync of the temporary file touch its inode only. *)
Lemma staged_alter fs n i f V : staged fs n i V →
  staged (mkFS (fs_dir fs) (fs_unsynced fs) (alter f i (fs_inodes fs))) n i V.
Proof.
  intros [Hi H]. split; [done|]. intros name Hname. destruct (H name Hname) as [Hh Hne].
  split; [|done]. intros d Hd. apply entry_holds_alter; [by apply Hne|by apply Hh].
Qed.

Lemma staged_holds fs n i V name : staged fs n i V → real name → holds fs name (V name).
Proof. intros [_ H] Hname. by apply H. Qed.

(** Once renamed, the real name has the old contents or the new. *)
Definition orNew (path : fileName) (data : bytes) (V : fileName → bytes → Prop)
    (name : fileName) (v : bytes) : Prop := V name v ∨ (name = path ∧ v = data).
Definition nowNew (path : fileName) (data : bytes) (V : fileName → bytes → Prop)
    (name : fileName) (v : bytes) : Prop := if decide (name = path) then v = data else V name v.

Lemma Rename_holds fs n i path data V : staged fs n i V → real path →
  fs_inodes fs !! i = Some (mkInode data true) →
  let fs' := fs_exec fs (Rename n path) in
  (∀ name, real name → holds fs' name (orNew path data V name)) ∧
  (∀ name, real name → holds (fs_exec fs' SyncDir) name (nowNew path data V name)).
Proof.
  intros [Hi H] Hpath Hino. simpl. rewrite Hi. simpl.
  assert (∀ name, real name → entry_holds (setDir (<[path:=i]> (delete (FTemp n) (fs_dir fs))) fs)
    (nowNew path data V name) (<[path:=i]> (delete (FTemp n) (fs_dir fs)) !! name)) as Hnew.
  { intros name Hname. unfold nowNew. destruct (decide (name = path)) as [->|Hne].
    - rewrite lookup_insert_eq. by exists (mkInode data true).
    - rewrite lookup_insert_ne, lookup_delete_ne by (by intros <-).
      apply (H name Hname). by left. }
  split; intros name Hname d Hd.
  - apply elem_of_cons in Hd as [->|Hd].
    + eapply entry_holds_weaken; [|by apply Hnew]. unfold nowNew, orNew. intros v. destruct (decide _); auto.
    + eapply entry_holds_weaken; [|by apply (H name Hname)]. by left.
  - apply list_elem_of_singleton in Hd as ->. by apply (Hnew name).
Qed.

Lemma Remove_holds fs n name V : real name → holds fs name V → holds (fs_exec fs (Remove n)) name V.
Proof.
  intros Hname H d [->|Hd]%elem_of_cons; [|by apply (H d)]. simpl.
  rewrite lookup_delete_ne by (by intros <-). apply H. by left.
Qed.

(** After every call, and at the end, each real name has its old contents or,
    under the written name, the new; after a success, the new. *)
Definition write_post (path : fileName) (data : bytes) (V : fileName → bytes → Prop)
    (res : list FS * FilePersister * bool) : Prop :=
  let '(trace, p, ok) := res in
  fp_fs p ∈ trace ∧
  (∀ fs name, fs ∈ trace → real name → holds fs name (orNew path data V name)) ∧
  (ok = true → ∀ name, real name → holds (fp_fs p) name (nowNew path data V name)).

Lemma orNew_holds fs path data V : (∀ name, real name → holds fs name (V name)) →
  ∀ name, real name → holds fs name (orNew path data V name).
Proof. intros H name Hname. eapply holds_weaken; [|by apply H]. by left. Qed.

(** The calls after CreateTemp. *)
Lemma atomic_calls fs n i path data V faults trace fs' rest ok : staged fs n i V → real path →
  fs_inodes fs !! i = Some (mkInode [] false) →
  fs_run fs [Write n data; Sync n; CloseFile; Rename n path; OpenDir; SyncDir] faults = (trace, fs', rest, ok) →
  (∀ fs0 name, fs0 ∈ trace ++ [fs'] → real name → holds fs0 name (orNew path data V name)) ∧
  (ok = true → ∀ name, real name → holds fs' name (nowNew path data V name)).
Proof.
  intros Hst Hpath Hino.
  set (fs1 := fs_exec fs (Write n data)). set (fs2 := fs_exec fs1 (Sync n)).
  set (fs3 := fs_exec fs2 (Rename n path)). set (fs4 := fs_exec fs3 SyncDir).
  assert (fs1 = mkFS (fs_dir fs) (fs_unsynced fs) (alter (λ x, mkInode (i_data x ++ data) false) i (fs_inodes fs)))
    as H1 by (unfold fs1; simpl; by rewrite (proj1 Hst)).
  assert (staged fs1 n i V) as Hst1 by (rewrite H1; by apply staged_alter).
  assert (fs2 = mkFS (fs_dir fs1) (fs_unsynced fs1) (alter (λ x, mkInode (i_data x) true) i (fs_inodes fs1)))
    as H2 by (unfold fs2; simpl; by rewrite (proj1 Hst1)).
  assert (staged fs2 n i V) as Hst2 by (rewrite H2; by apply staged_alter).
  assert (fs_inodes fs2 !! i = Some (mkInode data true)) as Hino2.
  { rewrite H2, H1. simpl. by rewrite !lookup_alter_eq, Hino. }
  destruct (Rename_holds fs2 n i path data V Hst2 Hpath Hino2) as [H3 H4]. fold fs3 in H3, H4. fold fs4 in H4.
  assert (∀ f j, staged f n j V → ∀ name, real name → holds f name (orNew path data V name)) as Hold
    by (intros f j Hf; apply orNew_holds; intros name Hn; by eapply staged_holds).
  assert (∀ name, real name → holds fs4 name (orNew path data V name)) as H4'.
  { intros name Hn. eapply holds_weaken; [|by apply H4]. unfold nowNew, orNew. intros v. destruct (decide _); auto. }
  assert (∀ fs0, fs0 ∈ [fs; fs1; fs2; fs3; fs4] → ∀ name, real name → holds fs0 name (orNew path data V name)) as Hall.
  { intros fs0 Hin. repeat (apply elem_of_cons in Hin as [->|Hin]); eauto. by apply not_elem_of_nil in Hin. }
  clear Hold H3 H4'. cbn [fs_run]. fold fs1 fs2.
  change (fs_exec fs2 CloseFile) with fs2. fold fs3. change (fs_exec fs3 OpenDir) with fs3. fold fs4.
  repeat (destruct (default false _); [intros [= <- <- _ <-]; (split; [|done]);
    intros fs0 name Hin; apply (Hall fs0); rewrite ?elem_of_app, ?elem_of_cons, ?elem_of_nil in *; cbn in *; tauto|]).
  intros [= <- <- _ <-]. split; [|done]. intros fs0 name Hin. apply (Hall fs0). rewrite ?elem_of_app, ?elem_of_cons, ?elem_of_nil in *; cbn in *; tauto.
Qed.

Lemma writeFileAtomicLocked_meets p path data V : real path →
  (∀ name, real name → holds (fp_fs p) name (V name)) →
  write_post path data V (writeFileAtomicLocked p path data).
Proof.
  intros Hpath H. unfold writeFileAtomicLocked. set (n := fp_temp p).
  set (calls := [Write n data; Sync n; CloseFile; Rename n path; OpenDir; SyncDir]).
  cbn [fs_run]. destruct (default false (head (fp_faults p))); cbn [negb].
  { simpl. split; [by left|]. split; [|done].
    intros fs name ->%list_elem_of_singleton. by apply orNew_holds. }
  destruct (CreateTemp_staged (fp_fs p) n V H) as (i & Hst & Hino).
  set (fs1 := fs_exec (fp_fs p) (CreateTemp n)) in *.
  destruct (fs_run fs1 calls (tail (fp_faults p))) as [[[trace fs2] faults] ok] eqn:Hrun.
  destruct (atomic_calls _ _ _ _ _ _ _ _ _ _ _ Hst Hpath Hino Hrun) as [Htr Hok].
  assert (∀ name, real name → holds fs2 name (orNew path data V name)) as H2
    by (intros name; apply Htr; apply elem_of_app; right; by left).
  simpl. split; [apply elem_of_cons; right; apply elem_of_app; right; by left|]. split.
  - intros fs name [->|[Hin| ->%list_elem_of_singleton]%elem_of_app]%elem_of_cons Hname.
    + apply orNew_holds; [|done]. intros nm Hnm. by eapply staged_holds.
    + apply Htr; [|done]. apply elem_of_app. by left.
    + apply Remove_holds; auto.
  - intros Ht name Hname. apply Remove_holds; auto.
Qed.

(** ** Crashes during a save *)

(** What a crash in state [fs] leaves on the disk: contents [R] allows, and
    which stay there. *)
Definition crash_leaves (fs : FS) (R : bytes → bytes → Prop) : Prop :=
  ∀ fs', crash fs fs' → ∃ s w, readFileOrEmpty fs' FState = Some s ∧ readFileOrEmpty fs' FSnapshot = Some w ∧
    R s w ∧ holds fs' FState (eq s) ∧ holds fs' FSnapshot (eq w).

Lemma holds_crash_leaves fs Vs Vw (R : bytes → bytes → Prop) : (∀ s w, Vs s → Vw w → R s w) →
  holds fs FState Vs → holds fs FSnapshot Vw → crash_leaves fs R.
Proof.
  intros HR Hs Hw fs' Hc. destruct (holds_crash _ _ _ _ Hc Hs) as (s & ? & ? & ?).
  destruct (holds_crash _ _ _ _ Hc Hw) as (w & ? & ? & ?). exists s, w. split_and!; auto.
Qed.

(** Sets of contents for the two real names. *)
Definition contents (Vs Vw : bytes → Prop) (name : fileName) : bytes → Prop :=
  match name with FState => Vs | FSnapshot => Vw | FTemp _ => λ _, False end.

Lemma contents_holds fs Vs Vw : holds fs FState Vs → holds fs FSnapshot Vw →
  ∀ name, real name → holds fs name (contents Vs Vw name).
Proof. by intros ?? []. Qed.

(** SaveState, whatever fails and wherever it crashes: the old state or the
    new one, and the snapshot as it was. *)
Lemma SaveState_meets p Vs Vw b trace p' ok :
  holds (fp_fs p) FState Vs → holds (fp_fs p) FSnapshot Vw →
  writeFileAtomicLocked p FState b = (trace, p', ok) →
  (∀ fs, fs ∈ trace → crash_leaves fs (λ s w, (Vs s ∨ s = b) ∧ Vw w)) ∧
  (ok = true → holds (fp_fs p') FState (eq b) ∧ holds (fp_fs p') FSnapshot Vw).
Proof.
  intros Hs Hw Heq. pose proof (writeFileAtomicLocked_meets p FState b _ I (contents_holds _ _ _ Hs Hw)) as Hm.
  rewrite Heq in Hm. destruct Hm as (_ & Htr & Hok). split.
  - intros fs Hin. eapply holds_crash_leaves; [|by apply (Htr fs FState)|by apply (Htr fs FSnapshot)].
    unfold orNew, contents. intros s w [?|[_ ?]] [?|[[=] _]]; auto.
  - intros Ht. split; [|by apply (Hok Ht FSnapshot)].
    eapply holds_weaken; [|by apply (Hok Ht FState)]. by intros v ->.
Qed.

Lemma SaveSnapshot_meets p Vs Vw d trace p' ok :
  holds (fp_fs p) FState Vs → holds (fp_fs p) FSnapshot Vw →
  writeFileAtomicLocked p FSnapshot d = (trace, p', ok) →
  (∀ fs, fs ∈ trace → crash_leaves fs (λ s w, Vs s ∧ (Vw w ∨ w = d))) ∧
  (ok = true → holds (fp_fs p') FState Vs ∧ holds (fp_fs p') FSnapshot (eq d)).
Proof.
  intros Hs Hw Heq. pose proof (writeFileAtomicLocked_meets p FSnapshot d _ I (contents_holds _ _ _ Hs Hw)) as Hm.
  rewrite Heq in Hm. destruct Hm as (_ & Htr & Hok). split.
  - intros fs Hin. eapply holds_crash_leaves; [|by apply (Htr fs FState)|by apply (Htr fs FSnapshot)].
    unfold orNew, contents. intros s w [?|[[=] _]] [?|[_ ?]]; auto.
  - intros Ht. split; [by apply (Hok Ht FState)|].
    eapply holds_weaken; [|by apply (Hok Ht FSnapshot)]. by intros v ->.
Qed.

(** C13: A crash at any point of SaveStateAndSnapshot, after any of its system
    calls and whichever of them failed, leaves complete contents under both
    names: the old state with the old or the new snapshot, or the new state
    with the new snapshot; never the new state, which may claim that the log
    before it is compacted, without the snapshot that backs it. When the call
    returns nil, the new pair is what a crash at any later time leaves. *)
Theorem save_both_crash_safe p Vs Vw b d trace p' ok :
  holds (fp_fs p) FState Vs → holds (fp_fs p) FSnapshot Vw →
  saveBoth p b d = (trace, p', ok) →
  (∀ fs, fs ∈ fp_fs p :: trace → crash_leaves fs (λ s w, (Vs s ∧ (Vw w ∨ w = d)) ∨ (s = b ∧ w = d))) ∧
  (ok = true → crash_leaves (fp_fs p') (λ s w, s = b ∧ w = d) ∧
    ReadState p' = Some b ∧ ReadSnapshot p' = Some d).
Proof.
  intros Hs Hw. unfold saveBoth.
  destruct (writeFileAtomicLocked p FSnapshot d) as [[trace1 p1] ok1] eqn:H1.
  destruct (SaveSnapshot_meets _ _ _ _ _ _ _ Hs Hw H1) as [Htr1 Hok1].
  assert (∀ fs, fs ∈ fp_fs p :: trace1 →
    crash_leaves fs (λ s w, (Vs s ∧ (Vw w ∨ w = d)) ∨ (s = b ∧ w = d))) as Hbefore.
  { intros fs [->|Hin]%elem_of_cons; [by eapply holds_crash_leaves, Hw; [|exact Hs]; auto|].
    intros fs' Hc. destruct (Htr1 fs Hin fs' Hc) as (s & w & ? & ? & ? & ? & ?). exists s, w. auto. }
  destruct ok1; [|by intros [= <- <- <-]]. cbn [negb]. destruct (Hok1 eq_refl) as [Hs1 Hw1].
  destruct (writeFileAtomicLocked p1 FState b) as [[trace2 p2] ok2] eqn:H2. intros [= <- <- <-].
  destruct (SaveState_meets _ _ _ _ _ _ _ Hs1 Hw1 H2) as [Htr2 Hok2]. split.
  - intros fs Hin. change (fs ∈ (fp_fs p :: trace1) ++ trace2) in Hin.
    apply elem_of_app in Hin as [Hin|Hin]; [by apply Hbefore|].
    intros fs' Hc. destruct (Htr2 fs Hin fs' Hc) as (s & w & ? & ? & [Hv <-] & ? & ?). exists s, d.
    destruct Hv; auto 10.
  - intros Ht. destruct (Hok2 Ht) as [Hs2 Hw2].
    destruct (holds_read _ _ _ Hs2) as (? & ? & <-), (holds_read _ _ _ Hw2) as (? & ? & <-).
    split; [|done]. by eapply holds_crash_leaves, Hw2; [|exact Hs2]; intros s w <- <-.
Qed.

(** ** The interface the Raft node relies on *)

Lemma write_ok p path data trace p' : real path → writeFileAtomicLocked p path data = (trace, p', true) →
  readFileOrEmpty (fp_fs p') path = Some data ∧
  ∀ name, real name → name ≠ path → readFileOrEmpty (fp_fs p') name = readFileOrEmpty (fp_fs p) name.
Proof.
  intros Hpath. unfold writeFileAtomicLocked. cbn [fs_run].
  destruct (default false _); [done|]. cbn [negb fs_run fs_exec fs_dir setDir].
  repeat (destruct (default false _); [done|]). repeat (rewrite lookup_insert_eq; cbn [fs_dir setDir]).
  intros [= _ <-]. cbn [fp_fs fs_dir fs_inodes setDir]. set (i := nextInode _).
  assert (∀ name, real name → delete (FTemp (fp_temp p)) (<[path:=i]>
    (delete (FTemp (fp_temp p)) (<[FTemp (fp_temp p):=i]> (fs_dir (fp_fs p))))) !! name =
    if decide (name = path) then Some i else fs_dir (fp_fs p) !! name) as Hl.
  { intros name Hname. rewrite lookup_delete_ne by (by intros <-). destruct (decide (name = path)) as [->|Hne].
    - by rewrite lookup_insert_eq.
    - rewrite lookup_insert_ne, lookup_delete_ne, lookup_insert_ne by (by intros <-). done. }
  unfold readFileOrEmpty. cbn [fs_dir fs_inodes setDir]. split.
  - rewrite Hl, decide_True by done. by rewrite !lookup_alter_eq, lookup_insert_eq.
  - intros name Hname Hne. rewrite Hl, decide_False by done.
    destruct (fs_dir (fp_fs p) !! name) as [j|] eqn:Hj; [|done].
    assert (i ≠ j). { apply (used_dir (fp_fs p) (fs_dir (fp_fs p))) in Hj; [|by left].
      apply usedInodes_bound in Hj. unfold i. lia. }
    by rewrite !lookup_alter_ne, lookup_insert_ne by done.
Qed.

#[export] Instance file_persister_laws : PersisterLaws FilePersister.
Proof.
  split.
  - intros p b p'. simpl. unfold FilePersister_SaveState.
    destruct (writeFileAtomicLocked p FState b) as [[trace p1] []] eqn:H1; [|done]. intros [= <-].
    apply write_ok in H1 as [Hs Hw]; [|done]. split; [done|]. by apply (Hw FSnapshot).
  - intros p b d p'. simpl. unfold FilePersister_SaveStateAndSnapshot, saveBoth.
    destruct (writeFileAtomicLocked p FSnapshot d) as [[trace1 p1] []] eqn:H1; [|done]. cbn [negb].
    destruct (writeFileAtomicLocked p1 FState b) as [[trace2 p2] []] eqn:H2; [|done]. intros [= <-].
    apply write_ok in H1 as [Hw _]; [|done]. apply write_ok in H2 as [Hs Hsame]; [|done].
    split; [done|]. rewrite <- Hw. by apply (Hsame FSnapshot).
Qed.

Module Witness.

(** A new directory; the third system call of the second write, the sync of
    its temporary file, fails. *)
Definition p0 : FilePersister := mkFilePersister (mkFS ∅ [] ∅) 0 [false; false; false; false; false; false; false; false; false; true].

Lemma p0_empty name : holds (fp_fs p0) name (eq []).
Proof. intros d ->%list_elem_of_singleton. done. Qed.

Lemma save_both_crash_safe_witness :
  let '(trace, p', ok) := saveBoth p0 [Byte.x01] [Byte.x02] in
  ok = false ∧ ReadState p' = Some [] ∧ ReadSnapshot p' = Some [Byte.x02] ∧
  ∀ fs, fs ∈ fp_fs p0 :: trace → crash_leaves fs
    (λ s w, ([] = s ∧ ([] = w ∨ w = [Byte.x02])) ∨ (s = [Byte.x01] ∧ w = [Byte.x02])).
Proof.
  destruct (saveBoth p0 [Byte.x01] [Byte.x02]) as [[trace p'] ok] eqn:H.
  split_and!; [..|exact (proj1 (save_both_crash_safe p0 (eq []) (eq []) [Byte.x01] [Byte.x02] trace p' ok
    (p0_empty FState) (p0_empty FSnapshot) H))]; vm_compute in H; by injection H as <- <- <-.
Defined.

End Witness.
