(* ===== verification/RaftNode.v ===== *)
(** * One Raft node (01-raft): its data, and its operations

    [Raft] is the struct of raft.go; every operation that holds [r.mu] is a
    function from the node's state to an [outcome]. The RPC round trips of
    election.go and log_replication.go release the lock while the call is in
    flight, so they are split there: one function for the critical section
    before the call, one for the critical section that handles the reply.
    Go's int counters (terms, indexes) are unbounded integers here: each
    grows by one per election or log entry. *)
From S2P Require Import Prelude Persister.
Local Open Scope Z_scope.

(** ** Data: state.go, rpc.go, apply.go, persist.go, raft.go *)

Inductive serverState : Type := Follower | Candidate | Leader.

#[export] Instance serverState_eq_dec : EqDecision serverState.
Proof. solve_decision. Defined.

(** serverState.String *)
Definition serverState_String (s : serverState) : string :=
  match s with
  | Follower => "Follower"
  | Candidate => "Candidate"
  | Leader => "Leader"
  end.

Record RequestVoteArgs := mkRequestVoteArgs {
  rv_Term : Z;
  rv_CandidateID : Z;
  rv_LastLogIndex : Z;
  rv_LastLogTerm : Z
}.

Record RequestVoteReply := mkRequestVoteReply {
  rvr_Term : Z;
  rvr_VoteGranted : bool
}.

Record LogEntry (Cmd : Type) := mkLogEntry {
  le_Term : Z;
  le_Command : Cmd
}.
Arguments mkLogEntry {Cmd} _ _.
Arguments le_Term {Cmd} _.
Arguments le_Command {Cmd} _.

Record AppendEntriesArgs (Cmd : Type) := mkAppendEntriesArgs {
  ae_Term : Z;
  ae_LeaderID : Z;
  ae_PrevLogIndex : Z;
  ae_PrevLogTerm : Z;
  ae_Entries : list (LogEntry Cmd);
  ae_LeaderCommit : Z
}.
Arguments mkAppendEntriesArgs {Cmd} _ _ _ _ _ _.
Arguments ae_Term {Cmd} _.
Arguments ae_LeaderID {Cmd} _.
Arguments ae_PrevLogIndex {Cmd} _.
Arguments ae_PrevLogTerm {Cmd} _.
Arguments ae_Entries {Cmd} _.
Arguments ae_LeaderCommit {Cmd} _.

Record AppendEntriesReply := mkAppendEntriesReply {
  aer_Term : Z;
  aer_Success : bool
}.

Record InstallSnapshotArgs := mkInstallSnapshotArgs {
  is_Term : Z;
  is_LeaderID : Z;
  is_LastIncludedIndex : Z;
  is_LastIncludedTerm : Z;
  is_Data : bytes
}.

Record InstallSnapshotReply := mkInstallSnapshotReply { isr_Term : Z }.

(** What goes over ApplyCh; [am_Command] is [None] where Go leaves the
    interface nil (a snapshot message). *)
Record ApplyMsg (Cmd : Type) := mkApplyMsg {
  am_CommandValid : bool;
  am_Index : Z;
  am_Term : Z;
  am_Command : option Cmd;
  am_SnapshotValid : bool;
  am_Snapshot : bytes;
  am_SnapshotIndex : Z;
  am_SnapshotTerm : Z
}.
Arguments mkApplyMsg {Cmd} _ _ _ _ _ _ _ _.
Arguments am_CommandValid {Cmd} _.
Arguments am_Index {Cmd} _.
Arguments am_Term {Cmd} _.
Arguments am_Command {Cmd} _.
Arguments am_SnapshotValid {Cmd} _.
Arguments am_Snapshot {Cmd} _.
Arguments am_SnapshotIndex {Cmd} _.
Arguments am_SnapshotTerm {Cmd} _.

Definition commandMsg {Cmd} (index term : Z) (c : Cmd) : ApplyMsg Cmd :=
  mkApplyMsg true index term (Some c) false [] 0 0.

Definition snapshotMsg {Cmd} (data : bytes) (index term : Z) : ApplyMsg Cmd :=
  mkApplyMsg false 0 0 None true data index term.

Record persistedState (Cmd : Type) := mkPersistedState {
  ps_CurrentTerm : Z;
  ps_VotedFor : Z;
  ps_Log : list (LogEntry Cmd);
  ps_LastIncludedIndex : Z;
  ps_LastIncludedTerm : Z
}.
Arguments mkPersistedState {Cmd} _ _ _ _ _.
Arguments ps_CurrentTerm {Cmd} _.
Arguments ps_VotedFor {Cmd} _.
Arguments ps_Log {Cmd} _.
Arguments ps_LastIncludedIndex {Cmd} _.
Arguments ps_LastIncludedTerm {Cmd} _.

(** Codes for the persisted state, so that the gob contract has a concrete
    instance (Prelude.countable_codec) for every countable command type. *)
#[export] Instance LogEntry_eq_dec `{EqDecision Cmd} : EqDecision (LogEntry Cmd).
Proof. solve_decision. Defined.

#[export] Instance LogEntry_countable `{Countable Cmd} : Countable (LogEntry Cmd).
Proof.
  apply (inj_countable' (λ e, (le_Term e, le_Command e)) (λ x, mkLogEntry x.1 x.2)).
  by intros [].
Defined.

#[export] Instance persistedState_eq_dec `{EqDecision Cmd} :
  EqDecision (persistedState Cmd).
Proof. solve_decision. Defined.

#[export] Instance persistedState_countable `{Countable Cmd} :
  Countable (persistedState Cmd).
Proof.
  apply (inj_countable'
    (λ s, (ps_CurrentTerm s, ps_VotedFor s, ps_Log s,
           ps_LastIncludedIndex s, ps_LastIncludedTerm s))
    (λ '(t, v, l, i, u), mkPersistedState t v l i u)).
  by intros [].
Defined.

(** The node. The channels ApplyCh and stopCh and the timer goroutine belong
    to the loops that use them; [r_resetElectionTimer] is whether the
    one-slot reset channel holds a pending signal. *)
Record Raft (Cmd P : Type) := mkRaft {
  r_id : Z;
  r_peers : list Z;
  r_persister : option P;
  r_state : serverState;
  r_currentTerm : Z;
  r_votedFor : Z;
  r_log : list (LogEntry Cmd);
  r_lastIncludedIndex : Z;
  r_lastIncludedTerm : Z;
  r_snapshotData : bytes;
  r_commitIndex : Z;
  r_lastApplied : Z;
  r_pendingSnapshot : option (ApplyMsg Cmd);
  r_nextIndex : gmap Z Z;
  r_matchIndex : gmap Z Z;
  r_resetElectionTimer : bool
}.
Arguments mkRaft {Cmd P} _ _ _ _ _ _ _ _ _ _ _ _ _ _ _ _.
Arguments r_id {Cmd P} _.
Arguments r_peers {Cmd P} _.
Arguments r_persister {Cmd P} _.
Arguments r_state {Cmd P} _.
Arguments r_currentTerm {Cmd P} _.
Arguments r_votedFor {Cmd P} _.
Arguments r_log {Cmd P} _.
Arguments r_lastIncludedIndex {Cmd P} _.
Arguments r_lastIncludedTerm {Cmd P} _.
Arguments r_snapshotData {Cmd P} _.
Arguments r_commitIndex {Cmd P} _.
Arguments r_lastApplied {Cmd P} _.
Arguments r_pendingSnapshot {Cmd P} _.
Arguments r_nextIndex {Cmd P} _.
Arguments r_matchIndex {Cmd P} _.
Arguments r_resetElectionTimer {Cmd P} _.

(** Field assignments [r.f = v]. *)
Section assignments.
Context {Cmd P : Type}.
Implicit Type r : Raft Cmd P.

Definition set_persister (v : option P) r : Raft Cmd P :=
  mkRaft (r_id r) (r_peers r) v (r_state r) (r_currentTerm r) (r_votedFor r) (r_log r) (r_lastIncludedIndex r) (r_lastIncludedTerm r) (r_snapshotData r) (r_commitIndex r) (r_lastApplied r) (r_pendingSnapshot r) (r_nextIndex r) (r_matchIndex r) (r_resetElectionTimer r).
Definition set_state (v : serverState) r : Raft Cmd P :=
  mkRaft (r_id r) (r_peers r) (r_persister r) v (r_currentTerm r) (r_votedFor r) (r_log r) (r_lastIncludedIndex r) (r_lastIncludedTerm r) (r_snapshotData r) (r_commitIndex r) (r_lastApplied r) (r_pendingSnapshot r) (r_nextIndex r) (r_matchIndex r) (r_resetElectionTimer r).
Definition set_currentTerm (v : Z) r : Raft Cmd P :=
  mkRaft (r_id r) (r_peers r) (r_persister r) (r_state r) v (r_votedFor r) (r_log r) (r_lastIncludedIndex r) (r_lastIncludedTerm r) (r_snapshotData r) (r_commitIndex r) (r_lastApplied r) (r_pendingSnapshot r) (r_nextIndex r) (r_matchIndex r) (r_resetElectionTimer r).
Definition set_votedFor (v : Z) r : Raft Cmd P :=
  mkRaft (r_id r) (r_peers r) (r_persister r) (r_state r) (r_currentTerm r) v (r_log r) (r_lastIncludedIndex r) (r_lastIncludedTerm r) (r_snapshotData r) (r_commitIndex r) (r_lastApplied r) (r_pendingSnapshot r) (r_nextIndex r) (r_matchIndex r) (r_resetElectionTimer r).
Definition set_log (v : list (LogEntry Cmd)) r : Raft Cmd P :=
  mkRaft (r_id r) (r_peers r) (r_persister r) (r_state r) (r_currentTerm r) (r_votedFor r) v (r_lastIncludedIndex r) (r_lastIncludedTerm r) (r_snapshotData r) (r_commitIndex r) (r_lastApplied r) (r_pendingSnapshot r) (r_nextIndex r) (r_matchIndex r) (r_resetElectionTimer r).
Definition set_lastIncludedIndex (v : Z) r : Raft Cmd P :=
  mkRaft (r_id r) (r_peers r) (r_persister r) (r_state r) (r_currentTerm r) (r_votedFor r) (r_log r) v (r_lastIncludedTerm r) (r_snapshotData r) (r_commitIndex r) (r_lastApplied r) (r_pendingSnapshot r) (r_nextIndex r) (r_matchIndex r) (r_resetElectionTimer r).
Definition set_lastIncludedTerm (v : Z) r : Raft Cmd P :=
  mkRaft (r_id r) (r_peers r) (r_persister r) (r_state r) (r_currentTerm r) (r_votedFor r) (r_log r) (r_lastIncludedIndex r) v (r_snapshotData r) (r_commitIndex r) (r_lastApplied r) (r_pendingSnapshot r) (r_nextIndex r) (r_matchIndex r) (r_resetElectionTimer r).
Definition set_snapshotData (v : bytes) r : Raft Cmd P :=
  mkRaft (r_id r) (r_peers r) (r_persister r) (r_state r) (r_currentTerm r) (r_votedFor r) (r_log r) (r_lastIncludedIndex r) (r_lastIncludedTerm r) v (r_commitIndex r) (r_lastApplied r) (r_pendingSnapshot r) (r_nextIndex r) (r_matchIndex r) (r_resetElectionTimer r).
Definition set_commitIndex (v : Z) r : Raft Cmd P :=
  mkRaft (r_id r) (r_peers r) (r_persister r) (r_state r) (r_currentTerm r) (r_votedFor r) (r_log r) (r_lastIncludedIndex r) (r_lastIncludedTerm r) (r_snapshotData r) v (r_lastApplied r) (r_pendingSnapshot r) (r_nextIndex r) (r_matchIndex r) (r_resetElectionTimer r).
Definition set_lastApplied (v : Z) r : Raft Cmd P :=
  mkRaft (r_id r) (r_peers r) (r_persister r) (r_state r) (r_currentTerm r) (r_votedFor r) (r_log r) (r_lastIncludedIndex r) (r_lastIncludedTerm r) (r_snapshotData r) (r_commitIndex r) v (r_pendingSnapshot r) (r_nextIndex r) (r_matchIndex r) (r_resetElectionTimer r).
Definition set_pendingSnapshot (v : option (ApplyMsg Cmd)) r : Raft Cmd P :=
  mkRaft (r_id r) (r_peers r) (r_persister r) (r_state r) (r_currentTerm r) (r_votedFor r) (r_log r) (r_lastIncludedIndex r) (r_lastIncludedTerm r) (r_snapshotData r) (r_commitIndex r) (r_lastApplied r) v (r_nextIndex r) (r_matchIndex r) (r_resetElectionTimer r).
Definition set_nextIndex (v : gmap Z Z) r : Raft Cmd P :=
  mkRaft (r_id r) (r_peers r) (r_persister r) (r_state r) (r_currentTerm r) (r_votedFor r) (r_log r) (r_lastIncludedIndex r) (r_lastIncludedTerm r) (r_snapshotData r) (r_commitIndex r) (r_lastApplied r) (r_pendingSnapshot r) v (r_matchIndex r) (r_resetElectionTimer r).
Definition set_matchIndex (v : gmap Z Z) r : Raft Cmd P :=
  mkRaft (r_id r) (r_peers r) (r_persister r) (r_state r) (r_currentTerm r) (r_votedFor r) (r_log r) (r_lastIncludedIndex r) (r_lastIncludedTerm r) (r_snapshotData r) (r_commitIndex r) (r_lastApplied r) (r_pendingSnapshot r) (r_nextIndex r) v (r_resetElectionTimer r).
Definition set_resetElectionTimer (v : bool) r : Raft Cmd P :=
  mkRaft (r_id r) (r_peers r) (r_persister r) (r_state r) (r_currentTerm r) (r_votedFor r) (r_log r) (r_lastIncludedIndex r) (r_lastIncludedTerm r) (r_snapshotData r) (r_commitIndex r) (r_lastApplied r) (r_pendingSnapshot r) (r_nextIndex r) (r_matchIndex r) v.
End assignments.

Section node.
Context {Cmd P : Type} `{!Persister P, !Codec (persistedState Cmd)}.
Abbreviation Raft := (Raft Cmd P).
Abbreviation LogEntry := (LogEntry Cmd).
Abbreviation AppendEntriesArgs := (AppendEntriesArgs Cmd).
Abbreviation ApplyMsg := (ApplyMsg Cmd).
Implicit Type r : Raft.

(** ** Persistence: persist.go *)

Definition persistedState_of r : persistedState Cmd :=
  mkPersistedState (r_currentTerm r) (r_votedFor r) (r_log r)
    (r_lastIncludedIndex r) (r_lastIncludedTerm r).

Definition encodeStateLocked r : bytes := gob_encode (persistedState_of r).

Definition RaftStateSize r : Z := zlen (encodeStateLocked r).

Definition persistLocked r : outcome Raft :=
  match r_persister r with
  | None => Ret r
  | Some p =>
      match SaveState p (encodeStateLocked r) with
      | (p', true) => Ret (set_persister (Some p') r)
      | (_, false) => Panic
      end
  end.

Definition saveSnapshotLocked r (data : bytes) : outcome Raft :=
  match r_persister r with
  | None => Ret r
  | Some p =>
      match SaveStateAndSnapshot p (encodeStateLocked r) data with
      | (p', true) => Ret (set_persister (Some p') r)
      | (_, false) => Panic
      end
  end.

Definition restoreLocked r : outcome Raft :=
  match r_persister r with
  | None => Ret r
  | Some p =>
      data ← or_panic (ReadState p);
      match data with
      | [] => Ret r
      | _ =>
          state ← or_panic (gob_decode data);
          let lii := ps_LastIncludedIndex state in
          snap ← (if 0 <? lii then or_panic (ReadSnapshot p)
                  else Ret (r_snapshotData r));
          let commit :=
            if r_commitIndex r <? lii then lii else r_commitIndex r in
          let applied :=
            if r_lastApplied r <? lii then lii else r_lastApplied r in
          Ret (mkRaft (r_id r) (r_peers r) (r_persister r) (r_state r)
                 (ps_CurrentTerm state) (ps_VotedFor state) (ps_Log state)
                 lii (ps_LastIncludedTerm state) snap commit applied
                 (r_pendingSnapshot r) (r_nextIndex r) (r_matchIndex r)
                 (r_resetElectionTimer r))
      end
  end.

(** ** Construction: raft.go *)

Definition freshRaft (id : Z) (peers : list Z) (persister : option P) : Raft :=
  mkRaft id peers persister Follower 0 (-1) [] 0 0 [] 0 0 None ∅ ∅ false.

Definition newRaft (id : Z) (peers : list Z) (persister : option P) : outcome Raft :=
  restoreLocked (freshRaft id peers persister).

Definition NewRaft (id : Z) (peers : list Z) : outcome Raft :=
  newRaft id peers None.

Definition NewRaftWithPersister (id : Z) (peers : list Z) (p : P) : outcome Raft :=
  newRaft id peers (Some p).

Definition ResetElectionTimer r : Raft := set_resetElectionTimer true r.

(** ** Log positions: snapshot.go, election.go *)

Definition physicalIndexLocked r (index : Z) : Z :=
  index - r_lastIncludedIndex r - 1.

Definition termAtLocked r (index : Z) : Z * bool :=
  if index =? r_lastIncludedIndex r then (r_lastIncludedTerm r, true)
  else if index <=? r_lastIncludedIndex r then (0, false)
  else
    let physIdx := physicalIndexLocked r index in
    match zget (r_log r) physIdx with
    | Some e => (le_Term e, true)
    | None => (0, false)
    end.

Definition lastLogInfoLocked r : Z * Z :=
  match list.last (r_log r) with
  | None => (r_lastIncludedIndex r, r_lastIncludedTerm r)
  | Some e => (r_lastIncludedIndex r + zlen (r_log r), le_Term e)
  end.

Definition candidateLogIsUpToDateLocked r
    (candidateLastIndex candidateLastTerm : Z) : bool :=
  let '(myLastIndex, myLastTerm) := lastLogInfoLocked r in
  if negb (candidateLastTerm =? myLastTerm)
  then myLastTerm <? candidateLastTerm
  else myLastIndex <=? candidateLastIndex.

(** ** Role transitions: state.go *)

Definition becomeFollowerLocked r (term : Z) : outcome Raft :=
  let r := if r_currentTerm r <? term
           then set_votedFor (-1) (set_currentTerm term r) else r in
  persistLocked (set_state Follower r).

(** The string is Go's non-nil error. *)
Definition becomeCandidateLocked r : outcome (Raft * option string) :=
  match r_state r with
  | Leader => Ret (r, Some "raft: invalid transition Leader -> Candidate"%string)
  | _ =>
      let r := set_state Candidate r in
      let r := set_currentTerm (r_currentTerm r + 1) r in
      let r := set_votedFor (r_id r) r in
      r ← persistLocked r;
      Ret (r, None)
  end.

Definition becomeLeaderLocked r : outcome (Raft * option string) :=
  match r_state r with
  | Candidate =>
      let r := set_state Leader r in
      let '(lastIndex, _) := lastLogInfoLocked r in
      let r := set_nextIndex
        (foldl (λ m peer, <[peer := lastIndex + 1]> m) ∅ (r_peers r)) r in
      let r := set_matchIndex
        (foldl (λ m peer, <[peer := 0]> m) ∅ (r_peers r)) r in
      Ret (r, None)
  | s =>
      Ret (r, Some ("raft: invalid transition " +:+ serverState_String s +:+
                    " -> Leader (must come from Candidate)")%string)
  end.

(** ** Commit rule: commit.go *)

Definition matchOf r (peer : Z) : Z := default 0 (r_matchIndex r !! peer).
Definition nextOf r (peer : Z) : Z := default 0 (r_nextIndex r !! peer).

(** [sort.Sort(sort.Reverse(sort.IntSlice(ms)))] *)
Definition sort_desc (ms : list Z) : list Z := merge_sort Z.ge ms.

Definition advanceCommitIndexLocked r : outcome Raft :=
  match r_state r with
  | Leader =>
      let '(lastIndex, _) := lastLogInfoLocked r in
      let matches := sort_desc (lastIndex :: map (matchOf r) (r_peers r)) in
      let majority := zlen matches / 2 + 1 in
      candidate ← or_panic (zget matches (majority - 1));
      let '(term, ok) := termAtLocked r candidate in
      if (r_commitIndex r <? candidate) && (1 <=? candidate) &&
         (candidate <=? lastIndex) && ok && (term =? r_currentTerm r)
      then Ret (set_commitIndex candidate r)
      else Ret r
  | _ => Ret r
  end.

(** ** Proposals: log.go *)

Definition Propose r (command : Cmd) : outcome (Raft * (Z * Z * bool)) :=
  match r_state r with
  | Leader =>
      let r := set_log (r_log r ++ [mkLogEntry (r_currentTerm r) command]) r in
      r ← persistLocked r;
      r ← advanceCommitIndexLocked r;
      Ret (r, (r_lastIncludedIndex r + zlen (r_log r), r_currentTerm r, true))
  | _ => Ret (r, (0, 0, false))
  end.

(** ** RPC handlers: raft.go *)

Definition RequestVote r (args : RequestVoteArgs) :
    outcome (Raft * RequestVoteReply) :=
  r ← (if r_currentTerm r <? rv_Term args
       then becomeFollowerLocked r (rv_Term args) else Ret r);
  let term := r_currentTerm r in
  if rv_Term args <? r_currentTerm r
  then Ret (r, mkRequestVoteReply term false)
  else
    let alreadyVotedForSomeoneElse :=
      negb (r_votedFor r =? -1) && negb (r_votedFor r =? rv_CandidateID args) in
    let logIsUpToDate :=
      candidateLogIsUpToDateLocked r (rv_LastLogIndex args) (rv_LastLogTerm args) in
    if alreadyVotedForSomeoneElse || negb logIsUpToDate
    then Ret (r, mkRequestVoteReply term false)
    else
      r ← persistLocked (set_votedFor (rv_CandidateID args) r);
      Ret (ResetElectionTimer r, mkRequestVoteReply term true).

Definition AppendEntries r (args : AppendEntriesArgs) :
    outcome (Raft * AppendEntriesReply) :=
  if ae_Term args <? r_currentTerm r
  then Ret (r, mkAppendEntriesReply (r_currentTerm r) false)
  else
    r ← becomeFollowerLocked r (ae_Term args);
    let term := r_currentTerm r in
    let '(lastLogIndex, _) := lastLogInfoLocked r in
    let '(prevTerm, ok) := termAtLocked r (ae_PrevLogIndex args) in
    if (0 <? ae_PrevLogIndex args) &&
       ((lastLogIndex <? ae_PrevLogIndex args) || negb ok ||
        negb (prevTerm =? ae_PrevLogTerm args))
    then Ret (ResetElectionTimer r, mkAppendEntriesReply term false)
    else
      r ← (if 0 <? zlen (ae_Entries args)
           then kept ← slice_to (r_log r)
                         (physicalIndexLocked r (ae_PrevLogIndex args) + 1);
                persistLocked (set_log (kept ++ ae_Entries args) r)
           else Ret r);
      let r :=
        if r_commitIndex r <? ae_LeaderCommit args
        then let '(lastNewIndex, _) := lastLogInfoLocked r in
             if ae_LeaderCommit args <? lastNewIndex
             then set_commitIndex (ae_LeaderCommit args) r
             else set_commitIndex lastNewIndex r
        else r in
      Ret (ResetElectionTimer r, mkAppendEntriesReply term true).

Definition InstallSnapshot r (args : InstallSnapshotArgs) :
    outcome (Raft * InstallSnapshotReply) :=
  if is_Term args <? r_currentTerm r
  then Ret (r, mkInstallSnapshotReply (r_currentTerm r))
  else
    r ← becomeFollowerLocked r (is_Term args);
    let reply := mkInstallSnapshotReply (r_currentTerm r) in
    let r := ResetElectionTimer r in
    if is_LastIncludedIndex args <=? r_lastIncludedIndex r
    then Ret (r, reply)
    else
      let '(entryTerm, ok) := termAtLocked r (is_LastIncludedIndex args) in
      log' ← (if ok && (entryTerm =? is_LastIncludedTerm args)
              then slice_from (r_log r)
                     (physicalIndexLocked r (is_LastIncludedIndex args) + 1)
              else Ret []);
      let r := set_log log' r in
      let r := set_lastIncludedIndex (is_LastIncludedIndex args) r in
      let r := set_lastIncludedTerm (is_LastIncludedTerm args) r in
      let r := set_snapshotData (is_Data args) r in
      let r := set_commitIndex
        (if r_commitIndex r <? is_LastIncludedIndex args
         then is_LastIncludedIndex args else r_commitIndex r) r in
      let r := set_lastApplied
        (if r_lastApplied r <? is_LastIncludedIndex args
         then is_LastIncludedIndex args else r_lastApplied r) r in
      r ← saveSnapshotLocked r (is_Data args);
      Ret (set_pendingSnapshot
             (Some (snapshotMsg (is_Data args) (is_LastIncludedIndex args)
                                (is_LastIncludedTerm args))) r, reply).

(** ** Compaction: snapshot.go *)

Inductive SnapshotError :=
| SnapshotPastLog (index lastLogIndex : Z)
| SnapshotPastApplied (index lastApplied : Z).

Definition Snapshot r (index : Z) (data : bytes) :
    outcome (Raft * option SnapshotError) :=
  if index <=? r_lastIncludedIndex r then Ret (r, None)
  else
    let '(lastLogIndex, _) := lastLogInfoLocked r in
    if lastLogIndex <? index
    then Ret (r, Some (SnapshotPastLog index lastLogIndex))
    else if r_lastApplied r <? index
    then Ret (r, Some (SnapshotPastApplied index (r_lastApplied r)))
    else
      let '(term, _) := termAtLocked r index in
      let physIdx := physicalIndexLocked r index in
      log' ← slice_from (r_log r) (physIdx + 1);
      let r := set_log log' r in
      let r := set_lastIncludedIndex index r in
      let r := set_lastIncludedTerm term r in
      let r := set_snapshotData data r in
      r ← saveSnapshotLocked r data;
      Ret (r, None).

Definition ReadSnapshotData r : bytes := r_snapshotData r.

(** ** Elections: election.go, election_timer.go *)

(** The closure state of one startElection call. *)
Record Election := mkElection {
  el_args : RequestVoteArgs;
  el_votes : Z;
  el_majority : Z
}.

Definition startElection_begin r : Election :=
  let '(lastLogIndex, lastLogTerm) := lastLogInfoLocked r in
  mkElection
    (mkRequestVoteArgs (r_currentTerm r) (r_id r) lastLogIndex lastLogTerm)
    1 ((zlen (r_peers r) + 1) / 2 + 1).

(** One goroutine of startElection once its call has returned a reply. *)
Definition startElection_reply r (el : Election) (reply : RequestVoteReply) :
    outcome (Raft * Election) :=
  if r_currentTerm r <? rvr_Term reply
  then r ← becomeFollowerLocked r (rvr_Term reply); Ret (r, el)
  else if negb (bool_decide (r_state r = Candidate)) ||
          negb (r_currentTerm r =? rv_Term (el_args el))
  then Ret (r, el)
  else if negb (rvr_VoteGranted reply) then Ret (r, el)
  else
    let el := mkElection (el_args el) (el_votes el + 1) (el_majority el) in
    if el_majority el <=? el_votes el
    then '(r, _) ← becomeLeaderLocked r; Ret (r, el)
    else Ret (r, el).

(** The whole call, given the outcome of each peer's RPC ([None]: the call
    failed) in the order the replies are handled, with no other operation
    of the node in between. *)
Fixpoint startElection_replies r (el : Election)
    (replies : list (option RequestVoteReply)) : outcome (Raft * Election) :=
  match replies with
  | [] => Ret (r, el)
  | None :: replies => startElection_replies r el replies
  | Some reply :: replies =>
      '(r, el) ← startElection_reply r el reply;
      startElection_replies r el replies
  end.

Definition startElection r (replies : list (option RequestVoteReply)) :
    outcome Raft :=
  '(r, _) ← startElection_replies r (startElection_begin r) replies; Ret r.

(** RunElectionTimer, when the timer fires: the election to run, if any. *)
Definition electionTimeout r : outcome (Raft * bool) :=
  if bool_decide (r_state r = Leader) then Ret (r, false)
  else
    '(r, err) ← becomeCandidateLocked r;
    Ret (r, match err with None => true | Some _ => false end).

(** ** Replication: log_replication.go *)

(** What replicateToPeer does after its first critical section. *)
Inductive ReplicatePlan :=
| ReplicateNothing
| ReplicateSnapshot
| ReplicateEntries (args : AppendEntriesArgs).

Definition replicateToPeer_begin r (peer : Z) : outcome ReplicatePlan :=
  match r_state r with
  | Leader =>
      let next := nextOf r peer in
      if next <=? r_lastIncludedIndex r then Ret ReplicateSnapshot
      else
        let prevLogIndex := next - 1 in
        let prevLogTerm :=
          if 1 <=? prevLogIndex then (termAtLocked r prevLogIndex).1 else 0 in
        let lastLogIndex := r_lastIncludedIndex r + zlen (r_log r) in
        entries ← (if next <=? lastLogIndex
                   then slice_from (r_log r) (physicalIndexLocked r next)
                   else Ret []);
        Ret (ReplicateEntries
               (mkAppendEntriesArgs (r_currentTerm r) (r_id r) prevLogIndex
                  prevLogTerm entries (r_commitIndex r)))
  | _ => Ret ReplicateNothing
  end.

Definition replicateToPeer_reply r (peer : Z) (args : AppendEntriesArgs)
    (reply : AppendEntriesReply) : outcome Raft :=
  if r_currentTerm r <? aer_Term reply
  then becomeFollowerLocked r (aer_Term reply)
  else if negb (bool_decide (r_state r = Leader)) ||
          negb (r_currentTerm r =? ae_Term args)
  then Ret r
  else if aer_Success reply
  then
    let newMatch := ae_PrevLogIndex args + zlen (ae_Entries args) in
    let r := if matchOf r peer <? newMatch
             then set_matchIndex (<[peer := newMatch]> (r_matchIndex r)) r
             else r in
    let r := set_nextIndex (<[peer := newMatch + 1]> (r_nextIndex r)) r in
    advanceCommitIndexLocked r
  else if 1 <? nextOf r peer
  then Ret (set_nextIndex (<[peer := nextOf r peer - 1]> (r_nextIndex r)) r)
  else Ret r.

Definition sendInstallSnapshot_begin r : option InstallSnapshotArgs :=
  match r_state r with
  | Leader =>
      Some (mkInstallSnapshotArgs (r_currentTerm r) (r_id r)
              (r_lastIncludedIndex r) (r_lastIncludedTerm r) (r_snapshotData r))
  | _ => None
  end.

Definition sendInstallSnapshot_reply r (peer : Z) (args : InstallSnapshotArgs)
    (reply : InstallSnapshotReply) : outcome Raft :=
  if r_currentTerm r <? isr_Term reply
  then becomeFollowerLocked r (isr_Term reply)
  else if negb (bool_decide (r_state r = Leader)) ||
          negb (r_currentTerm r =? is_Term args)
  then Ret r
  else
    let lastIncludedIndex := is_LastIncludedIndex args in
    let r := if matchOf r peer <? lastIncludedIndex
             then set_matchIndex (<[peer := lastIncludedIndex]> (r_matchIndex r)) r
             else r in
    let r := if nextOf r peer <? lastIncludedIndex + 1
             then set_nextIndex (<[peer := lastIncludedIndex + 1]> (r_nextIndex r)) r
             else r in
    advanceCommitIndexLocked r.

(** ** Delivery to the state machine: apply.go *)

(** The critical section of deliverPendingSnapshot; the message returned is
    sent on ApplyCh after the lock is released. *)
Definition deliverPendingSnapshot r : Raft * option ApplyMsg :=
  (set_pendingSnapshot None r, r_pendingSnapshot r).

(** The critical section of one iteration of applyPending. *)
Definition applyPending_next r : outcome (Raft * option ApplyMsg) :=
  if r_commitIndex r <=? r_lastApplied r then Ret (r, None)
  else
    let nextApplied := r_lastApplied r + 1 in
    let lastLogIndex := r_lastIncludedIndex r + zlen (r_log r) in
    if lastLogIndex <? nextApplied then Ret (r, None)
    else
      let r := set_lastApplied nextApplied r in
      entry ← or_panic (zget (r_log r) (physicalIndexLocked r nextApplied));
      Ret (r, Some (commandMsg nextApplied (le_Term entry) (le_Command entry))).

(** applyPending when no other operation interleaves; [fuel] bounds the
    iterations. *)
Fixpoint applyPending (fuel : nat) r : outcome (Raft * list ApplyMsg) :=
  match fuel with
  | O => Panic
  | S fuel =>
      '(r, msg) ← applyPending_next r;
      match msg with
      | None => Ret (r, [])
      | Some m =>
          '(r, ms) ← applyPending fuel r;
          Ret (r, m :: ms)
      end
  end.

(** One tick of RunApplyLoop when no other operation interleaves. *)
Definition RunApplyLoop_tick (fuel : nat) r : outcome (Raft * list ApplyMsg) :=
  let '(r, snap) := deliverPendingSnapshot r in
  '(r, ms) ← applyPending fuel r;
  Ret (r, option_list snap ++ ms).
End node.
