(* ===== verification/Transport.v ===== *)
(** * The transports of a Raft cluster (01-raft/transport.go, fake_transport.go,
      net_transport.go)

    The in-process transport with its partitions, as tests use it, and the
    cache of connections of the TCP transport; net/rpc itself (dialing, and a
    call over a connection) is a parameter. *)
From S2P Require Import Prelude.
Local Open Scope Z_scope.

(** ** fake_transport.go *)

Record FakeTransport (H : Type) := mkFakeTransport {
  ft_peers : gmap Z H;
  ft_partition : option (gmap Z Z)
}.
Arguments mkFakeTransport {H} _ _.
Arguments ft_peers {H} _.
Arguments ft_partition {H} _.

Inductive TransportError := NoRoute (from to : Z) | NoPeer (peer : Z).

Section fake.
(** The handlers: pointers to Raft nodes. *)
Context {H : Type}.
Implicit Type t : FakeTransport H.

Definition NewFakeTransport : FakeTransport H := mkFakeTransport ∅ None.

Definition Register (id : Z) (h : H) t : FakeTransport H :=
  mkFakeTransport (<[id := h]> (ft_peers t)) (ft_partition t).

Definition Unregister (id : Z) t : FakeTransport H :=
  mkFakeTransport (delete id (ft_peers t)) (ft_partition t).

(** The two loops of Partition; a group's id is its position. *)
Definition assignGroup (gid : Z) (group : list Z) (m : gmap Z Z) : gmap Z Z :=
  foldl (λ m peer, <[peer := gid]> m) m group.
Fixpoint assignGroups (gid : Z) (groups : list (list Z)) (m : gmap Z Z) : gmap Z Z :=
  match groups with
  | [] => m
  | group :: groups => assignGroups (gid + 1) groups (assignGroup gid group m)
  end.

Definition Partition (groups : list (list Z)) t : FakeTransport H :=
  mkFakeTransport (ft_peers t) (Some (assignGroups 0 groups ∅)).

Definition Heal t : FakeTransport H := mkFakeTransport (ft_peers t) None.

Definition reachable t (from to : Z) : bool :=
  match ft_partition t with
  | None => true
  | Some m =>
      match m !! from, m !! to with
      | Some g1, Some g2 => g1 =? g2
      | _, _ => false
      end
  end.

Definition handlerFor t (peer : Z) : H + TransportError :=
  match ft_peers t !! peer with
  | Some h => inl h
  | None => inr (NoPeer peer)
  end.

(** CallRequestVote, CallAppendEntries and CallInstallSnapshot up to the call
    of the handler; [from] is the sender the arguments name. *)
Definition fake_call t (from to : Z) : H + TransportError :=
  if negb (reachable t from to) then inr (NoRoute from to) else handlerFor t to.

Lemma assignGroup_lookup gid group m p :
  assignGroup gid group m !! p = if decide (p ∈ group) then Some gid else m !! p.
Proof.
  unfold assignGroup. revert m. induction group as [|q group IH]; intros m; simpl; [done|].
  rewrite IH. destruct (decide (p ∈ group)) as [Hp|Hp].
  - by rewrite decide_True by (by right).
  - destruct (decide (p = q)) as [->|Hne].
    + by rewrite lookup_insert_eq, decide_True by (by left).
    + rewrite lookup_insert_ne, decide_False; [done| |done]. by intros [|]%elem_of_cons.
Qed.

(** The group that counts for a peer: the last that lists it. *)
Definition side (groups : list (list Z)) (p : Z) (k : nat) : Prop :=
  (∃ group, groups !! k = Some group ∧ p ∈ group) ∧
  ∀ k' group, groups !! k' = Some group → p ∈ group → (k' ≤ k)%nat.

Lemma side_unique groups p k1 k2 : side groups p k1 → side groups p k2 → k1 = k2.
Proof.
  intros [(g1 & H1 & Hp1) Hmax1] [(g2 & H2 & Hp2) Hmax2].
  pose proof (Hmax1 _ _ H2 Hp2). pose proof (Hmax2 _ _ H1 Hp1). lia.
Qed.

Lemma side_cons group groups p k : side groups p k → side (group :: groups) p (S k).
Proof.
  intros [(g & Hk & Hp) Hmax]. split; [by exists g|].
  intros [|k'] g' Hk' Hp'; [lia|]. specialize (Hmax k' g' Hk' Hp'). lia.
Qed.

Lemma assignGroups_lookup gid groups m p :
  (∃ k, side groups p k ∧ assignGroups gid groups m !! p = Some (gid + Z.of_nat k)) ∨
  ((∀ k group, groups !! k = Some group → p ∉ group) ∧ assignGroups gid groups m !! p = m !! p).
Proof.
  revert gid m. induction groups as [|g groups IH]; intros gid m; simpl; [by right|].
  destruct (IH (gid + 1) (assignGroup gid g m)) as [(k & Hk & ->)|[Hno ->]].
  - left. exists (S k). split; [by apply side_cons|]. f_equal. lia.
  - rewrite assignGroup_lookup. destruct (decide (p ∈ g)) as [Hp|Hp].
    + left. exists 0%nat. split; [|f_equal; lia]. split; [by exists g|].
      intros [|k'] g' Hk' Hp'; [done|]. by destruct (Hno k' g' Hk').
    + right. split; [|done]. by intros [|k'] g' Hk'; simpl in Hk'; [injection Hk' as <-|apply (Hno k')].
Qed.

(** After Partition two nodes reach each other exactly if the same group counts
    for both; Heal connects all of them again. *)
Lemma Partition_reachable groups t from to :
  reachable (Partition groups t) from to = true ↔ ∃ k, side groups from k ∧ side groups to k.
Proof.
  unfold reachable. simpl.
  destruct (assignGroups_lookup 0 groups ∅ from) as [(k1 & Hk1 & ->)|[Hno1 ->]].
  2: { rewrite lookup_empty. split; [done|]. intros (k & [(g & Hk & Hp) _] & _). by destruct (Hno1 k g). }
  destruct (assignGroups_lookup 0 groups ∅ to) as [(k2 & Hk2 & ->)|[Hno2 ->]].
  2: { rewrite lookup_empty. split; [done|]. intros (k & _ & [(g & Hk & Hp) _]). by destruct (Hno2 k g). }
  rewrite Z.eqb_eq. split.
  - intros Hk. assert (k1 = k2) as <- by lia. eauto.
  - intros (k & Hf & Ht). by rewrite (side_unique _ _ _ _ Hk1 Hf), (side_unique _ _ _ _ Hk2 Ht).
Qed.

Lemma Heal_reachable t from to : reachable (Heal t) from to = true.
Proof. done. Qed.
End fake.

(** *** The transport's calls as its users see them *)

(** What tests do to the transport; nodes register themselves, so a handler is
    named by its id. *)
Inductive TransportOp :=
| OpRegister (id : Z)
| OpUnregister (id : Z)
| OpPartition (groups : list (list Z))
| OpHeal.

Definition transport_op (t : FakeTransport Z) (op : TransportOp) : FakeTransport Z :=
  match op with
  | OpRegister id => Register id id t
  | OpUnregister id => Unregister id t
  | OpPartition groups => Partition groups t
  | OpHeal => Heal t
  end.

Definition transport_ops (ops : list TransportOp) : FakeTransport Z :=
  foldl transport_op NewFakeTransport ops.

(** The partition in force: the last one, if no Heal came after it. *)
Definition in_force (ops : list TransportOp) (groups : list (list Z)) : Prop :=
  ∃ before after, ops = before ++ OpPartition groups :: after ∧
    OpHeal ∉ after ∧ ∀ groups', OpPartition groups' ∉ after.

(** Two nodes are connected if the partition in force, if there is one, has
    both on one side. *)
Definition connected (ops : list TransportOp) (from to : Z) : Prop :=
  ∀ groups, in_force ops groups → ∃ k, side groups from k ∧ side groups to k.

(** A node is up if it registered and has not been unregistered since. *)
Definition up (ops : list TransportOp) (id : Z) : Prop :=
  ∃ before after, ops = before ++ OpRegister id :: after ∧ OpUnregister id ∉ after.

Lemma transport_ops_snoc ops op : transport_ops (ops ++ [op]) = transport_op (transport_ops ops) op.
Proof. unfold transport_ops. by rewrite foldl_app. Qed.

(** The last call, or one before it. *)
Lemma last_or_before {A} (l before after : list A) x y : l ++ [x] = before ++ y :: after →
  (after = [] ∧ y = x ∧ l = before) ∨ ∃ after', after = after' ++ [x] ∧ l = before ++ y :: after'.
Proof.
  destruct after as [|z after _] using rev_ind; intros Heq.
  - left. by apply app_inj_tail in Heq as [-> ->].
  - right. exists after. rewrite app_comm_cons, app_assoc in Heq. by apply app_inj_tail in Heq as [-> ->].
Qed.

Lemma in_force_snoc ops op groups :
  in_force (ops ++ [op]) groups ↔
  match op with
  | OpPartition groups' => groups' = groups
  | OpHeal => False
  | _ => in_force ops groups
  end.
Proof.
  split.
  - intros (before & after & [(-> & <- & ->)|(after' & -> & ->)]%last_or_before & Hheal & Hpart); [done|].
    assert (in_force (before ++ OpPartition groups :: after') groups).
    { exists before, after'. split; [done|]. split; [set_solver|]. intros g ?. apply (Hpart g). set_solver. }
    destruct op as [| |groups'|]; [done..| |].
    + destruct (Hpart groups'). set_solver.
    + destruct Hheal. set_solver.
  - assert (Hkeep : (∀ g, op ≠ OpPartition g) → op ≠ OpHeal → in_force ops groups → in_force (ops ++ [op]) groups).
    { intros Hp Hh (before & after & -> & Hheal & Hpart). exists before, (after ++ [op]).
      rewrite <- app_assoc. split; [done|]. split; [set_solver|].
      intros g [?|?%list_elem_of_singleton]%elem_of_app; [by apply (Hpart g)|by apply (Hp g)]. }
    destruct op as [| |groups'|]; [by apply Hkeep..| |done].
    intros ->. exists ops, []. split; [done|]. split; [|intros g]; by intros ?%not_elem_of_nil.
Qed.

Lemma up_snoc ops op id :
  up (ops ++ [op]) id ↔
  match op with
  | OpRegister id' => id' = id ∨ up ops id
  | OpUnregister id' => id' ≠ id ∧ up ops id
  | _ => up ops id
  end.
Proof.
  split.
  - intros (before & after & [(-> & <- & ->)|(after' & -> & ->)]%last_or_before & Hdown); [by left|].
    assert (up (before ++ OpRegister id :: after') id) by (exists before, after'; set_solver).
    destruct op; [by right| |done..]. split; [intros ->; set_solver|done].
  - assert (Hkeep : op ≠ OpUnregister id → up ops id → up (ops ++ [op]) id).
    { intros Hop (before & after & -> & Hdown). exists before, (after ++ [op]).
      rewrite <- app_assoc. split; [done|set_solver]. }
    destruct op as [id'|id'|g|]; [|intros [Hne ?]; apply Hkeep; [congruence|done]|by apply Hkeep..].
    intros [->|?]; [|by apply Hkeep]. exists ops, []. split; [done|]. by intros ?%not_elem_of_nil.
Qed.

(** The maps say what the calls so far amount to. *)
Lemma transport_ops_peers ops id :
  (up ops id ∧ ft_peers (transport_ops ops) !! id = Some id) ∨
  (¬ up ops id ∧ ft_peers (transport_ops ops) !! id = None).
Proof.
  induction ops as [|op ops IH] using rev_ind.
  { right. split; [|done]. by intros ([|??] & ? & ? & _). }
  rewrite transport_ops_snoc, up_snoc. destruct op as [id'|id'|groups|]; simpl; [| |done..].
  - destruct (decide (id' = id)) as [->|Hne]; [rewrite lookup_insert_eq; auto|].
    rewrite lookup_insert_ne by done. naive_solver.
  - destruct (decide (id' = id)) as [->|Hne]; [rewrite lookup_delete_eq; naive_solver|].
    rewrite lookup_delete_ne by done. naive_solver.
Qed.

Lemma reachable_connected ops from to :
  reachable (transport_ops ops) from to = true ↔ connected ops from to.
Proof.
  unfold connected. induction ops as [|op ops IH] using rev_ind.
  { split; [|done]. by intros _ groups ([|??] & ? & ? & _). }
  rewrite transport_ops_snoc.
  destruct op as [id|id|groups|]; simpl.
  - setoid_rewrite in_force_snoc. exact IH.
  - setoid_rewrite in_force_snoc. exact IH.
  - rewrite Partition_reachable. setoid_rewrite in_force_snoc. naive_solver.
  - setoid_rewrite in_force_snoc. naive_solver.
Qed.

(** ** net_transport.go *)

Record NetTransport (C : Type) := mkNetTransport {
  nt_addrs : gmap Z string;
  nt_clients : gmap Z C
}.
Arguments mkNetTransport {C} _ _.
Arguments nt_addrs {C} _.
Arguments nt_clients {C} _.

Section net.
Context {C W Reply : Type}.
(** rpc.Dial, and Call on a client it returned; [None] is an error. *)
Variable dial : string → W → option C * W.
Variable callClient : C → W → option Reply * W.
Implicit Type t : NetTransport C.

Definition NewNetTransport (addrs : gmap Z string) : NetTransport C := mkNetTransport addrs ∅.

Definition clientFor t (peer : Z) (w : W) : NetTransport C * option C * W :=
  match nt_clients t !! peer with
  | Some c => (t, Some c, w)
  | None =>
      match nt_addrs t !! peer with
      | None => (t, None, w)
      | Some addr =>
          let '(c, w) := dial addr w in
          match c with
          | None => (t, None, w)
          | Some c => (mkNetTransport (nt_addrs t) (<[peer := c]> (nt_clients t)), Some c, w)
          end
      end
  end.

Definition net_call t (peer : Z) (w : W) : NetTransport C * option Reply * W :=
  let '(t, c, w) := clientFor t peer w in
  match c with
  | None => (t, None, w)
  | Some c => let '(reply, w) := callClient c w in (t, reply, w)
  end.

(** Calls to a list of peers, one after the other. *)
Fixpoint net_calls t (peers : list Z) (w : W) : NetTransport C * list (option Reply) * W :=
  match peers with
  | [] => (t, [], w)
  | peer :: peers =>
      let '(t, reply, w) := net_call t peer w in
      let '(t, replies, w) := net_calls t peers w in
      (t, reply :: replies, w)
  end.

(** A connection that broke is never replaced: if every call over the cached
    client fails, as net/rpc's do once a client is shut down, then every later
    call to that peer fails, however long it has been reachable again. *)
Lemma dead_client_forever t peer c n w : nt_clients t !! peer = Some c →
  (∀ w, (callClient c w).1 = None) →
  ∃ w', net_calls t (replicate n peer) w = (t, replicate n None, w').
Proof.
  intros Hc Hdead. revert w. induction n as [|n IH]; intros w; simpl; [eauto|].
  unfold net_call, clientFor. rewrite Hc. pose proof (Hdead w) as Hd.
  destruct (callClient c w) as [reply w1]. simpl in Hd. subst reply.
  destruct (IH w1) as (w' & ->). eauto.
Qed.
End net.
