(* ===== verification/RaftDemo.v ===== *)
(** * Concrete nodes for the witnesses

    Three nodes with integer commands on MemoryPersister storage: a follower
    and a leader that hold the same three entries, and a node that compacted
    its first two. The byte codec is the one of Prelude.countable_codec. *)
From S2P Require Import Prelude Persister RaftNode.
Local Open Scope Z_scope.

#[export] Instance demo_codec : Codec (persistedState Z) := countable_codec.

Abbreviation DemoRaft := (Raft Z MemoryPersister).

(** Put a node's own state on its storage. *)
Definition on_storage {Cmd} `{!Codec (persistedState Cmd)} (r : Raft Cmd MemoryPersister) :
    Raft Cmd MemoryPersister :=
  set_persister (Some (mkMemoryPersister (encodeStateLocked r) (r_snapshotData r))) r.

Definition demo_log : list (LogEntry Z) :=
  [mkLogEntry 1 10; mkLogEntry 1 11; mkLogEntry 2 12].

Definition demo_follower : DemoRaft := on_storage
  (mkRaft 1 [0; 2] None Follower 2 (-1) demo_log 0 0 [] 2 1 None ∅ ∅ false).

Definition demo_candidate : DemoRaft := on_storage
  (mkRaft 1 [0; 2] None Candidate 3 1 demo_log 0 0 [] 2 1 None ∅ ∅ false).

Definition demo_leader : DemoRaft := on_storage
  (mkRaft 0 [1; 2] None Leader 2 0 demo_log 0 0 [] 1 1 None
     (<[1 := 4]> (<[2 := 3]> ∅)) (<[1 := 3]> (<[2 := 0]> ∅)) false).

Definition demo_compacted : DemoRaft := on_storage
  (mkRaft 2 [0; 1] None Follower 2 (-1) [mkLogEntry 2 12] 2 1 [Byte.x07] 3 2
     None ∅ ∅ false).

(** Replaces the follower's third entry and appends a fourth. *)
Definition demo_append : AppendEntriesArgs Z :=
  mkAppendEntriesArgs 2 0 2 1 [mkLogEntry 2 20; mkLogEntry 2 21] 3.

(** Name the result of a call on concrete nodes, after evaluating it. *)
Tactic Notation "run" constr(call) "as" simple_intropattern(pat) "with" ident(H) :=
  destruct (returned_Ret call ltac:(vm_compute; reflexivity)) as [pat H].
