(* ===== verification/RaftFacts.v ===== *)
(** * Facts about one Raft node

    The step function of a node over its events, the shared lemmas about its
    log positions, and the node-level properties: durability of the
    persistent state, monotonicity of terms and votes, absence of panics. *)
From S2P Require Import Prelude Persister RaftNode.
Local Open Scope Z_scope.

(** Break a handler into its branches. *)
Ltac handler :=
  repeat (cbn beta iota zeta in *; inv_ret;
    match goal with
    | H : context [match ?x with _ => _ end] |- _ =>
        lazymatch x with
        | context [match _ with _ => _ end] => fail
        | _ => let E := fresh "E" in destruct x eqn:E
        end
    end);
  cbn beta iota zeta in *; inv_ret.

Section facts.
Context {Cmd P : Type} `{!Persister P, !Codec (persistedState Cmd)}.
Abbreviation Raft := (Raft Cmd P).
Implicit Type r : Raft.

(** ** Events of a node: every way its state can change *)

Inductive NodeEvent :=
| EvTimeout
| EvRequestVote (args : RequestVoteArgs)
| EvVoteReply (el : Election) (reply : RequestVoteReply)
| EvAppendEntries (args : AppendEntriesArgs Cmd)
| EvAppendReply (peer : Z) (args : AppendEntriesArgs Cmd) (reply : AppendEntriesReply)
| EvInstallSnapshot (args : InstallSnapshotArgs)
| EvSnapshotReply (peer : Z) (args : InstallSnapshotArgs) (reply : InstallSnapshotReply)
| EvPropose (command : Cmd)
| EvSnapshot (index : Z) (data : bytes)
| EvDeliverSnapshot
| EvApply.

Definition node_step r (ev : NodeEvent) : outcome Raft :=
  match ev with
  | EvTimeout => fst <$> electionTimeout r
  | EvRequestVote args => fst <$> RequestVote r args
  | EvVoteReply el reply => fst <$> startElection_reply r el reply
  | EvAppendEntries args => fst <$> AppendEntries r args
  | EvAppendReply peer args reply => replicateToPeer_reply r peer args reply
  | EvInstallSnapshot args => fst <$> InstallSnapshot r args
  | EvSnapshotReply peer args reply => sendInstallSnapshot_reply r peer args reply
  | EvPropose command => fst <$> Propose r command
  | EvSnapshot index data => fst <$> Snapshot r index data
  | EvDeliverSnapshot => Ret (deliverPendingSnapshot r).1
  | EvApply => fst <$> applyPending_next r
  end.

(** ** Log positions *)

Definition lastIndex r : Z := (lastLogInfoLocked r).1.
Definition lastTerm r : Z := (lastLogInfoLocked r).2.

(** The entry at an absolute index, if this node still holds it. *)
Definition entryAt r (index : Z) : option (LogEntry Cmd) :=
  zget (r_log r) (physicalIndexLocked r index).

Lemma last_zget {A} (l : list A) : list.last l = zget l (zlen l - 1).
Proof.
  rewrite last_lookup. unfold zget, zlen.
  destruct l as [|x l]; [done|]. simpl length.
  rewrite bool_decide_true by lia. f_equal. lia.
Qed.

Lemma lastIndex_eq r : lastIndex r = r_lastIncludedIndex r + zlen (r_log r).
Proof.
  unfold lastIndex, lastLogInfoLocked. destruct (list.last (r_log r)) eqn:E; [done|].
  apply last_None in E as ->. rewrite zlen_nil. simpl. lia.
Qed.

Lemma lastTerm_eq r : termAtLocked r (lastIndex r) = (lastTerm r, true).
Proof.
  rewrite lastIndex_eq. unfold lastTerm, lastLogInfoLocked, termAtLocked, physicalIndexLocked.
  rewrite last_zget. destruct (zget (r_log r) (zlen (r_log r) - 1)) eqn:E.
  - apply zget_Some_bound in E as Hb.
    rewrite (proj2 (Z.eqb_neq _ _)), (proj2 (Z.leb_gt _ _)) by lia.
    replace (_ + _ - _ - 1) with (zlen (r_log r) - 1) by lia. by rewrite E.
  - apply zget_None in E as [E|E]; [|lia].
    assert (zlen (r_log r) = 0) as -> by zlia. simpl.
    by rewrite (proj2 (Z.eqb_eq _ _)) by lia.
Qed.

Lemma lastLogInfo_eq r : lastLogInfoLocked r = (lastIndex r, lastTerm r).
Proof. apply surjective_pairing. Qed.

Lemma termAt_ok r i :
  (termAtLocked r i).2 = true ↔ r_lastIncludedIndex r ≤ i ≤ lastIndex r.
Proof.
  rewrite lastIndex_eq. unfold termAtLocked, physicalIndexLocked.
  destruct (Z.eqb_spec i (r_lastIncludedIndex r)); [simpl; zlia|].
  destruct (Z.leb_spec i (r_lastIncludedIndex r)); [simpl; split; [done|lia]|].
  destruct (zget _ _) eqn:E; simpl.
  - apply zget_Some_bound in E. split; [lia|done].
  - apply zget_None in E. split; [done|lia].
Qed.

Lemma termAt_entry r i :
  r_lastIncludedIndex r < i →
  termAtLocked r i = match entryAt r i with
                     | Some e => (le_Term e, true)
                     | None => (0, false)
                     end.
Proof.
  intros. unfold termAtLocked, entryAt.
  by rewrite (proj2 (Z.eqb_neq _ _)), (proj2 (Z.leb_gt _ _)) by lia.
Qed.

Lemma termAt_lii r :
  termAtLocked r (r_lastIncludedIndex r) = (r_lastIncludedTerm r, true).
Proof. unfold termAtLocked. by rewrite Z.eqb_refl. Qed.

Lemma entryAt_bound r i e :
  entryAt r i = Some e → r_lastIncludedIndex r < i ≤ lastIndex r.
Proof.
  rewrite lastIndex_eq. unfold entryAt, physicalIndexLocked.
  intros ?%zget_Some_bound. lia.
Qed.

Lemma entryAt_is_Some r i :
  is_Some (entryAt r i) ↔ r_lastIncludedIndex r < i ≤ lastIndex r.
Proof.
  rewrite lastIndex_eq. unfold entryAt, physicalIndexLocked.
  rewrite zget_is_Some. lia.
Qed.

(** The paper's up-to-date order on (last term, last index). *)
Lemma candidateLogIsUpToDate_spec r i t :
  candidateLogIsUpToDateLocked r i t = true ↔
  lastTerm r < t ∨ (t = lastTerm r ∧ lastIndex r ≤ i).
Proof.
  unfold candidateLogIsUpToDateLocked. rewrite lastLogInfo_eq.
  destruct (Z.eqb_spec t (lastTerm r)); simpl; lia.
Qed.

(** ** What saving changes: only the persister *)

Lemma persistLocked_inv r r' :
  persistLocked r = Ret r' → ∃ p, r' = set_persister p r.
Proof.
  unfold persistLocked. intros H. destruct (r_persister r) as [p|] eqn:E.
  - handler. by eexists.
  - exists None. inv_ret. destruct r'; simpl in *; by subst.
Qed.

Lemma saveSnapshotLocked_inv r d r' :
  saveSnapshotLocked r d = Ret r' → ∃ p, r' = set_persister p r.
Proof.
  unfold saveSnapshotLocked. intros H. destruct (r_persister r) as [p|] eqn:E.
  - handler. by eexists.
  - exists None. inv_ret. destruct r'; simpl in *; by subst.
Qed.

Lemma advanceCommitIndex_inv r r' :
  advanceCommitIndexLocked r = Ret r' → ∃ c, r' = set_commitIndex c r.
Proof.
  unfold advanceCommitIndexLocked. intros H.
  assert (∃ c, r = set_commitIndex c r) as Hr by (exists (r_commitIndex r); by destruct r).
  handler; eauto.
Qed.
End facts.

(** Expose the node a save or a commit step returned. *)
Ltac saved :=
  repeat match goal with
  | H : persistLocked _ = Ret _ |- _ =>
      let p := fresh "p" in apply persistLocked_inv in H as [p ->]
  | H : saveSnapshotLocked _ _ = Ret _ |- _ =>
      let p := fresh "p" in apply saveSnapshotLocked_inv in H as [p ->]
  | H : advanceCommitIndexLocked _ = Ret _ |- _ =>
      let c := fresh "c" in apply advanceCommitIndex_inv in H as [c ->]
  end.
