(* ===== verification/RaftTimer.v ===== *)
(** * The timers of a node (01-raft/election_timer.go, heartbeat.go)

    The loop that turns silence into elections, in real time: which case of its
    select may be taken when, with the node's handlers running in between; and
    the ticker that has a leader replicate. Times are nanoseconds. *)
From S2P Require Import Prelude Persister RaftNode RaftFacts.
Local Open Scope Z_scope.

Definition ElectionTimeoutMin : Z := 20 * 10 ^ 6.
Definition ElectionTimeoutMax : Z := 50 * 10 ^ 6.
Definition HeartbeatInterval : Z := 2 * 10 ^ 6.

(** [n]: what rng.Int63n(span) returns, at least 0 and below span. *)
Definition span : Z := ElectionTimeoutMax - ElectionTimeoutMin.
Definition randomElectionTimeout (n : Z) : Z := ElectionTimeoutMin + n.

Lemma randomElectionTimeout_range n :
  0 ≤ n < span → ElectionTimeoutMin ≤ randomElectionTimeout n < ElectionTimeoutMax.
Proof. unfold randomElectionTimeout, span. lia. Qed.

Section timer.
Context {Cmd P : Type} `{!Persister P, !Codec (persistedState Cmd)}.
Abbreviation Raft := (Raft Cmd P).
Implicit Type r : Raft.

(** ** RunElectionTimer *)

(** The loop and its node; [tl_deadline] is when the timer fires. *)
Record TimerLoop := mkTimerLoop {
  tl_node : Raft;
  tl_deadline : Z;
  tl_running : bool
}.
Implicit Type l : TimerLoop.

Definition timer_start r (now n : Z) : TimerLoop :=
  mkTimerLoop r (now + randomElectionTimeout n) true.

(** The cases of the select; [n] is the random number of the Reset. *)
Inductive TimerCase := TcStop | TcReset (n : Z) | TcFire (n : Z).

(** A case that is ready at time [now], and whether it starts an election.
    [stopped]: whether stopCh is closed, as StopElectionTimer does. The drain of the timer's channel
    leaves nothing behind. *)
Definition timer_select l (now : Z) (stopped : bool) (c : TimerCase) :
    option (outcome (TimerLoop * bool)) :=
  match c with
  | TcStop =>
      if stopped then Some (Ret (mkTimerLoop (tl_node l) (tl_deadline l) false, false)) else None
  | TcReset n =>
      if r_resetElectionTimer (tl_node l)
      then Some (Ret (timer_start (set_resetElectionTimer false (tl_node l)) now n, false))
      else None
  | TcFire n =>
      if tl_deadline l <=? now
      then Some ('(r, start) ← electionTimeout (tl_node l); Ret (timer_start r now n, start))
      else None
  end.

(** ** RunHeartbeats *)

(** replicate: the peers it runs replicateToPeer for, each in a goroutine. *)
Definition raft_replicate r : list Z :=
  match r_state r with Leader => r_peers r | _ => [] end.

(** A tick; State and replicate read the node at different times. *)
Definition RunHeartbeats_tick (r1 r2 : Raft) : list Z :=
  match r_state r1 with Leader => raft_replicate r2 | _ => [] end.

(** ** Runs *)

(** Messages after which the node must not campaign. *)
Definition heard r (ev : NodeEvent (Cmd:=Cmd)) : Prop :=
  match ev with
  | EvAppendEntries args => r_currentTerm r ≤ ae_Term args
  | EvInstallSnapshot args => r_currentTerm r ≤ is_Term args
  | _ => False
  end.

Inductive TimerLabel :=
| LRestarted         (* a reset was handled *)
| LFired             (* the timer fired and nothing started: a leader *)
| LElection          (* the timer fired and an election started *)
| LHeard             (* a handler heard a current leader *)
| LQuiet.            (* anything else *)

(** What happened from [t0] on, newest first, until time [t]. *)
Inductive timer_run (t0 : Z) r0 : list (Z * TimerLabel) → Z → TimerLoop → Prop :=
| tr_start n : 0 ≤ n < span → timer_run t0 r0 [] t0 (timer_start r0 t0 n)
| tr_wait tr t l t' : timer_run t0 r0 tr t l → t ≤ t' → timer_run t0 r0 tr t' l
| tr_handler tr t l ev r' lab :
    timer_run t0 r0 tr t l → ev ≠ EvTimeout → node_step (tl_node l) ev = Ret r' →
    (lab = LQuiet ∨ (lab = LHeard ∧ heard (tl_node l) ev)) →
    timer_run t0 r0 ((t, lab) :: tr) t (mkTimerLoop r' (tl_deadline l) (tl_running l))
| tr_stop tr t l l' :
    timer_run t0 r0 tr t l → tl_running l = true → timer_select l t true TcStop = Some (Ret (l', false)) →
    timer_run t0 r0 ((t, LQuiet) :: tr) t l'
| tr_reset tr t l l' n stopped :
    timer_run t0 r0 tr t l → tl_running l = true → 0 ≤ n < span →
    timer_select l t stopped (TcReset n) = Some (Ret (l', false)) →
    timer_run t0 r0 ((t, LRestarted) :: tr) t l'
| tr_fire tr t l l' n stopped (start : bool) :
    timer_run t0 r0 tr t l → tl_running l = true → 0 ≤ n < span →
    timer_select l t stopped (TcFire n) = Some (Ret (l', start)) →
    timer_run t0 r0 ((t, if start then LElection else LFired) :: tr) t l'.

Definition restarts (x : Z * TimerLabel) : option Z :=
  match x.2 with LRestarted | LFired | LElection => Some x.1 | _ => None end.

(** When the countdown was started. *)
Definition countdowns (t0 : Z) (tr : list (Z * TimerLabel)) : list Z := omap restarts tr ++ [t0].

Lemma countdowns_cons t0 x tr :
  countdowns t0 (x :: tr) =
  match restarts x with Some t => t :: countdowns t0 tr | None => countdowns t0 tr end.
Proof. unfold countdowns. simpl. by destruct (restarts x). Qed.

Lemma becomeFollower_reset r t r' :
  becomeFollowerLocked r t = Ret r' → r_resetElectionTimer r' = r_resetElectionTimer r.
Proof. unfold becomeFollowerLocked. intros H. handler; saved; by destruct (_ <? _). Qed.

Ltac reset_done :=
  handler; saved;
  repeat match goal with
  | H : becomeFollowerLocked _ _ = Ret _ |- _ => apply becomeFollower_reset in H
  end; simpl in *; congruence.

(** No handler takes a pending reset away, and hearing a leader queues one. *)
Lemma handler_keeps_reset r ev r' :
  node_step r ev = Ret r' → r_resetElectionTimer r = true → r_resetElectionTimer r' = true.
Proof.
  intros H Hr. destruct ev; simpl in H.
  - unfold electionTimeout, becomeCandidateLocked in H. reset_done.
  - unfold RequestVote in H. reset_done.
  - unfold startElection_reply, becomeLeaderLocked in H. reset_done.
  - unfold AppendEntries in H. reset_done.
  - unfold replicateToPeer_reply in H. reset_done.
  - unfold InstallSnapshot in H. reset_done.
  - unfold sendInstallSnapshot_reply in H. reset_done.
  - unfold Propose in H. reset_done.
  - unfold Snapshot in H. reset_done.
  - unfold deliverPendingSnapshot in H. reset_done.
  - unfold applyPending_next in H. reset_done.
Qed.

Lemma heard_resets r ev r' :
  heard r ev → node_step r ev = Ret r' → r_resetElectionTimer r' = true.
Proof.
  intros Hh H. destruct ev; try done; simpl in Hh, H.
  - unfold AppendEntries in H. rewrite (proj2 (Z.ltb_ge _ _)) in H by done. reset_done.
  - unfold InstallSnapshot in H. rewrite (proj2 (Z.ltb_ge _ _)) in H by done. reset_done.
Qed.

(** ** What the loop promises *)

(** The last countdown, and when it ends. *)
Lemma run_countdown t0 r0 tr t l :
  timer_run t0 r0 tr t l →
  ∃ c, c ∈ countdowns t0 tr ∧ c ≤ t ∧ (∀ c', c' ∈ countdowns t0 tr → c' ≤ c) ∧
    c + ElectionTimeoutMin ≤ tl_deadline l < c + ElectionTimeoutMax.
Proof.
  assert (∀ tr t n r lab, 0 ≤ n < span → restarts (t, lab) = Some t →
    (∃ c, c ∈ countdowns t0 tr ∧ c ≤ t ∧ ∀ c', c' ∈ countdowns t0 tr → c' ≤ c) →
    ∃ c, c ∈ countdowns t0 ((t, lab) :: tr) ∧ c ≤ t ∧
      (∀ c', c' ∈ countdowns t0 ((t, lab) :: tr) → c' ≤ c) ∧
      c + ElectionTimeoutMin ≤ tl_deadline (timer_start r t n) < c + ElectionTimeoutMax) as Hnew.
  { intros tr0 t1 n r lab Hn Hlab (c & _ & Hct & Hmax). exists t1. rewrite countdowns_cons, Hlab.
    split_and!; [by left|done| |simpl; pose proof (randomElectionTimeout_range n Hn); lia..].
    intros c' [->|Hc'%Hmax]%elem_of_cons; lia. }
  induction 1 as [n Hn|tr t l t' _ IH Ht|tr t l ev r' lab _ IH _ _ Hlab|tr t l l' _ IH _ Hs
    |tr t l l' n stopped _ IH _ Hn Hs|tr t l l' n stopped start _ IH _ Hn Hs].
  - exists t0. pose proof (randomElectionTimeout_range n Hn). unfold countdowns. simpl.
    split_and!; [by left|done|by intros c' ->%list_elem_of_singleton|lia..].
  - destruct IH as (c & ? & ? & ? & ?). exists c. split_and!; [done|lia|done|lia..].
  - destruct IH as (c & ? & ? & ? & ?). exists c. rewrite countdowns_cons.
    by destruct Hlab as [->|[-> _]].
  - simpl in Hs. injection Hs as <-. by rewrite countdowns_cons.
  - simpl in Hs. destruct (r_resetElectionTimer (tl_node l)); [|done]. injection Hs as <-.
    apply Hnew; [done|done|]. destruct IH as (c & ? & ? & ? & _). by exists c.
  - simpl in Hs. destruct (_ <=? _); [|done]. injection Hs as Hs.
    apply bind_Ret_inv in Hs as ([r1 b] & _ & [= <- <-]).
    apply Hnew; [done|by destruct b|]. destruct IH as (c & ? & ? & ? & _). by exists c.
Qed.

Lemma run_elections t0 r0 tr t l :
  timer_run t0 r0 tr t l → ∀ tr1 tr2 te, tr = tr2 ++ (te, LElection) :: tr1 →
  ∀ c, c ∈ countdowns t0 tr1 → c + ElectionTimeoutMin ≤ te.
Proof.
  assert (∀ (tr tr1 tr2 : list (Z * TimerLabel)) t te lab,
    (t, lab) :: tr = tr2 ++ (te, LElection) :: tr1 →
    (∃ tr3, tr = tr3 ++ (te, LElection) :: tr1) ∨ (t = te ∧ lab = LElection ∧ tr = tr1)) as Hcons.
  { intros tr0 tr1 [|x tr2] t1 te lab Heq; injection Heq; intros; subst; [by right|]. left. by exists tr2. }
  induction 1 as [n Hn|tr t l t' _ IH Ht|tr t l ev r' lab _ IH _ _ Hlab|tr t l l' _ IH _ Hs
    |tr t l l' n stopped _ IH _ Hn Hs|tr t l l' n stopped start Hrun IH _ Hn Hs]; intros tr1 tr2 te Heq.
  - by destruct tr2.
  - eauto.
  - destruct (Hcons _ _ _ _ _ _ Heq) as [[tr3 ?]|(_ & -> & _)]; [eauto|]. by destruct Hlab as [?|[? _]].
  - destruct (Hcons _ _ _ _ _ _ Heq) as [[tr3 ?]|(_ & ? & _)]; [eauto|done].
  - destruct (Hcons _ _ _ _ _ _ Heq) as [[tr3 ?]|(_ & ? & _)]; [eauto|done].
  - destruct (Hcons _ _ _ _ _ _ Heq) as [[tr3 ?]|(<- & _ & <-)]; [eauto|]. intros c Hc.
    destruct (run_countdown _ _ _ _ _ Hrun) as (c0 & _ & _ & Hmax & Hd). apply Hmax in Hc.
    simpl in Hs. destruct (Z.leb_spec (tl_deadline l) t); [|done]. lia.
Qed.

(** What is heard stays pending until it is handled. *)
Lemma run_pending t0 r0 tr t l :
  timer_run t0 r0 tr t l → ∀ tr1 tr2 th, tr = tr2 ++ (th, LHeard) :: tr1 →
  (∀ c, (c, LRestarted) ∉ tr2) → r_resetElectionTimer (tl_node l) = true.
Proof.
  induction 1 as [n Hn|tr t l t' _ IH Ht|tr t l ev r' lab _ IH _ Hev Hlab|tr t l l' _ IH _ Hs
    |tr t l l' n stopped _ IH _ Hn Hs|tr t l l' n stopped start Hrun IH _ Hn Hs]; intros tr1 tr2 th Heq Hno.
  - by destruct tr2.
  - eauto.
  - simpl. destruct tr2 as [|x tr2]; simpl in Heq; simplify_eq.
    + destruct Hlab as [?|[_ Hh]]; [done|by eapply heard_resets].
    + eapply handler_keeps_reset, (IH _ tr2); eauto. intros c Hc. apply (Hno c). by right.
  - simpl in Hs. injection Hs as <-. destruct tr2 as [|x tr2]; simpl in Heq; simplify_eq.
    apply (IH tr1 tr2 th); [done|]. intros c Hc. apply (Hno c). by right.
  - exfalso. destruct tr2 as [|x tr2]; simpl in Heq; simplify_eq. apply (Hno t). by left.
  - destruct tr2 as [|x tr2]; simpl in Heq; simplify_eq; [by destruct start|].
    assert (r_resetElectionTimer (tl_node l) = true) as Hl
      by (apply (IH tr1 tr2 th); [done|]; intros c Hc; apply (Hno c); by right).
    simpl in Hs. destruct (_ <=? _); [|done]. injection Hs as Hs.
    apply bind_Ret_inv in Hs as ([r1 b] & He & [= <- _]). simpl.
    apply (handler_keeps_reset (tl_node l) EvTimeout); [|done]. simpl. by rewrite He.
Qed.

(** C15: elections are for silence. In every run of a node's timer loop
    with its handlers, in real time: the countdown ends at least
    ElectionTimeoutMin and less than ElectionTimeoutMax after it was last
    started; an election starts at least ElectionTimeoutMin after every reset
    the loop has handled until then - so none starts while resets are handled
    at shorter intervals, as with heartbeats every HeartbeatInterval; and an
    AppendEntries or InstallSnapshot of a current leader leaves a reset pending,
    which only the loop's handling it takes away. *)
Theorem election_timer_bounds t0 r0 tr t l :
  timer_run t0 r0 tr t l →
  (∃ c, c ∈ countdowns t0 tr ∧ (∀ c', c' ∈ countdowns t0 tr → c' ≤ c) ∧
     c + ElectionTimeoutMin ≤ tl_deadline l < c + ElectionTimeoutMax) ∧
  (∀ tr1 tr2 te, tr = tr2 ++ (te, LElection) :: tr1 →
     ∀ c, c ∈ countdowns t0 tr1 → c + ElectionTimeoutMin ≤ te) ∧
  (∀ tr1 tr2 th, tr = tr2 ++ (th, LHeard) :: tr1 →
     (∀ c, (c, LRestarted) ∉ tr2) → r_resetElectionTimer (tl_node l) = true).
Proof.
  intros Hrun. split_and!; [|by eapply run_elections|by eapply run_pending].
  destruct (run_countdown _ _ _ _ _ Hrun) as (c & ? & _ & ? & ?). by exists c.
Qed.
End timer.

(** ** Witness *)
Module Witness.
#[local] Instance codec : Codec (persistedState Z) := countable_codec.

(** A heartbeat after 10 ms, handled by the loop after 12; then silence, and an
    election after 40. *)
Definition node0 : Raft Z MemoryPersister := freshRaft 0 [1; 2] None.
Definition beat : AppendEntriesArgs Z := mkAppendEntriesArgs 1 1 0 0 [] 0.
Definition node1 : Raft Z MemoryPersister :=
  match AppendEntries node0 beat with Ret (r, _) => r | Panic => node0 end.
Definition waited : TimerLoop := timer_start (set_resetElectionTimer false node1) 12000000 5.
Definition fired : TimerLoop (Cmd:=Z) (P:=MemoryPersister) :=
  match timer_select waited 40000000 false (TcFire 0) with
  | Some (Ret (l, _)) => l
  | _ => waited
  end.

Definition trace : list (Z * TimerLabel) :=
  [(40000000, LElection); (12000000, LRestarted); (10000000, LHeard)].

Lemma trace_run : timer_run 0 node0 trace 40000000 fired.
Proof.
  apply (tr_fire 0 node0 _ 40000000 waited fired 0 false true); [|done|by vm_compute|vm_compute; reflexivity].
  apply (tr_wait 0 node0 _ 12000000); [|done].
  apply (tr_reset 0 node0 _ 12000000 (mkTimerLoop node1 20000000 true) waited 5 false);
    [|done|by vm_compute|vm_compute; reflexivity].
  apply (tr_wait 0 node0 _ 10000000); [|done].
  apply (tr_handler 0 node0 [] 10000000 (timer_start node0 0 0) (EvAppendEntries beat) node1 LHeard);
    [|done|vm_compute; reflexivity|by right].
  apply (tr_wait 0 node0 _ 0); [|done]. by apply tr_start.
Qed.

Lemma election_timer_bounds_witness :
  timer_run 0 node0 trace 40000000 fired ∧ r_state (tl_node fired) = Candidate ∧
  12000000 + ElectionTimeoutMin ≤ 40000000.
Proof.
  split; [exact trace_run|]. split; [vm_compute; reflexivity|].
  destruct (election_timer_bounds 0 node0 trace 40000000 fired trace_run) as (_ & He & _).
  apply (He [(12000000, LRestarted); (10000000, LHeard)] [] 40000000 eq_refl). by left.
Defined.
End Witness.
