(* ===== verification/RaftDurable.v ===== *)
(** * Durability of a Raft node (01-raft/persist.go, persister.go)

    Every operation leaves on storage exactly the persistent state it leaves
    in memory, so the state a restart recovers is the state the node had when
    it last answered anyone; and what the restart rebuilds from it. *)
From S2P Require Import Prelude Persister RaftNode RaftFacts RaftDemo.
Local Open Scope Z_scope.

Section durable.
Context {Cmd P : Type} `{!Persister P, !PersisterLaws P, !Codec (persistedState Cmd)}.
Abbreviation Raft := (Raft Cmd P).
Implicit Type r : Raft.

Definition bootState : persistedState Cmd := mkPersistedState 0 (-1) [] 0 0.

(** The snapshot on storage is the one in memory. *)
Definition snap_saved r : Prop :=
  ∀ p, r_persister r = Some p → 0 < r_lastIncludedIndex r →
    ReadSnapshot p = Some (r_snapshotData r).

(** Storage holds the node's persistent state, or nothing was ever saved
    and the node still has its boot state. *)
Definition state_saved r : Prop :=
  ∀ p, r_persister r = Some p →
    ReadState p = Some (encodeStateLocked r) ∨
    (ReadState p = Some [] ∧ persistedState_of r = bootState).

Definition durable r : Prop := state_saved r ∧ snap_saved r.

(** Durability looks only at these parts of the node. *)
Definition durable_eq r r' : Prop :=
  r_persister r = r_persister r' ∧
  persistedState_of r = persistedState_of r' ∧
  r_snapshotData r = r_snapshotData r'.

#[local] Instance durable_eq_equiv : Equivalence durable_eq.
Proof.
  unfold durable_eq. split; [done|..].
  - intros r1 r2 (?&?&?). done.
  - intros r1 r2 r3 (->&->&->) (->&->&->). done.
Qed.

#[local] Instance durable_proper : Proper (durable_eq ==> iff) durable.
Proof.
  assert (∀ r1 r2, durable_eq r1 r2 → durable r1 → durable r2) as Himp.
  { intros r1 r2 (Hp & Hs & Hd) [H1 H2].
    assert (r_lastIncludedIndex r1 = r_lastIncludedIndex r2) as Hl
      by by injection Hs.
    split.
    - intros p Hp2. rewrite <- Hp in Hp2. unfold encodeStateLocked.
      rewrite <- Hs. by apply H1.
    - intros p Hp2 Hpos. rewrite <- Hp in Hp2. rewrite <- Hd. apply H2; [done|lia]. }
  intros r1 r2 Heq. split; apply Himp; [done|by symmetry].
Qed.

Lemma persistLocked_durable r r' :
  snap_saved r → persistLocked r = Ret r' → durable r'.
Proof.
  unfold persistLocked. intros Hsnap H.
  destruct (r_persister r) as [p|] eqn:Hp.
  - destruct (SaveState p (encodeStateLocked r)) as [p' []] eqn:Hs; inv_ret.
    apply save_state_read in Hs as [Hst Hsn].
    split; intros q Hq; simpl in Hq; simplify_eq; [by left|].
    simpl. intros Hpos. rewrite Hsn. by apply Hsnap.
  - inv_ret. split; intros q Hq; congruence.
Qed.

Lemma saveSnapshotLocked_durable r d r' :
  r_snapshotData r = d → saveSnapshotLocked r d = Ret r' → durable r'.
Proof.
  unfold saveSnapshotLocked. intros <- H.
  destruct (r_persister r) as [p|] eqn:Hp.
  - destruct (SaveStateAndSnapshot _ _ _) as [p' []] eqn:Hs; inv_ret.
    apply save_both_read in Hs as [Hst Hsn].
    split; intros q Hq; simpl in Hq; simplify_eq; [by left|done].
  - inv_ret. split; intros q Hq; congruence.
Qed.

Lemma becomeFollower_durable r t r' :
  durable r → becomeFollowerLocked r t = Ret r' → durable r'.
Proof.
  unfold becomeFollowerLocked. intros [_ Hs]. apply persistLocked_durable.
  intros p. by destruct (_ <? _); apply Hs.
Qed.

Lemma advanceCommit_durable r r' :
  durable r → advanceCommitIndexLocked r = Ret r' → durable r'.
Proof. intros Hd H. saved. done. Qed.

(** Close [durable r'] when r' differs from a durable node in volatile
    fields only, whatever its conditionals decide. *)
Ltac volatile :=
  try assumption;
  repeat match goal with
  | |- context [if ?b then _ else _] => destruct b
  | |- context [let '(_, _) := ?x in _] => destruct x
  end;
  match goal with Hd : durable _ |- _ => exact Hd end.

(** Push durability through the saves and commit steps of a handler. *)
Ltac durable_done :=
  repeat match goal with
  | Hd : durable ?r, H : becomeFollowerLocked ?r _ = Ret _ |- _ =>
      apply (becomeFollower_durable _ _ _ Hd) in H
  | H : persistLocked _ = Ret _, Hd : durable ?r |- _ =>
      apply persistLocked_durable in H; [|exact (proj2 Hd)]
  | H : saveSnapshotLocked _ _ = Ret _ |- _ =>
      apply saveSnapshotLocked_durable in H;
        [|by repeat match goal with |- context [if ?b then _ else _] => destruct b end]
  | H : advanceCommitIndexLocked _ = Ret _ |- _ =>
      apply advanceCommit_durable in H; [|volatile]
  end; try volatile.

Lemma becomeLeader_durable r r' e :
  durable r → becomeLeaderLocked r = Ret (r', e) → durable r'.
Proof. unfold becomeLeaderLocked. intros Hd H. handler; done. Qed.

Lemma becomeCandidate_durable r r' e :
  durable r → becomeCandidateLocked r = Ret (r', e) → durable r'.
Proof. unfold becomeCandidateLocked. intros Hd H. handler; durable_done. Qed.

Lemma RequestVote_durable r args r' reply :
  durable r → RequestVote r args = Ret (r', reply) → durable r'.
Proof. unfold RequestVote. intros Hd H. handler; durable_done. Qed.

Lemma AppendEntries_durable r args r' reply :
  durable r → AppendEntries r args = Ret (r', reply) → durable r'.
Proof. unfold AppendEntries. intros Hd H. handler; durable_done. Qed.

Lemma InstallSnapshot_durable r args r' reply :
  durable r → InstallSnapshot r args = Ret (r', reply) → durable r'.
Proof. unfold InstallSnapshot. intros Hd H. handler; durable_done. Qed.

Lemma Snapshot_durable r i d r' e :
  durable r → Snapshot r i d = Ret (r', e) → durable r'.
Proof. unfold Snapshot. intros Hd H. handler; durable_done. Qed.

Lemma Propose_durable r c r' res :
  durable r → Propose r c = Ret (r', res) → durable r'.
Proof. unfold Propose. intros Hd H. handler; durable_done. Qed.

Lemma voteReply_durable r el reply r' el' :
  durable r → startElection_reply r el reply = Ret (r', el') → durable r'.
Proof.
  unfold startElection_reply. intros Hd H.
  handler; durable_done; eauto using becomeLeader_durable.
Qed.

Lemma appendReply_durable r p args reply r' :
  durable r → replicateToPeer_reply r p args reply = Ret r' → durable r'.
Proof. unfold replicateToPeer_reply. intros Hd H. handler; durable_done. Qed.

Lemma snapshotReply_durable r p args reply r' :
  durable r → sendInstallSnapshot_reply r p args reply = Ret r' → durable r'.
Proof. unfold sendInstallSnapshot_reply. intros Hd H. handler; durable_done. Qed.

Lemma electionTimeout_durable r r' b :
  durable r → electionTimeout r = Ret (r', b) → durable r'.
Proof.
  unfold electionTimeout. intros Hd H.
  handler; durable_done; eauto using becomeCandidate_durable.
Qed.

Lemma applyNext_durable r r' m :
  durable r → applyPending_next r = Ret (r', m) → durable r'.
Proof. unfold applyPending_next. intros Hd H. handler; durable_done. Qed.

(** C11: persist before answer. Every operation of a node - timeouts,
    handlers, replies, proposals, compaction, delivery - leaves on storage
    exactly the term, vote, log and snapshot position it leaves in memory,
    and the snapshot bytes that go with them. *)
Theorem node_step_durable r ev r' :
  durable r → node_step r ev = Ret r' → durable r'.
Proof.
  destruct ev; cbn [node_step]; intros Hd H; inv_ret; cbn [fst] in *.
  - by eapply electionTimeout_durable.
  - by eapply RequestVote_durable.
  - by eapply voteReply_durable.
  - by eapply AppendEntries_durable.
  - by eapply appendReply_durable.
  - by eapply InstallSnapshot_durable.
  - by eapply snapshotReply_durable.
  - by eapply Propose_durable.
  - by eapply Snapshot_durable.
  - done.
  - by eapply applyNext_durable.
Qed.

Lemma freshRaft_durable id peers p :
  ReadState p = Some [] → durable (freshRaft id peers (Some p)).
Proof.
  intros Hr. split; intros q Hq; simpl in Hq; simplify_eq; [by right|done].
Qed.

(** What newRaft builds from a saved state. *)
Definition restoredRaft (id : Z) (peers : list Z) (p : P)
    (st : persistedState Cmd) (snap : bytes) : Raft :=
  let lii := ps_LastIncludedIndex st in
  mkRaft id peers (Some p) Follower (ps_CurrentTerm st) (ps_VotedFor st)
    (ps_Log st) lii (ps_LastIncludedTerm st)
    (if 0 <? lii then snap else []) (Z.max 0 lii) (Z.max 0 lii)
    None ∅ ∅ false.

Lemma newRaft_saved id peers p st snap :
  ReadState p = Some (gob_encode st) →
  (0 < ps_LastIncludedIndex st → ReadSnapshot p = Some snap) →
  newRaft id peers (Some p) = Ret (restoredRaft id peers p st snap).
Proof.
  intros Hr Hs. unfold newRaft, restoreLocked, freshRaft, restoredRaft.
  cbn [r_persister]. rewrite Hr. cbn [or_panic mbind outcome_bind].
  destruct (gob_encode st) as [|b bs] eqn:Henc; [by apply gob_nonempty in Henc|].
  rewrite <- Henc, gob_round_trip. destruct st as [ct vf log lii lit]; simpl in *.
  destruct (Z.ltb_spec 0 lii) as [Hl|Hl].
  - by rewrite (Hs Hl), (Z.max_r 0 lii) by lia.
  - by rewrite Z.max_l by lia.
Qed.

(** What a node comes back with. *)
Definition recovered r p id peers r' : Prop :=
  r_id r' = id ∧ r_peers r' = peers ∧ r_state r' = Follower ∧
  persistedState_of r' = persistedState_of r ∧
  (0 < r_lastIncludedIndex r → r_snapshotData r' = r_snapshotData r) ∧
  r_commitIndex r' = Z.max 0 (r_lastIncludedIndex r) ∧
  r_lastApplied r' = Z.max 0 (r_lastIncludedIndex r) ∧
  r_persister r' = Some p ∧ durable r'.

Lemma newRaft_recovers r p id peers :
  durable r → r_persister r = Some p →
  ∃ r', newRaft id peers (Some p) = Ret r' ∧ recovered r p id peers r'.
Proof.
  intros [Hst Hsn] Hp. destruct (Hst p Hp) as [Hr|[Hr Hboot]].
  - assert (newRaft id peers (Some p) =
            Ret (restoredRaft id peers p (persistedState_of r) (r_snapshotData r)))
      as -> by (apply newRaft_saved; [exact Hr|exact (Hsn p Hp)]).
    eexists. split; [reflexivity|]. unfold recovered. simpl. split_and!; try done.
    + intros Hl. by rewrite (proj2 (Z.ltb_lt _ _) Hl).
    + split; [intros q [= <-]; left; exact Hr|].
      intros q [= <-] Hl. simpl in Hl |- *.
      rewrite (proj2 (Z.ltb_lt _ _) Hl). by apply (Hsn p Hp).
  - assert (r_lastIncludedIndex r = 0) as Hl by by injection Hboot.
    eexists. split; [unfold newRaft, restoreLocked, freshRaft; simpl; by rewrite Hr|].
    unfold recovered. simpl. rewrite Hl, Hboot. split_and!; try done. by apply freshRaft_durable.
Qed.

(** C12: a restart on the same storage. A node built by newRaft on the
    storage of a durable node comes back as a Follower with the same term,
    vote, log, snapshot position and snapshot bytes, and with commitIndex
    and lastApplied at the snapshot position (0 if there is none). *)
Theorem restart_recovers r p id peers :
  durable r → r_persister r = Some p →
  ∃ r', newRaft id peers (Some p) = Ret r' ∧ recovered r p id peers r'.
Proof. apply newRaft_recovers. Qed.
End durable.

Lemma on_storage_durable {Cmd} `{!Codec (persistedState Cmd)} (r : Raft Cmd MemoryPersister) :
  durable (on_storage r).
Proof. split; intros p [= <-]; [by left|done]. Qed.

(** ** Witnesses *)
Module Witness.
Lemma node_step_durable_witness :
  ∃ r', node_step demo_leader (EvPropose 13) = Ret r' ∧ durable r'.
Proof.
  eexists. split; [vm_compute; reflexivity|].
  eapply (node_step_durable demo_leader (EvPropose 13));
    [apply on_storage_durable|vm_compute; reflexivity].
Defined.

Lemma restart_recovers_witness :
  ∃ p r', r_persister demo_compacted = Some p ∧
    newRaft 2 [0; 1] (Some p) = Ret r' ∧ r_state r' = Follower ∧
    persistedState_of r' = persistedState_of demo_compacted ∧
    r_commitIndex r' = 2.
Proof.
  eexists. destruct (restart_recovers demo_compacted _ 2 [0; 1]
    (on_storage_durable _) eq_refl) as (r' & Hr & _ & _ & Hst & Hps & _ & Hc & _).
  exists r'. split; [reflexivity|]. split_and!; [exact Hr|exact Hst|exact Hps|exact Hc].
Defined.
End Witness.
