(* ===== verification/RaftVotes.v ===== *)
(** * Terms, votes and roles of one Raft node

    How every operation may move a node's term, vote and role ([evolves]),
    and the functional specification of the voting handlers. *)
From S2P Require Import Prelude Persister RaftNode RaftFacts RaftDemo.
Local Open Scope Z_scope.

Section votes.
Context {Cmd P : Type} `{!Persister P, !Codec (persistedState Cmd)}.
Abbreviation Raft := (Raft Cmd P).
Implicit Type r : Raft.

(** A candidate or leader has voted for itself in its term. *)
Definition self_voted r : Prop :=
  r_state r ≠ Follower → r_votedFor r = r_id r.

(** Terms never decrease; within a term a vote, once cast, stays; nobody
    becomes a leader this way. *)
Record evolves r r' : Prop := {
  ev_id : r_id r' = r_id r;
  ev_peers : r_peers r' = r_peers r;
  ev_vote : r_currentTerm r < r_currentTerm r' ∨
    (r_currentTerm r' = r_currentTerm r ∧
     (r_votedFor r' = r_votedFor r ∨ r_votedFor r = -1));
  ev_self : r_id r ≠ -1 → self_voted r → self_voted r';
  ev_leader : r_state r' = Leader →
    r_state r = Leader ∧ r_currentTerm r' = r_currentTerm r;
  ev_candidate : r_state r' = Candidate →
    r_currentTerm r < r_currentTerm r' ∨
    (r_state r = Candidate ∧ r_currentTerm r' = r_currentTerm r)
}.

#[global] Instance evolves_preorder : PreOrder evolves.
Proof.
  split.
  - intros r. split; auto.
  - intros r1 r2 r3 [I1 P1 V1 S1 L1 C1] [I2 P2 V2 S2 L2 C2]. split.
    + congruence.
    + congruence.
    + lia.
    + intros Hid H1. apply S2; [congruence|auto].
    + intros [HL HT]%L2. apply L1 in HL as [??]. split; [done|congruence].
    + intros [?|[HC HT]]%C2; [left; lia|]. apply C1 in HC as [?|[? ?]]; [left; lia|].
      right. split; [done|congruence].
Qed.

(** The node changed in fields that elections do not read. *)
Lemma evolves_volatile r r' :
  r_id r' = r_id r → r_peers r' = r_peers r → r_state r' = r_state r →
  r_currentTerm r' = r_currentTerm r → r_votedFor r' = r_votedFor r →
  evolves r r'.
Proof.
  intros Hi Hp Hs Ht Hv. split; [done|done|auto| | |].
  - intros _ H. unfold self_voted. by rewrite Hs, Hv, Hi.
  - by rewrite Hs, Ht.
  - rewrite Hs, Ht. by right.
Qed.

Lemma becomeFollower_inv r t r' :
  becomeFollowerLocked r t = Ret r' →
  ∃ p, r' = set_persister p (set_state Follower
    (if r_currentTerm r <? t then set_votedFor (-1) (set_currentTerm t r) else r)).
Proof. unfold becomeFollowerLocked. intros H. saved. by eexists. Qed.

Lemma becomeFollower_evolves r t r' :
  becomeFollowerLocked r t = Ret r' → evolves r r'.
Proof.
  intros [p ->]%becomeFollower_inv. destruct (Z.ltb_spec (r_currentTerm r) t);
    (split; unfold self_voted; simpl; [done|done|lia|naive_solver|done|done]).
Qed.

(** Close [evolves r r'] where r' differs from r in volatile fields,
    whatever its conditionals decide. *)
Ltac evolves_volatile :=
  repeat match goal with
  | |- context [if ?b then _ else _] => destruct b
  | |- context [let '(_, _) := ?x in _] => destruct x
  end; apply evolves_volatile; reflexivity.

(** Chain the inner steps of a handler. *)
Ltac evolves_done :=
  repeat match goal with
  | H : becomeFollowerLocked ?r _ = Ret ?a |- evolves ?r _ =>
      apply becomeFollower_evolves in H; transitivity a; [exact H|clear H]
  | H : becomeFollowerLocked ?r _ = Ret ?a |- _ =>
      apply becomeFollower_evolves in H
  end; saved; try done; try evolves_volatile.

Lemma becomeCandidate_evolves r r' e :
  becomeCandidateLocked r = Ret (r', e) → evolves r r'.
Proof.
  unfold becomeCandidateLocked. intros H. handler; saved; try done;
    (split; unfold self_voted; simpl; [done|done|lia|done|done|lia]).
Qed.

Lemma electionTimeout_evolves r r' b :
  electionTimeout r = Ret (r', b) → evolves r r'.
Proof.
  unfold electionTimeout. intros H. handler; try done;
    by eapply becomeCandidate_evolves.
Qed.

Lemma castVote_evolves r c :
  r_votedFor r = -1 ∨ r_votedFor r = c → evolves r (set_votedFor c r).
Proof.
  intros H. split; simpl; try done; [lia| |by right].
  intros Hid Hs Hc. simpl in *. apply Hs in Hc. lia.
Qed.

Lemma RequestVote_evolves r args r' reply :
  RequestVote r args = Ret (r', reply) → evolves r r'.
Proof.
  unfold RequestVote. intros H. handler; evolves_done.
  - transitivity a; [done|]. transitivity (set_votedFor (rv_CandidateID args) a);
      [apply castVote_evolves; lia|evolves_volatile].
  - transitivity (set_votedFor (rv_CandidateID args) a);
      [apply castVote_evolves; lia|evolves_volatile].
Qed.

Lemma AppendEntries_evolves r args r' reply :
  AppendEntries r args = Ret (r', reply) → evolves r r'.
Proof. unfold AppendEntries. intros H. handler; evolves_done. Qed.

Lemma InstallSnapshot_evolves r args r' reply :
  InstallSnapshot r args = Ret (r', reply) → evolves r r'.
Proof. unfold InstallSnapshot. intros H. handler; evolves_done. Qed.

Lemma Snapshot_evolves r i d r' e :
  Snapshot r i d = Ret (r', e) → evolves r r'.
Proof. unfold Snapshot. intros H. handler; evolves_done. Qed.

Lemma Propose_evolves r c r' res :
  Propose r c = Ret (r', res) → evolves r r'.
Proof. unfold Propose. intros H. handler; evolves_done. Qed.

Lemma appendReply_evolves r p args reply r' :
  replicateToPeer_reply r p args reply = Ret r' → evolves r r'.
Proof. unfold replicateToPeer_reply. intros H. handler; evolves_done. Qed.

Lemma snapshotReply_evolves r p args reply r' :
  sendInstallSnapshot_reply r p args reply = Ret r' → evolves r r'.
Proof. unfold sendInstallSnapshot_reply. intros H. handler; evolves_done. Qed.

Lemma applyNext_evolves r r' m :
  applyPending_next r = Ret (r', m) → evolves r r'.
Proof. unfold applyPending_next. intros H. handler; evolves_done. Qed.

Lemma becomeLeader_inv r r' e :
  becomeLeaderLocked r = Ret (r', e) →
  (r_state r ≠ Candidate ∧ r' = r) ∨
  (r_state r = Candidate ∧ e = None ∧
   r_id r' = r_id r ∧ r_peers r' = r_peers r ∧ r_state r' = Leader ∧
   persistedState_of r' = persistedState_of r).
Proof.
  unfold becomeLeaderLocked. intros H.
  handler; first [left; by split | right; by split_and!].
Qed.

(** One reply either is not a vote (and the node evolves), or is a vote of
    the running election, which makes the candidate leader exactly when it
    brings the count to the majority. *)
Lemma voteReply_cases r el reply r' el' :
  startElection_reply r el reply = Ret (r', el') →
  (evolves r r' ∧ el' = el) ∨
  (rvr_VoteGranted reply = true ∧ r_state r = Candidate ∧
   r_currentTerm r = rv_Term (el_args el) ∧
   el' = mkElection (el_args el) (el_votes el + 1) (el_majority el) ∧
   r_id r' = r_id r ∧ r_peers r' = r_peers r ∧
   persistedState_of r' = persistedState_of r ∧
   (if el_majority el <=? el_votes el + 1 then r_state r' = Leader else r' = r)).
Proof.
  unfold startElection_reply. intros H.
  destruct (Z.ltb_spec (r_currentTerm r) (rvr_Term reply)); inv_ret.
  { left. split; [by eapply becomeFollower_evolves|done]. }
  destruct (bool_decide (r_state r = Candidate)) eqn:Hc; simpl in H; [|left; by inv_ret].
  apply bool_decide_eq_true in Hc.
  destruct (Z.eqb_spec (r_currentTerm r) (rv_Term (el_args el))); simpl in H;
    [|left; by inv_ret].
  destruct (rvr_VoteGranted reply) eqn:Hg; simpl in H; [|left; by inv_ret].
  right. destruct (Z.leb_spec (el_majority el) (el_votes el + 1)); inv_ret.
  - apply becomeLeader_inv in Ha as [[? _]|(_ & _ & ? & ? & ? & ?)]; [done|].
    by split_and!.
  - by split_and!.
Qed.

(** What a RequestVote that returns has done. *)
Definition RequestVote_post r args r' reply : Prop :=
  r_currentTerm r' = Z.max (r_currentTerm r) (rv_Term args) ∧
  rvr_Term reply = Z.max (r_currentTerm r) (rv_Term args) ∧
  (rvr_VoteGranted reply = true ↔
    r_currentTerm r ≤ rv_Term args ∧
    (r_currentTerm r < rv_Term args ∨ r_votedFor r = -1 ∨
     r_votedFor r = rv_CandidateID args) ∧
    (lastTerm r < rv_LastLogTerm args ∨
     (rv_LastLogTerm args = lastTerm r ∧ lastIndex r ≤ rv_LastLogIndex args))) ∧
  r_votedFor r' =
    (if rvr_VoteGranted reply then rv_CandidateID args
     else if r_currentTerm r <? rv_Term args then -1 else r_votedFor r) ∧
  r_resetElectionTimer r' = rvr_VoteGranted reply || r_resetElectionTimer r ∧
  r_log r' = r_log r ∧ r_lastIncludedIndex r' = r_lastIncludedIndex r ∧
  r_commitIndex r' = r_commitIndex r ∧ r_lastApplied r' = r_lastApplied r.

Lemma RequestVote_meets r args r' reply :
  RequestVote r args = Ret (r', reply) → RequestVote_post r args r' reply.
Proof.
  unfold RequestVote_post. unfold RequestVote. intros H. rewrite <- candidateLogIsUpToDate_spec.
  destruct (Z.ltb_spec (r_currentTerm r) (rv_Term args)) as [Hlt|Hge];
    [apply bind_Ret_inv in H as (a & Ha & H)|rewrite bind_Ret_l in H].
  - apply becomeFollower_inv in Ha as [p ->].
    rewrite (proj2 (Z.ltb_lt _ _) Hlt) in H. simpl in H.
    rewrite Z.ltb_irrefl in H. simpl in H.
    change (candidateLogIsUpToDateLocked _) with (candidateLogIsUpToDateLocked r) in H.
    destruct (candidateLogIsUpToDateLocked r _ _) eqn:Hu; simpl in H; inv_ret; saved;
      simpl; rewrite Z.max_r by lia; split_and!; try done; lia || naive_solver lia.
  - rewrite Z.max_l by lia.
    destruct (Z.ltb_spec (rv_Term args) (r_currentTerm r)); inv_ret; simpl.
    { split_and!; try done. split; [done|lia]. }
    destruct (candidateLogIsUpToDateLocked r _ _) eqn:Hu; simpl in H.
    + destruct (Z.eqb_spec (r_votedFor r) (-1)), (Z.eqb_spec (r_votedFor r) (rv_CandidateID args));
        simpl in H; inv_ret; saved; simpl; split_and!; try done; naive_solver lia.
    + rewrite orb_true_r in H. inv_ret. simpl. split_and!; try done. naive_solver lia.
Qed.

(** The vote decision. RequestVote raises the node to the larger of the
    two terms and answers with it; it grants the vote exactly when the
    candidate's term is not stale, the node has no vote for another
    candidate in that term, and the candidate's (last term, last index) is
    at least the node's own; a granted vote is recorded and resets the
    election timer, a refused one leaves the vote as the term change did,
    and the log and the commit and apply positions never change. *)
Theorem RequestVote_spec r args r' reply :
  RequestVote r args = Ret (r', reply) → RequestVote_post r args r' reply.
Proof. apply RequestVote_meets. Qed.
End votes.

(** ** Witnesses *)
Module Witness.
Lemma RequestVote_spec_witness :
  ∃ r' reply, RequestVote demo_follower (mkRequestVoteArgs 3 2 3 2) = Ret (r', reply) ∧
    rvr_VoteGranted reply = true ∧ r_currentTerm r' = 3 ∧ r_votedFor r' = 2.
Proof.
  run (RequestVote demo_follower (mkRequestVoteArgs 3 2 3 2)) as [r' reply] with H.
  destruct (RequestVote_spec _ _ _ _ H) as (Ht & _ & [_ Hg] & Hv & _).
  assert (rvr_VoteGranted reply = true) as Hgr
    by (apply Hg; split_and!; [done|by left|right; by split]).
  exists r', reply. rewrite Hgr in Hv. split_and!; [exact H|exact Hgr|exact Ht|exact Hv].
Defined.
End Witness.
