(* ===== verification/RaftCluster.v ===== *)
(** * A cluster of Raft nodes, and election safety

    The nodes of RaftNode.v exchanging messages over a network that may lose,
    delay, duplicate and reorder them (a message sent stays available for
    ever), with crashes and restarts from storage. The state keeps the history
    of every node state that ever existed at the end of a critical section.
    The step relation has a parameter, the AppendEntries a network may hand to
    a node; [reachable] is the network that restricts nothing. A leader may call
    replicateToPeer at any moment, so the calls to one peer may overlap. *)
From S2P Require Import Prelude Persister RaftNode RaftFacts RaftDurable RaftVotes.
Local Open Scope Z_scope.

Section cluster.
Context {Cmd P : Type} `{!Persister P, !PersisterLaws P, !Codec (persistedState Cmd)}.
Abbreviation Raft := (Raft Cmd P).
Implicit Type r : Raft.

Inductive Msg :=
| MVoteReq (to : Z) (args : RequestVoteArgs)
| MVoteRep (from : Z) (args : RequestVoteArgs) (reply : RequestVoteReply)
| MAppendReq (to : Z) (args : AppendEntriesArgs Cmd)
| MAppendRep (from : Z) (args : AppendEntriesArgs Cmd) (reply : AppendEntriesReply)
| MSnapReq (to : Z) (args : InstallSnapshotArgs)
| MSnapRep (from : Z) (args : InstallSnapshotArgs) (reply : InstallSnapshotReply).

(** A running startElection call: who runs it, its closure, and the peers
    whose goroutine has not handled a reply yet. *)
Record RunningElection := mkRunning {
  re_node : Z;
  re_el : Election;
  re_pending : list Z
}.

Record Cluster := mkCluster {
  c_nodes : gmap Z Raft;
  c_starting : list Z;              (* [go r.startElection()] not begun yet *)
  c_elections : list RunningElection;
  c_net : list Msg;
  c_hist : list Raft
}.

(** Node [i] has finished a critical section in state [r]. *)
Definition update (s : Cluster) (i : Z) r (msgs : list Msg) : Cluster :=
  mkCluster (<[i := r]> (c_nodes s)) (c_starting s) (c_elections s)
    (msgs ++ c_net s) (r :: c_hist s).

Definition set_starting (l : list Z) (s : Cluster) : Cluster :=
  mkCluster (c_nodes s) l (c_elections s) (c_net s) (c_hist s).

Definition set_elections (l : list RunningElection) (s : Cluster) : Cluster :=
  mkCluster (c_nodes s) (c_starting s) l (c_net s) (c_hist s).

Definition send (msgs : list Msg) (s : Cluster) : Cluster :=
  mkCluster (c_nodes s) (c_starting s) (c_elections s) (msgs ++ c_net s) (c_hist s).

Section steps.
(** Which AppendEntries the network hands to a node in which state. *)
Context (accepts : Raft → AppendEntriesArgs Cmd → Prop).

Inductive cluster_step (s : Cluster) : Cluster → Prop :=
| step_timeout i r r' b :
    c_nodes s !! i = Some r → electionTimeout r = Ret (r', b) →
    cluster_step s (set_starting ((if b then [i] else []) ++ c_starting s)
                      (update s i r' []))
| step_begin_election i r rest :
    c_nodes s !! i = Some r → c_starting s ≡ₚ i :: rest →
    cluster_step s
      (set_starting rest
        (set_elections (mkRunning i (startElection_begin r) (r_peers r) :: c_elections s)
          (send (map (λ p, MVoteReq p (el_args (startElection_begin r))) (r_peers r)) s)))
| step_request_vote i r args r' reply :
    c_nodes s !! i = Some r → MVoteReq i args ∈ c_net s →
    RequestVote r args = Ret (r', reply) →
    cluster_step s (update s i r' [MVoteRep i args reply])
| step_vote_reply k e r peer reply r' el' pending :
    c_elections s !! k = Some e → c_nodes s !! re_node e = Some r →
    re_pending e ≡ₚ peer :: pending →
    MVoteRep peer (el_args (re_el e)) reply ∈ c_net s →
    startElection_reply r (re_el e) reply = Ret (r', el') →
    cluster_step s
      (set_elections (<[k := mkRunning (re_node e) el' pending]> (c_elections s))
        (update s (re_node e) r' []))
(* Any call of replicateToPeer, also one that overlaps another to the same
   peer. replicate waits for its calls and RunHeartbeats runs one replicate at a
   time, so the repository's loop alone starts the next only when the last has
   returned; with a transport whose calls return when they have been handled, or
   never are, that is a restriction of this relation, and nothing is overtaken. *)
| step_replicate i r peer args :
    c_nodes s !! i = Some r →
    replicateToPeer_begin r peer = Ret (ReplicateEntries args) →
    cluster_step s (send [MAppendReq peer args] s)
| step_append_entries i r args r' reply :
    c_nodes s !! i = Some r → MAppendReq i args ∈ c_net s → accepts r args →
    AppendEntries r args = Ret (r', reply) →
    cluster_step s (update s i r' [MAppendRep i args reply])
| step_append_reply i r peer args reply r' :
    c_nodes s !! i = Some r → MAppendRep peer args reply ∈ c_net s →
    ae_LeaderID args = i → replicateToPeer_reply r peer args reply = Ret r' →
    cluster_step s (update s i r' [])
| step_send_snapshot i r peer args :
    c_nodes s !! i = Some r → sendInstallSnapshot_begin r = Some args →
    cluster_step s (send [MSnapReq peer args] s)
| step_install_snapshot i r args r' reply :
    c_nodes s !! i = Some r → MSnapReq i args ∈ c_net s →
    InstallSnapshot r args = Ret (r', reply) →
    cluster_step s (update s i r' [MSnapRep i args reply])
| step_snapshot_reply i r peer args reply r' :
    c_nodes s !! i = Some r → MSnapRep peer args reply ∈ c_net s →
    is_LeaderID args = i → sendInstallSnapshot_reply r peer args reply = Ret r' →
    cluster_step s (update s i r' [])
| step_propose i r command r' res :
    c_nodes s !! i = Some r → Propose r command = Ret (r', res) →
    cluster_step s (update s i r' [])
| step_snapshot i r index data r' e :
    c_nodes s !! i = Some r → Snapshot r index data = Ret (r', e) →
    cluster_step s (update s i r' [])
| step_deliver i r :
    c_nodes s !! i = Some r →
    cluster_step s (update s i (deliverPendingSnapshot r).1 [])
| step_apply i r r' m :
    c_nodes s !! i = Some r → applyPending_next r = Ret (r', m) →
    cluster_step s (update s i r' [])
| step_restart i r p r' :
    c_nodes s !! i = Some r → r_persister r = Some p →
    newRaft i (r_peers r) (Some p) = Ret r' →
    cluster_step s
      (set_starting (filter (λ j, j ≠ i) (c_starting s))
        (set_elections (filter (λ e, re_node e ≠ i) (c_elections s))
          (update s i r' []))).
End steps.

(** The peers of a member: every other member. *)
Definition peers_of (members : list Z) (i : Z) : list Z :=
  filter (λ j, j ≠ i) members.

(** A cluster of first-ever boots. *)
Definition cluster_init (members : list Z) (s : Cluster) : Prop :=
  c_starting s = [] ∧ c_elections s = [] ∧ c_net s = [] ∧ c_hist s = [] ∧
  ∀ i r, c_nodes s !! i = Some r →
    i ∈ members ∧ ∃ op : option P,
      r = freshRaft i (peers_of members i) op ∧
      (∀ p, op = Some p → ReadState p = Some []).

Definition reachable_by (accepts : Raft → AppendEntriesArgs Cmd → Prop)
    (members : list Z) (s : Cluster) : Prop :=
  ∃ s0, cluster_init members s0 ∧ rtc (cluster_step accepts) s0 s.

(** The network that may hand over any message at any time. *)
Definition any_order (r : Raft) (args : AppendEntriesArgs Cmd) : Prop := True.

Definition reachable (members : list Z) (s : Cluster) : Prop :=
  reachable_by any_order members s.

(** A state of node [i] in which it holds the vote for [c] in term [t]. *)
Definition voted (hist : list Raft) (i t c : Z) : Prop :=
  ∃ h, h ∈ hist ∧ r_id h = i ∧ r_currentTerm h = t ∧ r_votedFor h = c.

Lemma voted_mono h hist i t c : voted hist i t c → voted (h :: hist) i t c.
Proof. intros (h' & ? & ?). exists h'. split; [by right|done]. Qed.

Section safety.
Context (members : list Z) (Hnodup : NoDup members)
  (Hids : ∀ i, i ∈ members → 0 ≤ i).

(** A majority of the members voted for [c] in term [t]. *)
Definition elected (hist : list Raft) (t c : Z) : Prop :=
  ∃ Q, NoDup Q ∧ Q ⊆ members ∧ zlen members / 2 + 1 ≤ zlen Q ∧
    ∀ v, v ∈ Q → voted hist v t c.

(** The votes a running election has counted: each a granting reply. *)
Definition counted (net : list Msg) (e : RunningElection) : Prop :=
  re_node e ∈ members ∧
  rv_CandidateID (el_args (re_el e)) = re_node e ∧
  el_majority (re_el e) = zlen members / 2 + 1 ∧
  ∃ G, NoDup (G ++ re_pending e) ∧
    G ++ re_pending e ⊆ peers_of members (re_node e) ∧
    el_votes (re_el e) = 1 + zlen G ∧
    ∀ v, v ∈ G → ∃ reply, MVoteRep v (el_args (re_el e)) reply ∈ net ∧
      rvr_VoteGranted reply = true.

Record inv (s : Cluster) : Prop := {
  inv_node i r : c_nodes s !! i = Some r →
    i ∈ members ∧ r_id r = i ∧ r_peers r = peers_of members i ∧
    durable r ∧ self_voted r ∧ (r_state r = Leader → r ∈ c_hist s);
  inv_member h : h ∈ c_hist s → r_id h ∈ members;
  inv_current h : h ∈ c_hist s → r_votedFor h ≠ -1 →
    ∃ r, c_nodes s !! r_id h = Some r ∧
      (r_currentTerm h < r_currentTerm r ∨
       (r_currentTerm h = r_currentTerm r ∧ r_votedFor r = r_votedFor h));
  inv_one_vote i t c1 c2 : voted (c_hist s) i t c1 → voted (c_hist s) i t c2 →
    c1 ≠ -1 → c2 ≠ -1 → c1 = c2;
  inv_leader h : h ∈ c_hist s → r_state h = Leader →
    elected (c_hist s) (r_currentTerm h) (r_id h);
  inv_grant i args reply : MVoteRep i args reply ∈ c_net s →
    rvr_VoteGranted reply = true →
    i ∈ members ∧ voted (c_hist s) i (rv_Term args) (rv_CandidateID args);
  inv_request to args : MVoteReq to args ∈ c_net s →
    rv_CandidateID args ∈ members;
  inv_election e : e ∈ c_elections s → counted (c_net s) e
}.

Lemma elected_mono h hist t c : elected hist t c → elected (h :: hist) t c.
Proof.
  intros (Q & ? & ? & ? & HQ). exists Q. split_and!; try done.
  intros v Hv. by apply voted_mono, HQ.
Qed.

Lemma counted_mono msgs net e : counted net e → counted (msgs ++ net) e.
Proof.
  intros (? & ? & ? & G & ? & ? & ? & HG). split_and!; try done.
  exists G. split_and!; try done. intros v Hv. destruct (HG v Hv) as (reply & ? & ?).
  exists reply. split; [|done]. apply elem_of_app. by right.
Qed.

(** One node ends a critical section in a state that keeps terms and
    votes; a leader state must come with its majority. *)
Lemma inv_update s i r r' msgs :
  inv s → c_nodes s !! i = Some r →
  r_id r' = r_id r → r_peers r' = r_peers r →
  r_currentTerm r < r_currentTerm r' ∨
    (r_currentTerm r' = r_currentTerm r ∧
     (r_votedFor r' = r_votedFor r ∨ r_votedFor r = -1)) →
  self_voted r' → durable r' →
  (r_state r' = Leader → elected (r' :: c_hist s) (r_currentTerm r') i) →
  (∀ m, m ∈ msgs →
    (∀ to args, m ≠ MVoteReq to args) ∧
    ∀ j args reply, m = MVoteRep j args reply → rvr_VoteGranted reply = true →
      j = i ∧ r_currentTerm r' = rv_Term args ∧
      r_votedFor r' = rv_CandidateID args) →
  inv (update s i r' msgs).
Proof.
  intros Hinv Hi Hid Hp Hv Hself Hd Hl Hm.
  destruct (inv_node _ Hinv _ _ Hi) as (Hmem & Hri & Hrp & _ & _ & _).
  assert (∀ h, h ∈ c_hist s → r_id h = i → r_currentTerm h = r_currentTerm r' →
            r_votedFor h ≠ -1 → r_votedFor h = r_votedFor r') as Hone.
  { intros h Hh Hhi Ht Hne. destruct (inv_current _ Hinv h Hh Hne) as (r0 & Hr0 & Hc).
    rewrite Hhi, Hi in Hr0. simplify_eq. lia. }
  split; simpl.
  - intros j rj [[-> <-]|[Hne Hj]]%lookup_insert_Some.
    + split_and!; try done; [congruence|congruence|]. intros _. by left.
    + destruct (inv_node _ Hinv _ _ Hj) as (?&?&?&?&?&?).
      split_and!; try done. intros. right; auto.
  - intros h [->|Hh]%elem_of_cons; [by rewrite Hid, Hri|by apply (inv_member _ Hinv)].
  - intros h [->|Hh]%elem_of_cons Hne.
    + exists r'. rewrite Hid, Hri, lookup_insert_eq. auto.
    + destruct (inv_current _ Hinv h Hh Hne) as (rh & Hrh & Hc).
      destruct (decide (r_id h = i)) as [Heq|Hneq].
      * exists r'. rewrite Heq, lookup_insert_eq. split; [done|].
        rewrite Heq, Hi in Hrh. simplify_eq. lia.
      * exists rh. by rewrite lookup_insert_ne by done.
  - intros j t c1 c2 (h1 & H1 & I1 & T1 & V1) (h2 & H2 & I2 & T2 & V2) N1 N2.
    apply elem_of_cons in H1 as [->|H1]; apply elem_of_cons in H2 as [->|H2].
    + congruence.
    + rewrite <- V1, <- V2. symmetry. apply Hone; congruence.
    + rewrite <- V1, <- V2. apply Hone; congruence.
    + apply (inv_one_vote _ Hinv j t); [by exists h1|by exists h2|done|done].
  - intros h [->|Hh]%elem_of_cons HL; [rewrite Hid, Hri; by apply Hl|].
    by apply elected_mono, (inv_leader _ Hinv).
  - intros j args reply [Hin|Hin]%elem_of_app Hg.
    + destruct (proj2 (Hm _ Hin) _ _ _ eq_refl Hg) as (-> & Ht & Hc).
      split; [done|]. exists r'. split_and!; try done; [by left|congruence].
    + destruct (inv_grant _ Hinv _ _ _ Hin Hg). split; [done|]. by apply voted_mono.
  - intros to args [Hin|Hin]%elem_of_app; [|by apply (inv_request _ Hinv to)].
    by destruct (proj1 (Hm _ Hin) to args).
  - intros e He. by apply counted_mono, (inv_election _ Hinv).
Qed.

Lemma inv_evolves s i r r' msgs :
  inv s → c_nodes s !! i = Some r → evolves r r' → durable r' →
  (∀ m, m ∈ msgs →
    (∀ to args, m ≠ MVoteReq to args) ∧
    ∀ j args reply, m = MVoteRep j args reply → rvr_VoteGranted reply = true →
      j = i ∧ r_currentTerm r' = rv_Term args ∧
      r_votedFor r' = rv_CandidateID args) →
  inv (update s i r' msgs).
Proof.
  intros Hinv Hi [I Pe V S L] Hd Hm.
  destruct (inv_node _ Hinv _ _ Hi) as (Hmem & Hri & Hrp & _ & Hs & Hl).
  apply Hids in Hmem as Hpos.
  apply (inv_update _ _ r); try done; [apply S; [lia|done]|].
  intros [HL HT]%L. rewrite HT. apply elected_mono. rewrite <- Hri.
  apply (inv_leader _ Hinv); auto.
Qed.

Lemma inv_send s msgs :
  inv s →
  (∀ j args reply, MVoteRep j args reply ∉ msgs) →
  (∀ to args, MVoteReq to args ∈ msgs → rv_CandidateID args ∈ members) →
  inv (send msgs s).
Proof.
  intros Hinv Hrep Hreq. split; simpl; try apply Hinv.
  - intros j args reply [Hin|Hin]%elem_of_app;
      [by destruct (Hrep j args reply)|by apply (inv_grant _ Hinv)].
  - intros to args [Hin|Hin]%elem_of_app; [by eapply Hreq|by apply (inv_request _ Hinv to)].
  - intros e He. by apply counted_mono, (inv_election _ Hinv).
Qed.

Lemma inv_set_starting s l : inv s → inv (set_starting l s).
Proof. intros []. by split. Qed.

Lemma inv_set_elections s l :
  inv s → (∀ e, e ∈ l → counted (c_net s) e) → inv (set_elections l s).
Proof. intros [] Hl. by split. Qed.

(** The handlers other than a counted vote keep the invariant. *)
Ltac no_vote_msgs :=
  intros ? ?; repeat match goal with
  | H : _ ∈ _ :: _ |- _ => apply elem_of_cons in H as [->|H]
  | H : _ ∈ [] |- _ => by apply not_elem_of_nil in H
  end; by split.

Lemma inv_vote_reply s k e r peer reply r' el' pending :
  inv s → c_elections s !! k = Some e → c_nodes s !! re_node e = Some r →
  re_pending e ≡ₚ peer :: pending →
  MVoteRep peer (el_args (re_el e)) reply ∈ c_net s →
  startElection_reply r (re_el e) reply = Ret (r', el') →
  inv (set_elections (<[k := mkRunning (re_node e) el' pending]> (c_elections s))
         (update s (re_node e) r' [])).
Proof.
  intros Hinv Hk Hr Hpend Hmsg H.
  destruct (inv_node _ Hinv _ _ Hr) as (Hmem & Hid & Hpeers & Hd & Hself & Hlead).
  assert (e ∈ c_elections s) as He by (by eapply list_elem_of_lookup_2).
  destruct (inv_election _ Hinv e He) as (_ & Hc & Hmaj & G & HGn & HGs & Hvotes & HG).
  rewrite Hpend in HGn, HGs.
  assert (durable r') as Hd' by by eapply voteReply_durable.
  assert (NoDup (G ++ pending) ∧ G ++ pending ⊆ peers_of members (re_node e)) as [HGn' HGs'].
  { rewrite <- Permutation_middle in HGn, HGs. split; [by apply NoDup_cons in HGn as [_ ?]|].
    intros x Hx. apply HGs. by right. }
  destruct (voteReply_cases _ _ _ _ _ H) as [[Hev ->]|(Hg & Hcand & Ht & -> & Hid' & Hp' & Hps & Hl)].
  - apply inv_set_elections; [by eapply inv_evolves; [..|no_vote_msgs]|].
    intros e' [?| ->]%list_insert_elem; [by apply (inv_election _ Hinv)|].
    split_and!; try done. by exists G.
  - assert (r_currentTerm r' = r_currentTerm r ∧ r_votedFor r' = r_votedFor r) as [Ht' Hv']
      by (by injection Hps).
    assert (voted (r' :: c_hist s) (re_node e) (r_currentTerm r') (re_node e)) as Hme.
    { exists r'. split_and!; [by left|congruence|done|].
      rewrite Hv', <- Hid. apply Hself. by rewrite Hcand. }
    assert (∀ v, v ∈ peer :: G → ∃ reply, MVoteRep v (el_args (re_el e)) reply ∈ c_net s ∧
      rvr_VoteGranted reply = true) as HGm.
    { intros v [->|Hv]%elem_of_cons; [by exists reply|by apply HG]. }
    assert (∀ v, v ∈ peer :: G →
      voted (r' :: c_hist s) v (rv_Term (el_args (re_el e))) (re_node e)) as HG'.
    { intros v (rep & Hin & Hrep)%HGm. rewrite <- Hc.
      by apply voted_mono, (inv_grant _ Hinv _ _ _ Hin). }
    apply inv_set_elections.
    + apply (inv_update _ _ r); try done; [by right; auto| | |no_vote_msgs].
      * intros _. rewrite Hv', Hid'. apply Hself. by rewrite Hcand.
      * intros HL'. destruct (Z.leb_spec (el_majority (re_el e)) (el_votes (re_el e) + 1)) as [Hq|_];
          [|rewrite Hl in HL'; congruence].
        exists (re_node e :: peer :: G).
        assert (peer :: G ⊆ peers_of members (re_node e)) as HsG.
        { intros x Hx. apply HGs. set_solver. }
        split_and!.
        -- apply NoDup_cons. split; [by intros [? _]%HsG%list_elem_of_filter|].
           rewrite <- Permutation_middle in HGn. apply NoDup_cons in HGn as [Hnin HGn].
           apply NoDup_cons. split; [set_solver|]. by apply NoDup_app in HGn as (? & _).
        -- intros x [->|Hx]%elem_of_cons; [done|].
           by apply HsG, list_elem_of_filter in Hx as [_ ?].
        -- zlia.
        -- intros v [->|Hv]%elem_of_cons; [done|]. rewrite Ht', Ht. by apply HG'.
    + intros e' [?| ->]%list_insert_elem; [by apply (inv_election _ Hinv)|].
      split_and!; try done. simpl. exists (peer :: G). split_and!; simpl; try done.
      * by rewrite Permutation_middle.
      * by rewrite Permutation_middle.
      * zlia.
Qed.

Lemma inv_begin_election s i r rest :
  inv s → c_nodes s !! i = Some r →
  inv (set_starting rest
    (set_elections (mkRunning i (startElection_begin r) (r_peers r) :: c_elections s)
      (send (map (λ p, MVoteReq p (el_args (startElection_begin r))) (r_peers r)) s))).
Proof.
  intros Hinv Hi. destruct (inv_node _ Hinv _ _ Hi) as (Hm & Hid & Hp & _).
  unfold startElection_begin. rewrite lastLogInfo_eq. simpl.
  apply inv_set_starting, inv_set_elections.
  - apply inv_send; [done|..].
    + intros j args reply Hin. apply list_elem_of_In, in_map_iff in Hin. by destruct Hin as (? & ? & _).
    + intros to args Hin. apply list_elem_of_In, in_map_iff in Hin.
      destruct Hin as (p & [= _ <-] & _). simpl. by rewrite Hid.
  - intros e [->|He]%elem_of_cons; [|by apply counted_mono, (inv_election _ Hinv)].
    rewrite Hp. split_and!; simpl; try done.
    + unfold peers_of. rewrite (zlen_without members i) by done. done.
    + exists []. split_and!; simpl; try done; [by apply NoDup_filter|].
      intros v Hv. by apply not_elem_of_nil in Hv.
Qed.

Lemma inv_restart s i r p r' :
  inv s → c_nodes s !! i = Some r → r_persister r = Some p →
  newRaft i (r_peers r) (Some p) = Ret r' → inv (update s i r' []).
Proof.
  intros Hinv Hi Hp H. destruct (inv_node _ Hinv _ _ Hi) as (_ & Hid & _ & Hd & _).
  destruct (newRaft_recovers r p i (r_peers r) Hd Hp)
    as (r2 & H2 & Hid2 & Hp2 & Hst2 & Hps & _ & _ & _ & _ & Hd2).
  rewrite H in H2. injection H2 as <-. injection Hps as Ht Hv _ _ _.
  apply (inv_update _ _ r); try done; [congruence|by right; auto|..].
  - intros Hf. congruence.
  - intros Hl. congruence.
  - no_vote_msgs.
Qed.

Lemma inv_request_vote s i r args r' reply :
  inv s → c_nodes s !! i = Some r → MVoteReq i args ∈ c_net s →
  RequestVote r args = Ret (r', reply) →
  inv (update s i r' [MVoteRep i args reply]).
Proof.
  intros Hinv Hi Hm H. destruct (inv_node _ Hinv _ _ Hi) as (_ & _ & _ & Hd & _).
  eapply inv_evolves; [done|done|by eapply RequestVote_evolves|by eapply RequestVote_durable|].
  intros m [->|Hn]%elem_of_cons; [|by apply not_elem_of_nil in Hn].
  split; [done|]. intros j args' reply' [= <- <- <-] Hg.
  destruct (RequestVote_meets _ _ _ _ H) as (Ht & _ & Hgr & Hv & _).
  apply Hgr in Hg as Hg'. rewrite Hg in Hv. split_and!; [done|lia|done].
Qed.

Lemma inv_step accepts s s' : inv s → cluster_step accepts s s' → inv s'.
Proof.
  intros Hinv H.
  assert (∀ i r, c_nodes s !! i = Some r → durable r) as Hdur
    by (intros i r Hi; by apply (inv_node _ Hinv) in Hi as (_ & _ & _ & ? & _)).
  destruct H; try (eapply inv_evolves; [done|done|..|no_vote_msgs]).
  - apply inv_set_starting. eapply inv_evolves; [done|done|..|no_vote_msgs].
    + by eapply electionTimeout_evolves.
    + eapply electionTimeout_durable; eauto.
  - by apply inv_begin_election.
  - by eapply inv_request_vote.
  - by eapply inv_vote_reply.
  - apply inv_send; [done|..]; intros;
      [intros Hin|]; set_solver.
  - by eapply AppendEntries_evolves.
  - eapply AppendEntries_durable; eauto.
  - by eapply appendReply_evolves.
  - eapply appendReply_durable; eauto.
  - apply inv_send; [done|..]; intros;
      [intros Hin|]; set_solver.
  - by eapply InstallSnapshot_evolves.
  - eapply InstallSnapshot_durable; eauto.
  - by eapply snapshotReply_evolves.
  - eapply snapshotReply_durable; eauto.
  - by eapply Propose_evolves.
  - eapply Propose_durable; eauto.
  - by eapply Snapshot_evolves.
  - eapply Snapshot_durable; eauto.
  - by apply evolves_volatile.
  - exact (Hdur _ _ H).
  - by eapply applyNext_evolves.
  - eapply applyNext_durable; eauto.
  - apply inv_set_starting, inv_set_elections; [by eapply inv_restart|].
    intros e [_ He]%list_elem_of_filter. by apply (inv_election _ Hinv).
Qed.

Lemma inv_init s : cluster_init members s → inv s.
Proof.
  intros (Hs & He & Hn & Hh & Hnodes). split; rewrite ?Hs, ?He, ?Hn, ?Hh.
  - intros i r Hi. destruct (Hnodes i r Hi) as (Hm & op & -> & Hop).
    split_and!; try done; [|by intros []].
    destruct op as [p|]; [by apply freshRaft_durable, Hop|].
    split; intros q Hq; discriminate.
  - intros h Hin. by apply not_elem_of_nil in Hin.
  - intros h Hin. by apply not_elem_of_nil in Hin.
  - intros i t c1 c2 (h & Hin & _). by apply not_elem_of_nil in Hin.
  - intros h Hin. by apply not_elem_of_nil in Hin.
  - intros i args reply Hin. by apply not_elem_of_nil in Hin.
  - intros to args Hin. by apply not_elem_of_nil in Hin.
  - intros e Hin. by apply not_elem_of_nil in Hin.
Qed.

Lemma inv_reachable accepts s : reachable_by accepts members s → inv s.
Proof.
  intros (s0 & H0 & Hrtc). apply inv_init in H0.
  induction Hrtc; eauto using inv_step.
Qed.

(** Two majorities of one term meet in a voter, who votes once. *)
Lemma one_leader s h1 h2 :
  inv s → h1 ∈ c_hist s → h2 ∈ c_hist s →
  r_state h1 = Leader → r_state h2 = Leader →
  r_currentTerm h1 = r_currentTerm h2 → r_id h1 = r_id h2.
Proof.
  intros Hinv H1 H2 L1 L2 Ht.
  destruct (inv_leader _ Hinv h1 H1 L1) as (Q1 & ? & ? & ? & HQ1).
  destruct (inv_leader _ Hinv h2 H2 L2) as (Q2 & ? & ? & ? & HQ2).
  destruct (quorum_intersect members Q1 Q2) as (v & Hv1 & Hv2); [done..|].
  rewrite <- Ht in HQ2.
  pose proof (Hids _ (inv_member _ Hinv h1 H1)).
  pose proof (Hids _ (inv_member _ Hinv h2 H2)).
  apply (inv_one_vote _ Hinv v (r_currentTerm h1)); auto; lia.
Qed.

(** C1: election safety. Whatever the network loses, delays, duplicates
    or reorders, and however often nodes crash and restart from their
    storage, two node states of one execution that are leaders in the
    same term belong to the same node. *)
Theorem election_safety s h1 h2 :
  reachable members s → h1 ∈ c_hist s → h2 ∈ c_hist s →
  r_state h1 = Leader → r_state h2 = Leader →
  r_currentTerm h1 = r_currentTerm h2 → r_id h1 = r_id h2.
Proof. intros Hinv%inv_reachable. by apply one_leader. Qed.
End safety.
End cluster.

(** ** A concrete execution: three nodes on MemoryPersister storage, node 0
    wins term 1, proposes, and is still leader. *)
Module Demo.
#[local] Existing Instance countable_codec.

Definition members : list Z := [0; 1; 2].

Definition boot : Cluster (Cmd:=Z) (P:=MemoryPersister) :=
  mkCluster
    (list_to_map (map (λ i, (i, freshRaft i (peers_of members i)
                                  (Some NewMemoryPersister))) members))
    [] [] [] [].

Lemma boot_init : cluster_init members boot.
Proof.
  do 4 (split; [done|]). intros i r Hi.
  apply elem_of_list_to_map_2 in Hi. simpl in Hi.
  repeat (apply elem_of_cons in Hi as [[= -> ->]|Hi];
    [split; [unfold members; set_solver|];
     exists (Some NewMemoryPersister); split; [done|by intros p [= <-]]|]).
  by apply not_elem_of_nil in Hi.
Qed.

Ltac compute_step := try (vm_compute; reflexivity).
Ltac nth_message n := eapply (list_elem_of_lookup_2 _ n); vm_compute; reflexivity.

Lemma two_leader_states :
  ∃ (s : Cluster (Cmd:=Z) (P:=MemoryPersister)) h1 h2, reachable members s ∧
  h1 ∈ c_hist s ∧ h2 ∈ c_hist s ∧ r_state h1 = Leader ∧ r_state h2 = Leader ∧
  r_currentTerm h1 = r_currentTerm h2 ∧ h1 ≠ h2.
Proof.
  eexists _, _, _. split.
  { exists boot. split; [apply boot_init|].
    eapply rtc_l; [eapply (step_timeout _ _ 0); compute_step|].
    eapply rtc_l; [eapply (step_begin_election _ _ 0 _ []); compute_step|].
    eapply rtc_l; [eapply (step_request_vote _ _ 1);
      [compute_step|nth_message 0%nat|compute_step]|].
    eapply rtc_l; [eapply (step_vote_reply _ _ 0%nat);
      [compute_step|compute_step|simpl; reflexivity|nth_message 0%nat|compute_step]|].
    eapply rtc_l; [eapply (step_propose _ _ 0 _ 42); compute_step|].
    apply rtc_refl. }
  split; [eapply (list_elem_of_lookup_2 _ 0); vm_compute; reflexivity|].
  split; [eapply (list_elem_of_lookup_2 _ 1); vm_compute; reflexivity|].
  done.
Qed.

Lemma election_safety_witness :
  ∃ (s : Cluster (Cmd:=Z) (P:=MemoryPersister)) h1 h2, reachable members s ∧
  h1 ∈ c_hist s ∧ h2 ∈ c_hist s ∧ r_state h1 = Leader ∧ r_state h2 = Leader ∧
  r_currentTerm h1 = r_currentTerm h2 ∧ h1 ≠ h2 ∧ r_id h1 = r_id h2.
Proof.
  destruct two_leader_states as (s & h1 & h2 & Hr & H1 & H2 & L1 & L2 & Ht & Hne).
  exists s, h1, h2. split_and!; try assumption.
  assert (NoDup members) as Hn by (apply (bool_decide_unpack _); vm_compute; done).
  assert (∀ i, i ∈ members → 0 ≤ i) as Hi by (unfold members; set_solver by lia).
  by apply (election_safety (Cmd:=Z) (P:=MemoryPersister) members Hn Hi s).
Defined.
End Demo.
