(* ===== verification/RaftCalls.v ===== *)
(** * Raft calls over the transports (01-raft/transport.go, fake_transport.go,
      net_transport.go)

    What a call over a transport does to the nodes: the handlers a node offers,
    their dispatch, and both transports' calls as functions of the nodes. A
    call over the in-process transport is a step of RaftCluster.v's cluster
    exactly where no partition separates its ends and the receiver is registered;
    the same of the TCP transport holds by what is assumed of net/rpc. *)
From S2P Require Import Prelude Persister RaftNode Transport RaftDemo RaftFacts RaftDurable RaftVotes RaftCluster.
Local Open Scope Z_scope.

(** ** transport.go *)

(** The three RPCs, their arguments and replies. *)
Inductive RaftRequest (Cmd : Type) :=
| ReqVote (args : RequestVoteArgs)
| ReqAppend (args : AppendEntriesArgs Cmd)
| ReqInstall (args : InstallSnapshotArgs).
Arguments ReqVote {Cmd} _.
Arguments ReqAppend {Cmd} _.
Arguments ReqInstall {Cmd} _.

Inductive RaftReply :=
| RepVote (reply : RequestVoteReply)
| RepAppend (reply : AppendEntriesReply)
| RepInstall (reply : InstallSnapshotReply).

(** What receives calls: its state [H] and the three handlers. *)
Class RPCHandler (Cmd H : Type) := {
  handleRequestVote : H → RequestVoteArgs → outcome (H * RequestVoteReply);
  handleAppendEntries : H → AppendEntriesArgs Cmd → outcome (H * AppendEntriesReply);
  handleInstallSnapshot : H → InstallSnapshotArgs → outcome (H * InstallSnapshotReply)
}.

#[export] Instance Raft_handler {Cmd P} `{!Persister P, !Codec (persistedState Cmd)} :
    RPCHandler Cmd (Raft Cmd P) := {|
  handleRequestVote := RequestVote;
  handleAppendEntries := AppendEntries;
  handleInstallSnapshot := InstallSnapshot
|}.

(** ** net_transport.go: the served side *)

Section service.
Context {Cmd H : Type} `{!RPCHandler Cmd H}.

(** raftRPCService: the method the request names, on the handler. *)
Definition raftRPCService_serve (handler : H) (req : RaftRequest Cmd) : outcome (H * RaftReply) :=
  match req with
  | ReqVote args => '(handler, reply) ← handleRequestVote handler args; Ret (handler, RepVote reply)
  | ReqAppend args => '(handler, reply) ← handleAppendEntries handler args; Ret (handler, RepAppend reply)
  | ReqInstall args => '(handler, reply) ← handleInstallSnapshot handler args; Ret (handler, RepInstall reply)
  end.

(** [registerName] answers whether net/rpc takes the service, [listen] what
    net.Listen does; the goroutine that accepts is net/rpc's. *)
Definition ServeNetTransport {L E : Type} (registerName : string → H → option E)
    (listen : string → L + E) (addr : string) (handler : H) : L + E :=
  match registerName "Raft" handler with
  | Some err => inr err
  | None => listen addr
  end.

(** ** fake_transport.go: the calls *)

(** Who the arguments say is calling. *)
Definition sender (req : RaftRequest Cmd) : Z :=
  match req with
  | ReqVote args => rv_CandidateID args
  | ReqAppend args => ae_LeaderID args
  | ReqInstall args => is_LeaderID args
  end.

(** A call with the handlers registered under names of [nodes]. *)
Definition FakeTransport_Call (t : FakeTransport Z) (to : Z) (req : RaftRequest Cmd) (nodes : gmap Z H) :
    outcome (gmap Z H * (RaftReply + TransportError)) :=
  match fake_call t (sender req) to with
  | inr err => Ret (nodes, inr err)
  | inl h =>
      node ← or_panic (nodes !! h);
      '(node, reply) ← raftRPCService_serve node req;
      Ret (<[h := node]> nodes, inl reply)
  end.
End service.

(** ** A served request is a step of the cluster *)

Section refinement.
Context {Cmd P : Type} `{!Persister P, !PersisterLaws P, !Codec (persistedState Cmd)}.
Abbreviation Raft := (Raft Cmd P).
Abbreviation Cluster := (Cluster (Cmd := Cmd) (P := P)).
Implicit Types (s : Cluster) (req : RaftRequest Cmd) (nodes : gmap Z Raft).

Definition request_msg (to : Z) req : Msg (Cmd := Cmd) :=
  match req with
  | ReqVote args => MVoteReq to args
  | ReqAppend args => MAppendReq to args
  | ReqInstall args => MSnapReq to args
  end.

(** The message a reply to [req] from [from] is; replies of another kind than
    the request's do not occur. *)
Definition reply_msg (from : Z) req (reply : RaftReply) : option (Msg (Cmd := Cmd)) :=
  match req, reply with
  | ReqVote args, RepVote reply => Some (MVoteRep from args reply)
  | ReqAppend args, RepAppend reply => Some (MAppendRep from args reply)
  | ReqInstall args, RepInstall reply => Some (MSnapRep from args reply)
  | _, _ => None
  end.

(** The cluster once node [to] has served the request. *)
Definition served s (to : Z) req nodes (reply : RaftReply) s' : Prop :=
  cluster_step (λ _ _, True) s s' ∧ c_nodes s' = nodes ∧
  ∃ m, reply_msg to req reply = Some m ∧ m ∈ c_net s'.

Lemma serve_is_step s to req r r' reply :
  c_nodes s !! to = Some r → request_msg to req ∈ c_net s →
  raftRPCService_serve r req = Ret (r', reply) →
  ∃ s', served s to req (<[to := r']> (c_nodes s)) reply s'.
Proof.
  intros Hr Hm Hserve. destruct req as [args|args|args]; simpl in *;
    apply bind_Ret_inv in Hserve as ([r1 rep] & Hh & [= <- <-]); (eexists; split; [|split; [|eexists; split; [reflexivity|]]]).
  - by eapply step_request_vote.
  - done.
  - simpl. set_solver.
  - by eapply step_append_entries.
  - done.
  - simpl. set_solver.
  - by eapply step_install_snapshot.
  - done.
  - simpl. set_solver.
Qed.

(** The node a request names is the one whose code made it, so a partition
    test of the sender is a test of the caller. *)
Lemma sender_is_caller (r : Raft) peer args args' :
  sender (ReqVote (Cmd := Cmd) (el_args (startElection_begin r))) = r_id r ∧
  (replicateToPeer_begin r peer = Ret (ReplicateEntries args) → sender (ReqAppend args) = r_id r) ∧
  (sendInstallSnapshot_begin r = Some args' → sender (ReqInstall (Cmd := Cmd) args') = r_id r).
Proof.
  split_and!.
  - unfold startElection_begin. by destruct (lastLogInfoLocked r).
  - unfold replicateToPeer_begin. destruct (r_state r); try done.
    destruct (_ <=? _); [done|]. intros (es & _ & [= <-])%bind_Ret_inv. done.
  - unfold sendInstallSnapshot_begin. destruct (r_state r); try done. by intros [= <-].
Qed.

(** net/rpc between nodes: a dial changes no node and its connection leads to
    the node served at the address; a call over a connection fails, or that node
    has served the request, and the reply arrives or is lost. *)
Record rpc_network {C} (addrs : gmap Z string)
    (dial : string → gmap Z Raft → option C * gmap Z Raft)
    (callClient : C → RaftRequest Cmd → gmap Z Raft → option RaftReply * gmap Z Raft)
    (node_of : C → Z) : Prop := {
  rn_dial peer addr nodes : addrs !! peer = Some addr →
    (dial addr nodes).2 = nodes ∧ ∀ c, (dial addr nodes).1 = Some c → node_of c = peer;
  rn_call c req nodes :
    callClient c req nodes = (None, nodes) ∨
    ∃ r r' reply, nodes !! node_of c = Some r ∧ raftRPCService_serve r req = Ret (r', reply) ∧
      (callClient c req nodes).2 = <[node_of c := r']> nodes ∧
      ((callClient c req nodes).1 = None ∨ (callClient c req nodes).1 = Some reply)
}.

(** Every cached client leads to the peer it is cached for. *)
Definition conns_ok {C} (node_of : C → Z) (t : NetTransport C) : Prop :=
  ∀ peer c, nt_clients t !! peer = Some c → node_of c = peer.

Lemma clientFor_conns {C} addrs dial (callClient : C → RaftRequest Cmd → gmap Z Raft → _) node_of
    (t t' : NetTransport C) peer c nodes nodes' :
  rpc_network addrs dial callClient node_of → nt_addrs t = addrs → conns_ok node_of t →
  clientFor dial t peer nodes = (t', c, nodes') →
  nodes' = nodes ∧ nt_addrs t' = addrs ∧ conns_ok node_of t' ∧ ∀ c', c = Some c' → node_of c' = peer.
Proof.
  intros Hn Ha Hok. unfold clientFor. destruct (nt_clients t !! peer) as [c0|] eqn:Hc.
  { intros [= <- <- <-]. split_and!; [done..|]. intros ? [= <-]. by apply Hok. }
  rewrite Ha. destruct (addrs !! peer) as [addr|] eqn:Haddr; [|by intros [= <- <- <-]].
  destruct (rn_dial _ _ _ _ Hn peer addr nodes Haddr) as [Hd1 Hd2].
  destruct (dial addr nodes) as [[c1|] w]; simpl in *; intros [= <- <- <-]; [|done].
  specialize (Hd2 c1 eq_refl). split_and!; try done.
  - intros p x. simpl. intros [[<- <-]|[_ Hx]]%lookup_insert_Some; [done|by apply Hok].
  - by intros ? [= <-].
Qed.

(** Over the TCP transport a call that returns a reply is a step of the cluster,
    one that errs is a step whose reply is lost or no step, and the cache of
    connections still leads to the right peers. *)
Lemma net_call_is_step {C} addrs dial callClient (node_of : C → Z) s to req t t' nodes res :
  request_msg to req ∈ c_net s →
  rpc_network addrs dial callClient node_of → nt_addrs t = addrs → conns_ok node_of t →
  net_call dial (λ c, callClient c req) t to (c_nodes s) = (t', res, nodes) →
  nt_addrs t' = addrs ∧ conns_ok node_of t' ∧
  match res with
  | Some reply => ∃ s', served s to req nodes reply s'
  | None => nodes = c_nodes s ∨ ∃ reply s', served s to req nodes reply s'
  end.
Proof.
  intros Hm Hn Ha Hok. unfold net_call.
  destruct (clientFor dial t to (c_nodes s)) as [[t1 c] w] eqn:Hc.
  eapply clientFor_conns in Hc as (-> & Ha' & Hok' & Hto); [|done..].
  destruct c as [c|]; [|intros [= <- <- <-]; auto]. specialize (Hto c eq_refl).
  pose proof (rn_call _ _ _ _ Hn c req (c_nodes s)) as Hcall.
  destruct (callClient c req (c_nodes s)) as [rep w]. intros [= <- <- <-].
  split; [done|]. split; [done|]. simpl in Hcall. rewrite Hto in Hcall.
  destruct Hcall as [[= -> ->]|(r & r' & reply & Hr & Hs & -> & Hrep)]; [by left|].
  destruct (serve_is_step s to req r r' reply Hr Hm Hs) as (s' & Hserved).
  destruct Hrep as [->| ->]; eauto.
Qed.

(** C14: What a call over the in-process transport does, after any Registers,
    Unregisters, Partitions and Heals. If the last of the Partitions and Heals
    is a Partition, and the last group that lists the sender is not the last
    that lists the receiver, or there is none for one of them, the call errs for
    want of a route. If the ends are connected and the receiver never registered
    or was unregistered last, it errs for want of a peer. Neither changes any
    node. Otherwise the call panics if the receiver's handler does, and if not it
    returns the handler's reply, the receiver is what the handler made of it, no
    other node changed, and where the network holds the request all this is a
    step of the cluster of the safety theorems. *)
Theorem transport_calls_are_steps s ops to req :
  (¬ connected ops (sender req) to →
     FakeTransport_Call (transport_ops ops) to req (c_nodes s) = Ret (c_nodes s, inr (NoRoute (sender req) to))) ∧
  (connected ops (sender req) to → ¬ up ops to →
     FakeTransport_Call (transport_ops ops) to req (c_nodes s) = Ret (c_nodes s, inr (NoPeer to))) ∧
  (∀ r, connected ops (sender req) to → up ops to → c_nodes s !! to = Some r →
     match raftRPCService_serve r req with
     | Panic => FakeTransport_Call (transport_ops ops) to req (c_nodes s) = Panic
     | Ret (r', reply) =>
         FakeTransport_Call (transport_ops ops) to req (c_nodes s) = Ret (<[to := r']> (c_nodes s), inl reply) ∧
         (request_msg to req ∈ c_net s → ∃ s', served s to req (<[to := r']> (c_nodes s)) reply s')
     end).
Proof.
  unfold FakeTransport_Call, fake_call, handlerFor. rewrite <- reachable_connected. split_and!.
  - intros Hno%not_true_is_false. by rewrite Hno.
  - intros Hc Hdown. rewrite Hc. by destruct (transport_ops_peers ops to) as [[? _]|[_ ->]].
  - intros r Hc%reachable_connected Hup Hr. rewrite Hc. destruct (transport_ops_peers ops to) as [[_ Hto]|[? _]]; [|done].
    simpl. rewrite Hto. simpl. rewrite Hr. simpl.
    destruct (raftRPCService_serve r req) as [[r' reply]|] eqn:Hs; simpl; [|done].
    split; [done|]. intros Hm. by eapply serve_is_step.
Qed.
End refinement.

Module Witness.

(** Node 2 has asked node 1 for its vote. *)
Definition asked : RequestVoteArgs := mkRequestVoteArgs 3 2 3 2.
Definition asking : Cluster (Cmd := Z) (P := MemoryPersister) :=
  mkCluster {[ 1 := demo_follower ]} [] [] [MVoteReq 1 asked] [].

(** The network was split into 1 and 2 against 3, after an earlier split that is
    no longer in force. *)
Definition split : list TransportOp :=
  [OpRegister 1; OpPartition [[1]; [2; 3]]; OpHeal; OpRegister 3; OpPartition [[1; 2]; [3]]].

(** A network that fails no call. *)
Definition addrs : gmap Z string := {[ 1 := "n1:1"%string ]}.
Definition dial (addr : string) (nodes : gmap Z DemoRaft) : option Z * gmap Z DemoRaft := (Some 1, nodes).
Definition callClient (c : Z) (req : RaftRequest Z) (nodes : gmap Z DemoRaft) :
    option RaftReply * gmap Z DemoRaft :=
  match nodes !! c with
  | None => (None, nodes)
  | Some r =>
      match raftRPCService_serve r req with
      | Panic => (None, nodes)
      | Ret (r', reply) => (Some reply, <[c := r']> nodes)
      end
  end.

Lemma direct_network : rpc_network addrs dial callClient id.
Proof.
  split.
  - intros peer addr nodes Hp. unfold addrs in Hp. apply lookup_singleton_Some in Hp as [<- <-]. split; [done|]. by intros c [= <-].
  - intros c req nodes. unfold callClient. simpl. destruct (nodes !! c) as [r|] eqn:Hr; [|by left].
    destruct (raftRPCService_serve r req) as [[r' reply]|] eqn:Hs; [|by left].
    right. exists r, r', reply. simpl. auto.
Qed.

Lemma split_in_force groups : in_force split groups → groups = [[1; 2]; [3]].
Proof.
  unfold split. change (?a :: ?b :: ?c :: ?d :: [?e]) with ([a; b; c; d] ++ [e]). by intros <-%in_force_snoc.
Qed.

Lemma split_connected from to k : side [[1; 2]; [3]] from k → side [[1; 2]; [3]] to k → connected split from to.
Proof. intros Hf Ht groups ->%split_in_force. eauto. Qed.

Lemma side_first p : p = 1 ∨ p = 2 → side [[1; 2]; [3]] p 0.
Proof.
  intros Hp. split.
  - exists [1; 2]. split; [done|]. destruct Hp as [->| ->]; set_solver.
  - intros [|[|k]] group; simpl; [done| |done]. intros [= <-] ?%list_elem_of_singleton. lia.
Qed.

(** Node 2's request reaches node 1 and is a step; one node 3 makes has no route;
    and one to node 2, which never registered, finds no peer. *)
Lemma transport_calls_are_steps_witness :
  (∃ nodes reply s', FakeTransport_Call (transport_ops split) 1 (ReqVote asked) (c_nodes asking) = Ret (nodes, inl reply) ∧
    served asking 1 (ReqVote asked) nodes reply s') ∧
  FakeTransport_Call (transport_ops split) 1 (ReqVote (mkRequestVoteArgs 3 3 3 2)) (c_nodes asking) =
    Ret (c_nodes asking, inr (NoRoute 3 1)) ∧
  FakeTransport_Call (transport_ops split) 2 (ReqVote (mkRequestVoteArgs 3 1 3 2)) (c_nodes asking) =
    Ret (c_nodes asking, inr (NoPeer 2)).
Proof.
  split_and!.
  - destruct (transport_calls_are_steps asking split 1 (ReqVote asked)) as (_ & _ & Hserve).
    specialize (Hserve demo_follower).
    assert (connected split 2 1) as Hc by (eapply split_connected; apply side_first; auto).
    assert (up split 1) as Hup.
    { exists [], [OpPartition [[1]; [2; 3]]; OpHeal; OpRegister 3; OpPartition [[1; 2]; [3]]]. split; [done|set_solver]. }
    specialize (Hserve Hc Hup eq_refl).
    destruct (raftRPCService_serve demo_follower (ReqVote asked)) as [[r' reply]|] eqn:Hr;
      [|vm_compute in Hr; discriminate Hr].
    destruct Hserve as [Hcall Hstep]. destruct Hstep as [s' Hs]; [by left|]. eauto.
  - apply (transport_calls_are_steps asking split 1 (ReqVote (mkRequestVoteArgs 3 3 3 2))).
    intros Hc%reachable_connected. vm_compute in Hc. discriminate Hc.
  - apply (transport_calls_are_steps asking split 2 (ReqVote (mkRequestVoteArgs 3 1 3 2))).
    + eapply split_connected; apply side_first; auto.
    + intros Hup. destruct (transport_ops_peers split 2) as [[_ H]|[? _]]; [vm_compute in H; discriminate H|done].
Defined.

End Witness.
