(* ===== verification/RaftLog.v ===== *)
(** * The log of one Raft node

    What AppendEntries, InstallSnapshot and Snapshot do to the log as seen
    through absolute indexes, when AppendEntries panics, and the ordering
    invariant of the snapshot, apply, commit and last positions. *)
From S2P Require Import Prelude Persister RaftNode RaftFacts RaftDurable RaftVotes RaftDemo.
Local Open Scope Z_scope.

Section log.
Context {Cmd P : Type} `{!Persister P, !Codec (persistedState Cmd)}.
Abbreviation Raft := (Raft Cmd P).
Implicit Type r : Raft.

(** ** The part of a node that log positions depend on *)

Definition same_log r r' : Prop :=
  r_log r' = r_log r ∧ r_lastIncludedIndex r' = r_lastIncludedIndex r ∧
  r_lastIncludedTerm r' = r_lastIncludedTerm r.

Lemma entryAt_same r r' i : same_log r r' → entryAt r' i = entryAt r i.
Proof. unfold entryAt, physicalIndexLocked. by intros (-> & -> & _). Qed.

Lemma termAt_same r r' i : same_log r r' → termAtLocked r' i = termAtLocked r i.
Proof. unfold termAtLocked, physicalIndexLocked. by intros (-> & -> & ->). Qed.

Lemma lastLogInfo_same r r' :
  same_log r r' → lastLogInfoLocked r' = lastLogInfoLocked r.
Proof. unfold lastLogInfoLocked. by intros (-> & -> & ->). Qed.

Lemma lastIndex_same r r' : same_log r r' → lastIndex r' = lastIndex r.
Proof. unfold lastIndex. intros. by rewrite (lastLogInfo_same r r'). Qed.

Lemma becomeFollower_log r t r' :
  becomeFollowerLocked r t = Ret r' →
  same_log r r' ∧ r_state r' = Follower ∧
  r_currentTerm r' = Z.max (r_currentTerm r) t ∧
  r_snapshotData r' = r_snapshotData r ∧
  r_commitIndex r' = r_commitIndex r ∧ r_lastApplied r' = r_lastApplied r ∧
  r_pendingSnapshot r' = r_pendingSnapshot r.
Proof.
  intros [p ->]%becomeFollower_inv.
  destruct (Z.ltb_spec (r_currentTerm r) t); simpl; split_and!; done || lia.
Qed.

(** ** AppendEntries *)

(** The consistency check of AppendEntries at PrevLogIndex. *)
Definition prev_matches r (args : AppendEntriesArgs Cmd) : Prop :=
  0 < ae_PrevLogIndex args →
  termAtLocked r (ae_PrevLogIndex args) = (ae_PrevLogTerm args, true).

Lemma prev_check r args lastLogIndex prevTerm ok :
  lastLogIndex = lastIndex r →
  termAtLocked r (ae_PrevLogIndex args) = (prevTerm, ok) →
  (0 <? ae_PrevLogIndex args) &&
    ((lastLogIndex <? ae_PrevLogIndex args) || negb ok ||
     negb (prevTerm =? ae_PrevLogTerm args)) = false ↔
  prev_matches r args.
Proof.
  intros -> Ht. unfold prev_matches. rewrite Ht.
  pose proof (termAt_ok r (ae_PrevLogIndex args)) as Hok. rewrite Ht in Hok. simpl in Hok.
  destruct (Z.ltb_spec 0 (ae_PrevLogIndex args)); simpl; [|split; [lia|done]].
  rewrite !orb_false_iff. destruct ok; simpl.
  - destruct (Z.eqb_spec prevTerm (ae_PrevLogTerm args)); naive_solver lia.
  - naive_solver.
Qed.

(** The log AppendEntries leaves when the check passes. *)
Definition appended r (args : AppendEntriesArgs Cmd) r' : Prop :=
  match ae_Entries args with
  | [] => r_log r' = r_log r
  | _ =>
      r_lastIncludedIndex r ≤ ae_PrevLogIndex args ∧
      lastIndex r' = ae_PrevLogIndex args + zlen (ae_Entries args) ∧
      (∀ i, i ≤ ae_PrevLogIndex args → entryAt r' i = entryAt r i) ∧
      (∀ k e, zget (ae_Entries args) k = Some e →
              entryAt r' (ae_PrevLogIndex args + 1 + k) = Some e)
  end.

Lemma appended_entries r args kept r' :
  ae_Entries args ≠ [] →
  slice_to (r_log r) (physicalIndexLocked r (ae_PrevLogIndex args) + 1) = Ret kept →
  r_log r' = kept ++ ae_Entries args →
  r_lastIncludedIndex r' = r_lastIncludedIndex r →
  appended r args r'.
Proof.
  intros Hne (Hb & ->)%slice_to_Ret Hlog Hlii.
  unfold physicalIndexLocked in *. unfold appended.
  destruct (ae_Entries args) as [|e0 es] eqn:He; [done|]. rewrite <- He in *.
  rewrite lastIndex_eq, Hlog, Hlii, zlen_app, zlen_take by lia.
  unfold entryAt, physicalIndexLocked. rewrite Hlog, Hlii.
  split_and!; [lia|lia|..].
  - intros i Hi. destruct (decide (i = ae_PrevLogIndex args + 1)); [lia|].
    rewrite zget_app_l by (rewrite zlen_take; lia). apply zget_take; lia.
  - intros k e Hk. apply zget_Some_bound in Hk as Hkb.
    rewrite zget_app_r by (rewrite zlen_take; lia).
    rewrite zlen_take by lia. rewrite <- Hk. f_equal. lia.
Qed.

(** What an AppendEntries that returns has done. *)
Definition AppendEntries_post r args r' reply : Prop :=
  r_currentTerm r' = Z.max (r_currentTerm r) (ae_Term args) ∧
  aer_Term reply = r_currentTerm r' ∧
  r_lastIncludedIndex r' = r_lastIncludedIndex r ∧
  r_lastApplied r' = r_lastApplied r ∧
  (aer_Success reply = true ↔
    r_currentTerm r ≤ ae_Term args ∧ prev_matches r args) ∧
  (aer_Success reply = true →
    r_state r' = Follower ∧ appended r args r' ∧
    r_commitIndex r' =
      (if r_commitIndex r <? ae_LeaderCommit args
       then Z.min (ae_LeaderCommit args) (lastIndex r') else r_commitIndex r)) ∧
  (aer_Success reply = false → same_log r r' ∧ r_commitIndex r' = r_commitIndex r).

Lemma AppendEntries_meets r args r' reply :
  AppendEntries r args = Ret (r', reply) → AppendEntries_post r args r' reply.
Proof.
  unfold AppendEntries_post. unfold AppendEntries. intros H.
  destruct (Z.ltb_spec (ae_Term args) (r_currentTerm r)) as [Hlt|Hge].
  { inv_ret. simpl. rewrite Z.max_l by lia. split_and!; try done. split; [done|lia]. }
  apply bind_Ret_inv in H as (a & (Hsl & Hst & Hct & _ & Hci & Hla & _)%becomeFollower_log & H).
  rewrite lastLogInfo_eq in H.
  destruct (termAtLocked a (ae_PrevLogIndex args)) as [prevTerm ok] eqn:Ht.
  destruct (_ && _) eqn:Hcheck.
  - assert (¬ prev_matches r args) as Hno.
    { unfold prev_matches. rewrite <- (termAt_same _ _ _ Hsl).
      intros Hp. apply (prev_check a args _ _ _ eq_refl Ht) in Hp. congruence. }
    inv_ret. simpl. destruct Hsl as (? & ? & ?). split_and!; try done. by split; [|intros [_ ?]].
  - apply (prev_check a args _ _ _ eq_refl Ht) in Hcheck.
    assert (prev_matches r args) as Hyes.
    { unfold prev_matches. by rewrite <- (termAt_same _ _ _ Hsl). }
    apply bind_Ret_inv in H as (b & Hb & H).
    assert (r_currentTerm b = r_currentTerm a ∧ r_commitIndex b = r_commitIndex a ∧
      r_state b = Follower ∧ r_lastApplied b = r_lastApplied a ∧
      r_lastIncludedIndex b = r_lastIncludedIndex a ∧ appended r args b) as
      (Hbt & Hbc & Hbs & Hba & Hbl & Happ).
    { destruct (Z.ltb_spec 0 (zlen (ae_Entries args))) as [Hlen|Hlen].
      - apply bind_Ret_inv in Hb as (kept & Hk & Hb). saved. simpl.
        split_and!; try done. destruct Hsl as (Hlog & Hlii & _).
        unfold physicalIndexLocked in Hk. rewrite Hlog, Hlii in Hk.
        apply (appended_entries _ _ kept); try done. intros Hnil. rewrite Hnil in Hlen. zlia.
      - injection Hb as <-. split_and!; try done. unfold appended.
        destruct (ae_Entries args); [apply Hsl|zlia]. }
    rewrite Hbc, Hci, lastLogInfo_eq in H.
    destruct Hsl as (_ & Hlii & _).
    destruct (Z.ltb_spec (r_commitIndex r) (ae_LeaderCommit args)) as [Hc|Hc];
      [destruct (Z.ltb_spec (ae_LeaderCommit args) (lastIndex b)) as [Hc2|Hc2]|];
      inv_ret; simpl; split_and!; try done; try lia; intros _; split_and!; try done;
      change (lastIndex _) with (lastIndex b); lia.
Qed.

(** Log replication at a follower. AppendEntries succeeds exactly when
    the caller's term is not stale and the entry at PrevLogIndex (if
    positive) is known and has PrevLogTerm; it then leaves, at absolute
    indexes, the old log up to PrevLogIndex followed by exactly the sent
    entries (the whole old log if none were sent), and moves commitIndex to
    min(LeaderCommit, last index) if LeaderCommit is ahead of it; a refusal
    changes no log entry and no commit position. *)
Theorem AppendEntries_spec r args r' reply :
  AppendEntries r args = Ret (r', reply) → AppendEntries_post r args r' reply.
Proof. apply AppendEntries_meets. Qed.

(** ** Compaction and installed snapshots *)

(** Dropping the entries up to [index] from the log, seen through absolute
    indexes. *)
Lemma drop_entries r r' index :
  r_lastIncludedIndex r ≤ index ≤ lastIndex r →
  r_log r' = drop (Z.to_nat (physicalIndexLocked r index + 1)) (r_log r) →
  r_lastIncludedIndex r' = index →
  lastIndex r' = lastIndex r ∧
  (∀ i, index < i → entryAt r' i = entryAt r i).
Proof.
  rewrite !lastIndex_eq. intros Hb Hlog Hlii. unfold physicalIndexLocked in Hlog.
  rewrite Hlog, Hlii. split; [rewrite zlen_drop by lia; lia|].
  intros i Hi. unfold entryAt, physicalIndexLocked. rewrite Hlog, Hlii.
  rewrite zget_drop by lia. f_equal. lia.
Qed.

Lemma compacted_terms r r' index :
  r_lastIncludedIndex r ≤ index ≤ lastIndex r →
  r_log r' = drop (Z.to_nat (physicalIndexLocked r index + 1)) (r_log r) →
  r_lastIncludedIndex r' = index →
  r_lastIncludedTerm r' = (termAtLocked r index).1 →
  lastLogInfoLocked r' = lastLogInfoLocked r ∧
  (∀ i, index ≤ i → termAtLocked r' i = termAtLocked r i).
Proof.
  intros Hb Hlog Hlii Hlit.
  destruct (drop_entries r r' index Hb Hlog Hlii) as [Hlast Hent].
  assert (∀ i, index ≤ i → termAtLocked r' i = termAtLocked r i) as Hterm.
  { intros i Hi. destruct (decide (i = index)) as [->|Hne].
    - assert (termAtLocked r' index = (r_lastIncludedTerm r', true)) as ->
        by (rewrite <- Hlii; apply termAt_lii).
      rewrite Hlit. apply termAt_ok in Hb.
      destruct (termAtLocked r index); simpl in *. by subst.
    - rewrite !termAt_entry, Hent by lia. done. }
  split; [|done]. rewrite !lastLogInfo_eq. f_equal; [done|].
  pose proof (lastTerm_eq r) as H1. pose proof (lastTerm_eq r') as H2.
  rewrite Hlast, Hterm, H1 in H2 by lia. by injection H2.
Qed.

(** What a Snapshot that returns has done, and its refusals. *)
Definition Snapshot_post r index data r' e : Prop :=
  match e with
  | Some (SnapshotPastLog i l) => r' = r ∧ i = index ∧ l = lastIndex r ∧ l < i
  | Some (SnapshotPastApplied i a) =>
      r' = r ∧ i = index ∧ a = r_lastApplied r ∧ a < i ≤ lastIndex r
  | None =>
      (index ≤ r_lastIncludedIndex r ∧ r' = r) ∨
      (r_lastIncludedIndex r < index ∧ index ≤ lastIndex r ∧ index ≤ r_lastApplied r ∧
       r_lastIncludedIndex r' = index ∧ r_snapshotData r' = data ∧
       lastLogInfoLocked r' = lastLogInfoLocked r ∧
       (∀ i, index ≤ i → termAtLocked r' i = termAtLocked r i) ∧
       (∀ i, index < i → entryAt r' i = entryAt r i) ∧
       (∀ i, i < index → termAtLocked r' i = (0, false)) ∧
       r_commitIndex r' = r_commitIndex r ∧ r_lastApplied r' = r_lastApplied r ∧
       evolves r r')
  end.

Lemma Snapshot_meets r index data r' e :
  Snapshot r index data = Ret (r', e) → Snapshot_post r index data r' e.
Proof.
  unfold Snapshot_post. intros H. apply Snapshot_evolves in H as Hev. revert H. unfold Snapshot.
  rewrite lastLogInfo_eq.
  destruct (Z.leb_spec index (r_lastIncludedIndex r)) as [Hc1|Hc1];
    [intros [= <- <-]; by left|].
  destruct (Z.ltb_spec (lastIndex r) index) as [Hc2|Hc2]; [by intros [= <- <-]|].
  destruct (Z.ltb_spec (r_lastApplied r) index) as [Hc3|Hc3]; [by intros [= <- <-]|].
  destruct (termAtLocked r index) as [term ok] eqn:Ht. intros H.
  apply bind_Ret_inv in H as (log' & (_ & Hlog)%slice_from_Ret & H).
  apply bind_Ret_inv in H as (a & [p ->]%saveSnapshotLocked_inv & [= <- <-]).
  right. set (r1 := set_persister p _).
  destruct (drop_entries r r1 index ltac:(lia) Hlog eq_refl) as [_ Hent].
  destruct (compacted_terms r r1 index ltac:(lia) Hlog eq_refl) as [Hlast Hterm];
    [by rewrite Ht|].
  split_and!; try done; [by rewrite Hlast, lastLogInfo_eq|].
  intros i Hi. unfold termAtLocked.
  change (r_lastIncludedIndex r1) with index.
  by rewrite (proj2 (Z.eqb_neq _ _)), (proj2 (Z.leb_le _ _)) by lia.
Qed.

(** Compaction is invisible above the snapshot. Snapshot refuses an
    index past the log or past what was applied, ignores one already
    compacted, and otherwise makes [index] the snapshot position without
    changing the node's last index and term, the term at any index from
    [index] on, or any entry after it; below [index] no term is known any
    more. *)
Theorem Snapshot_spec r index data r' e :
  Snapshot r index data = Ret (r', e) → Snapshot_post r index data r' e.
Proof. apply Snapshot_meets. Qed.

(** What an InstallSnapshot that returns has done. *)
Definition InstallSnapshot_post r args r' reply : Prop :=
  let index := is_LastIncludedIndex args in
  let term := is_LastIncludedTerm args in
  r_currentTerm r' = Z.max (r_currentTerm r) (is_Term args) ∧
  isr_Term reply = r_currentTerm r' ∧
  (is_Term args < r_currentTerm r ∨ index ≤ r_lastIncludedIndex r →
    same_log r r' ∧ r_snapshotData r' = r_snapshotData r ∧
    r_commitIndex r' = r_commitIndex r ∧ r_lastApplied r' = r_lastApplied r ∧
    r_pendingSnapshot r' = r_pendingSnapshot r) ∧
  (r_currentTerm r ≤ is_Term args → r_lastIncludedIndex r < index →
    r_state r' = Follower ∧
    r_lastIncludedIndex r' = index ∧ r_lastIncludedTerm r' = term ∧
    r_snapshotData r' = is_Data args ∧
    r_pendingSnapshot r' = Some (snapshotMsg (is_Data args) index term) ∧
    r_commitIndex r' = Z.max (r_commitIndex r) index ∧
    r_lastApplied r' = Z.max (r_lastApplied r) index ∧
    (termAtLocked r index = (term, true) →
      lastIndex r' = lastIndex r ∧ ∀ i, index < i → entryAt r' i = entryAt r i) ∧
    (termAtLocked r index ≠ (term, true) → r_log r' = [])).

Lemma InstallSnapshot_meets r args r' reply :
  InstallSnapshot r args = Ret (r', reply) → InstallSnapshot_post r args r' reply.
Proof.
  unfold InstallSnapshot_post.
  set (index := is_LastIncludedIndex args). set (term := is_LastIncludedTerm args). unfold InstallSnapshot.
  destruct (Z.ltb_spec (is_Term args) (r_currentTerm r)) as [Hs|Hs].
  { intros [= <- <-]. split_and!; simpl; try done; lia. }
  intros H. apply bind_Ret_inv in H as
    (a & (Hsl & Hst & Hct & Hsd & Hci & Hla & Hps)%becomeFollower_log & H).
  fold index term in H. assert (Hlii := proj1 (proj2 Hsl)).
  change (r_lastIncludedIndex (ResetElectionTimer a)) with (r_lastIncludedIndex a) in H.
  destruct (Z.leb_spec index (r_lastIncludedIndex a)) as [Hb|Hb].
  { injection H as <- <-. simpl. split_and!; try done; lia. }
  change (termAtLocked (ResetElectionTimer a)) with (termAtLocked a) in H.
  destruct (termAtLocked a index) as [et ok] eqn:Ht.
  apply bind_Ret_inv in H as (log' & Hlog' & H).
  apply bind_Ret_inv in H as (b & [p ->]%saveSnapshotLocked_inv & [= <- <-]).
  rewrite (termAt_same r a) in Ht by done. rewrite Ht.
  set (r1 := set_persister p _).
  assert (r_lastIncludedIndex r1 = index) as Hi by done.
  assert (r_log r1 = log') as Hl by done.
  simpl. rewrite Hct, Hci, Hla. split_and!; try done; [lia|].
  intros _ _. split_and!; try done.
  - destruct (Z.ltb_spec (r_commitIndex r) index); lia.
  - destruct (Z.ltb_spec (r_lastApplied r) index); lia.
  - intros [= -> ->]. rewrite Z.eqb_refl in Hlog'. simpl in Hlog'.
    apply slice_from_Ret in Hlog' as [_ Hlog'].
    apply (drop_entries r r1 index); [| |done].
    2: { rewrite Hl, Hlog'. destruct Hsl as (Hlog & Hl2 & _).
         unfold physicalIndexLocked. simpl. by rewrite Hlog, Hl2. }
    apply termAt_ok. by rewrite Ht.
  - intros Hne. destruct ok; simpl in Hlog'; [|by inv_ret].
    destruct (Z.eqb_spec et term) as [->|]; simpl in Hlog'; [done|by inv_ret].
Qed.

(** Adopting a leader's snapshot. InstallSnapshot answers the larger
    term; if the term is stale or the snapshot position is not ahead of the
    node's own it changes nothing else; otherwise the snapshot becomes the
    node's position and data and is queued for the state machine, commit and
    apply positions rise to it, and the log keeps exactly the entries after
    it if the entry at that index has the snapshot's term, and is emptied
    otherwise. *)
Theorem InstallSnapshot_spec r args r' reply :
  InstallSnapshot r args = Ret (r', reply) → InstallSnapshot_post r args r' reply.
Proof. apply InstallSnapshot_meets. Qed.

(** ** When AppendEntries panics *)

Lemma persistLocked_total `{!PersisterTotal P} r :
  ∃ p, persistLocked r = Ret (set_persister p r).
Proof.
  unfold persistLocked. destruct (r_persister r) as [p|] eqn:Hp.
  - pose proof (save_state_ok p (encodeStateLocked r)) as Hok.
    destruct (SaveState p _) as [p' b]. simpl in Hok. subst b. by eexists.
  - exists None. destruct r; simpl in *; by subst.
Qed.

Lemma becomeFollower_total `{!PersisterTotal P} r t :
  ∃ r', becomeFollowerLocked r t = Ret r'.
Proof.
  unfold becomeFollowerLocked. destruct (persistLocked_total (set_state Follower
    (if r_currentTerm r <? t then set_votedFor (-1) (set_currentTerm t r) else r)))
    as [p ->]. by eexists.
Qed.

(** The messages that pass the consistency check but ask for a slice that
    starts before the retained log. *)
Definition below_snapshot r (args : AppendEntriesArgs Cmd) : Prop :=
  r_currentTerm r ≤ ae_Term args ∧ ae_Entries args ≠ [] ∧
  ae_PrevLogIndex args ≤ 0 ∧ ae_PrevLogIndex args < r_lastIncludedIndex r.

Lemma AppendEntries_panic_cases `{!PersisterTotal P} r args :
  0 ≤ r_lastIncludedIndex r → AppendEntries r args = Panic ↔ below_snapshot r args.
Proof.
  intros Hpos. unfold AppendEntries, below_snapshot.
  destruct (Z.ltb_spec (ae_Term args) (r_currentTerm r)) as [Hs|Hs]; [split; [done|lia]|].
  destruct (becomeFollower_total r (ae_Term args)) as [a Ha]. rewrite Ha, bind_Ret_l.
  apply becomeFollower_log in Ha as (Hsl & _).
  assert (Hlii := proj1 (proj2 Hsl)). assert (Hll := lastIndex_same _ _ Hsl).
  rewrite lastLogInfo_eq. destruct (termAtLocked a (ae_PrevLogIndex args)) as [pt ok] eqn:Ht.
  pose proof (termAt_ok a (ae_PrevLogIndex args)) as Hok. rewrite Ht in Hok. simpl in Hok.
  destruct (_ && _) eqn:Hc.
  { split; [done|]. intros (_ & _ & Hp & _). apply andb_true_iff in Hc as [Hc _]. lia. }
  assert (0 < ae_PrevLogIndex args → r_lastIncludedIndex a ≤ ae_PrevLogIndex args ≤ lastIndex a) as Hprev.
  { intros Hp. apply Hok. rewrite (proj2 (Z.ltb_lt _ _) Hp) in Hc. by destruct ok, (_ <? _). }
  pose proof (lastIndex_eq a) as Hla. clear Hc Hok Ht.
  destruct (Z.ltb_spec 0 (zlen (ae_Entries args))) as [Hl|Hl].
  - assert (ae_Entries args ≠ []) as Hne by (intros Hn; rewrite Hn in Hl; zlia).
    unfold slice_to, physicalIndexLocked. pose proof (zlen_nonneg (r_log a)).
    case_bool_decide as Hb; rewrite ?bind_Ret_l.
    + destruct (persistLocked_total (set_log (take (Z.to_nat
        (ae_PrevLogIndex args - r_lastIncludedIndex a - 1 + 1)) (r_log a) ++ ae_Entries args) a))
        as [p ->]. rewrite bind_Ret_l. repeat case_match; split; done || lia.
    + split; [intros _|done]. split_and!; [lia|done|lia|lia].
  - rewrite bind_Ret_l. assert (ae_Entries args = []) as -> by (apply zlen_0; zlia).
    repeat case_match; split; done || naive_solver.
Qed.

(** The one way AppendEntries panics on storage that never fails. A
    node whose snapshot position is not negative panics (slice bound out of
    range) exactly on a message of a current term that carries entries to
    put at or before index 0 while the node has already compacted past that
    point; the consistency check lets such a message through. *)
Theorem AppendEntries_panics_iff `{!PersisterTotal P} r args :
  0 ≤ r_lastIncludedIndex r → AppendEntries r args = Panic ↔ below_snapshot r args.
Proof. apply AppendEntries_panic_cases. Qed.
End log.

(** ** Witnesses *)
Module Witness.
Lemma AppendEntries_spec_witness :
  ∃ r' reply, AppendEntries demo_follower demo_append = Ret (r', reply) ∧
    aer_Success reply = true ∧ lastIndex r' = 4 ∧
    entryAt r' 3 = Some (mkLogEntry 2 20) ∧ r_commitIndex r' = 3.
Proof.
  run (AppendEntries demo_follower demo_append) as [r' reply] with H.
  destruct (AppendEntries_spec _ _ _ _ H) as (_ & _ & _ & _ & [_ Hok] & Hs & _).
  assert (aer_Success reply = true) as Hsuc by (apply Hok; split; [done|intros _; done]).
  destruct (Hs Hsuc) as (_ & (_ & Hlast & _ & Hent) & Hc). rewrite Hlast in Hc.
  exists r', reply. split_and!; [exact H|exact Hsuc|exact Hlast|exact (Hent 0 _ eq_refl)|exact Hc].
Defined.

Lemma Snapshot_spec_witness :
  ∃ r' e, Snapshot demo_leader 1 [Byte.x05] = Ret (r', e) ∧ e = None ∧
    r_lastIncludedIndex r' = 1 ∧ lastLogInfoLocked r' = (3, 2).
Proof.
  run (Snapshot demo_leader 1 [Byte.x05]) as [r' e] with H.
  pose proof (Snapshot_spec _ _ _ _ _ H) as Hs. exists r', e. split; [exact H|].
  destruct e as [[]|].
  - destruct Hs as (_ & -> & -> & Hlt). by vm_compute in Hlt.
  - destruct Hs as (_ & -> & -> & Hlt & _). by vm_compute in Hlt.
  - destruct Hs as [[Hle _]|(_ & _ & _ & Hi & _ & Hl & _)]; [by vm_compute in Hle|].
    split_and!; [done|exact Hi|exact Hl].
Defined.

Lemma InstallSnapshot_spec_witness :
  ∃ r' reply,
    InstallSnapshot demo_follower (mkInstallSnapshotArgs 2 0 2 1 [Byte.x06]) = Ret (r', reply) ∧
    r_lastIncludedIndex r' = 2 ∧ lastIndex r' = 3 ∧ r_lastApplied r' = 2.
Proof.
  run (InstallSnapshot demo_follower (mkInstallSnapshotArgs 2 0 2 1 [Byte.x06]))
    as [r' reply] with H.
  destruct (InstallSnapshot_spec _ _ _ _ H) as (_ & _ & _ & Hs).
  destruct Hs as (_ & Hi & _ & _ & _ & _ & Ha & Hk & _); [done|done|].
  destruct (Hk eq_refl) as [Hl _].
  exists r', reply. split_and!; [exact H|exact Hi|exact Hl|exact Ha].
Defined.

Lemma AppendEntries_panics_witness :
  AppendEntries demo_compacted
    (mkAppendEntriesArgs 2 0 0 0 [mkLogEntry 1 10] 3) = Panic.
Proof.
  apply (AppendEntries_panics_iff demo_compacted); [done|by split_and!].
Defined.
End Witness.
