(* ===== verification/RaftPositions.v ===== *)
(** * The ordering of a node's log positions

    snapshot position <= lastApplied <= commitIndex <= last log index: which
    operations keep it, and the AppendEntries calls that break it. *)
From S2P Require Import Prelude Persister RaftNode RaftFacts RaftDurable RaftVotes RaftDemo RaftLog.
Local Open Scope Z_scope.

Section positions.
Context {Cmd P : Type} `{!Persister P, !Codec (persistedState Cmd)}.
Abbreviation Raft := (Raft Cmd P).
Implicit Type r : Raft.

Definition positions_ok r : Prop :=
  0 ≤ r_lastIncludedIndex r ≤ r_lastApplied r ∧
  r_lastApplied r ≤ r_commitIndex r ≤ lastIndex r.

(** The messages that respect what the node has committed: entries that
    reach at least up to commitIndex, and a snapshot at or past it or at an
    entry the node has. *)
Definition respects_commit r (ev : NodeEvent (Cmd:=Cmd)) : Prop :=
  match ev with
  | EvAppendEntries args =>
      ae_Entries args = [] ∨
      r_commitIndex r ≤ ae_PrevLogIndex args + zlen (ae_Entries args)
  | EvInstallSnapshot args =>
      r_commitIndex r ≤ is_LastIncludedIndex args ∨
      termAtLocked r (is_LastIncludedIndex args) = (is_LastIncludedTerm args, true)
  | _ => True
  end.

(** Positions look only at these fields. *)
Lemma positions_same r r' :
  positions_ok r → r_log r' = r_log r →
  r_lastIncludedIndex r' = r_lastIncludedIndex r →
  r_lastApplied r' = r_lastApplied r → r_commitIndex r' = r_commitIndex r →
  positions_ok r'.
Proof.
  unfold positions_ok. rewrite !lastIndex_eq. by intros ? -> -> -> ->.
Qed.

Lemma becomeFollower_positions r t r' :
  positions_ok r → becomeFollowerLocked r t = Ret r' → positions_ok r'.
Proof.
  intros Hp ((? & ? & _) & _ & _ & _ & ? & ? & _)%becomeFollower_log.
  by eapply positions_same.
Qed.

(** advanceCommitIndexLocked moves commitIndex forward only, and never past
    the log. *)
Lemma advanceCommit_bounds r r' :
  advanceCommitIndexLocked r = Ret r' →
  r_log r' = r_log r ∧ r_lastIncludedIndex r' = r_lastIncludedIndex r ∧
  r_lastApplied r' = r_lastApplied r ∧
  (r_commitIndex r' = r_commitIndex r ∨
   r_commitIndex r < r_commitIndex r' ≤ lastIndex r).
Proof.
  intros H. assert (H2 := H). apply advanceCommitIndex_inv in H2 as [c ->].
  assert (∀ x, Ret x = Ret (set_commitIndex c r) → r_commitIndex x = c) as Hx
    by (by intros x [= ->]).
  split_and!; try done. revert H. unfold advanceCommitIndexLocked. rewrite lastLogInfo_eq.
  intros H. simpl. destruct (r_state r); try (apply Hx in H; lia).
  apply bind_Ret_inv in H as (cand & _ & H).
  destruct (termAtLocked r cand) as [term ok].
  destruct (_ && _) eqn:Hc; apply Hx in H; simpl in H; [|lia].
  rewrite !andb_true_iff in Hc. lia.
Qed.

Lemma advanceCommit_positions r r' :
  positions_ok r → advanceCommitIndexLocked r = Ret r' → positions_ok r'.
Proof.
  intros Hp (Hl & Hi & Ha & Hc)%advanceCommit_bounds.
  unfold positions_ok in *. rewrite lastIndex_eq in *. rewrite Hl, Hi, Ha. lia.
Qed.

(** Close [positions_ok r'] where r' differs in other fields only. *)
Ltac pos_same :=
  match goal with
  | Hp : positions_ok ?r |- positions_ok _ =>
      apply (positions_same r); [exact Hp|..];
      repeat match goal with |- context [if ?b then _ else _] => destruct b end; reflexivity
  end.

Ltac pos_done :=
  repeat match goal with
  | Hp : positions_ok ?r, H : becomeFollowerLocked ?r _ = Ret ?a |- _ =>
      apply (becomeFollower_positions _ _ _ Hp) in H
  | H : advanceCommitIndexLocked ?r = Ret _ |- _ =>
      apply advanceCommit_positions in H; [exact H|]
  end; saved; try done; try pos_same.

Lemma AppendEntries_positions r args r' reply :
  positions_ok r →
  ae_Entries args = [] ∨
    r_commitIndex r ≤ ae_PrevLogIndex args + zlen (ae_Entries args) →
  AppendEntries r args = Ret (r', reply) → positions_ok r'.
Proof.
  intros Hp Hr H. destruct (AppendEntries_meets _ _ _ _ H) as (_ & _ & Hlii & Hla & _ & Hs & Hf).
  destruct (aer_Success reply).
  - destruct (Hs eq_refl) as (_ & Happ & Hc). unfold positions_ok in *.
    assert (r_commitIndex r ≤ lastIndex r') as Hci.
    { unfold appended in Happ. destruct (ae_Entries args).
      - rewrite lastIndex_eq in *. rewrite Happ, Hlii. lia.
      - destruct Happ as (_ & -> & _). destruct Hr; [done|lia]. }
    destruct (Z.ltb_spec (r_commitIndex r) (ae_LeaderCommit args)); lia.
  - destruct (Hf eq_refl) as [(? & ? & _) ?]. by apply (positions_same r).
Qed.

Lemma InstallSnapshot_positions r args r' reply :
  positions_ok r →
  r_commitIndex r ≤ is_LastIncludedIndex args ∨
    termAtLocked r (is_LastIncludedIndex args) = (is_LastIncludedTerm args, true) →
  InstallSnapshot r args = Ret (r', reply) → positions_ok r'.
Proof.
  intros Hp Hr (_ & _ & Hf & Hs)%InstallSnapshot_meets.
  destruct (decide (r_currentTerm r ≤ is_Term args ∧
                    r_lastIncludedIndex r < is_LastIncludedIndex args)) as [[Ht Hi]|Hno].
  - destruct (Hs Ht Hi) as (_ & Hlii & _ & _ & _ & Hc & Ha & Hk & He).
    unfold positions_ok in *. rewrite Hlii, Hc, Ha.
    destruct (decide (termAtLocked r (is_LastIncludedIndex args) =
                      (is_LastIncludedTerm args, true))) as [Hm|Hm].
    + destruct (Hk Hm) as [-> _].
      assert (is_LastIncludedIndex args ≤ lastIndex r) by (apply termAt_ok; by rewrite Hm).
      lia.
    + destruct Hr as [Hr|Hr]; [|done].
      assert (lastIndex r' = is_LastIncludedIndex args) as ->
        by (rewrite lastIndex_eq, (He Hm), Hlii, zlen_nil; lia).
      lia.
  - destruct Hf as ((? & ? & _) & _ & ? & ? & _); [lia|]. by apply (positions_same r).
Qed.

Lemma Snapshot_positions r i d r' e :
  positions_ok r → Snapshot r i d = Ret (r', e) → positions_ok r'.
Proof.
  intros Hp Hs%Snapshot_meets. destruct e as [[]|].
  - by destruct Hs as (-> & _).
  - by destruct Hs as (-> & _).
  - destruct Hs as [[_ ->]|(? & ? & ? & Hi & _ & Hl & _ & _ & _ & Hc & Ha & _)]; [done|].
    unfold positions_ok in *. unfold lastIndex at 1. rewrite Hl, Hi, Hc, Ha.
    fold (lastIndex r). lia.
Qed.

Lemma Propose_positions r c r' res :
  positions_ok r → Propose r c = Ret (r', res) → positions_ok r'.
Proof.
  unfold Propose. intros Hp H. destruct (r_state r); [by inv_ret|by inv_ret|].
  apply bind_Ret_inv in H as (a & [p ->]%persistLocked_inv & H).
  apply bind_Ret_inv in H as (b & Hb & [= <- _]).
  apply advanceCommit_positions in Hb; [exact Hb|].
  unfold positions_ok in *. rewrite !lastIndex_eq in *. simpl. zlia.
Qed.

Lemma applyNext_positions r r' m :
  positions_ok r → applyPending_next r = Ret (r', m) → positions_ok r'.
Proof.
  unfold applyPending_next. intros Hp H. handler; try done.
  unfold positions_ok in *. rewrite !lastIndex_eq in *. simpl. lia.
Qed.

Lemma electionTimeout_positions r r' b :
  positions_ok r → electionTimeout r = Ret (r', b) → positions_ok r'.
Proof.
  unfold electionTimeout, becomeCandidateLocked. intros Hp H. handler; pos_done.
Qed.

Lemma voteReply_positions r el reply r' el' :
  positions_ok r → startElection_reply r el reply = Ret (r', el') → positions_ok r'.
Proof.
  unfold startElection_reply, becomeLeaderLocked. intros Hp H. handler; pos_done.
Qed.

(** ** Calls that return *)

(** Snapshot of something applied neither fails nor panics. *)
Lemma Snapshot_returns `{!PersisterTotal P} r index data :
  positions_ok r → index ≤ r_lastApplied r → ∃ r', Snapshot r index data = Ret (r', None).
Proof.
  intros Hp Hi. unfold positions_ok in Hp. unfold Snapshot. rewrite lastLogInfo_eq.
  destruct (Z.leb_spec index (r_lastIncludedIndex r)) as [|Hlt]; [by eexists|].
  rewrite (proj2 (Z.ltb_ge _ _)), (proj2 (Z.ltb_ge _ _)) by lia.
  destruct (termAtLocked r index) as [term ok]. unfold slice_from, physicalIndexLocked.
  rewrite lastIndex_eq in Hp. rewrite bool_decide_true by lia. simpl.
  unfold saveSnapshotLocked. destruct (r_persister _) as [p|]; simpl; [|by eexists].
  match goal with |- context [SaveStateAndSnapshot p ?b ?d] =>
    pose proof (save_both_ok p b d) as Hok; destruct (SaveStateAndSnapshot p b d) as [p' saved] end.
  simpl in Hok. subst saved. by eexists.
Qed.

Lemma applyPending_returns r : positions_ok r → returned (applyPending_next r) = true.
Proof.
  unfold positions_ok. rewrite lastIndex_eq. intros Hp. unfold applyPending_next.
  destruct (_ <=? _); [done|].
  destruct (Z.ltb_spec (r_lastIncludedIndex r + zlen (r_log r)) (r_lastApplied r + 1)); [done|].
  unfold physicalIndexLocked. simpl.
  destruct (zget (r_log r) (r_lastApplied r + 1 - r_lastIncludedIndex r - 1)) eqn:Hz; [done|].
  apply zget_None in Hz. lia.
Qed.

(** 0 <= snapshot position <= lastApplied <= commitIndex <= last index
    is kept by every operation of the node, except an AppendEntries whose
    entries end before commitIndex or an InstallSnapshot below commitIndex
    at an entry the node does not have. *)
Theorem node_step_positions r ev r' :
  positions_ok r → respects_commit r ev → node_step r ev = Ret r' → positions_ok r'.
Proof.
  destruct ev; cbn [node_step respects_commit]; intros Hp Hr H; inv_ret; cbn [fst] in *.
  - by eapply electionTimeout_positions.
  - apply RequestVote_meets in Ha as (_ & _ & _ & _ & _ & ? & ? & ? & ?).
    by apply (positions_same r).
  - by eapply voteReply_positions.
  - by eapply AppendEntries_positions.
  - unfold replicateToPeer_reply in H. handler; pos_done.
  - by eapply InstallSnapshot_positions.
  - unfold sendInstallSnapshot_reply in H. handler; pos_done.
  - by eapply Propose_positions.
  - by eapply Snapshot_positions.
  - done.
  - by eapply applyNext_positions.
Qed.

(** The truncation is unconditional. An AppendEntries of a current
    term whose check passes but whose entries end before commitIndex (one
    overtaken on the network by a longer one from the same leader) is
    answered with success and cuts the log back below commitIndex, so the
    committed entry at commitIndex is no longer in the log; commitIndex
    stays past the end of the log, or moves backwards to it. *)
Theorem stale_append_truncates r args r' reply :
  AppendEntries r args = Ret (r', reply) →
  r_currentTerm r ≤ ae_Term args → prev_matches r args → ae_Entries args ≠ [] →
  ae_PrevLogIndex args + zlen (ae_Entries args) < r_commitIndex r →
  aer_Success reply = true ∧
  lastIndex r' = ae_PrevLogIndex args + zlen (ae_Entries args) ∧
  entryAt r' (r_commitIndex r) = None ∧
  r_commitIndex r' =
    (if r_commitIndex r <? ae_LeaderCommit args then lastIndex r' else r_commitIndex r).
Proof.
  intros H Ht Hp Hne Hlt.
  destruct (AppendEntries_meets _ _ _ _ H) as (_ & _ & _ & _ & [_ Hok] & Hs & _).
  destruct (Hs (Hok (conj Ht Hp))) as (_ & Happ & Hc).
  assert (lastIndex r' = ae_PrevLogIndex args + zlen (ae_Entries args)) as Hlast.
  { unfold appended in Happ. destruct (ae_Entries args); [done|]. by destruct Happ as (_ & ? & _). }
  split_and!; [by apply Hok|done|..].
  - destruct (entryAt r' (r_commitIndex r)) as [e|] eqn:He; [|done].
    apply entryAt_bound in He. lia.
  - rewrite Hc. destruct (Z.ltb_spec (r_commitIndex r) (ae_LeaderCommit args)); lia.
Qed.
End positions.

(** ** Witnesses *)
Module Witness.
Lemma node_step_positions_witness :
  ∃ r', node_step demo_follower (EvAppendEntries demo_append) = Ret r' ∧
    positions_ok r'.
Proof.
  run (node_step demo_follower (EvAppendEntries demo_append)) as r' with H.
  exists r'. split; [exact H|].
  apply (node_step_positions _ _ _) in H; [exact H|by split|right; by vm_compute].
Defined.

Definition demo_stale : AppendEntriesArgs Z :=
  mkAppendEntriesArgs 2 0 0 0 [mkLogEntry 1 10] 1.

Lemma stale_append_witness :
  ∃ r' reply, AppendEntries demo_follower demo_stale = Ret (r', reply) ∧
    r_commitIndex r' = 2 ∧ lastIndex r' = 1.
Proof.
  run (AppendEntries demo_follower demo_stale) as [r' reply] with H.
  destruct (stale_append_truncates _ _ _ _ H) as (_ & Hl & _ & Hc); try done.
  exists r', reply. split_and!; [exact H|exact Hc|exact Hl].
Defined.
End Witness.
