(* ===== verification/RaftCommit.v ===== *)
(** * The commit rule and delivery (01-raft/commit.go, apply.go)

    advanceCommitIndexLocked against the paper's rule, and what a tick of the
    apply loop hands to the state machine. *)
From S2P Require Import Prelude Persister RaftNode RaftFacts RaftDurable RaftVotes RaftDemo RaftLog RaftPositions.
Local Open Scope Z_scope.

(** ** The k-th largest element *)

#[local] Instance ge_trans : Transitive Z.ge.
Proof. intros x y z. lia. Qed.
#[local] Instance ge_total : Total Z.ge.
Proof. intros x y. lia. Qed.

Definition count_ge (n : Z) (l : list Z) : Z := zlen (filter (λ m, n ≤ m) l).

Lemma count_ge_app n l1 l2 : count_ge n (l1 ++ l2) = count_ge n l1 + count_ge n l2.
Proof. unfold count_ge. by rewrite filter_app, zlen_app. Qed.

Lemma count_ge_cons n x l :
  count_ge n (x :: l) = (if decide (n ≤ x) then 1 else 0) + count_ge n l.
Proof.
  unfold count_ge. rewrite filter_cons. destruct (decide (n ≤ x)); [|done].
  rewrite zlen_cons. lia.
Qed.

Lemma count_ge_all n l : Forall (λ m, n ≤ m) l → count_ge n l = zlen l.
Proof.
  induction 1 as [|x l Hx _ IH]; [done|].
  rewrite count_ge_cons, decide_True, IH, zlen_cons by done. lia.
Qed.

Lemma count_ge_none n l : Forall (λ m, m < n) l → count_ge n l = 0.
Proof.
  induction 1 as [|x l Hx _ IH]; [done|].
  rewrite count_ge_cons, decide_False, IH by lia. done.
Qed.

Lemma count_ge_bound n l : 0 ≤ count_ge n l ≤ zlen l.
Proof.
  induction l as [|x l IH]; [done|]. rewrite count_ge_cons, zlen_cons.
  destruct (decide (n ≤ x)); lia.
Qed.

Lemma count_ge_sort n l : count_ge n (sort_desc l) = count_ge n l.
Proof.
  unfold count_ge, zlen, sort_desc. f_equal.
  apply Permutation_length. by rewrite merge_sort_Permutation.
Qed.

Lemma zlen_sort_desc l : zlen (sort_desc l) = zlen l.
Proof.
  unfold zlen, sort_desc. f_equal. apply Permutation_length, merge_sort_Permutation.
Qed.

(** The k-th element (from 0) of the sorted list is the largest value that at
    least k+1 elements reach. *)
Lemma sort_desc_kth l k c :
  zget (sort_desc l) k = Some c →
  c ∈ l ∧ k + 1 ≤ count_ge c l ∧ ∀ n, k + 1 ≤ count_ge n l → n ≤ c.
Proof.
  intros Hk. apply zget_Some_bound in Hk as Hb.
  assert (c ∈ l) as Hin.
  { apply zget_elem_of in Hk. unfold sort_desc in Hk. by rewrite merge_sort_Permutation in Hk. }
  split; [done|].
  assert (StronglySorted Z.ge (sort_desc l)) as Hs by apply (StronglySorted_merge_sort Z.ge).
  assert (sort_desc l !! Z.to_nat k = Some c) as Hl.
  { unfold zget in Hk. by rewrite bool_decide_true in Hk by lia. }
  apply take_drop_middle in Hl. set (l1 := take (Z.to_nat k) (sort_desc l)) in Hl.
  set (l2 := drop (S (Z.to_nat k)) (sort_desc l)) in Hl.
  assert (zlen l1 = k) as Hk1 by (apply zlen_take; lia).
  rewrite <- Hl in Hs. apply StronglySorted_app in Hs as (H1 & _ & H2).
  apply StronglySorted_inv in H2 as [_ H2].
  assert (Forall (λ m, c ≤ m) l1) as Hge.
  { apply Forall_forall. intros x Hx. specialize (H1 x c Hx ltac:(by left)). lia. }
  assert (∀ n, count_ge n l = count_ge n (l1 ++ c :: l2)) as Hc
    by (intros n; by rewrite Hl, count_ge_sort).
  split.
  - rewrite Hc, count_ge_app, count_ge_cons, (count_ge_all c l1 Hge), decide_True by lia.
    pose proof (count_ge_bound c l2). lia.
  - intros n. rewrite Hc, count_ge_app. destruct (decide (n ≤ c)) as [|Hn]; [done|].
    rewrite (count_ge_none n (c :: l2)).
    + pose proof (count_ge_bound n l1). lia.
    + apply Forall_cons. split; [lia|]. eapply Forall_impl; [exact H2|]. intros x Hx. simpl in Hx. lia.
Qed.

Section commit.
Context {Cmd P : Type} `{!Persister P, !Codec (persistedState Cmd)}.
Abbreviation Raft := (Raft Cmd P).
Implicit Type r : Raft.

(** A majority of the cluster (the leader itself included) holds the log up
    to [n], as far as the leader knows. *)
Definition quorum_at r (n : Z) : Prop :=
  (zlen (r_peers r) + 1) / 2 + 1 ≤
    count_ge n (lastIndex r :: map (matchOf r) (r_peers r)).

(** Terms in the log never decrease and never exceed the current one. *)
Definition terms_ordered r : Prop :=
  ∀ i j ti tj, i ≤ j → termAtLocked r i = (ti, true) →
    termAtLocked r j = (tj, true) → ti ≤ tj ≤ r_currentTerm r.

(** What a call of advanceCommitIndexLocked does. *)
Definition commit_post r r' : Prop :=
  r' = set_commitIndex (r_commitIndex r') r ∧
  (r_commitIndex r' = r_commitIndex r ∨
   (r_state r = Leader ∧ r_commitIndex r < r_commitIndex r' ∧
    1 ≤ r_commitIndex r' ≤ lastIndex r ∧ quorum_at r (r_commitIndex r') ∧
    termAtLocked r (r_commitIndex r') = (r_currentTerm r, true))) ∧
  (r_state r = Leader → terms_ordered r →
   (∀ p, p ∈ r_peers r → matchOf r p ≤ lastIndex r) →
   ∀ n, 1 ≤ n → quorum_at r n → termAtLocked r n = (r_currentTerm r, true) →
     n ≤ r_commitIndex r').

Lemma advanceCommit_meets r :
  ∃ r', advanceCommitIndexLocked r = Ret r' ∧ commit_post r r'.
Proof.
  unfold commit_post.
  assert (r = set_commitIndex (r_commitIndex r) r) as Hsame by by destruct r.
  unfold advanceCommitIndexLocked. destruct (r_state r) eqn:Hst; 
    [exists r; split_and!; [done|done|by left|congruence]..|].
  rewrite lastLogInfo_eq. set (ms := lastIndex r :: map (matchOf r) (r_peers r)).
  assert (zlen ms = zlen (r_peers r) + 1) as Hlen.
  { unfold ms. rewrite zlen_cons. unfold zlen. by rewrite length_map. }
  rewrite zlen_sort_desc, Hlen. set (maj := (zlen (r_peers r) + 1) / 2 + 1).
  assert (0 ≤ maj - 1 < zlen ms) as Hmaj.
  { pose proof (zlen_nonneg (r_peers r)). unfold maj.
    pose proof (Z.div_mod (zlen (r_peers r) + 1) 2). pose proof (Z.mod_pos_bound (zlen (r_peers r) + 1) 2). lia. }
  rewrite <- zlen_sort_desc in Hmaj. apply zget_is_Some in Hmaj as [c Hc].
  rewrite Hc. simpl. apply sort_desc_kth in Hc as (Hin & Hq & Hmax).
  replace (maj - 1 + 1) with maj in * by lia.
  assert (terms_ordered r → (∀ p, p ∈ r_peers r → matchOf r p ≤ lastIndex r) →
    ∀ n, quorum_at r n → termAtLocked r n = (r_currentTerm r, true) →
    n ≤ c ≤ lastIndex r ∧ termAtLocked r c = (r_currentTerm r, true)) as Hbest.
  { intros Hto Hmatch n Hn Htn. apply Hmax in Hn.
    assert (c ≤ lastIndex r) as Hcl.
    { unfold ms in Hin. apply elem_of_cons in Hin as [->|Hin]; [done|].
      apply list_elem_of_fmap in Hin as (p & -> & Hp). by apply Hmatch. }
    split; [done|]. assert (r_lastIncludedIndex r ≤ n ≤ lastIndex r) by (apply termAt_ok; by rewrite Htn).
    destruct (termAtLocked r c) as [tc ok] eqn:Htc.
    assert (ok = true) as ->.
    { change ok with ((tc, ok).2). rewrite <- Htc. apply termAt_ok. lia. }
    pose proof (Hto n c _ _ Hn Htn Htc). f_equal. lia. }
  destruct (termAtLocked r c) as [term ok] eqn:Ht. destruct (_ && _) eqn:Hb.
  - rewrite !andb_true_iff in Hb. destruct Hb as ((((Hb1 & Hb2) & Hb3) & Hok) & Hterm).
    assert (term = r_currentTerm r) as -> by lia. rewrite Hok in Ht.
    eexists. split; [done|]. simpl. split; [done|]. split.
    + right. split_and!; [done|lia|lia|lia|done|done].
    + intros _ Hto Hm n _ Hn Htn. by apply (Hbest Hto Hm n Hn Htn).
  - exists r. split_and!; [done|done|by left|].
    intros _ Hto Hm n Hn1 Hn Htn. destruct (Hbest Hto Hm n Hn Htn) as [Hle [= -> ->]].
    rewrite Z.eqb_refl, andb_true_r in Hb. rewrite !andb_false_iff in Hb. simpl in Hb. lia.
Qed.

(** C16: the commit rule. advanceCommitIndexLocked never panics and touches
    nothing but commitIndex, and only on a leader. What it commits is a log
    position held by a majority whose entry is of the current term, beyond
    the old commitIndex; and when log terms are ordered and no matchIndex
    exceeds the leader's log, no such position is left uncommitted. *)
Theorem commit_rule r :
  ∃ r', advanceCommitIndexLocked r = Ret r' ∧ commit_post r r'.
Proof. apply advanceCommit_meets. Qed.

Lemma advanceCommit_total r :
  ∃ c, advanceCommitIndexLocked r = Ret (set_commitIndex c r).
Proof. destruct (advanceCommit_meets r) as (r' & H & Hr & _). exists (r_commitIndex r'). congruence. Qed.

(** ** Delivery *)

Definition delivers r (i : Z) (m : ApplyMsg Cmd) : Prop :=
  ∃ e, entryAt r i = Some e ∧ m = commandMsg i (le_Term e) (le_Command e).

Lemma next_delivers r :
  r_lastIncludedIndex r ≤ r_lastApplied r →
  r_lastApplied r < r_commitIndex r → r_lastApplied r < lastIndex r →
  ∃ m, applyPending_next r = Ret (set_lastApplied (r_lastApplied r + 1) r, Some m) ∧
    delivers r (r_lastApplied r + 1) m.
Proof.
  intros Hl Hc Hi. set (i := r_lastApplied r + 1).
  assert (is_Some (entryAt r i)) as [e He] by (apply entryAt_is_Some; lia).
  exists (commandMsg i (le_Term e) (le_Command e)). split; [|by exists e].
  unfold applyPending_next. rewrite <- lastIndex_eq.
  rewrite (proj2 (Z.leb_gt _ _)), (proj2 (Z.ltb_ge _ _)) by lia.
  change (zget _ _) with (entryAt r i). fold i. by rewrite He.
Qed.

Lemma delivers_seqZ r i n m ms :
  delivers r i m → Forall2 (delivers r) (seqZ (i + 1) (Z.of_nat n)) ms →
  Forall2 (delivers r) (seqZ i (Z.of_nat (S n))) (m :: ms).
Proof.
  intros Hm Hms. rewrite Nat2Z.inj_succ, <- Z.add_1_r, seqZ_cons by lia.
  apply Forall2_cons. split; [done|]. by rewrite Z.add_1_r, Z.pred_succ.
Qed.

(** The first [k] iterations of applyPending, before anything interleaves. *)
Fixpoint applyPending_first (k : nat) r : outcome (Raft * list (ApplyMsg Cmd)) :=
  match k with
  | O => Ret (r, [])
  | S k =>
      '(r, msg) ← applyPending_next r;
      match msg with
      | None => Ret (r, [])
      | Some m =>
          '(r, ms) ← applyPending_first k r;
          Ret (r, m :: ms)
      end
  end.

Lemma first_delivers k r :
  r_lastIncludedIndex r ≤ r_lastApplied r →
  r_lastApplied r + Z.of_nat k ≤ r_commitIndex r →
  r_lastApplied r + Z.of_nat k ≤ lastIndex r →
  ∃ ms, applyPending_first k r =
      Ret (set_lastApplied (r_lastApplied r + Z.of_nat k) r, ms) ∧
    Forall2 (delivers r) (seqZ (r_lastApplied r + 1) (Z.of_nat k)) ms.
Proof.
  revert r. induction k as [|k IH]; intros r Hl Hc Hi.
  - exists []. split; [|done]. simpl. destruct r; unfold set_lastApplied; simpl; do 3 f_equal; lia.
  - destruct (next_delivers r) as (m & Hn & Hm); [lia..|].
    set (r1 := set_lastApplied (r_lastApplied r + 1) r) in *.
    destruct (IH r1) as (ms & Hms & Hall);
      [simpl; lia..|change (lastIndex r1) with (lastIndex r); simpl; lia|].
    exists (m :: ms). simpl. rewrite Hn. simpl. rewrite Hms. simpl. split; [|by apply delivers_seqZ].
    do 2 f_equal. unfold r1, set_lastApplied. simpl. f_equal. lia.
Qed.

Lemma applyPending_loop n r :
  r_lastIncludedIndex r ≤ r_lastApplied r →
  Z.to_nat (Z.min (r_commitIndex r) (lastIndex r) - r_lastApplied r) = n →
  ∀ fuel, (n < fuel)%nat →
  ∃ ms, applyPending fuel r =
      Ret (set_lastApplied (r_lastApplied r + Z.of_nat n) r, ms) ∧
    Forall2 (delivers r) (seqZ (r_lastApplied r + 1) (Z.of_nat n)) ms.
Proof.
  revert r. induction n as [|n IH]; intros r Hlii Hn [|fuel] Hf; try lia.
  - exists []. split; [|done]. simpl.
    assert (set_lastApplied (r_lastApplied r + Z.of_nat 0) r = r) as ->
      by (destruct r; unfold set_lastApplied; simpl; f_equal; lia).
    unfold applyPending_next. rewrite <- lastIndex_eq.
    destruct (Z.leb_spec (r_commitIndex r) (r_lastApplied r)); [done|].
    by rewrite (proj2 (Z.ltb_lt _ _)) by lia.
  - destruct (next_delivers r) as (m & Hnx & Hm); [lia..|].
    set (r1 := set_lastApplied (r_lastApplied r + 1) r) in *.
    destruct (IH r1) with (fuel := fuel) as (ms & Hms & Hall);
      [simpl; lia|change (lastIndex r1) with (lastIndex r); simpl; lia|lia|].
    exists (m :: ms). simpl. rewrite Hnx. simpl. rewrite Hms. simpl. split; [|by apply delivers_seqZ].
    do 2 f_equal. unfold r1, set_lastApplied. simpl. f_equal. lia.
Qed.

Lemma tick_delivers r fuel :
  r_lastIncludedIndex r ≤ r_lastApplied r ≤ r_commitIndex r →
  r_commitIndex r ≤ lastIndex r →
  (Z.to_nat (r_commitIndex r - r_lastApplied r) < fuel)%nat →
  ∃ ms, RunApplyLoop_tick fuel r =
      Ret (set_lastApplied (r_commitIndex r) (set_pendingSnapshot None r),
           option_list (r_pendingSnapshot r) ++ ms) ∧
    Forall2 (delivers r)
      (seqZ (r_lastApplied r + 1) (r_commitIndex r - r_lastApplied r)) ms.
Proof.
  intros Hp Hc Hf. set (r1 := set_pendingSnapshot None r).
  destruct (applyPending_loop (Z.to_nat (r_commitIndex r - r_lastApplied r)) r1)
    with (fuel := fuel) as (ms & Hms & Hall); [simpl; lia| |done|].
  { change (lastIndex r1) with (lastIndex r). simpl. by rewrite Z.min_l by lia. }
  exists ms. rewrite Z2Nat.id in * by lia. split; [|exact Hall].
  unfold RunApplyLoop_tick, deliverPendingSnapshot. fold r1. rewrite Hms. simpl.
  do 3 f_equal. lia.
Qed.

(** In-order delivery without gaps or repeats. From a node whose
    lastApplied is not below its snapshot position and whose commitIndex is
    within its log, a tick of the apply loop with fuel for the backlog
    returns, sends the queued snapshot (if any) first and then exactly the
    entries lastApplied+1 .. commitIndex in order, with their own index,
    term and command, and leaves lastApplied at commitIndex. *)
Theorem RunApplyLoop_tick_delivers r fuel :
  r_lastIncludedIndex r ≤ r_lastApplied r ≤ r_commitIndex r →
  r_commitIndex r ≤ lastIndex r →
  (Z.to_nat (r_commitIndex r - r_lastApplied r) < fuel)%nat →
  ∃ ms, RunApplyLoop_tick fuel r =
      Ret (set_lastApplied (r_commitIndex r) (set_pendingSnapshot None r),
           option_list (r_pendingSnapshot r) ++ ms) ∧
    Forall2 (delivers r)
      (seqZ (r_lastApplied r + 1) (r_commitIndex r - r_lastApplied r)) ms.
Proof. apply tick_delivers. Qed.

(** C19: an installed snapshot can roll the state machine back. An
    InstallSnapshot of a current term, ahead of the node's snapshot and
    matching its log, is handled while the apply loop may be in the middle of
    its work: it still sends [k] entries before its next tick. If those, or
    what was applied before, go past the snapshot's position, the state
    machine first gets them, then the snapshot, and then the entries after
    those: what lies between the snapshot and them is taken back and never
    sent again. With k = 0 this is a snapshot behind lastApplied; with k > 0
    one that arrives while applyPending is running. *)
Theorem snapshot_rolls_back r args r' reply (k : nat) fuel :
  InstallSnapshot r args = Ret (r', reply) → r_currentTerm r ≤ is_Term args →
  r_lastIncludedIndex r < is_LastIncludedIndex args →
  termAtLocked r (is_LastIncludedIndex args) = (is_LastIncludedTerm args, true) →
  r_lastApplied r ≤ r_commitIndex r ≤ lastIndex r →
  let applied := Z.max (r_lastApplied r) (is_LastIncludedIndex args) + Z.of_nat k in
  is_LastIncludedIndex args < applied ≤ r_commitIndex r →
  (Z.to_nat (r_commitIndex r - applied) < fuel)%nat →
  ∃ r1 before r2 after,
    applyPending_first k r' = Ret (r1, before) ∧
    Forall2 (delivers r') (seqZ (applied - Z.of_nat k + 1) (Z.of_nat k)) before ∧
    RunApplyLoop_tick fuel r1 =
      Ret (r2, snapshotMsg (is_Data args) (is_LastIncludedIndex args)
                 (is_LastIncludedTerm args) :: after) ∧
    Forall2 (delivers r') (seqZ (applied + 1) (r_commitIndex r - applied)) after.
Proof.
  intros H Ht Hi Hm Hp applied Hap Hf.
  destruct (InstallSnapshot_meets _ _ _ _ H) as (_ & _ & _ & Hs).
  destruct (Hs Ht) as (_ & Hlii & _ & _ & Hps & Hc & Ha & Hk & _); [lia|].
  destruct (Hk Hm) as [Hlast _].
  destruct (first_delivers k r') as (before & Hb & Hfb); [lia..|].
  assert (r_lastApplied r' + Z.of_nat k = applied) as Ea by (rewrite Ha; done).
  rewrite Ea in Hb. set (r1 := set_lastApplied applied r') in *.
  destruct (tick_delivers r1 fuel) as (after & Htk & Hall);
    [simpl; lia|change (lastIndex r1) with (lastIndex r'); simpl; lia|simpl; lia|].
  change (r_pendingSnapshot r1) with (r_pendingSnapshot r') in Htk. rewrite Hps in Htk.
  eexists r1, before, _, after. split_and!; [exact Hb| |exact Htk|].
  - replace (applied - Z.of_nat k) with (r_lastApplied r') by lia. exact Hfb.
  - simpl in Hall. rewrite Hc, Z.max_l in Hall by lia. exact Hall.
Qed.
End commit.

(** ** Witnesses *)
Module Witness.
Lemma RunApplyLoop_tick_witness :
  ∃ ms, RunApplyLoop_tick 5 demo_follower =
      Ret (set_lastApplied 2 demo_follower, ms) ∧ ms = [commandMsg 2 1 11].
Proof.
  destruct (RunApplyLoop_tick_delivers demo_follower 5) as (ms & Hms & Hall);
    [done|done|vm_compute; lia|].
  exists ms. split; [exact Hms|].
  apply Forall2_cons_inv_l in Hall as (m & ms' & (e & [= <-] & ->) & Hall & ->).
  by apply Forall2_nil_inv_l in Hall as ->.
Defined.

Definition ahead : DemoRaft :=
  mkRaft 1 [0; 2] None Follower 2 (-1) demo_log 0 0 [] 3 1 None ∅ ∅ false.

(** Entry 2 is sent before the snapshot at 1 and not after it. *)
Lemma snapshot_rolls_back_witness :
  ∃ r' reply r1 before r2 after,
    InstallSnapshot ahead (mkInstallSnapshotArgs 2 0 1 1 [Byte.x05]) = Ret (r', reply) ∧
    applyPending_first 1 r' = Ret (r1, before) ∧ am_Index <$> before = [2] ∧
    RunApplyLoop_tick 2 r1 = Ret (r2, snapshotMsg [Byte.x05] 1 1 :: after) ∧
    am_Index <$> after = [3].
Proof.
  run (InstallSnapshot ahead (mkInstallSnapshotArgs 2 0 1 1 [Byte.x05])) as [r' reply] with H.
  destruct (snapshot_rolls_back _ _ _ _ 1 2 H) as (r1 & before & r2 & after & Hb & Fb & Ht & Fa);
    [done|done|done|done|split; done|vm_compute; lia|].
  exists r', reply, r1, before, r2, after. split_and!; try assumption.
  - apply Forall2_cons_inv_l in Fb as (m & ms & (e & _ & ->) & Fb & ->).
    by apply Forall2_nil_inv_l in Fb as ->.
  - apply Forall2_cons_inv_l in Fa as (m & ms & (e & _ & ->) & Fa & ->).
    by apply Forall2_nil_inv_l in Fa as ->.
Defined.
End Witness.
