(* ===== verification/RaftElection.v ===== *)
(** * The outcome of one election (01-raft/election.go)

    When a candidate's startElection makes it leader, what the new leader
    starts from, and why a cluster of one member never has a leader. *)
From S2P Require Import Prelude Persister RaftNode RaftDemo RaftFacts RaftDurable RaftVotes RaftLog RaftCluster.
Local Open Scope Z_scope.

Section election.
Context {Cmd P : Type} `{!Persister P, !Codec (persistedState Cmd)}.
Abbreviation Raft := (Raft Cmd P).
Implicit Type r : Raft.

Definition granted (reply : option RequestVoteReply) : bool :=
  match reply with
  | Some reply => rvr_VoteGranted reply
  | None => false
  end.

Definition grants (replies : list (option RequestVoteReply)) : Z :=
  zlen (filter (λ o, granted o = true) replies).

Lemma grants_cons o replies :
  grants (o :: replies) = (if granted o then 1 else 0) + grants replies.
Proof.
  unfold grants. rewrite filter_cons. destruct (granted o); simpl; [|done].
  rewrite zlen_cons. lia.
Qed.

Lemma grants_nonneg replies : 0 ≤ grants replies.
Proof. apply zlen_nonneg. Qed.

(** No reply carries a term above [t]. *)
Definition within (t : Z) (replies : list (option RequestVoteReply)) : Prop :=
  Forall (λ o, ∀ reply, o = Some reply → rvr_Term reply ≤ t) replies.

Lemma foldl_insert_lookup (v : Z) (l : list Z) (m : gmap Z Z) p :
  p ∈ l → foldl (λ m q, <[q := v]> m) m l !! p = Some v.
Proof.
  assert (∀ (l : list Z) (m : gmap Z Z), m !! p = Some v → foldl (λ m q, <[q := v]> m) m l !! p = Some v) as Hkeep.
  { clear. intros l. induction l as [|q l IH]; [done|]. intros m Hm. simpl. apply IH.
    destruct (decide (q = p)) as [->|]; [by rewrite lookup_insert_eq|].
    by rewrite lookup_insert_ne. }
  revert m. induction l as [|q l IH]; intros m Hin; [by apply not_elem_of_nil in Hin|].
  apply elem_of_cons in Hin as [->|Hin]; simpl; [|by apply IH].
  apply Hkeep, lookup_insert_eq.
Qed.

(** The leader that becomeLeaderLocked makes of a candidate. *)
Definition leads_from r r' : Prop :=
  r_state r' = Leader ∧ persistedState_of r' = persistedState_of r ∧
  r_commitIndex r' = r_commitIndex r ∧
  ∀ p, p ∈ r_peers r → nextOf r' p = lastIndex r + 1 ∧ matchOf r' p = 0.

Lemma becomeLeader_Candidate r :
  r_state r = Candidate →
  ∃ r', becomeLeaderLocked r = Ret (r', None) ∧ leads_from r r'.
Proof.
  intros Hc. unfold becomeLeaderLocked. rewrite Hc.
  change (lastLogInfoLocked (set_state Leader r)) with (lastLogInfoLocked r).
  rewrite lastLogInfo_eq.
  eexists. split; [done|]. split_and!; [done..|]. intros p Hp.
  unfold nextOf, matchOf. simpl. by rewrite !foldl_insert_lookup.
Qed.

(** Replies that arrive once the candidate is leader change nothing. *)
Lemma replies_leader r el replies :
  r_state r = Leader → within (r_currentTerm r) replies →
  startElection_replies r el replies = Ret (r, el).
Proof.
  intros Hl. induction 1 as [|o replies Ho _ IH]; [done|].
  destruct o as [reply|]; [|done]. simpl. unfold startElection_reply.
  rewrite (proj2 (Z.ltb_ge _ _)) by by apply Ho.
  rewrite Hl, bool_decide_false by done. simpl. exact IH.
Qed.

Lemma replies_candidate r el replies :
  r_state r = Candidate → rv_Term (el_args el) = r_currentTerm r →
  within (r_currentTerm r) replies →
  ∃ r' el', startElection_replies r el replies = Ret (r', el') ∧
    ((r' = r ∧ (grants replies = 0 ∨ el_votes el + grants replies < el_majority el)) ∨
     (leads_from r r' ∧ 0 < grants replies ∧
      el_majority el ≤ el_votes el + grants replies)).
Proof.
  intros Hc Ht Hw. revert el Ht. induction Hw as [|o replies Ho Hw IH]; intros el Ht.
  { exists r, el. split; [done|]. left. split; [done|by left]. }
  rewrite grants_cons. pose proof (grants_nonneg replies) as Hg0.
  destruct o as [reply|]; [|by apply IH]. simpl. unfold startElection_reply.
  rewrite (proj2 (Z.ltb_ge _ _)) by by apply Ho.
  rewrite bool_decide_true by done. rewrite Ht, Z.eqb_refl. simpl.
  destruct (rvr_VoteGranted reply) eqn:Hg; simpl; [|by apply IH].
  destruct (Z.leb_spec (el_majority el) (el_votes el + 1)) as [Hm|Hm].
  - destruct (becomeLeader_Candidate r Hc) as (r' & -> & Hr'). simpl.
    assert (Hr'2 := Hr'). destruct Hr' as (Hl & [= Hct _ _ _ _] & _).
    rewrite replies_leader by (try done; by rewrite Hct).
    eexists _, _. split; [done|]. right. split; [done|lia].
  - destruct (IH (mkElection (el_args el) (el_votes el + 1) (el_majority el)) Ht)
      as (r' & el' & Hr & Hcase). exists r', el'. split; [exact Hr|]. simpl in Hcase.
    destruct Hcase as [[-> Hc']|(? & ? & ?)]; [left|right]; split; try done; lia.
Qed.

(** Winning an election. For a candidate whose replies carry no newer
    term, startElection returns; the candidate becomes leader exactly when
    at least one peer granted its vote and the grants with its own vote make
    a majority of the cluster, it then keeps term, vote and log and starts
    every peer at nextIndex = last index + 1 and matchIndex = 0, and
    otherwise it is unchanged. *)
Theorem startElection_wins r replies :
  r_state r = Candidate → within (r_currentTerm r) replies →
  ∃ r', startElection r replies = Ret r' ∧
    (r_state r' = Leader ↔
      0 < grants replies ∧
      (zlen (r_peers r) + 1) / 2 + 1 ≤ 1 + grants replies) ∧
    (r_state r' = Leader → leads_from r r') ∧
    (r_state r' ≠ Leader → r' = r).
Proof.
  intros Hc Hw. unfold startElection, startElection_begin. rewrite lastLogInfo_eq.
  set (el := mkElection _ _ _).
  destruct (replies_candidate r el replies Hc eq_refl Hw) as (r' & el' & -> & Hcase).
  exists r'. split; [done|]. simpl in Hcase.
  destruct Hcase as [[-> Hno]|(Hl & ? & ?)].
  - split_and!; try done; [|congruence].
    pose proof (grants_nonneg replies). split; [congruence|lia].
  - assert (Hs := proj1 Hl). split_and!; try done.
Qed.

(** Stepping down. If some reply to a candidate carries a newer term,
    then, on storage that never fails, startElection returns with the node
    a follower of a term newer than the one it campaigned for. *)
Theorem startElection_steps_down `{!PersisterTotal P} r replies :
  ¬ within (r_currentTerm r) replies →
  ∃ r', startElection r replies = Ret r' ∧ r_state r' = Follower ∧
    r_currentTerm r < r_currentTerm r'.
Proof.
  assert (∀ replies r el, ∃ r' el',
    startElection_replies r el replies = Ret (r', el') ∧
    r_currentTerm r ≤ r_currentTerm r' ∧
    (r_currentTerm r < r_currentTerm r' → r_state r' = Follower) ∧
    (r_state r = Follower → r_state r' = Follower) ∧
    (¬ within (r_currentTerm r) replies → r_currentTerm r < r_currentTerm r')) as Hall.
  { clear r replies. intros replies. induction replies as [|o replies IH]; intros r el.
    { exists r, el. split_and!; try done; [lia|]. intros Hn. by destruct Hn; constructor. }
    destruct o as [reply|]; simpl.
    2: { destruct (IH r el) as (r' & el' & ? & ? & ? & ? & Hstep). exists r', el'.
         split_and!; try done. intros Hn. apply Hstep. contradict Hn.
         apply Forall_cons. by split. }
    unfold startElection_reply. destruct (Z.ltb_spec (r_currentTerm r) (rvr_Term reply)) as [Hlt|Hge].
    { destruct (becomeFollower_total r (rvr_Term reply)) as [a Ha]. rewrite Ha. simpl.
      apply becomeFollower_log in Ha as (_ & Hs & Ht & _).
      destruct (IH a el) as (r' & el' & -> & ? & ? & ? & _). exists r', el'.
      split_and!; try done; try lia; auto. }
    assert (∀ a el', r_currentTerm a = r_currentTerm r →
      (r_state r = Follower → r_state a = Follower) →
      ∃ r' el'', startElection_replies a el' replies = Ret (r', el'') ∧
        r_currentTerm r ≤ r_currentTerm r' ∧
        (r_currentTerm r < r_currentTerm r' → r_state r' = Follower) ∧
        (r_state r = Follower → r_state r' = Follower) ∧
        (¬ within (r_currentTerm r) (Some reply :: replies) →
         r_currentTerm r < r_currentTerm r')) as Hgo.
    { intros a el' Ht Hf. destruct (IH a el') as (r' & el'' & ? & ? & ? & ? & Hstep).
      exists r', el''. rewrite Ht in *. split_and!; try done; auto.
      intros Hn. apply Hstep. contradict Hn. apply Forall_cons. split; [|done].
      intros rep [= <-]. lia. }
    destruct (negb _ || negb _) eqn:Hskip; [by apply Hgo|].
    destruct (rvr_VoteGranted reply); [|by apply Hgo].
    apply orb_false_iff in Hskip as [Hcand _].
    apply negb_false_iff, bool_decide_eq_true in Hcand. simpl.
    case_match; simpl; [|by apply Hgo].
    destruct (becomeLeader_Candidate r Hcand) as (a & -> & _ & [= Ht _ _ _ _] & _).
    simpl. apply Hgo; [done|congruence]. }
  intros Hn. unfold startElection.
  destruct (Hall replies r (startElection_begin r)) as (r' & el' & -> & _ & Hf & _ & Hs).
  exists r'. split; [done|]. split; [by apply Hf, Hs|by apply Hs].
Qed.
End election.

Section lone.
Context {Cmd P : Type} `{!Persister P, !PersisterLaws P, !Codec (persistedState Cmd)}.

(** A cluster of one member never elects a leader: the quorum test of
    startElection runs only when a peer's reply arrives, and there is no
    peer. No state of the node, in any execution, is a leader state. *)
Theorem lone_member_never_leads (m : Z) (s : Cluster (Cmd:=Cmd) (P:=P)) h :
  0 ≤ m → reachable [m] s → h ∈ c_hist s → r_state h ≠ Leader.
Proof.
  intros Hm (s0 & Hinit & Hrtc).
  assert (∀ i, i ∈ [m] → 0 ≤ i) as Hids by (intros i; set_solver).
  assert (NoDup [m]) as Hnd by apply NoDup_singleton.
  assert (inv [m] s0) as Hinv by by apply inv_init.
  assert (∀ h, h ∈ c_hist s0 → r_state h ≠ Leader) as H0
    by (destruct Hinit as (_ & _ & _ & -> & _); intros ? []%not_elem_of_nil).
  clear Hinit. revert Hinv H0 h.
  induction Hrtc as [s|s s1 s2 Hstep Hrtc IH]; intros Hinv H0; [done|].
  apply IH; [by eapply inv_step|]. clear IH Hrtc.
  assert (∀ i r r', c_nodes s !! i = Some r → evolves r r' → r_state r' ≠ Leader) as Hev.
  { intros i r r' Hi Hevo Hl. apply (ev_leader _ _ Hevo) in Hl as [Hl _].
    destruct (inv_node _ _ Hinv _ _ Hi) as (_ & _ & _ & _ & _ & Hin).
    by apply (H0 r); [apply Hin|]. }
  destruct Hstep; simpl; try exact H0; intros h [->|Hh]%elem_of_cons; try (by apply H0);
    lazymatch goal with
    | _ : newRaft _ _ _ = _ |- _ => idtac
    | _ => eapply Hev; [done|]
    end.
  - by eapply electionTimeout_evolves.
  - by eapply RequestVote_evolves.
  - exfalso. lazymatch goal with
    | Hp : re_pending e ≡ₚ _, Hn : c_nodes s !! re_node e = _ |- _ =>
        rename Hp into Hpend; rename Hn into Hnode
    end.
    assert (e ∈ c_elections s) as He by (by eapply list_elem_of_lookup_2).
    destruct (inv_election _ _ Hinv e He) as (_ & _ & _ & G & _ & HGs & _).
    assert (peer ∈ peers_of [m] (re_node e)) as Hp.
    { apply HGs, elem_of_app. right. rewrite Hpend. by left. }
    destruct (inv_node _ _ Hinv _ _ Hnode) as (Hmem & _).
    apply list_elem_of_filter in Hp as [Hne Hp].
    apply list_elem_of_singleton in Hmem, Hp. congruence.
  - by eapply AppendEntries_evolves.
  - by eapply appendReply_evolves.
  - by eapply InstallSnapshot_evolves.
  - by eapply snapshotReply_evolves.
  - by eapply Propose_evolves.
  - by eapply Snapshot_evolves.
  - by apply evolves_volatile.
  - by eapply applyNext_evolves.
  - lazymatch goal with
    | Hn : c_nodes s !! i = Some r, Hp : r_persister r = Some p |- _ =>
        rename Hn into Hnode; rename Hp into Hpers
    end.
    destruct (inv_node _ _ Hinv _ _ Hnode) as (_ & _ & _ & Hd & _).
    destruct (newRaft_recovers r p i (r_peers r) Hd Hpers) as (r2 & H3 & _ & _ & Hst & _).
    congruence.
Qed.
End lone.

(** ** Witnesses *)
Module Witness.
Definition demo_replies : list (option RequestVoteReply) :=
  [None; Some (mkRequestVoteReply 3 true)].

Lemma startElection_wins_witness :
  ∃ r', startElection demo_candidate demo_replies = Ret r' ∧ r_state r' = Leader.
Proof.
  destruct (startElection_wins demo_candidate demo_replies) as (r' & Hr & [_ Hl] & _);
    [done| |exists r'; split; [exact Hr|by apply Hl]].
  apply Forall_cons; split; [done|]. apply Forall_singleton. by intros reply [= <-].
Defined.

Lemma startElection_steps_down_witness :
  ∃ r', startElection demo_candidate [Some (mkRequestVoteReply 7 false)] = Ret r' ∧
    r_state r' = Follower.
Proof.
  destruct (startElection_steps_down demo_candidate
    [Some (mkRequestVoteReply 7 false)]) as (r' & Hr & Hs & _);
    [|exists r'; split; [exact Hr|exact Hs]].
  intros [Hw _]%Forall_cons. by specialize (Hw _ eq_refl).
Defined.

Definition lone_boot : Cluster (Cmd:=Z) (P:=MemoryPersister) :=
  mkCluster {[ 4 := freshRaft 4 [] (Some NewMemoryPersister) ]} [] [] [] [].

Lemma lone_member_witness :
  ∃ s h, reachable [4] s ∧ h ∈ c_hist s ∧ r_state h = Candidate ∧ r_state h ≠ Leader.
Proof.
  assert (∃ s h, reachable (Cmd:=Z) (P:=MemoryPersister) [4] s ∧
    h ∈ c_hist s ∧ r_state h = Candidate) as (s & h & Hr & Hh & Hc).
  { eexists _, _. split.
    - exists lone_boot. split.
      + do 4 (split; [done|]). intros i r Hi. simpl in Hi. apply lookup_singleton_Some in Hi as [<- <-].
        split; [by left|]. exists (Some NewMemoryPersister).
        split; [done|by intros p [= <-]].
      + eapply rtc_l; [eapply (step_timeout _ _ 4); vm_compute; reflexivity|].
        eapply rtc_l; [eapply (step_begin_election _ _ 4 _ []); vm_compute; reflexivity|].
        apply rtc_refl.
    - split; [by left|done]. }
  exists s, h. split_and!; [exact Hr|exact Hh|exact Hc|].
  by apply (lone_member_never_leads 4 s).
Defined.
End Witness.
