(* ===== verification/RaftReplication.v ===== *)
(** * Replication converges (01-raft/log_replication.go with raft.go)

    A leader and one follower exchanging replicateToPeer rounds without
    failures: nextIndex backs off to a common entry, and then the follower
    holds the leader's log. *)
From S2P Require Import Prelude Persister RaftNode RaftDemo RaftFacts RaftVotes RaftLog RaftCommit.
Local Open Scope Z_scope.

Section replication.
Context {Cmd P : Type} `{!Persister P, !PersisterTotal P, !Codec (persistedState Cmd)}.
Abbreviation Raft := (Raft Cmd P).
Implicit Type L F : Raft.

(** One replicateToPeer call whose RPC is delivered and answered. *)
Definition replicate_round (p : Z) (LF : Raft * Raft) : outcome (Raft * Raft) :=
  let '(L, F) := LF in
  plan ← replicateToPeer_begin L p;
  match plan with
  | ReplicateEntries args =>
      '(F, reply) ← AppendEntries F args;
      L ← replicateToPeer_reply L p args reply;
      Ret (L, F)
  | _ => Ret (L, F)
  end.

Fixpoint replicate_rounds (n : nat) (p : Z) (LF : Raft * Raft) : outcome (Raft * Raft) :=
  match n with
  | O => Ret LF
  | S n => LF ← replicate_round p LF; replicate_rounds n p LF
  end.

(** An index at which the two logs are known to agree and that neither has
    compacted away. *)
Definition anchor L F (m : Z) : Prop :=
  0 ≤ m ∧ r_lastIncludedIndex F ≤ m ∧ r_lastIncludedIndex L ≤ m ≤ lastIndex L ∧
  (0 < m → termAtLocked F m = termAtLocked L m).

(** Log matching between two nodes: equal terms at an index mean equal
    entries up to it. *)
Definition log_matching L F : Prop :=
  ∀ q, termAtLocked F q = termAtLocked L q → (termAtLocked L q).2 = true →
    ∀ i, r_lastIncludedIndex F < i → r_lastIncludedIndex L < i → i ≤ q →
      entryAt F i = entryAt L i.

(** The follower holds the leader's log after [m], and the leader knows. *)
Definition synced (p m : Z) L0 L F : Prop :=
  (∀ i, m < i ≤ lastIndex L0 → entryAt F i = entryAt L0 i) ∧
  same_log L0 L ∧ r_state L = Leader ∧
  matchOf L p = lastIndex L0 ∧ nextOf L p = lastIndex L0 + 1.

Lemma begin_entries L p m F :
  r_state L = Leader → anchor L F m → m < nextOf L p ≤ lastIndex L + 1 →
  ∃ args, replicateToPeer_begin L p = Ret (ReplicateEntries args) ∧
    ae_Term args = r_currentTerm L ∧ ae_PrevLogIndex args = nextOf L p - 1 ∧
    (0 < nextOf L p - 1 →
      termAtLocked L (nextOf L p - 1) = (ae_PrevLogTerm args, true)) ∧
    zlen (ae_Entries args) = lastIndex L - (nextOf L p - 1) ∧
    ∀ k e, zget (ae_Entries args) k = Some e → entryAt L (nextOf L p + k) = Some e.
Proof.
  intros Hl (Hm & _ & Hlm & _) Hn. unfold replicateToPeer_begin. rewrite Hl.
  pose proof (lastIndex_eq L) as Hlast. rewrite <- Hlast.
  rewrite (proj2 (Z.leb_gt _ _)) by lia.
  set (next := nextOf L p) in *.
  assert (∃ es, (if next <=? lastIndex L
      then slice_from (r_log L) (physicalIndexLocked L next) else Ret []) = Ret es ∧
    zlen es = lastIndex L - (next - 1) ∧
    ∀ k e, zget es k = Some e → entryAt L (next + k) = Some e) as (es & -> & Hes & Hent).
  { unfold physicalIndexLocked. destruct (Z.leb_spec next (lastIndex L)) as [Hle|Hgt].
    - exists (drop (Z.to_nat (next - r_lastIncludedIndex L - 1)) (r_log L)).
      split; [apply slice_from_Ret; split; [lia|done]|].
      split; [rewrite zlen_drop by lia; lia|].
      intros k e Hk. apply zget_Some_bound in Hk as Hb.
      rewrite zget_drop in Hk by lia. unfold entryAt, physicalIndexLocked.
      rewrite <- Hk. f_equal. lia.
    - exists []. split; [done|]. split; [change (0 = lastIndex L - (next - 1)); lia|].
      intros k e Hk%zget_Some_bound. change (zlen (@nil (LogEntry Cmd))) with 0 in Hk. lia. }
  eexists. split; [done|]. simpl. split_and!; try done.
  intros Hp. rewrite (proj2 (Z.leb_le _ _)) by lia.
  pose proof (termAt_ok L (next - 1)) as Hok.
  destruct (termAtLocked L (next - 1)) as [t ok]. simpl in *. f_equal. apply Hok. lia.
Qed.

Lemma AppendEntries_answers F args :
  0 ≤ r_lastIncludedIndex F → r_lastIncludedIndex F ≤ ae_PrevLogIndex args →
  ∃ F' reply, AppendEntries F args = Ret (F', reply).
Proof.
  intros H0 Hle. destruct (AppendEntries F args) as [[F' reply]|] eqn:H; [by eauto|].
  apply AppendEntries_panic_cases in H as (_ & _ & _ & ?); lia.
Qed.

(** The leader's reaction to a success that covers its whole log. *)
Lemma reply_success L p args reply :
  r_state L = Leader → aer_Term reply ≤ r_currentTerm L →
  ae_Term args = r_currentTerm L → aer_Success reply = true →
  ae_PrevLogIndex args + zlen (ae_Entries args) = lastIndex L →
  matchOf L p ≤ lastIndex L →
  ∃ L', replicateToPeer_reply L p args reply = Ret L' ∧
    same_log L L' ∧ r_state L' = Leader ∧
    matchOf L' p = lastIndex L ∧ nextOf L' p = lastIndex L + 1.
Proof.
  intros Hl Ht Ha Hs Hlen Hm. unfold replicateToPeer_reply.
  rewrite (proj2 (Z.ltb_ge _ _)) by lia. rewrite bool_decide_true by done.
  rewrite Ha, Z.eqb_refl, Hs, Hlen. simpl.
  destruct (Z.ltb_spec (matchOf L p) (lastIndex L)) as [Hlt|Hge];
    match goal with |- context [advanceCommitIndexLocked ?r] =>
      destruct (advanceCommit_total r) as [c ->] end;
    eexists; split; [done| |done|]; split_and!; try done;
    unfold matchOf, nextOf in *; simpl; rewrite ?lookup_insert_eq; simpl; lia.
Qed.

Lemma reply_refused L p args reply :
  r_state L = Leader → aer_Term reply ≤ r_currentTerm L →
  ae_Term args = r_currentTerm L → aer_Success reply = false → 1 < nextOf L p →
  replicateToPeer_reply L p args reply =
    Ret (set_nextIndex (<[p := nextOf L p - 1]> (r_nextIndex L)) L).
Proof.
  intros Hl Ht Ha Hs Hn. unfold replicateToPeer_reply.
  rewrite (proj2 (Z.ltb_ge _ _)) by lia. rewrite bool_decide_true by done.
  rewrite Ha, Z.eqb_refl, Hs. simpl. by rewrite (proj2 (Z.ltb_lt _ _)).
Qed.

Definition ready L F (p m : Z) : Prop :=
  r_state L = Leader ∧ r_currentTerm F ≤ r_currentTerm L ∧
  0 ≤ r_lastIncludedIndex F ∧ anchor L F m ∧ log_matching L F ∧
  m < nextOf L p ≤ lastIndex L + 1 ∧ matchOf L p ≤ lastIndex L.

(** A round either synchronises the follower or moves nextIndex one back,
    and never past the anchor. *)
Lemma round_progress L F p m :
  ready L F p m →
  ∃ L' F', replicate_round p (L, F) = Ret (L', F') ∧
    (synced p m L L' F' ∨
     (ready L' F' p m ∧ same_log L L' ∧ nextOf L' p = nextOf L p - 1)).
Proof.
  intros (Hl & Hterm & H0 & Hanc & Hlm & Hn & Hm).
  destruct (begin_entries L p m F Hl Hanc Hn) as (args & Hbeg & Hat & Hprev & Hpt & Hlen & Hent).
  destruct Hanc as (Hm0 & HmF & HmL & Hterms).
  destruct (AppendEntries_answers F args) as (F' & reply & HF); [done|lia|].
  unfold replicate_round. rewrite Hbeg, bind_Ret_l, HF, bind_Ret_l.
  destruct (AppendEntries_meets _ _ _ _ HF) as (HtF & Hrt & Hlii & _ & [_ Hok] & Hsuc & Hfail).
  rewrite Hat, Z.max_r in HtF by lia.
  destruct (aer_Success reply) eqn:Hs.
  - destruct (Hsuc eq_refl) as (_ & Happ & _).
    destruct (AppendEntries_meets _ _ _ _ HF) as (_ & _ & _ & _ & [Hok' _] & _).
    destruct (Hok' Hs) as [_ Hpm].
    destruct (reply_success L p args reply) as (L' & -> & HLlog & HLs & HLm & HLn);
      [done|lia|done|done|lia|done|].
    exists L', F'. split; [done|]. left. split_and!; try done.
    assert (∀ i, m < i ≤ ae_PrevLogIndex args → entryAt F i = entryAt L i) as Hbelow.
    { intros i Hi. apply (Hlm (ae_PrevLogIndex args)); try lia.
      - rewrite Hpm, Hprev, Hpt by lia. done.
      - by rewrite Hprev, Hpt by lia. }
    assert (ae_Entries args = [] → entryAt F' = entryAt F) as Hsame.
    { intros Hnil. unfold appended in Happ. rewrite Hnil in Happ.
      unfold entryAt, physicalIndexLocked. by rewrite Happ, Hlii. }
    intros i Hi. unfold appended in Happ. destruct (ae_Entries args) as [|e0 es] eqn:Hes.
    { rewrite Hsame by done. apply Hbelow.
      change (zlen (@nil (LogEntry Cmd))) with 0 in Hlen. lia. }
    rewrite <- Hes in *. destruct Happ as (_ & _ & Hold & Hnew).
    destruct (decide (i ≤ ae_PrevLogIndex args)); [rewrite Hold by done; apply Hbelow; lia|].
    destruct (zget (ae_Entries args) (i - nextOf L p)) as [e|] eqn:He.
    + apply Hnew in He as He'.
      apply Hent in He. replace (nextOf L p + (i - nextOf L p)) with i in He by lia.
      replace (ae_PrevLogIndex args + 1 + (i - nextOf L p)) with i in He' by lia. congruence.
    + apply zget_None in He. lia.
  - destruct (Hfail eq_refl) as [HFlog _].
    assert (m < ae_PrevLogIndex args) as Hgt.
    { destruct (decide (ae_PrevLogIndex args = m)) as [Heq|]; [|lia].
      exfalso. enough (false = true) by done. apply Hok. split; [lia|].
      intros Hpos. rewrite Heq, Hterms, <- Heq, Hprev, Hpt by lia. done. }
    rewrite (reply_refused L p args reply) by (done || lia).
    eexists _, F'. split; [done|]. right. split; [|split; [done|]];
      [|by unfold nextOf; simpl; rewrite lookup_insert_eq].
    unfold ready, nextOf, matchOf, anchor, log_matching in *. simpl.
    rewrite lookup_insert_eq, Hlii. simpl.
    change (lastIndex (set_nextIndex _ L)) with (lastIndex L).
    split_and!; try done; try lia.
    + intros Hpos. rewrite (termAt_same F F') by done. by apply Hterms.
    + intros q. rewrite (termAt_same F F') by done. intros ?????.
      rewrite (entryAt_same F F') by done. by apply (Hlm q).
Qed.

(** C17: replication converges. Between a leader and a follower of no newer
    term on storage that never fails, whose logs satisfy log matching and
    agree at an index [m] that neither has compacted past, at most
    nextIndex - m answered rounds make the follower hold exactly the
    leader's entries from m+1 to the leader's last index, with the leader
    still leading, its log unchanged, and its matchIndex and nextIndex for
    the follower at the end of its log. *)
Theorem replication_converges p m L F :
  ready L F p m →
  ∃ n L' F', Z.of_nat n ≤ nextOf L p - m ∧
    replicate_rounds n p (L, F) = Ret (L', F') ∧ synced p m L L' F'.
Proof.
  intros Hr. assert (m < nextOf L p) as Hpos by apply Hr.
  remember (Z.to_nat (nextOf L p - m)) as k eqn:Hk. revert L F Hr Hpos Hk.
  induction k as [|k IH]; intros L F Hr Hpos Hk; [lia|].
  destruct (round_progress L F p m Hr) as (L1 & F1 & Hround & [Hs|(Hr1 & Hsame & Hn)]).
  - exists 1%nat, L1, F1. split; [lia|]. split; [|done]. cbn [replicate_rounds]. by rewrite Hround.
  - destruct (IH L1 F1 Hr1) as (n & L2 & F2 & Hle & Hrun & Hent & Hsl & Hst & Hma & Hne);
      [apply Hr1|lia|].
    exists (S n), L2, F2. split; [lia|]. split; [cbn [replicate_rounds]; by rewrite Hround|].
    rewrite (lastIndex_same L L1) in * by done.
    split_and!; try done.
    + intros i Hi. rewrite <- (entryAt_same L L1) by done. by apply Hent.
    + destruct Hsame as (? & ? & ?), Hsl as (? & ? & ?). split_and!; congruence.
Qed.
End replication.

(** ** Witnesses *)
Module Witness.
Definition lagging : DemoRaft :=
  mkRaft 2 [0; 1] None Follower 1 (-1) [mkLogEntry 1 10] 0 0 [] 0 0 None ∅ ∅ false.

Lemma lagging_ready : ready demo_leader lagging 2 0.
Proof.
  split_and!; try (vm_compute; done).
  intros q Ht Hok i HiF HiL Hle.
  assert (0 ≤ q ≤ 1) as Hq by (apply (termAt_ok lagging); by rewrite Ht).
  assert (i = 1) as -> by (simpl in HiF; lia). done.
Qed.

Lemma replication_converges_witness :
  ∃ n L' F', replicate_rounds n 2 (demo_leader, lagging) = Ret (L', F') ∧
    entryAt F' 3 = Some (mkLogEntry 2 12) ∧ matchOf L' 2 = 3.
Proof.
  destruct (replication_converges 2 0 demo_leader lagging lagging_ready)
    as (n & L' & F' & _ & Hrun & Hent & _ & _ & Hm & _).
  exists n, L', F'. split_and!; [exact Hrun| |exact Hm].
  rewrite Hent; [done|by vm_compute].
Defined.
End Witness.
