(* ===== verification/RaftDivergence.v ===== *)
(** * Executions of a cluster by evaluation, and one that diverges

    A scheduler that runs a list of actions on a cluster, sound for the step
    relation of RaftCluster.v; and, with it, the consequence of
    RaftPositions.stale_append_truncates in a whole cluster. The messages that
    pass each other there come from two replicateToPeer calls of one leader to
    one peer that overlap; replicate and RunHeartbeats start the second only when
    the first has returned, so it takes a transport that delivers a request
    after its call has failed, or again. transport.go names delay and
    duplication as what a transport may do; the two transports of the repository
    do neither to a running leader. *)
From S2P Require Import Prelude Persister RaftNode RaftFacts RaftDurable RaftVotes RaftDemo RaftCluster.
Local Open Scope Z_scope.

#[export] Instance RequestVoteArgs_eq_dec : EqDecision RequestVoteArgs.
Proof. solve_decision. Defined.

(** Take one occurrence out of a list. *)
Fixpoint remove_one (x : Z) (l : list Z) : option (list Z) :=
  match l with
  | [] => None
  | y :: l => if x =? y then Some l else cons y <$> remove_one x l
  end.

Lemma remove_one_Some x l k : remove_one x l = Some k → l ≡ₚ x :: k.
Proof.
  revert k. induction l as [|y l IH]; intros k; simpl; [done|].
  destruct (Z.eqb_spec x y) as [->|]; [by intros [= ->]|].
  intros (k' & Hk & ->)%fmap_Some. rewrite (IH k') by done. apply Permutation_swap.
Qed.

Section exec.
Context {Cmd P : Type} `{!Persister P, !PersisterLaws P, !Codec (persistedState Cmd)}.
Abbreviation Cluster := (Cluster (Cmd:=Cmd) (P:=P)).
Context (accepts : Raft Cmd P → AppendEntriesArgs Cmd → Prop)
  {Hacc : ∀ r args, Decision (accepts r args)}.
Implicit Type s : Cluster.

(** Who acts; [n] picks a message by its position in the network. *)
Inductive Action :=
| ATimeout (i : Z)
| ABeginElection
| ADeliver (n : nat)                  (* the addressee handles a request *)
| AVoteReply (k n : nat)
| AReply (n : nat)                    (* the sender handles a reply *)
| AReplicate (i peer : Z)
| ASendSnapshot (i peer : Z)
| APropose (i : Z) (command : Cmd)
| AApply (i : Z).

Definition to_option {A} (m : outcome A) : option A :=
  match m with Ret a => Some a | Panic => None end.

Definition perform s (a : Action) : option Cluster :=
  match a with
  | ATimeout i =>
      r ← c_nodes s !! i;
      '(r', b) ← to_option (electionTimeout r);
      Some (set_starting ((if b : bool then [i] else []) ++ c_starting s) (update s i r' []))
  | ABeginElection =>
      match c_starting s with
      | i :: rest =>
          r ← c_nodes s !! i;
          Some (set_starting rest
            (set_elections (mkRunning i (startElection_begin r) (r_peers r) :: c_elections s)
              (send (map (λ p, MVoteReq p (el_args (startElection_begin r))) (r_peers r)) s)))
      | [] => None
      end
  | ADeliver n =>
      msg ← c_net s !! n;
      match msg with
      | MVoteReq i args =>
          r ← c_nodes s !! i;
          '(r', reply) ← to_option (RequestVote r args);
          Some (update s i r' [MVoteRep i args reply])
      | MAppendReq i args =>
          r ← c_nodes s !! i;
          if decide (accepts r args) then
            '(r', reply) ← to_option (AppendEntries r args);
            Some (update s i r' [MAppendRep i args reply])
          else None
      | MSnapReq i args =>
          r ← c_nodes s !! i;
          '(r', reply) ← to_option (InstallSnapshot r args);
          Some (update s i r' [MSnapRep i args reply])
      | _ => None
      end
  | AVoteReply k n =>
      e ← c_elections s !! k;
      r ← c_nodes s !! re_node e;
      msg ← c_net s !! n;
      match msg with
      | MVoteRep peer args reply =>
          if decide (args = el_args (re_el e)) then
            pending ← remove_one peer (re_pending e);
            '(r', el') ← to_option (startElection_reply r (re_el e) reply);
            Some (set_elections (<[k := mkRunning (re_node e) el' pending]> (c_elections s))
                    (update s (re_node e) r' []))
          else None
      | _ => None
      end
  | AReply n =>
      msg ← c_net s !! n;
      match msg with
      | MAppendRep peer args reply =>
          r ← c_nodes s !! ae_LeaderID args;
          r' ← to_option (replicateToPeer_reply r peer args reply);
          Some (update s (ae_LeaderID args) r' [])
      | MSnapRep peer args reply =>
          r ← c_nodes s !! is_LeaderID args;
          r' ← to_option (sendInstallSnapshot_reply r peer args reply);
          Some (update s (is_LeaderID args) r' [])
      | _ => None
      end
  | AReplicate i peer =>
      r ← c_nodes s !! i;
      plan ← to_option (replicateToPeer_begin r peer);
      match plan with
      | ReplicateEntries args => Some (send [MAppendReq peer args] s)
      | _ => None
      end
  | ASendSnapshot i peer =>
      r ← c_nodes s !! i;
      args ← sendInstallSnapshot_begin r;
      Some (send [MSnapReq peer args] s)
  | APropose i command =>
      r ← c_nodes s !! i;
      '(r', _) ← to_option (Propose r command);
      Some (update s i r' [])
  | AApply i =>
      r ← c_nodes s !! i;
      '(r', _) ← to_option (applyPending_next r);
      Some (update s i r' [])
  end.

Lemma to_option_Some {A} (m : outcome A) a : to_option m = Some a → m = Ret a.
Proof. by destruct m; intros [= ->]. Qed.

(** Invert the option binds of [perform]. *)
Ltac inv_some :=
  repeat match goal with
  | H : _ ≫= _ = Some _ |- _ =>
      let x := fresh "x" in let Hx := fresh "Hx" in
      apply bind_Some in H as (x & Hx & H)
  | H : to_option _ = Some _ |- _ => apply to_option_Some in H
  | p : (_ * _)%type |- _ => destruct p
  | H : match ?x with _ => _ end = Some _ |- _ =>
      let E := fresh "E" in destruct x eqn:E; try discriminate H
  end; simplify_eq.

Lemma perform_sound s a s' : perform s a = Some s' → cluster_step accepts s s'.
Proof.
  destruct a; cbn [perform]; intros H; inv_some;
    try match goal with
    | Hn : c_net _ !! _ = Some _ |- _ => apply list_elem_of_lookup_2 in Hn
    end;
    try (match goal with
         | Hl : remove_one _ _ = Some _ |- _ => apply remove_one_Some in Hl
         end).
  - by eapply step_timeout.
  - eapply step_begin_election; [done|]. by rewrite E.
  - by eapply step_request_vote.
  - by eapply step_append_entries.
  - by eapply step_install_snapshot.
  - by eapply step_vote_reply.
  - by eapply step_append_reply.
  - by eapply step_snapshot_reply.
  - by eapply step_replicate.
  - by eapply step_send_snapshot.
  - by eapply step_propose.
  - by eapply step_apply.
Qed.

Definition perform_all s (acts : list Action) : option Cluster :=
  foldl (λ os a, s ← os; perform s a) (Some s) acts.

Lemma perform_all_sound s acts s' :
  perform_all s acts = Some s' → rtc (cluster_step accepts) s s'.
Proof.
  unfold perform_all.
  assert (∀ acts os, foldl (λ os a, s ← os; perform s a) os acts = Some s' →
    ∃ s, os = Some s ∧ rtc (cluster_step accepts) s s') as Hall.
  { clear acts s. intros acts. induction acts as [|a acts IH]; intros os H.
    - by exists s'.
    - destruct (IH _ H) as (s1 & (s & -> & Ha)%bind_Some & Hr).
      exists s. split; [done|]. eapply rtc_l; [by eapply perform_sound|done]. }
  intros H. by destruct (Hall _ _ H) as (? & [= <-] & ?).
Qed.
End exec.

#[export] Instance any_order_dec {Cmd P} (r : Raft Cmd P) args :
  Decision (any_order r args).
Proof. left. done. Defined.

Definition divergence_boot : Cluster (Cmd:=Z) (P:=MemoryPersister) :=
  mkCluster
    (list_to_map (map (λ i, (i, freshRaft i (peers_of Demo.members i) None)) Demo.members))
    [] [] [] [].

Lemma divergence_boot_init : cluster_init Demo.members divergence_boot.
Proof.
  do 4 (split; [done|]). intros i r Hi. apply elem_of_list_to_map_2 in Hi. simpl in Hi.
  repeat (apply elem_of_cons in Hi as [[= -> ->]|Hi];
    [split; [unfold Demo.members; set_solver|]; by exists None|]).
  by apply not_elem_of_nil in Hi.
Qed.

Definition divergence_actions : list (Action (Cmd:=Z)) :=
  [ (* node 0 wins term 1 with node 1's vote *)
    ATimeout 0; ABeginElection; ADeliver 0; AVoteReply 0 0;
    (* two proposals, replicated to node 1 by two overlapping calls *)
    APropose 0 10; AReplicate 0 1; APropose 0 11; AReplicate 0 1;
    (* the longer call is handled first: index 2 commits and is applied *)
    ADeliver 0; AReply 0; AApply 0; AApply 0;
    (* the shorter call arrives: node 1 drops entry 2 *)
    ADeliver 2;
    (* node 1 wins term 2 with node 2's vote and commits another entry 2 *)
    ATimeout 1; ABeginElection; ADeliver 1; AVoteReply 0 0; APropose 1 20;
    AReplicate 1 2; ADeliver 0; AReply 0; AReplicate 1 2; ADeliver 0; AReply 0;
    AApply 1; AApply 1 ].

(** What two nodes hold at an index they have both applied. *)
Definition applied_at (i : Z) (r : DemoRaft) : option Z :=
  if i <=? r_lastApplied r then le_Command <$> entryAt r i else None.

(** C18: reordering two AppendEntries breaks state machine safety. There is a
    reachable state of a three-node cluster - no crash, no lost message - in
    which nodes 0 and 1 have both applied index 2 and hold different commands
    there. (The reordered messages are of one leader to one peer: its loop sends
    the second when the call of the first has returned, so the first is one the
    network delivers late.) *)
Theorem applied_entries_diverge :
  ∃ s r0 r1, reachable Demo.members s ∧
    c_nodes s !! 0 = Some r0 ∧ c_nodes s !! 1 = Some r1 ∧
    applied_at 2 r0 = Some 11 ∧ applied_at 2 r1 = Some 20.
Proof.
  destruct (perform_all any_order divergence_boot divergence_actions) as [s|] eqn:Hs;
    [|by vm_compute in Hs].
  assert ((s0 ← perform_all any_order divergence_boot divergence_actions;
           r0 ← c_nodes s0 !! 0; applied_at 2 r0) = Some 11) as H0 by (vm_compute; reflexivity).
  assert ((s0 ← perform_all any_order divergence_boot divergence_actions;
           r1 ← c_nodes s0 !! 1; applied_at 2 r1) = Some 20) as H1 by (vm_compute; reflexivity).
  rewrite Hs in H0, H1. simpl in H0, H1.
  apply bind_Some in H0 as (r0 & Hr0 & H0). apply bind_Some in H1 as (r1 & Hr1 & H1).
  exists s, r0, r1. split; [|split_and!; assumption].
  exists divergence_boot. split; [apply divergence_boot_init|].
  exact (perform_all_sound _ _ _ _ Hs).
Qed.
