(* ===== verification/RaftGhost.v ===== *)
(** * Whole logs: what a node's log was before compaction

    A node holds only the entries after its snapshot position. The proofs
    about clusters speak of its whole log, with the entry of absolute index
    [i] (from 1) at position [i]: how it relates to the node ([full]), what
    makes it a log of the cluster ([sound]: every entry came from the leader
    of its term), and what each handler does to it. *)
From S2P Require Import Prelude Persister RaftNode RaftFacts RaftDurable RaftVotes RaftLog.
Local Open Scope Z_scope.

(** ** Initial segments by absolute index *)

Section upto.
Context {A : Type}.
Implicit Types (l k : list A) (i n : Z).

Definition upto n l : list A := take (Z.to_nat n) l.

Lemma zlen_upto n l : 0 ≤ n ≤ zlen l → zlen (upto n l) = n.
Proof. apply zlen_take. Qed.

Lemma upto_all n l : zlen l ≤ n → upto n l = l.
Proof. unfold zlen. intros ?. apply take_ge. lia. Qed.

Lemma upto_0 n l : n ≤ 0 → upto n l = [].
Proof. intros ?. unfold upto. by replace (Z.to_nat n) with 0%nat by lia. Qed.

Lemma upto_upto n i l : n ≤ i → upto n (upto i l) = upto n l.
Proof. intros ?. unfold upto. rewrite take_take. f_equal. lia. Qed.

Lemma upto_prefix n l : upto n l `prefix_of` l.
Proof. apply prefix_take. Qed.

Lemma upto_prefix_le n i l : n ≤ i → upto n l `prefix_of` upto i l.
Proof. intros ?. rewrite <- (upto_upto n i) by done. apply upto_prefix. Qed.

Lemma prefix_upto l k : l `prefix_of` k → l = upto (zlen l) k.
Proof. intros [k' ->]. unfold upto, zlen. by rewrite Nat2Z.id, take_app_length. Qed.

Lemma prefix_zlen l k : l `prefix_of` k → zlen l ≤ zlen k.
Proof. intros [k' ->]. rewrite zlen_app. zlia. Qed.

Lemma prefix_same_zlen l k : l `prefix_of` k → zlen k ≤ zlen l → l = k.
Proof. intros H ?. rewrite (prefix_upto _ _ H). by apply upto_all. Qed.

(** Two initial segments of one list are ordered by length. *)
Lemma prefix_shorter l k m :
  l `prefix_of` m → k `prefix_of` m → zlen l ≤ zlen k → l `prefix_of` k.
Proof.
  intros Hl Hk Hle. rewrite (prefix_upto _ _ Hl), (prefix_upto _ _ Hk).
  by apply upto_prefix_le.
Qed.

Lemma prefix_upto_le l k n : l `prefix_of` k → zlen l ≤ n → l `prefix_of` upto n k.
Proof.
  intros H Hn. rewrite (prefix_upto _ _ H). by apply upto_prefix_le.
Qed.

Lemma upto_of_prefix l k n : l `prefix_of` k → n ≤ zlen l → upto n k = upto n l.
Proof. intros H Hn. rewrite (prefix_upto _ _ H). by rewrite upto_upto. Qed.

Lemma zget_upto l n i : i < n → zget (upto n l) i = zget l i.
Proof.
  intros. destruct (decide (0 ≤ n)); [by apply zget_take|].
  unfold zget. by rewrite !bool_decide_false by lia.
Qed.

Lemma zget_prefix l k i : l `prefix_of` k → i < zlen l → zget l i = zget k i.
Proof. intros H Hi. rewrite (prefix_upto _ _ H). by apply zget_upto. Qed.

(** Lists are equal up to [n] when their elements are. *)
Lemma upto_ext n l k :
  n ≤ zlen l → n ≤ zlen k → (∀ i, 0 ≤ i < n → zget l i = zget k i) →
  upto n l = upto n k.
Proof.
  intros Hl Hk H. apply list_eq. intros j. unfold upto.
  destruct (decide (j < Z.to_nat n)%nat) as [Hj|Hj].
  - rewrite !lookup_take_lt by done. specialize (H (Z.of_nat j) ltac:(lia)).
    unfold zget in H. by rewrite !bool_decide_true, Nat2Z.id in H by lia.
  - by rewrite !lookup_take_ge by lia.
Qed.
End upto.

Section whole.
Context {Cmd P : Type} `{!Persister P, !Codec (persistedState Cmd)}.
Abbreviation Raft := (Raft Cmd P).
Abbreviation Log := (list (LogEntry Cmd)).
Implicit Type r : Raft.
Implicit Types G L M : Log.

(** The entry at an absolute index, and its term (0 before the log). *)
Definition entryOf G (i : Z) : option (LogEntry Cmd) := zget G (i - 1).
Definition termOf G (i : Z) : Z :=
  match entryOf G i with Some e => le_Term e | None => 0 end.

Lemma termOf_entry G i e : entryOf G i = Some e → termOf G i = le_Term e.
Proof. unfold termOf. by intros ->. Qed.

Lemma entryOf_is_Some G i : is_Some (entryOf G i) ↔ 1 ≤ i ≤ zlen G.
Proof. unfold entryOf. rewrite zget_is_Some. lia. Qed.

Lemma entryOf_prefix G L i : G `prefix_of` L → i ≤ zlen G → entryOf G i = entryOf L i.
Proof. intros. apply zget_prefix; [done|lia]. Qed.

Lemma termOf_prefix G L i : G `prefix_of` L → i ≤ zlen G → termOf G i = termOf L i.
Proof. intros. unfold termOf. by rewrite (entryOf_prefix G L). Qed.

Lemma entryOf_upto G n i : i ≤ n → entryOf (upto n G) i = entryOf G i.
Proof. intros. apply zget_upto. lia. Qed.

Lemma termOf_upto G n i : i ≤ n → termOf (upto n G) i = termOf G i.
Proof. intros. unfold termOf. by rewrite entryOf_upto. Qed.

Lemma entryOf_app_last G e : entryOf (G ++ [e]) (zlen G + 1) = Some e.
Proof.
  unfold entryOf. rewrite zget_app_r by lia. by replace (_ - _ - _) with 0 by lia.
Qed.

Lemma termOf_app_last G e : termOf (G ++ [e]) (zlen G + 1) = le_Term e.
Proof. by apply termOf_entry, entryOf_app_last. Qed.

(** Logs can be compared: their encodings can. *)
#[global] Instance log_prefix_dec G L : Decision (G `prefix_of` L).
Proof.
  assert (EqDecision (LogEntry Cmd)) as Hdec; [|apply _].
  intros e1 e2. set (st e := mkPersistedState (Cmd:=Cmd) 0 0 [e] 0 0).
  destruct (List.list_eq_dec Byte.byte_eq_dec (gob_encode (st e1)) (gob_encode (st e2))) as [He|Hne].
  - left. assert (Some (st e1) = Some (st e2)) as [= ?] by (rewrite <- !gob_round_trip; by rewrite He).
    done.
  - right. intros ->. by destruct Hne.
Qed.

(** ** The whole log of a node *)

Record full r G : Prop := {
  full_lii : 0 ≤ r_lastIncludedIndex r;
  full_last : lastIndex r = zlen G;
  full_lit : r_lastIncludedTerm r = termOf G (r_lastIncludedIndex r);
  full_entry i : r_lastIncludedIndex r < i → entryAt r i = entryOf G i
}.

Lemma full_range r G : full r G → r_lastIncludedIndex r ≤ zlen G.
Proof. intros [_ <- _ _]. rewrite lastIndex_eq. zlia. Qed.

Lemma full_term r G i :
  full r G → r_lastIncludedIndex r ≤ i ≤ zlen G → termAtLocked r i = (termOf G i, true).
Proof.
  intros HG Hi. destruct (decide (i = r_lastIncludedIndex r)) as [->|Hne].
  - rewrite termAt_lii. by rewrite (full_lit _ _ HG).
  - rewrite termAt_entry by lia. rewrite (full_entry _ _ HG) by lia. unfold termOf.
    destruct (entryOf G i) eqn:He; [done|].
    pose proof (full_lii _ _ HG). apply eq_None_not_Some in He.
    destruct He. apply entryOf_is_Some. lia.
Qed.

Lemma full_term_inv r G i t :
  full r G → termAtLocked r i = (t, true) →
  r_lastIncludedIndex r ≤ i ≤ zlen G ∧ t = termOf G i.
Proof.
  intros HG Ht. assert (r_lastIncludedIndex r ≤ i ≤ zlen G) as Hb.
  { rewrite <- (full_last _ _ HG). apply termAt_ok. by rewrite Ht. }
  split; [done|]. rewrite (full_term r G) in Ht by done. congruence.
Qed.

Lemma full_lastTerm r G : full r G → lastTerm r = termOf G (zlen G).
Proof.
  intros HG. pose proof (full_range _ _ HG). pose proof (lastTerm_eq r) as H1.
  rewrite (full_last _ _ HG), (full_term r G) in H1 by done. congruence.
Qed.

Lemma full_same r r' G : full r G → same_log r r' → full r' G.
Proof.
  intros HG Hs. assert (Hs' := Hs). destruct Hs as (_ & Hi & Ht). split.
  - rewrite Hi. apply HG.
  - rewrite (lastIndex_same r r') by done. apply HG.
  - rewrite Hi, Ht. apply HG.
  - intros i. rewrite Hi, (entryAt_same r r') by done. apply HG.
Qed.

(** ** The logs of a cluster: every entry came from the leader of its term *)

(** [Ld] gives the longest log of each term's leader. *)
Implicit Type Ld : gmap Z Log.

Definition sound Ld G : Prop :=
  ∀ i, 1 ≤ i ≤ zlen G →
    ∃ L, Ld !! termOf G i = Some L ∧ upto i G `prefix_of` L.

Lemma sound_nil Ld : sound Ld [].
Proof. intros i. rewrite zlen_nil. lia. Qed.

Lemma sound_prefix Ld G M : sound Ld G → M `prefix_of` G → sound Ld M.
Proof.
  intros HG HM i Hi. pose proof (prefix_zlen _ _ HM).
  destruct (HG i) as (L & HL & Hp); [lia|]. exists L.
  rewrite (termOf_prefix M G), <- (upto_of_prefix M G) by (done || lia). done.
Qed.

(** [Ld'] knows at least as much. *)
Definition extends Ld Ld' : Prop :=
  ∀ t L, Ld !! t = Some L → ∃ L', Ld' !! t = Some L' ∧ L `prefix_of` L'.

#[global] Instance extends_preorder : PreOrder extends.
Proof.
  split; [by intros Ld t L HL; exists L|].
  intros Ld1 Ld2 Ld3 H1 H2 t L (L' & HL' & Hp)%H1.
  destruct (H2 t L' HL') as (L'' & ? & ?). exists L''. split; [done|by transitivity L'].
Qed.

Lemma sound_extends Ld Ld' G : extends Ld Ld' → sound Ld G → sound Ld' G.
Proof.
  intros He HG i Hi. destruct (HG i Hi) as (L & HL & Hp).
  destruct (He _ _ HL) as (L' & HL' & Hp'). exists L'. split; [done|by transitivity L].
Qed.

(** Log matching: equal terms at an index mean equal logs up to it. *)
Lemma sound_match Ld G1 G2 i :
  sound Ld G1 → sound Ld G2 → i ≤ zlen G1 → i ≤ zlen G2 →
  (1 ≤ i → termOf G1 i = termOf G2 i) → upto i G1 = upto i G2.
Proof.
  intros H1 H2 L1 L2 Ht. destruct (decide (1 ≤ i)) as [Hi|Hi]; [|by rewrite !upto_0 by lia].
  destruct (H1 i) as (L & HL & Hp1); [lia|]. destruct (H2 i) as (L' & HL' & Hp2); [lia|].
  rewrite Ht in HL by done. simplify_eq.
  apply (prefix_same_zlen _ _ (prefix_shorter _ _ _ Hp1 Hp2 ltac:(rewrite !zlen_upto; lia))).
  rewrite !zlen_upto; lia.
Qed.

(** A sound log is determined by its last index and last term. *)
Lemma sound_determined Ld G1 G2 :
  sound Ld G1 → sound Ld G2 → zlen G1 = zlen G2 →
  termOf G1 (zlen G1) = termOf G2 (zlen G2) → G1 = G2.
Proof.
  intros H1 H2 Hl Ht. rewrite <- (upto_all (zlen G1) G1), <- (upto_all (zlen G2) G2) by lia.
  rewrite <- Hl. apply (sound_match Ld); try done; [lia|]. intros _. by rewrite Ht, Hl.
Qed.

Record ghost Ld r G : Prop := {
  ghost_full : full r G;
  ghost_sound : sound Ld G
}.

Lemma ghost_unique Ld r G1 G2 : ghost Ld r G1 → ghost Ld r G2 → G1 = G2.
Proof.
  intros [F1 S1] [F2 S2]. apply (sound_determined Ld); [done|done|..].
  - by rewrite <- (full_last _ _ F1), <- (full_last _ _ F2).
  - by rewrite <- (full_lastTerm _ _ F1), <- (full_lastTerm _ _ F2).
Qed.

Lemma ghost_extends Ld Ld' r G : extends Ld Ld' → ghost Ld r G → ghost Ld' r G.
Proof. intros He [F S]. split; [done|by eapply sound_extends]. Qed.

(** The record of leaders after a node's step: a leader's log is its term's. *)
Definition record_leader Ld r G : gmap Z Log :=
  match r_state r with
  | Leader => <[r_currentTerm r := G]> Ld
  | _ => Ld
  end.

Lemma record_keeps Ld r G :
  (r_state r = Leader → Ld !! r_currentTerm r = Some G) → record_leader Ld r G = Ld.
Proof.
  unfold record_leader. intros H. destruct (r_state r); try done. by apply insert_id, H.
Qed.
End whole.

(** ** What the handlers do to whole logs *)

Section handlers.
Context {Cmd P : Type} `{!Persister P, !Codec (persistedState Cmd)}.
Abbreviation Raft := (Raft Cmd P).
Abbreviation Log := (list (LogEntry Cmd)).
Implicit Type r : Raft.
Implicit Types G L M : Log.
Implicit Type Ld : gmap Z Log.

#[local] Instance same_log_preorder : PreOrder (same_log (Cmd:=Cmd) (P:=P)).
Proof.
  split; [done|]. intros r1 r2 r3 (?&?&?) (?&?&?). split_and!; congruence.
Qed.

(** The log, the commit and apply positions and the leader's view of its
    peers are left alone. *)
Definition quiet r r' : Prop :=
  same_log r r' ∧ r_commitIndex r' = r_commitIndex r ∧
  r_lastApplied r' = r_lastApplied r ∧
  r_nextIndex r' = r_nextIndex r ∧ r_matchIndex r' = r_matchIndex r.

#[local] Instance quiet_preorder : PreOrder quiet.
Proof.
  split; [by intros r; split_and!|].
  intros r1 r2 r3 (?&?&?&?&?) (?&?&?&?&?). split_and!; [by transitivity r2|congruence..].
Qed.

Lemma becomeFollower_quiet r t r' : becomeFollowerLocked r t = Ret r' → quiet r r'.
Proof. intros [p ->]%becomeFollower_inv. by destruct (_ <? _). Qed.

(** Close [quiet r r'] through role changes and saves. *)
Ltac quiet_done :=
  repeat match goal with
  | H : becomeFollowerLocked ?r _ = Ret ?a |- quiet ?r _ =>
      apply becomeFollower_quiet in H; transitivity a; [exact H|clear H]
  end; saved; done.

Lemma electionTimeout_quiet r r' b : electionTimeout r = Ret (r', b) → quiet r r'.
Proof. unfold electionTimeout, becomeCandidateLocked. intros H. handler; quiet_done. Qed.

Lemma RequestVote_quiet r args r' reply :
  RequestVote r args = Ret (r', reply) → quiet r r'.
Proof. unfold RequestVote. intros H. handler; quiet_done. Qed.

Lemma applyNext_same r r' m :
  applyPending_next r = Ret (r', m) → r' = set_lastApplied (r_lastApplied r') r.
Proof.
  unfold applyPending_next. intros H.
  assert (r = set_lastApplied (r_lastApplied r) r) as Hr by by destruct r.
  handler; done.
Qed.

(** A candidate that has just won: log and positions as they were, every
    peer's nextIndex at most one past the log, every matchIndex 0. *)
Record just_won r r' : Prop := {
  won_state : r_state r = Candidate;
  won_id : r_id r' = r_id r;
  won_peers : r_peers r' = r_peers r;
  won_leader : r_state r' = Leader;
  won_kept : persistedState_of r' = persistedState_of r;
  won_commit : r_commitIndex r' = r_commitIndex r;
  won_applied : r_lastApplied r' = r_lastApplied r;
  won_next p : nextOf r' p ≤ Z.max 0 (lastIndex r + 1);
  won_match p : matchOf r' p = 0
}.

Lemma foldl_insert_default (v : Z) (l : list Z) p :
  default 0 (foldl (λ m q, <[q := v]> m) (∅ : gmap Z Z) l !! p) = v ∨
  default 0 (foldl (λ m q, <[q := v]> m) (∅ : gmap Z Z) l !! p) = 0.
Proof.
  assert (∀ m : gmap Z Z, default 0 (m !! p) = v ∨ default 0 (m !! p) = 0 →
    default 0 (foldl (λ m q, <[q := v]> m) m l !! p) = v ∨
    default 0 (foldl (λ m q, <[q := v]> m) m l !! p) = 0) as Hall.
  { induction l as [|q l IH]; intros m Hm; [done|]. simpl. apply IH.
    destruct (decide (q = p)) as [->|]; [rewrite lookup_insert_eq; by left|].
    by rewrite lookup_insert_ne. }
  apply Hall. right. by rewrite lookup_empty.
Qed.

Lemma becomeLeader_won r r' e :
  becomeLeaderLocked r = Ret (r', e) → r_state r = Candidate → just_won r r'.
Proof.
  unfold becomeLeaderLocked. intros H Hc. rewrite Hc in H.
  change (lastLogInfoLocked (set_state Leader r)) with (lastLogInfoLocked r) in H.
  rewrite lastLogInfo_eq in H. inv_ret. split; try done; intros p.
  - unfold nextOf. simpl. destruct (foldl_insert_default (lastIndex r + 1) (r_peers r) p); lia.
  - unfold matchOf. simpl. destruct (foldl_insert_default 0 (r_peers r) p); lia.
Qed.

(** One vote reply: the candidate wins, or nothing that matters to logs
    changes. *)
Lemma voteReply_view r el reply r' el' :
  startElection_reply r el reply = Ret (r', el') →
  (evolves r r' ∧ quiet r r') ∨
  (just_won r r' ∧ rvr_VoteGranted reply = true ∧
   r_currentTerm r = rv_Term (el_args el) ∧ el_majority el ≤ el_votes el + 1).
Proof.
  unfold startElection_reply. intros H.
  destruct (Z.ltb_spec (r_currentTerm r) (rvr_Term reply)); inv_ret.
  { left. split; [by eapply becomeFollower_evolves|by eapply becomeFollower_quiet]. }
  assert (evolves r r ∧ quiet r r) as Hsame by (split; reflexivity).
  destruct (bool_decide (r_state r = Candidate)) eqn:Hc; simpl in H; [|left; by inv_ret].
  apply bool_decide_eq_true in Hc.
  destruct (Z.eqb_spec (r_currentTerm r) (rv_Term (el_args el))); simpl in H;
    [|left; by inv_ret].
  destruct (rvr_VoteGranted reply) eqn:Hg; simpl in H; [|left; by inv_ret].
  destruct (Z.leb_spec (el_majority el) (el_votes el + 1)); inv_ret; [|by left].
  right. split_and!; [by eapply becomeLeader_won|done|done|done].
Qed.

(** Only a follower comes out of a handler that took the message. *)
Lemma AppendEntries_role r args r' reply :
  AppendEntries r args = Ret (r', reply) → r_state r' = Follower ∨ r' = r.
Proof.
  unfold AppendEntries. intros H.
  destruct (Z.ltb_spec (ae_Term args) (r_currentTerm r)); [by inv_ret; right|left].
  apply bind_Ret_inv in H as (a & (_ & Hs & _)%becomeFollower_log & H).
  handler; saved; try done;
    repeat match goal with
    | |- context [if ?b then _ else _] => destruct b
    | |- context [let '(_, _) := ?x in _] => destruct x
    end; done.
Qed.

Lemma InstallSnapshot_role r args r' reply :
  InstallSnapshot r args = Ret (r', reply) → r_state r' = Follower ∨ r' = r.
Proof.
  unfold InstallSnapshot. intros H.
  destruct (Z.ltb_spec (is_Term args) (r_currentTerm r)); [by inv_ret; right|left].
  apply bind_Ret_inv in H as (a & (_ & Hs & _)%becomeFollower_log & H).
  handler; saved; done.
Qed.

Lemma persisted_same_log r r' :
  persistedState_of r' = persistedState_of r → same_log r r'.
Proof. intros [= _ _ ? ? ?]. done. Qed.

(** A leader has heard that peer [p] holds its log up to [m]. *)
Definition learned r (p m : Z) r' : Prop :=
  r_state r = Leader ∧
  ∃ nx mx, let r1 := set_nextIndex nx (set_matchIndex mx r) in
    advanceCommitIndexLocked r1 = Ret r' ∧
    (∀ q, matchOf r1 q = matchOf r q ∨ (q = p ∧ matchOf r1 q = m)) ∧
    (∀ q, nextOf r1 q ≤ Z.max (nextOf r q) (m + 1)).

(** A leader has moved some nextIndex back. *)
Definition backed_off r r' : Prop :=
  r_state r = Leader ∧ ∃ nx, r' = set_nextIndex nx r ∧ ∀ q, nextOf r' q ≤ nextOf r q.

Lemma nextOf_insert r p v q :
  nextOf (set_nextIndex (<[p := v]> (r_nextIndex r)) r) q =
  if decide (q = p) then v else nextOf r q.
Proof.
  unfold nextOf. simpl. destruct (decide (q = p)) as [->|Hq].
  - by rewrite lookup_insert_eq.
  - by rewrite lookup_insert_ne.
Qed.

Lemma matchOf_insert r p m q :
  matchOf (set_matchIndex (<[p := m]> (r_matchIndex r)) r) q = matchOf r q ∨
  (q = p ∧ matchOf (set_matchIndex (<[p := m]> (r_matchIndex r)) r) q = m).
Proof.
  unfold matchOf. simpl. destruct (decide (q = p)) as [->|Hq].
  - right. split; [done|]. by rewrite lookup_insert_eq.
  - left. by rewrite lookup_insert_ne.
Qed.

(** The two assignments of a reply, as one [learned]. *)
Lemma learned_intro r p m (b1 b2 : bool) r' :
  r_state r = Leader →
  advanceCommitIndexLocked
    (let r := if b1 then set_matchIndex (<[p := m]> (r_matchIndex r)) r else r in
     if b2 then set_nextIndex (<[p := m + 1]> (r_nextIndex r)) r else r) = Ret r' →
  learned r p m r'.
Proof.
  intros Hl H. split; [done|].
  exists (if b2 then <[p := m + 1]> (r_nextIndex r) else r_nextIndex r),
    (if b1 then <[p := m]> (r_matchIndex r) else r_matchIndex r).
  split_and!.
  - rewrite <- H. by destruct r, b1, b2.
  - intros q. destruct b1; [apply (matchOf_insert r p m q)|by left].
  - intros q. destruct b2; [|change (nextOf _ q) with (nextOf r q) at 1; lia].
    etransitivity; [apply Z.eq_le_incl, (nextOf_insert r p (m + 1) q)|].
    destruct (decide (q = p)); lia.
Qed.

Lemma appendReply_view r p args reply r' :
  replicateToPeer_reply r p args reply = Ret r' →
  (evolves r r' ∧ quiet r r') ∨ backed_off r r' ∨
  (learned r p (ae_PrevLogIndex args + zlen (ae_Entries args)) r' ∧
   r_currentTerm r = ae_Term args ∧ aer_Success reply = true).
Proof.
  unfold replicateToPeer_reply. intros H.
  destruct (Z.ltb_spec (r_currentTerm r) (aer_Term reply)).
  { left. split; [by eapply becomeFollower_evolves|by eapply becomeFollower_quiet]. }
  assert (evolves r r ∧ quiet r r) as Hsame by (split; reflexivity).
  destruct (bool_decide (r_state r = Leader)) eqn:Hl; simpl in H; [|left; by inv_ret].
  apply bool_decide_eq_true in Hl.
  destruct (Z.eqb_spec (r_currentTerm r) (ae_Term args)); simpl in H; [|left; by inv_ret].
  destruct (aer_Success reply).
  - right; right. split; [|done]. by apply (learned_intro _ _ _ _ true) in H.
  - destruct (Z.ltb_spec 1 (nextOf r p)); [|left; by inv_ret].
    right; left. inv_ret. split; [done|]. eexists. split; [done|].
    intros q. rewrite nextOf_insert. destruct (decide (q = p)) as [->|]; lia.
Qed.

Lemma snapshotReply_view r p args reply r' :
  sendInstallSnapshot_reply r p args reply = Ret r' →
  (evolves r r' ∧ quiet r r') ∨
  (learned r p (is_LastIncludedIndex args) r' ∧ r_currentTerm r = is_Term args).
Proof.
  unfold sendInstallSnapshot_reply. intros H.
  destruct (Z.ltb_spec (r_currentTerm r) (isr_Term reply)).
  { left. split; [by eapply becomeFollower_evolves|by eapply becomeFollower_quiet]. }
  assert (evolves r r ∧ quiet r r) as Hsame by (split; reflexivity).
  destruct (bool_decide (r_state r = Leader)) eqn:Hl; simpl in H; [|left; by inv_ret].
  apply bool_decide_eq_true in Hl.
  destruct (Z.eqb_spec (r_currentTerm r) (is_Term args)); simpl in H; [|left; by inv_ret].
  right. split; [|done]. by apply learned_intro in H.
Qed.

(** The leader's own fields after it learned something. *)
Lemma learned_same r p m r' :
  learned r p m r' →
  evolves r r' ∧ same_log r r' ∧ r_lastApplied r' = r_lastApplied r ∧
  r_state r' = Leader ∧ r_currentTerm r' = r_currentTerm r ∧
  ∀ q, nextOf r' q ≤ Z.max (nextOf r q) (m + 1).
Proof.
  intros (Hl & nx & mx & H & _ & Hnx). apply advanceCommitIndex_inv in H as [c ->].
  split_and!; try done. by apply evolves_volatile.
Qed.

Lemma Snapshot_full r index data r' e G :
  full r G → Snapshot r index data = Ret (r', e) → full r' G.
Proof.
  intros HG H. assert (H2 := H). apply Snapshot_meets in H. destruct e as [[]|].
  - by destruct H as (-> & _).
  - by destruct H as (-> & _).
  - destruct H as [[_ ->]|(Hlt & Hle & _ & Hi & _ & Hl & Ht & He & _)]; [done|].
    assert (lastIndex r' = lastIndex r) as Hlast by (unfold lastIndex; by rewrite Hl).
    split; rewrite ?Hi, ?Hlast; try apply HG.
    + pose proof (full_lii _ _ HG). lia.
    + specialize (Ht index ltac:(lia)). rewrite <- Hi, termAt_lii, Hi in Ht.
      rewrite (full_term r G) in Ht by (rewrite <- ?(full_last _ _ HG); done || lia).
      congruence.
    + intros i Hlt'. rewrite He by done. apply HG. lia.
Qed.

(** The part of the leader's log an AppendEntries stands for: [M] is the log
    up to the last entry sent. *)
Record carries M (args : AppendEntriesArgs Cmd) : Prop := {
  carries_prev : 0 ≤ ae_PrevLogIndex args;
  carries_len : zlen M = ae_PrevLogIndex args + zlen (ae_Entries args);
  carries_term : 1 ≤ ae_PrevLogIndex args →
    ae_PrevLogTerm args = termOf M (ae_PrevLogIndex args);
  carries_entry k e : zget (ae_Entries args) k = Some e →
    entryOf M (ae_PrevLogIndex args + 1 + k) = Some e
}.

(** A check that passes makes the two logs agree up to PrevLogIndex. *)
Lemma prev_agrees Ld r G M args :
  ghost Ld r G → sound Ld M → carries M args → prev_matches r args →
  ae_PrevLogIndex args ≤ zlen G →
  upto (ae_PrevLogIndex args) G = upto (ae_PrevLogIndex args) M.
Proof.
  intros [HG HsG] HsM [Hp Hl Ht _] Hprev Hle.
  apply (sound_match Ld); try done; [zlia|]. intros Hp1.
  destruct (full_term_inv r G _ _ HG (Hprev ltac:(lia))) as [_ <-]. by apply Ht.
Qed.

(** What AppendEntries makes of the whole log: a refusal keeps it, a success
    leaves a log that starts with the one sent - the old one if nothing had
    to be appended, exactly the one sent otherwise. *)
Lemma AppendEntries_ghost Ld r G M args r' reply :
  ghost Ld r G → sound Ld M → carries M args →
  AppendEntries r args = Ret (r', reply) →
  ∃ G', ghost Ld r' G' ∧
    (aer_Success reply = false → G' = G) ∧
    (aer_Success reply = true → M `prefix_of` G') ∧
    (G' = G ∨ G' = M ∧ ae_Entries args ≠ [] ∧ r_state r' = Follower ∧
              r_lastIncludedIndex r ≤ ae_PrevLogIndex args).
Proof.
  intros HGs HM Hc H. assert (HGs' := HGs). destruct HGs' as [HG HsG].
  destruct (AppendEntries_meets _ _ _ _ H) as (_ & _ & Hlii & _ & Hiff & Hs & Hf).
  assert (r_lastIncludedTerm r' = r_lastIncludedTerm r) as Hlit.
  { clear -H. unfold AppendEntries in H. handler; saved; try done;
      repeat match goal with
      | H : becomeFollowerLocked _ _ = Ret _ |- _ =>
          apply becomeFollower_log in H as [(_ & _ & H) _]
      end; try done;
      repeat match goal with
      | |- context [if ?b then _ else _] => destruct b
      | |- context [let '(_, _) := ?x in _] => destruct x
      end; done. }
  destruct (aer_Success reply) eqn:Hsuc.
  2: { exists G. destruct (Hf eq_refl) as [Hsl _]. split_and!; try done; [|by left].
       split; [by eapply full_same|done]. }
  destruct (proj1 Hiff eq_refl) as [_ Hprev].
  destruct (Hs eq_refl) as (Hst & Happ & _). unfold appended in Happ.
  destruct (ae_Entries args) as [|e0 es] eqn:He.
  - exists G. split_and!; try done; [split; [|done]; apply (full_same r); done| |by left].
    intros _. assert (zlen M = ae_PrevLogIndex args) as HlM.
    { rewrite (carries_len _ _ Hc), He, zlen_nil. lia. }
    destruct (decide (1 ≤ ae_PrevLogIndex args)) as [Hp|Hp].
    + destruct (full_term_inv r G _ _ HG (Hprev ltac:(lia))) as [Hb _].
      rewrite <- (upto_all (zlen M) M), HlM by done.
      rewrite <- (prev_agrees Ld r G M) by (done || lia). apply upto_prefix.
    + assert (M = []) as -> by (apply zlen_0; zlia). apply prefix_nil.
  - rewrite <- He in *. destruct Happ as (Hle & Hlast & Hold & Hnew).
    assert (zlen G = lastIndex r) as HlG by (symmetry; apply HG).
    assert (ae_PrevLogIndex args ≤ zlen G) as HpG.
    { destruct (decide (1 ≤ ae_PrevLogIndex args)) as [Hp|Hp].
      - apply (full_term_inv r G _ _ HG (Hprev ltac:(lia))).
      - pose proof (carries_prev _ _ Hc). zlia. }
    pose proof (prev_agrees Ld r G M args HGs HM Hc Hprev HpG) as Hag.
    assert (ae_PrevLogIndex args ≤ zlen M) as HpM by (rewrite (carries_len _ _ Hc); zlia).
    exists M. split_and!; try done; [|right; split_and!; congruence || done].
    split; [|done]. split.
    + rewrite Hlii. apply HG.
    + by rewrite Hlast, (carries_len _ _ Hc).
    + rewrite Hlii, Hlit, (full_lit _ _ HG).
      by rewrite <- (termOf_upto G (ae_PrevLogIndex args)), Hag, termOf_upto by done.
    + intros i Hi. rewrite Hlii in Hi. destruct (decide (i ≤ ae_PrevLogIndex args)) as [Hip|Hip].
      * rewrite Hold, (full_entry _ _ HG) by done.
        by rewrite <- (entryOf_upto G (ae_PrevLogIndex args)), Hag, entryOf_upto by done.
      * destruct (zget (ae_Entries args) (i - ae_PrevLogIndex args - 1)) as [e|] eqn:Hk.
        -- pose proof (carries_entry _ _ Hc _ _ Hk) as HeM. apply Hnew in Hk.
           replace (_ + 1 + _) with i in * by lia. congruence.
        -- apply zget_None in Hk as [?|Hk]; [lia|].
           transitivity (@None (LogEntry Cmd)); [|symmetry]; apply eq_None_not_Some.
           ++ rewrite entryAt_is_Some, Hlast. lia.
           ++ rewrite entryOf_is_Some, (carries_len _ _ Hc). lia.
Qed.

(** A snapshot message stands for the log up to its position. *)
Record stands_for M (args : InstallSnapshotArgs) : Prop := {
  stands_len : zlen M = is_LastIncludedIndex args;
  stands_term : is_LastIncludedTerm args = termOf M (is_LastIncludedIndex args)
}.

(** InstallSnapshot keeps the whole log when it has the snapshot's entry (or
    needs nothing of it), and takes the snapshot's otherwise. *)
Lemma InstallSnapshot_ghost Ld r G M args r' reply :
  ghost Ld r G → sound Ld M → stands_for M args →
  InstallSnapshot r args = Ret (r', reply) →
  ∃ G', ghost Ld r' G' ∧
    (r_currentTerm r ≤ is_Term args →
     r_lastIncludedIndex r < is_LastIncludedIndex args → M `prefix_of` G') ∧
    (G' = G ∨ G' = M ∧ ¬ M `prefix_of` G ∧ r_state r' = Follower ∧
              r_currentTerm r ≤ is_Term args).
Proof.
  intros [HG HsG] HsM [Hl Ht] H.
  destruct (InstallSnapshot_meets _ _ _ _ H) as (_ & _ & Hf & Hs).
  destruct (decide (r_currentTerm r ≤ is_Term args ∧
                    r_lastIncludedIndex r < is_LastIncludedIndex args)) as [[Hc Hi]|Hno].
  2: { exists G. split_and!; [|lia|by left]. split; [|done].
       destruct Hf as [Hsl _]; [lia|]. by eapply full_same. }
  destruct (Hs Hc Hi) as (Hst & Hlii & Hlit & _ & _ & _ & _ & Hk & He).
  pose proof (full_lii _ _ HG) as Hpos.
  assert (M `prefix_of` G → termAtLocked r (is_LastIncludedIndex args) =
                            (is_LastIncludedTerm args, true)) as Hpre.
  { intros HMG. rewrite (full_term r G) by (rewrite <- ?Hl; pose proof (prefix_zlen _ _ HMG); done || lia).
    by rewrite Ht, (termOf_prefix M G) by (done || lia). }
  destruct (decide (termAtLocked r (is_LastIncludedIndex args) =
                    (is_LastIncludedTerm args, true))) as [Hm|Hm].
  - destruct (full_term_inv _ _ _ _ HG Hm) as [Hb Htt]. destruct (Hk Hm) as [Hlast Hent].
    exists G. split_and!; [|intros _ _|by left].
    2: { rewrite <- (upto_all (zlen M) M) by done.
         rewrite <- (sound_match Ld G M) by (done || lia || intros; rewrite Hl; congruence).
         apply upto_prefix. }
    split; [|done]. split; rewrite ?Hlii; [lia| |congruence|].
    + rewrite Hlast. apply HG.
    + intros i Hi'. rewrite Hent by done. apply HG. lia.
  - exists M. split_and!; [|done|right; by split_and!; auto]. split; [|done]. specialize (He Hm).
    assert (lastIndex r' = is_LastIncludedIndex args) as Hlast
      by (rewrite lastIndex_eq, He, Hlii, zlen_nil; lia).
    split; rewrite ?Hlii; [lia|congruence|congruence|].
    intros i Hi'. transitivity (@None (LogEntry Cmd)); [|symmetry]; apply eq_None_not_Some.
    + rewrite entryAt_is_Some, Hlast. lia.
    + rewrite entryOf_is_Some. lia.
Qed.

(** The leader's log after a proposal, before the commit rule runs. *)
Definition proposed r (c : Cmd) (p : option P) : Raft :=
  set_persister p (set_log (r_log r ++ [mkLogEntry (r_currentTerm r) c]) r).

Lemma Propose_view r c r' res :
  Propose r c = Ret (r', res) →
  (r_state r ≠ Leader ∧ r' = r) ∨
  (r_state r = Leader ∧ ∃ p, advanceCommitIndexLocked (proposed r c p) = Ret r').
Proof.
  unfold Propose. intros H. destruct (r_state r) eqn:Hst; [left; by inv_ret..|right].
  split; [done|]. apply bind_Ret_inv in H as (a & [p ->]%persistLocked_inv & H).
  apply bind_Ret_inv in H as (b & Hb & [= <- _]). by exists p.
Qed.

Lemma proposed_full r G c p :
  full r G → full (proposed r c p) (G ++ [mkLogEntry (r_currentTerm r) c]).
Proof.
  intros HG. pose proof (full_range _ _ HG) as Hr. pose proof (full_lii _ _ HG).
  assert (lastIndex r = zlen G) as Hlast by apply HG. rewrite lastIndex_eq in Hlast.
  split; simpl.
  - done.
  - rewrite lastIndex_eq. simpl. zlia.
  - rewrite (full_lit _ _ HG). apply termOf_prefix; [by apply prefix_app_r|done].
  - intros i Hi. unfold entryAt, physicalIndexLocked, entryOf. simpl.
    destruct (decide (i ≤ zlen G)) as [Hl|Hl].
    + rewrite !zget_app_l by lia. apply (full_entry _ _ HG i Hi).
    + rewrite !zget_app_r by lia. f_equal. lia.
Qed.

(** What replicateToPeer sends carries the leader's whole log. *)
Lemma replicate_carries r G peer args :
  full r G → nextOf r peer ≤ zlen G + 1 →
  replicateToPeer_begin r peer = Ret (ReplicateEntries args) →
  r_state r = Leader ∧ ae_Term args = r_currentTerm r ∧ ae_LeaderID args = r_id r ∧
  ae_LeaderCommit args = r_commitIndex r ∧ carries G args.
Proof.
  intros HG Hnext H. unfold replicateToPeer_begin in H.
  destruct (r_state r); [by inv_ret|by inv_ret|].
  destruct (Z.leb_spec (nextOf r peer) (r_lastIncludedIndex r)) as [|Hlt]; [by inv_ret|].
  apply bind_Ret_inv in H as (entries & He & [= <-]).
  split_and!; [done..|]. pose proof (full_lii _ _ HG).
  assert (lastIndex r = zlen G) as Hlast by apply HG. rewrite lastIndex_eq in Hlast.
  assert (∀ k, 0 ≤ k → zget entries k = entryOf G (nextOf r peer + k)) as Hent.
  { intros k Hk. rewrite <- (full_entry _ _ HG) by lia.
    unfold entryAt, physicalIndexLocked in *.
    destruct (Z.leb_spec (nextOf r peer) (r_lastIncludedIndex r + zlen (r_log r))).
    - apply slice_from_Ret in He as [Hb ->]. rewrite zget_drop by lia. f_equal. lia.
    - injection He as <-. transitivity (@None (LogEntry Cmd)); [|symmetry];
        apply zget_None; [unfold zlen; simpl; lia|lia]. }
  assert (nextOf r peer - 1 + zlen entries = zlen G) as Hlen.
  { unfold physicalIndexLocked in He.
    destruct (Z.leb_spec (nextOf r peer) (r_lastIncludedIndex r + zlen (r_log r))).
    - apply slice_from_Ret in He as [Hb ->]. rewrite zlen_drop by lia. lia.
    - injection He as <-. rewrite zlen_nil. lia. }
  split; simpl; [lia|lia|..].
  - intros Hp. rewrite (proj2 (Z.leb_le _ _)) by lia.
    by rewrite (full_term r G) by (done || zlia).
  - intros k e Hk. pose proof (zget_Some_bound _ _ _ Hk). rewrite <- Hk, Hent by lia.
    f_equal. lia.
Qed.

Lemma sendSnapshot_stands r G args :
  full r G → sendInstallSnapshot_begin r = Some args →
  r_state r = Leader ∧ is_Term args = r_currentTerm r ∧ is_LeaderID args = r_id r ∧
  is_LastIncludedIndex args = r_lastIncludedIndex r ∧
  stands_for (upto (r_lastIncludedIndex r) G) args.
Proof.
  intros HG H. unfold sendInstallSnapshot_begin in H.
  destruct (r_state r); [done|done|]. injection H as <-. split_and!; [done..|].
  pose proof (full_range _ _ HG). pose proof (full_lii _ _ HG).
  split; simpl; [by apply zlen_upto|]. by rewrite termOf_upto, (full_lit _ _ HG).
Qed.
End handlers.
