(* ===== verification/RaftLogMatching.v ===== *)
(** * Log matching in a cluster

    In every execution of the cluster of RaftCluster.v there is a record of
    leaders' logs in which every node's whole log is sound (RaftGhost.v); so
    two logs with an entry of the same term at the same index agree up to it. *)
From S2P Require Import Prelude Persister RaftNode RaftFacts RaftDurable RaftVotes RaftLog RaftDemo RaftCluster RaftGhost RaftDivergence.
Local Open Scope Z_scope.

Section matching.
Context {Cmd P : Type} `{!Persister P, !PersisterLaws P, !Codec (persistedState Cmd)}.
Abbreviation Raft := (Raft Cmd P).
Abbreviation Cluster := (Cluster (Cmd:=Cmd) (P:=P)).
Abbreviation Log := (list (LogEntry Cmd)).
Context (members : list Z) (Hnodup : NoDup members) (Hids : ∀ i, i ∈ members → 0 ≤ i).
Implicit Type r : Raft.
Implicit Type s : Cluster.
Implicit Types G L M : Log.
Implicit Type Ld : gmap Z Log.

(** ** The invariant *)

(** A message of term [t] stands for an initial segment of its leader's log. *)
Definition sent_append Ld (args : AppendEntriesArgs Cmd) : Prop :=
  ∃ M L, Ld !! ae_Term args = Some L ∧ M `prefix_of` L ∧ carries M args.

Definition sent_snapshot Ld (args : InstallSnapshotArgs) : Prop :=
  ∃ M L, Ld !! is_Term args = Some L ∧ M `prefix_of` L ∧ stands_for M args.

Definition good_msg Ld (m : Msg) : Prop :=
  match m with
  | MAppendReq _ args | MAppendRep _ args _ => sent_append Ld args
  | MSnapReq _ args | MSnapRep _ args _ => sent_snapshot Ld args
  | _ => True
  end.

(** A leader's log is its term's, and no peer is taken to be past it. *)
Definition leads Ld r G : Prop :=
  r_state r = Leader →
  Ld !! r_currentTerm r = Some G ∧ ∀ p, nextOf r p ≤ zlen G + 1.

Record logs s Ld : Prop := {
  lg_leader T L : Ld !! T = Some L → sound Ld L ∧
    ∃ h, h ∈ c_hist s ∧ r_state h = Leader ∧ r_currentTerm h = T;
  lg_hist h : h ∈ c_hist s → ∃ G, ghost Ld h G;
  lg_node i r : c_nodes s !! i = Some r → ∃ G, ghost Ld r G ∧ leads Ld r G;
  lg_past h : h ∈ c_hist s → ∃ r, c_nodes s !! r_id h = Some r ∧
    r_currentTerm h ≤ r_currentTerm r ∧
    (r_state h = Leader → r_state r = Candidate → r_currentTerm h < r_currentTerm r);
  lg_msg m : m ∈ c_net s → good_msg Ld m
}.

Lemma good_msg_extends Ld Ld' m : extends Ld Ld' → good_msg Ld m → good_msg Ld' m.
Proof.
  intros He. destruct m; simpl; try done;
    (intros (M & L & (L' & HL' & Hp)%He & ? & ?);
     exists M, L'; split_and!; [done|by transitivity L|done]).
Qed.

(** ** One node's step *)

(** What a step of a node may do to its term and role. *)
Record succeeds r r' : Prop := {
  su_id : r_id r' = r_id r;
  su_term : r_currentTerm r ≤ r_currentTerm r';
  su_candidate : r_state r' = Candidate →
    r_currentTerm r < r_currentTerm r' ∨
    (r_state r = Candidate ∧ r_currentTerm r' = r_currentTerm r)
}.

Lemma evolves_succeeds r r' : evolves r r' → succeeds r r'.
Proof. intros [I _ V _ _ C]. split; [done|lia|done]. Qed.

(** The general step: the node's new whole log is [G']; if the node leads,
    it becomes its term's log, and nobody else leads that term. *)
Lemma logs_update s Ld i r r' G' msgs :
  inv members s → logs s Ld → c_nodes s !! i = Some r → succeeds r r' →
  let Ld' := record_leader Ld r' G' in
  extends Ld Ld' → ghost Ld' r' G' → leads Ld' r' G' →
  (r_state r' = Leader → ∀ h, h ∈ c_hist s → r_state h = Leader →
    r_currentTerm h = r_currentTerm r' → r_id h = r_id r') →
  (∀ m, m ∈ msgs → good_msg Ld' m) →
  logs (update s i r' msgs) Ld'.
Proof.
  intros Hinv Hlg Hi [Hid Ht Hc] Ld' Hext HG' Hl' Hone Hmsgs.
  destruct (inv_node _ _ Hinv _ _ Hi) as (_ & Hri & _).
  split; simpl.
  - intros T L HL. destruct (decide (r_state r' = Leader ∧ r_currentTerm r' = T)) as [[Hst <-]|Hno].
    + destruct (Hl' Hst) as [HLG _]. rewrite HLG in HL. simplify_eq.
      split; [apply HG'|]. exists r'. split_and!; [by left|done|done].
    + assert (Ld !! T = Some L) as HL0.
      { unfold Ld', record_leader in HL. destruct (r_state r') eqn:Hs; try done.
        rewrite lookup_insert_ne in HL; [done|]. contradict Hno. done. }
      destruct (lg_leader _ _ Hlg T L HL0) as [Hs (h & ? & ? & ?)].
      split; [by eapply sound_extends|]. exists h. split_and!; [by right|done|done].
  - intros h [->|Hh]%elem_of_cons; [by exists G'|].
    destruct (lg_hist _ _ Hlg h Hh) as [G HG]. exists G. by eapply ghost_extends.
  - intros j rj [[-> <-]|[Hne Hj]]%lookup_insert_Some; [by exists G'|].
    destruct (lg_node _ _ Hlg j rj Hj) as (G & HG & Hlead). exists G.
    split; [by eapply ghost_extends|]. intros Hst. destruct (Hlead Hst) as [HL Hn].
    split; [|done]. unfold Ld', record_leader. destruct (r_state r') eqn:Hs; try done.
    destruct (decide (r_currentTerm r' = r_currentTerm rj)) as [Heq|Hneq];
      [|by rewrite lookup_insert_ne].
    destruct (inv_node _ _ Hinv _ _ Hj) as (_ & Hrj & _ & _ & _ & Hin).
    specialize (Hone eq_refl rj (Hin Hst) Hst ltac:(done)). congruence.
  - intros h [->|Hh]%elem_of_cons.
    + exists r'. rewrite Hid, Hri, lookup_insert_eq. split_and!; [done|lia|congruence].
    + destruct (lg_past _ _ Hlg h Hh) as (rh & Hrh & Hle & Hlt).
      destruct (decide (i = r_id h)) as [Heq|Hne].
      * exists r'. rewrite <- Heq, lookup_insert_eq. split; [done|].
        rewrite <- Heq, Hi in Hrh. simplify_eq. split; [lia|].
        intros HL HC. destruct (Hc HC) as [?|[HC0 ?]]; [lia|]. specialize (Hlt HL HC0). lia.
      * exists rh. by rewrite lookup_insert_ne by done.
  - intros m [Hm|Hm]%elem_of_app; [by apply Hmsgs|].
    by eapply good_msg_extends, (lg_msg _ _ Hlg).
Qed.

(** A step that keeps the record of leaders. *)
Lemma logs_keep s Ld i r r' msgs :
  inv members s → logs s Ld → c_nodes s !! i = Some r → evolves r r' →
  (∀ G, ghost Ld r G → leads Ld r G →
    ∃ G', ghost Ld r' G' ∧ (r_state r' = Leader → G' = G ∧ ∀ p, nextOf r' p ≤ zlen G + 1)) →
  (∀ m, m ∈ msgs → good_msg Ld m) →
  logs (update s i r' msgs) Ld.
Proof.
  intros Hinv Hlg Hi Hev HG Hm.
  destruct (lg_node _ _ Hlg i r Hi) as (G & HGr & Hlead).
  destruct (HG G HGr Hlead) as (G' & HGr' & Hl').
  assert (leads Ld r' G') as Hlead'.
  { intros Hst. destruct (Hl' Hst) as [-> Hn]. apply (ev_leader _ _ Hev) in Hst as [Hst ->].
    split; [by apply Hlead|done]. }
  assert (record_leader Ld r' G' = Ld) as HLd by (apply record_keeps; intros; by apply Hlead').
  rewrite <- HLd. eapply logs_update; rewrite ?HLd; try done.
  - by apply evolves_succeeds.
  - intros Hst h Hh Hhl Hht. apply (ev_leader _ _ Hev) in Hst as [Hst Ht].
    destruct (inv_node _ _ Hinv _ _ Hi) as (_ & _ & _ & _ & _ & Hin).
    rewrite (ev_id _ _ Hev). eapply (one_leader members); eauto. congruence.
Qed.

(** A step that leaves log and leader state alone. *)
Lemma logs_quiet s Ld i r r' msgs :
  inv members s → logs s Ld → c_nodes s !! i = Some r → evolves r r' →
  (∀ G, full r G → full r' G) → (∀ p, nextOf r' p ≤ nextOf r p) →
  (∀ m, m ∈ msgs → good_msg Ld m) →
  logs (update s i r' msgs) Ld.
Proof.
  intros Hinv Hlg Hi Hev Hf Hn Hm. eapply logs_keep; try done.
  intros G [HG HS] Hl. exists G. split; [by split; auto|].
  intros Hst. split; [done|]. apply (ev_leader _ _ Hev) in Hst as [Hst _].
  destruct (Hl Hst) as [_ Hb]. intros p. specialize (Hn p). specialize (Hb p). lia.
Qed.

Lemma logs_set_starting s Ld l : logs s Ld → logs (set_starting l s) Ld.
Proof. intros []. by split. Qed.

Lemma logs_set_elections s Ld l : logs s Ld → logs (set_elections l s) Ld.
Proof. intros []. by split. Qed.

Lemma logs_send s Ld msgs :
  logs s Ld → (∀ m, m ∈ msgs → good_msg Ld m) → logs (send msgs s) Ld.
Proof.
  intros [] Hm. split; simpl; try done.
  intros m [?|?]%elem_of_app; auto.
Qed.

(** A candidate that wins starts its term's log; nobody led that term. *)
Lemma logs_won s Ld i r r' :
  inv members s → logs s Ld → c_nodes s !! i = Some r → just_won r r' →
  (∀ h, h ∈ c_hist s → r_state h = Leader → r_currentTerm h = r_currentTerm r' →
    r_id h = r_id r') →
  ∃ G, ghost Ld r G ∧ Ld !! r_currentTerm r = None ∧
    extends Ld (<[r_currentTerm r := G]> Ld) ∧
    logs (update s i r' []) (<[r_currentTerm r := G]> Ld).
Proof.
  intros Hinv Hlg Hi Hw Hone. destruct (lg_node _ _ Hlg i r Hi) as (G & HG & _).
  pose proof (won_kept _ _ Hw) as Hps. assert (r_currentTerm r' = r_currentTerm r) as Ht
    by by injection Hps.
  destruct (inv_node _ _ Hinv _ _ Hi) as (_ & Hri & _).
  assert (Ld !! r_currentTerm r = None) as Hnone.
  { destruct (Ld !! r_currentTerm r) as [L|] eqn:HL; [|done].
    destruct (lg_leader _ _ Hlg _ _ HL) as (_ & h & Hh & Hhl & Hht).
    destruct (lg_past _ _ Hlg h Hh) as (rh & Hrh & _ & Hlt).
    assert (r_id h = i) as Hid by (rewrite (Hone h) by (done || congruence);
      by rewrite (won_id _ _ Hw)).
    rewrite Hid, Hi in Hrh. simplify_eq.
    specialize (Hlt Hhl (won_state _ _ Hw)). lia. }
  assert (extends Ld (<[r_currentTerm r := G]> Ld)) as Hext.
  { intros t L HL. exists L. split; [|done]. rewrite lookup_insert_ne; congruence. }
  exists G. split_and!; try done.
  assert (record_leader Ld r' G = <[r_currentTerm r := G]> Ld) as HLd.
  { unfold record_leader. by rewrite (won_leader _ _ Hw), Ht. }
  rewrite <- HLd. eapply logs_update; rewrite ?HLd; try done.
  - split; [apply Hw|lia|]. rewrite (won_leader _ _ Hw). done.
  - split; [|by eapply sound_extends, HG].
    eapply full_same; [apply HG|by apply persisted_same_log].
  - intros _. rewrite Ht, lookup_insert_eq. split; [done|].
    intros p. pose proof (won_next _ _ Hw p) as Hn.
    rewrite (full_last r G) in Hn by apply HG. pose proof (zlen_nonneg G). lia.
  - intros m Hm. by apply not_elem_of_nil in Hm.
Qed.

(** A proposal extends the term's log by one entry. *)
Lemma logs_propose s Ld i r c p r' :
  inv members s → logs s Ld → c_nodes s !! i = Some r → r_state r = Leader →
  advanceCommitIndexLocked (proposed r c p) = Ret r' →
  let e := mkLogEntry (r_currentTerm r) c in
  ∃ G, ghost Ld r G ∧ Ld !! r_currentTerm r = Some G ∧
    extends Ld (<[r_currentTerm r := G ++ [e]]> Ld) ∧
    logs (update s i r' []) (<[r_currentTerm r := G ++ [e]]> Ld) ∧
    ghost (<[r_currentTerm r := G ++ [e]]> Ld) (proposed r c p) (G ++ [e]).
Proof.
  intros Hinv Hlg Hi Hst Hadv e. destruct (lg_node _ _ Hlg i r Hi) as (G & HG & Hlead).
  destruct (Hlead Hst) as [HL Hn]. set (Ld' := <[r_currentTerm r := G ++ [e]]> Ld).
  assert (extends Ld Ld') as Hext.
  { intros t L HLt. unfold Ld'. destruct (decide (t = r_currentTerm r)) as [->|Hne].
    - rewrite lookup_insert_eq. simplify_eq. eexists. split; [done|by apply prefix_app_r].
    - rewrite lookup_insert_ne by done. by exists L. }
  assert (ghost Ld' (proposed r c p) (G ++ [e])) as HG'.
  { split; [apply proposed_full, HG|]. intros j Hj. autorewrite with zlist in Hj.
    destruct (decide (j ≤ zlen G)) as [Hjl|Hjl].
    - destruct (sound_extends Ld Ld' G Hext (ghost_sound _ _ _ HG) j ltac:(lia)) as (L & ? & ?).
      exists L. rewrite <- (termOf_prefix G) by (done || by apply prefix_app_r).
      split; [done|]. by rewrite (upto_of_prefix G) by (done || by apply prefix_app_r).
    - assert (j = zlen G + 1) as -> by lia. rewrite termOf_app_last. simpl.
      exists (G ++ [e]). unfold Ld'. rewrite lookup_insert_eq. split; [done|]. apply upto_prefix. }
  exists G. fold Ld'. split_and!; try done. clear HL.
  apply advanceCommitIndex_inv in Hadv as [ci ->]. set (r' := set_commitIndex _ _).
  assert (record_leader Ld r' (G ++ [e]) = Ld') as HLd.
  { unfold record_leader. simpl. by rewrite Hst. }
  rewrite <- HLd. eapply logs_update; rewrite ?HLd; try done.
  - split; simpl; [done|lia|congruence].
  - split; [eapply full_same; [apply HG'|done]|apply HG'].
  - intros _. unfold Ld'. simpl. rewrite lookup_insert_eq. split; [done|].
    intros q. rewrite zlen_app. change (nextOf r' q) with (nextOf r q).
    specialize (Hn q). zlia.
  - intros _ h Hh Hhl Hht. destruct (inv_node _ _ Hinv _ _ Hi) as (_ & _ & _ & _ & _ & Hin).
    by apply (one_leader members Hids s h r); auto.
  - intros m Hm. by apply not_elem_of_nil in Hm.
Qed.

(** AppendEntries and InstallSnapshot. *)
Lemma logs_append s Ld i r args r' reply :
  inv members s → logs s Ld → c_nodes s !! i = Some r → MAppendReq i args ∈ c_net s →
  AppendEntries r args = Ret (r', reply) →
  logs (update s i r' [MAppendRep i args reply]) Ld.
Proof.
  intros Hinv Hlg Hi Hm H. pose proof (lg_msg _ _ Hlg _ Hm) as Hsent.
  eapply logs_keep; try done.
  - by eapply AppendEntries_evolves.
  - intros G HG Hlead. destruct Hsent as (M & L & HL & HML & Hc).
    destruct (lg_leader _ _ Hlg _ _ HL) as [HsL _].
    destruct (AppendEntries_ghost Ld r G M args r' reply) as (G' & HG' & _ & _ & Hcase);
      [done|by eapply sound_prefix|done|done|].
    exists G'. split; [done|]. intros Hst.
    destruct (AppendEntries_role _ _ _ _ H) as [|Heq]; [congruence|]. subst r'.
    destruct Hcase as [->|(_ & _ & Hf & _)]; [|congruence].
    split; [done|]. by apply Hlead.
  - intros m [->|[]%not_elem_of_nil]%elem_of_cons. exact Hsent.
Qed.

Lemma logs_install s Ld i r args r' reply :
  inv members s → logs s Ld → c_nodes s !! i = Some r → MSnapReq i args ∈ c_net s →
  InstallSnapshot r args = Ret (r', reply) →
  logs (update s i r' [MSnapRep i args reply]) Ld.
Proof.
  intros Hinv Hlg Hi Hm H. pose proof (lg_msg _ _ Hlg _ Hm) as Hsent.
  eapply logs_keep; try done.
  - by eapply InstallSnapshot_evolves.
  - intros G HG Hlead. destruct Hsent as (M & L & HL & HML & Hc).
    destruct (lg_leader _ _ Hlg _ _ HL) as [HsL _].
    destruct (InstallSnapshot_ghost Ld r G M args r' reply) as (G' & HG' & _ & Hcase);
      [done|by eapply sound_prefix|done|done|].
    exists G'. split; [done|]. intros Hst.
    destruct (InstallSnapshot_role _ _ _ _ H) as [|Heq]; [congruence|]. subst r'.
    destruct Hcase as [->|(_ & _ & Hf & _)]; [|congruence].
    split; [done|]. by apply Hlead.
  - intros m [->|[]%not_elem_of_nil]%elem_of_cons. exact Hsent.
Qed.

(** A leader hears an answer: the position it answers for is in its log. *)
Lemma logs_learned s Ld i r q m r' :
  inv members s → logs s Ld → c_nodes s !! i = Some r → learned r q m r' →
  (∀ L, Ld !! r_currentTerm r = Some L → m ≤ zlen L) →
  logs (update s i r' []) Ld.
Proof.
  intros Hinv Hlg Hi Hl Hm. destruct (learned_same _ _ _ _ Hl) as (Hev & Hsl & _ & _ & _ & Hn).
  eapply logs_keep; try done.
  - intros G [HG HS] Hlead. exists G. split; [by split; [eapply full_same|]|].
    intros _. split; [done|]. intros p. specialize (Hn p).
    destruct (Hlead (proj1 Hl)) as [HL Hb]. specialize (Hb p). specialize (Hm _ HL). lia.
  - intros x Hx. by apply not_elem_of_nil in Hx.
Qed.

Lemma sent_append_len Ld args L :
  sent_append Ld args → Ld !! ae_Term args = Some L →
  ae_PrevLogIndex args + zlen (ae_Entries args) ≤ zlen L.
Proof.
  intros (M & L' & HL & HM & Hc) HL'. simplify_eq. rewrite <- (carries_len _ _ Hc).
  by apply prefix_zlen.
Qed.

Lemma sent_snapshot_len Ld args L :
  sent_snapshot Ld args → Ld !! is_Term args = Some L →
  is_LastIncludedIndex args ≤ zlen L.
Proof.
  intros (M & L' & HL & HM & Hc) HL'. simplify_eq. rewrite <- (stands_len _ _ Hc).
  by apply prefix_zlen.
Qed.

(** What the three sending steps put on the network. *)
Lemma good_replicate s Ld i r peer args :
  logs s Ld → c_nodes s !! i = Some r →
  replicateToPeer_begin r peer = Ret (ReplicateEntries args) → sent_append Ld args.
Proof.
  intros Hlg Hi H. destruct (lg_node _ _ Hlg i r Hi) as (G & HG & Hlead).
  assert (r_state r = Leader) as Hst.
  { unfold replicateToPeer_begin in H. by destruct (r_state r); inv_ret. }
  destruct (Hlead Hst) as [HL Hn].
  destruct (replicate_carries r G peer args) as (_ & Ht & _ & _ & Hc); [apply HG|done|done|].
  exists G, G. by rewrite Ht.
Qed.

Lemma good_send_snapshot s Ld i r args :
  logs s Ld → c_nodes s !! i = Some r →
  sendInstallSnapshot_begin r = Some args → sent_snapshot Ld args.
Proof.
  intros Hlg Hi H. destruct (lg_node _ _ Hlg i r Hi) as (G & HG & Hlead).
  destruct (sendSnapshot_stands r G args) as (Hst & Ht & _ & _ & Hs); [apply HG|done|].
  destruct (Hlead Hst) as [HL _]. exists (upto (r_lastIncludedIndex r) G), G.
  rewrite Ht. split_and!; [done|apply upto_prefix|done].
Qed.

Lemma no_msgs Ld m : m ∈ [] → good_msg Ld m.
Proof. by intros []%not_elem_of_nil. Qed.

Lemma vote_msgs Ld ps args m : m ∈ map (λ p, MVoteReq p args) ps → good_msg Ld m.
Proof. intros Hin. apply list_elem_of_In, in_map_iff in Hin as (? & <- & _). done. Qed.

Lemma quiet_next r r' p : quiet r r' → nextOf r' p ≤ nextOf r p.
Proof. unfold nextOf. intros (_ & _ & _ & -> & _). done. Qed.

Lemma quiet_full r r' G : quiet r r' → full r G → full r' G.
Proof. intros [Hs _] HG. by eapply full_same. Qed.

Lemma logs_restart s Ld i r p r' :
  inv members s → logs s Ld → c_nodes s !! i = Some r → r_persister r = Some p →
  newRaft i (r_peers r) (Some p) = Ret r' → logs (update s i r' []) Ld.
Proof.
  intros Hinv Hlg Hi Hp H. destruct (inv_node _ _ Hinv _ _ Hi) as (_ & Hri & _ & Hd & _).
  destruct (newRaft_recovers r p i (r_peers r) Hd Hp) as (r2 & H2 & Hid & _ & Hst & Hps & _).
  rewrite H in H2. injection H2 as <-.
  destruct (lg_node _ _ Hlg i r Hi) as (G & [HG HS] & _).
  assert (record_leader Ld r' G = Ld) as HLd by (apply record_keeps; congruence).
  assert (r_currentTerm r' = r_currentTerm r) as Ht by by injection Hps.
  rewrite <- HLd. eapply logs_update; rewrite ?HLd; try done.
  - split; [congruence|lia|congruence].
  - split; [|done]. eapply full_same; [done|by apply persisted_same_log].
  - intros ?; congruence.
  - intros ?; congruence.
  - apply no_msgs.
Qed.

Lemma logs_step accepts s s' Ld :
  inv members s → logs s Ld → cluster_step accepts s s' → ∃ Ld', logs s' Ld'.
Proof.
  intros Hinv Hlg Hstep. assert (inv members s') as Hinv' by by eapply inv_step.
  destruct Hstep.
  - exists Ld. apply logs_set_starting. eapply logs_quiet; try done.
    + by eapply electionTimeout_evolves.
    + intros G. by eapply quiet_full, electionTimeout_quiet.
    + intros p. by eapply quiet_next, electionTimeout_quiet.
    + apply no_msgs.
  - exists Ld. apply logs_set_starting, logs_set_elections, logs_send; [done|]. apply vote_msgs.
  - exists Ld. eapply logs_quiet; try done.
    + by eapply RequestVote_evolves.
    + intros G. by eapply quiet_full, RequestVote_quiet.
    + intros p. by eapply quiet_next, RequestVote_quiet.
    + intros m [->|[]%not_elem_of_nil]%elem_of_cons. done.
  - lazymatch goal with Hr : startElection_reply _ _ _ = _, Hn : c_nodes s !! _ = _ |- _ =>
      rename Hn into Hi; apply voteReply_view in Hr as [[Hev Hq]|[Hw _]] end.
    + exists Ld. apply logs_set_elections. eapply logs_quiet; try done.
      * intros G. by apply quiet_full.
      * intros p. by apply quiet_next.
      * apply no_msgs.
    + destruct (logs_won s Ld (re_node e) r r') as (G & _ & _ & _ & Hlogs); try done.
      * intros h Hh Hl Ht. apply (one_leader members Hids _ h r' Hinv'); simpl;
          [by right|by left|done|apply Hw|done].
      * eexists. by apply logs_set_elections.
  - exists Ld. apply logs_send; [done|]. intros m [->|[]%not_elem_of_nil]%elem_of_cons.
    by eapply good_replicate.
  - exists Ld. by eapply logs_append.
  - lazymatch goal with Hr : replicateToPeer_reply _ _ _ _ = _, Hm : MAppendRep _ _ _ ∈ _ |- _ =>
      pose proof (lg_msg _ _ Hlg _ Hm) as Hsent; simpl in Hsent;
      apply appendReply_view in Hr as [[Hev Hq]|[(Hl & nx & -> & Hnx)|(Hl & Ht & _)]] end.
    + exists Ld. eapply logs_quiet; try done.
      * intros G. by apply quiet_full.
      * intros p. by apply quiet_next.
      * apply no_msgs.
    + exists Ld. eapply logs_quiet; try done; [by apply evolves_volatile| |apply no_msgs].
      intros G HG. by eapply full_same.
    + exists Ld. eapply logs_learned; try done. intros L HL.
      eapply sent_append_len; [done|]. by rewrite <- Ht.
  - exists Ld. apply logs_send; [done|]. intros m [->|[]%not_elem_of_nil]%elem_of_cons.
    by eapply good_send_snapshot.
  - exists Ld. by eapply logs_install.
  - lazymatch goal with Hr : sendInstallSnapshot_reply _ _ _ _ = _, Hm : MSnapRep _ _ _ ∈ _ |- _ =>
      pose proof (lg_msg _ _ Hlg _ Hm) as Hsent; simpl in Hsent;
      apply snapshotReply_view in Hr as [[Hev Hq]|[Hl Ht]] end.
    + exists Ld. eapply logs_quiet; try done.
      * intros G. by apply quiet_full.
      * intros p. by apply quiet_next.
      * apply no_msgs.
    + exists Ld. eapply logs_learned; try done. intros L HL.
      eapply sent_snapshot_len; [done|]. by rewrite <- Ht.
  - lazymatch goal with Hr : Propose _ _ = _ |- _ =>
      apply Propose_view in Hr as [[_ ->]|(Hst & p & Hadv)] end.
    + exists Ld. eapply logs_quiet; try done. apply no_msgs.
    + destruct (logs_propose s Ld i r command p r') as (G & _ & _ & _ & Hlogs & _); try done.
      by eexists.
  - exists Ld. eapply logs_quiet; try done; [by eapply Snapshot_evolves| | |apply no_msgs].
    + intros G HG. by eapply Snapshot_full.
    + lazymatch goal with Hr : Snapshot _ _ _ = _ |- _ => unfold Snapshot in Hr; handler; saved; done end.
  - exists Ld. eapply logs_quiet; try done; [by apply evolves_volatile| |apply no_msgs].
    intros G HG. by eapply full_same.
  - lazymatch goal with Hr : applyPending_next _ = _ |- _ =>
      pose proof (applyNext_evolves _ _ _ Hr); apply applyNext_same in Hr; rename Hr into Heq end.
    exists Ld. eapply logs_quiet; try done; [| |apply no_msgs]; rewrite Heq; [|done].
    intros G HG. by eapply full_same.
  - exists Ld. apply logs_set_starting, logs_set_elections. by eapply logs_restart.
Qed.

Lemma logs_init s : cluster_init members s → logs s ∅.
Proof.
  intros (_ & _ & Hn & Hh & Hnodes). split; rewrite ?Hn, ?Hh.
  - intros T L HL. by rewrite lookup_empty in HL.
  - intros h []%not_elem_of_nil.
  - intros i r Hi. destruct (Hnodes i r Hi) as (_ & op & -> & _). exists [].
    split; [|by intros ?]. split; [|apply sound_nil]. split; try done.
    intros j Hj. transitivity (@None (LogEntry Cmd)); [|symmetry]; apply zget_None;
      unfold physicalIndexLocked; unfold zlen; simpl in *; lia.
  - intros h []%not_elem_of_nil.
  - intros m []%not_elem_of_nil.
Qed.

Lemma logs_reachable accepts s :
  reachable_by accepts members s → ∃ Ld, logs s Ld.
Proof.
  intros (s0 & H0 & Hrtc). pose proof (logs_init _ H0) as Hlg.
  apply (inv_init members) in H0 as Hinv. clear H0. revert Hinv Hlg. generalize (∅ : gmap Z Log).
  induction Hrtc as [s|s s1 s2 Hstep _ IH]; intros Ld Hinv Hlg; [by exists Ld|].
  destruct (logs_step accepts s s1 Ld) as [Ld' Hlg']; [done..|].
  apply (IH Ld'); [by eapply inv_step|done].
Qed.

(** Entries two nodes hold at or below an index where they know the same
    term. *)
Lemma logs_match s Ld h1 h2 i t :
  logs s Ld → h1 ∈ c_hist s → h2 ∈ c_hist s → 1 ≤ i →
  termAtLocked h1 i = (t, true) → termAtLocked h2 i = (t, true) →
  ∀ j, r_lastIncludedIndex h1 < j → r_lastIncludedIndex h2 < j → j ≤ i →
    is_Some (entryAt h1 j) ∧ entryAt h1 j = entryAt h2 j.
Proof.
  intros Hlg H1 H2 Hi T1 T2 j L1 L2 Hj.
  destruct (lg_hist _ _ Hlg h1 H1) as (G1 & F1 & S1).
  destruct (lg_hist _ _ Hlg h2 H2) as (G2 & F2 & S2).
  destruct (full_term_inv _ _ _ _ F1 T1) as [B1 ->].
  destruct (full_term_inv _ _ _ _ F2 T2) as [B2 Ht].
  pose proof (full_lii _ _ F1).
  rewrite (full_entry _ _ F1), (full_entry _ _ F2) by done.
  split; [apply entryOf_is_Some; lia|].
  assert (upto i G1 = upto i G2) as Heq by (apply (sound_match Ld); done || lia).
  by rewrite <- (entryOf_upto G1 i), Heq, entryOf_upto by done.
Qed.

(** C4: log matching. Whatever the network and crashes do, if two states of
    one execution, of any nodes at any times, know the same term at a log
    index, then at that index and at every earlier one that both still hold
    they have the same entry. *)
Theorem log_matching s h1 h2 i t :
  reachable members s → h1 ∈ c_hist s → h2 ∈ c_hist s → 1 ≤ i →
  termAtLocked h1 i = (t, true) → termAtLocked h2 i = (t, true) →
  ∀ j, r_lastIncludedIndex h1 < j → r_lastIncludedIndex h2 < j → j ≤ i →
    is_Some (entryAt h1 j) ∧ entryAt h1 j = entryAt h2 j.
Proof. intros [Ld Hlg]%logs_reachable. by apply (logs_match s Ld). Qed.
End matching.

(** ** Witnesses *)
Module Witness.
(** Node 0 leads term 1, proposes twice, and node 1 takes both entries. *)
Definition matching_actions : list (Action (Cmd:=Z)) :=
  [ ATimeout 0; ABeginElection; ADeliver 0; AVoteReply 0 0;
    APropose 0 10; APropose 0 11; AReplicate 0 1; ADeliver 0 ].

Lemma log_matching_witness :
  ∃ s (h1 h2 : DemoRaft), reachable Demo.members s ∧ h1 ∈ c_hist s ∧ h2 ∈ c_hist s ∧
    r_id h1 = 1 ∧ r_id h2 = 0 ∧ entryAt h1 1 = entryAt h2 1 ∧ is_Some (entryAt h1 1).
Proof.
  destruct (perform_all any_order divergence_boot matching_actions) as [s|] eqn:Hs;
    [|by vm_compute in Hs].
  assert ((s0 ← perform_all any_order divergence_boot matching_actions; c_hist s0 !! 0%nat) =
          (s0 ← Some s; c_hist s0 !! 0%nat)) as H1 by (by rewrite Hs).
  assert ((s0 ← perform_all any_order divergence_boot matching_actions; c_hist s0 !! 1%nat) =
          (s0 ← Some s; c_hist s0 !! 1%nat)) as H2 by (by rewrite Hs).
  symmetry in H1, H2. vm_compute in H1, H2.
  apply list_elem_of_lookup_2 in H1, H2.
  assert (reachable Demo.members s) as Hr.
  { exists divergence_boot. split; [apply divergence_boot_init|exact (perform_all_sound _ _ _ _ Hs)]. }
  assert (∀ i, i ∈ Demo.members → 0 ≤ i) as Hids by (unfold Demo.members; set_solver by lia).
  assert (NoDup Demo.members) as Hn by (apply (bool_decide_unpack _); vm_compute; done).
  eexists s, _, _. split; [exact Hr|]. split; [exact H1|]. split; [exact H2|].
  split; [reflexivity|]. split; [reflexivity|].
  destruct (log_matching Demo.members Hn Hids s _ _ 2 1 Hr H1 H2 ltac:(lia) eq_refl eq_refl
    1 ltac:(simpl; lia) ltac:(simpl; lia) ltac:(lia)) as [Hsome Heq].
  split; [exact Heq|exact Hsome].
Defined.
End Witness.
