(* ===== verification/RaftChosen.v ===== *)
(** * What a cluster has committed

    The network that delivers no overtaken AppendEntries, the entries a
    majority has acknowledged, the invariant of such clusters, and leader
    completeness: every later leader has what was chosen. *)
From S2P Require Import Prelude Persister RaftNode RaftFacts RaftDurable RaftVotes RaftLog RaftPositions RaftCommit RaftCluster RaftGhost RaftLogMatching.
Local Open Scope Z_scope.

(** ** Overtaken messages *)

Section order.
Context {Cmd P : Type}.
Abbreviation Raft := (Raft Cmd P).
Implicit Type r : Raft.

(** The node's log has the terms of [es] from index [i] on. *)
Fixpoint has_terms r (i : Z) (es : list (LogEntry Cmd)) : bool :=
  match es with
  | [] => true
  | e :: es => bool_decide (termAtLocked r i = (le_Term e, true)) && has_terms r (i + 1) es
  end.

(** A message of a current term all of whose entries the node already has,
    and more after them: a longer message of that leader came first. *)
Definition overtaken r (args : AppendEntriesArgs Cmd) : bool :=
  (r_currentTerm r <=? ae_Term args) && (0 <? zlen (ae_Entries args)) &&
  (ae_PrevLogIndex args + zlen (ae_Entries args) <? lastIndex r) &&
  has_terms r (ae_PrevLogIndex args + 1) (ae_Entries args).

Definition in_order r (args : AppendEntriesArgs Cmd) : Prop := overtaken r args = false.

#[export] Instance in_order_dec r args : Decision (in_order r args).
Proof. unfold in_order. apply _. Defined.

Lemma has_terms_intro r i es :
  (∀ k e, zget es k = Some e → termAtLocked r (i + k) = (le_Term e, true)) →
  has_terms r i es = true.
Proof.
  revert i. induction es as [|e es IH]; intros i H; simpl; [done|].
  rewrite bool_decide_true; [|rewrite <- (H 0 e eq_refl); f_equal; lia].
  apply IH. intros k e' Hk. apply zget_Some_bound in Hk as Hb.
  rewrite <- (H (k + 1) e'); [f_equal; lia|].
  change (e :: es) with ([e] ++ es). rewrite zget_app_r by (unfold zlen; simpl; lia).
  rewrite <- Hk. f_equal. unfold zlen. simpl. lia.
Qed.
End order.

(** An accepted message cannot cut off what the node shares with the leader:
    [C] is in the node's log and in the leader's. *)
Lemma in_order_retains {Cmd P} `{!Persister P, !Codec (persistedState Cmd)}
    (r : Raft Cmd P) G M L C args :
  full r G → carries M args → M `prefix_of` L → C `prefix_of` G → C `prefix_of` L →
  ae_Entries args ≠ [] → r_lastIncludedIndex r ≤ ae_PrevLogIndex args →
  r_currentTerm r ≤ ae_Term args → in_order r args → C `prefix_of` M.
Proof.
  intros HG Hc HML HCG HCL Hne Hlii Ht Hord.
  destruct (decide (zlen C ≤ zlen M)) as [Hle|Hgt]; [by eapply prefix_shorter|].
  exfalso. assert (M `prefix_of` G) as HMG
    by (transitivity C; [eapply (prefix_shorter M C L); done || lia|done]).
  assert (zlen C ≤ zlen G) by by apply prefix_zlen.
  pose proof (carries_len _ _ Hc) as Hlen. pose proof (carries_prev _ _ Hc).
  assert (0 < zlen (ae_Entries args)) by (destruct (ae_Entries args); [done|zlia]).
  assert (overtaken r args = true) as Hov; [|unfold in_order in Hord; congruence].
  unfold overtaken. rewrite !andb_true_iff, (full_last _ _ HG).
  split_and!; [lia|lia|lia|]. apply has_terms_intro. intros k e Hk.
  apply (carries_entry _ _ Hc) in Hk as HeM. apply zget_Some_bound in Hk.
  rewrite (full_term r G) by (done || lia). f_equal.
  rewrite <- (termOf_prefix M G) by (done || lia). by apply termOf_entry.
Qed.

Section chosen.
Context {Cmd P : Type} `{!Persister P, !PersisterLaws P, !Codec (persistedState Cmd)}.
Abbreviation Raft := (Raft Cmd P).
Abbreviation Cluster := (Cluster (Cmd:=Cmd) (P:=P)).
Abbreviation Log := (list (LogEntry Cmd)).
Context (members : list Z) (Hnodup : NoDup members) (Hids : ∀ i, i ∈ members → 0 ≤ i).
Implicit Type r : Raft.
Implicit Type hist : list Raft.
Implicit Type s : Cluster.
Implicit Types G L M C : Log.
Implicit Type Ld : gmap Z Log.

(** ** Acknowledged, chosen, committed *)

Definition quorum (Q : list Z) : Prop :=
  NoDup Q ∧ Q ⊆ members ∧ zlen members / 2 + 1 ≤ zlen Q.

(** In term [t] node [v] held the initial segment [C]. *)
Definition holds hist Ld (v t : Z) C : Prop :=
  ∃ h G, h ∈ hist ∧ r_id h = v ∧ r_currentTerm h = t ∧ ghost Ld h G ∧ C `prefix_of` G.

(** [C] ends with an entry of term [t]. *)
Definition own (t : Z) C : Prop := C ≠ [] ∧ termOf C (zlen C) = t.

(** A majority held [C] in the term of its last entry. *)
Definition chosen hist Ld (t : Z) C : Prop :=
  own t C ∧ ∃ Q, quorum Q ∧ ∀ v, v ∈ Q → holds hist Ld v t C.

(** [C] is part of something chosen by term [t]. *)
Definition committed hist Ld (t : Z) C : Prop :=
  C = [] ∨ ∃ u K, u ≤ t ∧ chosen hist Ld u K ∧ C `prefix_of` K.

(** The leader of [T] does not have [C]. *)
Definition lacks Ld (T : Z) C : Prop := ∃ L, Ld !! T = Some L ∧ ¬ C `prefix_of` L.

(** [G] has [C], unless some leader after [t] and up to [u] lacks it. *)
Definition keeps Ld G C (t u : Z) : Prop :=
  C `prefix_of` G ∨ ∃ T, t < T ≤ u ∧ lacks Ld T C.

(** The logs of leaders grow by entries of their own term. *)
Definition grows Ld Ld' : Prop :=
  ∀ T L, Ld !! T = Some L → ∃ L', Ld' !! T = Some L' ∧ L `prefix_of` L' ∧
    ∀ i, zlen L < i ≤ zlen L' → termOf L' i = T.

Lemma grows_from Ld Ld' T G L :
  grows Ld Ld' → Ld !! T = Some L → G `prefix_of` L →
  (∀ i, zlen G < i ≤ zlen L → termOf L i = T) →
  ∃ L', Ld' !! T = Some L' ∧ G `prefix_of` L' ∧
    ∀ i, zlen G < i ≤ zlen L' → termOf L' i = T.
Proof.
  intros Hg HL Hp Hi. destruct (Hg _ _ HL) as (L' & HL' & Hp' & Hi'). exists L'.
  split_and!; [done|by transitivity L|]. intros i Hb.
  destruct (decide (i ≤ zlen L)); [|apply Hi'; lia].
  rewrite <- (termOf_prefix L L') by done. apply Hi. lia.
Qed.

Lemma grows_refl Ld : grows Ld Ld.
Proof. intros T L HL. exists L. split_and!; [done|done|lia]. Qed.

(** A new term's log, and one more entry of a term. *)
Lemma grows_fresh Ld T G : Ld !! T = None → grows Ld (<[T := G]> Ld).
Proof.
  intros Hno T' L HL. exists L. rewrite lookup_insert_ne by congruence.
  split_and!; [done|done|lia].
Qed.

Lemma grows_append Ld T G e :
  Ld !! T = Some G → le_Term e = T → grows Ld (<[T := G ++ [e]]> Ld).
Proof.
  intros HL He T' L HLT. destruct (decide (T' = T)) as [->|Hne].
  - rewrite lookup_insert_eq. simplify_eq. exists (G ++ [e]).
    split_and!; [done|by apply prefix_app_r|].
    intros j. rewrite zlen_app. intros Hj. assert (j = zlen G + 1) as -> by zlia.
    apply termOf_app_last.
  - rewrite lookup_insert_ne by done. exists L. split_and!; [done|done|lia].
Qed.

Lemma grows_extends Ld Ld' : grows Ld Ld' → extends Ld Ld'.
Proof. intros H T L (L' & ? & ? & _)%H. by exists L'. Qed.

Lemma holds_mono hist hist' Ld Ld' v t C :
  hist ⊆ hist' → grows Ld Ld' → holds hist Ld v t C → holds hist' Ld' v t C.
Proof.
  intros Hh Hg (h & G & ? & ? & ? & ? & ?). exists h, G. split_and!; auto.
  by eapply ghost_extends; [apply grows_extends|].
Qed.

Lemma holds_prefix hist Ld v t C C' :
  C' `prefix_of` C → holds hist Ld v t C → holds hist Ld v t C'.
Proof. intros Hp (h & G & ? & ? & ? & ? & ?). exists h, G. split_and!; try done. by transitivity C. Qed.

Lemma chosen_mono hist hist' Ld Ld' t C :
  hist ⊆ hist' → grows Ld Ld' → chosen hist Ld t C → chosen hist' Ld' t C.
Proof.
  intros Hh Hg (Ho & Q & HQ & Hv). split; [done|]. exists Q. split; [done|].
  intros v Hin. eapply holds_mono; [done|done|by apply Hv].
Qed.

Lemma committed_mono hist hist' Ld Ld' t t' C :
  hist ⊆ hist' → grows Ld Ld' → t ≤ t' → committed hist Ld t C → committed hist' Ld' t' C.
Proof.
  intros Hh Hg Ht [->|(u & K & ? & Hc & ?)]; [by left|]. right. exists u, K.
  split_and!; [lia|by eapply chosen_mono|done].
Qed.

Lemma committed_prefix hist Ld t C C' :
  C' `prefix_of` C → committed hist Ld t C → committed hist Ld t C'.
Proof.
  intros Hp [->|(u & K & ? & ? & ?)].
  - left. by apply prefix_nil_inv in Hp.
  - right. exists u, K. split_and!; try done. by transitivity C.
Qed.

Lemma own_index t C G :
  own t C → C `prefix_of` G → 1 ≤ zlen C ≤ zlen G ∧ termOf G (zlen C) = t.
Proof.
  intros [Hne Ht] Hp. assert (1 ≤ zlen C) by (destruct C; [done|zlia]).
  split; [by split; [|apply prefix_zlen]|]. by rewrite <- (termOf_prefix C G).
Qed.

(** What ends with an entry of term [t] is in the log of its leader. *)
Lemma own_leader Ld t C G :
  sound Ld G → own t C → C `prefix_of` G → ∃ L, Ld !! t = Some L ∧ C `prefix_of` L.
Proof.
  intros HG Ho Hp. destruct (own_index t C G Ho Hp) as [Hb Ht].
  destruct (HG (zlen C)) as (L & HL & HpL); [lia|]. rewrite Ht in HL.
  exists L. by rewrite (prefix_upto _ _ Hp).
Qed.

Lemma holds_leader hist Ld v t C :
  own t C → holds hist Ld v t C → ∃ L, Ld !! t = Some L ∧ C `prefix_of` L.
Proof. intros Ho (h & G & _ & _ & _ & [_ HS] & Hp). by eapply own_leader. Qed.

(** Growth by later entries does not give a leader what it lacked. *)
Lemma lacks_mono Ld Ld' T t C :
  grows Ld Ld' → own t C → t < T → lacks Ld T C → lacks Ld' T C.
Proof.
  intros Hg Ho Ht (L & HL & Hno). destruct (Hg _ _ HL) as (L' & HL' & Hp & Hnew).
  exists L'. split; [done|]. intros HC. destruct (own_index t C L' Ho HC) as [Hb HtC].
  apply Hno. apply (prefix_shorter C L L'); [done|done|].
  destruct (decide (zlen C ≤ zlen L)); [done|]. specialize (Hnew (zlen C) ltac:(lia)). lia.
Qed.

Lemma keeps_mono Ld Ld' G G' C t u u' :
  grows Ld Ld' → own t C → u ≤ u' → (C `prefix_of` G → C `prefix_of` G') →
  keeps Ld G C t u → keeps Ld' G' C t u'.
Proof.
  intros Hg Ho Hu HG [?|(T & HT & Hl)]; [left; auto|]. right. exists T.
  split; [lia|]. eapply lacks_mono; try done. lia.
Qed.

(** ** The invariant *)

(** The terms of a log in order, and none above [t]. *)
Definition ordered (t : Z) L : Prop :=
  (∀ i j, 1 ≤ i → i ≤ j → j ≤ zlen L → termOf L i ≤ termOf L j) ∧
  (∀ i, 1 ≤ i ≤ zlen L → termOf L i ≤ t).

(** The majority that elected the leader of [T]: what they held before it
    has, or an earlier leader lacked it. *)
Definition elected_with hist Ld (T : Z) L : Prop :=
  ∃ Q, quorum Q ∧ ∀ v, v ∈ Q →
    (∃ h, h ∈ hist ∧ r_id h = v ∧ r_currentTerm h = T) ∧
    ∀ t C, t < T → own t C → holds hist Ld v t C → keeps Ld L C t (T - 1).

Record node_ok hist Ld r G : Prop := {
  nk_term : 0 ≤ r_currentTerm r ∧ (r_state r = Candidate → 1 ≤ r_currentTerm r);
  nk_last : termOf G (zlen G) ≤ r_currentTerm r;
  nk_pos : positions_ok r;
  nk_commit : committed hist Ld (r_currentTerm r) (upto (r_commitIndex r) G);
  nk_retain t C : own t C → holds hist Ld (r_id r) t C →
    keeps Ld G C t (r_currentTerm r);
  nk_match : r_state r = Leader → ∀ p, p ∈ r_peers r →
    matchOf r p ≤ r_commitIndex r ∨
    (matchOf r p ≤ zlen G ∧ holds hist Ld p (r_currentTerm r) (upto (matchOf r p) G))
}.

(** [G] is the log a candidate's vote request describes. *)
Definition describes Ld (args : RequestVoteArgs) G : Prop :=
  sound Ld G ∧ zlen G = rv_LastLogIndex args ∧
  termOf G (zlen G) = rv_LastLogTerm args ∧ rv_LastLogTerm args ≤ rv_Term args.

Definition msg_ok hist Ld (m : Msg (Cmd:=Cmd)) : Prop :=
  match m with
  | MVoteReq _ args => ∃ G, describes Ld args G
  | MVoteRep v args reply => rvr_VoteGranted reply = true →
      ∃ G, describes Ld args G ∧ ∀ t C, t < rv_Term args → own t C →
        holds hist Ld v t C → keeps Ld G C t (rv_Term args)
  | MAppendReq _ args =>
      ∃ L, Ld !! ae_Term args = Some L ∧ ae_LeaderCommit args ≤ zlen L ∧
        ae_LeaderCommit args ≤ ae_PrevLogIndex args + zlen (ae_Entries args) ∧
        committed hist Ld (ae_Term args) (upto (ae_LeaderCommit args) L)
  | MAppendRep v args reply => aer_Success reply = true →
      ∃ L, Ld !! ae_Term args = Some L ∧
        ae_PrevLogIndex args + zlen (ae_Entries args) ≤ zlen L ∧
        holds hist Ld v (ae_Term args)
          (upto (ae_PrevLogIndex args + zlen (ae_Entries args)) L)
  | MSnapReq _ args =>
      ∃ L, Ld !! is_Term args = Some L ∧ is_LastIncludedIndex args ≤ zlen L ∧
        committed hist Ld (is_Term args) (upto (is_LastIncludedIndex args) L)
  | MSnapRep _ _ _ => True
  end.

(** The snapshot position of a snapshot message or its answer. *)
Definition snap_pos (m : Msg (Cmd:=Cmd)) : option (Z * Z) :=
  match m with
  | MSnapReq _ args | MSnapRep _ args _ => Some (is_Term args, is_LastIncludedIndex args)
  | _ => None
  end.

Record safe s Ld : Prop := {
  sf_order T L : Ld !! T = Some L → 1 ≤ T ∧ ordered T L;
  sf_elected T L : Ld !! T = Some L → elected_with (c_hist s) Ld T L;
  sf_node i r : c_nodes s !! i = Some r → ∃ G, ghost Ld r G ∧ node_ok (c_hist s) Ld r G;
  sf_hist h : h ∈ c_hist s → ∃ G, ghost Ld h G ∧ positions_ok h ∧
    committed (c_hist s) Ld (r_currentTerm h) (upto (r_commitIndex h) G);
  sf_lead h : h ∈ c_hist s → r_state h = Leader → ∃ G L, ghost Ld h G ∧
    Ld !! r_currentTerm h = Some L ∧ G `prefix_of` L ∧
    ∀ i, zlen G < i ≤ zlen L → termOf L i = r_currentTerm h;
  sf_msg m : m ∈ c_net s → msg_ok (c_hist s) Ld m;
  sf_snap m T n i r : m ∈ c_net s → snap_pos m = Some (T, n) →
    c_nodes s !! i = Some r → r_state r = Leader → r_currentTerm r = T →
    n ≤ r_commitIndex r;
  sf_election e r : e ∈ c_elections s → c_nodes s !! re_node e = Some r →
    rv_Term (el_args (re_el e)) ≤ r_currentTerm r ∧
    (r_state r = Candidate → r_currentTerm r = rv_Term (el_args (re_el e)) →
     rv_LastLogIndex (el_args (re_el e)) = lastIndex r ∧
     rv_LastLogTerm (el_args (re_el e)) = lastTerm r)
}.

(** ** Leader completeness *)

Lemma quorum_meets (Q1 Q2 : list Z) : quorum Q1 → quorum Q2 → ∃ v, v ∈ Q1 ∧ v ∈ Q2.
Proof. intros (?&?&?) (?&?&?). by apply (quorum_intersect members). Qed.

Lemma quorum_nonempty (Q : list Z) : quorum Q → ∃ v, v ∈ Q.
Proof. intros HQ. destruct (quorum_meets Q Q HQ HQ) as (v & ? & _). by exists v. Qed.

Lemma chosen_leader hist Ld t C :
  chosen hist Ld t C → ∃ L, Ld !! t = Some L ∧ C `prefix_of` L.
Proof.
  intros (Ho & Q & HQ & Hv). destruct (quorum_nonempty Q HQ) as (v & Hin).
  by eapply holds_leader, Hv.
Qed.

Lemma leader_complete s Ld t C T L :
  safe s Ld → chosen (c_hist s) Ld t C → t ≤ T → Ld !! T = Some L → C `prefix_of` L.
Proof.
  intros Hsf Hc. revert L. induction T as [T IH] using (well_founded_induction (Z.lt_wf t)).
  intros L Ht HL. destruct (decide (t = T)) as [->|Hne].
  - destruct (chosen_leader _ _ _ _ Hc) as (L' & HL' & Hp). congruence.
  - destruct (sf_elected _ _ Hsf T L HL) as (Q & HQ & Hv).
    assert (Hc' := Hc). destruct Hc' as (Ho & Q' & HQ' & Hh).
    destruct (quorum_meets Q Q' HQ HQ') as (v & Hin & Hin').
    destruct (Hv v Hin) as (_ & Hk).
    destruct (Hk t C ltac:(lia) Ho (Hh v Hin')) as [|(U & HU & L' & HL' & Hno)]; [done|].
    destruct Hno. apply (IH U); [lia|lia|done].
Qed.

Lemma committed_leader s Ld t C T L :
  safe s Ld → committed (c_hist s) Ld t C → t ≤ T → Ld !! T = Some L → C `prefix_of` L.
Proof.
  intros Hsf [->|(u & K & ? & Hc & Hp)] Ht HL; [apply prefix_nil|].
  transitivity K; [done|]. eapply leader_complete; [done|done| |done]. lia.
Qed.

(** Whatever two nodes have committed, one is part of the other. *)
Lemma committed_comparable s Ld t1 t2 C1 C2 :
  safe s Ld → committed (c_hist s) Ld t1 C1 → committed (c_hist s) Ld t2 C2 →
  C1 `prefix_of` C2 ∨ C2 `prefix_of` C1.
Proof.
  intros Hsf [->|(u1 & K1 & _ & H1 & P1)]; [left; apply prefix_nil|].
  intros [->|(u2 & K2 & _ & H2 & P2)]; [right; apply prefix_nil|].
  destruct (chosen_leader _ _ _ _ H1) as (L1 & HL1 & HK1).
  destruct (chosen_leader _ _ _ _ H2) as (L2 & HL2 & HK2).
  destruct (Z.le_ge_cases u1 u2).
  - pose proof (leader_complete s Ld u1 K1 u2 L2 Hsf H1 ltac:(lia) HL2).
    apply (prefix_weak_total C1 C2 L2); [by transitivity K1|by transitivity K2].
  - pose proof (leader_complete s Ld u2 K2 u1 L1 Hsf H2 ltac:(lia) HL1).
    apply (prefix_weak_total C1 C2 L1); [by transitivity K1|by transitivity K2].
Qed.
End chosen.
