(* ===== verification/RaftSafety.v ===== *)
(** * State machine safety

    Every step of a cluster whose network delivers no overtaken
    AppendEntries keeps the invariant of RaftChosen.v; so no two nodes ever
    commit, or hand to their state machines, different entries at an index. *)
From S2P Require Import Prelude Persister RaftNode RaftFacts RaftDurable RaftVotes RaftLog RaftDemo RaftPositions RaftCommit RaftCluster RaftGhost RaftDivergence RaftLogMatching RaftChosen.
Local Open Scope Z_scope.

Section safety.
Context {Cmd P : Type} `{!Persister P, !PersisterLaws P, !Codec (persistedState Cmd)}.
Abbreviation Raft := (Raft Cmd P).
Abbreviation Cluster := (Cluster (Cmd:=Cmd) (P:=P)).
Abbreviation Log := (list (LogEntry Cmd)).
Context (members : list Z) (Hnodup : NoDup members) (Hids : ∀ i, i ∈ members → 0 ≤ i).
Implicit Type r : Raft.
Implicit Type hist : list Raft.
Implicit Type s : Cluster.
Implicit Types G L M C : Log.
Implicit Type Ld : gmap Z Log.

Abbreviation inv := (inv members).
Abbreviation safe := (safe members).
Abbreviation node_ok := (node_ok members).
Abbreviation committed := (committed members).
Abbreviation msg_ok := (msg_ok members).

(** ** The general step *)

(** Who holds what after a node's step: the node its own new log. *)
Lemma holds_new s Ld Ld' r' G' v t C :
  logs s Ld → grows Ld Ld' → ghost Ld' r' G' → holds (r' :: c_hist s) Ld' v t C →
  (v = r_id r' ∧ t = r_currentTerm r' ∧ C `prefix_of` G') ∨ holds (c_hist s) Ld v t C.
Proof.
  intros Hlg Hg HG' (h & Gh & [->|Hh]%elem_of_cons & <- & <- & HGh & Hp).
  - left. split_and!; try done. by rewrite (ghost_unique _ _ _ _ HG' HGh).
  - right. destruct (lg_hist _ _ Hlg h Hh) as [G0 HG0].
    assert (Gh = G0) as -> by (eapply ghost_unique; [done|];
      by eapply ghost_extends; [apply grows_extends|]).
    by exists h, G0.
Qed.

(** A node seen in term [T] makes no new claim about an earlier term. *)
Lemma holds_settled s Ld Ld' i r r' G' v t C T :
  inv s → logs s Ld → grows Ld Ld' → ghost Ld' r' G' → c_nodes s !! i = Some r →
  succeeds r r' → (∃ h, h ∈ c_hist s ∧ r_id h = v ∧ r_currentTerm h = T) → t < T →
  holds (r' :: c_hist s) Ld' v t C → holds (c_hist s) Ld v t C.
Proof.
  intros Hinv Hlg Hg HG' Hi [Hid Hle _] (h & Hh & Hhv & HhT) Ht
    [(-> & -> & _)|?]%(holds_new s Ld Ld' r' G'); [|done..].
  destruct (lg_past _ _ Hlg h Hh) as (rh & Hrh & HT & _).
  destruct (inv_node _ _ Hinv _ _ Hi) as (_ & Hri & _).
  rewrite Hhv, Hid, Hri, Hi in Hrh. simplify_eq. lia.
Qed.

Record step_ok s Ld i r G r' G' Ld' (msgs : list (Msg (Cmd:=Cmd))) : Prop := {
  so_succeeds : succeeds r r';
  so_peers : r_peers r' = r_peers r;
  so_grows : grows Ld Ld';
  so_ghost : ghost Ld' r' G';
  so_leads : r_state r' = Leader → Ld' !! r_currentTerm r' = Some G';
  so_order T L : Ld' !! T = Some L → 1 ≤ T ∧ ordered T L;
  so_elected T L : Ld' !! T = Some L → Ld !! T = None →
    elected_with members (r' :: c_hist s) Ld' T L;
  so_last : termOf G' (zlen G') ≤ r_currentTerm r';
  so_pos : positions_ok r';
  so_commit : committed (r' :: c_hist s) Ld' (r_currentTerm r')
    (upto (r_commitIndex r') G');
  so_retain t C : own t C → holds (c_hist s) Ld i t C → t ≤ r_currentTerm r →
    C `prefix_of` G → keeps Ld' G' C t (r_currentTerm r');
  so_match : r_state r' = Leader → ∀ p, p ∈ r_peers r' →
    matchOf r' p ≤ r_commitIndex r' ∨
    (matchOf r' p ≤ zlen G' ∧
     holds (r' :: c_hist s) Ld' p (r_currentTerm r') (upto (matchOf r' p) G'));
  so_candidate : r_state r' = Candidate →
    lastIndex r' = lastIndex r ∧ lastTerm r' = lastTerm r;
  so_leader : r_state r' = Leader → Ld !! r_currentTerm r' = None ∨
    (r_state r = Leader ∧ r_currentTerm r' = r_currentTerm r ∧
     r_commitIndex r ≤ r_commitIndex r');
  so_snaps m x : m ∈ msgs → snap_pos m = Some x →
    ∃ m0, m0 ∈ c_net s ∧ snap_pos m0 = Some x;
  so_msgs m : m ∈ msgs → msg_ok (r' :: c_hist s) Ld' m
}.

Lemma snap_pos_term s Ld m T n :
  logs s Ld → m ∈ c_net s → snap_pos m = Some (T, n) → is_Some (Ld !! T).
Proof.
  intros Hlg Hm Hp. pose proof (lg_msg _ _ Hlg m Hm) as Hgood.
  destruct m; simplify_eq/=; destruct Hgood as (M & L & HL & _); by exists L.
Qed.

(** A message stays right. *)
Lemma msg_ok_step s Ld i r G r' G' Ld' msgs m :
  inv s → logs s Ld → safe s Ld → c_nodes s !! i = Some r →
  step_ok s Ld i r G r' G' Ld' msgs → m ∈ c_net s → msg_ok (r' :: c_hist s) Ld' m.
Proof.
  intros Hinv Hlg Hsf Hi Hst Hm. pose proof (sf_msg _ _ _ Hsf m Hm) as Hok.
  pose proof (so_grows _ _ _ _ _ _ _ _ _ Hst) as Hg.
  pose proof (grows_extends _ _ Hg) as Hext.
  assert (c_hist s ⊆ r' :: c_hist s) as Hsub by (intros x; by right).
  assert (∀ args GG, describes Ld args GG → describes Ld' args GG) as Hdesc.
  { intros args GG (? & ? & ? & ?). split_and!; try done. by eapply sound_extends. }
  assert (∀ T L n, Ld !! T = Some L → n ≤ zlen L →
    ∃ L', Ld' !! T = Some L' ∧ n ≤ zlen L' ∧ upto n L' = upto n L) as Hup.
  { intros T L n HL Hn. destruct (Hext _ _ HL) as (L' & HL' & Hp). exists L'.
    pose proof (prefix_zlen _ _ Hp). split_and!; [done|lia|by apply upto_of_prefix]. }
  destruct m as [to args|v args reply|to args|v args reply|to args|v args reply]; simpl in *.
  - destruct Hok as (GG & ?). exists GG. auto.
  - intros Hgr. destruct (Hok Hgr) as (GG & Hd & Hk). exists GG. split; [auto|].
    intros t C Ht Ho Hh. destruct (inv_grant _ _ Hinv _ _ _ Hm Hgr) as (_ & h & ? & ? & ? & _).
    eapply (keeps_mono Ld); [done|done|reflexivity|done|]. apply Hk; [done|done|].
    eapply holds_settled; try done; [apply Hst|apply Hst|by exists h].
  - destruct Hok as (L & HL & Hn & Hn2 & Hc). destruct (Hup _ _ _ HL Hn) as (L' & ? & ? & Heq).
    exists L'. rewrite Heq. split_and!; try done. by eapply committed_mono; [..|reflexivity|].
  - intros Hs. destruct (Hok Hs) as (L & HL & Hn & Hh). destruct (Hup _ _ _ HL Hn) as (L' & ? & ? & Heq).
    exists L'. rewrite Heq. split_and!; try done. by eapply holds_mono.
  - destruct Hok as (L & HL & Hn & Hc). destruct (Hup _ _ _ HL Hn) as (L' & ? & ? & Heq).
    exists L'. rewrite Heq. split_and!; try done. by eapply committed_mono; [..|reflexivity|].
  - done.
Qed.

Lemma safe_update s Ld i r G r' G' Ld' msgs :
  inv s → logs s Ld → safe s Ld → c_nodes s !! i = Some r → ghost Ld r G →
  step_ok s Ld i r G r' G' Ld' msgs → safe (update s i r' msgs) Ld'.
Proof.
  intros Hinv Hlg Hsf Hi HG Hst. assert (Hst' := Hst).
  destruct Hst' as [[Hid Ht Hca] Hpe Hg HG' Hlds Hor Hel Hla Hpos Hco Hre Hma Hcl Hle Hsn Hms].
  pose proof (grows_extends _ _ Hg) as Hext.
  assert (c_hist s ⊆ r' :: c_hist s) as Hsub by (intros x; by right).
  destruct (inv_node _ _ Hinv _ _ Hi) as (_ & Hri & _).
  destruct (sf_node _ _ _ Hsf i r Hi) as (G0 & HG0 & Hok).
  assert (G0 = G) as -> by (by eapply ghost_unique).
  split; simpl.
  - exact Hor.
  - intros T L HL. destruct (Ld !! T) as [L0|] eqn:HL0; [|by apply Hel].
    destruct (Hext _ _ HL0) as (L1 & HL1 & Hp). simplify_eq.
    destruct (sf_elected _ _ _ Hsf T L0 HL0) as (Q & HQ & Hv). exists Q. split; [done|].
    intros v Hin. destruct (Hv v Hin) as [(h & Hh & ? & ?) Hk].
    split; [exists h; split_and!; [by right|done|done]|]. intros t C HtT Ho Hh'.
    eapply (keeps_mono Ld _ L0); [done|done|reflexivity|by intros; transitivity L0|].
    apply Hk; [done|done|]. eapply holds_settled; try done. by exists h.
  - intros j rj [[-> <-]|[Hne Hj]]%lookup_insert_Some.
    + exists G'. split; [done|]. split; try done.
      * pose proof (nk_term _ _ _ _ _ Hok) as [? ?]. split; [lia|].
        intros HC. destruct (Hca HC) as [?|[? ?]]; [lia|]. rewrite Ht in *. auto with lia.
      * intros t C Ho [(_ & -> & ?)|Hh]%(holds_new s Ld Ld' r' G'); [by left| |done..].
        rewrite Hid, Hri in Hh. assert (Hh2 := Hh). destruct Hh2 as (h & _ & Hh0 & Hhi & Hht & _).
        destruct (lg_past _ _ Hlg h Hh0) as (rh & Hrh & HT & _).
        rewrite Hhi, Hi in Hrh. simplify_eq.
        destruct (nk_retain _ _ _ _ _ Hok (r_currentTerm h) C) as [Hp|(T & HT' & Hl)].
        -- done.
        -- done.
        -- by apply Hre.
        -- right. exists T. split; [lia|]. eapply lacks_mono; try done. lia.
    + destruct (sf_node _ _ _ Hsf j rj Hj) as (Gj & HGj & [? ? ? Hcj Hrj Hmj]).
      destruct (inv_node _ _ Hinv _ _ Hj) as (_ & Hrji & _).
      exists Gj. split; [by eapply ghost_extends|]. split; try done.
      * by eapply committed_mono; [..|reflexivity|].
      * intros t C Ho [(Heq & _)|Hh]%(holds_new s Ld Ld' r' G'); [congruence| |done..].
        eapply (keeps_mono Ld); [done|done|reflexivity|done|]. by apply Hrj.
      * intros HL p Hp. destruct (Hmj HL p Hp) as [?|[? ?]]; [by left|right].
        split; [done|by eapply holds_mono].
  - intros h [->|Hh]%elem_of_cons; [by exists G'|].
    destruct (sf_hist _ _ _ Hsf h Hh) as (Gh & HGh & ? & Hc). exists Gh.
    split_and!; [by eapply ghost_extends|done|]. by eapply committed_mono; [..|reflexivity|].
  - intros h [->|Hh]%elem_of_cons HL; [exists G', G'; split_and!; [done|by apply Hlds|done|lia]|].
    destruct (sf_lead _ _ _ Hsf h Hh HL) as (Gh & L & HGh & HLh & Hp & Hb).
    destruct (grows_from Ld Ld' (r_currentTerm h) Gh L) as (L' & ? & ? & ?); try done.
    exists Gh, L'. split_and!; try done. by eapply ghost_extends.
  - intros m [Hm|Hm]%elem_of_app; [by apply Hms|]. by eapply msg_ok_step.
  - intros m T n j rj Hm Hp Hj HL HT.
    assert (∃ m0, m0 ∈ c_net s ∧ snap_pos m0 = Some (T, n)) as (m0 & Hm0 & Hp0).
    { apply elem_of_app in Hm as [Hm|Hm]; [by eapply Hsn|by exists m]. }
    apply lookup_insert_Some in Hj as [[-> <-]|[Hne Hj]]; [|by eapply (sf_snap _ _ _ Hsf m0)].
    destruct (Hle HL) as [Hnone|(Hl & Hteq & Hci)].
    + destruct (snap_pos_term s Ld m0 T n) as [L HLs]; [done..|]. congruence.
    + pose proof (sf_snap _ _ _ Hsf m0 T n _ r Hm0 Hp0 Hi Hl ltac:(congruence)). lia.
  - intros e rj He [[Hei <-]|[Hne Hj]]%lookup_insert_Some; [|by eapply (sf_election _ _ _ Hsf)].
    rewrite Hei in Hi. destruct (sf_election _ _ _ Hsf e r He Hi) as [Hte Hinfo].
    split; [lia|]. intros HC Hteq. destruct (Hcl HC) as [-> ->].
    destruct (Hca HC) as [?|[? ?]]; [lia|]. apply Hinfo; [done|lia].
Qed.

(** ** Steps that keep the log *)

Lemma hist_grows (h : Raft) hist : hist ⊆ h :: hist.
Proof. intros x. by right. Qed.

Lemma node_ghost s Ld i r :
  safe s Ld → c_nodes s !! i = Some r →
  ∃ G, ghost Ld r G ∧ node_ok (c_hist s) Ld r G.
Proof. intros Hsf. apply (sf_node _ _ _ Hsf). Qed.

(** The commit index may fall back (a restart) but then nobody leads. *)
Lemma safe_same s Ld i r r' msgs :
  inv s → logs s Ld → safe s Ld → c_nodes s !! i = Some r → evolves r r' →
  (∀ G, full r G → full r' G) → positions_ok r' →
  r_commitIndex r' ≤ r_commitIndex r →
  (r_state r' = Leader →
    r_commitIndex r' = r_commitIndex r ∧ r_matchIndex r' = r_matchIndex r) →
  (∀ m x, m ∈ msgs → snap_pos m = Some x → ∃ m0, m0 ∈ c_net s ∧ snap_pos m0 = Some x) →
  (∀ m, m ∈ msgs → msg_ok (r' :: c_hist s) Ld m) →
  safe (update s i r' msgs) Ld.
Proof.
  intros Hinv Hlg Hsf Hi Hev Hf Hpos Hci Hlead Hsn Hm.
  destruct (node_ghost s Ld i r Hsf Hi) as (G & [HG HS] & Hok).
  pose proof (evolves_succeeds _ _ Hev) as Hsu. pose proof (su_term _ _ Hsu).
  eapply (safe_update s Ld i r G r' G); try done.
  split; try done.
  - apply Hev.
  - apply grows_refl.
  - by split; [apply Hf|].
  - intros HL. apply (ev_leader _ _ Hev) in HL as [HL ->].
    destruct (lg_node _ _ Hlg i r Hi) as (G0 & HG0 & Hlds).
    assert (G0 = G) as -> by by eapply ghost_unique. by apply Hlds.
  - apply Hsf.
  - congruence.
  - pose proof (nk_last _ _ _ _ _ Hok). lia.
  - eapply committed_prefix; [by apply upto_prefix_le|].
    eapply committed_mono; [apply hist_grows|apply grows_refl|done|apply Hok].
  - intros t C _ _ _ ?. by left.
  - intros HL p Hp. destruct (Hlead HL) as [Hc Hmi]. apply (ev_leader _ _ Hev) in HL as [HL Ht].
    unfold matchOf. rewrite Hc, Hmi, Ht. fold (matchOf r p).
    rewrite (ev_peers _ _ Hev) in Hp.
    destruct (nk_match _ _ _ _ _ Hok HL p Hp) as [?|[? ?]]; [by left|right].
    split; [done|]. eapply holds_mono; [apply hist_grows|apply grows_refl|done].
  - intros _. rewrite !(full_last _ G), !(full_lastTerm _ G) by auto. done.
  - intros HL. right. destruct (Hlead HL) as [-> _].
    apply (ev_leader _ _ Hev) in HL as [? ?]. done.
Qed.

(** A quiet step of a node that evolves. *)
Lemma safe_quiet s Ld i r r' msgs :
  inv s → logs s Ld → safe s Ld → c_nodes s !! i = Some r → evolves r r' → quiet r r' →
  (∀ m x, m ∈ msgs → snap_pos m = Some x → ∃ m0, m0 ∈ c_net s ∧ snap_pos m0 = Some x) →
  (∀ m, m ∈ msgs → msg_ok (r' :: c_hist s) Ld m) →
  safe (update s i r' msgs) Ld.
Proof.
  intros Hinv Hlg Hsf Hi Hev Hq Hsn Hm.
  destruct (node_ghost s Ld i r Hsf Hi) as (G & _ & Hok).
  assert (Hq' := Hq). destruct Hq' as ((? & ? & ?) & Hci & ? & ? & ?).
  eapply safe_same; try done.
  - intros GG. by apply quiet_full.
  - eapply positions_same; [apply Hok|done..].
  - lia.
Qed.

Lemma no_snaps s m x :
  m ∈ ([] : list (Msg (Cmd:=Cmd))) → snap_pos m = Some x →
  ∃ m0, m0 ∈ c_net s ∧ snap_pos m0 = Some x.
Proof. by intros []%not_elem_of_nil. Qed.

Lemma no_msg_ok hist Ld m : m ∈ [] → msg_ok hist Ld m.
Proof. by intros []%not_elem_of_nil. Qed.

Lemma safe_set_starting s Ld l : safe s Ld → safe (set_starting l s) Ld.
Proof. intros []. by split. Qed.

Lemma safe_set_elections s Ld l :
  safe s Ld →
  (∀ e, e ∈ l → ∃ e0, e0 ∈ c_elections s ∧ re_node e = re_node e0 ∧
    el_args (re_el e) = el_args (re_el e0)) →
  safe (set_elections l s) Ld.
Proof.
  intros [] Hl. split; try done. intros e r He Hr. simpl in He, Hr.
  destruct (Hl e He) as (e0 & He0 & Hn & Ha). rewrite Hn in Hr. rewrite Ha. eauto.
Qed.

Lemma safe_send s Ld msgs :
  safe s Ld → (∀ m, m ∈ msgs → msg_ok (c_hist s) Ld m) →
  (∀ m T n, m ∈ msgs → snap_pos m = Some (T, n) →
    ∀ i r, c_nodes s !! i = Some r → r_state r = Leader → r_currentTerm r = T →
      n ≤ r_commitIndex r) →
  safe (send msgs s) Ld.
Proof.
  intros [] Hm Hs. split; simpl; try done.
  - intros m [?|?]%elem_of_app; auto.
  - intros m T n i r [?|?]%elem_of_app; eauto.
Qed.

(** The request of a new election describes its node's log. *)
Lemma safe_begin_election s Ld i r rest :
  inv s → safe s Ld → c_nodes s !! i = Some r →
  safe (set_starting rest
    (set_elections (mkRunning i (startElection_begin r) (r_peers r) :: c_elections s)
      (send (map (λ p, MVoteReq p (el_args (startElection_begin r))) (r_peers r)) s))) Ld.
Proof.
  intros Hinv Hsf Hi. destruct (node_ghost s Ld i r Hsf Hi) as (G & [HG HS] & Hok).
  unfold startElection_begin. rewrite lastLogInfo_eq. simpl. apply safe_set_starting.
  assert (safe (send (map (λ p, MVoteReq p (mkRequestVoteArgs (r_currentTerm r) (r_id r)
    (lastIndex r) (lastTerm r))) (r_peers r)) s) Ld) as Hsend.
  { apply safe_send; [done|..]; intros m; [intros Hin|intros T n Hin Hsn];
      apply list_elem_of_In, in_map_iff in Hin as (p & <- & _); [|done].
    exists G. split_and!; simpl; [done|..].
    - by rewrite (full_last _ _ HG).
    - by rewrite (full_lastTerm _ _ HG).
    - rewrite (full_lastTerm _ _ HG). apply Hok. }
  destruct Hsend. split; try done.
  intros e r0 [->|He]%elem_of_cons Hr0; simpl in *; [|by eauto].
  rewrite Hi in Hr0. by simplify_eq.
Qed.

Lemma safe_replicate s Ld i r peer args :
  logs s Ld → safe s Ld → c_nodes s !! i = Some r →
  replicateToPeer_begin r peer = Ret (ReplicateEntries args) →
  msg_ok (c_hist s) Ld (MAppendReq peer args).
Proof.
  intros Hlg Hsf Hi H. destruct (node_ghost s Ld i r Hsf Hi) as (G & HG & Hok).
  destruct (lg_node _ _ Hlg i r Hi) as (G0 & HG0 & Hlead).
  assert (G0 = G) as -> by by eapply ghost_unique.
  assert (r_state r = Leader) as Hst.
  { unfold replicateToPeer_begin in H. by destruct (r_state r); inv_ret. }
  destruct (Hlead Hst) as [HL Hn].
  destruct (replicate_carries r G peer args) as (_ & Ht & _ & Hlc & Hc); [apply HG|done|done|].
  destruct (nk_pos _ _ _ _ _ Hok) as [_ [_ Hci]].
  rewrite (full_last r G) in Hci by apply HG.
  exists G. rewrite Ht, Hlc, <- (carries_len _ _ Hc). split_and!; try done. apply Hok.
Qed.

Lemma safe_send_snapshot s Ld i r peer args :
  inv s → logs s Ld → safe s Ld → c_nodes s !! i = Some r →
  sendInstallSnapshot_begin r = Some args →
  safe (send [MSnapReq peer args] s) Ld.
Proof.
  intros Hinv Hlg Hsf Hi H. destruct (node_ghost s Ld i r Hsf Hi) as (G & HG & Hok).
  destruct (lg_node _ _ Hlg i r Hi) as (G0 & HG0 & Hlead).
  assert (G0 = G) as -> by by eapply ghost_unique.
  destruct (sendSnapshot_stands r G args) as (Hst & Ht & _ & Hlii & _); [apply HG|done|].
  destruct (Hlead Hst) as [HL _]. destruct (nk_pos _ _ _ _ _ Hok) as [Hp1 Hp2].
  rewrite (full_last r G) in Hp2 by apply HG.
  apply safe_send; [done|..].
  - intros m [->|[]%not_elem_of_nil]%elem_of_cons. exists G. rewrite Ht, Hlii.
    split_and!; [done|lia|]. eapply committed_prefix; [|apply Hok]. apply upto_prefix_le. lia.
  - intros m T n [->|[]%not_elem_of_nil]%elem_of_cons [= <- <-] j rj Hj HLj HT.
    destruct (inv_node _ _ Hinv _ _ Hi) as (_ & Hri & _ & _ & _ & Hin).
    destruct (inv_node _ _ Hinv _ _ Hj) as (_ & Hrj & _ & _ & _ & Hinj).
    assert (r_id rj = r_id r) as Heq.
    { apply (one_leader members Hids s); auto. congruence. }
    assert (c_nodes s !! j = Some r) as Hj' by congruence.
    rewrite Hj in Hj'. simplify_eq. lia.
Qed.

(** ** Votes and elections *)

Lemma sound_last Ld G :
  sound Ld G → 1 ≤ zlen G → ∃ L, Ld !! termOf G (zlen G) = Some L ∧ G `prefix_of` L.
Proof.
  intros HS HG. destruct (HS (zlen G)) as (L & HL & Hp); [lia|]. exists L.
  by rewrite upto_all in Hp.
Qed.

Lemma ordered_prefix t L G : ordered t L → G `prefix_of` L → ordered t G.
Proof.
  intros [H1 H2] Hp. pose proof (prefix_zlen _ _ Hp). split.
  - intros i j Hi Hij Hj. rewrite !(termOf_prefix G L) by (done || lia). apply H1; lia.
  - intros i Hi. rewrite (termOf_prefix G L) by (done || lia). apply H2; lia.
Qed.

Lemma ordered_mono t u L : t ≤ u → ordered t L → ordered u L.
Proof. intros ? [? H]. split; [done|]. intros i Hi. specialize (H i Hi). lia. Qed.

(** A sound log is in order up to its last term. *)
Lemma sound_ordered s Ld G :
  safe s Ld → sound Ld G →
  ordered (termOf G (zlen G)) G ∧ (1 ≤ zlen G → 1 ≤ termOf G (zlen G)).
Proof.
  intros Hsf HS. destruct (decide (1 ≤ zlen G)) as [HG|HG]; [|by repeat split; lia].
  destruct (sound_last Ld G HS HG) as (L & HL & Hp).
  destruct (sf_order _ _ _ Hsf _ _ HL) as [? Hor]. split; [|done].
  by eapply ordered_prefix.
Qed.

(** The up-to-date check: the log of the candidate has what the voter kept. *)
Lemma up_to_date_keeps s Ld G Gv C t u :
  safe s Ld → sound Ld G → sound Ld Gv → own t C → C `prefix_of` Gv →
  termOf Gv (zlen Gv) < termOf G (zlen G) ∨
    (termOf G (zlen G) = termOf Gv (zlen Gv) ∧ zlen Gv ≤ zlen G) →
  termOf G (zlen G) ≤ u → keeps Ld G C t u.
Proof.
  intros Hsf HS HSv Ho Hp Hup Hu. destruct (own_index t C Gv Ho Hp) as [Hb Ht].
  destruct (sound_ordered s Ld Gv Hsf HSv) as [[Hmon _] Hpos].
  assert (t ≤ termOf Gv (zlen Gv)) as Htv by (rewrite <- Ht; apply Hmon; lia).
  specialize (Hpos ltac:(lia)).
  assert (1 ≤ zlen G) as HG.
  { destruct (decide (1 ≤ zlen G)) as [|Hn]; [done|].
    assert (termOf G (zlen G) = 0) as Hz; [|lia]. unfold termOf.
    destruct (entryOf G (zlen G)) eqn:He; [|done].
    assert (is_Some (entryOf G (zlen G))) as ?%entryOf_is_Some by (by eexists). lia. }
  destruct (sound_last Ld G HS HG) as (L & HL & HpL).
  destruct Hup as [Hlt|[Heq Hle]].
  - destruct (decide (C `prefix_of` L)) as [HCL|HCL].
    + left. apply (prefix_shorter C G L); [done|done|].
      destruct (decide (zlen C ≤ zlen G)) as [|Hgt]; [done|].
      destruct (sf_order _ _ _ Hsf _ _ HL) as [_ [HmonL _]].
      destruct (own_index t C L Ho HCL) as [HbL HtL].
      specialize (HmonL (zlen G) (zlen C) HG ltac:(lia) ltac:(lia)).
      rewrite <- (termOf_prefix G L) in HmonL by done. lia.
    + right. exists (termOf G (zlen G)). split; [lia|]. by exists L.
  - left. transitivity Gv; [done|]. destruct (sound_last Ld Gv HSv) as (L' & HL' & HpL'); [lia|].
    assert (L' = L) as -> by congruence. by eapply prefix_shorter.
Qed.

Lemma grant_ok s Ld i r args r' reply :
  inv s → logs s Ld → safe s Ld → c_nodes s !! i = Some r → MVoteReq i args ∈ c_net s →
  RequestVote r args = Ret (r', reply) →
  msg_ok (r' :: c_hist s) Ld (MVoteRep i args reply).
Proof.
  intros Hinv Hlg Hsf Hi Hm H Hgr. destruct (node_ghost s Ld i r Hsf Hi) as (Gv & HGv & Hok).
  destruct (sf_msg _ _ _ Hsf _ Hm) as (G & Hd). exists G. split; [done|].
  destruct Hd as (HS & Hlen & Hlt & HltT).
  assert (ghost Ld r' Gv) as HGv'.
  { destruct HGv as [HF HSv]. split; [|done]. eapply quiet_full; [by eapply RequestVote_quiet|done]. }
  destruct (RequestVote_meets _ _ _ _ H) as (Ht' & _ & [Hgrant _] & _).
  destruct (Hgrant Hgr) as (Htr & _ & Hup).
  rewrite (full_last r Gv), (full_lastTerm r Gv), <- Hlen, <- Hlt in Hup by apply HGv.
  destruct (inv_node _ _ Hinv _ _ Hi) as (_ & Hri & _).
  intros t C HtT Ho Hh. apply (holds_new s Ld Ld r' Gv) in Hh; [|done|apply grows_refl|done].
  destruct Hh as [(_ & -> & _)|Hh]; [lia|]. rewrite <- Hri in Hh.
  destruct (nk_retain _ _ _ _ _ Hok t C Ho Hh) as [Hp|(T & HT & Hl)].
  - apply (up_to_date_keeps s Ld G Gv); try done; [apply HGv|]. by rewrite Hlt.
  - right. exists T. split; [lia|done].
Qed.

(** The voters of a won election: the candidate and the peers whose grants
    it counted. *)
Lemma winning_quorum s e r peer reply pending :
  inv s → e ∈ c_elections s → c_nodes s !! re_node e = Some r →
  re_pending e ≡ₚ peer :: pending →
  MVoteRep peer (el_args (re_el e)) reply ∈ c_net s → rvr_VoteGranted reply = true →
  el_majority (re_el e) ≤ el_votes (re_el e) + 1 →
  ∃ Q, quorum members (re_node e :: Q) ∧ ∀ v, v ∈ Q →
    ∃ reply, MVoteRep v (el_args (re_el e)) reply ∈ c_net s ∧ rvr_VoteGranted reply = true.
Proof.
  intros Hinv He Hr Hpend Hmsg Hgr Hmaj.
  destruct (inv_election _ _ Hinv e He) as (Hmem & _ & Hm & Gl & Hn & Hs & Hvotes & HG).
  rewrite Hpend, <- Permutation_middle in Hn, Hs.
  assert (peer :: Gl ⊆ peers_of members (re_node e)) as Hsub.
  { intros x Hx. apply Hs. set_solver. }
  exists (peer :: Gl). split; [|intros v [->|Hv]%elem_of_cons; [by exists reply|by apply HG]].
  split_and!.
  - apply NoDup_cons. split; [by intros [? _]%Hsub%list_elem_of_filter|].
    apply NoDup_cons in Hn as [Hnin Hn]. apply NoDup_cons.
    split; [set_solver|]. by apply NoDup_app in Hn as (? & _).
  - intros x [->|Hx]%elem_of_cons; [done|]. by apply Hsub, list_elem_of_filter in Hx as [_ ?].
  - zlia.
Qed.

Lemma won_elected s Ld e r r' G peer reply pending :
  inv s → logs s Ld → safe s Ld → e ∈ c_elections s → c_nodes s !! re_node e = Some r →
  re_pending e ≡ₚ peer :: pending →
  MVoteRep peer (el_args (re_el e)) reply ∈ c_net s → rvr_VoteGranted reply = true →
  el_majority (re_el e) ≤ el_votes (re_el e) + 1 →
  r_currentTerm r = rv_Term (el_args (re_el e)) → just_won r r' →
  ghost Ld r G → Ld !! r_currentTerm r = None → grows Ld (<[r_currentTerm r := G]> Ld) →
  elected_with members (r' :: c_hist s) (<[r_currentTerm r := G]> Ld) (r_currentTerm r) G.
Proof.
  intros Hinv Hlg Hsf He Hr Hpend Hmsg Hgr Hmaj Ht Hw HG Hnone Hgrow.
  destruct (node_ghost s Ld _ r Hsf Hr) as (G0 & HG0 & Hok).
  assert (G0 = G) as -> by (by eapply ghost_unique).
  destruct (winning_quorum s e r peer reply pending) as (Q & HQ & Hgrants); try done.
  destruct (inv_node _ _ Hinv _ _ Hr) as (_ & Hri & _).
  pose proof (won_kept _ _ Hw) as Hps. assert (r_currentTerm r' = r_currentTerm r) as Ht'
    by by injection Hps.
  assert (ghost (<[r_currentTerm r := G]> Ld) r' G) as HG'.
  { split; [eapply full_same; [apply HG|by apply persisted_same_log]|].
    eapply sound_extends; [by apply grows_extends|apply HG]. }
  assert (∀ t C, own t C → keeps Ld G C t (r_currentTerm r) →
    keeps (<[r_currentTerm r := G]> Ld) G C t (r_currentTerm r - 1)) as Hkeep.
  { intros t C Ho [?|(T & HT & Hl)]; [by left|right]. exists T.
    assert (T ≠ r_currentTerm r) by (intros ->; destruct Hl as (L & HL & _); congruence).
    split; [lia|]. eapply lacks_mono; try done. lia. }
  assert (∀ v t C, t < r_currentTerm r → holds (r' :: c_hist s) (<[r_currentTerm r := G]> Ld) v t C →
    holds (c_hist s) Ld v t C) as Hold.
  { intros v t C Hlt [(_ & -> & _)|?]%(holds_new s Ld _ r' G); [lia|done..]. }
  exists (re_node e :: Q). split; [done|]. intros v [->|Hv]%elem_of_cons.
  - split; [exists r'; split_and!; [by left|by rewrite (won_id _ _ Hw)|done]|].
    intros t C Hlt Ho Hh%Hold; [|done]. apply Hkeep; [done|]. apply Hok; [done|by rewrite Hri].
  - destruct (Hgrants v Hv) as (rep & Hin & Hg).
    destruct (inv_grant _ _ Hinv _ _ _ Hin Hg) as (_ & h & Hh & Hhi & Hht & _).
    split; [exists h; split_and!; [by right|done|congruence]|].
    intros t C Hlt Ho Hho%Hold; [|done]. apply Hkeep; [done|].
    destruct (sf_msg _ _ _ Hsf _ Hin Hg) as (Gi & (HSi & Hli & Hlti & _) & Hk).
    destruct (sf_election _ _ _ Hsf e r He Hr) as [_ Hinfo].
    destruct (Hinfo (won_state _ _ Hw) Ht) as [E1 E2].
    assert (Gi = G) as ->.
    { apply (sound_determined Ld); [done|apply HG|..].
      - rewrite Hli, E1. apply HG.
      - rewrite Hlti, E2. apply full_lastTerm, HG. }
    rewrite Ht. apply Hk; [lia|done|done].
Qed.

Lemma safe_won s Ld e r r' G peer reply pending :
  inv s → logs s Ld → safe s Ld → e ∈ c_elections s → c_nodes s !! re_node e = Some r →
  re_pending e ≡ₚ peer :: pending →
  MVoteRep peer (el_args (re_el e)) reply ∈ c_net s → rvr_VoteGranted reply = true →
  el_majority (re_el e) ≤ el_votes (re_el e) + 1 →
  r_currentTerm r = rv_Term (el_args (re_el e)) → just_won r r' →
  ghost Ld r G → Ld !! r_currentTerm r = None →
  safe (update s (re_node e) r' []) (<[r_currentTerm r := G]> Ld).
Proof.
  intros Hinv Hlg Hsf He Hr Hpend Hmsg Hgr Hmaj Ht Hw HG Hnone.
  set (Ld' := <[r_currentTerm r := G]> Ld).
  assert (grows Ld Ld') as Hgrow by by apply grows_fresh.
  assert (elected_with members (r' :: c_hist s) Ld' (r_currentTerm r) G) as Hel
    by by eapply won_elected.
  destruct (node_ghost s Ld _ r Hsf Hr) as (G0 & HG0 & Hok).
  assert (G0 = G) as -> by (by eapply ghost_unique).
  pose proof (won_kept _ _ Hw) as Hps.
  assert (r_currentTerm r' = r_currentTerm r) as Ht' by by injection Hps.
  pose proof (persisted_same_log _ _ Hps) as Hsl.
  destruct (nk_pos _ _ _ _ _ Hok) as [Hp1 Hp2].
  destruct (nk_term _ _ _ _ _ Hok) as [_ Hpos].
  eapply (safe_update s Ld (re_node e) r G r' G); try done.
  split; rewrite ?Ht', ?(won_commit _ _ Hw); try done.
  - split; [apply Hw|lia|]. rewrite (won_leader _ _ Hw). done.
  - by apply (won_peers _ _ Hw).
  - split; [eapply full_same; [apply HG|done]|].
    eapply sound_extends; [by apply grows_extends|apply HG].
  - intros _. unfold Ld'. by rewrite lookup_insert_eq.
  - intros T L. unfold Ld'. intros [[<- <-]|[_ HL]]%lookup_insert_Some; [|by eapply sf_order].
    split; [by apply Hpos, Hw|].
    eapply ordered_mono; [|by eapply sound_ordered, HG]. apply Hok.
  - intros T L. unfold Ld'. intros [[<- <-]|[_ HL]]%lookup_insert_Some ?; [done|congruence].
  - apply Hok.
  - eapply positions_same; [apply Hok|apply Hsl|apply Hsl|apply Hw|apply Hw].
  - eapply committed_mono; [apply hist_grows|done|reflexivity|apply Hok].
  - intros t C _ _ _ ?. by left.
  - intros _ p _. left. rewrite (won_match _ _ Hw). lia.
  - intros HC. rewrite (won_leader _ _ Hw) in HC. done.
  - intros _. by left.
  - intros m x. apply no_snaps.
  - intros m. apply no_msg_ok.
Qed.

(** ** Followers take entries and snapshots *)

(** Whatever a node acknowledged, or committed, is in the log of the leader
    whose message it takes - or that leader lacks it. *)
Lemma kept_or_lacked Ld hist v t C T L :
  own t C → holds hist Ld v t C → t ≤ T → Ld !! T = Some L →
  C `prefix_of` L ∨ (t < T ∧ lacks Ld T C).
Proof.
  intros Ho Hh Ht HL. destruct (decide (C `prefix_of` L)) as [|Hno]; [by left|right].
  split; [|by exists L]. destruct (decide (t = T)) as [->|]; [|lia].
  destruct (holds_leader _ _ _ _ _ Ho Hh) as (L' & HL' & ?). congruence.
Qed.

(** The step of a follower that takes a message of leader [T]: it keeps of
    its log at least what that leader has too. *)
Lemma follower_step s Ld i r G r' G' msgs T L :
  inv s → logs s Ld → safe s Ld → c_nodes s !! i = Some r → ghost Ld r G →
  evolves r r' → ghost Ld r' G' → Ld !! T = Some L →
  r_currentTerm r ≤ T → r_currentTerm r' = T → r_state r' = Follower →
  (∀ C, C `prefix_of` G → C `prefix_of` L → C `prefix_of` G') →
  (G' = G ∨ G' `prefix_of` L) → positions_ok r' →
  committed (r' :: c_hist s) Ld T (upto (r_commitIndex r') G') →
  (∀ m x, m ∈ msgs → snap_pos m = Some x → ∃ m0, m0 ∈ c_net s ∧ snap_pos m0 = Some x) →
  (∀ m, m ∈ msgs → msg_ok (r' :: c_hist s) Ld m) →
  safe (update s i r' msgs) Ld.
Proof.
  intros Hinv Hlg Hsf Hi HG Hev HG' HL HtT Ht' Hst Hkeep Hcase Hpos Hco Hsn Hm.
  destruct (node_ghost s Ld i r Hsf Hi) as (G0 & HG0 & Hok).
  assert (G0 = G) as -> by (by eapply ghost_unique).
  eapply (safe_update s Ld i r G r' G'); try done. split; rewrite ?Ht', ?Hst; try done.
  - by apply evolves_succeeds.
  - apply Hev.
  - apply grows_refl.
  - apply Hsf.
  - congruence.
  - destruct Hcase as [->|Hp]; [pose proof (nk_last _ _ _ _ _ Hok); lia|].
    destruct (sf_order _ _ _ Hsf _ _ HL) as [HT1 Hor].
    destruct (ordered_prefix _ _ _ Hor Hp) as [_ Hle].
    destruct (decide (1 ≤ zlen G')) as [HG1|HG0']; [by apply Hle|].
    assert (G' = []) as -> by (apply zlen_0; zlia). unfold termOf, entryOf. simpl. lia.
  - intros t C Ho Hh Ht Hp. destruct (kept_or_lacked Ld _ i t C T L Ho Hh) as [HCL|[Hlt Hl]];
      [lia|done| |].
    + left. by apply Hkeep.
    + right. exists T. split; [lia|done].
Qed.

(** What the node committed survives. *)
Lemma commit_survives s Ld r G G' T L :
  safe s Ld → node_ok (c_hist s) Ld r G → full r G → Ld !! T = Some L →
  r_currentTerm r ≤ T →
  (∀ C, C `prefix_of` G → C `prefix_of` L → C `prefix_of` G') →
  r_commitIndex r ≤ zlen G' ∧ upto (r_commitIndex r) G' = upto (r_commitIndex r) G ∧
  upto (r_commitIndex r) G `prefix_of` L.
Proof.
  intros Hsf Hok HG HL Ht Hkeep. destruct (nk_pos _ _ _ _ _ Hok) as [Hp1 Hp2].
  rewrite (full_last _ _ HG) in Hp2.
  assert (upto (r_commitIndex r) G `prefix_of` L) as HCL
    by (eapply committed_leader; [done|apply Hok|done|done]).
  pose proof (Hkeep _ (upto_prefix _ _) HCL) as HCG'.
  pose proof (prefix_zlen _ _ HCG') as Hlen. rewrite zlen_upto in Hlen by lia.
  split_and!; [done| |done].
  rewrite (prefix_upto _ _ HCG') at 1. rewrite !zlen_upto by lia. done.
Qed.

Lemma AppendEntries_stale r args r' reply :
  AppendEntries r args = Ret (r', reply) → aer_Success reply = false →
  same_log r r' ∧ r_commitIndex r' = r_commitIndex r ∧ r_lastApplied r' = r_lastApplied r.
Proof.
  intros H Hs. destruct (AppendEntries_meets _ _ _ _ H) as (_ & _ & _ & Hla & _ & _ & Hf).
  destruct (Hf Hs). by split_and!.
Qed.

Lemma safe_append s Ld i r args r' reply :
  inv s → logs s Ld → safe s Ld → c_nodes s !! i = Some r → MAppendReq i args ∈ c_net s →
  in_order r args → AppendEntries r args = Ret (r', reply) →
  safe (update s i r' [MAppendRep i args reply]) Ld.
Proof.
  intros Hinv Hlg Hsf Hi Hm Hord H. pose proof (AppendEntries_evolves _ _ _ _ H) as Hev.
  destruct (node_ghost s Ld i r Hsf Hi) as (G & HG & Hok).
  assert (∀ m x, m ∈ [MAppendRep i args reply] → snap_pos m = Some x →
    ∃ m0, m0 ∈ c_net s ∧ snap_pos m0 = Some x) as Hsn
    by (intros m x [->|[]%not_elem_of_nil]%elem_of_cons [=]).
  destruct (aer_Success reply) eqn:Hsuc.
  2: { destruct (AppendEntries_stale _ _ _ _ H Hsuc) as (Hsl & Hci & Hla).
       eapply safe_same; try done.
       - intros GG HGG. by eapply full_same.
       - eapply positions_same; [apply Hok|apply Hsl|apply Hsl|done|done].
       - lia.
       - intros HL. destruct (AppendEntries_role _ _ _ _ H) as [|Heq]; [congruence|by rewrite Heq].
       - intros m [->|[]%not_elem_of_nil]%elem_of_cons. simpl. congruence. }
  destruct (lg_msg _ _ Hlg _ Hm) as (M & L & HL & HML & Hc).
  destruct (lg_leader _ _ Hlg _ _ HL) as [HsL _].
  destruct (AppendEntries_ghost Ld r G M args r' reply) as (G' & HG' & _ & HMG' & Hcase);
    [done|by eapply sound_prefix|done|done|]. specialize (HMG' Hsuc).
  destruct (AppendEntries_meets _ _ _ _ H) as (Ht & _ & Hlii & Hla & Hiff & Hs & _).
  destruct (proj1 Hiff Hsuc) as [HtT _]. destruct (Hs Hsuc) as (Hst & Happ & Hci).
  assert (r_currentTerm r' = ae_Term args) as Ht' by lia.
  assert (∀ C, C `prefix_of` G → C `prefix_of` L → C `prefix_of` G') as Hkeep.
  { intros C HCG HCL. destruct Hcase as [->|(-> & Hne & _ & Hle)]; [done|].
    by eapply (in_order_retains r G M L); try apply HG. }
  destruct (commit_survives s Ld r G G' (ae_Term args) L Hsf Hok) as (Hcl & Hceq & HcL);
    [apply HG|done|done|done|].
  destruct (sf_msg _ _ _ Hsf _ Hm) as (L0 & HL0 & Hlc1 & Hlc2 & Hlc). simplify_eq.
  pose proof (prefix_zlen _ _ HMG') as HMlen. pose proof (carries_len _ _ Hc) as HMl.
  assert (lastIndex r' = zlen G') as Hlast by apply HG'.
  assert (upto (zlen M) G' = M) as HupM by (symmetry; by apply prefix_upto).
  assert (upto (zlen M) L = M) as HupL by (symmetry; by apply prefix_upto).
  eapply (follower_step s Ld i r G r' G' _ (ae_Term args) L); try done.
  - destruct Hcase as [->|(-> & _)]; [by left|by right].
  - eapply AppendEntries_positions; [apply Hok| |done].
    destruct (ae_Entries args) as [|e0 es] eqn:He; [by left|right].
    unfold appended in Happ. rewrite He in Happ. destruct Happ as (_ & Hl2 & _). lia.
  - rewrite Hci. destruct (Z.ltb_spec (r_commitIndex r) (ae_LeaderCommit args)).
    + rewrite Z.min_l by lia.
      rewrite <- (upto_upto _ (zlen M)), HupM, <- HupL, upto_upto by lia.
      eapply committed_mono; [apply hist_grows|apply grows_refl|reflexivity|done].
    + rewrite Hceq. eapply committed_mono; [apply hist_grows|apply grows_refl|done|apply Hok].
  - intros m [->|[]%not_elem_of_nil]%elem_of_cons _. exists L.
    rewrite <- HMl. split_and!; [done|by apply prefix_zlen|].
    destruct (inv_node _ _ Hinv _ _ Hi) as (_ & Hri & _).
    exists r', G'. rewrite HupL. split_and!; [by left|by rewrite (ev_id _ _ Hev)|done|done|done].
Qed.

Lemma safe_install s Ld i r args r' reply :
  inv s → logs s Ld → safe s Ld → c_nodes s !! i = Some r → MSnapReq i args ∈ c_net s →
  InstallSnapshot r args = Ret (r', reply) →
  safe (update s i r' [MSnapRep i args reply]) Ld.
Proof.
  intros Hinv Hlg Hsf Hi Hm H. pose proof (InstallSnapshot_evolves _ _ _ _ H) as Hev.
  destruct (node_ghost s Ld i r Hsf Hi) as (G & HG & Hok).
  assert (∀ (m : Msg (Cmd:=Cmd)) x, m ∈ [MSnapRep i args reply] → snap_pos m = Some x →
    ∃ m0, m0 ∈ c_net s ∧ snap_pos m0 = Some x) as Hsn
    by (intros m x [->|[]%not_elem_of_nil]%elem_of_cons ?; by exists (MSnapReq i args)).
  assert (∀ (m : Msg (Cmd:=Cmd)), m ∈ [MSnapRep i args reply] → msg_ok (r' :: c_hist s) Ld m) as Hms
    by (by intros m [->|[]%not_elem_of_nil]%elem_of_cons).
  destruct (InstallSnapshot_meets _ _ _ _ H) as (Ht & _ & Hold & Hnew).
  destruct (decide (r_currentTerm r ≤ is_Term args ∧
                    r_lastIncludedIndex r < is_LastIncludedIndex args)) as [[HtT Hi2]|Hno].
  2: { destruct Hold as (Hsl & _ & Hci & Hla & _); [lia|]. eapply safe_same; try done.
       - intros GG HGG. by eapply full_same.
       - eapply positions_same; [apply Hok|apply Hsl|apply Hsl|done|done].
       - lia.
       - intros HL. destruct (InstallSnapshot_role _ _ _ _ H) as [|Heq]; [congruence|by rewrite Heq]. }
  destruct (lg_msg _ _ Hlg _ Hm) as (M & L & HL & HML & Hc).
  destruct (lg_leader _ _ Hlg _ _ HL) as [HsL _].
  destruct (InstallSnapshot_ghost Ld r G M args r' reply) as (G' & HG' & HMG' & Hcase);
    [done|by eapply sound_prefix|done|done|]. specialize (HMG' HtT Hi2).
  destruct (Hnew HtT Hi2) as (Hst & _ & _ & _ & _ & Hci & _).
  assert (∀ C, C `prefix_of` G → C `prefix_of` L → C `prefix_of` G') as Hkeep.
  { intros C HCG HCL. destruct Hcase as [->|(-> & Hn & _)]; [done|].
    destruct (prefix_weak_total C M L) as [|HMC]; [done|done|done|].
    destruct Hn. by transitivity C. }
  destruct (commit_survives s Ld r G G' (is_Term args) L Hsf Hok) as (Hcl & Hceq & HcL);
    [apply HG|done|done|done|].
  destruct (sf_msg _ _ _ Hsf _ Hm) as (L0 & HL0 & _ & Hsc). simplify_eq.
  pose proof (stands_len _ _ Hc) as HMl.
  assert (upto (zlen M) G' = M) as HupM by (symmetry; by apply prefix_upto).
  assert (upto (zlen M) L = M) as HupL by (symmetry; by apply prefix_upto).
  destruct (nk_pos _ _ _ _ _ Hok) as [Hp1 Hp2]. rewrite (full_last r G) in Hp2 by apply HG.
  eapply (follower_step s Ld i r G r' G' _ (is_Term args) L); try done.
  - lia.
  - destruct Hcase as [->|(-> & _)]; [by left|by right].
  - eapply InstallSnapshot_positions; [apply Hok| |done].
    destruct (decide (r_commitIndex r ≤ is_LastIncludedIndex args)) as [|Hlt]; [by left|right].
    assert (M `prefix_of` G) as HMG.
    { transitivity (upto (r_commitIndex r) G); [|apply upto_prefix].
      apply (prefix_shorter M _ L); [done|done|]. rewrite zlen_upto; lia. }
    rewrite (full_term r G) by (apply HG || lia).
    by rewrite (stands_term _ _ Hc), <- HMl, (termOf_prefix M G) by done.
  - rewrite Hci. destruct (decide (is_LastIncludedIndex args ≤ r_commitIndex r)).
    + rewrite Z.max_l, Hceq by lia.
      eapply committed_mono; [apply hist_grows|apply grows_refl|done|apply Hok].
    + rewrite Z.max_r, <- HMl, HupM, <- HupL, HMl by lia.
      eapply committed_mono; [apply hist_grows|apply grows_refl|reflexivity|done].
Qed.

(** ** Leaders commit *)

Lemma count_ge_map n (f : Z → Z) l :
  count_ge n (map f l) = zlen (filter (λ p, n ≤ f p) l).
Proof.
  induction l as [|x l IH]; [done|]. rewrite map_cons, count_ge_cons, filter_cons, IH.
  destruct (decide (n ≤ f x)); [rewrite zlen_cons|]; lia.
Qed.

(** What the commit rule commits is chosen: [hist] and [Ld] already include
    the leader's new state. *)
Lemma advance_committed hist Ld r G i r' :
  full r G → r_state r = Leader → Ld !! r_currentTerm r = Some G →
  i ∈ members → r_peers r = peers_of members i → 0 ≤ r_commitIndex r →
  holds hist Ld i (r_currentTerm r) G →
  (∀ p, p ∈ r_peers r → matchOf r p ≤ r_commitIndex r ∨
    (matchOf r p ≤ zlen G ∧ holds hist Ld p (r_currentTerm r) (upto (matchOf r p) G))) →
  committed hist Ld (r_currentTerm r) (upto (r_commitIndex r) G) →
  advanceCommitIndexLocked r = Ret r' →
  committed hist Ld (r_currentTerm r) (upto (r_commitIndex r') G).
Proof.
  intros HG Hst HL Hmem Hpeers H0 Hme Hmatch Hco H.
  destruct (advanceCommit_meets r) as (r2 & H2 & (_ & Hcase & _)).
  rewrite H in H2. injection H2 as <-.
  destruct Hcase as [->|(_ & Hlt & Hb & Hq & Ht)]; [done|]. set (c := r_commitIndex r') in *.
  destruct (full_term_inv _ _ _ _ HG Ht) as [Hcb Htc].
  right. exists (r_currentTerm r), (upto c G). split_and!; [done| |done].
  split; [split|].
  - intros Hnil. assert (zlen (upto c G) = c) as Hz by (apply zlen_upto; lia).
    rewrite Hnil, zlen_nil in Hz. lia.
  - by rewrite zlen_upto, termOf_upto by lia.
  - unfold quorum_at in Hq. rewrite count_ge_cons, decide_True, count_ge_map in Hq by lia.
    set (Q := filter (λ p, c ≤ matchOf r p) (r_peers r)) in Hq. exists (i :: Q).
    assert (∀ x, x ∈ Q → c ≤ matchOf r x ∧ x ≠ i ∧ x ∈ members) as HQ.
    { intros x [? Hx]%list_elem_of_filter. rewrite Hpeers in Hx.
      by apply list_elem_of_filter in Hx as [? ?]. }
    split.
    + split_and!.
      * apply NoDup_cons. split; [intros Hin; by apply HQ in Hin as (_ & ? & _)|].
        apply NoDup_filter. rewrite Hpeers. by apply NoDup_filter.
      * intros x [->|Hx]%elem_of_cons; [done|]. by apply HQ.
      * rewrite zlen_cons. rewrite Hpeers in Hq. unfold peers_of in Hq at 1.
        rewrite zlen_without in Hq by done. lia.
    + intros v [->|Hv]%elem_of_cons.
      * eapply holds_prefix; [apply upto_prefix|done].
      * destruct (HQ v Hv) as (Hc & _). apply list_elem_of_filter in Hv as [_ Hv].
        destruct (Hmatch v Hv) as [?|[Hm Hh]]; [lia|].
        eapply holds_prefix; [|done]. by apply upto_prefix_le.
Qed.

(** The fields a leader's own step leaves alone before the commit rule. *)
Definition prepared r r1 : Prop :=
  r_id r1 = r_id r ∧ r_peers r1 = r_peers r ∧ r_state r1 = Leader ∧
  r_currentTerm r1 = r_currentTerm r ∧ r_commitIndex r1 = r_commitIndex r ∧
  r_lastApplied r1 = r_lastApplied r ∧ r_lastIncludedIndex r1 = r_lastIncludedIndex r.

Lemma leader_step s Ld i r G r1 G1 Ld' r' :
  inv s → logs s Ld → safe s Ld → c_nodes s !! i = Some r → ghost Ld r G →
  r_state r = Leader → prepared r r1 → grows Ld Ld' → ghost Ld' r1 G1 →
  Ld' !! r_currentTerm r = Some G1 → G `prefix_of` G1 →
  (∀ T L, Ld' !! T = Some L → 1 ≤ T ∧ ordered T L ∧ is_Some (Ld !! T)) →
  (∀ p, p ∈ r_peers r → matchOf r1 p ≤ r_commitIndex r ∨
    (matchOf r1 p ≤ zlen G1 ∧
     holds (c_hist s) Ld' p (r_currentTerm r) (upto (matchOf r1 p) G1))) →
  advanceCommitIndexLocked r1 = Ret r' →
  safe (update s i r' []) Ld'.
Proof.
  intros Hinv Hlg Hsf Hi HG Hst (Hid & Hpe & Hst1 & Ht & Hci & Hla & Hlii) Hgrow HG1 HL Hp
    Hor Hmatch H.
  destruct (node_ghost s Ld i r Hsf Hi) as (G0 & HG0 & Hok).
  assert (G0 = G) as -> by (by eapply ghost_unique).
  destruct (inv_node _ _ Hinv _ _ Hi) as (Hmem & Hri & Hrp & _).
  destruct (nk_pos _ _ _ _ _ Hok) as [Hp1 Hp2]. rewrite (full_last r G) in Hp2 by apply HG.
  pose proof (prefix_zlen _ _ Hp) as Hlen.
  assert (positions_ok r') as Hpos.
  { eapply advanceCommit_positions; [|done]. unfold positions_ok.
    rewrite (full_last r1 G1) by apply HG1. lia. }
  destruct (advanceCommit_bounds _ _ H) as (_ & _ & _ & Hci2).
  assert (r_commitIndex r1 ≤ r_commitIndex r') as Hci3 by lia. clear Hci2.
  assert (H2 := H). apply advanceCommitIndex_inv in H2 as [c Hr'].
  assert (ghost Ld' r' G1) as HG'.
  { destruct HG1 as [HF HS]. split; [|done]. rewrite Hr'. by eapply full_same. }
  assert (r_currentTerm r' = r_currentTerm r ∧ r_state r' = Leader ∧ r_id r' = r_id r ∧
    r_peers r' = r_peers r ∧ r_matchIndex r' = r_matchIndex r1)
    as (Ht' & Hst' & Hid' & Hpe' & Hmi) by (by rewrite Hr').
  assert (∀ p C, holds (c_hist s) Ld' p (r_currentTerm r) C →
    holds (r' :: c_hist s) Ld' p (r_currentTerm r) C) as Hmono
    by (intros p C; apply holds_mono; [apply hist_grows|apply grows_refl]).
  assert (holds (r' :: c_hist s) Ld' i (r_currentTerm r) G1) as Hme.
  { exists r', G1. split_and!; [by left|congruence|done|done|done]. }
  assert (∀ p, p ∈ r_peers r → matchOf r1 p ≤ r_commitIndex r ∨ (matchOf r1 p ≤ zlen G1 ∧
    holds (r' :: c_hist s) Ld' p (r_currentTerm r) (upto (matchOf r1 p) G1))) as Hmatch'.
  { intros p Hpin. destruct (Hmatch p Hpin) as [?|[? ?]]; [by left|right]. auto. }
  destruct (Hor _ _ HL) as (HT1 & [_ HleG] & _).
  eapply (safe_update s Ld i r G r' G1); try done. split; rewrite ?Ht', ?Hpe'; try done.
  - split; [done|lia|congruence].
  - intros T L HLT. destruct (Hor T L HLT) as (? & ? & _). done.
  - intros T L HLT Hnone. destruct (Hor T L HLT) as (_ & _ & [? ?]). congruence.
  - destruct (decide (1 ≤ zlen G1)) as [HG1l|HG1l]; [by apply HleG|].
    assert (G1 = []) as -> by (apply zlen_0; zlia). unfold termOf, entryOf. simpl. lia.
  - rewrite <- Ht. eapply (advance_committed _ _ r1 G1 i); rewrite ?Ht, ?Hpe, ?Hci; try done.
    + apply HG1.
    + lia.
    + rewrite (upto_of_prefix G G1) by (done || lia).
      eapply committed_mono; [apply hist_grows|done|reflexivity|apply Hok].
  - intros t C _ _ _ ?. left. by transitivity G.
  - intros _ p Hpin. unfold matchOf. rewrite Hmi. fold (matchOf r1 p).
    destruct (Hmatch' p Hpin) as [?|?]; [left; lia|by right].
  - congruence.
  - intros _. right. split_and!; [done|done|lia].
  - intros m x. apply no_snaps.
  - intros m. apply no_msg_ok.
Qed.

(** The leader hears that [p] holds its log up to [m]. *)
Lemma safe_learned s Ld i r p m r' :
  inv s → logs s Ld → safe s Ld → c_nodes s !! i = Some r → learned r p m r' →
  (m ≤ r_commitIndex r ∨ ∃ L, Ld !! r_currentTerm r = Some L ∧ m ≤ zlen L ∧
    holds (c_hist s) Ld p (r_currentTerm r) (upto m L)) →
  safe (update s i r' []) Ld.
Proof.
  intros Hinv Hlg Hsf Hi (Hst & nx & mx & H & Hmx & _) Hm.
  destruct (node_ghost s Ld i r Hsf Hi) as (G & HG & Hok).
  destruct (lg_node _ _ Hlg i r Hi) as (G0 & HG0 & Hlead).
  assert (G0 = G) as -> by by eapply ghost_unique.
  destruct (Hlead Hst) as [HL _].
  eapply (leader_step s Ld i r G (set_nextIndex nx (set_matchIndex mx r)) G Ld r'); try done.
  - apply grows_refl.
  - destruct HG as [HF HS]. split; [|done]. by eapply full_same.
  - intros T L HLT. destruct (sf_order _ _ _ Hsf T L HLT). by split_and!.
  - intros q Hq. destruct (Hmx q) as [->|[-> ->]].
    + by apply (nk_match _ _ _ _ _ Hok).
    + destruct Hm as [?|(L & HL' & ? & ?)]; [by left|right]. by simplify_eq.
Qed.

Lemma safe_propose s Ld i r G c p r' :
  inv s → logs s Ld → safe s Ld → c_nodes s !! i = Some r → r_state r = Leader →
  ghost Ld r G → Ld !! r_currentTerm r = Some G →
  let e := mkLogEntry (r_currentTerm r) c in
  ghost (<[r_currentTerm r := G ++ [e]]> Ld) (proposed r c p) (G ++ [e]) →
  advanceCommitIndexLocked (proposed r c p) = Ret r' →
  safe (update s i r' []) (<[r_currentTerm r := G ++ [e]]> Ld).
Proof.
  intros Hinv Hlg Hsf Hi Hst HG HL e HG1 H. set (Ld' := <[r_currentTerm r := G ++ [e]]> Ld).
  destruct (node_ghost s Ld i r Hsf Hi) as (G0 & HG0 & Hok).
  assert (G0 = G) as -> by by eapply ghost_unique.
  assert (G `prefix_of` G ++ [e]) as Hp by by apply prefix_app_r.
  assert (grows Ld Ld') as Hgrow by by apply grows_append.
  eapply (leader_step s Ld i r G (proposed r c p) (G ++ [e]) Ld' r'); try done.
  - unfold Ld'. by rewrite lookup_insert_eq.
  - intros T L. unfold Ld'. intros [[<- <-]|[_ HLT]]%lookup_insert_Some.
    + destruct (sf_order _ _ _ Hsf _ _ HL) as [? [Hmon Hle]]. split_and!; [done| |done].
      assert (∀ j, 1 ≤ j ≤ zlen G + 1 →
        termOf (G ++ [e]) j = if decide (j ≤ zlen G) then termOf G j else r_currentTerm r) as Hterm.
      { intros j Hj. destruct (decide (j ≤ zlen G)); [symmetry; by apply termOf_prefix|].
        assert (j = zlen G + 1) as -> by lia. apply termOf_app_last. }
      split.
      * intros j k Hj Hjk Hk. rewrite zlen_app in Hk. rewrite !Hterm by zlia.
        destruct (decide (j ≤ zlen G)), (decide (k ≤ zlen G)); [apply Hmon; lia|apply Hle; lia|lia|lia].
      * intros j Hj. rewrite zlen_app in Hj. rewrite Hterm by zlia.
        destruct (decide (j ≤ zlen G)); [apply Hle; lia|lia].
    + destruct (sf_order _ _ _ Hsf T L HLT). split_and!; [done|done|by exists L].
  - intros q Hq. destruct (nk_match _ _ _ _ _ Hok Hst q Hq) as [?|[Hm Hh]]; [by left|right].
    change (matchOf (proposed r c p) q) with (matchOf r q). rewrite zlen_app.
    split; [zlia|]. rewrite (upto_of_prefix G) by done.
    by eapply holds_mono.
Qed.

(** ** Every step *)

Lemma Snapshot_volatile r index data r' e :
  Snapshot r index data = Ret (r', e) →
  r_commitIndex r' = r_commitIndex r ∧ r_matchIndex r' = r_matchIndex r.
Proof. unfold Snapshot. intros H. handler; saved; done. Qed.

Lemma safe_restart s Ld i r p r' :
  inv s → logs s Ld → safe s Ld → c_nodes s !! i = Some r → r_persister r = Some p →
  newRaft i (r_peers r) (Some p) = Ret r' → safe (update s i r' []) Ld.
Proof.
  intros Hinv Hlg Hsf Hi Hp H. destruct (inv_node _ _ Hinv _ _ Hi) as (_ & Hri & _ & Hd & _).
  destruct (newRaft_recovers r p i (r_peers r) Hd Hp)
    as (r2 & H2 & Hid & Hpe & Hst & Hps & _ & Hci & Hla & _).
  rewrite H in H2. injection H2 as <-. destruct (node_ghost s Ld i r Hsf Hi) as (G & _ & Hok).
  pose proof (persisted_same_log _ _ Hps) as Hsl.
  assert (r_currentTerm r' = r_currentTerm r ∧ r_votedFor r' = r_votedFor r) as [Ht Hv]
    by (by injection Hps).
  destruct (nk_pos _ _ _ _ _ Hok) as [Hp1 Hp2].
  assert (r_lastIncludedIndex r' = r_lastIncludedIndex r) as Hlii by apply Hsl.
  pose proof (lastIndex_same _ _ Hsl) as Hlast.
  eapply safe_same; try done.
  - split; [congruence|done|right; auto|intros _ _; congruence|congruence|congruence].
  - intros GG HGG. by eapply full_same.
  - split; lia.
  - lia.
  - congruence.
  - intros m x. apply no_snaps.
  - intros m. apply no_msg_ok.
Qed.

(** A vote reply: the candidate wins, or nothing that matters changes. *)
Lemma safe_vote_reply s s' Ld k e r peer reply r' el' pending :
  inv s → inv s' → logs s Ld → safe s Ld →
  s' = set_elections (<[k := mkRunning (re_node e) el' pending]> (c_elections s))
         (update s (re_node e) r' []) →
  c_elections s !! k = Some e → c_nodes s !! re_node e = Some r →
  re_pending e ≡ₚ peer :: pending →
  MVoteRep peer (el_args (re_el e)) reply ∈ c_net s →
  startElection_reply r (re_el e) reply = Ret (r', el') →
  ∃ Ld', grows Ld Ld' ∧ logs s' Ld' ∧ safe s' Ld'.
Proof.
  intros Hinv Hinv' Hlg Hsf -> Hk Hi Hpend Hmsg H.
  assert (e ∈ c_elections s) as He by by eapply list_elem_of_lookup_2.
  assert (el_args el' = el_args (re_el e)) as Hargs.
  { destruct (voteReply_cases _ _ _ _ _ H) as [[_ ->]|(_ & _ & _ & -> & _)]; done. }
  assert (∀ e', e' ∈ <[k := mkRunning (re_node e) el' pending]> (c_elections s) →
    ∃ e0, e0 ∈ c_elections s ∧ re_node e' = re_node e0 ∧
      el_args (re_el e') = el_args (re_el e0)) as Hels.
  { intros e' [?| ->]%list_insert_elem; [by exists e'|by exists e]. }
  destruct (voteReply_view _ _ _ _ _ H) as [[Hev Hq]|(Hw & Hgr & Ht & Hmaj)].
  - exists Ld. split; [apply grows_refl|]. split.
    + apply logs_set_elections. eapply (logs_quiet members); try done.
      * intros G. by apply quiet_full.
      * intros p. by apply quiet_next.
      * apply no_msgs.
    + apply safe_set_elections; [|done].
      eapply safe_quiet; [done..|intros m x; apply no_snaps|intros m; apply no_msg_ok].
  - destruct (logs_won members s Ld (re_node e) r r') as (G & HG & Hnone & _ & Hlogs); try done.
    + intros h Hh Hl Hht. apply (one_leader members Hids _ h r' Hinv'); simpl;
        [by right|by left|done|apply Hw|done].
    + exists (<[r_currentTerm r := G]> Ld). split; [by apply grows_fresh|].
      split; [by apply logs_set_elections|].
      apply safe_set_elections; [|done]. by eapply safe_won.
Qed.

(** A quiet step that sends nothing the log record cares about. *)
Lemma quiet_step s Ld i r r' msgs :
  inv s → logs s Ld → safe s Ld → c_nodes s !! i = Some r → evolves r r' → quiet r r' →
  (∀ m, m ∈ msgs → snap_pos m = None ∧ good_msg Ld m ∧ msg_ok (r' :: c_hist s) Ld m) →
  logs (update s i r' msgs) Ld ∧ safe (update s i r' msgs) Ld.
Proof.
  intros Hinv Hlg Hsf Hi Hev Hq Hm. split.
  - eapply (logs_quiet members); try done.
    + intros G. by apply quiet_full.
    + intros p. by apply quiet_next.
    + intros m Hin. by apply Hm.
  - eapply safe_quiet; try done.
    + intros m x Hin. by destruct (Hm m Hin) as [-> _].
    + intros m Hin. by apply Hm.
Qed.

(** A step that keeps the log, the commit index and the match positions. *)
Lemma same_step s Ld i r r' :
  inv s → logs s Ld → safe s Ld → c_nodes s !! i = Some r → evolves r r' →
  (∀ G, full r G → full r' G) → (∀ p, nextOf r' p ≤ nextOf r p) →
  (positions_ok r → positions_ok r') → r_commitIndex r' = r_commitIndex r →
  r_matchIndex r' = r_matchIndex r →
  logs (update s i r' []) Ld ∧ safe (update s i r' []) Ld.
Proof.
  intros Hinv Hlg Hsf Hi Hev Hf Hn Hpos Hci Hmi. split.
  - eapply (logs_quiet members); try done. intros m. apply no_msgs.
  - destruct (node_ghost s Ld i r Hsf Hi) as (G & _ & Hok).
    eapply safe_same; try done; [apply Hpos, Hok|lia|intros m x; apply no_snaps|
      intros m; apply no_msg_ok].
Qed.

Lemma no_news Ld hist (m : Msg (Cmd:=Cmd)) :
  m ∈ [] → snap_pos m = None ∧ good_msg Ld m ∧ msg_ok hist Ld m.
Proof. by intros []%not_elem_of_nil. Qed.

Lemma append_reply_step s Ld i r peer args reply r' :
  inv s → logs s Ld → safe s Ld → c_nodes s !! i = Some r →
  MAppendRep peer args reply ∈ c_net s →
  replicateToPeer_reply r peer args reply = Ret r' →
  logs (update s i r' []) Ld ∧ safe (update s i r' []) Ld.
Proof.
  intros Hinv Hlg Hsf Hi Hm H. pose proof (lg_msg _ _ Hlg _ Hm) as Hsent. simpl in Hsent.
  destruct (appendReply_view _ _ _ _ _ H) as [[Hev Hq]|[(Hl & nx & -> & Hnx)|(Hl & Ht & Hs)]].
  - eapply quiet_step; try done. apply no_news.
  - eapply same_step; try done; [by apply evolves_volatile|].
    intros G HG. by eapply full_same.
  - split.
    + eapply (logs_learned members); try done. intros L HL.
      eapply sent_append_len; [done|]. by rewrite <- Ht.
    + eapply safe_learned; try done. right.
      destruct (sf_msg _ _ _ Hsf _ Hm Hs) as (L & HL & Hle & Hh). exists L. by rewrite Ht.
Qed.

Lemma snapshot_reply_step s Ld i r peer args reply r' :
  inv s → logs s Ld → safe s Ld → c_nodes s !! i = Some r →
  MSnapRep peer args reply ∈ c_net s →
  sendInstallSnapshot_reply r peer args reply = Ret r' →
  logs (update s i r' []) Ld ∧ safe (update s i r' []) Ld.
Proof.
  intros Hinv Hlg Hsf Hi Hm H. pose proof (lg_msg _ _ Hlg _ Hm) as Hsent. simpl in Hsent.
  destruct (snapshotReply_view _ _ _ _ _ H) as [[Hev Hq]|[Hl Ht]].
  - eapply quiet_step; try done. apply no_news.
  - split.
    + eapply (logs_learned members); try done. intros L HL.
      eapply sent_snapshot_len; [done|]. by rewrite <- Ht.
    + eapply safe_learned; try done. left.
      eapply (sf_snap _ _ _ Hsf); try done. apply Hl.
Qed.

Lemma propose_step s Ld i r c r' res :
  inv s → logs s Ld → safe s Ld → c_nodes s !! i = Some r → Propose r c = Ret (r', res) →
  ∃ Ld', grows Ld Ld' ∧ logs (update s i r' []) Ld' ∧ safe (update s i r' []) Ld'.
Proof.
  intros Hinv Hlg Hsf Hi H.
  destruct (Propose_view _ _ _ _ H) as [[_ ->]|(Hst & p & Hadv)].
  - exists Ld. split; [apply grows_refl|]. eapply quiet_step; try done. apply no_news.
  - destruct (logs_propose members Hids s Ld i r c p r') as (G & HG & HL & _ & Hlogs & HG1);
      try done. eexists.
    split; [|split; [exact Hlogs|by eapply safe_propose]]. by apply grows_append.
Qed.

Lemma safe_step s s' Ld :
  inv s → logs s Ld → safe s Ld → cluster_step in_order s s' →
  ∃ Ld', grows Ld Ld' ∧ logs s' Ld' ∧ safe s' Ld'.
Proof.
  intros Hinv Hlg Hsf Hstep. assert (inv s') as Hinv' by by eapply inv_step.
  assert (logs s' Ld ∧ safe s' Ld → ∃ Ld', grows Ld Ld' ∧ logs s' Ld' ∧ safe s' Ld') as Hkeep
    by (intros ?; exists Ld; split; [apply grows_refl|done]).
  destruct Hstep as [i r r' b Hi H|i r rest Hi H|i r args r' reply Hi Hm H
    |k e r peer reply r' el' pending Hk Hi Hpend Hm H|i r peer args Hi H
    |i r args r' reply Hi Hm Hacc H|i r peer args reply r' Hi Hm _ H|i r peer args Hi H
    |i r args r' reply Hi Hm H|i r peer args reply r' Hi Hm _ H|i r command r' res Hi H
    |i r index data r' e Hi H|i r Hi|i r r' m Hi H|i r p r' Hi Hp H].
  - apply Hkeep. edestruct (quiet_step s Ld i r r' []) as [? ?]; try done.
    + by eapply electionTimeout_evolves.
    + by eapply electionTimeout_quiet.
    + apply no_news.
    + split; [by apply logs_set_starting|by apply safe_set_starting].
  - apply Hkeep. split; [|by apply safe_begin_election].
    apply logs_set_starting, logs_set_elections, logs_send; [done|]. apply vote_msgs.
  - apply Hkeep. eapply quiet_step; try done.
    + by eapply RequestVote_evolves.
    + by eapply RequestVote_quiet.
    + intros m [->|[]%not_elem_of_nil]%elem_of_cons. split_and!; [done|done|].
      by eapply grant_ok.
  - eapply (safe_vote_reply s); try done.
  - apply Hkeep. split.
    + apply logs_send; [done|]. intros m [->|[]%not_elem_of_nil]%elem_of_cons.
      by eapply good_replicate.
    + apply safe_send; [done|..].
      * intros m [->|[]%not_elem_of_nil]%elem_of_cons. by eapply safe_replicate.
      * intros m T n [->|[]%not_elem_of_nil]%elem_of_cons [=].
  - apply Hkeep. split; [by eapply logs_append|by eapply safe_append].
  - apply Hkeep. by eapply append_reply_step.
  - apply Hkeep. split; [|by eapply safe_send_snapshot].
    apply logs_send; [done|]. intros m [->|[]%not_elem_of_nil]%elem_of_cons.
    by eapply good_send_snapshot.
  - apply Hkeep. split; [by eapply logs_install|by eapply safe_install].
  - apply Hkeep. by eapply snapshot_reply_step.
  - by eapply propose_step.
  - apply Hkeep. destruct (Snapshot_volatile _ _ _ _ _ H). eapply same_step; try done.
    + by eapply Snapshot_evolves.
    + intros G HG. by eapply Snapshot_full.
    + unfold Snapshot in H. handler; saved; done.
    + intros Hpos. by eapply Snapshot_positions.
  - apply Hkeep. eapply quiet_step; try done; [by apply evolves_volatile|apply no_news].
  - apply Hkeep. pose proof (applyNext_same _ _ _ H) as Heq.
    set (la := r_lastApplied r') in Heq. clearbody la. subst r'.
    eapply same_step; try done.
    + by eapply applyNext_evolves.
    + intros G HG. by eapply full_same.
    + intros Hpos. by eapply applyNext_positions.
  - apply Hkeep. split.
    + apply logs_set_starting, logs_set_elections. by eapply logs_restart.
    + apply safe_set_starting, safe_set_elections; [by eapply safe_restart|].
      intros e [_ He]%list_elem_of_filter. by exists e.
Qed.

Lemma safe_init s : cluster_init members s → safe s ∅.
Proof.
  intros Hinit. assert (Hinit' := Hinit). destruct Hinit' as (_ & He & Hn & Hh & Hnodes).
  split; rewrite ?Hn, ?Hh, ?He.
  - intros T L HL. by rewrite lookup_empty in HL.
  - intros T L HL. by rewrite lookup_empty in HL.
  - intros i r Hi. assert (∃ G, ghost ∅ r G ∧ G = []) as (G & HG & ->).
    { destruct (lg_node _ _ (logs_init members s Hinit) i r Hi) as (G & HG & _).
      exists G. split; [done|]. destruct (Hnodes i r Hi) as (_ & op & -> & _).
      apply zlen_0. rewrite <- (full_last _ _ (ghost_full _ _ _ HG)). done. }
    exists []. split; [done|]. destruct (Hnodes i r Hi) as (_ & op & -> & _).
    split; try done; [left; by rewrite upto_0|].
    intros t C _ (h & _ & []%not_elem_of_nil & _).
  - intros h []%not_elem_of_nil.
  - intros h []%not_elem_of_nil.
  - intros m []%not_elem_of_nil.
  - intros m T n i r []%not_elem_of_nil.
  - intros e r []%not_elem_of_nil.
Qed.

Lemma safe_reachable s :
  reachable_by in_order members s → ∃ Ld, logs s Ld ∧ safe s Ld.
Proof.
  intros (s0 & H0 & Hrtc). pose proof (logs_init _ _ H0) as Hlg. pose proof (safe_init _ H0) as Hsf.
  apply (inv_init members) in H0 as Hinv. clear H0. revert Hinv Hlg Hsf.
  generalize (∅ : gmap Z Log).
  induction Hrtc as [s|s s1 s2 Hstep _ IH]; intros Ld Hinv Hlg Hsf; [by exists Ld|].
  destruct (safe_step s s1 Ld) as (Ld' & _ & Hlg' & Hsf'); [done..|].
  apply (IH Ld'); [by eapply inv_step|done|done].
Qed.

(** ** What two nodes committed *)

Lemma committed_agree s Ld h1 h2 i :
  safe s Ld → h1 ∈ c_hist s → h2 ∈ c_hist s →
  r_lastIncludedIndex h1 < i → r_lastIncludedIndex h2 < i →
  i ≤ r_commitIndex h1 → i ≤ r_commitIndex h2 →
  is_Some (entryAt h1 i) ∧ entryAt h1 i = entryAt h2 i.
Proof.
  intros Hsf H1 H2 L1 L2 C1 C2.
  destruct (sf_hist _ _ _ Hsf h1 H1) as (G1 & [F1 _] & [P1 P1'] & K1).
  destruct (sf_hist _ _ _ Hsf h2 H2) as (G2 & [F2 _] & [P2 P2'] & K2).
  rewrite (full_last _ _ F1) in P1'. rewrite (full_last _ _ F2) in P2'.
  rewrite (full_entry _ _ F1), (full_entry _ _ F2) by done.
  split; [apply entryOf_is_Some; lia|].
  rewrite <- (entryOf_upto G1 (r_commitIndex h1)), <- (entryOf_upto G2 (r_commitIndex h2)) by done.
  destruct (committed_comparable members s Ld _ _ _ _ Hsf K1 K2) as [Hp|Hp].
  - apply entryOf_prefix; [done|]. rewrite zlen_upto; lia.
  - symmetry. apply entryOf_prefix; [done|]. rewrite zlen_upto; lia.
Qed.

Lemma committed_terms s Ld t C i :
  safe s Ld → committed (c_hist s) Ld t C → 1 ≤ i ≤ zlen C → termOf C i ≤ t.
Proof.
  intros Hsf [->|(u & K & Hu & Hc & Hp)] Hi; [rewrite zlen_nil in Hi; lia|].
  pose proof (prefix_zlen _ _ Hp). destruct (chosen_leader _ _ _ _ _ Hc) as (L & HL & HKL).
  destruct (sf_order _ _ _ Hsf _ _ HL) as [_ Hor].
  destruct (ordered_prefix _ _ _ Hor HKL) as [_ Hle].
  rewrite (termOf_prefix C K) by (done || lia). specialize (Hle i ltac:(lia)). lia.
Qed.

Lemma applyNext_entry r r' m :
  applyPending_next r = Ret (r', Some m) →
  r_lastApplied r < am_Index m ≤ r_commitIndex r ∧
  ∃ e, entryAt r (am_Index m) = Some e ∧
    m = commandMsg (am_Index m) (le_Term e) (le_Command e).
Proof.
  unfold applyPending_next. intros H.
  destruct (Z.leb_spec (r_commitIndex r) (r_lastApplied r)); [by inv_ret|].
  destruct (_ <? _); [by inv_ret|].
  apply bind_Ret_inv in H as (e & He%or_panic_Ret & [= <- <-]). simpl.
  split; [lia|]. by exists e.
Qed.

(** C2: state machine safety. In a cluster whose network may lose, delay,
    duplicate and reorder messages but hands a node no AppendEntries that a
    longer one of the same log has overtaken, and whose nodes may crash and
    restart at any time, two nodes never hand different commands (or terms)
    to their state machines at one log index, whenever they do it. *)
Theorem state_machine_safety s h1 h2 h1' h2' m1 m2 :
  reachable_by in_order members s → h1 ∈ c_hist s → h2 ∈ c_hist s →
  applyPending_next h1 = Ret (h1', Some m1) → applyPending_next h2 = Ret (h2', Some m2) →
  am_Index m1 = am_Index m2 → m1 = m2.
Proof.
  intros (Ld & _ & Hsf)%safe_reachable H1 H2 A1 A2 Hi.
  destruct (applyNext_entry _ _ _ A1) as (B1 & e1 & E1 & ->).
  destruct (applyNext_entry _ _ _ A2) as (B2 & e2 & E2 & ->). simpl in *.
  destruct (sf_hist _ _ _ Hsf h1 H1) as (_ & _ & [P1 _] & _).
  destruct (sf_hist _ _ _ Hsf h2 H2) as (_ & _ & [P2 _] & _).
  destruct (committed_agree s Ld h1 h2 (am_Index m1)) as [_ Heq]; try done; try lia.
  congruence.
Qed.

(** C3: leader completeness. In such a cluster, what any node has committed
    by a term is in the log of every leader of a later one, from the moment it
    leads: at each index both still hold, the same entry. *)
Theorem leader_completeness s h l i :
  reachable_by in_order members s → h ∈ c_hist s → l ∈ c_hist s →
  r_state l = Leader → r_currentTerm h < r_currentTerm l →
  r_lastIncludedIndex h < i → r_lastIncludedIndex l < i → i ≤ r_commitIndex h →
  is_Some (entryAt h i) ∧ entryAt l i = entryAt h i.
Proof.
  intros (Ld & Hlg & Hsf)%safe_reachable Hh Hl HL Ht L1 L2 Hc.
  destruct (sf_hist _ _ _ Hsf h Hh) as (G & [F S] & [Q Q'] & K).
  destruct (sf_lead _ _ _ Hsf l Hl HL) as (Gl & L & [Fl Sl] & HLl & Hp & Hnew).
  rewrite (full_last _ _ F) in Q'. rewrite (full_entry _ _ F), (full_entry _ _ Fl) by done.
  assert (upto (r_commitIndex h) G `prefix_of` L) as HCL
    by (eapply committed_leader; [done|done|by apply Z.lt_le_incl|done]).
  assert (is_Some (entryOf G i)) as Hsome by (pose proof (full_lii _ _ F); apply entryOf_is_Some; lia).
  assert (entryOf G i = entryOf L i) as Heq.
  { rewrite <- (entryOf_upto G (r_commitIndex h)) by done.
    apply entryOf_prefix; [done|]. rewrite zlen_upto; lia. }
  split; [done|]. rewrite Heq. apply entryOf_prefix; [done|].
  destruct (decide (i ≤ zlen Gl)) as [|Hgt]; [done|exfalso].
  pose proof (prefix_zlen _ _ HCL) as Hlen. rewrite zlen_upto in Hlen by lia.
  specialize (Hnew i ltac:(lia)).
  pose proof (committed_terms s Ld _ _ i Hsf K) as Hle. pose proof (full_lii _ _ F).
  rewrite (termOf_prefix _ L) in Hle by (done || rewrite zlen_upto; lia).
  rewrite zlen_upto in Hle by lia. lia.
Qed.
End safety.

(** ** Witnesses *)
Module Witness.
(** Node 0 leads term 1 and commits an entry with node 1, a heartbeat tells
    node 1 so, and node 1 then wins term 2 with node 2's vote. *)
Definition safety_actions : list (Action (Cmd:=Z)) :=
  [ ATimeout 0; ABeginElection; ADeliver 0; AVoteReply 0 0;
    APropose 0 10; AReplicate 0 1; ADeliver 0; AReply 0;
    AReplicate 0 1; ADeliver 0;
    ATimeout 1; ABeginElection; ADeliver 1; AVoteReply 0 0 ].

(** The [n]-th youngest state of the history, in an execution that ends in
    some state. *)
Lemma run_history (acts : list (Action (Cmd:=Z))) (n1 n2 : nat) (r1 r2 : DemoRaft) :
  (s ← perform_all in_order divergence_boot acts;
   h1 ← c_hist s !! n1; h2 ← c_hist s !! n2; Some (h1, h2)) = Some (r1, r2) →
  ∃ s, reachable_by in_order Demo.members s ∧ r1 ∈ c_hist s ∧ r2 ∈ c_hist s.
Proof.
  intros (s & Hs & (h1 & H1 & (h2 & H2 & [= -> ->])%bind_Some)%bind_Some)%bind_Some.
  exists s. split_and!; [|by eapply list_elem_of_lookup_2..].
  exists divergence_boot. split; [apply divergence_boot_init|exact (perform_all_sound _ _ _ _ Hs)].
Qed.

Lemma members_ok : NoDup Demo.members ∧ ∀ i, i ∈ Demo.members → 0 ≤ i.
Proof.
  split; [apply (bool_decide_unpack _); vm_compute; done|unfold Demo.members; set_solver by lia].
Qed.

Lemma state_machine_safety_witness :
  ∃ s (h1 h2 h1' h2' : DemoRaft) m1 m2, reachable_by in_order Demo.members s ∧
    h1 ∈ c_hist s ∧ h2 ∈ c_hist s ∧ r_id h1 = 1 ∧ r_id h2 = 0 ∧
    applyPending_next h1 = Ret (h1', Some m1) ∧ applyPending_next h2 = Ret (h2', Some m2) ∧
    m1 = m2.
Proof.
  edestruct (run_history safety_actions 3 4) as (s & Hr & H1 & H2); [vm_compute; reflexivity|].
  exists s. eexists _, _, _, _, _, _.
  split; [exact Hr|]. split; [exact H1|]. split; [exact H2|].
  split; [reflexivity|]. split; [reflexivity|].
  split; [vm_compute; reflexivity|]. split; [vm_compute; reflexivity|].
  eapply (state_machine_safety Demo.members (proj1 members_ok) (proj2 members_ok) s);
    [exact Hr|exact H1|exact H2|vm_compute; reflexivity|vm_compute; reflexivity|reflexivity].
Defined.

Lemma leader_completeness_witness :
  ∃ s (h l : DemoRaft), reachable_by in_order Demo.members s ∧ h ∈ c_hist s ∧ l ∈ c_hist s ∧
    r_state l = Leader ∧ r_currentTerm l = 2 ∧ r_commitIndex h = 1 ∧ r_id h = 0 ∧
    is_Some (entryAt h 1) ∧ entryAt l 1 = entryAt h 1.
Proof.
  edestruct (run_history safety_actions 4 0) as (s & Hr & H1 & H2); [vm_compute; reflexivity|].
  exists s. eexists _, _.
  split; [exact Hr|]. split; [exact H1|]. split; [exact H2|].
  split; [reflexivity|]. split; [reflexivity|]. split; [reflexivity|]. split; [reflexivity|].
  eapply (leader_completeness Demo.members (proj1 members_ok) (proj2 members_ok) s);
    [exact Hr|exact H1|exact H2|reflexivity|vm_compute; reflexivity|vm_compute; reflexivity
    |vm_compute; reflexivity|vm_compute; discriminate].
Defined.
End Witness.
