(* ===== verification/RaftCommitted.v ===== *)
(** * The committed log of a cluster

    What the states of all nodes show as committed, put together: a list that
    every node's log agrees with as far as it has committed, and that only
    grows where no overtaken AppendEntries is delivered. To its clients the
    cluster is that list. *)
From S2P Require Import Prelude Persister RaftNode RaftFacts RaftDurable RaftVotes RaftLog RaftDemo RaftPositions RaftCommit RaftCluster RaftGhost RaftDivergence RaftLogMatching RaftChosen RaftSafety.
Local Open Scope Z_scope.

Section committed_log.
Context {Cmd P : Type} `{!Persister P, !PersisterLaws P, !Codec (persistedState Cmd)}.
Abbreviation Raft := (Raft Cmd P).
Abbreviation Cluster := (Cluster (Cmd:=Cmd) (P:=P)).
Abbreviation Log := (list (LogEntry Cmd)).
Implicit Type r : Raft.
Implicit Type hist : list Raft.
Implicit Type c : Cluster.
Implicit Types G K : Log.
Implicit Type Ld : gmap Z Log.

(** ** The list *)

(** The entry some state of the history shows as committed at [n]. *)
Fixpoint committedAt hist (n : Z) : option (LogEntry Cmd) :=
  match hist with
  | [] => None
  | h :: hist =>
      if decide (r_lastIncludedIndex h < n ≤ r_commitIndex h) then entryAt h n
      else committedAt hist n
  end.

Definition maxCommit hist : Z := foldr (λ h, Z.max (r_commitIndex h)) 0 hist.

Definition committedLog hist : Log := omap (committedAt hist) (seqZ 1 (maxCommit hist)).

Lemma maxCommit_bound hist h : h ∈ hist → r_commitIndex h ≤ maxCommit hist.
Proof. induction hist; set_unfold; [done|]. simpl. intros [->|?%IHhist]; lia. Qed.

Lemma maxCommit_nonneg hist : 0 ≤ maxCommit hist.
Proof. induction hist; simpl; lia. Qed.

Lemma maxCommit_reached hist :
  0 < maxCommit hist → ∃ h, h ∈ hist ∧ r_commitIndex h = maxCommit hist.
Proof.
  induction hist as [|h hist IH]; simpl; [lia|]. intros Hpos.
  destruct (Z.max_spec (r_commitIndex h) (maxCommit hist)) as [[Hlt Heq]|[_ Heq]]; rewrite Heq in *.
  - destruct (IH Hpos) as (h' & ? & ?). exists h'. split; [by right|done].
  - exists h. split; [by left|done].
Qed.

Lemma maxCommit_mono hist hist' : hist ⊆ hist' → maxCommit hist ≤ maxCommit hist'.
Proof.
  intros Hs. pose proof (maxCommit_nonneg hist'). destruct (decide (0 < maxCommit hist)); [|lia].
  destruct (maxCommit_reached hist) as (h & Hh & <-); [done|]. by apply maxCommit_bound, Hs.
Qed.

(** ** What a step does to positions and entries *)

(** A new entry in a log was proposed here. *)
Definition proposes c c' (cmd : Cmd) : Prop :=
  ∃ i r r' res, c_nodes c !! i = Some r ∧ r_state r = Leader ∧
    Propose r cmd = Ret (r', res) ∧ c' = update c i r' [].

(** Where the new state's snapshot position and entries come from. *)
Definition comes_from c c' i r r' : Prop :=
  (r_lastIncludedIndex r' ≤ Z.max (r_lastIncludedIndex r) (r_lastApplied r) ∨
   ∃ args, MSnapReq i args ∈ c_net c ∧ r_lastIncludedIndex r' = is_LastIncludedIndex args) ∧
  ∀ e, e ∈ r_log r' → e ∈ r_log r ∨
    (∃ args, MAppendReq i args ∈ c_net c ∧ e ∈ ae_Entries args) ∨
    proposes c c' (le_Command e).

Definition sent_by c (m : Msg (Cmd:=Cmd)) : Prop :=
  match m with
  | MAppendReq _ args => ∃ i r, c_nodes c !! i = Some r ∧ ae_Entries args ⊆ r_log r
  | MSnapReq _ args =>
      ∃ i r, c_nodes c !! i = Some r ∧ is_LastIncludedIndex args = r_lastIncludedIndex r
  | _ => True
  end.

(** Either a node moves, or something is sent. *)
Definition step_view c c' : Prop :=
  (∀ m, m ∈ c_net c' → m ∈ c_net c ∨ sent_by c m) ∧
  ((c_nodes c' = c_nodes c ∧ c_hist c' = c_hist c) ∨
   ∃ i r r', c_nodes c !! i = Some r ∧ c_nodes c' = <[i := r']> (c_nodes c) ∧
     c_hist c' = r' :: c_hist c ∧ comes_from c c' i r r').

Lemma comes_same c c' i r r' : same_log r r' → comes_from c c' i r r'.
Proof. intros (Hl & Hi & _). split; [left; lia|]. rewrite Hl. auto. Qed.

Lemma view_same c c' i r r' msgs :
  c_nodes c !! i = Some r → same_log r r' →
  c_nodes c' = <[i := r']> (c_nodes c) → c_hist c' = r' :: c_hist c →
  c_net c' = msgs ++ c_net c → (∀ m, m ∈ msgs → sent_by c m) → step_view c c'.
Proof.
  intros Hi Hs Hn Hh Hnet Hm. split.
  - rewrite Hnet. intros m [?|?]%elem_of_app; auto.
  - right. exists i, r, r'. split_and!; try done. by apply comes_same.
Qed.

Lemma take_subset {A} n (l : list A) : take n l ⊆ l.
Proof. intros x Hx. rewrite <- (take_drop n l). apply elem_of_app. by left. Qed.

Lemma drop_subset {A} n (l : list A) : drop n l ⊆ l.
Proof. intros x Hx. rewrite <- (take_drop n l). apply elem_of_app. by right. Qed.

Ltac sliced :=
  first [ done | apply list_subseteq_nil
        | match goal with
          | H : slice_from _ _ = Ret _ |- _ => apply slice_from_Ret in H as [_ ->]; apply drop_subset
          end ].

Lemma AppendEntries_entries r args r' reply e :
  AppendEntries r args = Ret (r', reply) → e ∈ r_log r' →
  e ∈ r_log r ∨ e ∈ ae_Entries args.
Proof.
  unfold AppendEntries. intros H. destruct (_ <? _); [inv_ret; by left|].
  apply bind_Ret_inv in H as (a & (Hl & _)%becomeFollower_log & H).
  destruct Hl as (Hlog & _). rewrite <- Hlog. intros Hin.
  handler; saved; simpl in *; try (by left);
    match goal with H : slice_to _ _ = Ret _ |- _ => apply slice_to_Ret in H as [_ ->] end;
    (apply elem_of_app in Hin as [Hin|Hin]; [left; by eapply take_subset|by right]).
Qed.

Lemma InstallSnapshot_entries r args r' reply :
  InstallSnapshot r args = Ret (r', reply) → r_log r' ⊆ r_log r.
Proof.
  unfold InstallSnapshot. intros H. destruct (_ <? _); [by inv_ret|].
  apply bind_Ret_inv in H as (a & (Hl & _)%becomeFollower_log & H).
  destruct Hl as (Hlog & _). rewrite <- Hlog.
  handler; saved; simpl; sliced.
Qed.

Lemma Snapshot_entries r index data r' e : Snapshot r index data = Ret (r', e) → r_log r' ⊆ r_log r.
Proof.
  unfold Snapshot. intros H. handler; saved; simpl; sliced.
Qed.

Lemma Propose_entries r cmd r' res e :
  Propose r cmd = Ret (r', res) → e ∈ r_log r' →
  e ∈ r_log r ∨ (r_state r = Leader ∧ le_Command e = cmd).
Proof.
  intros [[_ ->]|(Hs & p & [n ->]%advanceCommitIndex_inv)]%Propose_view; [by left|].
  simpl. intros [?|Heq%list_elem_of_singleton]%elem_of_app; [by left|right]. by subst e.
Qed.

Lemma replicate_entries r peer args :
  replicateToPeer_begin r peer = Ret (ReplicateEntries args) → ae_Entries args ⊆ r_log r.
Proof.
  unfold replicateToPeer_begin. intros H. handler; simpl; sliced.
Qed.

(** ** Every step *)

Context (members : list Z) (Hnodup : NoDup members) (Hids : ∀ i, i ∈ members → 0 ≤ i).

Lemma cluster_view accepts c c' : inv members c → cluster_step accepts c c' → step_view c c'.
Proof.
  intros Hinv Hstep. assert (∀ m, m ∈ @nil (Msg (Cmd:=Cmd)) → sent_by c m) as Hnil
    by (intros m []%not_elem_of_nil).
  destruct Hstep as [i r r' b Hi H|i r rest Hi H|i r args r' reply Hi Hm H
    |k e r peer reply r' el' pending Hk Hi Hpend Hm H|i r peer args Hi H
    |i r args r' reply Hi Hm Hacc H|i r peer args reply r' Hi Hm _ H|i r peer args Hi H
    |i r args r' reply Hi Hm H|i r peer args reply r' Hi Hm _ H|i r command r' res Hi H
    |i r index data r' e Hi H|i r Hi|i r r' m Hi H|i r p r' Hi Hp H].
  - by apply (view_same c _ i r r' []); [|apply (electionTimeout_quiet _ _ _ H)|done..].
  - split; [|by left]. simpl. intros m [Hm|?]%elem_of_app; [right|by left].
    apply list_elem_of_In, in_map_iff in Hm as (p & <- & _). done.
  - apply (view_same c _ i r r' [MVoteRep i args reply]);
      [done|apply (RequestVote_quiet _ _ _ _ H)|done..|].
    intros m Hm'%list_elem_of_singleton. by subst m.
  - apply (view_same c _ (re_node e) r r' []); [done| |done..].
    destruct (voteReply_view _ _ _ _ _ H) as [[_ Hq]|[Hw _]]; [apply Hq|].
    apply persisted_same_log, Hw.
  - split; [|by left]. simpl. intros m [->|?]%elem_of_cons; [right|by left].
    exists i, r. split; [done|by eapply replicate_entries].
  - split.
    + simpl. intros m [->|?]%elem_of_cons; [by right|by left].
    + right. exists i, r, r'. split_and!; try done.
      destruct (AppendEntries_meets _ _ _ _ H) as (_ & _ & Hlii & _). split; [left; lia|].
      intros e' He. destruct (AppendEntries_entries _ _ _ _ _ H He) as [?|?]; [by left|].
      right. left. by exists args.
  - apply (view_same c _ i r r' []); [done| |done..].
    destruct (appendReply_view _ _ _ _ _ H) as [[_ Hq]|[(_ & nx & -> & _)|[(_ & nx & mx & Ha & _) _]]];
      [apply Hq|done|].
    by apply advanceCommitIndex_inv in Ha as [n ->].
  - split; [|by left]. simpl. intros m [->|?]%elem_of_cons; [right|by left].
    exists i, r. split; [done|]. unfold sendInstallSnapshot_begin in H. by destruct (r_state r); simplify_eq.
  - split.
    + simpl. intros m [->|?]%elem_of_cons; [by right|by left].
    + right. exists i, r, r'. split_and!; try done. split.
      * destruct (InstallSnapshot_meets _ _ _ _ H) as (_ & _ & Hold & Hnew).
        destruct (decide (r_currentTerm r ≤ is_Term args ∧
                          r_lastIncludedIndex r < is_LastIncludedIndex args)) as [[Ht Hlt]|Hno].
        -- right. exists args. split; [done|]. apply (Hnew Ht Hlt).
        -- left. destruct Hold as ((_ & Hlii & _) & _); [lia|]. lia.
      * intros e' He. left. by eapply InstallSnapshot_entries.
  - apply (view_same c _ i r r' []); [done| |done..].
    destruct (snapshotReply_view _ _ _ _ _ H) as [[_ Hq]|[(_ & nx & mx & Ha & _) _]]; [apply Hq|].
    by apply advanceCommitIndex_inv in Ha as [n ->].
  - split; [simpl; auto|]. right. exists i, r, r'. split_and!; try done. split.
    + left. destruct (Propose_view _ _ _ _ H) as [[_ ->]|(_ & p & [n ->]%advanceCommitIndex_inv)]; simpl; lia.
    + intros e He. destruct (Propose_entries _ _ _ _ _ H He) as [?|[Hs <-]]; [by left|].
      right. right. by exists i, r, r', res.
  - split; [simpl; auto|]. right. exists i, r, r'. split_and!; try done. split.
    + left. apply Snapshot_meets in H. destruct e as [[]|]; try (destruct H as [-> _]; lia).
      destruct H as [[_ ->]|(? & _ & ? & ? & _)]; lia.
    + intros e' He. left. by eapply Snapshot_entries.
  - by apply (view_same c _ i r (deliverPendingSnapshot r).1 []).
  - apply (view_same c _ i r r' []); [done| |done..].
    pose proof (applyNext_same _ _ _ H) as Heq.
    set (la := r_lastApplied r') in Heq. clearbody la. by subst r'.
  - destruct (inv_node _ _ Hinv _ _ Hi) as (_ & _ & _ & Hd & _).
    destruct (newRaft_recovers r p i (r_peers r) Hd Hp) as (r2 & H2 & _ & _ & _ & Hps & _).
    rewrite H in H2. injection H2 as <-.
    apply (view_same c _ i r r' []); [done| |done..]. by apply persisted_same_log.
Qed.

(** ** Every position is shown by some state *)

(** Every position up to [n] is in the log of a state that had committed it. *)
Definition covered hist (n : Z) : Prop :=
  ∀ k, 0 < k ≤ n → ∃ h, h ∈ hist ∧ r_lastIncludedIndex h < k ≤ r_commitIndex h.

Record covers c : Prop := {
  cv_node i r : c_nodes c !! i = Some r → covered (c_hist c) (r_commitIndex r);
  cv_hist h : h ∈ c_hist c → covered (c_hist c) (r_commitIndex h);
  cv_snap to args : MSnapReq to args ∈ c_net c →
    covered (c_hist c) (is_LastIncludedIndex args)
}.

Lemma covered_mono hist hist' n m : hist ⊆ hist' → m ≤ n → covered hist n → covered hist' m.
Proof. intros Hs Hle Hc k Hk. destruct (Hc k) as (h & ? & ?); [lia|]. exists h. auto. Qed.

(** A state of the history covers what it holds itself. *)
Lemma covered_new hist r n :
  r ∈ hist → r_lastIncludedIndex r ≤ n → covered hist n → covered hist (r_commitIndex r).
Proof.
  intros Hr Hle Hc k Hk. destruct (decide (k ≤ n)) as [?|?]; [apply Hc; lia|].
  exists r. split; [done|lia].
Qed.

Lemma covers_init c : cluster_init members c → covers c.
Proof.
  intros (_ & _ & Hn & Hh & Hnodes). split; rewrite ?Hn, ?Hh.
  - intros i r Hi k Hk. destruct (Hnodes i r Hi) as (_ & op & -> & _). simpl in Hk. lia.
  - intros h []%not_elem_of_nil.
  - intros to args []%not_elem_of_nil.
Qed.

Lemma covers_step c c' Ld :
  safe members c Ld → covers c → step_view c c' → covers c'.
Proof.
  intros Hsf [Hn Hh Hs] [Hnet Hmove].
  assert (∀ i r, c_nodes c !! i = Some r →
    r_lastIncludedIndex r ≤ r_lastApplied r ≤ r_commitIndex r) as Hpos.
  { intros i r Hi. destruct (sf_node _ _ _ Hsf i r Hi) as (G & _ & Hok).
    destruct (nk_pos _ _ _ _ _ Hok) as [? ?]. lia. }
  assert (c_hist c ⊆ c_hist c') as Hsub
    by (destruct Hmove as [[_ ->]|(i & r & r' & _ & _ & -> & _)]; set_solver).
  assert (∀ to args, MSnapReq to args ∈ c_net c' →
    covered (c_hist c') (is_LastIncludedIndex args)) as Hs'.
  { intros to args [Hin|(i & r & Hi & ->)]%Hnet.
    - eapply covered_mono; [done|reflexivity|eauto].
    - eapply covered_mono; [done| |by eapply Hn]. apply Hpos in Hi. lia. }
  destruct Hmove as [[Hnn Hhh]|(i & r & r' & Hi & Hnn & Hhh & Hlii & _)].
  { split; rewrite ?Hnn, ?Hhh in *; done. }
  assert (covered (c_hist c') (r_commitIndex r')) as Hr'.
  { rewrite Hhh in *. destruct Hlii as [Hlii|(args & Hm & Hlii)].
    - apply (covered_new _ _ (r_commitIndex r)); [by left|apply Hpos in Hi; lia|].
      eapply covered_mono; [done|reflexivity|by eapply Hn].
    - apply (covered_new _ _ (is_LastIncludedIndex args)); [by left|lia|].
      eapply covered_mono; [done|reflexivity|by eapply Hs]. }
  split; [| |done].
  - intros j rj. rewrite Hnn. intros [[_ <-]|[_ Hj]]%lookup_insert_Some; [done|].
    eapply covered_mono; [done|reflexivity|eauto].
  - intros h. rewrite Hhh at 1. intros [->|Hin]%elem_of_cons; [done|].
    eapply covered_mono; [done|reflexivity|eauto].
Qed.

(** ** The list is the committed log *)

Lemma committedAt_Some hist n e :
  committedAt hist n = Some e →
  ∃ h, h ∈ hist ∧ r_lastIncludedIndex h < n ≤ r_commitIndex h ∧ entryAt h n = Some e.
Proof.
  induction hist as [|h hist IH]; simpl; [done|]. destruct (decide _) as [Hd|Hd].
  - intros He. exists h. split_and!; try done; [by left|lia..].
  - intros (h' & ? & ? & ?)%IH. exists h'. split_and!; try done; [by right|lia..].
Qed.

Lemma committedAt_covered c Ld n :
  safe members c Ld → covered (c_hist c) n → 0 < n → is_Some (committedAt (c_hist c) n).
Proof.
  intros Hsf Hc Hn. destruct (Hc n) as (h & Hh & Hb); [lia|].
  assert (∀ h, h ∈ c_hist c → r_lastIncludedIndex h < n ≤ r_commitIndex h →
    is_Some (entryAt h n)) as Hsome.
  { clear -Hsf. intros h Hh Hb. destruct (sf_hist _ _ _ Hsf h Hh) as (G & _ & [? ?] & _).
    apply entryAt_is_Some. lia. }
  revert Hh Hsome. generalize (c_hist c). intros hist. induction hist as [|h' hist IH];
    intros Hin Hsome; [by apply not_elem_of_nil in Hin|]. simpl. destruct (decide _) as [Hd|Hd].
  - apply Hsome; [by left|done].
  - apply IH; [|intros; apply Hsome; [by right|done]].
    apply elem_of_cons in Hin as [->|?]; [lia|done].
Qed.

Lemma omap_total {A B} (f : A → option B) (l : list A) (i : nat) :
  (∀ x, x ∈ l → is_Some (f x)) → omap f l !! i = l !! i ≫= f.
Proof.
  revert i. induction l as [|x l IH]; intros i Hf; [done|]. simpl.
  destruct (Hf x) as [y Hy]; [by left|]. rewrite Hy.
  destruct i as [|i]; simpl; [done|]. apply IH. intros; apply Hf. by right.
Qed.

Lemma covered_max c : covers c → covered (c_hist c) (maxCommit (c_hist c)).
Proof.
  intros Hcv. destruct (decide (0 < maxCommit (c_hist c))) as [Hpos|Hno]; [|intros k; lia].
  destruct (maxCommit_reached _ Hpos) as (h & Hh & <-). by apply cv_hist.
Qed.

Lemma committedLog_entry c Ld n :
  safe members c Ld → covers c → 0 < n ≤ maxCommit (c_hist c) →
  entryOf (committedLog (c_hist c)) n = committedAt (c_hist c) n.
Proof.
  intros Hsf Hcv Hn. unfold entryOf, zget, committedLog. rewrite bool_decide_true by lia.
  rewrite omap_total.
  - rewrite lookup_seqZ_lt by lia. simpl. f_equal. lia.
  - intros k Hk%elem_of_seqZ. eapply committedAt_covered; [done| |lia].
    eapply covered_mono; [done| |by apply covered_max]. lia.
Qed.

Lemma omap_length {A B} (f : A → option B) (l : list A) :
  (∀ x, x ∈ l → is_Some (f x)) → length (omap f l) = length l.
Proof.
  induction l as [|x l IH]; intros Hf; [done|]. simpl.
  destruct (Hf x) as [y ->]; [by left|]. simpl. f_equal. apply IH. intros; apply Hf. by right.
Qed.

Lemma committedLog_length c Ld :
  safe members c Ld → covers c → zlen (committedLog (c_hist c)) = maxCommit (c_hist c).
Proof.
  intros Hsf Hcv. unfold zlen, committedLog. pose proof (maxCommit_nonneg (c_hist c)).
  rewrite omap_length; [rewrite length_seqZ; lia|].
  intros k Hk%elem_of_seqZ. eapply committedAt_covered; [done| |lia].
  eapply covered_mono; [done| |by apply covered_max]. lia.
Qed.

(** Whatever was committed and reached is an initial segment of the list. *)
Lemma committed_in_log c Ld t K :
  safe members c Ld → covers c → committed members (c_hist c) Ld t K →
  zlen K ≤ maxCommit (c_hist c) → K `prefix_of` committedLog (c_hist c).
Proof.
  intros Hsf Hcv HK Hlen. pose proof (committedLog_length _ _ Hsf Hcv) as Hl.
  assert (upto (zlen K) K = upto (zlen K) (committedLog (c_hist c))) as Heq.
  { apply upto_ext; [done|lia|]. intros k Hk.
    replace k with (k + 1 - 1) by lia. change (entryOf K (k + 1) = entryOf (committedLog (c_hist c)) (k + 1)).
    rewrite (committedLog_entry _ Ld) by (done || lia).
    destruct (committedAt_covered c Ld (k + 1)) as [e He]; [done| |lia|].
    { eapply covered_mono; [done| |by apply covered_max]. lia. }
    rewrite He. apply committedAt_Some in He as (h & Hh & Hb & <-).
    destruct (sf_hist _ _ _ Hsf h Hh) as (G & [F _] & [Q Q'] & HG).
    rewrite (full_last _ _ F) in Q'. rewrite (full_entry _ _ F) by lia.
    rewrite <- (entryOf_upto G (r_commitIndex h)) by lia.
    destruct (committed_comparable members c Ld _ _ _ _ Hsf HK HG) as [Hp|Hp].
    - apply entryOf_prefix; [done|lia].
    - symmetry. apply entryOf_prefix; [done|]. rewrite zlen_upto; lia. }
  rewrite upto_all in Heq by lia. rewrite Heq. apply upto_prefix.
Qed.

(** The list itself is committed. *)
Lemma committedLog_committed c Ld :
  safe members c Ld → covers c →
  ∃ t, committed members (c_hist c) Ld t (committedLog (c_hist c)).
Proof.
  intros Hsf Hcv. pose proof (committedLog_length _ _ Hsf Hcv) as Hl.
  destruct (decide (0 < maxCommit (c_hist c))) as [Hpos|Hno].
  - destruct (maxCommit_reached _ Hpos) as (h & Hh & Hm).
    destruct (sf_hist _ _ _ Hsf h Hh) as (G & [F _] & [Q Q'] & HG).
    rewrite (full_last _ _ F) in Q'. exists (r_currentTerm h).
    assert (upto (r_commitIndex h) G `prefix_of` committedLog (c_hist c)) as Hp
      by (eapply committed_in_log; [done|done|done|rewrite zlen_upto; lia]).
    apply prefix_same_zlen in Hp; [by rewrite <- Hp|]. rewrite zlen_upto; lia.
  - exists 0. left. apply zlen_0. pose proof (maxCommit_nonneg (c_hist c)). lia.
Qed.

(** It grows with the history. *)
Lemma committedLog_grows c Ld c' Ld' :
  safe members c Ld → covers c → safe members c' Ld' → covers c' →
  c_hist c ⊆ c_hist c' → grows Ld Ld' →
  committedLog (c_hist c) `prefix_of` committedLog (c_hist c').
Proof.
  intros Hsf Hcv Hsf' Hcv' Hh Hg. destruct (committedLog_committed _ _ Hsf Hcv) as [t HC].
  eapply committed_in_log; [done|done| |].
  - eapply committed_mono; [exact Hh|exact Hg|reflexivity|exact HC].
  - rewrite (committedLog_length _ _ Hsf Hcv). by apply maxCommit_mono.
Qed.

(** ** Executions *)

Lemma step_grows c c' : step_view c c' → c_hist c ⊆ c_hist c'.
Proof. intros [_ [[_ ->]|(i & r & r' & _ & _ & -> & _)]]; set_solver. Qed.

Lemma log_step c c' Ld :
  inv members c → logs c Ld → safe members c Ld → covers c → cluster_step in_order c c' →
  inv members c' ∧ ∃ Ld', grows Ld Ld' ∧ logs c' Ld' ∧ safe members c' Ld' ∧ covers c' ∧
    committedLog (c_hist c) `prefix_of` committedLog (c_hist c').
Proof.
  intros Hinv Hlg Hsf Hcv Hstep. split; [by eapply inv_step|].
  pose proof (cluster_view _ _ _ Hinv Hstep) as Hv.
  destruct (safe_step members Hnodup Hids _ _ _ Hinv Hlg Hsf Hstep) as (Ld' & Hg & Hlg' & Hsf').
  assert (covers c') as Hcv' by by apply (covers_step c c' Ld).
  exists Ld'. split_and!; try done. apply (committedLog_grows c Ld c' Ld'); try done. by apply step_grows.
Qed.

Lemma log_steps c c' Ld :
  inv members c → logs c Ld → safe members c Ld → covers c → rtc (cluster_step in_order) c c' →
  ∃ Ld', safe members c' Ld' ∧ covers c' ∧
    committedLog (c_hist c) `prefix_of` committedLog (c_hist c').
Proof.
  intros Hinv Hlg Hsf Hcv Hrtc. revert Ld Hinv Hlg Hsf Hcv.
  induction Hrtc as [c|c c1 c2 Hstep _ IH]; intros Ld Hinv Hlg Hsf Hcv; [by exists Ld|].
  destruct (log_step c c1 Ld) as (Hinv1 & Ld1 & _ & Hlg1 & Hsf1 & Hcv1 & Hp); [done..|].
  destruct (IH Ld1) as (Ld2 & ? & ? & ?); [done..|]. exists Ld2. split_and!; try done. by etransitivity.
Qed.

Lemma log_reachable c :
  reachable_by in_order members c →
  inv members c ∧ ∃ Ld, logs c Ld ∧ safe members c Ld ∧ covers c.
Proof.
  intros (c0 & H0 & Hrtc). pose proof (logs_init _ _ H0) as Hlg.
  pose proof (safe_init members _ H0) as Hsf. pose proof (covers_init _ H0) as Hcv.
  apply (inv_init members) in H0 as Hinv. clear H0. revert Hinv Hlg Hsf Hcv.
  generalize (∅ : gmap Z Log).
  induction Hrtc as [c|c c1 c2 Hstep _ IH]; intros Ld Hinv Hlg Hsf Hcv; [split; [done|by exists Ld]|].
  destruct (log_step c c1 Ld) as (Hinv1 & Ld1 & _ & Hlg1 & Hsf1 & Hcv1 & _); [done..|].
  by apply (IH Ld1).
Qed.

(** C5: a cluster is an append-only log. Over a network that delivers no
    overtaken AppendEntries, the list computed from what the nodes show as
    committed only ever grows at its end, and at every moment it has, at each
    index some node has committed, that node's entry there - and an entry also
    where the node has compacted its own. *)
Theorem cluster_is_a_log c c' :
  reachable_by in_order members c → rtc (cluster_step in_order) c c' →
  committedLog (c_hist c) `prefix_of` committedLog (c_hist c') ∧
  ∀ h n, h ∈ c_hist c → 0 < n ≤ r_commitIndex h →
    ∃ e, entryOf (committedLog (c_hist c)) n = Some e ∧
      (r_lastIncludedIndex h < n → entryAt h n = Some e).
Proof.
  intros (Hinv & Ld & Hlg & Hsf & Hcv)%log_reachable Hrtc. split.
  { by destruct (log_steps c c' Ld) as (_ & _ & _ & ?). }
  intros h n Hh Hn. destruct (sf_hist _ _ _ Hsf h Hh) as (G & [F _] & [Q Q'] & HG).
  rewrite (full_last _ _ F) in Q'. pose proof (maxCommit_bound _ _ Hh).
  assert (is_Some (entryOf G n)) as [e He] by (apply entryOf_is_Some; lia).
  exists e. split; [|intros ?; by rewrite (full_entry _ _ F)].
  rewrite <- He, <- (entryOf_upto G (r_commitIndex h)) by lia. symmetry. apply entryOf_prefix.
  - eapply committed_in_log; [done|done|done|]. rewrite zlen_upto; lia.
  - rewrite zlen_upto; lia.
Qed.
End committed_log.

(** ** Witness *)
Module Witness.
(** Node 0 leads, and an entry is committed before and after the follower
    hears of it; its log starts the list throughout. *)
Lemma cluster_is_a_log_witness :
  ∃ c, reachable_by in_order Demo.members c ∧
    ∃ h : DemoRaft, h ∈ c_hist c ∧ r_commitIndex h = 1 ∧
    ∃ e, entryOf (committedLog (c_hist c)) 1 = Some e ∧ entryAt h 1 = Some e.
Proof.
  edestruct (RaftSafety.Witness.run_history RaftSafety.Witness.safety_actions 4 0)
    as (c & Hr & H1 & _); [vm_compute; reflexivity|].
  exists c. split; [exact Hr|]. eexists. split; [exact H1|]. split; [reflexivity|].
  destruct (cluster_is_a_log Demo.members (proj1 RaftSafety.Witness.members_ok)
    (proj2 RaftSafety.Witness.members_ok) c c Hr (rtc_refl _ _)) as [_ Hlog].
  destruct (Hlog _ 1 H1) as (e & He & Hent); [by vm_compute|].
  exists e. split; [exact He|]. apply Hent. by vm_compute.
Defined.
End Witness.
