(* ===== verification/Replicated.v ===== *)
(** * Replicated state machines

    A Raft cluster (RaftCluster.v) with a server on every node that applies
    what the node hands it over ApplyCh: the interface such servers implement -
    KVServer, the controllers, the shard groups - and the proof that they are
    then one state machine. Messages wait between node and server; servers
    compact their node's log, and crash and restart with it. The replicas agree
    where no AppendEntries is overtaken, no snapshot behind what was applied is
    installed and none waits while entries are handed over. *)
From S2P Require Import Prelude Persister RaftNode RaftFacts RaftDurable RaftVotes RaftLog RaftPositions RaftCommit RaftCluster RaftDivergence RaftGhost RaftLogMatching RaftChosen RaftSafety RaftCommitted.
Local Open Scope Z_scope.

(** ** The interface *)

(** What a log of operations means; [None]: the server panics. *)
Class Machine (Op St : Type) := {
  m_init : St;
  m_step : St → Op → option St
}.

(** A server that runs it on a Raft node. [srv_noop]: the term of the last
    no-op it applied; [srv_snap]: the bytes it compacts the log with; a server
    is booted on a node it has just got. *)
Class Server (Op P Srv St : Type) := {
  srv_rf : Srv → Raft Op P;
  srv_with : Raft Op P → Srv → Srv;
  srv_state : Srv → St;
  srv_noop : Srv → Z;
  srv_good : Srv → Prop;
  srv_snap : St → bytes → Prop;
  srv_process : Srv → ApplyMsg Op → outcome Srv;
  srv_boot : Raft Op P → Srv → Prop
}.

Class ServerLaws {Op P Srv St : Type} `{!Persister P, !Codec (persistedState Op)}
    (M : Machine Op St) (SV : Server Op P Srv St) := {
  srv_with_rf r s : srv_rf (srv_with r s) = r;
  srv_with_same r s : srv_state (srv_with r s) = srv_state s ∧
    srv_noop (srv_with r s) = srv_noop s ∧ (srv_good s → srv_good (srv_with r s));
  srv_compacts s m s' : srv_process s m = Ret s' →
    srv_rf s' = srv_rf s ∨ ∃ index data, Snapshot (srv_rf s) index data = Ret (srv_rf s', None);
  srv_command s i t op s' :
    srv_good s → srv_process s (commandMsg i t op) = Ret s' →
    srv_good s' ∧ m_step (srv_state s) op = Some (srv_state s') ∧
    (srv_noop s' = srv_noop s ∨ srv_noop s' = t) ∧
    (srv_rf s' = srv_rf s ∨ ∃ data, srv_snap (srv_state s') data ∧
       Snapshot (srv_rf s) i data = Ret (srv_rf s', None));
  srv_restore s st data n t s' :
    srv_good s → srv_snap st data → srv_process s (snapshotMsg data n t) = Ret s' →
    srv_good s' ∧ srv_state s' = st ∧ srv_noop s' = srv_noop s ∧ srv_rf s' = srv_rf s;
  srv_booted r s : srv_boot r s → srv_good s ∧ srv_noop s = 0 ∧
    (r_snapshotData r = [] → srv_state s = m_init) ∧
    (∀ st, srv_snap st (r_snapshotData r) → srv_state s = st)
}.

(** It panics only where its machine does, or a Snapshot fails. *)
Class ServerTotal {Op P Srv St : Type} `{!Persister P, !Codec (persistedState Op)}
    (M : Machine Op St) (SV : Server Op P Srv St) := {
  srv_command_returns s i t op st :
    srv_good s → m_step (srv_state s) op = Some st →
    (∀ data, ∃ r', Snapshot (srv_rf s) i data = Ret (r', None)) →
    returned (srv_process s (commandMsg i t op)) = true;
  srv_restore_returns s st data n t :
    srv_snap st data → returned (srv_process s (snapshotMsg data n t)) = true;
  srv_boot_returns r :
    r_snapshotData r = [] ∨ (∃ st, srv_snap st (r_snapshotData r)) → ∃ s, srv_boot r s
}.

(** ** The state a log produces *)

Section machine.
Context {Op St : Type} `{M : !Machine Op St}.

Definition run_from (o : option St) (ops : list Op) : option St :=
  foldl (λ o op, st ← o; m_step st op) o ops.

Definition run_ops (ops : list Op) : option St := run_from (Some m_init) ops.

Lemma run_from_cons st op ops : run_from (Some st) (op :: ops) = run_from (m_step st op) ops.
Proof. done. Qed.

Lemma run_from_app o ops1 ops2 : run_from o (ops1 ++ ops2) = run_from (run_from o ops1) ops2.
Proof. unfold run_from. by rewrite foldl_app. Qed.

Lemma run_from_None ops : run_from None ops = None.
Proof. by induction ops. Qed.

Lemma run_ops_initial ops1 ops2 : is_Some (run_ops (ops1 ++ ops2)) → is_Some (run_ops ops1).
Proof.
  unfold run_ops. rewrite run_from_app. destruct (run_from _ ops1); [by eexists|].
  by rewrite run_from_None.
Qed.

Lemma run_ops_snoc ops op : run_ops (ops ++ [op]) = st ← run_ops ops; m_step st op.
Proof. apply run_from_app. Qed.
End machine.

Lemma zlen_map {A B} (f : A → B) (l : list A) : zlen (map f l) = zlen l.
Proof. unfold zlen. by rewrite length_map. Qed.

Lemma map_prefix {A B} (f : A → B) (l k : list A) : l `prefix_of` k → map f l `prefix_of` map f k.
Proof. intros [m ->]. rewrite map_app. by apply prefix_app_r. Qed.

Section system.
Context {Op P Srv St : Type} `{!Persister P, !PersisterLaws P, !Codec (persistedState Op)}.
Context `{M : !Machine Op St, SV : !Server Op P Srv St, !ServerLaws M SV}.
Abbreviation Raft := (Raft Op P).
Abbreviation Cluster := (Cluster (Cmd:=Op) (P:=P)).
Abbreviation Log := (list (LogEntry Op)).
Implicit Type r : Raft.
Implicit Type c : Cluster.
Implicit Type srv : Srv.

(** ** The system *)

(** A server, the log position its state has reached, and the messages on
    their way to it: handed over by the apply goroutine, not applied yet. *)
Record Replica := mkReplica {
  rp_srv : Srv;
  rp_index : Z;
  rp_queue : list (ApplyMsg Op)
}.
Implicit Type a : Replica.
Implicit Type R : gmap Z Replica.

Definition push (m : ApplyMsg Op) a : Replica :=
  mkReplica (rp_srv a) (rp_index a) (rp_queue a ++ [m]).

(** What the apply goroutine and the server see of a node. *)
Definition apply_view r : Z * option (ApplyMsg Op) * Z * bytes :=
  (r_lastApplied r, r_pendingSnapshot r, r_lastIncludedIndex r, r_snapshotData r).

(** The position a message brings the server to. *)
Definition positionOf (m : ApplyMsg Op) : Z :=
  if am_SnapshotValid m then am_SnapshotIndex m else am_Index m.

Definition Machines : Type := Cluster * gmap Z Replica.

(** The path of what was committed to a server's state. *)
Inductive apply_step : Machines → Machines → Prop :=
| as_install c R i r args r' reply :
    c_nodes c !! i = Some r → MSnapReq i args ∈ c_net c →
    r_lastApplied r ≤ is_LastIncludedIndex args →
    InstallSnapshot r args = Ret (r', reply) →
    apply_step (c, R) (update c i r' [MSnapRep i args reply], R)
| as_take c R i r a r' m :
    c_nodes c !! i = Some r → R !! i = Some a → r_pendingSnapshot r = None →
    applyPending_next r = Ret (r', Some m) →
    apply_step (c, R) (update c i r' [], <[i := push m a]> R)
| as_deliver c R i r a m :
    c_nodes c !! i = Some r → R !! i = Some a →
    (deliverPendingSnapshot r).2 = Some m →
    apply_step (c, R) (update c i (deliverPendingSnapshot r).1 [], <[i := push m a]> R)
| as_process c R i r a m q srv' :
    c_nodes c !! i = Some r → R !! i = Some a → rp_queue a = m :: q →
    srv_process (srv_with r (rp_srv a)) m = Ret srv' →
    apply_step (c, R)
      (update c i (srv_rf srv') [], <[i := mkReplica srv' (positionOf m) q]> R).

(** Node [i] crashes and starts again from its storage, with a new server. *)
Inductive restart_step (i : Z) : Machines → Machines → Prop :=
| rs_crash c R r p r' srv' :
    c_nodes c !! i = Some r → r_persister r = Some p →
    newRaft i (r_peers r) (Some p) = Ret r' → srv_boot r' srv' →
    restart_step i (c, R)
      (set_starting (filter (λ j, j ≠ i) (c_starting c))
        (set_elections (filter (λ e, re_node e ≠ i) (c_elections c)) (update c i r' [])),
       <[i := mkReplica srv' (r_lastApplied r') []]> R).

(** As far as the log is concerned, nothing happened to the server. *)
Definition same_replica a a' : Prop :=
  srv_state (rp_srv a') = srv_state (rp_srv a) ∧ srv_noop (rp_srv a') = srv_noop (rp_srv a) ∧
  (srv_good (rp_srv a) → srv_good (rp_srv a')) ∧
  rp_index a' = rp_index a ∧ rp_queue a' = rp_queue a.

(** Everything: elections, replication and proposals on the one side and
    handlers on the other leave the path alone. *)
Inductive machine_step : Machines → Machines → Prop :=
| ms_outside c R c' R' :
    (c' = c ∨ cluster_step in_order c c') → apply_view <$> c_nodes c' = apply_view <$> c_nodes c →
    (∀ i a', R' !! i = Some a' → ∃ a, R !! i = Some a ∧ same_replica a a') →
    machine_step (c, R) (c', R')
| ms_apply x x' : apply_step x x' → machine_step x x'
| ms_restart i x x' : restart_step i x x' → machine_step x x'.

(** First-ever boots of nodes and servers. *)
Definition machines_init (members : list Z) (x : Machines) : Prop :=
  cluster_init members x.1 ∧
  ∀ i a, x.2 !! i = Some a →
    srv_good (rp_srv a) ∧ srv_state (rp_srv a) = m_init ∧ srv_noop (rp_srv a) = 0 ∧
    rp_index a = 0 ∧ rp_queue a = [].

Definition machines_reachable (members : list Z) (x : Machines) : Prop :=
  ∃ x0, machines_init members x0 ∧ rtc machine_step x0 x.

(** ** It is the cluster of RaftSafety *)

Lemma Snapshot_noop r data : Snapshot r (r_lastIncludedIndex r) data = Ret (r, None).
Proof. unfold Snapshot. by rewrite (proj2 (Z.leb_le _ _)) by lia. Qed.

Lemma machine_cluster_step x x' :
  machine_step x x' → x'.1 = x.1 ∨ cluster_step in_order x.1 x'.1.
Proof.
  intros [c R c' R' Hc _ _|? ? Hs|i ? ? Hs]; [done| |].
  - right. destruct Hs as [c R i r args r' reply Hi Hm _ H|c R i r a r' m Hi _ _ H|c R i r a m Hi _ _
      |c R i r a m q srv' Hi _ _ H]; simpl.
    + by eapply step_install_snapshot.
    + by eapply step_apply.
    + by apply step_deliver.
    + apply srv_compacts in H. rewrite srv_with_rf in H. destruct H as [->|(index & data & H)].
      * eapply step_snapshot; [done|apply (Snapshot_noop r [])].
      * by eapply step_snapshot.
  - right. destruct Hs as [c R r p r' srv' Hi Hp H _]; simpl. by eapply step_restart.
Qed.
End system.
Arguments mkReplica {Op Srv} _ _ _.

(** ** What a log's terms are *)

Section terms.
Context {Cmd P : Type} `{!Persister P, !PersisterLaws P, !Codec (persistedState Cmd)}.
Abbreviation Cluster := (Cluster (Cmd:=Cmd) (P:=P)).
Context (members : list Z).
Implicit Type c : Cluster.

(** Terms do not fall along a committed log, and are positive. *)
Lemma committed_terms_ordered c Ld t K i j :
  safe members c Ld → committed members (c_hist c) Ld t K → 1 ≤ i → i ≤ j → j ≤ zlen K →
  1 ≤ termOf K i ≤ termOf K j.
Proof.
  intros Hsf [->|(u & K' & _ & Hc & Hp)] Hi Hij Hj; [rewrite zlen_nil in Hj; lia|].
  pose proof (prefix_zlen _ _ Hp).
  destruct (chosen_leader _ _ _ _ _ Hc) as (L & HL & HKL). pose proof (prefix_zlen _ _ HKL).
  destruct (sf_order _ _ _ Hsf _ _ HL) as [_ [Hord _]].
  destruct Hc as (_ & Q & HQ & Hv). destruct (quorum_nonempty members Q HQ) as (v & Hin).
  destruct (Hv v Hin) as (h & G & _ & _ & _ & [_ HS] & HG). pose proof (prefix_zlen _ _ HG).
  assert (termOf K i = termOf G i) as HiG
    by (rewrite (termOf_prefix K K'), (termOf_prefix K' G); done || lia).
  destruct (HS i) as (L' & HL' & _); [lia|].
  destruct (sf_order _ _ _ Hsf _ _ HL') as [Hpos _].
  rewrite (termOf_prefix K K' j), (termOf_prefix K' L j) by (done || lia).
  specialize (Hord i j Hi Hij ltac:(lia)).
  rewrite (termOf_prefix K K' i), (termOf_prefix K' L i) in * by (done || lia). lia.
Qed.
End terms.

(** ** The invariant *)

Section agreement.
Context {Op P Srv St : Type} `{!Persister P, !PersisterLaws P, !Codec (persistedState Op)}.
Context `{M : !Machine Op St, SV : !Server Op P Srv St, !ServerLaws M SV}.
Abbreviation Raft := (Raft Op P).
Abbreviation Cluster := (Cluster (Cmd:=Op) (P:=P)).
Abbreviation Log := (list (LogEntry Op)).
Abbreviation Replica := (Replica (Op:=Op) (Srv:=Srv)).
Abbreviation Machines := (Machines (Op:=Op) (P:=P) (Srv:=Srv)).
Context (members : list Z) (Hnodup : NoDup members) (Hids : ∀ i, i ∈ members → 0 ≤ i).
Implicit Type r : Raft.
Implicit Type c : Cluster.
Implicit Type srv : Srv.
Implicit Type a : Replica.
Implicit Type R : gmap Z Replica.
Implicit Type x : Machines.
Implicit Type K : Log.
Implicit Type Ld : gmap Z Log.

(** The state a log of entries produces. *)
Definition run_log K : option St := run_ops (map le_Command K).

(** The cluster has committed the log [K], of length [n], and shows it. *)
Definition agreed c Ld (n : Z) K : Prop :=
  zlen K = n ∧ n ≤ maxCommit (c_hist c) ∧ ∃ t, committed members (c_hist c) Ld t K.

(** The bytes of a snapshot of the state at position [n]. *)
Definition data_ok c Ld (n : Z) (data : bytes) : Prop :=
  ∃ K st, agreed c Ld n K ∧ run_log K = Some st ∧
    srv_snap st data.

(** The messages on the way take a server from position [i] to [j]. *)
Fixpoint queue_ok c Ld (i : Z) (q : list (ApplyMsg Op)) (j : Z) : Prop :=
  match q with
  | [] => i = j
  | m :: q =>
      (∃ K e, agreed c Ld (i + 1) (K ++ [e]) ∧
        m = commandMsg (i + 1) (le_Term e) (le_Command e) ∧ queue_ok c Ld (i + 1) q j) ∨
      (∃ n data t, i ≤ n ∧ m = snapshotMsg data n t ∧ data_ok c Ld n data ∧ queue_ok c Ld n q j)
  end.

(** There is an entry of term [t] up to position [n]. *)
Definition reads_term c Ld (t n : Z) : Prop :=
  ∃ k K e, agreed c Ld k (K ++ [e]) ∧ le_Term e = t ∧ k ≤ n.

Record node_data c Ld r : Prop := {
  nd_snapshot : 0 < r_lastIncludedIndex r →
    data_ok c Ld (r_lastIncludedIndex r) (r_snapshotData r);
  nd_pending m : r_pendingSnapshot r = Some m → ∃ data t,
    m = snapshotMsg data (r_lastApplied r) t ∧ data_ok c Ld (r_lastApplied r) data
}.

Record replica_ok c Ld r a : Prop := {
  ro_good : srv_good (rp_srv a);
  ro_state : ∃ K, agreed c Ld (rp_index a) K ∧
    run_log K = Some (srv_state (rp_srv a));
  ro_queue : ∃ j, queue_ok c Ld (rp_index a) (rp_queue a) j ∧ j ≤ r_lastApplied r ∧
    (r_pendingSnapshot r = None → j = r_lastApplied r);
  ro_noop : srv_noop (rp_srv a) = 0 ∨
    reads_term c Ld (srv_noop (rp_srv a)) (rp_index a)
}.

Record system_ok c R Ld : Prop := {
  sy_node i r : c_nodes c !! i = Some r → node_data c Ld r;
  sy_replica i r a : c_nodes c !! i = Some r → R !! i = Some a → replica_ok c Ld r a;
  sy_msg to args : MSnapReq to args ∈ c_net c → 0 < is_LastIncludedIndex args →
    data_ok c Ld (is_LastIncludedIndex args) (is_Data args)
}.

(** Later clusters know more. *)
Definition later c Ld c' Ld' : Prop := c_hist c ⊆ c_hist c' ∧ grows Ld Ld'.

Lemma agreed_mono c Ld c' Ld' n K : later c Ld c' Ld' → agreed c Ld n K → agreed c' Ld' n K.
Proof.
  intros [Hh Hg] (Hn & Hmax & t & Ht). split_and!; [done| |exists t].
  { pose proof (maxCommit_mono _ _ Hh). lia. }
  by eapply committed_mono; [..|reflexivity|].
Qed.

Lemma data_ok_mono c Ld c' Ld' n data :
  later c Ld c' Ld' → data_ok c Ld n data → data_ok c' Ld' n data.
Proof. intros Hl (K & st & ? & ? & ?). exists K, st. split_and!; [by eapply agreed_mono|done|done]. Qed.

Lemma queue_ok_mono c Ld c' Ld' i q j :
  later c Ld c' Ld' → queue_ok c Ld i q j → queue_ok c' Ld' i q j.
Proof.
  intros Hl. revert i. induction q as [|m q IH]; intros i; simpl; [done|].
  intros [(K & e & ? & ? & ?)|(n & data & t & ? & ? & ? & ?)]; [left|right].
  - exists K, e. split_and!; [by eapply agreed_mono|done|auto].
  - exists n, data, t. split_and!; [done|done|by eapply data_ok_mono|auto].
Qed.

Lemma queue_ok_le c Ld i q j : queue_ok c Ld i q j → i ≤ j.
Proof.
  revert i. induction q as [|m q IH]; intros i; simpl; [lia|].
  intros [(K & e & _ & _ & H%IH)|(n & data & t & ? & _ & _ & H%IH)]; lia.
Qed.

Lemma queue_ok_app c Ld i q j m k :
  queue_ok c Ld i q j → queue_ok c Ld j [m] k → queue_ok c Ld i (q ++ [m]) k.
Proof.
  revert i. induction q as [|m' q IH]; intros i; [simpl; by intros ->|].
  simpl. intros [(K & e & ? & ? & ?)|(n & data & t & ? & ? & ? & ?)] Hm; [left|right].
  - exists K, e. split_and!; [done|done|by apply IH].
  - exists n, data, t. split_and!; [done..|by apply IH].
Qed.

Lemma node_data_mono c Ld c' Ld' r : later c Ld c' Ld' → node_data c Ld r → node_data c' Ld' r.
Proof.
  intros Hl [H1 H2]. split; [intros ?; eapply data_ok_mono; eauto|].
  intros m (data & t & ? & ?)%H2. exists data, t. split; [done|by eapply data_ok_mono].
Qed.

Lemma node_data_view c Ld r r' :
  apply_view r' = apply_view r → node_data c Ld r → node_data c Ld r'.
Proof. intros [= Ha Hp Hi Hd] []. split; rewrite ?Ha, ?Hp, ?Hi, ?Hd; done. Qed.

Lemma reads_mono c Ld c' Ld' t n : later c Ld c' Ld' → reads_term c Ld t n → reads_term c' Ld' t n.
Proof. intros Hl (k & K & e & ? & ? & ?). exists k, K, e. split_and!; [by eapply agreed_mono|done..]. Qed.

Lemma replica_ok_mono c Ld c' Ld' r a :
  later c Ld c' Ld' → replica_ok c Ld r a → replica_ok c' Ld' r a.
Proof.
  intros Hl [? (K & ? & ?) (j & ? & ?) Hno]. split; [done|..].
  - exists K. split; [by eapply agreed_mono|done].
  - exists j. split; [by eapply queue_ok_mono|done].
  - destruct Hno as [?|?]; [by left|right]. by eapply reads_mono.
Qed.

Lemma replica_ok_view c Ld r r' a :
  apply_view r' = apply_view r → replica_ok c Ld r a → replica_ok c Ld r' a.
Proof. intros [= Ha Hp _ _] []. split; rewrite ?Ha, ?Hp; done. Qed.

(** Committed logs of one length are one log. *)
Lemma agreed_unique c Ld n K1 K2 :
  safe members c Ld → agreed c Ld n K1 → agreed c Ld n K2 → K1 = K2.
Proof.
  intros Hsf (H1 & _ & t1 & C1) (H2 & _ & t2 & C2).
  destruct (committed_comparable members c Ld _ _ _ _ Hsf C1 C2) as [Hp|Hp].
  - apply prefix_same_zlen; [done|lia].
  - symmetry. apply prefix_same_zlen; [done|lia].
Qed.

Lemma agreed_snoc c Ld n K e K' :
  safe members c Ld → agreed c Ld (n + 1) (K ++ [e]) → agreed c Ld n K' → K' = K.
Proof.
  intros Hsf (H1 & Hmax & t1 & C1) H2. apply (agreed_unique c Ld n); [done|done|].
  split_and!; [rewrite zlen_app in H1; zlia|lia|]. exists t1.
  eapply committed_prefix; [|done]. by apply prefix_app_r.
Qed.

(** ** Every step *)

Lemma step_hist accepts c c' : cluster_step accepts c c' → c_hist c ⊆ c_hist c'.
Proof. intros []; simpl; set_solver. Qed.

(** Snapshots on the network come from a leader's storage. *)
Lemma step_snapshots accepts c c' to args :
  cluster_step accepts c c' → MSnapReq to args ∈ c_net c' →
  MSnapReq to args ∈ c_net c ∨
  ∃ i r, c_nodes c !! i = Some r ∧ sendInstallSnapshot_begin r = Some args.
Proof.
  intros Hstep Hin. destruct Hstep; simpl in Hin;
    repeat (apply elem_of_cons in Hin as [Heq|Hin]; [try done|]); try (by left).
  - apply elem_of_app in Hin as [Hin|Hin]; [|by left].
    apply list_elem_of_In, in_map_iff in Hin as (? & ? & _). done.
  - simplify_eq. right. by eexists _, _.
Qed.

(** A step of node [i] alone: what is left to show is about its new state. *)
Lemma system_update c R Ld c' Ld' i r r' R' :
  later c Ld c' Ld' → system_ok c R Ld → c_nodes c !! i = Some r →
  c_nodes c' = <[i := r']> (c_nodes c) →
  (∀ to args, MSnapReq to args ∈ c_net c' → MSnapReq to args ∈ c_net c) →
  (∀ j, j ≠ i → R' !! j = R !! j) →
  node_data c' Ld' r' →
  (∀ a, R' !! i = Some a → replica_ok c' Ld' r' a) →
  system_ok c' R' Ld'.
Proof.
  intros Hl [Hn Hr Hm] Hi Hc Hnet HR Hd Hro. split.
  - intros j rj. rewrite Hc. intros [[<- <-]|[Hne Hj]]%lookup_insert_Some; [done|].
    eapply node_data_mono; eauto.
  - intros j rj a. rewrite Hc. intros [[<- <-]|[Hne Hj]]%lookup_insert_Some Ha; [auto|].
    rewrite HR in Ha by done. eapply replica_ok_mono; eauto.
  - intros to args Hin Hpos. eapply data_ok_mono; eauto.
Qed.

Lemma view_lookup c c' i r' :
  apply_view <$> c_nodes c' = apply_view <$> c_nodes c → c_nodes c' !! i = Some r' →
  ∃ r, c_nodes c !! i = Some r ∧ apply_view r' = apply_view r.
Proof.
  intros Hv Hi. assert ((apply_view <$> c_nodes c) !! i = Some (apply_view r')) as H
    by (by rewrite <- Hv, lookup_fmap, Hi).
  rewrite lookup_fmap in H. apply fmap_Some in H as (r & ? & ?). by exists r.
Qed.

Lemma system_raft c c' R Ld Ld' :
  later c Ld c' Ld' → system_ok c R Ld → cluster_step in_order c c' →
  apply_view <$> c_nodes c' = apply_view <$> c_nodes c → system_ok c' R Ld'.
Proof.
  intros Hl [Hn Hr Hm] Hstep Hv. split.
  - intros i r' Hi. destruct (view_lookup _ _ _ _ Hv Hi) as (r & Hi' & Hvr).
    eapply node_data_view; [done|]. eapply node_data_mono; eauto.
  - intros i r' a Hi Ha. destruct (view_lookup _ _ _ _ Hv Hi) as (r & Hi' & Hvr).
    eapply replica_ok_view; [done|]. eapply replica_ok_mono; eauto.
  - intros to args Hin Hpos. eapply data_ok_mono; [done|].
    destruct (step_snapshots _ _ _ _ _ Hstep Hin) as [Hold|(i & r & Hi & Hs)]; [eauto|].
    unfold sendInstallSnapshot_begin in Hs. destruct (r_state r); simplify_eq. simpl in *.
    by apply (Hn i r Hi).
Qed.

Lemma system_install c R Ld c' Ld' i r args r' reply :
  safe members c Ld → later c Ld c' Ld' → system_ok c R Ld → c_nodes c !! i = Some r →
  MSnapReq i args ∈ c_net c → r_lastApplied r ≤ is_LastIncludedIndex args →
  InstallSnapshot r args = Ret (r', reply) →
  c' = update c i r' [MSnapRep i args reply] → system_ok c' R Ld'.
Proof.
  intros Hsf Hl Hsy Hi Hm Hfresh H ->.
  destruct (node_ghost members c Ld i r Hsf Hi) as (G & _ & Hok).
  destruct (nk_pos _ _ _ _ _ Hok) as [Hp _].
  pose proof (sy_node _ _ _ Hsy i r Hi) as Hnd.
  destruct (InstallSnapshot_meets _ _ _ _ H) as (_ & _ & Hold & Hnew).
  eapply (system_update c R Ld _ Ld' i r r' R); try done.
  - simpl. intros to args' [?|?]%elem_of_cons; done.
  - eapply node_data_mono; [done|].
    destruct (decide (r_currentTerm r ≤ is_Term args ∧
                      r_lastIncludedIndex r < is_LastIncludedIndex args)) as [[Ht Hlt]|Hno].
    + destruct (Hnew Ht Hlt) as (_ & Hlii & _ & Hd & Hps & _ & Hla & _).
      assert (data_ok c Ld (is_LastIncludedIndex args) (is_Data args)) as Hdata
        by (eapply (sy_msg _ _ _ Hsy); [done|lia]).
      rewrite Z.max_r in Hla by done.
      split; rewrite ?Hlii, ?Hd, ?Hps, ?Hla; [done|]. intros m [= <-]. by eexists _, _.
    + destruct Hold as ((_ & Hlii & _) & Hd & _ & Hla & Hps); [lia|].
      apply (node_data_view _ _ r); [|done]. unfold apply_view. congruence.
  - intros a Ha. eapply replica_ok_mono; [done|].
    destruct (sy_replica _ _ _ Hsy i r a Hi Ha) as [Hgood Hst (j & Hq & Hle & Hj) Hnoop].
    split; [done|done| |done]. exists j. split; [done|].
    destruct (decide (r_currentTerm r ≤ is_Term args ∧
                      r_lastIncludedIndex r < is_LastIncludedIndex args)) as [[Ht Hlt]|Hno].
    + destruct (Hnew Ht Hlt) as (_ & _ & _ & _ & Hps & _ & Hla & _). split; [lia|congruence].
    + destruct Hold as (_ & _ & _ & Hla & Hps); [lia|]. rewrite Hla, Hps. done.
Qed.

Lemma upto_snoc G n (e : LogEntry Op) :
  0 ≤ n → entryOf G (n + 1) = Some e → upto (n + 1) G = upto n G ++ [e].
Proof.
  unfold entryOf, zget, upto. intros Hn He. rewrite bool_decide_true in He by lia.
  replace (Z.to_nat (n + 1)) with (S (Z.to_nat n)) by lia.
  rewrite (take_S_r _ _ e); [done|]. rewrite <- He. f_equal. lia.
Qed.

Lemma system_take c R Ld c' Ld' i r a r' m :
  safe members c Ld → later c Ld c' Ld' → system_ok c R Ld → c_nodes c !! i = Some r →
  R !! i = Some a → r_pendingSnapshot r = None → applyPending_next r = Ret (r', Some m) →
  c' = update c i r' [] → system_ok c' (<[i := push m a]> R) Ld'.
Proof.
  intros Hsf Hl Hsy Hi Ha Hnone H ->.
  destruct (node_ghost members c Ld i r Hsf Hi) as (G & [HG _] & Hok).
  destruct (nk_pos _ _ _ _ _ Hok) as [Hp1 Hp2]. rewrite (full_last _ _ HG) in Hp2.
  pose proof (applyNext_same _ _ _ H) as Heq.
  destruct (applyNext_entry _ _ _ H) as (Hb & e & He & Hm).
  assert (am_Index m = r_lastApplied r + 1 ∧ r_lastApplied r' = r_lastApplied r + 1) as [Hidx Hla].
  { revert H. unfold applyPending_next. repeat case_match; try done.
    intros (e' & _ & [= <- <-])%bind_Ret_inv. done. }
  assert (r_pendingSnapshot r' = None ∧ r_lastIncludedIndex r' = r_lastIncludedIndex r ∧
    r_snapshotData r' = r_snapshotData r ∧ r_commitIndex r' = r_commitIndex r)
    as (Hps & Hlii & Hd & Hci).
  { set (la := r_lastApplied r') in Heq. clearbody la. by subst r'. }
  rewrite Hidx in *. rewrite (full_entry _ _ HG) in He by lia.
  assert (agreed (update c i r' []) Ld' (r_lastApplied r + 1) (upto (r_lastApplied r) G ++ [e])) as Hag.
  { rewrite <- (upto_snoc G _ e) by (done || lia). split_and!; [apply zlen_upto; lia| |].
    - pose proof (maxCommit_bound (c_hist (update c i r' [])) r' ltac:(by left)). lia.
    - eexists. destruct Hl as [Hh Hg]. eapply committed_mono; [exact Hh|exact Hg|reflexivity|].
      eapply committed_prefix; [|apply Hok]. apply upto_prefix_le. lia. }
  eapply (system_update c R Ld _ Ld' i r r'); try done.
  - intros j Hne. by rewrite lookup_insert_ne.
  - eapply node_data_mono; [done|]. destruct (sy_node _ _ _ Hsy i r Hi) as [H1 _].
    split; rewrite ?Hlii, ?Hd, ?Hps; [done|congruence].
  - intros a0. rewrite lookup_insert_eq. intros [= <-].
    pose proof (sy_replica _ _ _ Hsy i r a Hi Ha) as Hro. eapply replica_ok_mono in Hro; [|exact Hl].
    destruct Hro as [Hgood Hst (j & Hq & _ & Hj) Hno]. specialize (Hj Hnone).
    split; [done|done| |done]. exists (r_lastApplied r + 1). simpl. split; [|split; [lia|done]].
    eapply queue_ok_app; [done|]. subst j. simpl. left. by exists (upto (r_lastApplied r) G), e.
Qed.

Lemma system_deliver c R Ld c' Ld' i r a m :
  later c Ld c' Ld' → system_ok c R Ld → c_nodes c !! i = Some r → R !! i = Some a →
  (deliverPendingSnapshot r).2 = Some m →
  c' = update c i (deliverPendingSnapshot r).1 [] → system_ok c' (<[i := push m a]> R) Ld'.
Proof.
  intros Hl Hsy Hi Ha Hm ->. simpl in Hm.
  destruct (sy_node _ _ _ Hsy i r Hi) as [H1 H2].
  destruct (H2 m Hm) as (data & t & -> & Hdata).
  eapply (system_update c R Ld _ Ld' i r); try done.
  - intros j Hne. by rewrite lookup_insert_ne.
  - eapply node_data_mono; [done|]. by split.
  - intros a0. rewrite lookup_insert_eq. intros [= <-]. eapply replica_ok_mono; [done|].
    destruct (sy_replica _ _ _ Hsy i r a Hi Ha) as [Hgood Hst (j & Hq & Hle & Hj) Hno].
    split; [done|done| |done]. exists (r_lastApplied r). simpl. split; [|done].
    eapply queue_ok_app; [done|]. simpl. right. by exists (r_lastApplied r), data, t.
Qed.

(** The server reaches the position of the message it handled. *)
Lemma process_ok c Ld i m q j srv srv' :
  safe members c Ld → srv_good srv →
  (∃ K, agreed c Ld i K ∧ run_log K = Some (srv_state srv)) →
  (srv_noop srv = 0 ∨ reads_term c Ld (srv_noop srv) i) →
  queue_ok c Ld i (m :: q) j → srv_process srv m = Ret srv' →
  srv_good srv' ∧
  (∃ K, agreed c Ld (positionOf m) K ∧ run_log K = Some (srv_state srv')) ∧
  (srv_noop srv' = 0 ∨ reads_term c Ld (srv_noop srv') (positionOf m)) ∧
  queue_ok c Ld (positionOf m) q j ∧
  (srv_rf srv' = srv_rf srv ∨ ∃ data, srv_snap (srv_state srv') data ∧
     Snapshot (srv_rf srv) (positionOf m) data = Ret (srv_rf srv', None)).
Proof.
  intros Hsf Hgood (K0 & HK0 & Hrun) Hno Hq H.
  destruct Hq as [(K & e & HK & -> & Hq)|(n & data & t & Hle & -> & (K & st & HK & Hst & Hd) & Hq)].
  - apply srv_command in H as (Hg & Hstep & Hn & Hrf); [|done]. split_and!; [done| | |done|done].
    + exists (K ++ [e]). split; [done|].
      assert (K0 = K) as -> by by eapply agreed_snoc.
      unfold run_log. rewrite map_app. change (map le_Command [e]) with [le_Command e].
      rewrite run_ops_snoc. fold (run_log K). by rewrite Hrun.
    + destruct Hn as [->| ->].
      * destruct Hno as [?|(k & K' & e' & ? & ? & ?)]; [by left|right].
        exists k, K', e'. split_and!; [done|done|unfold positionOf; simpl; lia].
      * right. exists (i + 1), K, e. done.
  - apply (srv_restore _ st) in H as (Hg & <- & -> & Hrf); [|done..].
    split_and!; [done|by exists K| |done|by left].
    destruct Hno as [?|(k & K' & e' & ? & ? & ?)]; [by left|right].
    exists k, K', e'. split_and!; [done|done|unfold positionOf; simpl; lia].
Qed.

Lemma Snapshot_view r index data r' :
  Snapshot r index data = Ret (r', None) →
  r_lastApplied r' = r_lastApplied r ∧ r_pendingSnapshot r' = r_pendingSnapshot r ∧
  ((r_lastIncludedIndex r' = r_lastIncludedIndex r ∧ r_snapshotData r' = r_snapshotData r) ∨
   (r_lastIncludedIndex r' = index ∧ r_snapshotData r' = data ∧ r_lastIncludedIndex r < index)).
Proof.
  intros H. assert (r_pendingSnapshot r' = r_pendingSnapshot r) as Hp
    by (revert H; unfold Snapshot; intros H; handler; saved; done).
  apply Snapshot_meets in H as [[_ ->]|(? & _ & _ & ? & ? & _ & _ & _ & _ & _ & ? & _)].
  - split_and!; try done. by left.
  - split_and!; try done. by right.
Qed.

Lemma system_process c R Ld c' Ld' i r a m q srv' :
  safe members c Ld → later c Ld c' Ld' → system_ok c R Ld → c_nodes c !! i = Some r →
  R !! i = Some a → rp_queue a = m :: q →
  srv_process (srv_with r (rp_srv a)) m = Ret srv' →
  c' = update c i (srv_rf srv') [] →
  system_ok c' (<[i := mkReplica srv' (positionOf m) q]> R) Ld'.
Proof.
  intros Hsf Hl Hsy Hi Ha Hqm H ->.
  destruct (sy_replica _ _ _ Hsy i r a Hi Ha) as [Hgood Hst (j & Hq & Hj) Hnoop]. rewrite Hqm in Hq.
  destruct (srv_with_same r (rp_srv a)) as (Ws & Wn & Wg).
  destruct (process_ok c Ld (rp_index a) m q j (srv_with r (rp_srv a)) srv')
    as (Hgood' & Hst' & Hnoop' & Hq' & Hrf); rewrite ?Ws, ?Wn; auto.
  rewrite srv_with_rf in Hrf.
  assert (r_lastApplied (srv_rf srv') = r_lastApplied r ∧
    r_pendingSnapshot (srv_rf srv') = r_pendingSnapshot r) as [Hla Hps].
  { destruct Hrf as [->|(data & _ & Hs)]; [done|]. by destruct (Snapshot_view _ _ _ _ Hs) as (? & ? & _). }
  destruct (sy_node _ _ _ Hsy i r Hi) as [H1 H2].
  eapply (system_update c R Ld _ Ld' i r); try done.
  - intros k Hne. by rewrite lookup_insert_ne.
  - eapply node_data_mono; [done|]. split; rewrite ?Hla, ?Hps; [|done].
    destruct Hrf as [->|(data & Hd & Hs)]; [done|].
    destruct (Snapshot_view _ _ _ _ Hs) as (_ & _ & [[-> ->]|(-> & -> & Hlt)]); [done|].
    intros _. destruct Hst' as (K & HK & Hrun). by exists K, (srv_state srv').
  - intros a0. rewrite lookup_insert_eq. intros [= <-]. eapply replica_ok_mono; [done|].
    split; simpl; [done|done| |done]. exists j. split; [done|]. rewrite Hla, Hps. done.
Qed.

Lemma newRaft_data r p i peers r' :
  durable r → r_persister r = Some p → newRaft i peers (Some p) = Ret r' →
  r_lastIncludedIndex r' = r_lastIncludedIndex r ∧
  r_lastApplied r' = Z.max 0 (r_lastIncludedIndex r) ∧ r_pendingSnapshot r' = None ∧
  (if decide (0 < r_lastIncludedIndex r) then r_snapshotData r' = r_snapshotData r
   else r_snapshotData r' = []).
Proof.
  intros Hd Hp H. destruct (newRaft_recovers r p i peers Hd Hp)
    as (r2 & H2 & _ & _ & _ & Hps & Hdata & _ & Hla & _).
  rewrite H in H2. injection H2 as <-. injection Hps as _ _ _ Hlii _.
  assert (r_pendingSnapshot r' = None ∧ (r_lastIncludedIndex r' ≤ 0 → r_snapshotData r' = []))
    as [Hnone Hz].
  { clear -H. unfold newRaft, restoreLocked, freshRaft in H. simpl in H.
    handler; (split; [done|simpl; intros; done || lia]). }
  split_and!; try done. destruct (decide _); [auto|]. apply Hz. lia.
Qed.

Lemma system_restart c R Ld c' Ld' i r p r' srv' :
  inv members c → safe members c Ld → later c Ld c' Ld' → system_ok c R Ld →
  c_nodes c !! i = Some r → r_persister r = Some p →
  newRaft i (r_peers r) (Some p) = Ret r' → srv_boot r' srv' →
  c_nodes c' = <[i := r']> (c_nodes c) → c_net c' = c_net c →
  system_ok c' (<[i := mkReplica srv' (r_lastApplied r') []]> R) Ld'.
Proof.
  intros Hinv Hsf Hl Hsy Hi Hp H Hnew Hc Hnet.
  destruct (inv_node _ _ Hinv _ _ Hi) as (_ & _ & _ & Hd & _).
  destruct (newRaft_data r p i (r_peers r) r' Hd Hp H) as (Hlii & Hla & Hps & Hdata).
  destruct (node_ghost members c Ld i r Hsf Hi) as (G & _ & Hok).
  destruct (nk_pos _ _ _ _ _ Hok) as [Hpos _]. rewrite Z.max_r in Hla by lia.
  destruct (sy_node _ _ _ Hsy i r Hi) as [H1 _].
  destruct (srv_booted _ _ Hnew) as (Hgood & Hnoop & Hfirst & Hsnap).
  eapply (system_update c R Ld _ Ld' i r r'); try done.
  - intros to args. by rewrite Hnet.
  - intros k Hne. by rewrite lookup_insert_ne.
  - eapply node_data_mono; [done|]. split; rewrite ?Hlii, ?Hps; [|done].
    intros Hlt. rewrite decide_True in Hdata by done. rewrite Hdata. auto.
  - intros a0. rewrite lookup_insert_eq. intros [= <-]. eapply replica_ok_mono; [done|].
    split; simpl; [done| |by exists (r_lastApplied r')|by left]. rewrite Hla.
    destruct (decide (0 < r_lastIncludedIndex r)) as [Hlt|Hle].
    + destruct (H1 Hlt) as (K & st & HK & Hst & Hde). exists K. split; [done|].
      rewrite <- Hdata in Hde. by rewrite (Hsnap st Hde).
    + rewrite (Hfirst Hdata). exists []. split; [|done].
      pose proof (maxCommit_nonneg (c_hist c)). split_and!; [zlia|lia|]. exists 0. by left.
Qed.

(** Nothing happened on the path. *)
Lemma system_same c R Ld R' :
  system_ok c R Ld → (∀ i a', R' !! i = Some a' → ∃ a, R !! i = Some a ∧ same_replica a a') →
  system_ok c R' Ld.
Proof.
  intros [Hn Hr Hm] HR. split; [done| |done].
  intros i r a' Hi (a & Ha & (Hst & Hno & Hg & Hix & Hq))%HR.
  destruct (Hr i r a Hi Ha) as [G1 G2 G3 G4]. split; rewrite ?Hst, ?Hno, ?Hix, ?Hq; auto.
Qed.

(** Nothing moved, though more may be known. *)
Lemma system_later c R Ld Ld' : later c Ld c Ld' → system_ok c R Ld → system_ok c R Ld'.
Proof.
  intros Hl [Hn Hr Hm]. split.
  - intros i r Hi. eapply node_data_mono; eauto.
  - intros i r a Hi Ha. eapply replica_ok_mono; eauto.
  - intros to args Hin Hpos. eapply data_ok_mono; eauto.
Qed.

Lemma Propose_apply_view r cmd r' res : Propose r cmd = Ret (r', res) → apply_view r' = apply_view r.
Proof. by intros [[_ ->]|(_ & p & [n ->]%advanceCommitIndex_inv)]%Propose_view. Qed.

Lemma update_view c i r r' msgs :
  c_nodes c !! i = Some r → apply_view r' = apply_view r →
  apply_view <$> c_nodes (update c i r' msgs) = apply_view <$> c_nodes c.
Proof. intros Hi Hv. simpl. rewrite fmap_insert, Hv. apply insert_id. by rewrite lookup_fmap, Hi. Qed.

(** Everything that holds of a reachable system. *)
Record machines_ok (x : Machines) Ld : Prop := {
  mo_inv : inv members x.1;
  mo_logs : logs x.1 Ld;
  mo_safe : safe members x.1 Ld;
  mo_covers : covers x.1;
  mo_system : system_ok x.1 x.2 Ld
}.

(** The operations of the committed log. *)
Definition opsOf c : list Op := map le_Command (committedLog (c_hist c)).

Lemma machine_step_ok x x' Ld :
  machines_ok x Ld → machine_step x x' →
  ∃ Ld', machines_ok x' Ld' ∧ later x.1 Ld x'.1 Ld' ∧
    committedLog (c_hist x.1) `prefix_of` committedLog (c_hist x'.1).
Proof.
  intros [Hinv Hlg Hsf Hcv Hsy] Hstep.
  assert (inv members x'.1 ∧ ∃ Ld', later x.1 Ld x'.1 Ld' ∧
    logs x'.1 Ld' ∧ safe members x'.1 Ld' ∧ covers x'.1 ∧
    committedLog (c_hist x.1) `prefix_of` committedLog (c_hist x'.1))
    as (Hinv' & Ld' & Hl & Hlg' & Hsf' & Hcv' & Hp).
  { destruct (machine_cluster_step _ _ Hstep) as [->|Hc].
    - split; [done|]. exists Ld. split_and!; try done. split; [done|apply grows_refl].
    - destruct (log_step members Hnodup Hids _ _ Ld Hinv Hlg Hsf Hcv Hc)
        as (? & Ld' & ? & ? & ? & ? & ?).
      split; [done|]. exists Ld'. split_and!; try done. split; [by eapply step_hist|done]. }
  exists Ld'. split_and!; try done. split; try done.
  destruct Hstep as [c R c' R' Hc Hv HR|? ? Hs|i ? ? Hs]; simpl in *.
  - eapply system_same; [|done]. destruct Hc as [->|Hc]; [by eapply system_later|].
    by eapply system_raft.
  - destruct Hs as [c R i r args r' reply Hi Hm Hfresh H|c R i r a r' m Hi Ha Hnone H
      |c R i r a m Hi Ha H|c R i r a m q srv' Hi Ha Hq H]; simpl in *.
    + by eapply (system_install c R Ld).
    + by eapply (system_take c R Ld).
    + by eapply (system_deliver c R Ld).
    + by eapply (system_process c R Ld).
  - destruct Hs as [c R r p r' srv' Hi Hp' H Hnew]. simpl in *. by eapply (system_restart c R Ld).
Qed.

Lemma machine_steps_ok x x' Ld :
  machines_ok x Ld → rtc machine_step x x' →
  ∃ Ld', machines_ok x' Ld' ∧ committedLog (c_hist x.1) `prefix_of` committedLog (c_hist x'.1).
Proof.
  intros Hok Hrtc. revert Ld Hok.
  induction Hrtc as [x|x x1 x2 Hstep _ IH]; intros Ld Hok; [by exists Ld|].
  destruct (machine_step_ok x x1 Ld Hok Hstep) as (Ld1 & Hok1 & _ & ?).
  destruct (IH Ld1 Hok1) as (Ld2 & ? & ?). exists Ld2. split; [done|by etransitivity].
Qed.

Lemma machines_init_ok x : machines_init members x → machines_ok x ∅.
Proof.
  intros [H0 HR]. pose proof (logs_init _ _ H0). pose proof (safe_init members _ H0).
  pose proof (covers_init _ _ H0). assert (inv members x.1) by by apply inv_init.
  split; try done. destruct H0 as (_ & _ & Hnet & _ & Hnodes). split.
  - intros i r Hi. destruct (Hnodes i r Hi) as (_ & op & -> & _). split; simpl; [lia|done].
  - intros i r a Hi Ha. destruct (HR i a Ha) as (Hg & Hs & Hno & Hidx & Hq).
    destruct (Hnodes i r Hi) as (_ & op & -> & _). split.
    + done.
    + exists []. rewrite Hidx, Hs. split; [|done].
      pose proof (maxCommit_nonneg (c_hist x.1)). split_and!; [done|lia|]. exists 0. by left.
    + exists 0. rewrite Hidx, Hq. done.
    + by left.
  - intros to args. rewrite Hnet. by intros []%not_elem_of_nil.
Qed.

Lemma machines_reachable_ok x : machines_reachable members x → ∃ Ld, machines_ok x Ld.
Proof.
  intros (x0 & H0%machines_init_ok & Hrtc).
  destruct (machine_steps_ok _ _ _ H0 Hrtc) as (Ld & ? & _). by exists Ld.
Qed.

(** What a server's state is, of the log the cluster shows as committed. *)
Lemma replica_state x Ld i r a :
  machines_ok x Ld → c_nodes x.1 !! i = Some r → x.2 !! i = Some a →
  0 ≤ rp_index a ≤ zlen (opsOf x.1) ∧
  run_ops (upto (rp_index a) (opsOf x.1)) = Some (srv_state (rp_srv a)).
Proof.
  intros [_ _ Hsf Hcv Hsy] Hi Ha. unfold opsOf. rewrite zlen_map.
  destruct (sy_replica _ _ _ Hsy i r a Hi Ha) as [_ (K & (Hlen & Hmax & t & HK) & Hrun) _ _].
  assert (K `prefix_of` committedLog (c_hist x.1)) as Hp
    by (eapply committed_in_log; [done|done|done|lia]).
  pose proof (prefix_zlen _ _ Hp). pose proof (zlen_nonneg K). split; [lia|].
  assert (upto (rp_index a) (committedLog (c_hist x.1)) = K) as HKu
    by (rewrite (upto_of_prefix K) by (done || lia); by rewrite upto_all by lia).
  unfold upto in *. by rewrite firstn_map, HKu.
Qed.

Lemma opsOf_prefix c c' :
  committedLog (c_hist c) `prefix_of` committedLog (c_hist c') → opsOf c `prefix_of` opsOf c'.
Proof. apply map_prefix. Qed.
(** Of two servers, at the same or different moments, one is ahead of the
    other by a stretch of the committed operations. *)
Lemma replicas_comparable x x' Ld i j r r' a b :
  machines_ok x Ld → rtc machine_step x x' →
  c_nodes x.1 !! i = Some r → x.2 !! i = Some a →
  c_nodes x'.1 !! j = Some r' → x'.2 !! j = Some b →
  ∃ ops,
    (upto (rp_index b) (opsOf x'.1) = upto (rp_index a) (opsOf x.1) ++ ops ∧
     run_from (Some (srv_state (rp_srv a))) ops = Some (srv_state (rp_srv b))) ∨
    (upto (rp_index a) (opsOf x.1) = upto (rp_index b) (opsOf x'.1) ++ ops ∧
     run_from (Some (srv_state (rp_srv b))) ops = Some (srv_state (rp_srv a))).
Proof.
  intros Hok Hrtc Hi Ha Hj Hb.
  destruct (machine_steps_ok x x' Ld Hok Hrtc) as (Ld' & Hok' & Hp%opsOf_prefix).
  destruct (replica_state x Ld i r a Hok Hi Ha) as [Hba Hsa].
  destruct (replica_state x' Ld' j r' b Hok' Hj Hb) as [Hbb Hsb].
  rewrite <- (upto_of_prefix _ _ (rp_index a) Hp) in * by lia.
  destruct (Z.le_ge_cases (rp_index a) (rp_index b)) as [Hle|Hle];
    destruct (upto_prefix_le _ _ (opsOf x'.1) Hle) as [ops Hops]; exists ops; [left|right];
    (split; [done|]).
  - rewrite Hops in Hsb. unfold run_ops in *. by rewrite run_from_app, Hsa in Hsb.
  - rewrite Hops in Hsa. unfold run_ops in *. by rewrite run_from_app, Hsb in Hsa.
Qed.

(** Nothing on the path from the log to the servers panics, and a crashed
    node starts again, as long as the committed operations have a meaning. *)
Lemma never_panics `{!PersisterTotal P, !ServerTotal M SV} x Ld i r a :
  machines_ok x Ld → is_Some (run_ops (opsOf x.1)) →
  c_nodes x.1 !! i = Some r → x.2 !! i = Some a →
  returned (applyPending_next r) = true ∧
  (∀ m q, rp_queue a = m :: q → returned (srv_process (srv_with r (rp_srv a)) m) = true) ∧
  ∀ p, r_persister r = Some p →
    ∃ r' srv', newRaft i (r_peers r) (Some p) = Ret r' ∧ srv_boot r' srv'.
Proof.
  intros Hok Hops Hi Ha. destruct (replica_state x Ld i r a Hok Hi Ha) as [_ Hrun].
  destruct Hok as [Hinv _ Hsf Hcv Hsy].
  destruct (node_ghost members x.1 Ld i r Hsf Hi) as (G & _ & Hnk).
  pose proof (nk_pos _ _ _ _ _ Hnk) as Hpos.
  destruct (sy_replica _ _ _ Hsy i r a Hi Ha) as [Hgood _ (j & Hj & Hja & _) _].
  destruct (srv_with_same r (rp_srv a)) as (Ws & _ & Wg).
  split_and!; [by apply applyPending_returns| |].
  - intros m q Hq. rewrite Hq in Hj. pose proof (queue_ok_le _ _ _ _ _ Hj) as Hle.
    destruct Hj as [(K & e & (Hk & Hmax & t & HK) & -> & Hj)|(n & data & t & _ & -> & (K & st & _ & _ & Hd) & _)].
    + assert (upto (rp_index a + 1) (opsOf x.1) = upto (rp_index a) (opsOf x.1) ++ [le_Command e]) as Hup.
      { assert (map le_Command (K ++ [e]) `prefix_of` opsOf x.1) as Hpre
          by (apply map_prefix; eapply committed_in_log; [done|done|exact HK|lia]).
        rewrite zlen_app in Hk. change (zlen [e]) with 1 in Hk.
        pose proof (prefix_upto _ _ Hpre) as H1. rewrite zlen_map, zlen_app, map_app in H1.
        change (zlen [e]) with 1 in H1. rewrite Hk in H1. rewrite <- H1. simpl. f_equal.
        replace (rp_index a) with (zlen (map le_Command K)) by (rewrite zlen_map; lia).
        apply prefix_upto. etransitivity; [|exact Hpre]. rewrite map_app. by apply prefix_app_r. }
      destruct (upto_prefix (rp_index a + 1) (opsOf x.1)) as [rest Hrest].
      rewrite Hrest in Hops. apply run_ops_initial in Hops. rewrite Hup, run_ops_snoc, Hrun in Hops.
      destruct Hops as [st Hst]. simpl in Hst.
      apply (srv_command_returns _ _ _ _ st); [auto|by rewrite Ws|].
      intros data. rewrite srv_with_rf. apply Snapshot_returns; [done|].
      apply queue_ok_le in Hj. lia.
    + by eapply srv_restore_returns.
  - intros p Hp. destruct (inv_node _ _ Hinv _ _ Hi) as (_ & _ & _ & Hd & _).
    destruct (newRaft_recovers r p i (r_peers r) Hd Hp) as (r' & Hr' & _).
    destruct (newRaft_data r p i (r_peers r) r' Hd Hp Hr') as (_ & _ & _ & Hdata).
    destruct (srv_boot_returns r') as [s Hs]; [|by exists r', s].
    destruct (decide (0 < r_lastIncludedIndex r)) as [Hlt|]; [right|by left].
    destruct (sy_node _ _ _ Hsy i r Hi) as [H1 _].
    destruct (H1 Hlt) as (K & st & _ & _ & Hst). exists st. by rewrite Hdata.
Qed.

(** A server that applied the no-op of term [t] has passed every entry of an
    earlier term, now and later. *)
Lemma noop_passes x x' Ld i r a k e :
  machines_ok x Ld → rtc machine_step x x' →
  c_nodes x.1 !! i = Some r → x.2 !! i = Some a →
  entryOf (committedLog (c_hist x'.1)) k = Some e →
  le_Term e < srv_noop (rp_srv a) → k ≤ rp_index a.
Proof.
  intros Hok Hrtc Hi Ha He Hlt.
  destruct (machine_steps_ok x x' Ld Hok Hrtc) as (Ld' & [_ _ Hsf' Hcv' _] & Hp).
  destruct Hok as [_ _ Hsf Hcv Hsy].
  destruct (committedLog_committed members _ _ Hsf' Hcv') as [t HC].
  assert (1 ≤ k ≤ zlen (committedLog (c_hist x'.1))) as Hk
    by (apply entryOf_is_Some; by exists e).
  pose proof (termOf_entry _ _ _ He) as Ht.
  pose proof (committed_terms_ordered members _ _ _ _ k k Hsf' HC ltac:(lia) ltac:(lia) ltac:(lia)).
  destruct (ro_noop _ _ _ _ (sy_replica _ _ _ Hsy i r a Hi Ha))
    as [Hz|(n & K & e0 & (Hn & Hmax & t0 & HK) & He0 & Hle)]; [lia|].
  destruct (decide (k ≤ n)) as [?|Hgt]; [lia|exfalso].
  assert (K ++ [e0] `prefix_of` committedLog (c_hist x'.1)) as Hpre.
  { transitivity (committedLog (c_hist x.1)); [|done].
    eapply committed_in_log; [done|done|exact HK|lia]. }
  assert (termOf (committedLog (c_hist x'.1)) n = le_Term e0) as Htn.
  { rewrite <- (termOf_prefix (K ++ [e0])) by (done || lia).
    rewrite zlen_app in Hn. change (zlen [e0]) with 1 in Hn. rewrite <- Hn. apply termOf_app_last. }
  pose proof (zlen_nonneg K). rewrite zlen_app in Hn. change (zlen [e0]) with 1 in Hn.
  pose proof (committed_terms_ordered members _ _ _ _ n k Hsf' HC ltac:(lia) ltac:(lia) ltac:(lia)).
  lia.
Qed.

End agreement.

(** ** Executions by evaluation *)

#[local] Instance byte_eq_dec : EqDecision Byte.byte := Byte.byte_eq_dec.

#[export] Instance ApplyMsg_eq_dec `{EqDecision Cmd} : EqDecision (ApplyMsg Cmd).
Proof. solve_decision. Defined.

Section exec.
Context {Op P Srv St : Type} `{!EqDecision Op}.
Context `{!Persister P, !PersisterLaws P, !Codec (persistedState Op)}.
Context `{M : !Machine Op St, SV : !Server Op P Srv St, !ServerLaws M SV}.
Abbreviation Machines := (Machines (Op:=Op) (P:=P) (Srv:=Srv)).
Implicit Type x : Machines.

(** The apply goroutine hands over an entry; the server handles a message. *)
Inductive ApplyAct := ETake (i : Z) | EProcess (i : Z).

Definition perform_apply x (act : ApplyAct) : option Machines :=
  match act with
  | ETake i =>
      r ← c_nodes x.1 !! i; a ← x.2 !! i;
      match r_pendingSnapshot r, applyPending_next r with
      | None, Ret (r', Some m) => Some (update x.1 i r' [], <[i := push m a]> x.2)
      | _, _ => None
      end
  | EProcess i =>
      r ← c_nodes x.1 !! i; a ← x.2 !! i;
      match rp_queue a with
      | m :: q =>
          srv' ← to_option (srv_process (srv_with r (rp_srv a)) m);
          Some (update x.1 i (srv_rf srv') [], <[i := mkReplica srv' (positionOf m) q]> x.2)
      | [] => None
      end
  end.

Lemma perform_apply_sound x act x' : perform_apply x act = Some x' → apply_step x x'.
Proof.
  destruct x as [c R], act as [i|i]; simpl;
    intros (r & Hi & (a & Ha & H)%bind_Some)%bind_Some.
  - destruct (r_pendingSnapshot r) eqn:Hs; [done|].
    destruct (applyPending_next r) as [[r' [m|]]|] eqn:Hn; [|done..].
    injection H as <-. by eapply as_take.
  - destruct (rp_queue a) as [|m q] eqn:Hq; [done|].
    apply bind_Some in H as (srv' & Hp & [= <-]). unfold to_option in Hp.
    destruct (srv_process _ _) as [s|] eqn:Hs; [|done]. injection Hp as ->.
    by eapply as_process.
Qed.

(** A cluster step that leaves the servers' view of their nodes alone. *)
Definition perform_outside (c : Cluster) (act : Action (Cmd:=Op)) : option Cluster :=
  c' ← perform in_order c act;
  if decide (apply_view <$> c_nodes c' = apply_view <$> c_nodes c) then Some c' else None.

Definition perform_machine x (act : Action (Cmd:=Op) + ApplyAct) : option Machines :=
  match act with
  | inl act => c' ← perform_outside x.1 act; Some (c', x.2)
  | inr act => perform_apply x act
  end.

Definition perform_machines x (acts : list (Action (Cmd:=Op) + ApplyAct)) : option Machines :=
  foldl (λ o act, x ← o; perform_machine x act) (Some x) acts.

Lemma perform_machine_sound x act x' : perform_machine x act = Some x' → machine_step x x'.
Proof.
  destruct act as [act|act]; simpl.
  - unfold perform_outside. intros (c' & (c1 & H1 & H)%bind_Some & [= <-])%bind_Some.
    destruct (decide _) as [Hv|]; [|done]. injection H as <-. destruct x as [c R].
    apply ms_outside; [right; by eapply perform_sound|done|]. intros j b Hb. by exists b.
  - intros H%perform_apply_sound. by apply ms_apply.
Qed.

Lemma perform_machines_sound acts x x' :
  perform_machines x acts = Some x' → rtc machine_step x x'.
Proof.
  unfold perform_machines. revert x. induction acts as [|act acts IH]; intros x; simpl; [by intros [= ->]|].
  destruct (perform_machine x act) as [x1|] eqn:H1; simpl.
  - intros H. eapply rtc_l; [by eapply perform_machine_sound|by apply IH].
  - intros H. exfalso. clear -H. induction acts; simpl in H; [done|auto].
Qed.

(** First-ever boots of all members, on memory. *)
Definition fresh_node (members : list Z) (i : Z) : Raft Op P := freshRaft i (peers_of members i) None.

Definition fresh_machines (members : list Z) (boot : Raft Op P → Srv) : Machines :=
  (mkCluster (list_to_map (map (λ i, (i, fresh_node members i)) members)) [] [] [] [],
   list_to_map (map (λ i, (i, mkReplica (boot (fresh_node members i)) 0 [])) members)).

Lemma fresh_machines_replica members boot i a :
  (fresh_machines members boot).2 !! i = Some a →
  ∃ r, rp_srv a = boot r ∧ rp_index a = 0 ∧ rp_queue a = [].
Proof.
  intros (j & [= -> ->] & _)%elem_of_list_to_map_2%list_elem_of_fmap. by eexists.
Qed.

Lemma fresh_machines_init members boot :
  (∀ r, srv_good (boot r) ∧ srv_state (boot r) = m_init ∧ srv_noop (boot r) = 0) →
  machines_init members (fresh_machines members boot).
Proof.
  intros Hboot. split; [split_and!; [done..|]|].
  - intros i r Hi. simpl in Hi.
    apply elem_of_list_to_map_2, list_elem_of_fmap in Hi as (j & [= -> ->] & Hj).
    split; [done|]. by exists None.
  - intros i a (r & -> & -> & ->)%fresh_machines_replica.
    destruct (Hboot r) as (? & ? & ?). by split_and!.
Qed.
End exec.
