(* ===== verification/Dedup.v ===== *)
(** * Duplicate detection

    The contract the replicated servers' duplicate tables implement: the
    accepted operations of a log are the first occurrences of each client's
    requests, defined without any table; and the table as a refinement of it. *)
From S2P Require Import Prelude.
Local Open Scope Z_scope.

(** Operations that carry a client id and a sequence number. *)
Class Request (Op : Type) := request : Op → Z * Z.

Section dedup.
Context {Op : Type} `{!Request Op}.
Implicit Types (ops seen log : list Op) (op : Op).

Definition clientOf op : Z := (request op).1.
Definition seqNum op : Z := (request op).2.

(** The highest SeqNum a client has used in a list of operations (0: none). *)
Definition maxSeq (client : Z) ops : Z :=
  foldr (λ o m, if decide (clientOf o = client) then Z.max (seqNum o) m else m) 0 ops.

(** The operations of a log whose SeqNum is above every earlier one of the
    same client: the first occurrence of each new request. *)
Fixpoint accepted seen log : list Op :=
  match log with
  | [] => []
  | op :: log =>
      if maxSeq (clientOf op) seen <? seqNum op
      then op :: accepted (op :: seen) log
      else accepted (op :: seen) log
  end.

Lemma maxSeq_nonneg c ops : 0 ≤ maxSeq c ops.
Proof. induction ops as [|o ops IH]; simpl; [done|]. destruct (decide _); lia. Qed.

Lemma maxSeq_in op ops : op ∈ ops → seqNum op ≤ maxSeq (clientOf op) ops.
Proof.
  induction ops as [|o ops IH]; [by intros ?%not_elem_of_nil|].
  intros [->|Hin]%elem_of_cons; simpl; [rewrite decide_True by done; lia|].
  apply IH in Hin. destruct (decide _); lia.
Qed.

Lemma accepted_above seen log op :
  op ∈ accepted seen log → op ∈ log ∧ maxSeq (clientOf op) seen < seqNum op.
Proof.
  revert seen. induction log as [|o log IH]; intros seen; simpl; [by intros ?%not_elem_of_nil|].
  assert (op ∈ accepted (o :: seen) log →
    op ∈ o :: log ∧ maxSeq (clientOf op) seen < seqNum op) as Hrest.
  { intros [Hin Hlt]%IH. split; [by right|]. revert Hlt. simpl. destruct (decide _); lia. }
  destruct (Z.ltb_spec (maxSeq (clientOf o) seen) (seqNum o)); [|done].
  intros [->|Hin]%elem_of_cons; [split; [by left|done]|auto].
Qed.

(** No request is accepted twice. *)
Lemma accepted_NoDup seen log : NoDup (map request (accepted seen log)).
Proof.
  revert seen. induction log as [|o log IH]; intros seen; simpl; [constructor|].
  destruct (Z.ltb_spec (maxSeq (clientOf o) seen) (seqNum o)); [|by apply IH].
  simpl. apply NoDup_cons. split; [|by apply IH].
  intros (p & Heq & Hin)%list_elem_of_fmap.
  apply accepted_above in Hin as [_ Hlt]. unfold clientOf, seqNum in *. rewrite <- Heq in Hlt.
  simpl in Hlt. unfold clientOf, seqNum in Hlt. rewrite decide_True in Hlt by done. lia.
Qed.

Lemma maxSeq_app c ops1 ops2 : maxSeq c (ops1 ++ ops2) = Z.max (maxSeq c ops1) (maxSeq c ops2).
Proof.
  induction ops1 as [|o ops1 IH]; simpl; [pose proof (maxSeq_nonneg c ops2); lia|].
  rewrite IH. destruct (decide _); lia.
Qed.

(** A request is accepted as soon as it is in the log with a SeqNum no earlier
    entry of the client reaches. *)
Lemma accepted_first seen log1 op log2 :
  maxSeq (clientOf op) (log1 ++ seen) < seqNum op →
  op ∈ accepted seen (log1 ++ op :: log2).
Proof.
  revert seen. induction log1 as [|o log1 IH]; intros seen Hlt; cbn [accepted app] in *.
  - rewrite (proj2 (Z.ltb_lt _ _) Hlt). by left.
  - assert (op ∈ accepted (o :: seen) (log1 ++ op :: log2)) as Hin.
    { apply IH. rewrite maxSeq_app in *. simpl in *. rewrite maxSeq_app in Hlt.
      destruct (decide (clientOf o = clientOf op)); lia. }
    destruct (_ <? seqNum o); [by right|done].
Qed.

(** ** The table *)

Definition seqOf (dup : gmap Z Z) (client : Z) : Z := default 0 (dup !! client).

(** The table records exactly what has been seen. *)
Definition tracks (dup : gmap Z Z) seen : Prop := ∀ c, seqOf dup c = maxSeq c seen.

Lemma tracks_nil : tracks ∅ [].
Proof. intros c. unfold seqOf. by rewrite lookup_empty. Qed.

Lemma tracks_accept dup seen op :
  tracks dup seen → seqOf dup (clientOf op) < seqNum op →
  tracks (<[clientOf op := seqNum op]> dup) (op :: seen).
Proof.
  intros Hd Hlt c. unfold seqOf in *. simpl. rewrite <- Hd. unfold seqOf.
  destruct (decide (clientOf op = c)) as [<-|Hne].
  - rewrite lookup_insert_eq. simpl. lia.
  - by rewrite lookup_insert_ne.
Qed.

Lemma tracks_skip dup seen op :
  tracks dup seen → seqNum op ≤ seqOf dup (clientOf op) → tracks dup (op :: seen).
Proof.
  intros Hd Hle c. rewrite Hd in *. simpl. destruct (decide (clientOf op = c)) as [<-|]; lia.
Qed.
End dedup.
