(* ===== verification/Waiters.v ===== *)
(** * Waiting for an applied index

    The protocol between the handlers of the replicated servers, each waiting
    on a channel for the index it proposed at, and the apply loop that sends
    what it applied: the operations on the shared map and channels, and
    what a received result proves. *)
From S2P Require Import Prelude.
Local Open Scope Z_scope.

(** The channels are heap objects: [wt_notifyChans] maps a log index to a
    channel's name, [wt_chans] a channel's name to its one-slot buffer. *)
Record Waiters (Res : Type) := mkWaiters {
  wt_notifyChans : gmap Z Z;
  wt_chans : gmap Z (option Res)
}.
Arguments mkWaiters {Res} _ _.
Arguments wt_notifyChans {Res} _.
Arguments wt_chans {Res} _.

(** A handler that proposed and now waits. *)
Record Waiting (Op : Type) := mkWaiting {
  w_op : Op;
  w_index : Z;
  w_term : Z;
  w_ch : Z
}.
Arguments mkWaiting {Op} _ _ _ _.
Arguments w_op {Op} _.
Arguments w_index {Op} _.
Arguments w_term {Op} _.
Arguments w_ch {Op} _.

Section waiters.
Context {Op Res : Type}.
Abbreviation Waiters := (Waiters Res).
Abbreviation Waiting := (Waiting Op).
Implicit Types (wt : Waiters) (w : Waiting) (res : Res).

Definition noWaiters : Waiters := mkWaiters ∅ ∅.

(** The apply loop: take the index's channel out of the map and send. *)
Definition notify wt (index : Z) res : Waiters :=
  match wt_notifyChans wt !! index with
  | Some ch => mkWaiters (delete index (wt_notifyChans wt)) (<[ch := Some res]> (wt_chans wt))
  | None => wt
  end.

(** A handler registers a fresh channel for its index. *)
Definition register wt w : Waiters :=
  mkWaiters (<[w_index w := w_ch w]> (wt_notifyChans wt)) (<[w_ch w := None]> (wt_chans wt)).

(** The handler's deferred cleanup. *)
Definition unregister wt w : Waiters :=
  mkWaiters (delete (w_index w) (wt_notifyChans wt)) (wt_chans wt).

(** What a handler finds on its channel. *)
Definition received wt w : option Res :=
  match wt_chans wt !! w_ch w with
  | Some (Some res) => Some res
  | _ => None
  end.

(** Which case of the handler's select fires. *)
Inductive SelectCase := SelNotified | SelDeadline | SelLeaderCheck.

(** ** Every interleaving of handlers and the apply loop *)

Record WaitSys := mkWaitSys {
  ws_waiters : Waiters;
  ws_calls : list Waiting;
  ws_applied : list (Z * Res);
  ws_next : Z
}.

Inductive wait_step : WaitSys → WaitSys → Prop :=
| ws_notify wt W h n index res :
    wait_step (mkWaitSys wt W h n) (mkWaitSys (notify wt index res) W ((index, res) :: h) n)
| ws_start wt W h n w :
    w_ch w = n → wait_step (mkWaitSys wt W h n) (mkWaitSys wt (w :: W) h (n + 1))
| ws_register wt W h n w :
    w ∈ W → wt_chans wt !! w_ch w = None →
    wait_step (mkWaitSys wt W h n) (mkWaitSys (register wt w) W h n)
| ws_return wt W h n w :
    w ∈ W → wait_step (mkWaitSys wt W h n) (mkWaitSys (unregister wt w) W h n).

Record waits_ok (s : WaitSys) : Prop := {
  wo_registered i ch : wt_notifyChans (ws_waiters s) !! i = Some ch →
    wt_chans (ws_waiters s) !! ch = Some None ∧
    ∃ w, w ∈ ws_calls s ∧ w_ch w = ch ∧ w_index w = i;
  wo_sent ch res : wt_chans (ws_waiters s) !! ch = Some (Some res) →
    ∃ w, w ∈ ws_calls s ∧ w_ch w = ch ∧ (w_index w, res) ∈ ws_applied s;
  wo_fresh w : w ∈ ws_calls s → w_ch w < ws_next s;
  wo_unique w1 w2 : w1 ∈ ws_calls s → w2 ∈ ws_calls s → w_ch w1 = w_ch w2 → w1 = w2
}.

Lemma waits_ok_init : waits_ok (mkWaitSys noWaiters [] [] 0).
Proof.
  split; simpl.
  - intros i ch Hi. by rewrite lookup_empty in Hi.
  - intros ch res Hc. by rewrite lookup_empty in Hc.
  - by intros w ?%not_elem_of_nil.
  - by intros w1 w2 ?%not_elem_of_nil.
Qed.

Lemma notify_ok wt W h n i res :
  waits_ok (mkWaitSys wt W h n) → waits_ok (mkWaitSys (notify wt i res) W ((i, res) :: h) n).
Proof.
  intros [Hreg Hsent Hfresh Huniq]. unfold notify.
  destruct (wt_notifyChans wt !! i) as [ch|] eqn:Hi; simpl in *.
  - destruct (Hreg i ch Hi) as (_ & w & Hw & Hch & Hwi).
    split; simpl; [| |done|done].
    + intros j ch' [Hne Hj]%lookup_delete_Some.
      destruct (Hreg j ch' Hj) as (Hnone & w' & Hw' & Hch' & Hwj).
      rewrite lookup_insert_ne; [by eauto|]. intros <-. apply Hne.
      by rewrite <- Hwi, <- Hwj, (Huniq w w') by congruence.
    + intros ch' res' [[-> [= <-]]|[Hne Hc]]%lookup_insert_Some.
      * exists w. split_and!; [done|done|]. rewrite Hwi. by left.
      * destruct (Hsent _ _ Hc) as (w' & ? & ? & ?). exists w'. split_and!; [done|done|by right].
  - split; simpl; [done| |done|done].
    intros ch res' Hc. destruct (Hsent _ _ Hc) as (w' & ? & ? & ?). exists w'.
    split_and!; [done|done|by right].
Qed.

Lemma start_ok wt W h n w :
  w_ch w = n → waits_ok (mkWaitSys wt W h n) → waits_ok (mkWaitSys wt (w :: W) h (n + 1)).
Proof.
  intros Hn [Hreg Hsent Hfresh Huniq]. split; simpl in *.
  - intros i ch Hi. destruct (Hreg i ch Hi) as (Hc & w' & ? & ? & ?).
    split; [done|]. exists w'. split_and!; [by right|done|done].
  - intros ch res Hc. destruct (Hsent ch res Hc) as (w' & ? & ? & ?).
    exists w'. split_and!; [by right|done|done].
  - intros w' [->|Hw]%elem_of_cons; [lia|]. apply Hfresh in Hw. lia.
  - intros w1 w2 [->|H1]%elem_of_cons [->|H2]%elem_of_cons Heq; [done|..|by apply Huniq];
      [apply Hfresh in H2|apply Hfresh in H1]; lia.
Qed.

Lemma register_ok wt W h n w :
  w ∈ W → wt_chans wt !! w_ch w = None →
  waits_ok (mkWaitSys wt W h n) → waits_ok (mkWaitSys (register wt w) W h n).
Proof.
  intros Hw Hnone [Hreg Hsent Hfresh Huniq]. split; simpl in *; [| |done|done].
  - intros i ch [[<- <-]|[Hne Hi]]%lookup_insert_Some.
    + rewrite lookup_insert_eq. eauto.
    + destruct (Hreg i ch Hi) as (Hc & Hex). split; [|done].
      rewrite lookup_insert_ne; [done|]. intros Heq. congruence.
  - intros ch res [[_ ?]|[_ Hc]]%lookup_insert_Some; [done|]. by apply Hsent.
Qed.

Lemma wait_step_ok s s' : waits_ok s → wait_step s s' → waits_ok s'.
Proof.
  intros Hok H. destruct H; [by apply notify_ok|by apply start_ok|by apply register_ok|].
  destruct Hok as [Hreg Hsent Hfresh Huniq]. split; simpl in *; try done.
  intros i ch [_ Hi]%lookup_delete_Some. by apply Hreg.
Qed.

Lemma wait_steps_ok s s' : waits_ok s → rtc wait_step s s' → waits_ok s'.
Proof. intros Hok Hrtc. induction Hrtc; eauto using wait_step_ok. Qed.

(** What a handler receives was applied at its own index. *)
Lemma received_applied s w res :
  waits_ok s → w ∈ ws_calls s → received (ws_waiters s) w = Some res →
  (w_index w, res) ∈ ws_applied s.
Proof.
  intros [_ Hsent _ Huniq] Hw Hr. unfold received in Hr.
  destruct (wt_chans (ws_waiters s) !! w_ch w) as [[res'|]|] eqn:Hc; simplify_eq/=.
  destruct (Hsent _ _ Hc) as (w' & Hw' & Hch & Hin).
  by rewrite (Huniq w' w Hw' Hw Hch) in Hin.
Qed.
End waiters.
