(* ===== verification/KVServer.v ===== *)
(** * The replicated key-value server (02-kv-store)

    The state machine a KVServer runs over its Raft node's committed log, the
    Get and PutAppend handlers split at the points where they release a lock,
    and the no-op proposer. *)
From S2P Require Import Prelude Persister Dedup Waiters RaftNode.
Local Open Scope Z_scope.

(** ** Data: rpc.go, op.go, server.go *)

Inductive Err := OK | ErrNoKey | ErrWrongLeader | ErrTimeout.

#[export] Instance Err_eq_dec : EqDecision Err.
Proof. solve_decision. Defined.

Record GetReply := mkGetReply { gr_Err : Err; gr_Value : string }.

Record PutAppendArgs := mkPutAppendArgs {
  pa_Key : string;
  pa_Value : string;
  pa_Op : string;
  pa_ClientID : Z;
  pa_SeqNum : Z
}.

Record Op := mkOp {
  op_Type : string;
  op_Key : string;
  op_Value : string;
  op_ClientID : Z;
  op_SeqNum : Z
}.

#[export] Instance Op_eq_dec : EqDecision Op.
Proof. solve_decision. Defined.

#[export] Instance Op_countable : Countable Op.
Proof.
  apply (inj_countable'
    (λ o, (op_Type o, op_Key o, op_Value o, op_ClientID o, op_SeqNum o))
    (λ '(t, k, v, c, s), mkOp t k v c s)).
  by intros [].
Defined.

Record kvSnapshot := mkKvSnapshot {
  snap_Store : gmap string string;
  snap_DuplicateTable : gmap Z Z
}.

#[export] Instance kvSnapshot_eq_dec : EqDecision kvSnapshot.
Proof. solve_decision. Defined.

#[export] Instance kvSnapshot_countable : Countable kvSnapshot.
Proof.
  apply (inj_countable' (λ s, (snap_Store s, snap_DuplicateTable s))
    (λ x, mkKvSnapshot x.1 x.2)).
  by intros [].
Defined.

#[export] Instance Op_request : Request Op := λ op, (op_ClientID op, op_SeqNum op).

(** [kv_waiters] is the field notifyChans with the channels it refers to. *)
Record KVServer (P : Type) := mkKVServer {
  kv_rf : Raft Op P;
  kv_store : gmap string string;
  kv_waiters : Waiters Op;
  kv_duplicateTable : gmap Z Z;
  kv_maxRaftState : Z;
  kv_noopAppliedTerm : Z
}.
Arguments mkKVServer {P} _ _ _ _ _ _.
Arguments kv_rf {P} _.
Arguments kv_store {P} _.
Arguments kv_waiters {P} _.
Arguments kv_duplicateTable {P} _.
Arguments kv_maxRaftState {P} _.
Arguments kv_noopAppliedTerm {P} _.

Section kvserver.
Context {P : Type} `{!Persister P, !Codec (persistedState Op), !Codec kvSnapshot}.
Abbreviation KVServer := (KVServer P).
Implicit Type kv : KVServer.

(** Field assignments [kv.f = v]. *)
Definition set_rf v kv : KVServer :=
  mkKVServer v (kv_store kv) (kv_waiters kv)
    (kv_duplicateTable kv) (kv_maxRaftState kv) (kv_noopAppliedTerm kv).
Definition set_store v kv : KVServer :=
  mkKVServer (kv_rf kv) v (kv_waiters kv)
    (kv_duplicateTable kv) (kv_maxRaftState kv) (kv_noopAppliedTerm kv).
Definition set_waiters v kv : KVServer :=
  mkKVServer (kv_rf kv) (kv_store kv) v
    (kv_duplicateTable kv) (kv_maxRaftState kv) (kv_noopAppliedTerm kv).
Definition set_duplicateTable v kv : KVServer :=
  mkKVServer (kv_rf kv) (kv_store kv) (kv_waiters kv)
    v (kv_maxRaftState kv) (kv_noopAppliedTerm kv).
Definition set_noopAppliedTerm v kv : KVServer :=
  mkKVServer (kv_rf kv) (kv_store kv) (kv_waiters kv)
    (kv_duplicateTable kv) (kv_maxRaftState kv) v.

(** ** Snapshots *)

Definition restoreSnapshot kv (data : bytes) : outcome KVServer :=
  snap ← or_panic (gob_decode data);
  Ret (set_duplicateTable (snap_DuplicateTable snap)
        (set_store (snap_Store snap) kv)).

Definition snapshotLocked kv (index : Z) : outcome KVServer :=
  let data := gob_encode (mkKvSnapshot (kv_store kv) (kv_duplicateTable kv)) in
  '(rf, err) ← Snapshot (kv_rf kv) index data;
  match err with
  | None => Ret (set_rf rf kv)
  | Some _ => Panic
  end.

Definition NewKVServer (rf : Raft Op P) (maxRaftState : Z) : outcome KVServer :=
  let kv := mkKVServer rf ∅ noWaiters ∅ maxRaftState 0 in
  match ReadSnapshotData rf with
  | [] => Ret kv
  | data => restoreSnapshot kv data
  end.

(** ** The state machine: applyLoop *)

(** The [switch op.Type] of applyLoop; [None] is its default branch. *)
Definition op_effect (op : Op) (store : gmap string string) :
    option (gmap string string) :=
  if decide (op_Type op = "Put"%string) then
    Some (<[op_Key op := op_Value op]> store)
  else if decide (op_Type op = "Append"%string) then
    Some (<[op_Key op := default "" (store !! op_Key op) +:+ op_Value op]> store)
  else if decide (op_Type op = "Noop"%string) then Some store
  else None.

(** The part of an iteration that applies the command. *)
Definition applyOp kv (op : Op) (term : Z) : outcome KVServer :=
  let kv := if decide (op_Type op = "Noop"%string)
            then set_noopAppliedTerm term kv else kv in
  if seqOf (kv_duplicateTable kv) (op_ClientID op) <? op_SeqNum op
  then
    store ← or_panic (op_effect op (kv_store kv));
    Ret (set_duplicateTable (<[op_ClientID op := op_SeqNum op]> (kv_duplicateTable kv))
          (set_store store kv))
  else Ret kv.

(** Hand the op to the waiter of its index, if there is one. *)
Definition notifyWaiter kv (index : Z) (op : Op) : KVServer :=
  set_waiters (notify (kv_waiters kv) index op) kv.

Definition maybeSnapshot kv (index : Z) : outcome KVServer :=
  if negb (kv_maxRaftState kv =? -1) && (kv_maxRaftState kv <=? RaftStateSize (kv_rf kv))
  then snapshotLocked kv index
  else Ret kv.

(** One iteration of applyLoop with the message it received. *)
Definition applyLoop_msg kv (msg : ApplyMsg Op) : outcome KVServer :=
  if am_SnapshotValid msg then restoreSnapshot kv (am_Snapshot msg)
  else
    op ← or_panic (am_Command msg);
    kv ← applyOp kv op (am_Term msg);
    maybeSnapshot (notifyWaiter kv (am_Index msg) op) (am_Index msg).

Fixpoint applyLoop kv (msgs : list (ApplyMsg Op)) : outcome KVServer :=
  match msgs with
  | [] => Ret kv
  | msg :: msgs => kv ← applyLoop_msg kv msg; applyLoop kv msgs
  end.

(** ** noopLoop: one tick *)

(** The three critical sections (State, Term, Propose) see the server as it
    is at that moment: [kv1], [kv2], [kv3]. *)
Definition noopLoop_tick (kv1 kv2 kv3 : KVServer) (lastNoopTerm : Z) :
    outcome (KVServer * Z) :=
  match r_state (kv_rf kv1) with
  | Leader =>
      let term := r_currentTerm (kv_rf kv2) in
      if term =? lastNoopTerm then Ret (kv3, lastNoopTerm)
      else
        '(rf, (_, _, isLeader)) ← Propose (kv_rf kv3) (mkOp "Noop" "" "" 0 0);
        Ret (set_rf rf kv3, if isLeader : bool then term else lastNoopTerm)
  | _ => Ret (kv3, lastNoopTerm)
  end.

(** ** Get *)

Definition get kv (key : string) : option string := kv_store kv !! key.

(** Its four critical sections in order: State, Term, noopAppliedTerm, get. *)
Definition Get (kv1 kv2 kv3 kv4 : KVServer) (key : string) : GetReply :=
  match r_state (kv_rf kv1) with
  | Leader =>
      let term := r_currentTerm (kv_rf kv2) in
      let ready := kv_noopAppliedTerm kv3 =? term in
      if negb ready then mkGetReply ErrWrongLeader ""
      else
        match get kv4 key with
        | None => mkGetReply ErrNoKey ""
        | Some value => mkGetReply OK value
        end
  | _ => mkGetReply ErrWrongLeader ""
  end.

(** ** PutAppend *)

Definition opOf (args : PutAppendArgs) : Op :=
  mkOp (pa_Op args) (pa_Key args) (pa_Value args) (pa_ClientID args) (pa_SeqNum args).

Definition PutAppend_propose kv (args : PutAppendArgs) (ch : Z) :
    outcome (KVServer * (Waiting Op + Err)) :=
  '(rf, (index, term, isLeader)) ← Propose (kv_rf kv) (opOf args);
  Ret (set_rf rf kv,
       if isLeader : bool then inl (mkWaiting (opOf args) index term ch)
       else inr ErrWrongLeader).

Definition PutAppend_register kv (w : Waiting Op) : KVServer :=
  set_waiters (register (kv_waiters kv) w) kv.

(** [None]: the case cannot fire, or the loop goes on. *)
Definition PutAppend_select kv (w : Waiting Op) (c : SelectCase) : option Err :=
  match c with
  | SelNotified =>
      applied ← received (kv_waiters kv) w;
      if decide (applied = w_op w) then Some OK else Some ErrWrongLeader
  | SelDeadline => Some ErrTimeout
  | SelLeaderCheck =>
      if negb (r_currentTerm (kv_rf kv) =? w_term w) ||
         negb (bool_decide (r_state (kv_rf kv) = Leader))
      then Some ErrWrongLeader else None
  end.

Definition PutAppend_return kv (w : Waiting Op) : KVServer :=
  set_waiters (unregister (kv_waiters kv) w) kv.
End kvserver.
