(* ===== verification/KVServerFacts.v ===== *)
(** * What the replicated key-value server guarantees

    At-most-once application against a specification that never mentions the
    duplicate table, recovery from a snapshot, when a replica panics, and what
    an OK answer of PutAppend means. *)
From S2P Require Import Prelude Persister Dedup Waiters RaftNode RaftDemo RaftFacts RaftDurable RaftVotes RaftLog KVServer.
Local Open Scope Z_scope.

(** Run operations on a store with no duplicate table at all. *)
Definition replay (store : gmap string string) (ops : list Op) : gmap string string :=
  foldl (λ s op, default s (op_effect op s)) store ops.

Section facts.
Context {P : Type} `{!Persister P, !Codec (persistedState Op), !Codec kvSnapshot}.
Abbreviation KVServer := (KVServer P).
Implicit Type kv : KVServer.

(** ** Replicas that agree *)

(** Two servers hold the same replicated state. *)
Definition same_state kv1 kv2 : Prop :=
  kv_store kv1 = kv_store kv2 ∧ kv_duplicateTable kv1 = kv_duplicateTable kv2.

#[global] Instance same_state_equiv : Equivalence same_state.
Proof.
  unfold same_state. split; [done|..].
  - by intros kv1 kv2 [-> ->].
  - by intros kv1 kv2 kv3 [-> ->] [-> ->].
Qed.

Lemma notifyWaiter_state kv i op : same_state (notifyWaiter kv i op) kv.
Proof. done. Qed.

Lemma snapshotLocked_state kv i kv' : snapshotLocked kv i = Ret kv' → same_state kv' kv.
Proof. unfold snapshotLocked. intros H. handler; done. Qed.

Lemma maybeSnapshot_state kv i kv' : maybeSnapshot kv i = Ret kv' → same_state kv' kv.
Proof.
  unfold maybeSnapshot. intros H. destruct (_ && _); [by eapply snapshotLocked_state|].
  by injection H as <-.
Qed.

(** What applying one operation does to the replicated state. *)
Lemma applyOp_state kv op t kv' :
  applyOp kv op t = Ret kv' →
  if seqOf (kv_duplicateTable kv) (op_ClientID op) <? op_SeqNum op
  then op_effect op (kv_store kv) = Some (kv_store kv') ∧
       kv_duplicateTable kv' = <[op_ClientID op := op_SeqNum op]> (kv_duplicateTable kv)
  else same_state kv' kv.
Proof.
  unfold applyOp. set (kv1 := if decide (op_Type op = "Noop"%string) then _ else kv).
  assert (kv_store kv1 = kv_store kv ∧ kv_duplicateTable kv1 = kv_duplicateTable kv) as [H1 H2]
    by (unfold kv1; by destruct (decide _)).
  rewrite H1, H2. destruct (_ <? _).
  - intros (s & Hs%or_panic_Ret & [= <-])%bind_Ret_inv. done.
  - by intros [= <-].
Qed.

Lemma applyOp_agree kv1 kv2 op t1 t2 kv1' kv2' :
  same_state kv1 kv2 → applyOp kv1 op t1 = Ret kv1' → applyOp kv2 op t2 = Ret kv2' →
  same_state kv1' kv2'.
Proof.
  intros [Hs Hd] H1%applyOp_state H2%applyOp_state. rewrite <- Hd, <- Hs in H2.
  destruct (_ <? _).
  - destruct H1 as [H1 D1], H2 as [H2 D2]. split; congruence.
  - transitivity kv1; [done|]. transitivity kv2; [by split|done].
Qed.

(** Applying the same messages keeps agreeing replicas in agreement, wherever
    each of them decides to compact its own log. *)
Lemma applyLoop_agree msgs kv1 kv2 kv1' kv2' :
  same_state kv1 kv2 → applyLoop kv1 msgs = Ret kv1' → applyLoop kv2 msgs = Ret kv2' →
  same_state kv1' kv2'.
Proof.
  revert kv1 kv2. induction msgs as [|m msgs IH]; intros kv1 kv2 Hs; simpl.
  { by intros [= <-] [= <-]. }
  intros (a1 & Ha1 & H1)%bind_Ret_inv (a2 & Ha2 & H2)%bind_Ret_inv.
  refine (IH a1 a2 _ H1 H2). revert Ha1 Ha2. unfold applyLoop_msg, restoreSnapshot.
  destruct (am_SnapshotValid m).
  - intros (s1 & E1 & [= <-])%bind_Ret_inv (s2 & E2 & [= <-])%bind_Ret_inv.
    rewrite E1 in E2. by injection E2 as <-.
  - intros (op & E1 & (b1 & Hb1 & Hm1)%bind_Ret_inv)%bind_Ret_inv
      (op2 & E2 & (b2 & Hb2 & Hm2)%bind_Ret_inv)%bind_Ret_inv.
    rewrite E1 in E2. injection E2 as <-.
    apply maybeSnapshot_state in Hm1, Hm2. rewrite Hm1, Hm2, !notifyWaiter_state.
    exact (applyOp_agree _ _ _ _ _ _ _ Hs Hb1 Hb2).
Qed.

(** ** At-most-once *)

(** The message of one committed entry. *)
Definition entryMsg (e : Z * Z * Op) : ApplyMsg Op :=
  let '(index, term, op) := e in commandMsg index term op.

Lemma applyLoop_log log kv seen kv' :
  tracks (kv_duplicateTable kv) seen →
  applyLoop kv (map entryMsg log) = Ret kv' →
  kv_store kv' = replay (kv_store kv) (accepted seen (map snd log)).
Proof.
  revert kv seen. induction log as [|[[i t] op] log IH]; intros kv seen Hd; simpl.
  { by intros [= <-]. }
  intros (a & Ha & H)%bind_Ret_inv. unfold applyLoop_msg in Ha. simpl in Ha.
  apply bind_Ret_inv in Ha as (b & Hb & [Hs2 Hd2]%maybeSnapshot_state).
  simpl in Hs2, Hd2. apply applyOp_state in Hb.
  change (op_ClientID op) with (clientOf op) in Hb.
  change (op_SeqNum op) with (seqNum op) in Hb. rewrite <- (Hd (clientOf op)).
  destruct (Z.ltb_spec (seqOf (kv_duplicateTable kv) (clientOf op)) (seqNum op)) as [Hlt|Hge].
  - destruct Hb as [He Hd1]. rewrite (IH a (op :: seen)); [|by rewrite Hd2, Hd1; apply tracks_accept|done].
    rewrite Hs2. simpl. by rewrite He.
  - destruct Hb as [Hs1 Hd1]. rewrite (IH a (op :: seen)); [|by rewrite Hd2, Hd1; apply tracks_skip|done].
    by rewrite Hs2, Hs1.
Qed.

(** At most once. Applying a log of committed entries to a server with
    an empty duplicate table gives the store that running only the accepted
    operations gives without any duplicate table; no (ClientID, SeqNum) is
    accepted twice, however often it was retried into the log; and an
    operation whose SeqNum is above every earlier one of its client is
    accepted. Compaction on the way changes nothing. *)
Theorem apply_at_most_once log kv kv' :
  kv_duplicateTable kv = ∅ → applyLoop kv (map entryMsg log) = Ret kv' →
  kv_store kv' = replay (kv_store kv) (accepted [] (map snd log)) ∧
  NoDup (map request (accepted [] (map snd log))) ∧
  (∀ l1 op l2, map snd log = l1 ++ op :: l2 →
    maxSeq (clientOf op) l1 < seqNum op → op ∈ accepted [] (map snd log)).
Proof.
  intros Hd H. split; [|split; [apply accepted_NoDup|]].
  - apply (applyLoop_log _ _ []) in H; [done|]. rewrite Hd. apply tracks_nil.
  - intros l1 op l2 -> Hlt. apply accepted_first. by rewrite app_nil_r.
Qed.

(** Entries that a restored snapshot already contains change nothing when they
    are delivered again: what a node replays whose snapshot file is ahead of
    its state file (FilePersister, after a crash between the two writes). *)
Theorem replayed_entries_skipped log kv seen kv' :
  tracks (kv_duplicateTable kv) seen → map snd log ⊆ seen →
  applyLoop kv (map entryMsg log) = Ret kv' → same_state kv' kv.
Proof.
  revert kv. induction log as [|[[i t] op] log IH]; intros kv Hd Hsub; simpl; [by intros [= <-]|].
  intros (a & Ha & H)%bind_Ret_inv. unfold applyLoop_msg in Ha. simpl in Ha.
  apply bind_Ret_inv in Ha as (b & Hb & Hm%maybeSnapshot_state). rewrite notifyWaiter_state in Hm.
  apply applyOp_state in Hb. change (op_ClientID op) with (clientOf op) in Hb.
  change (op_SeqNum op) with (seqNum op) in Hb. rewrite (Hd (clientOf op)) in Hb.
  rewrite (proj2 (Z.ltb_ge _ _)) in Hb by (apply maxSeq_in, Hsub; simpl; by left).
  rewrite <- Hb, <- Hm. apply (IH a); [|by intros x Hx; apply Hsub; right|done].
  destruct Hm as [_ ->], Hb as [_ ->]. done.
Qed.

(** ** When a replica panics *)

Definition known_type (op : Op) : Prop :=
  op_Type op = "Put"%string ∨ op_Type op = "Append"%string ∨ op_Type op = "Noop"%string.

Lemma op_effect_known op s : is_Some (op_effect op s) ↔ known_type op.
Proof.
  unfold op_effect, known_type. repeat case_decide; split; intros Hk; try naive_solver.
Qed.

(** One bad operation stops every replica. With compaction off, applying
    a committed command panics exactly when its Op type is none of Put,
    Append and Noop and its SeqNum is new for its client; PutAppend does not
    check the type, so a leader replicates such a command. *)
Theorem apply_panics_iff kv index term op :
  kv_maxRaftState kv = -1 →
  applyLoop_msg kv (commandMsg index term op) = Panic ↔
    ¬ known_type op ∧ seqOf (kv_duplicateTable kv) (op_ClientID op) < op_SeqNum op.
Proof.
  intros Hmax. unfold applyLoop_msg, applyOp. simpl.
  set (kv1 := if decide (op_Type op = "Noop"%string) then _ else kv).
  assert (kv_duplicateTable kv1 = kv_duplicateTable kv ∧ kv_maxRaftState kv1 = -1) as [-> Hm1]
    by (unfold kv1; by destruct (decide _)).
  assert (∀ kv2, kv_maxRaftState kv2 = -1 → maybeSnapshot (notifyWaiter kv2 index op) index ≠ Panic) as Hno.
  { intros kv2 Hm2. unfold maybeSnapshot.
    assert (kv_maxRaftState (notifyWaiter kv2 index op) = -1) as -> by done. done. }
  destruct (Z.ltb_spec (seqOf (kv_duplicateTable kv) (op_ClientID op)) (op_SeqNum op)) as [Hlt|Hge].
  - rewrite <- (op_effect_known op (kv_store kv1)).
    destruct (op_effect op (kv_store kv1)) as [s|]; simpl.
    + split; [by intros ?%Hno|]. intros [[] _]. by eexists.
    + split; [|done]. intros _. split; [by intros []|done].
  - simpl. split; [by intros ?%Hno|lia].
Qed.
End facts.

Section recovery.
Context {P : Type} `{!Persister P, !PersisterLaws P}.
Context `{!Codec (persistedState Op), !Codec kvSnapshot}.
Implicit Type kv : KVServer P.

(** Recovery from a snapshot. After snapshotLocked compacted a server's
    log through [i], a crash and a restart of both layers on the same
    storage - newRaft, then NewKVServer - returns with the store and the
    duplicate table the server had, with delivery to resume at i + 1; from
    there on the restarted server and the one that never crashed stay in
    agreement on whatever is delivered to both. *)
Theorem snapshot_restart kv i kv' p id peers max :
  durable (kv_rf kv) → 0 ≤ r_lastIncludedIndex (kv_rf kv) < i →
  snapshotLocked kv i = Ret kv' → r_persister (kv_rf kv') = Some p →
  ∃ rf2 kv2, newRaft id peers (Some p) = Ret rf2 ∧ NewKVServer rf2 max = Ret kv2 ∧
    kv_rf kv2 = rf2 ∧ r_lastApplied rf2 = i ∧ r_commitIndex rf2 = i ∧
    same_state kv2 kv ∧
    ∀ msgs a b, applyLoop kv' msgs = Ret a → applyLoop kv2 msgs = Ret b →
      same_state a b.
Proof.
  intros Hd Hi H Hp. apply snapshotLocked_state in H as Hss. unfold snapshotLocked in H.
  apply bind_Ret_inv in H as ([rf [e|]] & Hsn & H); [done|]. injection H as <-.
  set (snap := mkKvSnapshot (kv_store kv) (kv_duplicateTable kv)) in *.
  apply Snapshot_durable in Hsn as Hd'; [|done].
  apply Snapshot_meets in Hsn as [[? _]|(_ & _ & _ & Hlii & Hdata & _)]; [lia|].
  simpl in Hp. destruct (newRaft_recovers rf p id peers Hd' Hp)
    as (rf2 & Hrf2 & _ & _ & _ & _ & Hsnap & Hci & Hla & _).
  rewrite Hlii, Z.max_r in Hci, Hla by lia. rewrite Hlii, Hdata in Hsnap.
  set (kv0 := mkKVServer rf2 ∅ noWaiters ∅ max 0).
  set (kv2 := set_duplicateTable (kv_duplicateTable kv) (set_store (kv_store kv) kv0)).
  assert (NewKVServer rf2 max = Ret kv2) as Hnew.
  { unfold NewKVServer, ReadSnapshotData. rewrite Hsnap by lia.
    destruct (gob_encode snap) as [|b bs] eqn:He; [by apply gob_nonempty in He|].
    unfold restoreSnapshot. by rewrite <- He, gob_round_trip. }
  exists rf2, kv2. split_and!; try done.
  intros msgs a b. by apply applyLoop_agree.
Qed.
End recovery.

(** ** PutAppend against the apply loop *)

Section waiting.
Context {P : Type} `{!Persister P, !Codec (persistedState Op), !Codec kvSnapshot}.
Implicit Type kv : KVServer P.

(** A server with the PutAppend calls it has started, the (index, op) pairs
    its apply loop has applied, and the next unused channel. *)
Record KVSys := mkKVSys {
  sys_kv : KVServer P;
  sys_calls : list (Waiting Op);
  sys_applied : list (Z * Op);
  sys_next : Z
}.

(** Interleavings of the Raft node's own steps, the apply loop and any number
    of PutAppend calls. *)
Inductive kv_step : KVSys → KVSys → Prop :=
| kvs_raft kv W h n rf :
    kv_step (mkKVSys kv W h n) (mkKVSys (set_rf rf kv) W h n)
| kvs_apply kv W h n msg op kv' :
    am_SnapshotValid msg = false → am_Command msg = Some op →
    applyLoop_msg kv msg = Ret kv' →
    kv_step (mkKVSys kv W h n) (mkKVSys kv' W ((am_Index msg, op) :: h) n)
| kvs_install kv W h n msg kv' :
    am_SnapshotValid msg = true → applyLoop_msg kv msg = Ret kv' →
    kv_step (mkKVSys kv W h n) (mkKVSys kv' W h n)
| kvs_propose kv W h n args kv' w :
    PutAppend_propose kv args n = Ret (kv', inl w) →
    kv_step (mkKVSys kv W h n) (mkKVSys kv' (w :: W) h (n + 1))
| kvs_register kv W h n w :
    w ∈ W → wt_chans (kv_waiters kv) !! w_ch w = None →
    kv_step (mkKVSys kv W h n) (mkKVSys (PutAppend_register kv w) W h n)
| kvs_return kv W h n w c e :
    w ∈ W → PutAppend_select kv w c = Some e →
    kv_step (mkKVSys kv W h n) (mkKVSys (PutAppend_return kv w) W h n).

Definition kv_boot (rf : Raft Op P) (max : Z) (s : KVSys) : Prop :=
  ∃ kv, NewKVServer rf max = Ret kv ∧ s = mkKVSys kv [] [] 0.

(** What the waiting protocol sees of the system. *)
Definition waits (s : KVSys) : WaitSys :=
  mkWaitSys (kv_waiters (sys_kv s)) (sys_calls s) (sys_applied s) (sys_next s).

Lemma maybeSnapshot_waiters kv i kv' :
  maybeSnapshot kv i = Ret kv' → kv_waiters kv' = kv_waiters kv.
Proof. unfold maybeSnapshot, snapshotLocked. intros H. handler; done. Qed.

Lemma applyOp_waiters kv op t kv' : applyOp kv op t = Ret kv' → kv_waiters kv' = kv_waiters kv.
Proof.
  unfold applyOp. set (kv1 := if decide (op_Type op = "Noop"%string) then _ else kv).
  assert (kv_waiters kv1 = kv_waiters kv) as H1 by (unfold kv1; by destruct (decide _)).
  rewrite <- H1. destruct (_ <? _).
  - by intros (s & _ & [= <-])%bind_Ret_inv.
  - by intros [= <-].
Qed.

(** Every step of the server is a step of the waiting protocol, or none. *)
Lemma kv_step_waits s s' : kv_step s s' → rtc wait_step (waits s) (waits s').
Proof.
  intros Hst. destruct Hst as [kv W h n rf|kv W h n msg op kv' Hsv Hc H|kv W h n msg kv' Hsv H
    |kv W h n args kv' w H|kv W h n w Hw Hno|kv W h n w c e Hw _]; unfold waits; simpl.
  - done.
  - unfold applyLoop_msg in H. rewrite Hsv, Hc in H. simpl in H.
    apply bind_Ret_inv in H as (a & Ha%applyOp_waiters & ->%maybeSnapshot_waiters).
    simpl. rewrite Ha. apply rtc_once, ws_notify.
  - unfold applyLoop_msg, restoreSnapshot in H. rewrite Hsv in H. by inv_ret.
  - unfold PutAppend_propose in H. apply bind_Ret_inv in H as ([rf [[i t] b]] & _ & H).
    destruct b; inv_ret. by apply rtc_once, ws_start.
  - by apply rtc_once, ws_register.
  - by apply rtc_once, ws_return.
Qed.

Lemma kv_reachable_waits rf max s0 s :
  kv_boot rf max s0 → rtc kv_step s0 s → waits_ok (waits s).
Proof.
  intros (kv & Hnew & ->) Hrtc. apply (wait_steps_ok (mkWaitSys noWaiters [] [] 0));
    [apply waits_ok_init|].
  assert (kv_waiters kv = noWaiters) as Hkv.
  { unfold NewKVServer in Hnew. destruct (ReadSnapshotData rf); [by injection Hnew as <-|].
    unfold restoreSnapshot in Hnew. by inv_ret. }
  rewrite <- Hkv. change (mkWaitSys _ _ _ _) with (waits (mkKVSys kv [] [] 0)).
  clear Hkv Hnew. induction Hrtc as [|s1 s2 s3 H12 _ IH]; [done|].
  etransitivity; [by apply kv_step_waits|done].
Qed.

(** An OK is a commit. In any interleaving of Raft steps, applied
    entries, installed snapshots and PutAppend calls, a call can return OK
    only on its notification, and then this server's apply loop has applied
    exactly this call's operation at the index it was proposed at; and the
    apply loop never blocks on a waiter: the channel registered for an index
    always has its slot free. *)
Theorem PutAppend_OK rf max s0 s :
  kv_boot rf max s0 → rtc kv_step s0 s →
  (∀ w c, w ∈ sys_calls s → PutAppend_select (sys_kv s) w c = Some OK →
    c = SelNotified ∧ (w_index w, w_op w) ∈ sys_applied s) ∧
  (∀ i ch, wt_notifyChans (kv_waiters (sys_kv s)) !! i = Some ch →
    wt_chans (kv_waiters (sys_kv s)) !! ch = Some None).
Proof.
  intros H0 Hrtc. pose proof (kv_reachable_waits _ _ _ _ H0 Hrtc) as Hok.
  split; [|intros i ch Hi; by destruct (wo_registered _ Hok i ch Hi)].
  intros w c Hw Hsel. destruct c; simpl in Hsel; [|done|by destruct (_ || _)].
  apply bind_Some in Hsel as (op & Hr & Hsel).
  destruct (decide (op = w_op w)) as [->|]; [|done]. split; [done|].
  by apply (received_applied (waits s)).
Qed.
End waiting.

(** ** Witnesses *)
Module Witness.
#[local] Instance op_codec : Codec (persistedState Op) := countable_codec.
#[local] Instance snapshot_codec : Codec kvSnapshot := countable_codec.

Definition put1 := mkOp "Put" "x" "a" 7 1.
Definition append2 := mkOp "Append" "x" "b" 7 2.

Definition demo_rf : Raft Op MemoryPersister :=
  mkRaft 0 [1; 2] None Leader 1 0
    [mkLogEntry 1 put1; mkLogEntry 1 append2] 0 0 [] 2 2 None ∅ ∅ false.

Definition demo_kv (rf : Raft Op MemoryPersister) : KVServer MemoryPersister :=
  mkKVServer rf ∅ noWaiters ∅ (-1) 0.

(** The second entry is a retry of the first, the fourth of the third. *)
Definition demo_entries : list (Z * Z * Op) :=
  [(1, 1, put1); (2, 1, put1); (3, 1, append2); (4, 2, append2)].

Lemma apply_at_most_once_witness :
  ∃ kv', applyLoop (demo_kv demo_rf) (map entryMsg demo_entries) = Ret kv' ∧
    kv_store kv' = replay ∅ [put1; append2] ∧ kv_store kv' !! "x"%string = Some "ab"%string.
Proof.
  destruct (returned_Ret (applyLoop (demo_kv demo_rf) (map entryMsg demo_entries))
    ltac:(vm_compute; reflexivity)) as [kv' H].
  destruct (apply_at_most_once demo_entries (demo_kv demo_rf) kv' eq_refl H) as [Hs _].
  exists kv'. split; [exact H|]. rewrite Hs. split; reflexivity.
Defined.

Lemma apply_panics_witness :
  applyLoop_msg (demo_kv demo_rf) (commandMsg 1 1 (mkOp "Delete" "x" "" 7 1)) = Panic.
Proof.
  apply (apply_panics_iff (demo_kv demo_rf)); [done|]. split; [|done].
  by intros [?|[?|?]].
Defined.

Definition durable_rf : Raft Op MemoryPersister := on_storage demo_rf.

Lemma snapshot_restart_witness :
  ∃ kv' p rf2 kv2, snapshotLocked (demo_kv durable_rf) 2 = Ret kv' ∧
    newRaft 0 [1; 2] (Some p) = Ret rf2 ∧ NewKVServer rf2 (-1) = Ret kv2 ∧
    r_lastApplied rf2 = 2 ∧ same_state kv2 (demo_kv durable_rf).
Proof.
  assert (returned (snapshotLocked (demo_kv durable_rf) 2) = true) as H
    by (vm_compute; reflexivity).
  apply returned_Ret in H as [kv' H].
  destruct (r_persister (kv_rf kv')) as [p|] eqn:Hp.
  2: { exfalso. assert (match snapshotLocked (demo_kv durable_rf) 2 with
         | Ret kv => match r_persister (kv_rf kv) with Some _ => true | None => false end
         | Panic => true end = true) as Hs by (vm_compute; reflexivity).
       by rewrite H, Hp in Hs. }
  destruct (snapshot_restart (demo_kv durable_rf) 2 kv' p 0 [1; 2] (-1))
    as (rf2 & kv2 & Hrf & Hkv & _ & Hla & _ & Hss & _);
    [apply on_storage_durable|done|exact H|exact Hp|].
  exists kv', p, rf2, kv2. split_and!; [exact H|exact Hrf|exact Hkv|exact Hla|apply Hss..].
Defined.

Lemma PutAppend_OK_witness :
  ∃ s w, kv_boot demo_rf (-1) (mkKVSys (demo_kv demo_rf) [] [] 0) ∧
    rtc kv_step (mkKVSys (demo_kv demo_rf) [] [] 0) s ∧ w ∈ sys_calls s ∧
    PutAppend_select (sys_kv s) w SelNotified = Some OK ∧
    (w_index w, w_op w) ∈ sys_applied s.
Proof.
  set (s0 := mkKVSys (demo_kv demo_rf) [] [] 0).
  assert (kv_boot demo_rf (-1) s0) as Hboot by (by exists (demo_kv demo_rf)).
  assert (∃ s w, rtc kv_step s0 s ∧ w ∈ sys_calls s ∧
    PutAppend_select (sys_kv s) w SelNotified = Some OK) as (s & w & Hrun & Hw & Hsel).
  { eexists _, _. split.
    - eapply rtc_l; [eapply (kvs_propose _ _ _ _ (mkPutAppendArgs "x" "c" "Append" 7 3));
        vm_compute; reflexivity|].
      eapply rtc_l; [apply kvs_register; [by left|vm_compute; reflexivity]|].
      eapply rtc_l; [eapply (kvs_apply _ _ _ _ (commandMsg 3 1 (mkOp "Append" "x" "c" 7 3)));
        [done|done|vm_compute; reflexivity]|].
      apply rtc_refl.
    - split; [by left|vm_compute; reflexivity]. }
  destruct (PutAppend_OK demo_rf (-1) s0 s Hboot Hrun) as [Hok _].
  exists s, w. split_and!; [exact Hboot|exact Hrun|exact Hw|exact Hsel|].
  by apply (Hok w SelNotified).
Defined.
End Witness.
