(* ===== verification/ReplicatedKV.v ===== *)
(** * Key-value replicas over a Raft cluster

    KVServer as an instance of Replicated.v, with the calls around it: clients
    send requests, PutAppend handlers and the no-op loop propose, the apply
    loop notifies the handlers. Under Replicated.v's restrictions on
    AppendEntries and snapshots the replicas are one state machine. *)
From S2P Require Import Prelude Persister Dedup Waiters RaftNode RaftFacts RaftDurable RaftVotes RaftLog RaftDemo RaftPositions RaftCommit RaftCluster RaftDivergence RaftGhost RaftLogMatching RaftChosen RaftSafety RaftCommitted Replicated KVServer KVServerFacts.
Local Open Scope Z_scope.

#[export] Instance PutAppendArgs_eq_dec : EqDecision PutAppendArgs.
Proof. solve_decision. Defined.

(** ** The machine *)

Definition KVState : Type := gmap string string * gmap Z Z.

(** What applying one operation does to store and duplicate table. *)
Definition op_step (st : KVState) (op : Op) : option KVState :=
  if seqOf st.2 (op_ClientID op) <? op_SeqNum op
  then store ← op_effect op st.1; Some (store, <[op_ClientID op := op_SeqNum op]> st.2)
  else Some st.

#[export] Instance kv_machine : Machine Op KVState := { m_init := (∅, ∅); m_step := op_step }.

Lemma run_from_replay ops st st' seen :
  tracks st.2 seen → run_from (Some st) ops = Some st' →
  st'.1 = replay st.1 (accepted seen ops).
Proof.
  revert st seen. induction ops as [|op ops IH]; intros st seen Ht; [by intros [= <-]|].
  rewrite run_from_cons. simpl. intros H.
  pose proof (Ht (clientOf op)) as Hc. unfold op_step in H.
  change (op_ClientID op) with (clientOf op) in H. change (op_SeqNum op) with (seqNum op) in H.
  rewrite Hc in H. destruct (Z.ltb_spec (maxSeq (clientOf op) seen) (seqNum op)) as [Hlt|Hge].
  - destruct (op_effect op st.1) as [s|] eqn:He; simpl in H; [|by rewrite run_from_None in H].
    assert (tracks (<[clientOf op := seqNum op]> st.2) (op :: seen)) as Ht'
      by (apply tracks_accept; [done|lia]).
    rewrite (IH (s, <[clientOf op := seqNum op]> st.2) (op :: seen) Ht' H). simpl. by rewrite He.
  - apply (IH _ (op :: seen)); [apply tracks_skip; [done|lia]|done].
Qed.

(** The store a log produces is what its accepted operations produce. *)
Lemma run_ops_replay ops (st : KVState) :
  run_ops ops = Some st → st.1 = replay ∅ (accepted [] ops).
Proof. apply (run_from_replay ops (∅, ∅)), tracks_nil. Qed.

(** It has a meaning for the operations the switch knows. *)
Definition op_known (op : Op) : Prop := op_Type op ∈ ["Put"; "Append"; "Noop"]%string.

Lemma run_ops_known ops : Forall op_known ops → is_Some (run_ops (St:=KVState) ops).
Proof.
  unfold run_ops. generalize (m_init (St:=KVState)). induction ops as [|op ops IH]; intros st; [by eexists|].
  intros [Hop Hops]%Forall_cons. rewrite run_from_cons. simpl. unfold op_step.
  destruct (_ <? _); [|by apply IH].
  assert (is_Some (op_effect op st.1)) as [store ->]; [|simpl; by apply IH].
  unfold op_effect. unfold op_known in Hop. rewrite !elem_of_cons in Hop.
  repeat case_decide; try by eexists. destruct Hop as [?|[?|[?|[]%not_elem_of_nil]]]; done.
Qed.

(** ** The server *)

Section server.
Context {P : Type} `{!Persister P, !PersisterLaws P}.
Context `{!Codec (persistedState Op), !Codec kvSnapshot}.
Abbreviation Raft := (Raft Op P).
Abbreviation KVServer := (KVServer P).
Implicit Type r : Raft.
Implicit Type kv : KVServer.

(** A PutAppend call past its Propose, and what its select came to. *)
Record Call := mkCall {
  ca_args : PutAppendArgs;
  ca_w : Waiting Op;
  ca_answer : option Err
}.

(** A server and its running PutAppend calls. *)
Record Service := mkService { sv_kv : KVServer; sv_calls : list Call }.
Implicit Type sv : Service.

#[export] Instance kv_server : Server Op P Service KVState := {
  srv_rf sv := kv_rf (sv_kv sv);
  srv_with r sv := mkService (set_rf r (sv_kv sv)) (sv_calls sv);
  srv_state sv := (kv_store (sv_kv sv), kv_duplicateTable (sv_kv sv));
  srv_noop sv := kv_noopAppliedTerm (sv_kv sv);
  srv_good _ := True;
  srv_snap st data := data = gob_encode (mkKvSnapshot st.1 st.2);
  srv_process sv m := kv ← applyLoop_msg (sv_kv sv) m; Ret (mkService kv (sv_calls sv));
  srv_boot r sv := sv_calls sv = [] ∧ ∃ max, NewKVServer r max = Ret (sv_kv sv)
}.

(** The server's own call into its node is a Snapshot of its state. *)
Lemma applyLoop_raft kv m kv' :
  applyLoop_msg kv m = Ret kv' →
  kv_rf kv' = kv_rf kv ∨
  (am_SnapshotValid m = false ∧
   Snapshot (kv_rf kv) (am_Index m) (gob_encode (mkKvSnapshot (kv_store kv') (kv_duplicateTable kv'))) =
     Ret (kv_rf kv', None)).
Proof.
  unfold applyLoop_msg. destruct (am_SnapshotValid m).
  { unfold restoreSnapshot. intros (s & _ & [= <-])%bind_Ret_inv. by left. }
  intros (op & _ & (kv1 & H1 & H2)%bind_Ret_inv)%bind_Ret_inv.
  assert (kv_rf kv1 = kv_rf kv) as Hrf.
  { unfold applyOp in H1. set (kv0 := if decide (op_Type op = "Noop"%string) then _ else kv) in H1.
    assert (kv_rf kv0 = kv_rf kv) as <- by (unfold kv0; by destruct (decide _)).
    destruct (_ <? _); [|by injection H1 as <-]. by apply bind_Ret_inv in H1 as (s & _ & [= <-]). }
  unfold maybeSnapshot in H2. destruct (_ && _); [|injection H2 as <-; by left].
  unfold snapshotLocked in H2. apply bind_Ret_inv in H2 as ([rf [e|]] & Hs & H2); [done|].
  injection H2 as <-. simpl in Hs. rewrite Hrf in Hs. by right.
Qed.

(** What the server makes of a message. *)
Lemma applyLoop_command kv i t op kv' :
  applyLoop_msg kv (commandMsg i t op) = Ret kv' →
  op_step (kv_store kv, kv_duplicateTable kv) op = Some (kv_store kv', kv_duplicateTable kv').
Proof.
  unfold applyLoop_msg. simpl.
  intros (kv1 & H1%applyOp_state & [Hs Hd]%maybeSnapshot_state)%bind_Ret_inv. simpl in Hs, Hd.
  unfold op_step. simpl. rewrite Hs, Hd. destruct (_ <? _).
  - destruct H1 as [-> ->]. done.
  - by destruct H1 as [-> ->].
Qed.

Lemma applyLoop_restore kv data n t kv' st :
  applyLoop_msg kv (snapshotMsg data n t) = Ret kv' →
  data = gob_encode (mkKvSnapshot st.1 st.2) →
  (kv_store kv', kv_duplicateTable kv') = st ∧ kv_rf kv' = kv_rf kv.
Proof.
  unfold applyLoop_msg, restoreSnapshot. simpl. intros H ->. rewrite gob_round_trip in H.
  simpl in H. injection H as <-. by destruct st.
Qed.

Lemma applyLoop_noop kv m kv' :
  applyLoop_msg kv m = Ret kv' →
  kv_noopAppliedTerm kv' = kv_noopAppliedTerm kv ∨
  (am_SnapshotValid m = false ∧ kv_noopAppliedTerm kv' = am_Term m).
Proof.
  unfold applyLoop_msg. destruct (am_SnapshotValid m).
  { unfold restoreSnapshot. intros (s & _ & [= <-])%bind_Ret_inv. by left. }
  intros (op & _ & (kv1 & H1 & H2)%bind_Ret_inv)%bind_Ret_inv.
  assert (kv_noopAppliedTerm kv' = kv_noopAppliedTerm kv1) as ->.
  { unfold maybeSnapshot, snapshotLocked in H2. clear H1. by handler. }
  unfold applyOp in H1. set (kv0 := if decide (op_Type op = "Noop"%string) then _ else kv) in H1.
  assert (kv_noopAppliedTerm kv1 = kv_noopAppliedTerm kv0) as ->.
  { destruct (_ <? _); [|by injection H1 as <-]. by apply bind_Ret_inv in H1 as (s & _ & [= <-]). }
  unfold kv0. destruct (decide _); [by right|by left].
Qed.

Lemma NewKVServer_meets r max kv :
  NewKVServer r max = Ret kv → kv_noopAppliedTerm kv = 0 ∧ kv_waiters kv = noWaiters ∧
  (r_snapshotData r = [] → (kv_store kv, kv_duplicateTable kv) = (∅, ∅)) ∧
  ∀ st, r_snapshotData r = gob_encode (mkKvSnapshot st.1 st.2) → (kv_store kv, kv_duplicateTable kv) = st.
Proof.
  unfold NewKVServer, ReadSnapshotData. destruct (r_snapshotData r) as [|b bs] eqn:Hd.
  { intros [= <-]. split_and!; [done..|]. intros st He. symmetry in He. by apply gob_nonempty in He. }
  unfold restoreSnapshot. intros (s & Hs & [= <-])%bind_Ret_inv. split_and!; [done..|].
  intros st He. rewrite He, gob_round_trip in Hs. injection Hs as <-. by destruct st.
Qed.

#[export] Instance kv_server_laws : ServerLaws kv_machine kv_server.
Proof.
  split; simpl.
  - done.
  - done.
  - intros sv m sv' (kv & Hk & [= <-])%bind_Ret_inv. simpl.
    destruct (applyLoop_raft _ _ _ Hk) as [?|(_ & ?)]; [by left|right; eauto].
  - intros sv i t op sv' _ (kv & Hk & [= <-])%bind_Ret_inv. simpl. split_and!; [done|..].
    + by eapply applyLoop_command.
    + by destruct (applyLoop_noop _ _ _ Hk) as [?|[_ ?]]; [left|right].
    + destruct (applyLoop_raft _ _ _ Hk) as [?|(_ & Hs)]; [by left|right; eauto].
  - intros sv st data n t sv' _ Hd (kv & Hk & [= <-])%bind_Ret_inv. simpl.
    destruct (applyLoop_restore _ _ _ _ _ _ Hk Hd). split_and!; [done..| |done].
    destruct (applyLoop_noop _ _ _ Hk) as [?|[? _]]; done.
  - intros r sv (_ & max & (Hno & _ & Hinit & Hst)%NewKVServer_meets). done.
Qed.
Lemma applyOp_returns kv op term st :
  op_step (kv_store kv, kv_duplicateTable kv) op = Some st →
  ∃ kv', applyOp kv op term = Ret kv' ∧ kv_rf kv' = kv_rf kv.
Proof.
  unfold op_step, applyOp. simpl.
  set (kv0 := if decide (op_Type op = "Noop"%string) then _ else kv).
  assert (kv_store kv0 = kv_store kv ∧ kv_duplicateTable kv0 = kv_duplicateTable kv ∧
    kv_rf kv0 = kv_rf kv) as (-> & -> & <-) by (unfold kv0; by destruct (decide _)).
  destruct (_ <? _); [|by eexists].
  intros (store & -> & _)%bind_Some. simpl. by eexists.
Qed.

#[export] Instance kv_server_total : ServerTotal kv_machine kv_server.
Proof.
  split; simpl.
  - intros sv i t op st _ (kv1 & H1 & Hrf)%(applyOp_returns _ _ t) Hsnap.
    unfold applyLoop_msg. simpl. rewrite H1. simpl. unfold maybeSnapshot.
    destruct (_ && _); [|done]. unfold snapshotLocked. simpl. rewrite Hrf.
    match goal with |- context [Snapshot _ i ?d] => by destruct (Hsnap d) as [rf ->] end.
  - intros sv st data n t ->. unfold applyLoop_msg, restoreSnapshot. simpl. by rewrite gob_round_trip.
  - intros r Hd. assert (returned (NewKVServer r (-1)) = true) as [kv Hkv]%returned_Ret.
    { unfold NewKVServer, ReadSnapshotData. destruct Hd as [->|[st ->]]; [done|].
      destruct (gob_encode _) as [|b bs] eqn:He; [done|].
      unfold restoreSnapshot. by rewrite <- He, gob_round_trip. }
    exists (mkService kv []). by eauto.
Qed.
End server.

Arguments mkService {P} _ _.
Arguments sv_kv {P} _.
Arguments sv_calls {P} _.

(** ** The system *)

Section system.
Context {P : Type} `{!Persister P, !PersisterLaws P}.
Context `{!Codec (persistedState Op), !Codec kvSnapshot}.
Abbreviation Raft := (Raft Op P).
Abbreviation KVServer := (KVServer P).
Abbreviation Cluster := (Cluster (Cmd:=Op) (P:=P)).
Abbreviation Replica := (Replica (Op:=Op) (Srv:=Service (P:=P))).
Implicit Type r : Raft.
Implicit Type c : Cluster.
Implicit Type kv : KVServer.
Implicit Type a : Replica.

Definition rp_kv a : KVServer := sv_kv (rp_srv a).
Definition rp_calls a : list Call := sv_calls (rp_srv a).

Definition handling (kv : KVServer) (calls : list Call) (a : Replica) : Replica :=
  mkReplica (mkService kv calls) (rp_index a) (rp_queue a).

(** The machines of Replicated.v, the requests that were sent to each node,
    which may still arrive, the replies the nodes sent, and the next unused
    name of a channel. *)
Record System := mkSystem {
  st_cluster : Cluster;
  st_replicas : gmap Z Replica;
  st_requests : list (Z * PutAppendArgs);
  st_replies : list (Z * PutAppendArgs * Err);
  st_chans : Z
}.

Definition machines (s : System) : Machines := (st_cluster s, st_replicas s).

Definition with_machines (x : Machines) (s : System) : System :=
  mkSystem x.1 x.2 (st_requests s) (st_replies s) (st_chans s).
Definition with_cluster c (s : System) : System := with_machines (c, st_replicas s) s.
Definition with_replica (i : Z) (a : Replica) (s : System) : System :=
  with_machines (st_cluster s, <[i := a]> (st_replicas s)) s.
Definition request (i : Z) (args : PutAppendArgs) (s : System) : System :=
  mkSystem (st_cluster s) (st_replicas s) ((i, args) :: st_requests s) (st_replies s) (st_chans s).
Definition answer (i : Z) (args : PutAppendArgs) (e : Err) (s : System) : System :=
  mkSystem (st_cluster s) (st_replicas s) (st_requests s) ((i, args, e) :: st_replies s) (st_chans s).
Definition next_chan (s : System) : System :=
  mkSystem (st_cluster s) (st_replicas s) (st_requests s) (st_replies s) (st_chans s + 1).

(** Node [i] is now [r], its server [a]. *)
Definition moves (i : Z) r (a : Replica) (s : System) : System :=
  with_machines (update (st_cluster s) i r [], <[i := a]> (st_replicas s)) s.

(** What the no-op loop proposes. *)
Definition noop : Op := mkOp "Noop" "" "" 0 0.

(** [rs_raft]: elections, replication and their messages, with no proposal;
    proposals come from the no-op loop, at any time, and from handlers. *)
Inductive repl_step (s : System) : System → Prop :=
| rs_raft c' :
    cluster_step in_order (st_cluster s) c' →
    apply_view <$> c_nodes c' = apply_view <$> c_nodes (st_cluster s) →
    (∀ op, ¬ proposes (st_cluster s) c' op) →
    repl_step s (with_cluster c' s)
| rs_noop i r r' res :
    c_nodes (st_cluster s) !! i = Some r → Propose r noop = Ret (r', res) →
    repl_step s (with_cluster (update (st_cluster s) i r' []) s)
| rs_apply x : apply_step (machines s) x → repl_step s (with_machines x s)
| rs_restart i x : restart_step i (machines s) x → repl_step s (with_machines x s)
| rs_send i args : repl_step s (request i args s)
| rs_propose i r a args kv' w :
    c_nodes (st_cluster s) !! i = Some r → st_replicas s !! i = Some a →
    (i, args) ∈ st_requests s →
    PutAppend_propose (set_rf r (rp_kv a)) args (st_chans s) = Ret (kv', inl w) →
    repl_step s
      (next_chan (moves i (kv_rf kv') (handling kv' (mkCall args w None :: rp_calls a) a) s))
| rs_refuse i r a args kv' e :
    c_nodes (st_cluster s) !! i = Some r → st_replicas s !! i = Some a →
    (i, args) ∈ st_requests s →
    PutAppend_propose (set_rf r (rp_kv a)) args (st_chans s) = Ret (kv', inr e) →
    repl_step s (answer i args e s)
| rs_register i a call :
    st_replicas s !! i = Some a → call ∈ rp_calls a →
    wt_chans (kv_waiters (rp_kv a)) !! w_ch (ca_w call) = None →
    repl_step s
      (with_replica i (handling (PutAppend_register (rp_kv a) (ca_w call)) (rp_calls a) a) s)
| rs_select i r a call calls case e :
    c_nodes (st_cluster s) !! i = Some r → st_replicas s !! i = Some a →
    rp_calls a ≡ₚ call :: calls → ca_answer call = None →
    is_Some (wt_chans (kv_waiters (rp_kv a)) !! w_ch (ca_w call)) →
    PutAppend_select (set_rf r (rp_kv a)) (ca_w call) case = Some e →
    repl_step s
      (with_replica i
        (handling (rp_kv a) (mkCall (ca_args call) (ca_w call) (Some e) :: calls) a) s)
| rs_return i a call calls e :
    st_replicas s !! i = Some a → rp_calls a ≡ₚ call :: calls → ca_answer call = Some e →
    repl_step s
      (answer i (ca_args call) e
        (with_replica i (handling (PutAppend_return (rp_kv a) (ca_w call)) calls a) s)).

(** First-ever boots of nodes and servers. *)
Definition repl_init (members : list Z) (s : System) : Prop :=
  machines_init members (machines s) ∧ st_requests s = [] ∧ st_replies s = [] ∧
  ∀ i a, st_replicas s !! i = Some a → kv_waiters (rp_kv a) = noWaiters ∧ rp_calls a = [].

Definition repl_reachable (members : list Z) (s : System) : Prop :=
  ∃ s0, repl_init members s0 ∧ rtc repl_step s0 s.

Lemma propose_inv kv args ch kv' res :
  PutAppend_propose kv args ch = Ret (kv', res) →
  ∃ index term isLeader, Propose (kv_rf kv) (opOf args) = Ret (kv_rf kv', (index, term, isLeader)) ∧
    kv' = set_rf (kv_rf kv') kv ∧
    res = if isLeader : bool then inl (mkWaiting (opOf args) index term ch) else inr ErrWrongLeader.
Proof.
  unfold PutAppend_propose. intros ([rf [[index term] isLeader]] & Hp & [= <- <-])%bind_Ret_inv.
  by exists index, term, isLeader.
Qed.

(** ** The machines take its steps *)

Lemma same_handling a kv' calls :
  kv_store kv' = kv_store (rp_kv a) → kv_duplicateTable kv' = kv_duplicateTable (rp_kv a) →
  kv_noopAppliedTerm kv' = kv_noopAppliedTerm (rp_kv a) → same_replica a (handling kv' calls a).
Proof. intros Hs Hd Hno. split; simpl; [by rewrite Hs, Hd|]. by split. Qed.

(** A step of the server's calls. *)
Lemma machine_handling c c' R i a kv' calls :
  (c' = c ∨ cluster_step in_order c c') → apply_view <$> c_nodes c' = apply_view <$> c_nodes c →
  R !! i = Some a → kv_store kv' = kv_store (rp_kv a) →
  kv_duplicateTable kv' = kv_duplicateTable (rp_kv a) →
  kv_noopAppliedTerm kv' = kv_noopAppliedTerm (rp_kv a) →
  machine_step (c, R) (c', <[i := handling kv' calls a]> R).
Proof.
  intros Hc Hv Ha Hs Hd Hno. apply ms_outside; [done|done|].
  intros j b [[<- <-]|[_ Hb]]%lookup_insert_Some; [|by exists b].
  exists a. split; [done|by apply same_handling].
Qed.

Lemma machine_idle c c' R :
  (c' = c ∨ cluster_step in_order c c') → apply_view <$> c_nodes c' = apply_view <$> c_nodes c →
  machine_step (c, R) (c', R).
Proof. intros. apply ms_outside; [done|done|]. intros j b Hb. by exists b. Qed.

Lemma repl_machine_step s s' : repl_step s s' → machine_step (machines s) (machines s').
Proof.
  intros [c' Hc Hv _|i r r' res Hi H|x Hs|i x Hs|i args|i r a args kv' w Hi Ha _ H
    |i r a args kv' e Hi _ _ H|i a call Ha _ _|i r a call calls case e _ Ha _ _ _ _|i a call calls e Ha _ _].
  - apply machine_idle; [by right|done].
  - apply machine_idle; [right; by eapply step_propose|].
    eapply update_view; [done|by eapply Propose_apply_view].
  - destruct x. by apply ms_apply.
  - destruct x. by eapply ms_restart.
  - apply machine_idle; [by left|done].
  - destruct (propose_inv _ _ _ _ _ H) as (index & term & l & Hp & Hkv & _).
    apply machine_handling; [right; by eapply step_propose| |done|by rewrite Hkv..].
    eapply update_view; [done|by eapply Propose_apply_view].
  - apply machine_idle; [by left|done].
  - apply machine_handling; [by left|done..].
  - apply machine_handling; [by left|done..].
  - apply machine_handling; [by left|done..].
Qed.

Lemma repl_machine_steps s s' :
  rtc repl_step s s' → rtc machine_step (machines s) (machines s').
Proof. intros Hrtc. induction Hrtc; [done|]. eapply rtc_l; [by apply repl_machine_step|done]. Qed.

Lemma repl_machines_reachable members s :
  repl_reachable members s → machines_reachable members (machines s).
Proof. intros (s0 & [H0 _] & Hrtc). exists (machines s0). split; [done|by apply repl_machine_steps]. Qed.

(** The operations of the committed log. *)
Definition committedOps (s : System) : list Op := opsOf (st_cluster s).
End system.

Section agreement.
Context {P : Type} `{!Persister P, !PersisterLaws P}.
Context `{!Codec (persistedState Op), !Codec kvSnapshot}.
Context (members : list Z) (Hnodup : NoDup members) (Hids : ∀ i, i ∈ members → 0 ≤ i).
Abbreviation System := (System (P:=P)).
Implicit Type s : System.

Lemma replica_store s Ld i r a :
  machines_ok members (machines s) Ld →
  c_nodes (st_cluster s) !! i = Some r → st_replicas s !! i = Some a →
  0 ≤ rp_index a ≤ zlen (committedOps s) ∧
  kv_store (rp_kv a) = replay ∅ (accepted [] (upto (rp_index a) (committedOps s))).
Proof.
  intros Hok Hi Ha. destruct (replica_state members _ Ld i r a Hok Hi Ha) as [Hb Hrun].
  split; [done|]. by apply run_ops_replay in Hrun.
Qed.

(** C6: the replicas are one state machine. Key-value servers run over a
    Raft cluster whose network and nodes may do anything RaftSafety allows,
    serving requests, taking snapshots, installing a leader's and restarting
    from their own, with messages in flight between each node and its server;
    provided that no installed snapshot is behind what the node has applied
    and no entry is handed over while a snapshot waits. Then every server's
    store is what at-most-once application of the first so many operations of
    the one committed log gives, and that log only grows at its end. *)
Theorem replicas_are_one_machine s s' :
  repl_reachable members s → rtc repl_step s s' →
  committedOps s `prefix_of` committedOps s' ∧
  ∀ i r a, c_nodes (st_cluster s) !! i = Some r → st_replicas s !! i = Some a →
    0 ≤ rp_index a ≤ zlen (committedOps s) ∧
    kv_store (rp_kv a) = replay ∅ (accepted [] (upto (rp_index a) (committedOps s))).
Proof.
  intros (Ld & Hok)%repl_machines_reachable%(machines_reachable_ok members Hnodup Hids) Hrtc. split.
  - apply repl_machine_steps in Hrtc.
    destruct (machine_steps_ok members Hnodup Hids _ _ Ld Hok Hrtc) as (_ & _ & Hp).
    by apply opsOf_prefix.
  - intros i r a. by eapply replica_store.
Qed.
End agreement.

(** ** Witnesses *)
Module Witness.
#[local] Instance op_codec : Codec (persistedState Op) := countable_codec.
#[local] Instance snapshot_codec : Codec kvSnapshot := countable_codec.

Abbreviation KVCluster := (Cluster (Cmd:=Op) (P:=MemoryPersister)).
Abbreviation KVSystem := (System (P:=MemoryPersister)).

(** A leader's log is no longer than before. *)
Definition leaders_keep (c c' : KVCluster) : Prop :=
  map_Forall (λ i r', r_state r' = Leader →
    ∀ r, c_nodes c !! i = Some r → zlen (r_log r') ≤ zlen (r_log r)) (c_nodes c').

#[local] Instance leaders_keep_dec c c' : Decision (leaders_keep c c').
Proof.
  apply map_Forall_dec. intros i r'. destruct (decide (r_state r' = Leader)) as [Hl|]; [|left; done].
  destruct (c_nodes c !! i) as [r|]; [|left; done].
  destruct (decide (zlen (r_log r') ≤ zlen (r_log r))); [left|right]; naive_solver.
Defined.

Lemma no_proposal (c c' : KVCluster) op : leaders_keep c c' → ¬ proposes c c' op.
Proof.
  intros Hk (i & r & r' & res & Hi & Hs & H & ->).
  destruct (Propose_view _ _ _ _ H) as [[? _]|(_ & p & [n ->]%advanceCommitIndex_inv)]; [done|].
  specialize (Hk i (set_commitIndex n (proposed r op p))). simpl in Hk.
  rewrite lookup_insert_eq in Hk. specialize (Hk eq_refl Hs r Hi). rewrite zlen_app in Hk.
  unfold zlen in Hk. simpl in Hk. lia.
Qed.

(** Run cluster steps that leave the servers' view of their nodes alone. *)
Definition raft_run (c : KVCluster) (acts : list (Action (Cmd:=Op))) : option KVCluster :=
  foldl (λ o act, c ← o; c' ← perform_outside c act;
    if decide (leaders_keep c c') then Some c' else None) (Some c) acts.

Lemma raft_run_sound acts c' (s : KVSystem) :
  raft_run (st_cluster s) acts = Some c' → rtc repl_step s (with_cluster c' s).
Proof.
  unfold raft_run. revert s. induction acts as [|act acts IH]; intros s; simpl.
  { intros [= <-]. by destruct s. }
  destruct (perform_outside (st_cluster s) act) as [c1|] eqn:H1; simpl.
  - destruct (decide _) as [Hk|].
    + intros H. eapply rtc_l; [|apply (IH (with_cluster c1 s) H)]. unfold perform_outside in H1.
      apply bind_Some in H1 as (c2 & Hp & H1). destruct (decide _) as [Hv|]; [|done].
      injection H1 as ->. apply rs_raft; [by apply perform_sound in Hp|done|].
      intros op. by apply no_proposal.
    + intros H. exfalso. clear -H. induction acts; simpl in H; [done|auto].
  - intros H. exfalso. clear -H. induction acts; simpl in H; [done|auto].
Qed.

(** ** Executions by evaluation *)

Inductive Act :=
| DRaft (acts : list (Action (Cmd:=Op)))
| DNoop (i : Z)
| DSend (i : Z) (args : PutAppendArgs)
| DPropose (i : Z) (args : PutAppendArgs)
| DRegister (i : Z)
| DApply (act : ApplyAct)
| DSelect (i : Z) (case : SelectCase)
| DReturn (i : Z).

Definition do_act (s : KVSystem) (act : Act) : option KVSystem :=
  match act with
  | DRaft acts => c' ← raft_run (st_cluster s) acts; Some (with_cluster c' s)
  | DNoop i =>
      r ← c_nodes (st_cluster s) !! i;
      match Propose r noop with
      | Ret (r', _) => Some (with_cluster (update (st_cluster s) i r' []) s)
      | Panic => None
      end
  | DSend i args => Some (request i args s)
  | DPropose i args =>
      r ← c_nodes (st_cluster s) !! i; a ← st_replicas s !! i;
      if decide ((i, args) ∈ st_requests s) then
        match PutAppend_propose (set_rf r (rp_kv a)) args (st_chans s) with
        | Ret (kv', inl w) =>
            Some (next_chan (moves i (kv_rf kv') (handling kv' (mkCall args w None :: rp_calls a) a) s))
        | Ret (_, inr e) => Some (answer i args e s)
        | Panic => None
        end
      else None
  | DRegister i =>
      a ← st_replicas s !! i; call ← head (rp_calls a);
      if decide (wt_chans (kv_waiters (rp_kv a)) !! w_ch (ca_w call) = None)
      then Some (with_replica i (handling (PutAppend_register (rp_kv a) (ca_w call)) (rp_calls a) a) s)
      else None
  | DApply act => x ← perform_apply (machines s) act; Some (with_machines x s)
  | DSelect i case =>
      r ← c_nodes (st_cluster s) !! i; a ← st_replicas s !! i;
      match rp_calls a with
      | call :: calls =>
          match ca_answer call, wt_chans (kv_waiters (rp_kv a)) !! w_ch (ca_w call),
                PutAppend_select (set_rf r (rp_kv a)) (ca_w call) case with
          | None, Some _, Some e =>
              Some (with_replica i
                (handling (rp_kv a) (mkCall (ca_args call) (ca_w call) (Some e) :: calls) a) s)
          | _, _, _ => None
          end
      | [] => None
      end
  | DReturn i =>
      a ← st_replicas s !! i;
      match rp_calls a with
      | call :: calls =>
          e ← ca_answer call;
          Some (answer i (ca_args call) e
            (with_replica i (handling (PutAppend_return (rp_kv a) (ca_w call)) calls a) s))
      | [] => None
      end
  end.

Definition do_acts (s : KVSystem) (acts : list Act) : option KVSystem :=
  foldl (λ o act, s ← o; do_act s act) (Some s) acts.

Lemma do_act_sound s act s' : do_act s act = Some s' → rtc repl_step s s'.
Proof.
  destruct act as [acts|i|i args|i args|i|act|i case|i]; simpl; intros H.
  - apply bind_Some in H as (c' & H & [= <-]). by eapply raft_run_sound.
  - apply bind_Some in H as (r & Hi & H). destruct (Propose r noop) as [[r' res]|] eqn:Hp; [|done].
    injection H as <-. apply rtc_once. by eapply rs_noop.
  - injection H as <-. apply rtc_once, rs_send.
  - apply bind_Some in H as (r & Hi & (a & Ha & H)%bind_Some). destruct (decide _) as [Hin|]; [|done].
    destruct (PutAppend_propose _ _ _) as [[kv' [w|e]]|] eqn:Hp; [| |done]; injection H as <-;
      apply rtc_once; [by eapply rs_propose|by eapply rs_refuse].
  - apply bind_Some in H as (a & Ha & (call & Hc & H)%bind_Some). destruct (decide _); [|done].
    injection H as <-. apply rtc_once, rs_register; [done| |done]. by apply head_Some_elem_of.
  - apply bind_Some in H as (x & H%perform_apply_sound & [= <-]). by apply rtc_once, rs_apply.
  - apply bind_Some in H as (r & Hi & (a & Ha & H)%bind_Some).
    destruct (rp_calls a) as [|call calls] eqn:Hc; [done|].
    destruct (ca_answer call) eqn:Han; [done|]. destruct (wt_chans _ !! _) eqn:Hw; [|done].
    destruct (PutAppend_select _ _ _) eqn:Hs; [|done]. injection H as <-.
    apply rtc_once. eapply (rs_select s i r a call calls); try done; by rewrite ?Hc.
  - apply bind_Some in H as (a & Ha & H).
    destruct (rp_calls a) as [|call calls] eqn:Hc; [done|].
    apply bind_Some in H as (e & He & [= <-]).
    apply rtc_once. apply rs_return; [done|by rewrite Hc|done].
Qed.

Lemma do_acts_sound acts s s' : do_acts s acts = Some s' → rtc repl_step s s'.
Proof.
  unfold do_acts. revert s. induction acts as [|act acts IH]; intros s; simpl; [by intros [= ->]|].
  destruct (do_act s act) as [s1|] eqn:H1; simpl.
  - intros H. etransitivity; [by eapply do_act_sound|by apply IH].
  - intros H. exfalso. clear -H. induction acts; simpl in H; [done|auto].
Qed.

Definition new_service (r : Raft Op MemoryPersister) : Service :=
  mkService (mkKVServer r ∅ noWaiters ∅ (-1) 0) [].

Definition kv_system : KVSystem :=
  let x := fresh_machines Demo.members new_service in mkSystem x.1 x.2 [] [] 0.

Lemma kv_system_init : repl_init Demo.members kv_system.
Proof.
  split; [by apply (fresh_machines_init Demo.members new_service)|split_and!; [done..|]].
  intros i a (r & Ha & _)%(fresh_machines_replica Demo.members new_service).
  unfold rp_kv, rp_calls. by rewrite Ha.
Qed.

(** Node 0 is elected. *)
Definition elect : list (Action (Cmd:=Op)) :=
  [ ATimeout 0; ABeginElection; ADeliver 0; AVoteReply 0 0 ].

(** A client's Put: node 0 proposes it, commits it with node 1 and applies it;
    the handler is notified and replies; node 1 hears of the commit. *)
Definition put_args : PutAppendArgs := mkPutAppendArgs "x" "a" "Put" 7 1.
Definition serve_put : list Act :=
  [ DSend 0 put_args; DPropose 0 put_args; DRegister 0;
    DRaft [AReplicate 0 1; ADeliver 0; AReply 0];
    DApply (ETake 0); DApply (EProcess 0); DSelect 0 SelNotified; DReturn 0;
    DRaft [AReplicate 0 1; ADeliver 0]; DApply (ETake 1); DApply (EProcess 1) ].

Definition system_of (o : option KVSystem) : KVSystem := default kv_system o.
Definition kv_elected : KVSystem := system_of (do_act kv_system (DRaft elect)).
Definition kv_served : KVSystem := system_of (do_acts kv_elected serve_put).

Lemma kv_elected_reachable : repl_reachable Demo.members kv_elected.
Proof.
  exists kv_system. split; [apply kv_system_init|]. eapply (do_act_sound _ (DRaft elect)).
  vm_compute. reflexivity.
Qed.

Lemma kv_served_after : rtc repl_step kv_elected kv_served.
Proof. eapply (do_acts_sound serve_put). vm_compute. reflexivity. Qed.

Lemma kv_served_reachable : repl_reachable Demo.members kv_served.
Proof.
  destruct kv_elected_reachable as (s0 & H0 & Hrtc). exists s0. split; [done|].
  etransitivity; [exact Hrtc|exact kv_served_after].
Qed.

(** Both servers have the Put, and so its one-operation log. *)
Lemma replicas_are_one_machine_witness :
  repl_reachable Demo.members kv_served ∧ (0, put_args, OK) ∈ st_replies kv_served ∧
  committedOps kv_elected `prefix_of` committedOps kv_served ∧
  ∃ r0 r1 a0 a1, c_nodes (st_cluster kv_served) !! 0 = Some r0 ∧
    c_nodes (st_cluster kv_served) !! 1 = Some r1 ∧
    st_replicas kv_served !! 0 = Some a0 ∧ st_replicas kv_served !! 1 = Some a1 ∧
    kv_store (rp_kv a0) !! "x"%string = Some "a"%string ∧
    kv_store (rp_kv a1) = kv_store (rp_kv a0).
Proof.
  pose proof (replicas_are_one_machine Demo.members (proj1 RaftSafety.Witness.members_ok)
    (proj2 RaftSafety.Witness.members_ok)) as Hone.
  split; [exact kv_served_reachable|]. split; [vm_compute; by left|].
  split; [by apply (Hone _ _ kv_elected_reachable kv_served_after)|].
  destruct (Hone _ _ kv_served_reachable (rtc_refl _ _)) as [_ Hst].
  eexists _, _, _, _. do 4 (split; [vm_compute; reflexivity|]). split; [vm_compute; reflexivity|].
  edestruct (Hst 0) as [_ H0]; [vm_compute; reflexivity..|].
  edestruct (Hst 1) as [_ H1]; [vm_compute; reflexivity..|].
  rewrite H0, H1. reflexivity.
Defined.
End Witness.
