(* ===== verification/KVReads.v ===== *)
(** * What a Get sees

    A Get is answered from the store of one node, without going through the
    log; the no-op of the leader's term is what keeps it from missing what
    earlier leaders committed. *)
From S2P Require Import Prelude Persister Dedup Waiters RaftNode RaftFacts RaftDurable RaftVotes RaftLog RaftDemo RaftPositions RaftCommit RaftCluster RaftDivergence RaftGhost RaftLogMatching RaftChosen RaftSafety RaftCommitted Replicated KVServer KVServerFacts ReplicatedKV.
Local Open Scope Z_scope.

Section reads.
Context {P : Type} `{!Persister P, !PersisterLaws P}.
Context `{!Codec (persistedState Op), !Codec kvSnapshot}.
Abbreviation System := (System (P:=P)).
Context (members : list Z) (Hnodup : NoDup members) (Hids : ∀ i, i ∈ members → 0 ≤ i).
Implicit Type s : System.

Lemma steps_reachable s s' :
  repl_reachable members s → rtc repl_step s s' → repl_reachable members s'.
Proof. intros (s0 & ? & ?) ?. exists s0. split; [done|by etransitivity]. Qed.

(** C10: what a Get sees. The four critical sections of Get read the server's
    node and store at four moments [s1] .. [s4] of an execution of the system of
    ReplicatedKV.v, with anything in between but a restart that takes the server
    back. If it answers, the
    answer is the key's value after at-most-once application of the first
    [rp_index] operations of the committed log, and these include every
    committed entry of a term before the one Get read, also those that are only
    known as committed later: only entries of that term or of a newer leader
    can be missing. *)
Theorem Get_sees_earlier_terms i key s1 s2 s3 s4 r1 r2 r3 r4 a1 a2 a3 a4 :
  repl_reachable members s1 → rtc repl_step s1 s2 → rtc repl_step s2 s3 → rtc repl_step s3 s4 →
  c_nodes (st_cluster s1) !! i = Some r1 → st_replicas s1 !! i = Some a1 →
  c_nodes (st_cluster s2) !! i = Some r2 → st_replicas s2 !! i = Some a2 →
  c_nodes (st_cluster s3) !! i = Some r3 → st_replicas s3 !! i = Some a3 →
  c_nodes (st_cluster s4) !! i = Some r4 → st_replicas s4 !! i = Some a4 →
  rp_index a3 ≤ rp_index a4 →
  let reply := Get (set_rf r1 (rp_kv a1)) (set_rf r2 (rp_kv a2)) (set_rf r3 (rp_kv a3))
                   (set_rf r4 (rp_kv a4)) key in
  gr_Err reply ≠ ErrWrongLeader →
  reply = match replay ∅ (accepted [] (upto (rp_index a4) (committedOps s4))) !! key with
          | Some value => mkGetReply OK value
          | None => mkGetReply ErrNoKey ""
          end ∧
  ∀ k e, entryOf (committedLog (c_hist (st_cluster s4))) k = Some e →
    le_Term e < r_currentTerm r2 → k ≤ rp_index a4.
Proof.
  intros Hr H12 H23 H34 N1 A1 N2 A2 N3 A3 N4 A4 Hidx reply Herr.
  pose proof (steps_reachable _ _ (steps_reachable _ _ Hr H12) H23) as Hr3.
  pose proof (steps_reachable _ _ Hr3 H34) as Hr4.
  unfold reply, Get in *. clear reply. simpl in *.
  destruct (r_state r1); [done|done|].
  destruct (Z.eqb_spec (kv_noopAppliedTerm (rp_kv a3)) (r_currentTerm r2)) as [Hno|]; [|done].
  simpl in *. split.
  - destruct (machines_reachable_ok members Hnodup Hids _ (repl_machines_reachable _ _ Hr4)) as (Ld & Hok).
    destruct (replica_store members s4 Ld i r4 a4 Hok N4 A4) as [_ <-].
    unfold get. simpl. by destruct (_ !! _).
  - intros k e He Hlt. etransitivity; [|exact Hidx].
    destruct (machines_reachable_ok members Hnodup Hids _ (repl_machines_reachable _ _ Hr3)) as (Ld & Hok).
    apply (noop_passes members Hnodup Hids (machines s3) (machines s4) Ld i r3 a3 k e); try done.
    + by apply repl_machine_steps.
    + simpl. unfold rp_kv in Hno. lia.
Qed.
End reads.

(** ** Witness *)
Module Witness.
Import ReplicatedKV.Witness.
#[local] Existing Instances op_codec snapshot_codec.

(** Node 0 commits and applies its no-op, then a Put. *)
Definition ready_acts : list Act :=
  [ DNoop 0; DRaft [AReplicate 0 1; ADeliver 0; AReply 0]; DApply (ETake 0); DApply (EProcess 0) ].
Definition kv_ready : KVSystem := system_of (do_acts kv_elected ready_acts).
Definition put_acts : list Act :=
  [ DSend 0 put_args; DPropose 0 put_args; DRegister 0;
    DRaft [AReplicate 0 1; ADeliver 0; AReply 0]; DApply (ETake 0); DApply (EProcess 0) ].
Definition kv_put : KVSystem := system_of (do_acts kv_ready put_acts).

Lemma ready_after : rtc repl_step kv_elected kv_ready.
Proof. eapply (do_acts_sound ready_acts). vm_compute. reflexivity. Qed.

Lemma put_after : rtc repl_step kv_ready kv_put.
Proof. eapply (do_acts_sound put_acts). vm_compute. reflexivity. Qed.

(** The node and the replica of node 0. *)
Definition node0 (s : KVSystem) := default (freshRaft 0 [] None) (c_nodes (st_cluster s) !! 0).
Definition replica0 (s : KVSystem) := default (mkReplica (new_service (freshRaft 0 [] None)) 0 []) (st_replicas s !! 0).

Lemma Get_sees_earlier_terms_witness :
  Get (set_rf (node0 kv_ready) (rp_kv (replica0 kv_ready)))
      (set_rf (node0 kv_ready) (rp_kv (replica0 kv_ready)))
      (set_rf (node0 kv_ready) (rp_kv (replica0 kv_ready)))
      (set_rf (node0 kv_put) (rp_kv (replica0 kv_put))) "x" = mkGetReply OK "a" ∧
  ∀ k e, entryOf (committedLog (c_hist (st_cluster kv_put))) k = Some e →
    le_Term e < r_currentTerm (node0 kv_ready) → k ≤ rp_index (replica0 kv_put).
Proof.
  assert (repl_reachable Demo.members kv_ready) as Hr
    by exact (steps_reachable _ _ _ kv_elected_reachable ready_after).
  destruct (Get_sees_earlier_terms Demo.members (proj1 RaftSafety.Witness.members_ok)
    (proj2 RaftSafety.Witness.members_ok) 0 "x" kv_ready kv_ready kv_ready kv_put
    (node0 kv_ready) (node0 kv_ready) (node0 kv_ready) (node0 kv_put)
    (replica0 kv_ready) (replica0 kv_ready) (replica0 kv_ready) (replica0 kv_put)
    Hr (rtc_refl _ _) (rtc_refl _ _) put_after) as [Hv Hk];
    [vm_compute; reflexivity..|by vm_compute|by vm_compute|].
  split; [|exact Hk]. rewrite Hv. vm_compute. reflexivity.
Defined.
End Witness.
