(* ===== verification/KvTest.v ===== *)
(** * The test harness (internal/kvtest/kvtest.go)

    A server's TCP face that can be crashed and started again, under every
    interleaving with its accept loops and its clients; and the cluster the
    stages' tests are built on, as an initial state of ReplicatedKV.v. *)
From S2P Require Import Prelude Persister Dedup Waiters RaftNode Transport RaftFacts RaftCluster Replicated KVServer ReplicatedKV.
Local Open Scope Z_scope.

(** ** Endpoint *)

(** Listeners and connections are names; [KV] is the server behind. *)
Record Endpoint (KV : Type) := mkEndpoint {
  ep_kv : KV;
  ep_addr : string;
  ep_l : option Z;
  ep_conns : list Z
}.
Arguments mkEndpoint {KV} _ _ _ _.
Arguments ep_kv {KV} _.
Arguments ep_addr {KV} _.
Arguments ep_l {KV} _.
Arguments ep_conns {KV} _.

(** What is open: listeners, and the server's ends of connections. *)
Record Net := mkNet { net_listeners : gset Z; net_open : gset Z }.

Section endpoint.
Context {KV : Type}.
Abbreviation Endpoint := (Endpoint KV).
Implicit Type e : Endpoint.
Implicit Type net : Net.

Definition Addr e : string := ep_addr e.

Definition close_listener (l : Z) net : Net := mkNet (net_listeners net ∖ {[l]}) (net_open net).
Definition close_conns (cs : list Z) net : Net :=
  mkNet (net_listeners net) (net_open net ∖ list_to_set cs).

(** [listen]: what net.Listen returns, an open listener and its address;
    [registered]: whether RegisterName accepts the server. The last component
    is the accept loop it starts, or the error. *)
Definition Start e net (listen : option (Z * string)) (registered : bool) :
    Endpoint * Net * option Z :=
  match listen with
  | None => (e, net, None)
  | Some (l, addr) =>
      let e := mkEndpoint (ep_kv e) addr (Some l) [] in
      let net := mkNet ({[l]} ∪ net_listeners net) (net_open net) in
      if registered then (e, net, Some l) else (e, close_listener l net, None)
  end.

(** The locked part of the accept loop of [l] that holds connection [c]: true
    if it goes on and serves [c]. *)
Definition takeConn e net (l c : Z) : Endpoint * Net * bool :=
  if decide (ep_l e = Some l)
  then (mkEndpoint (ep_kv e) (ep_addr e) (ep_l e) (ep_conns e ++ [c]), net, true)
  else (e, close_conns [c] net, false).

Definition running e : bool := match ep_l e with Some _ => true | None => false end.

Definition Crash e net : Endpoint * Net :=
  match ep_l e with
  | None => (e, net)
  | Some l =>
      (mkEndpoint (ep_kv e) (ep_addr e) None [], close_conns (ep_conns e) (close_listener l net))
  end.

(** *** Every interleaving *)

(** With the accept loops waiting in Accept, the connections they hold between
    Accept and the lock, and the next unused name. *)
Record EpSys := mkEpSys {
  es_ep : Endpoint;
  es_net : Net;
  es_loops : list Z;
  es_accepted : list (Z * Z);
  es_next : Z
}.

(** A listener is new, and its address is free: an endpoint cannot listen
    where its own listener still does. *)
Definition listens (s : EpSys) (listen : option (Z * string)) : Prop :=
  match listen with
  | None => True
  | Some (l, _) => l = es_next s ∧ ∀ l', ep_l (es_ep s) = Some l' → l' ∉ net_listeners (es_net s)
  end.

Inductive ep_step : EpSys → EpSys → Prop :=
| eps_start e net L A n listen registered e' net' loop :
    listens (mkEpSys e net L A n) listen →
    Start e net listen registered = (e', net', loop) →
    ep_step (mkEpSys e net L A n) (mkEpSys e' net' (option_list loop ++ L) A (n + 1))
| eps_accept e net L L' A n l :
    L ≡ₚ l :: L' → l ∈ net_listeners net →
    ep_step (mkEpSys e net L A n)
      (mkEpSys e (mkNet (net_listeners net) ({[n]} ∪ net_open net)) L' ((l, n) :: A) (n + 1))
| eps_accept_fails e net L L' A n l :
    L ≡ₚ l :: L' → l ∉ net_listeners net →
    ep_step (mkEpSys e net L A n) (mkEpSys e net L' A n)
| eps_take e net L A A' n l c e' net' (on : bool) :
    A ≡ₚ (l, c) :: A' → takeConn e net l c = (e', net', on) →
    ep_step (mkEpSys e net L A n) (mkEpSys e' net' (if on then l :: L else L) A' n)
| eps_hangup e net L A n c :
    ep_step (mkEpSys e net L A n) (mkEpSys e (close_conns [c] net) L A n)
| eps_crash e net L A n e' net' :
    Crash e net = (e', net') → ep_step (mkEpSys e net L A n) (mkEpSys e' net' L A n).

Definition ep_init (s : EpSys) : Prop :=
  ∃ kv addr, s = mkEpSys (mkEndpoint kv addr None []) (mkNet ∅ ∅) [] [] 0.

(** *** Its invariant *)

Record ep_ok (s : EpSys) : Prop := {
  eo_open c : c ∈ net_open (es_net s) →
    c ∈ ep_conns (es_ep s) ∨ ∃ l, (l, c) ∈ es_accepted s;
  eo_listener l : l ∈ net_listeners (es_net s) → ep_l (es_ep s) = Some l;
  eo_loop l : l ∈ es_loops s ∨ (∃ c, (l, c) ∈ es_accepted s) →
    ep_l (es_ep s) = Some l → l ∈ net_listeners (es_net s);
  eo_down : (∀ l, ep_l (es_ep s) = Some l → l ∉ net_listeners (es_net s)) → ep_conns (es_ep s) = [];
  eo_fresh : (∀ l, ep_l (es_ep s) = Some l → l < es_next s) ∧
    (∀ l, l ∈ es_loops s → l < es_next s) ∧ (∀ l c, (l, c) ∈ es_accepted s → l < es_next s)
}.

Lemma ep_ok_init s : ep_init s → ep_ok s.
Proof. intros (kv & addr & ->). split; simpl; set_solver. Qed.

Lemma ep_start_ok e net L A n listen registered e' net' loop :
  listens (mkEpSys e net L A n) listen → Start e net listen registered = (e', net', loop) →
  ep_ok (mkEpSys e net L A n) → ep_ok (mkEpSys e' net' (option_list loop ++ L) A (n + 1)).
Proof.
  intros Hl H [Ho Hls Hlp Hd (F1 & F2 & F3)]. simpl in *.
  destruct listen as [[l addr]|]; [|injection H as <- <- <-]; simpl.
  2: { split; simpl; try done. split_and!; intros; (etransitivity; [eauto|lia]) || naive_solver lia. }
  destruct Hl as [-> Hfree]. rewrite (Hd Hfree) in Ho.
  assert (net_listeners net = ∅) as Hno by (apply elem_of_equiv_empty_L; intros l ?; naive_solver).
  assert (∀ c, c ∈ net_open net → ∃ l, (l, c) ∈ A) as Hpend.
  { intros c [[]%not_elem_of_nil|?]%Ho. done. }
  unfold Start in H. rewrite Hno in H. destruct registered; injection H as <- <- <-; split; simpl.
  - auto.
  - set_solver.
  - intros l _ [= <-]. set_solver.
  - done.
  - split_and!; [intros l [= <-]; lia| |intros; naive_solver lia].
    intros l [->|Hin]%elem_of_cons; [lia|]. apply F2 in Hin. lia.
  - auto.
  - set_solver.
  - intros l [Hin|[c Hin]] [= <-]; [apply F2 in Hin|apply F3 in Hin]; lia.
  - done.
  - split_and!; [intros l [= <-]; lia|intros l Hin%F2; lia|intros l c Hin%F3; lia].
Qed.

Lemma takeConn_ok e net L A A' n l c e' net' (on : bool) :
  A ≡ₚ (l, c) :: A' → takeConn e net l c = (e', net', on) →
  ep_ok (mkEpSys e net L A n) → ep_ok (mkEpSys e' net' (if on then l :: L else L) A' n).
Proof.
  intros HA H [Ho Hls Hlp Hd (F1 & F2 & F3)]. simpl in *. unfold takeConn in H.
  assert (∀ x, x ∈ A ↔ x = (l, c) ∨ x ∈ A') as HAin by (intros x; rewrite HA; set_solver).
  destruct (decide (ep_l e = Some l)) as [He|He]; injection H as <- <- <-; split; simpl.
  - intros c' [Hin|[l' Hin]]%Ho; [left; set_solver|].
    apply HAin in Hin as [[= -> ->]|?]; [left; set_solver|right; eauto].
  - done.
  - intros l' [[->|Hin]%elem_of_cons|[c' Hin]] Hl'; apply Hlp; try done.
    + right. exists c. apply HAin. by left.
    + by left.
    + right. exists c'. apply HAin. by right.
  - intros Hdown. exfalso. apply (Hdown l He), Hlp; [|done]. right. exists c. apply HAin. by left.
  - split_and!; [done| |intros; eapply F3, HAin; by right].
    intros l' [->|?]%elem_of_cons; [|auto]. apply (F3 l c), HAin. by left.
  - intros c' Hc'. assert (c' ∈ net_open net ∧ c' ≠ c) as [Hin Hne] by set_solver.
    apply Ho in Hin as [?|[l' Hin]]; [by left|right]. exists l'.
    apply HAin in Hin as [[= -> ->]|?]; done.
  - done.
  - intros l' [Hin|[c' Hin]] Hl'; apply Hlp; try done; [by left|right]. exists c'. apply HAin. by right.
  - done.
  - split_and!; [done|done|intros; eapply F3, HAin; by right].
Qed.

Lemma ep_step_ok s s' : ep_ok s → ep_step s s' → ep_ok s'.
Proof.
  intros Hok Hstep. destruct Hstep as [e net L A n listen registered e' net' loop Hl H
    |e net L L' A n l HL Hin|e net L L' A n l HL Hin|e net L A A' n l c e' net' on HA H
    |e net L A n c|e net L A n e' net' H].
  - by eapply ep_start_ok.
  - destruct Hok as [Ho Hls Hlp Hd (F1 & F2 & F3)]. simpl in *.
    assert (∀ x, x ∈ L ↔ x = l ∨ x ∈ L') as HLin by (intros x; rewrite HL; set_solver).
    assert (l < n) by (apply F2, HLin; by left). split; simpl.
    + intros c [->%elem_of_singleton|Hc]%elem_of_union; [right; exists l; by left|].
      destruct (Ho c Hc) as [?|[l' ?]]; [by left|right; exists l'; by right].
    + done.
    + intros l' [Hl'|[c [[= -> ->]|Hc]%elem_of_cons]] He; [|done|].
      * apply Hlp; [left; apply HLin; by right|done].
      * apply Hlp; [right; by exists c|done].
    + done.
    + split_and!; [intros l' ?%F1; lia|intros l' Hl'; pose proof (F2 l' (proj2 (HLin l') (or_intror Hl'))); lia|].
      intros l' c [[= -> ->]|Hc%F3]%elem_of_cons; lia.
  - destruct Hok as [Ho Hls Hlp Hd (F1 & F2 & F3)]. simpl in *.
    assert (∀ x, x ∈ L ↔ x = l ∨ x ∈ L') as HLin by (intros x; rewrite HL; set_solver).
    split; simpl; try done.
    + intros l' [Hl'|Hc] He; apply Hlp; try done; [left; apply HLin; by right|by right].
    + split_and!; [done| |done]. intros l' Hl'. apply F2, HLin. by right.
  - by eapply takeConn_ok.
  - destruct Hok as [Ho Hls Hlp Hd HF]. split; simpl in *; try done. intros c' Hc'. apply Ho. set_solver.
  - destruct Hok as [Ho Hls Hlp Hd (F1 & F2 & F3)]. unfold Crash in H. simpl in *.
    destruct (ep_l e) as [l|] eqn:He; injection H as <- <-; simpl; [|by split; simpl; rewrite ?He].
    split; simpl; try done.
    + intros c Hc. destruct (Ho c) as [?|?]; [set_solver|set_solver|by right].
    + intros l' Hl'. assert (l' ∈ net_listeners net ∧ l' ≠ l) as [?%Hls ?] by set_solver. congruence.
Qed.

Lemma ep_reachable_ok s0 s : ep_init s0 → rtc ep_step s0 s → ep_ok s.
Proof. intros H0%ep_ok_init Hrtc. induction Hrtc; eauto using ep_step_ok. Qed.

(** *** What a crash does *)

(** Whatever the endpoint listens with or serves is younger than [n]. *)
Record younger (n : Z) (s : EpSys) : Prop := {
  yo_listener l : ep_l (es_ep s) = Some l → n ≤ l;
  yo_conns c : c ∈ ep_conns (es_ep s) → n ≤ c;
  yo_accepted l c : (l, c) ∈ es_accepted s → n ≤ l → n ≤ c;
  yo_next : n ≤ es_next s
}.

Lemma younger_step n s s' : younger n s → ep_step s s' → younger n s'.
Proof.
  intros [Hl Hc Ha Hn] Hstep. destruct Hstep as [e net L A m listen registered e' net' loop Hls H
    |e net L L' A m l HL Hin|e net L L' A m l HL Hin|e net L A A' m l c e' net' on HA H
    |e net L A m c|e net L A m e' net' H]; simpl in *; try done.
  - destruct listen as [[l addr]|]; [|injection H as <- <- <-; split; simpl; auto with lia].
    destruct Hls as [-> _].
    destruct registered; injection H as <- <- <-; (split; simpl; [|set_solver|done|lia]);
      by intros l [= <-].
  - split; simpl; try done; [|lia]. intros l' c [[= -> ->]|Hin']%elem_of_cons; eauto with lia.
  - unfold takeConn in H. assert ((l, c) ∈ A) as HlA by (rewrite HA; by left).
    assert (∀ x, x ∈ A' → x ∈ A) as Hsub by (intros x ?; rewrite HA; by right).
    destruct (decide (ep_l e = Some l)) as [He|He]; injection H as <- <- <-; split; simpl; eauto.
    intros c' [?|Hc'%list_elem_of_singleton]%elem_of_app; [auto|]. subst c'. eauto.
  - unfold Crash in H. destruct (ep_l e) as [l|] eqn:He; injection H as <- <-; split; simpl; try done;
      [set_solver|by rewrite He].
Qed.

(** A crash severs. Whatever an endpoint, its accept loops and its
    clients have done, after Crash nothing listens, every connection that was
    being served is closed - what is still open are connections between Accept
    and the lock - and no connection from before the crash is ever served
    again, however often the endpoint is started afterwards: a connection
    served later was accepted later. *)
Theorem Crash_severs s0 s e' net' :
  ep_init s0 → rtc ep_step s0 s → Crash (es_ep s) (es_net s) = (e', net') →
  let s1 := mkEpSys e' net' (es_loops s) (es_accepted s) (es_next s) in
  running e' = false ∧ net_listeners net' = ∅ ∧
  (∀ c, c ∈ net_open net' → ∃ l, (l, c) ∈ es_accepted s) ∧
  ∀ s2, rtc ep_step s1 s2 → ∀ c, c ∈ ep_conns (es_ep s2) → es_next s ≤ c.
Proof.
  intros H0 Hrtc H s1. pose proof (ep_reachable_ok _ _ H0 Hrtc) as Hok.
  assert (ep_step s s1) as Hstep by (destruct s; by apply eps_crash).
  pose proof (ep_step_ok _ _ Hok Hstep) as [Ho Hls _ _ _]. simpl in *.
  assert (ep_l e' = None ∧ ep_conns e' = []) as [He Hc].
  { unfold Crash in H. destruct (ep_l (es_ep s)) eqn:He; injection H as <- <-; [done|].
    split; [done|]. apply (eo_down _ Hok). by rewrite He. }
  split_and!.
  - unfold running. by rewrite He.
  - apply elem_of_equiv_empty_L. intros l Hl%Hls. congruence.
  - intros c [Hin|?]%Ho; [|done]. rewrite Hc in Hin. by apply not_elem_of_nil in Hin.
  - intros s2 Hs2. assert (younger (es_next s) s2) as Hy.
    { assert (younger (es_next s) s1) as Hy1.
      { split; simpl; [by rewrite He|rewrite Hc; by intros c []%not_elem_of_nil| |lia].
        intros l c Hin Hle. apply (eo_fresh _ Hok) in Hin. lia. }
      clear -Hy1 Hs2. induction Hs2; eauto using younger_step. }
    apply Hy.
Qed.
End endpoint.

(** ** Cluster *)

Section cluster.
Context {P : Type} `{!Persister P, !Codec (persistedState Op), !Codec kvSnapshot}.
Abbreviation KVServer := (KVServer P).
(** An endpoint refers to its server by number. *)
Abbreviation Endpoint := (Endpoint Z).

Record KvCluster := mkKvCluster {
  kc_Nodes : gmap Z (Raft Op P);
  kc_KVs : list KVServer;
  kc_Endpoints : list Endpoint;
  kc_Transport : FakeTransport Z;
  kc_Addrs : list string;
  kc_net : Net
}.
Implicit Type k : KvCluster.

Definition emptyCluster : KvCluster := mkKvCluster ∅ [] [] NewFakeTransport [] (mkNet ∅ ∅).

(** One round of NewCluster's loop over the ids, which come in order, so that
    the entries of its slices are appended. [None]: tb.Fatalf. *)
Definition addNode (ids : list Z) (maxRaftState : Z) (listen : option (Z * string)) (id : Z) k :
    outcome (option KvCluster) :=
  let peers := filter (λ o, o ≠ id) ids in
  rf ← NewRaft id peers;
  kv ← NewKVServer rf maxRaftState;
  let '(e, net, loop) := Start (mkEndpoint id "127.0.0.1:0" None []) (kc_net k) listen true in
  match loop with
  | None => Ret None
  | Some _ =>
      Ret (Some (mkKvCluster (<[id := rf]> (kc_Nodes k)) (kc_KVs k ++ [kv])
                   (kc_Endpoints k ++ [e]) (Register id id (kc_Transport k))
                   (kc_Addrs k ++ [Addr e]) net))
  end.

Fixpoint addNodes (ids : list Z) (maxRaftState : Z) (listen : Z → option (Z * string))
    (todo : list Z) k : outcome (option KvCluster) :=
  match todo with
  | [] => Ret (Some k)
  | id :: todo =>
      res ← addNode ids maxRaftState (listen id) id k;
      match res with
      | Some k => addNodes ids maxRaftState listen todo k
      | None => Ret None
      end
  end.

(** NewCluster up to the start of the nodes' loops. *)
Definition NewCluster_boot (n maxRaftState : Z) (listen : Z → option (Z * string)) :
    outcome (option KvCluster) :=
  addNodes (seqZ 0 n) maxRaftState listen (seqZ 0 n) emptyCluster.

(** [views]: the servers as the four sections of each Get find them. *)
Definition serving (views : list (KVServer * KVServer * KVServer * KVServer)) : bool :=
  existsb (λ '(kv1, kv2, kv3, kv4),
    match gr_Err (Get kv1 kv2 kv3 kv4 "kvtest-ready") with ErrWrongLeader => false | _ => true end)
    views.

(** The polls before the deadline: whether NewCluster returns. *)
Fixpoint awaitServing (polls : list (list (KVServer * KVServer * KVServer * KVServer))) : bool :=
  match polls with
  | [] => false
  | views :: polls => if serving views then true else awaitServing polls
  end.

Fixpoint CrashAll (es : list Endpoint) (net : Net) : list Endpoint * Net :=
  match es with
  | [] => ([], net)
  | e :: es =>
      let '(e, net) := Crash e net in
      let '(es, net) := CrashAll es net in (e :: es, net)
  end.

(** The last component is false if a Start failed. *)
Fixpoint RestartAll (es : list Endpoint) (listen : Z → option (Z * string)) (net : Net) :
    list Endpoint * Net * bool :=
  match es with
  | [] => ([], net, true)
  | e :: es =>
      if running e then
        let '(es, net, ok) := RestartAll es listen net in (e :: es, net, ok)
      else
        let '(e, net, loop) := Start e net (listen (ep_kv e)) true in
        match loop with
        | None => (e :: es, net, false)
        | Some _ => let '(es, net, ok) := RestartAll es listen net in (e :: es, net, ok)
        end
  end.

(** The nodes' and servers' loops stop as well. *)
Definition Close k : list Endpoint * Net := CrashAll (kc_Endpoints k) (kc_net k).

Lemma CrashAll_down es net : Forall (λ e, running e = false) (CrashAll es net).1.
Proof.
  revert net. induction es as [|e es IH]; intros net; simpl; [done|].
  destruct (Crash e net) as [e' net'] eqn:Hc. pose proof (IH net') as H.
  destruct (CrashAll es net') as [es' net'']. simpl in *. constructor; [|done].
  unfold Crash in Hc. unfold running. destruct (ep_l e) eqn:He; injection Hc as <- _; [done|by rewrite He].
Qed.

Lemma RestartAll_up es listen net es' net' :
  RestartAll es listen net = (es', net', true) → Forall (λ e, running e = true) es'.
Proof.
  revert net es' net'. induction es as [|e es IH]; intros net es' net'; simpl; [by intros [= <- _]|].
  destruct (running e) eqn:Hr.
  - destruct (RestartAll es listen net) as [[es1 net1] ok] eqn:H. intros [= <- <- ->].
    constructor; [done|by eapply IH].
  - destruct (Start e net (listen (ep_kv e)) true) as [[e1 net1] [l|]] eqn:Hs; [|done].
    destruct (RestartAll es listen net1) as [[es1 net2] ok] eqn:H. intros [= <- <- ->].
    constructor; [|by eapply IH]. unfold Start in Hs.
    destruct (listen (ep_kv e)) as [[l' addr]|]; [|done]. by injection Hs as <- _ _.
Qed.

(** *** The cluster it builds *)

(** The system of ReplicatedKV.v it starts, before any loop has run. *)
Definition booted k : System (P:=P) :=
  mkSystem (mkCluster (kc_Nodes k) [] [] [] [])
    (list_to_map (imap (λ i kv, (Z.of_nat i, mkReplica (mkService kv []) 0 [])) (kc_KVs k))) [] [] 0.

(** After the nodes below [m]. *)
Record built (ids : list Z) (maxRaftState : Z) (listen : Z → option (Z * string)) (m : Z) k : Prop := {
  bu_nodes id : kc_Nodes k !! id =
    if decide (0 ≤ id < m) then Some (freshRaft id (peers_of ids id) None) else None;
  bu_kvs : kc_KVs k = map (λ id, mkKVServer (freshRaft id (peers_of ids id) None) ∅ noWaiters ∅
                                   maxRaftState 0) (seqZ 0 m);
  bu_routes id : ft_peers (kc_Transport k) !! id = if decide (0 ≤ id < m) then Some id else None;
  bu_whole : ft_partition (kc_Transport k) = None;
  bu_addrs : kc_Addrs k = map Addr (kc_Endpoints k) ∧
    kc_Addrs k = map (λ id, default "" (snd <$> listen id)) (seqZ 0 m);
  bu_running : Forall (λ e, running e = true) (kc_Endpoints k)
}.

Lemma seqZ_snoc m : 0 ≤ m → seqZ 0 (m + 1) = seqZ 0 m ++ [m].
Proof. intros Hm. rewrite seqZ_app by lia. by rewrite Z.add_0_l. Qed.

Lemma addNode_built ids max listen m k :
  0 ≤ m → is_Some (listen m) → built ids max listen m k →
  ∃ k', addNode ids max (listen m) m k = Ret (Some k') ∧ built ids max listen (m + 1) k'.
Proof.
  intros Hm [[l addr] Hl] [H1 H2 H3 H4 [H5 H5'] H6]. unfold addNode. rewrite Hl. simpl.
  eexists. split; [reflexivity|]. split; simpl.
  - intros id. destruct (decide (id = m)) as [->|Hne].
    + rewrite lookup_insert_eq, decide_True by lia. done.
    + rewrite lookup_insert_ne by done. rewrite H1.
      destruct (decide (0 ≤ id < m)), (decide (0 ≤ id < m + 1)); done || lia.
  - rewrite H2, seqZ_snoc, map_app by done. done.
  - intros id. unfold Register. simpl. destruct (decide (id = m)) as [->|Hne].
    + rewrite lookup_insert_eq, decide_True by lia. done.
    + rewrite lookup_insert_ne by done. rewrite H3.
      destruct (decide (0 ≤ id < m)), (decide (0 ≤ id < m + 1)); done || lia.
  - done.
  - rewrite map_app. split; [by rewrite H5|].
    rewrite H5', seqZ_snoc, map_app by done. simpl. by rewrite Hl.
  - apply Forall_app. split; [done|]. by repeat constructor.
Qed.

Lemma addNodes_built ids max listen (j : nat) m k :
  0 ≤ m → (∀ id, m ≤ id < m + Z.of_nat j → is_Some (listen id)) → built ids max listen m k →
  ∃ k', addNodes ids max listen (seqZ m (Z.of_nat j)) k = Ret (Some k') ∧
    built ids max listen (m + Z.of_nat j) k'.
Proof.
  revert m k. induction j as [|j IH]; intros m k Hm Hl Hb.
  { exists k. rewrite Z.add_0_r. done. }
  rewrite Nat2Z.inj_succ, <- Z.add_1_r, seqZ_cons by lia. simpl.
  destruct (addNode_built ids max listen m k Hm) as (k1 & -> & Hb1); [apply Hl; lia|done|].
  simpl. destruct (IH (m + 1) k1) as (k2 & H2 & Hb2); [lia|intros; apply Hl; lia|done|].
  replace (Z.pred (Z.of_nat j + 1)) with (Z.of_nat j) by lia. replace (Z.succ m) with (m + 1) by lia.
  exists k2. split; [exact H2|]. by replace (m + (Z.of_nat j + 1)) with (m + 1 + Z.of_nat j) by lia.
Qed.

(** C20: the cluster of the tests is one the theorems are about. If every
    endpoint can listen, NewCluster builds nodes 0 .. n-1, each with all the
    others as its peers and registered with the transport, servers on fresh
    nodes, and running endpoints at the addresses it reports - and that is an
    initial state of the system of ReplicatedKV.v, so what is proved of its
    executions holds of the executions the tests observe. *)
Theorem NewCluster_boots n max listen :
  0 ≤ n → (∀ id, 0 ≤ id < n → is_Some (listen id)) →
  ∃ k, NewCluster_boot n max listen = Ret (Some k) ∧ built (seqZ 0 n) max listen n k ∧
    repl_init (seqZ 0 n) (booted k).
Proof.
  intros Hn Hl. unfold NewCluster_boot.
  destruct (addNodes_built (seqZ 0 n) max listen (Z.to_nat n) 0 emptyCluster) as (k & Hk & Hb).
  - lia.
  - intros id Hid. apply Hl. lia.
  - split; simpl; try done; intros id; rewrite lookup_empty; by rewrite decide_False by lia.
  - rewrite Z2Nat.id in Hk, Hb by done. exists k. split_and!; [exact Hk|exact Hb|].
    assert (∀ i a, st_replicas (booted k) !! i = Some a → ∃ id, rp_srv a = mkService
      (mkKVServer (freshRaft id (peers_of (seqZ 0 n) id) None) ∅ noWaiters ∅ max 0) [] ∧
      rp_index a = 0 ∧ rp_queue a = []) as Hrep.
    { intros i a Ha. apply elem_of_list_to_map_2 in Ha.
      apply list_elem_of_lookup in Ha as (j & Hj). rewrite list_lookup_imap in Hj.
      apply fmap_Some in Hj as (kv & Hkv & [= -> ->]).
      rewrite (bu_kvs _ _ _ _ _ Hb) in Hkv. apply list_lookup_fmap_Some in Hkv as (id & -> & _). by exists id. }
    split; [split|split_and!; [done|done|]].
    + split_and!; try done. intros i r Hi. simpl in Hi. rewrite (bu_nodes _ _ _ _ _ Hb) in Hi.
      destruct (decide _) as [Hd|]; [|done]. injection Hi as <-. split; [apply elem_of_seqZ; lia|].
      by exists None.
    + intros i a (id & Ha & Hidx & Hq)%Hrep. rewrite Ha, Hidx, Hq. done.
    + intros i a (id & Ha & _)%Hrep. unfold rp_kv, rp_calls. by rewrite Ha.
Qed.
End cluster.

(** ** Witnesses *)
Module Witness.
#[local] Instance op_codec : Codec (persistedState Op) := countable_codec.
#[local] Instance snapshot_codec : Codec kvSnapshot := countable_codec.

Lemma NewCluster_boots_witness :
  ∃ k : KvCluster (P:=MemoryPersister),
    NewCluster_boot 3 (-1) (λ id, Some (id, "a"%string)) = Ret (Some k) ∧
    kc_Addrs k = ["a"; "a"; "a"]%string ∧ repl_init [0; 1; 2] (booted k).
Proof.
  destruct (NewCluster_boots (P:=MemoryPersister) 3 (-1) (λ id, Some (id, "a"%string)))
    as (k & Hk & Hb & Hi); [done|by eexists|].
  exists k. split_and!; [exact Hk|apply (bu_addrs _ _ _ _ _ Hb)|exact Hi].
Defined.

(** Connection 1 is served and 2 is between Accept and the lock when the
    endpoint crashes. *)
Definition fresh_ep : EpSys (KV:=Z) := mkEpSys (mkEndpoint 0 "a" None []) (mkNet ∅ ∅) [] [] 0.
Definition busy_ep : EpSys (KV:=Z) :=
  mkEpSys (mkEndpoint 0 "b" (Some 0) [1]) (mkNet ({[0]} ∪ ∅) ({[2]} ∪ ({[1]} ∪ ∅))) [] [(0, 2)] 3.

Lemma Crash_severs_witness :
  rtc ep_step fresh_ep busy_ep ∧
  ∀ e' net', Crash (es_ep busy_ep) (es_net busy_ep) = (e', net') → net_listeners net' = ∅.
Proof.
  assert (rtc ep_step fresh_ep busy_ep) as Hrun.
  { eapply rtc_l; [eapply (eps_start _ _ [] [] 0 (Some (0, "b"%string)) true); [|reflexivity]|].
    { by split; intros. }
    eapply rtc_l; [eapply (eps_accept _ _ [0] [] [] 1 0); [done|set_solver]|].
    eapply rtc_l; [eapply (eps_take _ _ [] [(0, 1)] [] 2 0 1); [done|vm_compute; reflexivity]|].
    eapply rtc_l; [eapply (eps_accept _ _ [0] [] [] 2 0); [done|set_solver]|].
    apply rtc_refl. }
  split; [exact Hrun|]. intros e' net' H.
  destruct (Crash_severs fresh_ep busy_ep e' net') as (_ & Hl & _);
    [by exists 0, "a"%string|exact Hrun|exact H|exact Hl].
Defined.
End Witness.
