(* ===== verification/ShardConfigFacts.v ===== *)
(** * Rebalancing is total, balanced and minimal

    The phases of rebalance against a specification in terms of the positions
    each group holds, and what follows for Join, Leave and Validate. *)
From S2P Require Import Prelude ShardConfig.
Local Open Scope Z_scope.

(** ** Lists split by a key *)

Lemma concat_cons_at {K A} `{EqDecision K} (F : K → list A) (gs : list K) g0 x :
  NoDup gs → g0 ∈ gs →
  concat (map (λ g, if decide (g = g0) then x :: F g else F g) gs) ≡ₚ x :: concat (map F gs).
Proof.
  intros Hnd. induction Hnd as [|g gs Hg Hnd IH]; [by intros ?%not_elem_of_nil|].
  intros [->|Hin]%elem_of_cons; simpl.
  - rewrite decide_True by done. simpl. f_equiv. f_equiv.
    replace (map _ gs) with (map F gs); [done|].
    apply map_ext_in. intros h Hh%list_elem_of_In. rewrite decide_False; [done|]. by intros ->.
  - rewrite decide_False by (by intros ->). rewrite IH by done. symmetry. apply Permutation_middle.
Qed.

Lemma partition_by {K A} `{EqDecision K} (f : A → K) (gs : list K) (l : list A) :
  NoDup gs → (∀ x, x ∈ l → f x ∈ gs) →
  concat (map (λ g, filter (λ x, f x = g) l) gs) ≡ₚ l.
Proof.
  intros Hnd. induction l as [|x l IH]; intros Hin.
  { clear Hin. induction Hnd; [done|]. simpl. done. }
  transitivity (x :: concat (map (λ g, filter (λ x, f x = g) l) gs));
    [|f_equiv; apply IH; intros; apply Hin; by right].
  rewrite <- (concat_cons_at _ gs (f x) x) by (done || (apply Hin; by left)).
  apply reflexive_eq. f_equal. apply map_ext. intros g. rewrite filter_cons.
  destruct (decide (f x = g)), (decide (g = f x)); congruence.
Qed.

Lemma concat_app_each {K A} (F G : K → list A) (gs : list K) :
  concat (map (λ g, F g ++ G g) gs) ≡ₚ concat (map F gs) ++ concat (map G gs).
Proof.
  induction gs as [|g gs IH]; [done|]. simpl. rewrite IH.
  rewrite <- !app_assoc. f_equiv. rewrite !app_assoc. f_equiv. apply Permutation_app_comm.
Qed.

Lemma concat_split {K A} (F : K → list A) (t : K → nat) (gs : list K) :
  concat (map F gs) ≡ₚ concat (map (λ g, take (t g) (F g)) gs) ++
                       concat (map (λ g, drop (t g) (F g)) gs).
Proof.
  rewrite <- concat_app_each. apply reflexive_eq. f_equal. apply map_ext. intros g. by rewrite take_drop.
Qed.

Lemma length_concat_map {K A} (F : K → list A) gs :
  length (concat (map F gs)) = sum_list_with (λ g, length (F g)) gs.
Proof. induction gs as [|g gs IH]; [done|]. simpl. by rewrite length_app, IH. Qed.

(** ** Positions of a group *)

Definition positions (g : Z) (l : list Z) : list nat :=
  map fst (filter (λ p : nat * Z, p.2 = g) (imap pair l)).

Lemma elem_of_imap_pair (l : list Z) s g : (s, g) ∈ imap pair l ↔ l !! s = Some g.
Proof.
  rewrite list_elem_of_lookup. split.
  - intros (i & Hi). rewrite list_lookup_imap in Hi. by destruct (l !! i) eqn:E; simplify_eq/=.
  - intros Hl. exists s. by rewrite list_lookup_imap, Hl.
Qed.

Lemma fst_imap_pair (l : list Z) : map fst (imap pair l) = seq 0 (length l).
Proof.
  apply list_eq. intros i. rewrite list_lookup_fmap, list_lookup_imap.
  destruct (decide (i < length l)%nat) as [Hi|Hi].
  - rewrite lookup_seq_lt by done. apply lookup_lt_is_Some in Hi as [x ->]. done.
  - rewrite lookup_seq_ge by lia. rewrite lookup_ge_None_2 by lia. done.
Qed.

Lemma elem_of_positions g l s : s ∈ positions g l ↔ l !! s = Some g.
Proof.
  unfold positions. rewrite list_elem_of_fmap, <- elem_of_imap_pair. split.
  - intros ([s' g'] & -> & [Heq ?]%list_elem_of_filter). simpl in *. by subst.
  - intros Hin. exists (s, g). split; [done|]. by apply list_elem_of_filter.
Qed.

Lemma NoDup_positions g l : NoDup (positions g l).
Proof.
  unfold positions. assert (NoDup (map fst (imap pair l))) as Hnd
    by (rewrite fst_imap_pair; apply NoDup_seq).
  revert Hnd. generalize (imap pair l). intros ps.
  induction ps as [|p ps IH]; [done|]. simpl. intros [Hp Hnd]%NoDup_cons.
  rewrite filter_cons. destruct (decide _); [|by apply IH]. simpl.
  apply NoDup_cons. split; [|by apply IH].
  intros (q & Hq & [_ Hin]%list_elem_of_filter)%list_elem_of_fmap.
  apply Hp. rewrite Hq. by apply list_elem_of_fmap_2.
Qed.

(** ** The sorted ids *)

Lemma sortedGids_perm groups : sortedGids groups ≡ₚ map fst (map_to_list groups).
Proof. apply merge_sort_Permutation. Qed.

Lemma sortedGids_NoDup groups : NoDup (sortedGids groups).
Proof. rewrite sortedGids_perm. apply NoDup_fst_map_to_list. Qed.

Lemma elem_of_sortedGids groups g : g ∈ sortedGids groups ↔ is_Some (groups !! g).
Proof.
  rewrite sortedGids_perm, list_elem_of_fmap. split.
  - intros ([g' a] & -> & Hin%elem_of_map_to_list). by exists a.
  - intros [a Ha]. exists (g, a). split; [done|]. by apply elem_of_map_to_list.
Qed.

Lemma sortedGids_length groups : length (sortedGids groups) = size groups.
Proof.
  rewrite sortedGids_perm, length_map. by rewrite length_map_to_list.
Qed.

(** ** Targets add up *)

Lemma sum_targets q r k :
  sum_list_with (λ i, if (i <? r)%nat then S q else q) (seq 0 k) = (k * q + Nat.min r k)%nat.
Proof.
  induction k as [|k IH]; [simpl; lia|].
  rewrite seq_S, sum_list_with_app, IH. simpl. destruct (Nat.ltb_spec k r); lia.
Qed.

Lemma sum_list_with_ext_in {A} (f h : A → nat) (l : list A) :
  (∀ x, x ∈ l → f x = h x) → sum_list_with f l = sum_list_with h l.
Proof.
  induction l as [|x l IH]; intros Hf; [done|]. simpl.
  rewrite Hf by by left. f_equal. apply IH. intros y Hy. apply Hf. by right.
Qed.

Lemma targetOf_nth gids i g :
  NoDup gids → gids !! i = Some g → targetOf gids g = targetAt (length gids) i.
Proof.
  intros Hnd Hi. unfold targetOf.
  destruct (list_find (eq g) gids) as [[j g']|] eqn:Hf.
  - apply list_find_Some in Hf as (Hj & <- & _). by rewrite (NoDup_lookup _ _ _ _ Hnd Hj Hi).
  - apply list_find_None in Hf. rewrite Forall_forall in Hf.
    destruct (Hf g); [by eapply list_elem_of_lookup_2|done].
Qed.

Lemma sum_by_index {A} (f : A → nat) (h : nat → nat) (l : list A) k :
  (∀ i x, l !! i = Some x → f x = h (k + i)%nat) →
  sum_list_with f l = sum_list_with h (seq k (length l)).
Proof.
  revert k. induction l as [|x l IH]; intros k Hf; [done|]. simpl.
  rewrite (Hf 0%nat x eq_refl), Nat.add_0_r. f_equal. apply IH.
  intros i y Hi. rewrite (Hf (S i) y Hi). f_equal. lia.
Qed.

Lemma targets_sum gids :
  NoDup gids → gids ≠ [] → sum_list_with (targetOf gids) gids = NShards.
Proof.
  intros Hnd Hne. assert (length gids ≠ 0)%nat as Hn by by destruct gids.
  rewrite (sum_by_index _ (targetAt (length gids)) _ 0)
    by (intros i g Hi; by apply targetOf_nth).
  unfold targetAt. rewrite sum_targets.
  pose proof (Nat.div_mod_eq NShards (length gids)).
  pose proof (Nat.mod_upper_bound NShards (length gids)). lia.
Qed.

(** ** The phases *)

(** A group's shards in the map that rebalance builds. *)
Definition own (m : gmap Z (list nat)) (g : Z) : list nat := default [] (m !! g).

Lemma own_insert m g ss h : own (<[g := ss]> m) h = if decide (h = g) then ss else own m h.
Proof.
  unfold own. destruct (decide (h = g)) as [->|]; [by rewrite lookup_insert_eq|].
  by rewrite lookup_insert_ne.
Qed.

Lemma classify_spec live sh ow orph ow' orph' :
  classify live sh ow orph = (ow', orph') →
  (∀ g, own ow' g = own ow g ++
     (if decide (is_Some (live !! g))
      then map fst (filter (λ p : nat * Z, p.2 = g) sh) else [])) ∧
  orph' = orph ++ map fst (filter (λ p : nat * Z, ¬ is_Some (live !! p.2)) sh).
Proof.
  revert ow orph. induction sh as [|[s g0] sh IH]; intros ow orph; simpl.
  { intros [= <- <-]. split; [|by rewrite app_nil_r].
    intros g. case_decide; by rewrite app_nil_r. }
  destruct (live !! g0) as [a|] eqn:Hl; intros [Hown ->]%IH; split.
  - intros g. rewrite Hown. fold (own ow g0). rewrite own_insert, filter_cons. simpl.
    destruct (decide (g = g0)) as [->|Hne].
    + rewrite !decide_True by (done || (rewrite ?Hl; by eexists)). simpl. by rewrite <- app_assoc.
    + rewrite (decide_False (P:=g0 = g)) by congruence. done.
  - rewrite filter_cons, decide_False; [done|]. intros Hn. apply Hn. simpl. rewrite ?Hl. by eexists.
  - intros g. rewrite Hown, filter_cons. simpl. case_decide as Hg; [|done].
    rewrite decide_False; [done|]. simpl. intros ->. rewrite Hl in Hg. by destruct Hg.
  - rewrite filter_cons, decide_True; [by rewrite <- app_assoc|].
    simpl. rewrite Hl. by intros [].
Qed.

Lemma trim_spec t gs ow orph ow' orph' :
  NoDup gs → trim t gs ow orph = (ow', orph') →
  (∀ g, own ow' g = if decide (g ∈ gs) then take (t g) (own ow g) else own ow g) ∧
  orph' = orph ++ concat (map (λ g, drop (t g) (own ow g)) gs).
Proof.
  intros Hnd. revert ow orph. induction Hnd as [|g0 gs Hg0 Hnd IH]; intros ow orph;
    cbn [trim map concat].
  { intros [= <- <-]. split; [|by rewrite app_nil_r].
    intros g. by rewrite decide_False by apply not_elem_of_nil. }
  fold (own ow g0). destruct (Nat.ltb_spec (t g0) (length (own ow g0))) as [Hlt|Hge];
    intros [Hown ->]%IH; split.
  - intros g. rewrite Hown, own_insert. repeat case_decide; subst; done || set_solver.
  - rewrite <- app_assoc. do 3 f_equal. apply map_ext_in. intros g Hg%list_elem_of_In.
    rewrite own_insert, decide_False; [done|]. by intros ->.
  - intros g. rewrite Hown. repeat case_decide; try (done || set_solver).
    assert (g = g0) as -> by set_solver. by rewrite take_ge by lia.
  - rewrite drop_ge by lia. done.
Qed.

(** Each group that needs shards gets its own stretch of the orphans. *)
Lemma fill_spec t gs ow orph :
  NoDup gs →
  (sum_list_with (λ g, t g - length (own ow g))%nat gs ≤ length orph)%nat →
  ∃ ow' (chunk : Z → list nat) rest,
    fill t gs ow orph = Ret ow' ∧
    (∀ g, own ow' g = own ow g ++ chunk g) ∧
    (∀ g, g ∉ gs → chunk g = []) ∧
    (∀ g, g ∈ gs → length (chunk g) = (t g - length (own ow g))%nat) ∧
    orph = concat (map chunk gs) ++ rest.
Proof.
  intros Hnd. revert ow orph. induction Hnd as [|g0 gs Hg0 Hnd IH]; intros ow orph Hlen; simpl in *.
  { exists ow, (λ _, []), orph. split_and!; try done.
    - intros g. by rewrite app_nil_r.
    - by intros g ?%not_elem_of_nil. }
  fold (own ow g0). destruct (Nat.leb_spec (t g0) (length (own ow g0))) as [Hle|Hgt].
  - destruct (IH ow orph) as (ow' & chunk & rest & Hf & Hown & Hout & Hin & Hor); [lia|].
    exists ow', chunk, rest. split_and!; try done.
    + intros g Hg. apply Hout. set_solver.
    + intros g [->|Hg]%elem_of_cons; [|by apply Hin]. rewrite Hout by done. simpl. lia.
    + by rewrite (Hout g0).
  - set (need := (t g0 - length (own ow g0))%nat) in *.
    set (ow1 := <[g0 := own ow g0 ++ take need orph]> ow).
    assert (∀ g, g ∈ gs → own ow1 g = own ow g) as Hsame.
    { intros g Hg. unfold ow1. rewrite own_insert, decide_False; [done|]. by intros ->. }
    destruct (Nat.ltb_spec (length orph) need); [lia|].
    destruct (IH ow1 (drop need orph)) as (ow' & chunk & rest & Hf & Hown & Hout & Hin & Hor).
    { rewrite length_drop. rewrite (sum_list_with_ext_in _ (λ g, t g - length (own ow g))%nat); [lia|].
      intros g Hg. by rewrite Hsame. }
    exists ow', (λ g, if decide (g = g0) then take need orph else chunk g), rest. split_and!; try done.
    + intros g. rewrite Hown. unfold ow1. rewrite own_insert.
      destruct (decide (g = g0)) as [->|]; [|done]. by rewrite (Hout g0), app_nil_r.
    + intros g Hg. rewrite decide_False by set_solver. apply Hout. set_solver.
    + intros g [->|Hg]%elem_of_cons.
      * rewrite decide_True by done. rewrite length_take. lia.
      * rewrite decide_False by (by intros ->). rewrite Hin by done. by rewrite Hsame.
    + rewrite decide_True by done. rewrite <- app_assoc.
      rewrite <- (take_drop need orph) at 1. f_equal. rewrite Hor. do 2 f_equal.
      apply map_ext_in. intros g Hg%list_elem_of_In. rewrite decide_False; [done|]. by intros ->.
Qed.

(** ** The result array *)

Lemma assign_length gss res : length (foldl assign res gss) = length res.
Proof.
  revert res. induction gss as [|gs gss IH]; intros res; [done|]. simpl. rewrite IH.
  unfold assign. destruct gs as [g ss]. simpl. revert res.
  induction ss as [|s ss IHs]; intros res; [done|]. simpl. by rewrite IHs, length_insert.
Qed.

Lemma assign_lookup_one g ss res s :
  (s < length res)%nat →
  assign res (g, ss) !! s = if decide (s ∈ ss) then Some g else res !! s.
Proof.
  unfold assign. cbn [fst snd]. revert res. induction ss as [|s0 ss IH]; intros res Hs.
  { by rewrite decide_False by apply not_elem_of_nil. }
  cbn [foldl]. rewrite IH by by rewrite length_insert.
  destruct (decide (s ∈ ss)) as [Hin|Hout]; [by rewrite decide_True by by right|].
  destruct (decide (s = s0)) as [->|Hne].
  - rewrite decide_True by by left. by apply list_lookup_insert_eq.
  - rewrite decide_False by set_solver. by apply list_lookup_insert_ne.
Qed.

(** When the pairs agree on who has [s], the array says so. *)
Lemma assign_lookup gss res s g :
  (s < length res)%nat →
  (∀ h ss, (h, ss) ∈ gss → s ∈ ss → h = g) →
  res !! s = Some g ∨ (∃ ss, (g, ss) ∈ gss ∧ s ∈ ss) →
  foldl assign res gss !! s = Some g.
Proof.
  revert res. induction gss as [|[h ss] gss IH]; intros res Hs Hone Hor.
  { destruct Hor as [?|(ss & []%not_elem_of_nil & _)]; done. }
  cbn [foldl]. apply IH.
  - pose proof (assign_length [(h, ss)] res) as Hl. simpl in Hl. by rewrite Hl.
  - intros h' ss' Hin. apply Hone. by right.
  - rewrite assign_lookup_one by done. destruct (decide (s ∈ ss)) as [Hin|Hout].
    + left. f_equal. apply (Hone h ss); [by left|done].
    + destruct Hor as [?|(ss' & [[= <- <-]|Hin]%elem_of_cons & Hs')]; [by left|done|right; by exists ss'].
Qed.

Section rebalance.
Context (shards : list Z) (live : gmap Z (list string)).
Context (Hlen : length shards = NShards) (Hlive : live ≠ ∅).

Let gids := sortedGids live.
Let target := targetOf gids.

Lemma gids_nonempty : gids ≠ [].
Proof.
  unfold gids. intros Hnil. apply Hlive, map_empty. intros g.
  destruct (live !! g) as [a|] eqn:Hg; [|done].
  assert (g ∈ sortedGids live) as Hin by (apply elem_of_sortedGids; by exists a).
  rewrite Hnil in Hin. by apply not_elem_of_nil in Hin.
Qed.

(** The map that rebalance reads its result from. *)
Record owners_ok (ow : gmap Z (list nat)) : Prop := {
  ow_dead g : g ∉ gids → own ow g = [];
  ow_size g : g ∈ gids → length (own ow g) = target g;
  ow_all : concat (map (own ow) gids) ≡ₚ seq 0 NShards;
  ow_kept g s : g ∈ gids → s ∈ take (target g) (positions g shards) → s ∈ own ow g
}.

(** Splitting the shards by live owner loses none of them. *)
Lemma live_positions :
  concat (map (λ g, positions g shards) gids) ++
    map fst (filter (λ p : nat * Z, ¬ is_Some (live !! p.2)) (imap pair shards)) ≡ₚ
  seq 0 NShards.
Proof.
  set (L := filter (λ p : nat * Z, is_Some (live !! p.2)) (imap pair shards)).
  assert (concat (map (λ g, positions g shards) gids) =
          map fst (concat (map (λ g, filter (λ p : nat * Z, p.2 = g) L) gids))) as ->.
  { rewrite concat_map, map_map. f_equal. apply map_ext_in.
    intros g Hg%list_elem_of_In%elem_of_sortedGids. unfold positions, L. f_equal.
    rewrite list_filter_filter. apply list_filter_iff. intros p. naive_solver. }
  rewrite (partition_by snd gids L); [|apply sortedGids_NoDup|].
  - rewrite <- map_app. unfold L. rewrite filter_app_complement, fst_imap_pair. by rewrite Hlen.
  - intros p [Hp _]%list_elem_of_filter. by apply elem_of_sortedGids.
Qed.

(** The shortfall of the trimmed groups is exactly the orphans. *)
Lemma shortfall (f : Z → list nat) (orph : list nat) :
  (∀ g, g ∈ gids → length (f g) ≤ target g)%nat →
  concat (map f gids) ++ orph ≡ₚ seq 0 NShards →
  sum_list_with (λ g, target g - length (f g))%nat gids = length orph.
Proof.
  intros Hle Hp%Permutation_length. rewrite length_app, length_seq, length_concat_map in Hp.
  pose proof (targets_sum gids (sortedGids_NoDup live) gids_nonempty) as Ht.
  fold target in Ht. clear -Hle Hp Ht.
  assert (sum_list_with target gids = sum_list_with (λ g, length (f g)) gids +
    sum_list_with (λ g, target g - length (f g)) gids)%nat; [|lia].
  clear Hp Ht. revert Hle. generalize gids. intros gs Hle. induction gs as [|g gs IH]; [done|].
  simpl. rewrite IH by (intros; apply Hle; by right).
  specialize (Hle g ltac:(by left)). lia.
Qed.

Lemma rebalance_owners :
  ∃ ow, rebalance shards live =
      Ret (foldl assign (replicate NShards 0) (map_to_list ow)) ∧ owners_ok ow.
Proof.
  assert (NoDup gids) as Hnd by apply sortedGids_NoDup.
  pose proof gids_nonempty as Hne. unfold rebalance. fold gids. fold target.
  destruct (classify live (imap pair shards) ∅ []) as [ow1 or1] eqn:H1.
  apply classify_spec in H1 as [Hown1 Hor1].
  destruct (trim target gids ow1 or1) as [ow2 or2] eqn:H2.
  apply trim_spec in H2 as [Hown2 Hor2]; [|done].
  assert (∀ g, own ow1 g = if decide (g ∈ gids) then positions g shards else []) as Hpos.
  { intros g. rewrite Hown1. unfold own. rewrite lookup_empty. simpl.
    apply decide_ext. symmetry. apply elem_of_sortedGids. }
  assert (map (own ow1) gids = map (λ g, positions g shards) gids) as Hmap1.
  { apply map_ext_in. intros g Hg%list_elem_of_In. by rewrite Hpos, decide_True. }
  assert (map (own ow2) gids = map (λ g, take (target g) (own ow1 g)) gids) as Hmap2.
  { apply map_ext_in. intros g Hg%list_elem_of_In. by rewrite Hown2, decide_True. }
  assert (concat (map (own ow2) gids) ++ merge_sort Nat.le or2 ≡ₚ seq 0 NShards) as Hall.
  { rewrite merge_sort_Permutation, Hor2, Hor1, Hmap2. cbn [app].
    rewrite (Permutation_app_comm (map fst _)), app_assoc, <- concat_split, Hmap1.
    apply live_positions. }
  assert (∀ g, g ∈ gids → length (own ow2 g) ≤ target g)%nat as Hle.
  { intros g Hg. rewrite Hown2, decide_True by done. rewrite length_take. lia. }
  pose proof (shortfall (own ow2) _ Hle Hall) as Hsum.
  destruct (fill_spec target gids ow2 (merge_sort Nat.le or2) Hnd ltac:(lia))
    as (ow3 & chunk & rest & Hfill & Hown3 & Hout & Hin & Hrest).
  rewrite Hfill. exists ow3. split; [by destruct gids|].
  assert (∀ g, g ∈ gids → length (own ow3 g) = target g) as Hsize.
  { intros g Hg. rewrite Hown3, length_app, Hin by done. specialize (Hle g Hg). lia. }
  assert (rest = []) as ->.
  { apply (f_equal length) in Hrest. rewrite length_app, length_concat_map, <- Hsum in Hrest.
    rewrite (sum_list_with_ext_in _ _ _ Hin) in Hrest. apply nil_length_inv. lia. }
  rewrite app_nil_r in Hrest. split; [|done|..].
  - intros g Hg. rewrite Hown3, Hout, Hown2, Hpos, !decide_False by done. done.
  - rewrite (map_ext _ _ Hown3), concat_app_each, <- Hrest. exact Hall.
  - intros g s Hg Hs. rewrite Hown3, Hown2, Hpos, !decide_True by done.
    apply elem_of_app. by left.
Qed.

(** Group [g] holds [s] in the result exactly when the map says so. *)
Lemma result_lookup ow s g :
  owners_ok ow →
  foldl assign (replicate NShards 0) (map_to_list ow) !! s = Some g ↔ s ∈ own ow g.
Proof.
  intros [Hdead _ Hall _].
  assert (∀ g s, s ∈ own ow g → g ∈ gids) as Hlv.
  { intros h t Ht. destruct (decide (h ∈ gids)) as [|Hn]; [done|].
    rewrite Hdead in Ht by done. by apply not_elem_of_nil in Ht. }
  assert (∀ h t, t ∈ own ow h → (t < NShards)%nat) as Hbound.
  { intros h t Ht. assert (t ∈ seq 0 NShards) as [_ ?]%elem_of_seq; [|done].
    rewrite <- Hall. apply list_elem_of_In, in_concat. exists (own ow h).
    split; [|by apply list_elem_of_In]. apply in_map, list_elem_of_In. by eapply Hlv. }
  assert (∀ h1 h2 t, t ∈ own ow h1 → t ∈ own ow h2 → h1 = h2) as Huniq.
  { intros h1 h2 t Ht1 Ht2. apply Hlv in Ht1 as Hg1. apply Hlv in Ht2 as Hg2.
    assert (NoDup (concat (map (own ow) gids))) as Hnd by (rewrite Hall; apply NoDup_seq).
    clear Hall Hdead Hlv Hbound. revert Hg1 Hg2 Hnd. generalize gids. intros gs.
    induction gs as [|h gs IH]; [by intros ?%not_elem_of_nil|].
    intros Hg1 Hg2 Hnd. simpl in Hnd. apply NoDup_app in Hnd as (_ & Hdis & Hnd).
    assert (∀ h' t, h' ∈ gs → t ∈ own ow h' → t ∈ concat (map (own ow) gs)) as Hc.
    { intros h' t' Hh' Ht'. apply list_elem_of_In, in_concat. exists (own ow h').
      split; [by apply in_map, list_elem_of_In|by apply list_elem_of_In]. }
    apply elem_of_cons in Hg1 as [->|Hg1], Hg2 as [->|Hg2]; [done|..].
    - destruct (Hdis t Ht1). by eapply Hc.
    - destruct (Hdis t Ht2). by eapply Hc.
    - by apply IH. }
  assert (∀ g, s ∈ own ow g → foldl assign (replicate NShards 0) (map_to_list ow) !! s = Some g) as Hto.
  { intros h Hs. apply assign_lookup.
    - rewrite length_replicate. by eapply Hbound.
    - intros h' ss Hin%elem_of_map_to_list Hs'. apply (Huniq h' h s); [|done].
      unfold own. by rewrite Hin.
    - right. unfold own in Hs. destruct (ow !! h) as [ss|] eqn:Ho;
        [|by apply not_elem_of_nil in Hs].
      exists ss. split; [by apply elem_of_map_to_list|done]. }
  split; [|apply Hto]. intros Hres.
  assert (s < NShards)%nat as Hs.
  { apply lookup_lt_Some in Hres. by rewrite assign_length, length_replicate in Hres. }
  assert (s ∈ concat (map (own ow) gids)) as Hin by (rewrite Hall; apply elem_of_seq; lia).
  apply list_elem_of_In, in_concat in Hin as (ss & (h & <- & _)%in_map_iff & Hss%list_elem_of_In).
  apply Hto in Hss as Hh. rewrite Hres in Hh. by injection Hh as ->.
Qed.

Lemma rebalance_result :
  ∃ res ow, rebalance shards live = Ret res ∧ owners_ok ow ∧ length res = NShards ∧
    (∀ s g, res !! s = Some g ↔ s ∈ own ow g) ∧
    (∀ g, length (positions g res) = length (own ow g)).
Proof.
  destruct rebalance_owners as (ow & Hr & Hok). eexists _, ow. split; [exact Hr|].
  split; [done|]. split; [by rewrite assign_length, length_replicate|].
  assert (∀ s g, foldl assign (replicate NShards 0) (map_to_list ow) !! s = Some g ↔
    s ∈ own ow g) as Hl by (intros; by apply result_lookup).
  split; [done|]. intros g. apply Permutation_length, NoDup_Permutation.
  - apply NoDup_positions.
  - destruct (decide (g ∈ gids)) as [Hg|Hg]; [|rewrite (ow_dead _ Hok) by done; constructor].
    pose proof (ow_all _ Hok) as Hall.
    assert (NoDup (concat (map (own ow) gids))) as Hnd by (rewrite Hall; apply NoDup_seq).
    apply list_elem_of_split in Hg as (l1 & l2 & Heq). rewrite Heq in Hnd.
    rewrite map_app, concat_app in Hnd. apply NoDup_app in Hnd as (_ & _ & Hnd).
    simpl in Hnd. by apply NoDup_app in Hnd as (? & _).
  - intros s. rewrite elem_of_positions. apply Hl.
Qed.
End rebalance.

(** C27: rebalancing is total and balanced. On an array of NShards owners and
    at least one live group, rebalance returns an array of NShards owners, all
    of them live, in which the i-th of the n live group ids in order owns
    NShards/n + 1 shards if i is below NShards mod n and NShards/n otherwise. *)
Theorem rebalance_balanced shards live :
  length shards = NShards → live ≠ ∅ →
  ∃ res, rebalance shards live = Ret res ∧ length res = NShards ∧
    (∀ g, g ∈ res → is_Some (live !! g)) ∧
    (∀ i g, sortedGids live !! i = Some g →
      length (positions g res) = targetAt (size live) i).
Proof.
  intros Hlen Hlive. destruct (rebalance_result shards live Hlen Hlive)
    as (res & ow & Hr & Hok & Hl & Hlook & Hcount).
  exists res. split_and!; [done|done|..].
  - intros g (s & Hs%Hlook)%list_elem_of_lookup.
    apply elem_of_sortedGids. destruct (decide (g ∈ sortedGids live)) as [|Hn]; [done|].
    rewrite (ow_dead _ _ _ Hok) in Hs by done. by apply not_elem_of_nil in Hs.
  - intros i g Hi. rewrite Hcount, (ow_size _ _ _ Hok) by (by eapply list_elem_of_lookup_2).
    rewrite (targetOf_nth _ i) by (done || apply sortedGids_NoDup).
    by rewrite sortedGids_length.
Qed.

(** The shards two assignments give to the same owner. *)
Definition kept (a b : list Z) : nat :=
  length (filter (λ s, a !! s = b !! s) (seq 0 NShards)).

Definition moved (a b : list Z) : nat := (NShards - kept a b)%nat.

Lemma kept_by_group a b gs :
  length b = NShards → NoDup gs → (∀ g, g ∈ b → g ∈ gs) →
  kept a b = sum_list_with
    (λ g, length (filter (λ s, a !! s = Some g) (positions g b))) gs.
Proof.
  intros Hb Hnd Hgs. unfold kept. set (K := filter (λ s, a !! s = b !! s) (seq 0 NShards)).
  assert (∀ s, s ∈ K → ∃ g, b !! s = Some g ∧ g ∈ gs) as HK.
  { intros s [_ [_ Hs]%elem_of_seq]%list_elem_of_filter. simpl in Hs.
    destruct (lookup_lt_is_Some_2 b s) as [g Hg]; [lia|]. exists g. split; [done|].
    apply Hgs. by eapply list_elem_of_lookup_2. }
  rewrite <- (partition_by (λ s, default 0 (b !! s)) gs K Hnd).
  - rewrite length_concat_map. apply sum_list_with_ext_in. intros g Hg.
    apply Permutation_length, NoDup_Permutation.
    + by apply NoDup_filter, NoDup_filter, NoDup_seq.
    + by apply NoDup_filter, NoDup_positions.
    + intros s. rewrite !list_elem_of_filter, elem_of_positions. split.
      * intros [Heq Hs]. apply HK in Hs as Hs'. destruct Hs' as (h & Hh & _).
        rewrite Hh in Heq. simpl in Heq. subst h.
        apply list_elem_of_filter in Hs as [Hs _]. split; congruence.
      * intros [Ha Hbs]. rewrite Hbs. split; [done|]. unfold K.
        rewrite list_elem_of_filter. split; [congruence|].
        apply elem_of_seq. apply lookup_lt_Some in Hbs. lia.
  - intros s (g & -> & Hg)%HK. done.
Qed.

(** What an assignment can keep of a group is bounded by both sizes. *)
Lemma kept_bound a b g :
  (length (filter (λ s, a !! s = Some g) (positions g b)) ≤
   Nat.min (length (positions g a)) (length (positions g b)))%nat.
Proof.
  apply Nat.min_glb; [|apply length_filter].
  apply submseteq_length, NoDup_submseteq; [apply NoDup_filter, NoDup_positions|].
  intros s [Hs _]%list_elem_of_filter. by apply elem_of_positions.
Qed.

Lemma sum_list_with_le {A} (f h : A → nat) l :
  (∀ x, x ∈ l → f x ≤ h x)%nat → (sum_list_with f l ≤ sum_list_with h l)%nat.
Proof.
  induction l as [|x l IH]; intros Hf; [done|]. simpl.
  specialize (Hf x ltac:(by left)) as Hx. specialize (IH ltac:(intros; apply Hf; by right)). lia.
Qed.

(** C28: rebalancing is minimal for its group sizes. No assignment of the
    shards that gives every group as many shards as rebalance gives it moves
    fewer shards away from their owners; and a shard among the first
    (target-many) shards of a live group stays where it is. *)
Theorem rebalance_minimal shards live res other :
  length shards = NShards → live ≠ ∅ → rebalance shards live = Ret res →
  length other = NShards →
  (∀ g, length (positions g other) = length (positions g res)) →
  (moved shards res ≤ moved shards other)%nat ∧
  (∀ g s, s ∈ take (length (positions g res)) (positions g shards) →
    is_Some (live !! g) → res !! s = Some g).
Proof.
  intros Hlen Hlive Hr Hother Hsame. destruct (rebalance_result shards live Hlen Hlive)
    as (res' & ow & Hr' & Hok & Hl & Hlook & Hcount).
  rewrite Hr in Hr'. injection Hr' as <-. set (gs := sortedGids live).
  assert (NoDup gs) as Hnd by apply sortedGids_NoDup.
  assert (∀ g s, g ∈ gs → s ∈ take (length (positions g res)) (positions g shards) →
    res !! s = Some g) as Hstay.
  { intros g s Hg Hs. apply Hlook. apply (ow_kept _ _ _ Hok); [done|].
    by rewrite Hcount, (ow_size _ _ _ Hok) in Hs. }
  assert (∀ g, g ∉ gs → positions g res = []) as Hdead.
  { intros g Hg. apply nil_length_inv. by rewrite Hcount, (ow_dead _ _ _ Hok). }
  assert (∀ l : list Z, (∀ g, length (positions g l) = length (positions g res)) →
    ∀ g, g ∈ l → g ∈ gs) as Hgs.
  { intros l Hcnt g (s & Hs)%list_elem_of_lookup. destruct (decide (g ∈ gs)) as [|Hg]; [done|].
    specialize (Hcnt g). rewrite (Hdead g Hg) in Hcnt. apply nil_length_inv in Hcnt.
    apply elem_of_positions in Hs. rewrite Hcnt in Hs. by apply not_elem_of_nil in Hs. }
  split; [|intros g s Hs Hg; apply Hstay; [by apply elem_of_sortedGids|done]].
  unfold moved. enough (kept shards other ≤ kept shards res)%nat by lia.
  rewrite (kept_by_group _ other gs), (kept_by_group _ res gs) by eauto.
  apply sum_list_with_le. intros g Hg.
  etransitivity; [apply kept_bound|]. rewrite Hsame.
  rewrite Nat.min_comm, <- length_take.
  apply submseteq_length, NoDup_submseteq.
  { apply (NoDup_app (take _ _) (drop (length (positions g res)) (positions g shards))).
    rewrite take_drop. apply NoDup_positions. }
  intros s Hs. apply list_elem_of_filter. split.
  - apply elem_of_positions. rewrite <- (take_drop (length (positions g res)) (positions g shards)).
    apply elem_of_app. by left.
  - apply elem_of_positions. by apply Hstay.
Qed.

(** ** Configurations *)

Lemma validateShards_None groups ps :
  validateShards groups ps = None ↔
  ∀ p : nat * Z, p ∈ ps → ∃ a addrs, groups !! p.2 = Some (a :: addrs).
Proof.
  induction ps as [|[s g] ps IH]; simpl; [split; [by intros _ ? ?%not_elem_of_nil|done]|].
  destruct (groups !! g) as [[|a addrs]|] eqn:Hg.
  - split; [done|]. intros Hall. destruct (Hall (s, g)) as (a & addrs & Ha); [by left|].
    simpl in Ha. congruence.
  - rewrite IH. split.
    + intros Hall p [->|Hp]%elem_of_cons; [by exists a, addrs|by apply Hall].
    + intros Hall p Hp. apply Hall. by right.
  - split; [done|]. intros Hall. destruct (Hall (s, g)) as (a & addrs & Ha); [by left|].
    simpl in Ha. congruence.
Qed.

Lemma Key2Shard_range key : 0 ≤ Key2Shard key < Z.of_nat NShards.
Proof. unfold Key2Shard. by apply Z.mod_pos_bound. Qed.

Lemma Validate_None c :
  Validate c = None ↔
  cfg_Groups c ≠ ∅ ∧ ∀ g, g ∈ cfg_Shards c → ∃ a addrs, cfg_Groups c !! g = Some (a :: addrs).
Proof.
  unfold Validate. destruct (Nat.eqb_spec (size (cfg_Groups c)) 0) as [Hs|Hs].
  - split; [done|]. intros [Hne _]. by apply map_size_empty_iff in Hs.
  - rewrite validateShards_None. split.
    + intros Hall. split; [intros He; by apply map_size_empty_iff in He|].
      intros g (s & Hg)%list_elem_of_lookup. apply (Hall (s, g)). by apply elem_of_imap_pair.
    + intros [_ Hall] [s g] Hp%elem_of_imap_pair. apply Hall. by eapply list_elem_of_lookup_2.
Qed.

(** Every group can be reached. *)
Definition reachable_groups (groups : gmap Z (list string)) : Prop :=
  ∀ g addrs, groups !! g = Some addrs → addrs ≠ [].

(** The configuration after a membership change to [groups]. *)
Definition routes_over cfg (groups : gmap Z (list string)) (c : Config) : Prop :=
  cfg_Num c = cfg_Num cfg + 1 ∧ cfg_Groups c = groups ∧
  length (cfg_Shards c) = NShards ∧
  (groups ≠ ∅ → reachable_groups groups → Validate c = None).

Lemma rebalance_routes cfg groups :
  length (cfg_Shards cfg) = NShards →
  ∃ shards, rebalance (cfg_Shards cfg) groups = Ret shards ∧
    routes_over cfg groups (mkConfig (cfg_Num cfg + 1) shards groups).
Proof.
  intros Hlen. destruct (decide (groups = ∅)) as [->|Hne].
  - exists (replicate NShards 0). unfold routes_over. simpl. split_and!; done.
  - destruct (rebalance_result _ groups Hlen Hne) as (res & ow & Hr & Hok & Hl & Hlook & _).
    exists res. split; [done|]. unfold routes_over. simpl. split_and!; try done.
    intros _ Hreach. apply Validate_None. split; [done|]. simpl.
    intros g (s & Hs%Hlook)%list_elem_of_lookup.
    assert (is_Some (groups !! g)) as [[|a addrs] Hg].
    { apply elem_of_sortedGids. destruct (decide (g ∈ sortedGids groups)) as [|Hn]; [done|].
      rewrite (ow_dead _ _ _ Hok) in Hs by done. by apply not_elem_of_nil in Hs. }
    + by apply Hreach in Hg.
    + by exists a, addrs.
Qed.

(** C29: membership changes keep configurations routable. On a configuration
    with NShards shards, Join and Leave return the next version over the union
    of the groups, respectively the groups without those that left; whenever
    some group remains and every one has an address, Validate accepts it. *)
Theorem membership_routes cfg newGroups gids :
  length (cfg_Shards cfg) = NShards →
  (∃ c, Join cfg newGroups = Ret c ∧
    routes_over cfg (newGroups ∪ cfg_Groups cfg) c) ∧
  (∃ c, Leave cfg gids = Ret c ∧
    routes_over cfg (filter (λ ga, ga.1 ∉ gids) (cfg_Groups cfg)) c).
Proof.
  intros Hlen. split; unfold Join, Leave.
  - destruct (rebalance_routes cfg (newGroups ∪ cfg_Groups cfg) Hlen) as (sh & -> & Hr). eauto.
  - assert (∀ gids m, foldl (λ (g : gmap Z (list string)) gid, delete gid g) m gids =
      filter (λ ga, ga.1 ∉ gids) m) as Hdel.
    { clear. intros gids. induction gids as [|g gids IH]; intros m.
      - symmetry. apply map_filter_id. intros i x _. apply not_elem_of_nil.
      - simpl. rewrite IH. apply map_eq. intros i. rewrite !map_lookup_filter.
        destruct (decide (g = i)) as [->|Hne]; [rewrite lookup_delete_eq|rewrite lookup_delete_ne by done].
        + destruct (m !! i); simpl; [|done]. rewrite option_guard_False by set_solver. done.
        + destruct (m !! i); simpl; [|done]. apply option_guard_iff. set_solver. }
    rewrite Hdel.
    destruct (rebalance_routes cfg (filter (λ ga, ga.1 ∉ gids) (cfg_Groups cfg)) Hlen) as (sh & -> & Hr). eauto.
Qed.

(** The remainder always goes to the lowest group ids, so an assignment that is
    already as even as possible can still be moved: here one shard of ten. *)
Example rebalance_moves_even_assignment :
  let shards := [1; 1; 1; 2; 2; 2; 3; 3; 3; 3] in
  ∃ res, rebalance shards {[1 := ["a"%string]; 2 := ["b"%string]; 3 := ["c"%string]]} = Ret res ∧
    moved shards res = 1%nat ∧ moved shards shards = 0%nat.
Proof. eexists. split; [vm_compute; reflexivity|]. split; vm_compute; reflexivity. Qed.

(** ** Witnesses *)
Module Witness.
Definition demo_groups : gmap Z (list string) :=
  {[1 := ["a"%string]; 2 := ["b"%string]; 3 := ["c"%string]]}.
Definition demo_shards : list Z := [1; 1; 1; 1; 1; 2; 2; 2; 2; 2].

Lemma rebalance_balanced_witness :
  ∃ res, rebalance demo_shards demo_groups = Ret res ∧ length (positions 3 res) = 3%nat.
Proof.
  destruct (rebalance_balanced demo_shards demo_groups) as (res & Hr & _ & _ & Hc);
    [done|done|]. exists res. split; [exact Hr|]. by rewrite (Hc 2%nat 3).
Defined.

Definition demo_result : list Z := [1; 1; 1; 1; 3; 2; 2; 2; 3; 3].
Definition demo_other : list Z := [1; 3; 3; 1; 1; 3; 2; 2; 2; 1].

Lemma rebalance_minimal_witness :
  rebalance demo_shards demo_groups = Ret demo_result ∧
  (moved demo_shards demo_result ≤ moved demo_shards demo_other)%nat.
Proof.
  split; [vm_compute; reflexivity|].
  apply (rebalance_minimal demo_shards demo_groups); [done|done|vm_compute; reflexivity|done|].
  intros g. unfold demo_other, demo_result. unfold positions. simpl. rewrite !filter_cons. simpl.
  repeat case_decide; simpl in *; try done; exfalso; lia.
Defined.

Lemma membership_routes_witness :
  ∃ c, Join zeroConfig demo_groups = Ret c ∧ Validate c = None.
Proof.
  destruct (membership_routes zeroConfig demo_groups [] eq_refl) as [(c & Hc & _ & _ & _ & Hv) _].
  exists c. split; [exact Hc|]. apply Hv; [done|].
  intros g addrs Hg%elem_of_map_to_list. vm_compute in Hg. rename Hg into Hin. intros ->.
  repeat (apply elem_of_cons in Hin as [Hin|Hin]; [done|]). by apply not_elem_of_nil in Hin.
Defined.
End Witness.
