(* ===== verification/Ctrler.v ===== *)
(** * The shard controller (05-sharded-kv/ctrler.go, ctrler_op.go, ctrler_rpc.go)

    A Raft-replicated history of configurations: the apply loop, the no-op
    proposer, the client operations, and the theorems that the history is the
    one its accepted operations produce and that versions never change. *)
From S2P Require Import Prelude Persister Dedup Waiters RaftNode ShardConfig ShardConfigFacts.
Local Open Scope Z_scope.

Record ctrlerOp := mkCtrlerOp {
  co_Type : string;
  co_JoinGroups : gmap Z (list string);
  co_LeaveGIDs : list Z;
  co_MoveShard : Z;
  co_MoveGID : Z;
  co_ClientID : Z;
  co_SeqNum : Z
}.

#[export] Instance ctrlerOp_eq_dec : EqDecision ctrlerOp.
Proof. solve_decision. Defined.

#[export] Instance ctrlerOp_countable : Countable ctrlerOp.
Proof.
  apply (inj_countable'
    (λ o, (co_Type o, co_JoinGroups o, co_LeaveGIDs o, co_MoveShard o, co_MoveGID o,
           co_ClientID o, co_SeqNum o))
    (λ '(t, j, l, s, g, c, n), mkCtrlerOp t j l s g c n)).
  by intros [].
Defined.

#[export] Instance ctrlerOp_request : Request ctrlerOp := λ op, (co_ClientID op, co_SeqNum op).

Inductive CtrlerErr := CtrlerOK | CtrlerErrWrongLeader | CtrlerErrTimeout | CtrlerErrInvalidArgs.

Record JoinArgs := mkJoinArgs {
  ja_Groups : gmap Z (list string);
  ja_ClientID : Z;
  ja_SeqNum : Z
}.

Record LeaveArgs := mkLeaveArgs {
  la_GIDs : list Z;
  la_ClientID : Z;
  la_SeqNum : Z
}.

Record MoveArgs := mkMoveArgs {
  ma_Shard : Z;
  ma_GID : Z;
  ma_ClientID : Z;
  ma_SeqNum : Z
}.

Record QueryReply := mkQueryReply {
  qr_Err : CtrlerErr;
  qr_Config : Config
}.

Record Ctrler (P : Type) := mkCtrler {
  c_rf : Raft ctrlerOp P;
  c_configs : list Config;
  c_waiters : Waiters ctrlerOp;
  c_duplicateTable : gmap Z Z;
  c_noopAppliedTerm : Z
}.
Arguments mkCtrler {P} _ _ _ _ _.
Arguments c_rf {P} _.
Arguments c_configs {P} _.
Arguments c_waiters {P} _.
Arguments c_duplicateTable {P} _.
Arguments c_noopAppliedTerm {P} _.

Section ctrler.
Context {P : Type} `{!Persister P, !Codec (persistedState ctrlerOp)}.
Abbreviation Ctrler := (Ctrler P).
Implicit Type c : Ctrler.

Definition NewCtrler (rf : Raft ctrlerOp P) : Ctrler :=
  mkCtrler rf [zeroConfig] noWaiters ∅ 0.

(** [c.configs[len(c.configs)-1]] *)
Definition latestLocked c : outcome Config :=
  or_panic (zget (c_configs c) (zlen (c_configs c) - 1)).

(** ** applyLoop *)

(** The [switch op.Type]: the version it appends, if any. *)
Definition ctrler_effect (op : ctrlerOp) (cfg : Config) : outcome (option Config) :=
  if decide (co_Type op = "Join"%string) then Some <$> Join cfg (co_JoinGroups op)
  else if decide (co_Type op = "Leave"%string) then Some <$> Leave cfg (co_LeaveGIDs op)
  else if decide (co_Type op = "Move"%string) then
    Some <$> Move cfg (co_MoveShard op) (co_MoveGID op)
  else if decide (co_Type op = "Noop"%string) then Ret None
  else Panic.

Definition ctrler_apply c (op : ctrlerOp) (term : Z) : outcome Ctrler :=
  let c := if decide (co_Type op = "Noop"%string)
           then mkCtrler (c_rf c) (c_configs c) (c_waiters c) (c_duplicateTable c) term
           else c in
  if seqOf (c_duplicateTable c) (co_ClientID op) <? co_SeqNum op
  then
    cfg ← latestLocked c;
    next ← ctrler_effect op cfg;
    Ret (mkCtrler (c_rf c) (c_configs c ++ option_list next) (c_waiters c)
           (<[co_ClientID op := co_SeqNum op]> (c_duplicateTable c)) (c_noopAppliedTerm c))
  else Ret c.

(** One iteration of applyLoop with the message it received. *)
Definition ctrler_applyLoop_msg c (msg : ApplyMsg ctrlerOp) : outcome Ctrler :=
  op ← or_panic (am_Command msg);
  c ← ctrler_apply c op (am_Term msg);
  Ret (mkCtrler (c_rf c) (c_configs c) (notify (c_waiters c) (am_Index msg) op)
         (c_duplicateTable c) (c_noopAppliedTerm c)).

Fixpoint ctrler_applyLoop c (msgs : list (ApplyMsg ctrlerOp)) : outcome Ctrler :=
  match msgs with
  | [] => Ret c
  | msg :: msgs => c ← ctrler_applyLoop_msg c msg; ctrler_applyLoop c msgs
  end.

(** ** noopLoop: one tick; its critical sections see [c1], [c2], [c3]. *)
Definition ctrler_noopLoop_tick (c1 c2 c3 : Ctrler) (lastNoopTerm : Z) :
    outcome (Ctrler * Z) :=
  match r_state (c_rf c1) with
  | Leader =>
      let term := r_currentTerm (c_rf c2) in
      if term =? lastNoopTerm then Ret (c3, lastNoopTerm)
      else
        '(rf, (_, _, isLeader)) ← Propose (c_rf c3) (mkCtrlerOp "Noop" ∅ [] 0 0 0 0);
        Ret (mkCtrler rf (c_configs c3) (c_waiters c3) (c_duplicateTable c3)
               (c_noopAppliedTerm c3),
             if isLeader : bool then term else lastNoopTerm)
  | _ => Ret (c3, lastNoopTerm)
  end.

(** ** proposeAndWait *)

Definition proposeAndWait_propose c (op : ctrlerOp) (ch : Z) :
    outcome (Ctrler * (Waiting ctrlerOp + CtrlerErr)) :=
  '(rf, (index, term, isLeader)) ← Propose (c_rf c) op;
  Ret (mkCtrler rf (c_configs c) (c_waiters c) (c_duplicateTable c) (c_noopAppliedTerm c),
       if isLeader : bool then inl (mkWaiting op index term ch)
       else inr CtrlerErrWrongLeader).

Definition proposeAndWait_register c (w : Waiting ctrlerOp) : Ctrler :=
  mkCtrler (c_rf c) (c_configs c) (register (c_waiters c) w) (c_duplicateTable c)
    (c_noopAppliedTerm c).

(** Applied operations are compared by ClientID and SeqNum only. *)
Definition proposeAndWait_select c (w : Waiting ctrlerOp) (sel : SelectCase) :
    option CtrlerErr :=
  match sel with
  | SelNotified =>
      applied ← received (c_waiters c) w;
      if negb (co_ClientID applied =? co_ClientID (w_op w)) ||
         negb (co_SeqNum applied =? co_SeqNum (w_op w))
      then Some CtrlerErrWrongLeader else Some CtrlerOK
  | SelDeadline => Some CtrlerErrTimeout
  | SelLeaderCheck =>
      if negb (r_currentTerm (c_rf c) =? w_term w) ||
         negb (bool_decide (r_state (c_rf c) = Leader))
      then Some CtrlerErrWrongLeader else None
  end.

Definition proposeAndWait_return c (w : Waiting ctrlerOp) : Ctrler :=
  mkCtrler (c_rf c) (c_configs c) (unregister (c_waiters c) w) (c_duplicateTable c)
    (c_noopAppliedTerm c).

(** ** The operation each client call hands to proposeAndWait *)

Definition Join_op (args : JoinArgs) : ctrlerOp :=
  mkCtrlerOp "Join" (ja_Groups args) [] 0 0 (ja_ClientID args) (ja_SeqNum args).

Definition Leave_op (args : LeaveArgs) : ctrlerOp :=
  mkCtrlerOp "Leave" ∅ (la_GIDs args) 0 0 (la_ClientID args) (la_SeqNum args).

(** The checks of Move before it proposes. *)
Definition Move_op c (args : MoveArgs) : outcome (ctrlerOp + CtrlerErr) :=
  if (ma_Shard args <? 0) || (Z.of_nat NShards <=? ma_Shard args)
  then Ret (inr CtrlerErrInvalidArgs)
  else
    cfg ← latestLocked c;
    match cfg_Groups cfg !! ma_GID args with
    | None => Ret (inr CtrlerErrInvalidArgs)
    | Some _ => Ret (inl (mkCtrlerOp "Move" ∅ [] (ma_Shard args) (ma_GID args)
                            (ma_ClientID args) (ma_SeqNum args)))
    end.

(** ** Query: State, Term, then the read under the lock. *)
Definition Query (c1 c2 c3 : Ctrler) (num : Z) : outcome QueryReply :=
  match r_state (c_rf c1) with
  | Leader =>
      let term := r_currentTerm (c_rf c2) in
      if negb (c_noopAppliedTerm c3 =? term)
      then Ret (mkQueryReply CtrlerErrWrongLeader zeroConfig)
      else
        let idx := if (num <? 0) || (zlen (c_configs c3) <=? num)
                   then zlen (c_configs c3) - 1 else num in
        cfg ← or_panic (zget (c_configs c3) idx);
        Ret (mkQueryReply CtrlerOK cfg)
  | _ => Ret (mkQueryReply CtrlerErrWrongLeader zeroConfig)
  end.

(** ** The history *)

(** Versions are numbered by their position and cover every shard. *)
Definition history_ok (configs : list Config) : Prop :=
  configs ≠ [] ∧
  ∀ i cfg, configs !! i = Some cfg →
    cfg_Num cfg = Z.of_nat i ∧ length (cfg_Shards cfg) = NShards.

(** [ops] take each version of the history to the next one. *)
Fixpoint produces (cfg : Config) (ops : list ctrlerOp) (later : list Config) : Prop :=
  match ops with
  | [] => later = []
  | op :: ops =>
      ∃ next, ctrler_effect op cfg = Ret next ∧
        match next with
        | None => produces cfg ops later
        | Some cfg' => ∃ later', later = cfg' :: later' ∧ produces cfg' ops later'
        end
  end.

Lemma ctrler_effect_next op cfg next :
  length (cfg_Shards cfg) = NShards → ctrler_effect op cfg = Ret (Some next) →
  cfg_Num next = cfg_Num cfg + 1 ∧ length (cfg_Shards next) = NShards.
Proof.
  intros Hlen. unfold ctrler_effect, Join, Leave, Move. repeat case_decide; try done.
  - intros (c1 & (sh & Hr & [= <-])%bind_Ret_inv & [= <-])%fmap_Ret_inv.
    destruct (rebalance_routes cfg (co_JoinGroups op ∪ cfg_Groups cfg) Hlen) as (sh' & Hr' & Hnum & _ & Hl & _).
    rewrite Hr in Hr'. injection Hr' as <-. done.
  - intros (c1 & (sh & Hr & [= <-])%bind_Ret_inv & [= <-])%fmap_Ret_inv.
    destruct (rebalance_routes cfg
      (foldl (λ g gid, delete gid g) (cfg_Groups cfg) (co_LeaveGIDs op)) Hlen) as (sh' & Hr' & Hnum & _ & Hl & _).
    rewrite Hr in Hr'. injection Hr' as <-. done.
  - destruct (bool_decide _); [|done]. intros [= <-]. simpl. by rewrite length_insert.
Qed.

Lemma latestLocked_eq c cfg : latestLocked c = Ret cfg ↔ last (c_configs c) = Some cfg.
Proof.
  unfold latestLocked. rewrite or_panic_Ret. unfold zget, zlen. rewrite last_lookup.
  destruct (c_configs c) as [|x l]; [done|]. rewrite bool_decide_true by (simpl; lia).
  by replace (Z.to_nat (Z.of_nat (length (x :: l)) - 1)) with (pred (length (x :: l))) by (simpl; lia).
Qed.

Lemma history_ok_snoc configs cfg next op :
  history_ok configs → last configs = Some cfg → ctrler_effect op cfg = Ret (Some next) →
  history_ok (configs ++ [next]).
Proof.
  intros [Hne Hall] Hlast He. rewrite last_lookup in Hlast.
  destruct (Hall _ _ Hlast) as [Hnum Hlen].
  destruct (ctrler_effect_next op cfg next Hlen He) as [Hn Hl].
  split; [by destruct configs|]. intros i x [Hi|[Hge Hx]]%lookup_app_Some; [by apply Hall|].
  destruct (i - length configs)%nat as [|k] eqn:Hk; [|done]. injection Hx as <-.
  split; [|done]. rewrite Hn, Hnum. destruct configs; [done|]. simpl in *. lia.
Qed.

(** The message of one committed entry. *)
Definition ctrlerMsg (e : Z * Z * ctrlerOp) : ApplyMsg ctrlerOp :=
  let '(index, term, op) := e in commandMsg index term op.

Lemma ctrler_apply_inv c op term c' :
  ctrler_apply c op term = Ret c' →
  if seqOf (c_duplicateTable c) (co_ClientID op) <? co_SeqNum op
  then ∃ cfg next, last (c_configs c) = Some cfg ∧ ctrler_effect op cfg = Ret next ∧
    c_configs c' = c_configs c ++ option_list next ∧
    c_duplicateTable c' = <[co_ClientID op := co_SeqNum op]> (c_duplicateTable c)
  else c_configs c' = c_configs c ∧ c_duplicateTable c' = c_duplicateTable c.
Proof.
  unfold ctrler_apply.
  set (c1 := if decide (co_Type op = "Noop"%string) then _ else c).
  assert (c_configs c1 = c_configs c ∧ c_duplicateTable c1 = c_duplicateTable c) as [Hc Hd]
    by (unfold c1; by destruct (decide _)).
  cbv zeta. rewrite Hd. destruct (_ <? _).
  - intros (cfg & Hl%latestLocked_eq & (next & He & [= <-])%bind_Ret_inv)%bind_Ret_inv.
    rewrite Hc in Hl. exists cfg, next. simpl. by rewrite Hc.
  - by intros [= <-].
Qed.

Lemma ctrler_applyLoop_history log c c' seen cfg :
  history_ok (c_configs c) → last (c_configs c) = Some cfg →
  tracks (c_duplicateTable c) seen → ctrler_applyLoop c (map ctrlerMsg log) = Ret c' →
  history_ok (c_configs c') ∧
  ∃ later, c_configs c' = c_configs c ++ later ∧
    produces cfg (accepted seen (map snd log)) later.
Proof.
  revert c seen cfg. induction log as [|[[i t] op] log IH]; intros c seen cfg Hok Hlast Hd; simpl.
  { intros [= <-]. split; [done|]. exists []. by rewrite app_nil_r. }
  intros (a & Ha & H)%bind_Ret_inv. unfold ctrler_applyLoop_msg in Ha. simpl in Ha.
  apply bind_Ret_inv in Ha as (b & Hb%ctrler_apply_inv & [= <-]).
  change (co_ClientID op) with (clientOf op) in Hb.
  change (co_SeqNum op) with (seqNum op) in Hb. rewrite <- (Hd (clientOf op)).
  set (b' := mkCtrler _ _ _ _ _) in H.
  destruct (Z.ltb_spec (seqOf (c_duplicateTable c) (clientOf op)) (seqNum op)) as [Hlt|Hge].
  - destruct Hb as (cfg' & next & Hl & He & Hcfg & Hdup). rewrite Hlast in Hl. injection Hl as <-.
    assert (tracks (c_duplicateTable b) (op :: seen)) as Hd' by (rewrite Hdup; by apply tracks_accept).
    destruct next as [next|]; simpl in Hcfg.
    + destruct (IH b' (op :: seen) next) as (Hok' & later & Hlater & Hprod); simpl.
      * rewrite Hcfg. by eapply history_ok_snoc.
      * by rewrite Hcfg, last_snoc.
      * done.
      * exact H.
      * split; [done|]. exists (next :: later). simpl in Hlater. rewrite Hlater, Hcfg, <- app_assoc.
        split; [done|]. exists (Some next). split; [done|]. by exists later.
    + rewrite app_nil_r in Hcfg.
      destruct (IH b' (op :: seen) cfg) as (Hok' & later & Hlater & Hprod); simpl;
        rewrite ?Hcfg; try done.
      split; [done|]. exists later. simpl in Hlater. rewrite Hlater, Hcfg. split; [done|]. by exists None.
  - destruct Hb as [Hcfg Hdup].
    destruct (IH b' (op :: seen) cfg) as (Hok' & later & Hlater & Hprod); simpl;
      rewrite ?Hcfg, ?Hdup; try done; [by apply tracks_skip|].
    split; [done|]. exists later. simpl in Hlater. by rewrite Hlater, Hcfg.
Qed.

(** The configuration history. On a new controller, applying a log gives
    a history that starts at the empty configuration, whose i-th version has
    Num i and an owner for every shard, and in which each version is what the
    next accepted Join, Leave or Move makes of the one before; duplicates and
    no-ops add nothing. *)
Theorem ctrler_history rf log c' :
  ctrler_applyLoop (NewCtrler rf) (map ctrlerMsg log) = Ret c' →
  history_ok (c_configs c') ∧
  ∃ later, c_configs c' = zeroConfig :: later ∧
    produces zeroConfig (accepted [] (map snd log)) later.
Proof.
  intros H. apply (ctrler_applyLoop_history log (NewCtrler rf) c' [] zeroConfig); try done.
  split; [done|]. by intros [|i] cfg [= <-].
Qed.

Lemma ctrler_applyLoop_prefix msgs c c' :
  ctrler_applyLoop c msgs = Ret c' → c_configs c `prefix_of` c_configs c'.
Proof.
  revert c. induction msgs as [|m msgs IH]; intros c; simpl; [by intros [= <-]|].
  intros (a & Ha & H)%bind_Ret_inv. etransitivity; [|by apply (IH a)].
  unfold ctrler_applyLoop_msg in Ha.
  apply bind_Ret_inv in Ha as (op & _ & (b & Hb%ctrler_apply_inv & [= <-])%bind_Ret_inv). simpl.
  destruct (_ <? _).
  - destruct Hb as (cfg & next & _ & _ & -> & _). by apply prefix_app_r.
  - by destruct Hb as [-> _].
Qed.

(** A version, once answered, is final. If a controller answers Query for
    a version number with a configuration, then every controller that has
    applied the same log and possibly more answers that number, when it
    answers at all, with the same configuration. *)
Theorem Query_final c msgs c' c1 c2 c1' c2' num cfg reply :
  0 ≤ num < zlen (c_configs c) →
  Query c1 c2 c num = Ret (mkQueryReply CtrlerOK cfg) →
  ctrler_applyLoop c msgs = Ret c' →
  Query c1' c2' c' num = Ret reply → qr_Err reply = CtrlerOK → qr_Config reply = cfg.
Proof.
  intros Hnum Hq Hrun%ctrler_applyLoop_prefix Hq' Herr. destruct Hrun as [later Hlater].
  assert (∀ ca cb cc r, Query ca cb cc num = Ret r → qr_Err r = CtrlerOK → num < zlen (c_configs cc) →
    zget (c_configs cc) num = Some (qr_Config r)) as Hread.
  { intros ca cb cc r Hr Hok Hlt. unfold Query in Hr.
    destruct (r_state (c_rf ca)); try (injection Hr as <-; done).
    destruct (negb _); [by injection Hr as <-|].
    rewrite (proj2 (Z.ltb_ge _ _)), (proj2 (Z.leb_gt _ _)) in Hr by lia. simpl in Hr.
    by apply bind_Ret_inv in Hr as (x & Hx%or_panic_Ret & [= <-]). }
  apply Hread in Hq; [|done|lia].
  assert (zget (c_configs c') num = Some (qr_Config reply)) as Hr.
  { eapply Hread; [done|done|]. rewrite Hlater, zlen_app. pose proof (zlen_nonneg later). lia. }
  rewrite Hlater, zget_app_l, Hq in Hr by lia. by injection Hr.
Qed.
End ctrler.

(** ** Witnesses *)
Module Witness.
#[local] Instance ctrler_codec : Codec (persistedState ctrlerOp) := countable_codec.

Definition join1 : ctrlerOp :=
  mkCtrlerOp "Join" {[1 := ["a"%string]; 2 := ["b"%string]]} [] 0 0 9 1.
Definition move2 : ctrlerOp := mkCtrlerOp "Move" ∅ [] 0 2 9 2.
Definition demo_log : list (Z * Z * ctrlerOp) :=
  [(1, 1, mkCtrlerOp "Noop" ∅ [] 0 0 0 0); (2, 1, join1); (3, 1, join1); (4, 1, move2)].

Definition demo_rf : Raft ctrlerOp MemoryPersister :=
  mkRaft 0 [1; 2] None Leader 1 0 [] 0 0 [] 4 4 None ∅ ∅ false.

Lemma ctrler_history_witness :
  ∃ c', ctrler_applyLoop (NewCtrler demo_rf) (map ctrlerMsg demo_log) = Ret c' ∧
    history_ok (c_configs c') ∧ length (c_configs c') = 3%nat.
Proof.
  destruct (returned_Ret (ctrler_applyLoop (NewCtrler demo_rf) (map ctrlerMsg demo_log))
    ltac:(vm_compute; reflexivity)) as [c' H].
  destruct (ctrler_history demo_rf demo_log c' H) as [Hok (later & Hl & Hp)].
  exists c'. split; [exact H|]. split; [exact Hok|].
  assert ((length ∘ c_configs) <$> ctrler_applyLoop (NewCtrler demo_rf) (map ctrlerMsg demo_log)
    = Ret 3%nat) as Hlen by (vm_compute; reflexivity).
  rewrite H in Hlen. by injection Hlen.
Defined.

Lemma Query_final_witness :
  ∃ c c' cfg, ctrler_applyLoop (NewCtrler demo_rf) (map ctrlerMsg (take 2 demo_log)) = Ret c ∧
    ctrler_applyLoop c (map ctrlerMsg (drop 2 demo_log)) = Ret c' ∧
    Query c' c' c' 1 = Ret (mkQueryReply CtrlerOK cfg) ∧ cfg_Num cfg = 1.
Proof.
  destruct (returned_Ret (ctrler_applyLoop (NewCtrler demo_rf) (map ctrlerMsg (take 2 demo_log)))
    ltac:(vm_compute; reflexivity)) as [c Hc].
  assert (c = match ctrler_applyLoop (NewCtrler demo_rf) (map ctrlerMsg (take 2 demo_log)) with
              | Ret c => c | Panic => NewCtrler demo_rf end) as Hcv by by rewrite Hc.
  vm_compute in Hcv.
  destruct (returned_Ret (ctrler_applyLoop c (map ctrlerMsg (drop 2 demo_log)))
    ltac:(subst c; vm_compute; reflexivity)) as [c' Hc'].
  destruct (returned_Ret (Query c c c 1) ltac:(subst c; vm_compute; reflexivity)) as [[e cfg] Hq].
  assert (e = CtrlerOK ∧ cfg_Num cfg = 1) as [-> Hnum].
  { subst c. vm_compute in Hq. by injection Hq as <- <-. }
  assert (c' = match ctrler_applyLoop c (map ctrlerMsg (drop 2 demo_log)) with
              | Ret c => c | Panic => NewCtrler demo_rf end) as Hcv' by by rewrite Hc'.
  destruct (returned_Ret (Query c' c' c' 1)
    ltac:(rewrite Hcv'; subst c; vm_compute; reflexivity)) as [[e' cfg'] Hq'].
  assert (e' = CtrlerOK) as ->.
  { rewrite Hcv' in Hq'. subst c. vm_compute in Hq'. by injection Hq' as <- <-. }
  assert (cfg' = cfg) as ->.
  { refine (Query_final c _ c' c c c' c' 1 cfg (mkQueryReply CtrlerOK cfg') _ Hq Hc' Hq' eq_refl).
    subst c. by vm_compute. }
  exists c, c', cfg. split_and!; [exact Hc|exact Hc'|exact Hq'|exact Hnum].
Defined.
End Witness.
