(* ===== verification/ReplicatedCtrlers.v ===== *)
(** * The replicated shard controllers

    The controllers of Ctrler.v as a service on a Raft cluster (Replicated.v).
    They keep no snapshots: a message with one stops the apply loop. In the runs
    of Replicated.v, with its restrictions on AppendEntries and snapshots, the
    histories of all controllers at all moments are initial segments of one
    history, and Query's answers agree. *)
From S2P Require Import Prelude Persister Dedup Waiters RaftNode RaftFacts RaftVotes RaftLog RaftDemo RaftCluster RaftDivergence RaftGhost RaftSafety RaftCommitted Replicated ShardConfig ShardConfigFacts Ctrler.
Local Open Scope Z_scope.

(** ** The machine *)

Definition CtrlerState : Type := list Config * gmap Z Z.

(** What applying one operation does to history and duplicate table. *)
Definition ctrler_step (st : CtrlerState) (op : ctrlerOp) : option CtrlerState :=
  if seqOf st.2 (co_ClientID op) <? co_SeqNum op
  then
    cfg ← last st.1;
    match ctrler_effect op cfg with
    | Ret next => Some (st.1 ++ option_list next, <[co_ClientID op := co_SeqNum op]> st.2)
    | Panic => None
    end
  else Some st.

#[export] Instance ctrler_machine : Machine ctrlerOp CtrlerState := {
  m_init := ([zeroConfig], ∅);
  m_step := ctrler_step
}.

Lemma run_from_history ops (st st' : CtrlerState) seen cfg :
  history_ok st.1 → last st.1 = Some cfg → tracks st.2 seen →
  run_from (Some st) ops = Some st' →
  history_ok st'.1 ∧ ∃ later, st'.1 = st.1 ++ later ∧ produces cfg (accepted seen ops) later.
Proof.
  revert st seen cfg. induction ops as [|op ops IH]; intros st seen cfg Hok Hlast Ht.
  { intros [= <-]. split; [done|]. exists []. by rewrite app_nil_r. }
  rewrite run_from_cons. simpl. intros H. pose proof (Ht (clientOf op)) as Hc. unfold ctrler_step in H.
  change (co_ClientID op) with (clientOf op) in H. change (co_SeqNum op) with (seqNum op) in H.
  rewrite Hc in H. destruct (Z.ltb_spec (maxSeq (clientOf op) seen) (seqNum op)) as [Hlt|Hge].
  - rewrite Hlast in H. simpl in H.
    destruct (ctrler_effect op cfg) as [next|] eqn:He; [|by rewrite run_from_None in H].
    assert (tracks (<[clientOf op := seqNum op]> st.2) (op :: seen)) as Ht'
      by (apply tracks_accept; [done|lia]).
    set (dup := <[clientOf op := seqNum op]> st.2) in *.
    destruct next as [next|]; simpl in H; [|rewrite app_nil_r in H].
    + destruct (IH (st.1 ++ [next], dup) (op :: seen) next) with (4 := H) as (? & later & Hl & Hp);
        [by eapply history_ok_snoc|apply last_snoc|done|].
      split; [done|]. exists (next :: later). simpl in Hl. rewrite Hl, <- app_assoc. simpl.
      split; [done|]. exists (Some next). split; [done|]. by exists later.
    + destruct (IH (st.1, dup) (op :: seen) cfg) with (4 := H) as (? & later & Hl & Hp); [done..|].
      split; [done|]. exists later. split; [done|]. by exists None.
  - apply (IH st (op :: seen) cfg); [done..| |done]. apply tracks_skip; [done|lia].
Qed.

Lemma run_from_prefix ops (st st' : CtrlerState) :
  run_from (Some st) ops = Some st' → st.1 `prefix_of` st'.1.
Proof.
  revert st. induction ops as [|op ops IH]; intros st; [by intros [= <-]|].
  rewrite run_from_cons. simpl. unfold ctrler_step. destruct (_ <? _); [|apply IH].
  destruct (last st.1); simpl; [|by rewrite run_from_None].
  destruct (ctrler_effect _ _); [|by rewrite run_from_None].
  intros H%IH. etransitivity; [|exact H]. simpl. by apply prefix_app_r.
Qed.

(** Operations the switch knows, Moves of a shard there is. *)
Definition cop_known (op : ctrlerOp) : Prop :=
  co_Type op ∈ ["Join"; "Leave"; "Move"; "Noop"]%string ∧
  (co_Type op = "Move"%string → 0 ≤ co_MoveShard op < Z.of_nat NShards).

Lemma ctrler_effect_returns op cfg :
  cop_known op → length (cfg_Shards cfg) = NShards → ∃ next, ctrler_effect op cfg = Ret next.
Proof.
  intros [Ht Hmove] Hlen. unfold ctrler_effect, Join, Leave, Move.
  assert (∀ groups, ∃ sh, rebalance (cfg_Shards cfg) groups = Ret sh) as Hreb
    by (intros groups; destruct (rebalance_routes cfg groups Hlen) as (sh & ? & _); by exists sh).
  destruct (Hreb (co_JoinGroups op ∪ cfg_Groups cfg)) as [sh1 ->].
  destruct (Hreb (foldl (λ g gid, delete gid g) (cfg_Groups cfg) (co_LeaveGIDs op))) as [sh2 ->].
  destruct (decide (co_Type op = "Move"%string)) as [Hm|Hm];
    [rewrite bool_decide_true by auto|]; simpl; repeat case_decide; try by eexists.
  rewrite !elem_of_cons in Ht. by destruct Ht as [?|[?|[?|[?|[]%not_elem_of_nil]]]].
Qed.

Lemma ctrler_run_known ops (st : CtrlerState) :
  Forall cop_known ops → history_ok st.1 → is_Some (run_from (Some st) ops).
Proof.
  revert st. induction ops as [|op ops IH]; intros st; [by eexists|].
  intros [Hop Hops]%Forall_cons Hok. rewrite run_from_cons. simpl. unfold ctrler_step.
  destruct (_ <? _); [|by apply IH].
  destruct (last st.1) as [cfg|] eqn:Hlast; [|apply last_None in Hlast; by destruct Hok]. simpl.
  assert (length (cfg_Shards cfg) = NShards) as Hlen.
  { destruct Hok as [_ Hall]. pose proof Hlast as Hl. rewrite last_lookup in Hl. by destruct (Hall _ _ Hl). }
  destruct (ctrler_effect_returns op cfg Hop Hlen) as [[next|] He]; rewrite He; simpl;
    (apply IH; [done|]); simpl; [|by rewrite app_nil_r]. by eapply history_ok_snoc.
Qed.

(** ** The server *)

Section server.
Context {P : Type} `{!Persister P, !PersisterLaws P, !Codec (persistedState ctrlerOp)}.
Abbreviation Raft := (Raft ctrlerOp P).
Abbreviation Ctrler := (Ctrler P).
Implicit Type c : Ctrler.

Definition set_c_rf (rf : Raft) c : Ctrler :=
  mkCtrler rf (c_configs c) (c_waiters c) (c_duplicateTable c) (c_noopAppliedTerm c).

#[export] Instance ctrler_server : Server ctrlerOp P Ctrler CtrlerState := {
  srv_rf := c_rf;
  srv_with := set_c_rf;
  srv_state c := (c_configs c, c_duplicateTable c);
  srv_noop := c_noopAppliedTerm;
  srv_good _ := True;
  srv_snap _ _ := False;
  srv_process := ctrler_applyLoop_msg;
  srv_boot r c := c = NewCtrler r
}.

Lemma ctrler_apply_frame c op term c' :
  ctrler_apply c op term = Ret c' → c_rf c' = c_rf c ∧
  (c_noopAppliedTerm c' = c_noopAppliedTerm c ∨ c_noopAppliedTerm c' = term).
Proof.
  unfold ctrler_apply. set (c1 := if decide (co_Type op = "Noop"%string) then _ else c).
  assert (c_rf c1 = c_rf c ∧
    (c_noopAppliedTerm c1 = c_noopAppliedTerm c ∨ c_noopAppliedTerm c1 = term)) as [Hr Hn]
    by (unfold c1; destruct (decide _); auto).
  cbv zeta. destruct (_ <? _); [|by intros [= <-]].
  intros (cfg & _ & (next & _ & [= <-])%bind_Ret_inv)%bind_Ret_inv. done.
Qed.

#[export] Instance ctrler_server_laws : ServerLaws ctrler_machine ctrler_server.
Proof.
  assert (∀ c m c', ctrler_applyLoop_msg c m = Ret c' → ∃ op c1, am_Command m = Some op ∧
    ctrler_apply c op (am_Term m) = Ret c1 ∧
    c' = mkCtrler (c_rf c1) (c_configs c1) (notify (c_waiters c1) (am_Index m) op)
           (c_duplicateTable c1) (c_noopAppliedTerm c1)) as Hmsg.
  { unfold ctrler_applyLoop_msg.
    intros c m c' (op & Hop%or_panic_Ret & (c1 & H1 & [= <-])%bind_Ret_inv)%bind_Ret_inv. by exists op, c1. }
  split; simpl.
  - done.
  - done.
  - intros c m c' (op & c1 & _ & [Hr _]%ctrler_apply_frame & ->)%Hmsg. by left.
  - intros c i t op c' _ (op' & c1 & [= <-] & H1 & ->)%Hmsg. simpl.
    destruct (ctrler_apply_frame _ _ _ _ H1) as [-> Hn]. split_and!; [done| |done|by left].
    apply ctrler_apply_inv in H1. unfold ctrler_step. simpl. destruct (_ <? _).
    + destruct H1 as (cfg & next & -> & He & -> & ->). simpl. by rewrite He.
    + by destruct H1 as [-> ->].
  - done.
  - intros r c ->. done.
Qed.

#[export] Instance ctrler_server_total : ServerTotal ctrler_machine ctrler_server.
Proof.
  split; simpl; [|by intros ? ? ? ? ? []|by intros r _; eexists].
  intros c i t op st _ Hs _. unfold ctrler_applyLoop_msg. simpl.
  assert (returned (ctrler_apply c op t) = true) as [c' ->]%returned_Ret; [|done].
  revert Hs. unfold ctrler_step, ctrler_apply. simpl.
  set (c1 := if decide (co_Type op = "Noop"%string) then _ else c).
  assert (c_configs c1 = c_configs c ∧ c_duplicateTable c1 = c_duplicateTable c) as [<- <-]
    by (unfold c1; by destruct (decide _)).
  destruct (_ <? _); [|done]. intros (cfg & Hcfg & Hs)%bind_Some.
  rewrite (proj2 (latestLocked_eq c1 cfg) Hcfg). simpl. by destruct (ctrler_effect op cfg).
Qed.
End server.

(** ** One history *)

Section agreement.
Context {P : Type} `{!Persister P, !PersisterLaws P, !Codec (persistedState ctrlerOp)}.
Abbreviation Ctrler := (Ctrler P).
Abbreviation Machines := (Machines (Op:=ctrlerOp) (P:=P) (Srv:=Ctrler)).
Context (members : list Z) (Hnodup : NoDup members) (Hids : ∀ i, i ∈ members → 0 ≤ i).
Implicit Type x : Machines.

Lemma machine_history x Ld i r a :
  machines_ok members x Ld → c_nodes x.1 !! i = Some r → x.2 !! i = Some a →
  history_ok (c_configs (rp_srv a)) ∧
  ∃ later, c_configs (rp_srv a) = zeroConfig :: later ∧
    produces zeroConfig (accepted [] (upto (rp_index a) (opsOf x.1))) later.
Proof.
  intros Hok Hi Ha. destruct (replica_state members x Ld i r a Hok Hi Ha) as [_ Hrun].
  apply (run_from_history _ _ _ [] zeroConfig) in Hrun; [done| |done|apply tracks_nil].
  split; [done|]. by intros [|k] cfg [= <-].
Qed.

Lemma histories_comparable x x' Ld i j r r' a b :
  machines_ok members x Ld → rtc machine_step x x' →
  c_nodes x.1 !! i = Some r → x.2 !! i = Some a →
  c_nodes x'.1 !! j = Some r' → x'.2 !! j = Some b →
  c_configs (rp_srv a) `prefix_of` c_configs (rp_srv b) ∨
  c_configs (rp_srv b) `prefix_of` c_configs (rp_srv a).
Proof.
  intros Hok Hrtc Hi Ha Hj Hb.
  destruct (replicas_comparable members Hnodup Hids x x' Ld i j r r' a b)
    as (ops & [[_ H]|[_ H]]); [done..|left|right]; by apply run_from_prefix in H.
Qed.

(** Query answers from the history. *)
Lemma Query_reads (c1 c2 c3 : Ctrler) num reply :
  Query c1 c2 c3 num = Ret reply → qr_Err reply = CtrlerOK →
  c_noopAppliedTerm c3 = r_currentTerm (c_rf c2) ∧
  ∃ k, zget (c_configs c3) k = Some (qr_Config reply).
Proof.
  unfold Query. intros H Herr. destruct (r_state (c_rf c1)); try (injection H as <-; done).
  destruct (Z.eqb_spec (c_noopAppliedTerm c3) (r_currentTerm (c_rf c2))); [|by injection H as <-].
  simpl in H. apply bind_Ret_inv in H as (cfg & Hcfg%or_panic_Ret & [= <-]). split; [done|eauto].
Qed.

(** A version's number is its place. *)
Lemma numbered configs k cfg :
  history_ok configs → zget configs k = Some cfg → cfg_Num cfg = k.
Proof.
  intros [_ Hall]. unfold zget. case_bool_decide; [|done]. intros Hk%Hall. lia.
Qed.

(** C30: one history of configurations. In the runs of Replicated.v -
    elections, lost, delayed and repeated messages, crashes and restarts of nodes
    with their controllers, but no AppendEntries overtaken by a later one is
    delivered, no snapshot behind what a node has applied is installed and no
    entry is handed over while a snapshot waits - two controllers, at the same or
    different moments, have histories one of which is a prefix of the other; each
    starts at the empty configuration, has version i at place i, and is what the
    accepted operations of the first so many committed ones make of it. Where
    the committed operations are Joins, Leaves, Moves of existing shards and
    no-ops, and saves succeed, the apply loop returns from whatever message is
    next on its channel. *)
Theorem controllers_share_history `{!PersisterTotal P} x x' i j r r' a b :
  machines_reachable members x → rtc machine_step x x' →
  c_nodes x.1 !! i = Some r → x.2 !! i = Some a →
  c_nodes x'.1 !! j = Some r' → x'.2 !! j = Some b →
  (c_configs (rp_srv a) `prefix_of` c_configs (rp_srv b) ∨
   c_configs (rp_srv b) `prefix_of` c_configs (rp_srv a)) ∧
  history_ok (c_configs (rp_srv a)) ∧
  (∃ later, c_configs (rp_srv a) = zeroConfig :: later ∧
    produces zeroConfig (accepted [] (upto (rp_index a) (opsOf x.1))) later) ∧
  (Forall cop_known (opsOf x.1) → ∀ m q, rp_queue a = m :: q →
     returned (ctrler_applyLoop_msg (set_c_rf r (rp_srv a)) m) = true).
Proof.
  intros (Ld & Hok)%(machines_reachable_ok members Hnodup Hids) Hrtc Hi Ha Hj Hb.
  split_and!; [by eapply histories_comparable|by eapply machine_history..|].
  intros Hops. destruct (never_panics members x Ld i r a Hok) as (_ & Hmsg & _); [|done..].
  apply ctrler_run_known; [done|]. split; [done|]. by intros [|k] cfg [= <-].
Qed.

(** C31: what Query answers. In the runs of Replicated.v - no overtaken
    AppendEntries delivered, no snapshot behind what a node has applied
    installed, no entry handed over while a snapshot waits - take two Queries,
    for whatever version, answered OK by any controllers of the cluster at any
    two moments: if the answers have the same number they are the same
    configuration. And an answer comes from a history that contains every version
    by a committed entry of a term before the one the controller leads in, also
    of entries that are only known as committed later. *)
Theorem Query_answers_agree x x' i j r r' a b c1 c2 d1 d2 num num' p q :
  machines_reachable members x → rtc machine_step x x' →
  c_nodes x.1 !! i = Some r → x.2 !! i = Some a →
  c_nodes x'.1 !! j = Some r' → x'.2 !! j = Some b →
  Query c1 c2 (set_c_rf r (rp_srv a)) num = Ret p → qr_Err p = CtrlerOK →
  Query d1 d2 (set_c_rf r' (rp_srv b)) num' = Ret q → qr_Err q = CtrlerOK →
  (cfg_Num (qr_Config p) = cfg_Num (qr_Config q) → qr_Config p = qr_Config q) ∧
  ∀ k e, entryOf (committedLog (c_hist x'.1)) k = Some e →
    le_Term e < r_currentTerm (c_rf c2) → k ≤ rp_index a.
Proof.
  intros Hr Hrtc Hi Ha Hj Hb Hp Ep Hq Eq.
  destruct (machines_reachable_ok members Hnodup Hids x Hr) as [Ld Hok].
  destruct (machine_steps_ok members Hnodup Hids x x' Ld Hok Hrtc) as (Ld' & Hok' & _).
  destruct (Query_reads _ _ _ _ _ Hp Ep) as [Hterm (k & Hk)].
  destruct (Query_reads _ _ _ _ _ Hq Eq) as [_ (l & Hl)]. simpl in *. split.
  - intros Hnum. destruct (machine_history x Ld i r a Hok Hi Ha) as [Hha _].
    destruct (machine_history x' Ld' j r' b Hok' Hj Hb) as [Hhb _].
    rewrite (numbered _ _ _ Hha Hk), (numbered _ _ _ Hhb Hl) in Hnum. subst l.
    pose proof (zget_Some_bound _ _ _ Hk). pose proof (zget_Some_bound _ _ _ Hl).
    destruct (histories_comparable x x' Ld i j r r' a b) as [Hpre|Hpre]; [done..| |].
    + rewrite (zget_prefix _ _ _ Hpre) in Hk by lia. congruence.
    + rewrite (zget_prefix _ _ _ Hpre) in Hl by lia. congruence.
  - intros m e He Hlt. apply (noop_passes members Hnodup Hids x x' Ld i r a m e); try done.
    simpl. lia.
Qed.
End agreement.

(** ** Witnesses *)
Module Witness.
#[local] Instance ctrler_codec : Codec (persistedState ctrlerOp) := countable_codec.

Abbreviation CtrlerMachines :=
  (Machines (Op:=ctrlerOp) (P:=MemoryPersister) (Srv:=Ctrler MemoryPersister)).
Abbreviation Acts := (list (Action (Cmd:=ctrlerOp) + ApplyAct)).

(** Node 0 is elected, commits its no-op and a Join with node 1 and applies
    them; then node 1 hears of it and applies them, too. *)
Definition join1 : ctrlerOp := mkCtrlerOp "Join" {[1 := ["a"%string]; 2 := ["b"%string]]} [] 0 0 9 1.

Definition commit_join : Acts :=
  map inl [ ATimeout 0; ABeginElection; ADeliver 0;
    AVoteReply 0 0; APropose 0 (mkCtrlerOp "Noop" ∅ [] 0 0 0 0);
    APropose 0 join1; AReplicate 0 1; ADeliver 0;
    AReply 0 ] ++
  map inr [ETake 0; EProcess 0; ETake 0; EProcess 0].
Definition follow : Acts :=
  map inl [AReplicate 0 1; ADeliver 0] ++
  map inr [ETake 1; EProcess 1; ETake 1; EProcess 1].

Definition boot : CtrlerMachines := fresh_machines Demo.members NewCtrler.
Definition joined : CtrlerMachines := default boot (perform_machines boot commit_join).
Definition followed : CtrlerMachines := default boot (perform_machines joined follow).

Lemma joined_reachable : machines_reachable Demo.members joined.
Proof.
  exists boot. split; [by apply fresh_machines_init|].
  apply (perform_machines_sound commit_join). vm_compute. reflexivity.
Qed.

Lemma ctrlers_followed_after : rtc machine_step joined followed.
Proof. apply (perform_machines_sound follow). vm_compute. reflexivity. Qed.

Definition node_of (x : CtrlerMachines) (i : Z) := default (freshRaft 0 [] None) (c_nodes x.1 !! i).
Definition replica_of (x : CtrlerMachines) (i : Z) :=
  default (mkReplica (NewCtrler (freshRaft 0 [] None)) 0 []) (x.2 !! i).

Lemma controllers_share_history_witness :
  (c_configs (rp_srv (replica_of joined 0)) `prefix_of` c_configs (rp_srv (replica_of followed 1)) ∨
   c_configs (rp_srv (replica_of followed 1)) `prefix_of` c_configs (rp_srv (replica_of joined 0))) ∧
  length (c_configs (rp_srv (replica_of joined 0))) = 2%nat ∧
  length (c_configs (rp_srv (replica_of followed 1))) = 2%nat.
Proof.
  destruct (controllers_share_history Demo.members (proj1 RaftSafety.Witness.members_ok)
    (proj2 RaftSafety.Witness.members_ok) joined followed 0 1 (node_of joined 0)
    (node_of followed 1) (replica_of joined 0) (replica_of followed 1)
    joined_reachable ctrlers_followed_after) as [Hp _]; [vm_compute; reflexivity..|].
  split; [exact Hp|]. split; vm_compute; reflexivity.
Defined.

(** Node 0 answers with its newest version, and later for version 1. *)
Definition ctrler_of (x : CtrlerMachines) := set_c_rf (node_of x 0) (rp_srv (replica_of x 0)).
Definition query (x : CtrlerMachines) (num : Z) : outcome QueryReply :=
  Query (ctrler_of x) (ctrler_of x) (ctrler_of x) num.
Definition answers (q : QueryReply) : CtrlerErr * Z := (qr_Err q, cfg_Num (qr_Config q)).

Lemma Query_answers_agree_witness :
  ∃ p q, query joined (-1) = Ret p ∧ query followed 1 = Ret q ∧
    cfg_Num (qr_Config p) = 1 ∧ qr_Config p = qr_Config q.
Proof.
  assert (answers <$> query joined (-1) = Ret (CtrlerOK, 1)) as Ap by (vm_compute; reflexivity).
  assert (answers <$> query followed 1 = Ret (CtrlerOK, 1)) as Aq by (vm_compute; reflexivity).
  destruct (returned_Ret (query joined (-1)) ltac:(vm_compute; reflexivity)) as [p Hp].
  destruct (returned_Ret (query followed 1) ltac:(vm_compute; reflexivity)) as [q Hq].
  rewrite Hp in Ap. rewrite Hq in Aq. injection Ap as Ep Np. injection Aq as Eq Nq. exists p, q. split; [exact Hp|]. split; [exact Hq|]. split; [exact Np|].
  destruct (Query_answers_agree Demo.members (proj1 RaftSafety.Witness.members_ok)
    (proj2 RaftSafety.Witness.members_ok) joined followed 0 0 (node_of joined 0)
    (node_of followed 0) (replica_of joined 0) (replica_of followed 0) (ctrler_of joined) (ctrler_of joined)
    (ctrler_of followed) (ctrler_of followed) (-1) 1 p q
    joined_reachable ctrlers_followed_after) as [H _];
    [vm_compute; reflexivity..|exact Hp|exact Ep|exact Hq|exact Eq|].
  apply H. by rewrite Np, Nq.
Defined.
End Witness.
