(* ===== verification/GroupServer.v ===== *)
(** * A shard group's server (05-sharded-kv/group_server.go, group_op.go,
      group_rpc.go)

    The state machine a GroupServer runs over its Raft node's committed log -
    writes gated by ownership, configuration changes, migrated shards landing,
    garbage collection - its handlers, and one tick of each of its loops, split
    where they release a lock or turn to the next shard. *)
From S2P Require Import Prelude Persister Dedup Waiters RaftNode ShardConfig.
Local Open Scope Z_scope.

(** ** Data *)

Record groupOp := mkGroupOp {
  go_Type : string;
  go_Key : string;
  go_Value : string;
  go_Config : Config;
  go_Shard : Z;
  go_Data : gmap string string;
  go_DupTable : gmap Z Z;
  go_ClientID : Z;
  go_SeqNum : Z
}.

#[export] Instance groupOp_eq_dec : EqDecision groupOp.
Proof. solve_decision. Defined.

#[export] Instance groupOp_countable : Countable groupOp.
Proof.
  apply (inj_countable'
    (λ o, (go_Type o, go_Key o, go_Value o, go_Config o, go_Shard o, go_Data o,
           go_DupTable o, go_ClientID o, go_SeqNum o))
    (λ '(t, k, v, c, s, d, u, i, n), mkGroupOp t k v c s d u i n)).
  by intros [].
Defined.

#[export] Instance groupOp_request : Request groupOp := λ op, (go_ClientID op, go_SeqNum op).

Inductive GroupErr :=
| GroupOK | GroupErrNoKey | GroupErrWrongLeader | GroupErrWrongGroup | GroupErrTimeout
| GroupErrNotReady.

#[export] Instance GroupErr_eq_dec : EqDecision GroupErr.
Proof. solve_decision. Defined.

Record GroupGetReply := mkGroupGetReply { ggr_Err : GroupErr; ggr_Value : string }.

Record GroupPutAppendArgs := mkGroupPutAppendArgs {
  gpa_Key : string;
  gpa_Value : string;
  gpa_Op : string;
  gpa_ClientID : Z;
  gpa_SeqNum : Z
}.

Record PullArgs := mkPullArgs { pl_Shard : Z; pl_ConfigNum : Z }.

Record PullReply := mkPullReply {
  plr_Err : GroupErr;
  plr_Data : gmap string string;
  plr_DupTable : gmap Z Z
}.

Record HasShardReply := mkHasShardReply { hsr_Err : GroupErr; hsr_Ready : bool }.

Record groupApplyResult := mkGroupApplyResult {
  gar_op : groupOp;
  gar_err : GroupErr
}.

Record groupSnapshot := mkGroupSnapshot {
  gs_Store : gmap string string;
  gs_DuplicateTable : gmap Z Z;
  gs_Cfg : Config;
  gs_Migrating : gmap Z Z;
  gs_Leaving : gmap Z Z
}.

#[export] Instance groupSnapshot_eq_dec : EqDecision groupSnapshot.
Proof. solve_decision. Defined.

#[export] Instance groupSnapshot_countable : Countable groupSnapshot.
Proof.
  apply (inj_countable'
    (λ s, (gs_Store s, gs_DuplicateTable s, gs_Cfg s, gs_Migrating s, gs_Leaving s))
    (λ '(s, d, c, m, l), mkGroupSnapshot s d c m l)).
  by intros [].
Defined.

(** The replicated part of the server: what applyLoop alone writes. *)
Record GroupState := mkGroupState {
  g_cfg : Config;
  g_store : gmap string string;
  g_migrating : gmap Z Z;
  g_leaving : gmap Z Z;
  g_duplicateTable : gmap Z Z
}.

Record GroupServer (P : Type) := mkGroupServer {
  s_rf : Raft groupOp P;
  s_gid : Z;
  s_state : GroupState;
  s_waiters : Waiters groupApplyResult;
  s_noopAppliedTerm : Z;
  s_maxRaftState : Z
}.
Arguments mkGroupServer {P} _ _ _ _ _ _.
Arguments s_rf {P} _.
Arguments s_gid {P} _.
Arguments s_state {P} _.
Arguments s_waiters {P} _.
Arguments s_noopAppliedTerm {P} _.
Arguments s_maxRaftState {P} _.

Definition initState : GroupState := mkGroupState zeroConfig ∅ ∅ ∅ ∅.

(** [c.Shards[shard]] for a shard of the array. *)
Definition ownerOf (c : Config) (shard : Z) : Z :=
  default 0 (zget (cfg_Shards c) shard).

(** The part of the store that belongs to a shard. *)
Definition shardData (shard : Z) (store : gmap string string) : gmap string string :=
  filter (λ kv, Key2Shard kv.1 = shard) store.

(** ** The state machine *)

Section state.
Context (gid : Z).
Implicit Type st : GroupState.

Definition ownsLocked st (key : string) : bool :=
  let shard := Key2Shard key in
  if negb (ownerOf (g_cfg st) shard =? gid) then false
  else match g_migrating st !! shard with Some _ => false | None => true end.

(** The loop over the shards when a configuration is adopted. *)
Fixpoint adoptShards (old new : Config) (shards : list Z) (migrating leaving : gmap Z Z) :
    gmap Z Z * gmap Z Z :=
  match shards with
  | [] => (migrating, leaving)
  | shard :: shards =>
      let oldOwner := ownerOf old shard in
      let newOwner := ownerOf new shard in
      let migrating :=
        if (newOwner =? gid) && negb (oldOwner =? gid) && negb (oldOwner =? 0)
        then <[shard := oldOwner]> migrating else migrating in
      let leaving :=
        if (oldOwner =? gid) && negb (newOwner =? gid) && negb (newOwner =? 0)
        then <[shard := newOwner]> leaving else leaving in
      adoptShards old new shards migrating leaving
  end.

Definition allShards : list Z := map Z.of_nat (seq 0 NShards).

Definition applyConfig st (new : Config) : GroupState :=
  if cfg_Num new =? cfg_Num (g_cfg st) + 1
  then
    let '(migrating, leaving) :=
      adoptShards (g_cfg st) new allShards (g_migrating st) (g_leaving st) in
    mkGroupState new (g_store st) migrating leaving (g_duplicateTable st)
  else st.

(** Merge the donor's dedup table, keeping the larger SeqNum. *)
Definition mergeDup (mine donor : gmap Z Z) : gmap Z Z :=
  map_fold (λ client seq dup,
    if seqOf dup client <? seq then <[client := seq]> dup else dup) mine donor.

Definition applyMigrate st (op : groupOp) : GroupState :=
  match g_migrating st !! go_Shard op with
  | Some _ =>
      mkGroupState (g_cfg st) (go_Data op ∪ g_store st)
        (delete (go_Shard op) (g_migrating st)) (g_leaving st)
        (mergeDup (g_duplicateTable st) (go_DupTable op))
  | None => st
  end.

Definition applyGC st (shard : Z) : GroupState :=
  match g_leaving st !! shard with
  | Some _ =>
      mkGroupState (g_cfg st) (filter (λ kv, Key2Shard kv.1 ≠ shard) (g_store st))
        (g_migrating st) (delete shard (g_leaving st)) (g_duplicateTable st)
  | None => st
  end.

Definition applyWrite st (op : groupOp) : GroupState * GroupErr :=
  if negb (ownsLocked st (go_Key op)) then (st, GroupErrWrongGroup)
  else if seqOf (g_duplicateTable st) (go_ClientID op) <? go_SeqNum op
  then
    let value :=
      if decide (go_Type op = "Put"%string) then go_Value op
      else default "" (g_store st !! go_Key op) +:+ go_Value op in
    (mkGroupState (g_cfg st) (<[go_Key op := value]> (g_store st)) (g_migrating st)
       (g_leaving st) (<[go_ClientID op := go_SeqNum op]> (g_duplicateTable st)), GroupOK)
  else (st, GroupOK).

(** The [switch op.Type] of applyLoop (its Noop case also sets
    noopAppliedTerm, below). *)
Definition applyGroupOp st (op : groupOp) : outcome (GroupState * GroupErr) :=
  if decide (go_Type op = "Noop"%string) then Ret (st, GroupOK)
  else if decide (go_Type op = "Config"%string) then Ret (applyConfig st (go_Config op), GroupOK)
  else if decide (go_Type op = "Migrate"%string) then Ret (applyMigrate st op, GroupOK)
  else if decide (go_Type op = "GC"%string) then Ret (applyGC st (go_Shard op), GroupOK)
  else if decide (go_Type op = "Put"%string ∨ go_Type op = "Append"%string)
  then Ret (applyWrite st op)
  else Panic.

(** ** Pull and HasShard read the replicated state only *)

Definition Pull st (args : PullArgs) : PullReply :=
  if cfg_Num (g_cfg st) <? pl_ConfigNum args then mkPullReply GroupErrNotReady ∅ ∅
  else
    match g_migrating st !! pl_Shard args with
    | Some _ => mkPullReply GroupErrNotReady ∅ ∅
    | None => mkPullReply GroupOK (shardData (pl_Shard args) (g_store st)) (g_duplicateTable st)
    end.

(** [s.cfg.Shards[args.Shard]] panics out of range. *)
Definition HasShard st (shard : Z) : outcome HasShardReply :=
  owner ← or_panic (zget (cfg_Shards (g_cfg st)) shard);
  let stillMigrating :=
    match g_migrating st !! shard with Some _ => true | None => false end in
  Ret (mkHasShardReply GroupOK ((owner =? gid) && negb stillMigrating)).
End state.

Section server.
Context {P : Type} `{!Persister P, !Codec (persistedState groupOp), !Codec groupSnapshot}.
Abbreviation GroupServer := (GroupServer P).
Implicit Type s : GroupServer.

Definition set_state v s : GroupServer :=
  mkGroupServer (s_rf s) (s_gid s) v (s_waiters s) (s_noopAppliedTerm s) (s_maxRaftState s).
Definition set_rf v s : GroupServer :=
  mkGroupServer v (s_gid s) (s_state s) (s_waiters s) (s_noopAppliedTerm s) (s_maxRaftState s).
Definition set_waiters v s : GroupServer :=
  mkGroupServer (s_rf s) (s_gid s) (s_state s) v (s_noopAppliedTerm s) (s_maxRaftState s).
Definition set_noopAppliedTerm v s : GroupServer :=
  mkGroupServer (s_rf s) (s_gid s) (s_state s) (s_waiters s) v (s_maxRaftState s).

(** ** Snapshots *)

Definition restoreSnapshot s (data : bytes) : outcome GroupServer :=
  snap ← or_panic (gob_decode data);
  Ret (set_state (mkGroupState (gs_Cfg snap) (gs_Store snap) (gs_Migrating snap)
                    (gs_Leaving snap) (gs_DuplicateTable snap)) s).

Definition snapshotOf (st : GroupState) : groupSnapshot :=
  mkGroupSnapshot (g_store st) (g_duplicateTable st) (g_cfg st) (g_migrating st) (g_leaving st).

Definition snapshotLocked s (index : Z) : outcome GroupServer :=
  '(rf, err) ← Snapshot (s_rf s) index (gob_encode (snapshotOf (s_state s)));
  match err with
  | None => Ret (set_rf rf s)
  | Some _ => Panic
  end.

Definition NewGroupServer (rf : Raft groupOp P) (gid maxRaftState : Z) : outcome GroupServer :=
  let s := mkGroupServer rf gid initState noWaiters 0 maxRaftState in
  match ReadSnapshotData rf with
  | [] => Ret s
  | data => restoreSnapshot s data
  end.

(** ** applyLoop: one iteration with the message it received *)

Definition applyLoop_msg s (msg : ApplyMsg groupOp) : outcome GroupServer :=
  if am_SnapshotValid msg then restoreSnapshot s (am_Snapshot msg)
  else
    op ← or_panic (am_Command msg);
    let s := if decide (go_Type op = "Noop"%string)
             then set_noopAppliedTerm (am_Term msg) s else s in
    '(st, err) ← applyGroupOp (s_gid s) (s_state s) op;
    let s := set_state st s in
    let s := set_waiters (notify (s_waiters s) (am_Index msg) (mkGroupApplyResult op err)) s in
    if negb (s_maxRaftState s =? -1) && (s_maxRaftState s <=? RaftStateSize (s_rf s))
    then snapshotLocked s (am_Index msg)
    else Ret s.

(** ** The background loops, one tick each *)

(** Each critical section sees the server as it is then: [s1], [s2], [s3]. *)
Definition noopLoop_tick (s1 s2 s3 : GroupServer) (lastNoopTerm : Z) :
    outcome (GroupServer * Z) :=
  match r_state (s_rf s1) with
  | Leader =>
      let term := r_currentTerm (s_rf s2) in
      if term =? lastNoopTerm then Ret (s3, lastNoopTerm)
      else
        '(rf, (_, _, isLeader)) ←
          Propose (s_rf s3) (mkGroupOp "Noop" "" "" zeroConfig 0 ∅ ∅ 0 0);
        Ret (set_rf rf s3, if isLeader : bool then term else lastNoopTerm)
  | _ => Ret (s3, lastNoopTerm)
  end.

(** [query] is the controller's answer to Query. *)
Definition configPollLoop_tick (s1 s2 s3 : GroupServer) (query : Z → Config)
    (lastProposed : Z) : outcome (GroupServer * Z) :=
  match r_state (s_rf s1) with
  | Leader =>
      let nextNum := cfg_Num (g_cfg (s_state s2)) + 1 in
      if nextNum =? lastProposed then Ret (s3, lastProposed)
      else
        let next := query nextNum in
        if negb (cfg_Num next =? nextNum) then Ret (s3, lastProposed)
        else
          '(rf, (_, _, isLeader)) ←
            Propose (s_rf s3) (mkGroupOp "Config" "" "" next 0 ∅ ∅ 0 0);
          Ret (set_rf rf s3, if isLeader : bool then nextNum else lastProposed)
  | _ => Ret (s3, -1)
  end.

(** pullFrom: [donors] are the states the donor group's replicas answer from. *)
Fixpoint pullFrom (donors : list GroupState) (args : PullArgs) : option PullReply :=
  match donors with
  | [] => None
  | donor :: donors =>
      let reply := Pull donor args in
      if decide (plr_Err reply = GroupOK) then Some reply else pullFrom donors args
  end.

(** migrationLoop for one pending shard. *)
Definition migrationLoop_shard s (proposed : gset Z) (shard configNum : Z)
    (donors : list GroupState) : outcome (GroupServer * gset Z) :=
  if decide (shard ∈ proposed) then Ret (s, proposed)
  else
    match pullFrom donors (mkPullArgs shard configNum) with
    | None => Ret (s, proposed)
    | Some reply =>
        '(rf, (_, _, isLeader)) ← Propose (s_rf s)
          (mkGroupOp "Migrate" "" "" zeroConfig shard (plr_Data reply) (plr_DupTable reply) 0 0);
        Ret (set_rf rf s, if isLeader : bool then {[shard]} ∪ proposed else proposed)
    end.

(** The turn of one shard of [pending] in a tick: the server as it is then, and
    the states the other group's replicas answer from. *)
Record Turn := mkTurn {
  tu_shard : Z;
  tu_gid : Z;
  tu_server : GroupServer;
  tu_others : list GroupState
}.

(** The loop over [pending], a copy of migrating, in the order Go's map
    iteration takes; the servers it leaves, turn by turn. *)
Fixpoint migrationLoop_turns (proposed : gset Z) (configNum : Z) (turns : list Turn) :
    outcome (list GroupServer * gset Z) :=
  match turns with
  | [] => Ret ([], proposed)
  | t :: turns =>
      '(s, proposed) ← migrationLoop_shard (tu_server t) proposed (tu_shard t) configNum (tu_others t);
      '(ss, proposed) ← migrationLoop_turns proposed configNum turns;
      Ret (s :: ss, proposed)
  end.

(** A tick: State, then the copy under the lock, then the turns. *)
Definition migrationLoop_tick (s1 s2 : GroupServer) (proposed : gset Z) (turns : list Turn) :
    outcome (list GroupServer * gset Z) :=
  match r_state (s_rf s1) with
  | Leader => migrationLoop_turns proposed (cfg_Num (g_cfg (s_state s2))) turns
  | _ => Ret ([], ∅)
  end.

(** recipientReady: the new owner's replicas answer from these states. *)
Fixpoint recipientReady (toGID : Z) (recipients : list GroupState) (shard : Z) : outcome bool :=
  match recipients with
  | [] => Ret false
  | r :: recipients =>
      reply ← HasShard toGID r shard;
      if hsr_Ready reply then Ret true else recipientReady toGID recipients shard
  end.

(** gcLoop for one shard still in [leaving]. *)
Definition gcLoop_shard s (proposed : gset Z) (shard toGID : Z)
    (recipients : list GroupState) : outcome (GroupServer * gset Z) :=
  if decide (shard ∈ proposed) then Ret (s, proposed)
  else
    ready ← recipientReady toGID recipients shard;
    if negb ready then Ret (s, proposed)
    else
      '(rf, (_, _, isLeader)) ←
        Propose (s_rf s) (mkGroupOp "GC" "" "" zeroConfig shard ∅ ∅ 0 0);
      Ret (set_rf rf s, if isLeader : bool then {[shard]} ∪ proposed else proposed).

(** A tick of gcLoop, over a copy of leaving. *)
Fixpoint gcLoop_turns (proposed : gset Z) (turns : list Turn) : outcome (list GroupServer * gset Z) :=
  match turns with
  | [] => Ret ([], proposed)
  | t :: turns =>
      '(s, proposed) ← gcLoop_shard (tu_server t) proposed (tu_shard t) (tu_gid t) (tu_others t);
      '(ss, proposed) ← gcLoop_turns proposed turns;
      Ret (s :: ss, proposed)
  end.

Definition gcLoop_tick (s1 : GroupServer) (proposed : gset Z) (turns : list Turn) :
    outcome (list GroupServer * gset Z) :=
  match r_state (s_rf s1) with
  | Leader => gcLoop_turns proposed turns
  | _ => Ret ([], ∅)
  end.

(** ** Get: State, Term, then one read under the lock *)

Definition Get (s1 s2 s3 : GroupServer) (key : string) : GroupGetReply :=
  match r_state (s_rf s1) with
  | Leader =>
      let term := r_currentTerm (s_rf s2) in
      if negb (s_noopAppliedTerm s3 =? term) then mkGroupGetReply GroupErrWrongLeader ""
      else if negb (ownsLocked (s_gid s3) (s_state s3) key)
      then mkGroupGetReply GroupErrWrongGroup ""
      else
        match g_store (s_state s3) !! key with
        | None => mkGroupGetReply GroupErrNoKey ""
        | Some value => mkGroupGetReply GroupOK value
        end
  | _ => mkGroupGetReply GroupErrWrongLeader ""
  end.

(** ** PutAppend and proposeAndWait *)

(** The ownership pre-check; [inr] is an immediate answer. *)
Definition PutAppend_op s (args : GroupPutAppendArgs) : groupOp + GroupErr :=
  if negb (ownsLocked (s_gid s) (s_state s) (gpa_Key args)) then inr GroupErrWrongGroup
  else inl (mkGroupOp (gpa_Op args) (gpa_Key args) (gpa_Value args) zeroConfig 0 ∅ ∅
              (gpa_ClientID args) (gpa_SeqNum args)).

Definition proposeAndWait_propose s (op : groupOp) (ch : Z) :
    outcome (GroupServer * (Waiting groupOp + GroupErr)) :=
  '(rf, (index, term, isLeader)) ← Propose (s_rf s) op;
  Ret (set_rf rf s,
       if isLeader : bool then inl (mkWaiting op index term ch) else inr GroupErrWrongLeader).

Definition proposeAndWait_register s (w : Waiting groupOp) : GroupServer :=
  set_waiters (register (s_waiters s) w) s.

Definition proposeAndWait_select s (w : Waiting groupOp) (sel : SelectCase) : option GroupErr :=
  match sel with
  | SelNotified =>
      applied ← received (s_waiters s) w;
      if negb (go_ClientID (gar_op applied) =? go_ClientID (w_op w)) ||
         negb (go_SeqNum (gar_op applied) =? go_SeqNum (w_op w))
      then Some GroupErrWrongLeader else Some (gar_err applied)
  | SelDeadline => Some GroupErrTimeout
  | SelLeaderCheck =>
      if negb (r_currentTerm (s_rf s) =? w_term w) ||
         negb (bool_decide (r_state (s_rf s) = Leader))
      then Some GroupErrWrongLeader else None
  end.

Definition proposeAndWait_return s (w : Waiting groupOp) : GroupServer :=
  set_waiters (unregister (s_waiters s) w) s.
End server.
Arguments mkTurn {P} _ _ _ _.
Arguments tu_shard {P} _.
Arguments tu_gid {P} _.
Arguments tu_server {P} _.
Arguments tu_others {P} _.
