(* ===== verification/GroupFacts.v ===== *)
(** * Shard migration

    A shard that was given away is frozen, what its new owner ends up with,
    and two ways in which a shard that comes back to its old owner is lost:
    collected after its return, or not fetched because an earlier fetch was
    proposed. (A third, two groups that wait for each other, needs the logs of
    both: ShardOwners.v.) *)
From S2P Require Import Prelude Persister Dedup Waiters RaftNode ShardConfig GroupServer.
Local Open Scope Z_scope.

(** One case per operation type; [Ht] names the type. *)
Ltac op_cases op Ht :=
  destruct (decide (go_Type op = "Noop"%string)) as [Ht|_];
  [|destruct (decide (go_Type op = "Config"%string)) as [Ht|_];
  [|destruct (decide (go_Type op = "Migrate"%string)) as [Ht|_];
  [|destruct (decide (go_Type op = "GC"%string)) as [Ht|_];
  [|destruct (decide (go_Type op = "Put"%string ∨ go_Type op = "Append"%string)) as [Ht|_]]]]].

Section migration.
Context (gid : Z).
Implicit Types (st : GroupState) (op : groupOp).

(** Applying a log of committed operations. *)
Fixpoint run st (ops : list groupOp) : outcome GroupState :=
  match ops with
  | [] => Ret st
  | op :: ops => '(st, _) ← applyGroupOp gid st op; run st ops
  end.

Lemma run_app st ops1 ops2 : run st (ops1 ++ ops2) = st' ← run st ops1; run st' ops2.
Proof.
  revert st. induction ops1 as [|op ops1 IH]; intros st; [done|]. simpl.
  destruct (applyGroupOp gid st op) as [[st' e]|]; [apply IH|done].
Qed.

Lemma run_step st op st' e ops : applyGroupOp gid st op = Ret (st', e) → run st (op :: ops) = run st' ops.
Proof. intros H. cbn [run]. by rewrite H. Qed.

(** ** What each operation does to one shard *)

Definition is_type op (t : string) : Prop := go_Type op = t.

Lemma adoptShards_lookup old new shards migrating leaving s :
  let '(mi, le) := adoptShards gid old new shards migrating leaving in
  mi !! s =
    (if decide (s ∈ shards ∧ ownerOf new s = gid ∧ ownerOf old s ≠ gid ∧ ownerOf old s ≠ 0)
     then Some (ownerOf old s) else migrating !! s) ∧
  le !! s =
    (if decide (s ∈ shards ∧ ownerOf old s = gid ∧ ownerOf new s ≠ gid ∧ ownerOf new s ≠ 0)
     then Some (ownerOf new s) else leaving !! s).
Proof.
  revert migrating leaving. induction shards as [|x shards IH]; intros migrating leaving; cbn [adoptShards].
  { rewrite !decide_False; [done|set_solver..]. }
  match goal with |- context [adoptShards gid old new shards ?m ?l] =>
    specialize (IH m l); destruct (adoptShards gid old new shards m l) as [mi le] end.
  destruct IH as [-> ->]. split.
  - destruct (decide (s = x)) as [->|Hne].
    + destruct (Z.eqb_spec (ownerOf new x) gid), (Z.eqb_spec (ownerOf old x) gid),
        (Z.eqb_spec (ownerOf old x) 0); simpl; rewrite ?lookup_insert_eq;
        repeat case_decide; try done; set_solver.
    + assert (∀ b v, (if b : bool then <[x:=v]> migrating else migrating) !! s = migrating !! s) as ->
        by (intros [] v; [by rewrite lookup_insert_ne|done]).
      repeat case_decide; try done; set_solver.
  - destruct (decide (s = x)) as [->|Hne].
    + destruct (Z.eqb_spec (ownerOf new x) gid), (Z.eqb_spec (ownerOf old x) gid),
        (Z.eqb_spec (ownerOf new x) 0); simpl; rewrite ?lookup_insert_eq;
        repeat case_decide; try done; set_solver.
    + assert (∀ b v, (if b : bool then <[x:=v]> leaving else leaving) !! s = leaving !! s) as ->
        by (intros [] v; [by rewrite lookup_insert_ne|done]).
      repeat case_decide; try done; set_solver.
Qed.

Lemma lookup_shardData s store k :
  shardData s store !! k = if decide (Key2Shard k = s) then store !! k else None.
Proof.
  unfold shardData. rewrite map_lookup_filter.
  destruct (store !! k) as [v|]; simpl; [|by case_decide].
  case_decide as Hk; [by rewrite option_guard_True|by rewrite option_guard_False].
Qed.

(** A map that says nothing about the shard leaves it alone. *)
Lemma shardData_union s (m store : gmap string string) :
  (∀ k, is_Some (m !! k) → Key2Shard k ≠ s) → shardData s (m ∪ store) = shardData s store.
Proof.
  intros Hm. apply map_eq. intros k. rewrite !lookup_shardData. case_decide as Hk; [|done].
  apply lookup_union_r. destruct (m !! k) eqn:Hmk; [|done].
  by destruct (Hm k ltac:(by eexists)).
Qed.

(** An operation that cannot touch shard [s] of a group that does not own it. *)
Definition leaves_alone (s : Z) op : Prop :=
  (is_type op "Config" → ownerOf (go_Config op) s ≠ gid) ∧
  (is_type op "GC" → go_Shard op ≠ s) ∧
  (is_type op "Migrate" → go_Shard op ≠ s ∧
     ∀ k, is_Some (go_Data op !! k) → Key2Shard k = go_Shard op).

(** The group does not own the shard and is not waiting for it. *)
Definition given_away (s : Z) st : Prop :=
  ownerOf (g_cfg st) s ≠ gid ∧ g_migrating st !! s = None.

Lemma applyConfig_given_away st new s :
  given_away s st → ownerOf new s ≠ gid →
  given_away s (applyConfig gid st new) ∧ g_store (applyConfig gid st new) = g_store st ∧
  cfg_Num (g_cfg st) ≤ cfg_Num (g_cfg (applyConfig gid st new)).
Proof.
  intros [Ho Hm] Hn. unfold applyConfig.
  destruct (Z.eqb_spec (cfg_Num new) (cfg_Num (g_cfg st) + 1)); [|by split_and!].
  pose proof (adoptShards_lookup (g_cfg st) new allShards (g_migrating st) (g_leaving st) s) as Ha.
  destruct (adoptShards gid (g_cfg st) new allShards (g_migrating st) (g_leaving st)) as [mi le].
  destruct Ha as [Hmi _]. split; [split; [done|]|split; [done|simpl; lia]].
  simpl. rewrite Hmi, decide_False; [done|]. by intros (_ & ? & _).
Qed.

Lemma applyWrite_frozen st op s :
  given_away s st → let st' := (applyWrite gid st op).1 in
  given_away s st' ∧ shardData s (g_store st') = shardData s (g_store st) ∧
  g_cfg st' = g_cfg st.
Proof.
  intros [Ho Hm]. unfold applyWrite.
  destruct (ownsLocked gid st (go_Key op)) eqn:Howns; [|done]. simpl.
  destruct (_ <? _); [|done]. simpl. split_and!; [by split| |done].
  apply map_eq. intros k. rewrite !lookup_shardData. case_decide as Hk; [|done].
  apply lookup_insert_ne. intros <-. unfold ownsLocked in Howns.
  destruct (Z.eqb_spec (ownerOf (g_cfg st) (Key2Shard (go_Key op))) gid); [|done].
  congruence.
Qed.

Lemma frozen_step st op st' e s :
  given_away s st → leaves_alone s op → applyGroupOp gid st op = Ret (st', e) →
  given_away s st' ∧ shardData s (g_store st') = shardData s (g_store st) ∧
  cfg_Num (g_cfg st) ≤ cfg_Num (g_cfg st').
Proof.
  intros Hg (Hcfg & Hgc & Hmig). unfold applyGroupOp, is_type in *.
  op_cases op Ht; intros H; simplify_eq.
  - done.
  - destruct (applyConfig_given_away st (go_Config op) s Hg (Hcfg Ht)) as (? & -> & ?). done.
  - destruct (Hmig Ht) as [Hne Hdata]. unfold applyMigrate.
    destruct (g_migrating st !! go_Shard op) eqn:Hm; [|by split_and!].
    destruct Hg as [Ho Hms]. split_and!; simpl; [split; simpl; [done|]| |done].
    + by rewrite lookup_delete_ne.
    + apply shardData_union. intros k Hk. rewrite Hdata by done. done.
  - specialize (Hgc Ht). unfold applyGC.
    destruct (g_leaving st !! go_Shard op); [|by split_and!].
    destruct Hg as [Ho Hms]. split_and!; simpl; [by split| |done].
    apply map_eq. intros k. rewrite !lookup_shardData. case_decide as Hk; [|done].
    rewrite map_lookup_filter. destruct (g_store st !! k); simpl; [|done].
    by rewrite option_guard_True by congruence.
  - destruct (applyWrite_frozen st op s Hg) as (? & ? & Hc). rewrite H in *. simpl in *.
    split_and!; try done. by rewrite Hc.
Qed.

(** A shard given away is frozen. Once a group does not own a shard and is
    not waiting to receive it, no log of writes, no-ops, configurations that
    keep it away, migrations of other shards and collections of other shards
    changes the group's copy of it: every Pull answered in that time, by any
    replica that has reached the asked configuration, returns the same data. *)
Theorem Pull_frozen st ops st' s num :
  given_away s st → Forall (leaves_alone s) ops → run st ops = Ret st' →
  num ≤ cfg_Num (g_cfg st) →
  plr_Err (Pull st (mkPullArgs s num)) = GroupOK ∧
  plr_Err (Pull st' (mkPullArgs s num)) = GroupOK ∧
  plr_Data (Pull st' (mkPullArgs s num)) = plr_Data (Pull st (mkPullArgs s num)).
Proof.
  intros Hg Hops Hrun Hnum.
  assert (given_away s st' ∧ shardData s (g_store st') = shardData s (g_store st) ∧
    cfg_Num (g_cfg st) ≤ cfg_Num (g_cfg st')) as ([_ Hm'] & Hdata & Hle).
  { clear Hnum num. revert st Hg Hrun. induction Hops as [|op ops Hop _ IH]; intros st Hg; simpl.
    { by intros [= <-]. }
    intros ([st1 e] & H1 & Hrun)%bind_Ret_inv.
    destruct (frozen_step st op st1 e s Hg Hop H1) as (Hg1 & Hd1 & Hn1).
    destruct (IH st1 Hg1 Hrun) as (? & Hd2 & ?). split_and!; [done|congruence|lia]. }
  destruct Hg as [_ Hm]. unfold Pull. simpl.
  rewrite !(proj2 (Z.ltb_ge _ _)), Hm, Hm' by lia. by split_and!.
Qed.

(** ** Landing *)

Lemma mergeDup_seqOf mine donor c :
  seqOf (mergeDup mine donor) c = Z.max (seqOf mine c) (default (seqOf mine c) (donor !! c)).
Proof.
  unfold mergeDup.
  apply (map_fold_weak_ind (λ dup d, ∀ c, seqOf dup c =
    Z.max (seqOf mine c) (default (seqOf mine c) (d !! c)))); clear c.
  - intros c. rewrite lookup_empty. simpl. lia.
  - intros k seq d dup Hk IH c. destruct (decide (k = c)) as [->|Hne].
    + rewrite lookup_insert_eq. simpl. pose proof (IH c) as IHc. rewrite Hk in IHc. simpl in IHc.
      destruct (Z.ltb_spec (seqOf dup c) seq) as [Hlt|Hge].
      * unfold seqOf at 1. rewrite lookup_insert_eq. simpl. lia.
      * lia.
    + rewrite lookup_insert_ne by done. rewrite <- IH.
      destruct (_ <? _); [|done]. unfold seqOf. by rewrite lookup_insert_ne.
Qed.

(** What a migration delivers. When a group waiting for a shard applies
    the Migrate entry built from a donor's answer, it stops waiting for it, its
    copy of the shard is the donor's (over whatever older keys it still had),
    every other shard is untouched, no client's duplicate-table entry goes
    down and each covers what the donor had seen; a second copy of the same
    entry changes nothing. *)
Theorem migration_handoff st donor s num from reply :
  g_migrating st !! s = Some from →
  Pull donor (mkPullArgs s num) = reply → plr_Err reply = GroupOK →
  let op := mkGroupOp "Migrate" "" "" zeroConfig s (plr_Data reply) (plr_DupTable reply) 0 0 in
  ∃ st', applyGroupOp gid st op = Ret (st', GroupOK) ∧
    g_cfg st' = g_cfg st ∧ g_migrating st' = delete s (g_migrating st) ∧
    shardData s (g_store st') = shardData s (g_store donor) ∪ shardData s (g_store st) ∧
    (dom (shardData s (g_store st)) ⊆ dom (shardData s (g_store donor)) →
     shardData s (g_store st') = shardData s (g_store donor)) ∧
    (∀ s', s' ≠ s → shardData s' (g_store st') = shardData s' (g_store st)) ∧
    (∀ c, seqOf (g_duplicateTable st') c =
      Z.max (seqOf (g_duplicateTable st) c)
        (default (seqOf (g_duplicateTable st) c) (g_duplicateTable donor !! c))) ∧
    applyGroupOp gid st' op = Ret (st', GroupOK).
Proof.
  intros Hm Hpull Herr op. unfold Pull in Hpull. simpl in Hpull.
  destruct (_ <? num); [by subst|]. destruct (g_migrating donor !! s); [by subst|].
  subst reply. simpl in op. unfold applyGroupOp, applyMigrate. simpl.
  rewrite Hm. eexists. split; [done|]. simpl. rewrite lookup_delete_eq.
  assert (shardData s (shardData s (g_store donor) ∪ g_store st) =
    shardData s (g_store donor) ∪ shardData s (g_store st)) as Hs.
  { apply map_eq. intros k. rewrite lookup_shardData, !lookup_union, !lookup_shardData.
    by case_decide. }
  split_and!; try done.
  - intros Hdom. rewrite Hs. apply map_eq. intros k. rewrite lookup_union.
    destruct (shardData s (g_store donor) !! k) as [v|] eqn:Hk;
      [by destruct (shardData s (g_store st) !! k)|].
    rewrite (not_elem_of_dom_1 (shardData s (g_store st)) k); [done|].
    intros Hin%Hdom. apply elem_of_dom in Hin. rewrite Hk in Hin. by destruct Hin.
  - intros s' Hne. apply shardData_union. intros k [v Hv]. rewrite lookup_shardData in Hv.
    by case_decide; [congruence|].
  - intros c. apply mergeDup_seqOf.
Qed.

(** ** A shard that comes back *)

(** The entries the background loops propose. *)
Definition config_entry (new : Config) : groupOp := mkGroupOp "Config" "" "" new 0 ∅ ∅ 0 0.
Definition gc_entry (s : Z) : groupOp := mkGroupOp "GC" "" "" zeroConfig s ∅ ∅ 0 0.

Lemma elem_of_allShards s : 0 ≤ s < Z.of_nat NShards → s ∈ allShards.
Proof. intros Hs. apply list_elem_of_fmap. exists (Z.to_nat s). split; [lia|]. apply elem_of_seq. lia. Qed.

(** What the next configuration makes of one shard. *)
Lemma config_applied st new s : 0 ≤ s < Z.of_nat NShards → cfg_Num new = cfg_Num (g_cfg st) + 1 →
  ∃ st', applyGroupOp gid st (config_entry new) = Ret (st', GroupOK) ∧
    g_cfg st' = new ∧ g_store st' = g_store st ∧ g_duplicateTable st' = g_duplicateTable st ∧
    g_migrating st' !! s =
      (if decide (ownerOf new s = gid ∧ ownerOf (g_cfg st) s ≠ gid ∧ ownerOf (g_cfg st) s ≠ 0)
       then Some (ownerOf (g_cfg st) s) else g_migrating st !! s) ∧
    g_leaving st' !! s =
      (if decide (ownerOf (g_cfg st) s = gid ∧ ownerOf new s ≠ gid ∧ ownerOf new s ≠ 0)
       then Some (ownerOf new s) else g_leaving st !! s).
Proof.
  intros Hs Hn%Z.eqb_eq. unfold applyGroupOp. simpl. unfold applyConfig. rewrite Hn.
  pose proof (adoptShards_lookup (g_cfg st) new allShards (g_migrating st) (g_leaving st) s) as Ha.
  destruct (adoptShards gid (g_cfg st) new allShards (g_migrating st) (g_leaving st)) as [mi le].
  destruct Ha as [Hmi Hle]. eexists. split; [done|]. simpl. split_and!; [done..| |].
  - rewrite Hmi. apply decide_ext. pose proof (elem_of_allShards s Hs). tauto.
  - rewrite Hle. apply decide_ext. pose proof (elem_of_allShards s Hs). tauto.
Qed.

(** A Migrate entry the group waits for. *)
Lemma migrate_applied st op s from : go_Type op = "Migrate"%string → go_Shard op = s →
  g_migrating st !! s = Some from →
  ∃ st', applyGroupOp gid st op = Ret (st', GroupOK) ∧
    g_cfg st' = g_cfg st ∧ g_store st' = go_Data op ∪ g_store st ∧
    g_migrating st' !! s = None ∧ g_leaving st' = g_leaving st.
Proof.
  intros Ht <- Hm. unfold applyGroupOp. rewrite Ht. simpl. unfold applyMigrate. rewrite Hm.
  eexists. split; [done|]. simpl. by rewrite lookup_delete_eq.
Qed.

(** A collection the group has the shard's leaving for. *)
Lemma gc_applied st s to : g_leaving st !! s = Some to →
  ∃ st', applyGroupOp gid st (gc_entry s) = Ret (st', GroupOK) ∧
    g_cfg st' = g_cfg st ∧ g_migrating st' = g_migrating st ∧ shardData s (g_store st') = ∅.
Proof.
  intros Hl. unfold applyGroupOp. simpl. unfold applyGC. rewrite Hl. eexists. split; [done|]. simpl.
  split_and!; [done..|]. apply map_eq. intros k. rewrite lookup_shardData, lookup_empty.
  case_decide as Hk; [|done]. rewrite map_lookup_filter. destruct (g_store st !! k); simpl; [|done].
  rewrite option_guard_False; [done|]. intros Hn. by apply Hn.
Qed.

Lemma ownsLocked_true st s k : ownerOf (g_cfg st) s = gid → g_migrating st !! s = None → Key2Shard k = s →
  ownsLocked gid st k = true.
Proof. intros Ho Hm Hk. unfold ownsLocked. by rewrite Hk, Ho, Hm, Z.eqb_refl. Qed.

(** A replica of the new owner that has adopted the version which gave it the
    shard and landed the shard's data says it has it, also when later versions
    have taken the shard back. *)
Lemma recipient_lags r0 new s op : 0 ≤ s < Z.of_nat NShards →
  cfg_Num new = cfg_Num (g_cfg r0) + 1 → ownerOf new s = gid → gid ≠ 0 →
  ownerOf (g_cfg r0) s ≠ gid → ownerOf (g_cfg r0) s ≠ 0 →
  go_Type op = "Migrate"%string → go_Shard op = s →
  ∃ r, run r0 [config_entry new; op] = Ret r ∧ g_cfg r = new ∧
    HasShard gid r s = Ret (mkHasShardReply GroupOK true).
Proof.
  intros Hs Hn Ho Hz Hno Hnz Ht Hsh.
  destruct (config_applied r0 new s Hs Hn) as (r1 & H1 & Hc1 & _ & _ & Hm1 & _).
  rewrite decide_True in Hm1 by done.
  destruct (migrate_applied r1 op s _ Ht Hsh Hm1) as (r & H2 & Hc & _ & Hm & _).
  exists r. rewrite (run_step _ _ _ _ _ H1), (run_step _ _ _ _ _ H2). split; [done|]. rewrite Hc, Hc1. split; [done|].
  unfold HasShard. rewrite Hc, Hc1, Hm. unfold ownerOf in Ho.
  destruct (zget (cfg_Shards new) s) as [o|]; simpl in Ho; [|by subst]. simpl. by rewrite Ho, Z.eqb_refl.
Qed.

(** The group still waits for the shard, whatever else it applies. *)
Lemma still_migrating st op st' e s :
  is_Some (g_migrating st !! s) → (is_type op "Migrate" → go_Shard op ≠ s) →
  applyGroupOp gid st op = Ret (st', e) → is_Some (g_migrating st' !! s).
Proof.
  intros Hm Hno. unfold applyGroupOp, is_type in *.
  op_cases op Ht; intros H; simplify_eq; try done.
  - unfold applyConfig. destruct (_ =? _); [|done].
    pose proof (adoptShards_lookup (g_cfg st) (go_Config op) allShards (g_migrating st) (g_leaving st) s) as Ha.
    destruct (adoptShards _ _ _ _ _ _) as [mi le]. destruct Ha as [Hmi _]. simpl. rewrite Hmi.
    case_decide; [by eexists|done].
  - unfold applyMigrate. destruct (g_migrating st !! go_Shard op); [|done].
    simpl. rewrite lookup_delete_ne by auto. done.
  - unfold applyGC. by destruct (g_leaving st !! go_Shard op).
  - revert H. unfold applyWrite. destruct (negb _); [by intros [= <- _]|].
    destruct (_ <? _); by intros [= <- _].
Qed.

Lemma run_still_migrating ops st st' s :
  is_Some (g_migrating st !! s) →
  Forall (λ op, is_type op "Migrate" → go_Shard op ≠ s) ops →
  run st ops = Ret st' → is_Some (g_migrating st' !! s).
Proof.
  intros Hm Hops. revert st Hm. induction Hops as [|op ops Hop _ IH]; intros st Hm; simpl.
  { by intros [= <-]. }
  intros ([st1 e] & H1 & Hrun)%bind_Ret_inv. apply (IH st1); [|done].
  by eapply still_migrating.
Qed.

Lemma pullFrom_migrating donors s num :
  Forall (λ d, cfg_Num (g_cfg d) < num ∨ is_Some (g_migrating d !! s)) donors →
  pullFrom donors (mkPullArgs s num) = None.
Proof.
  induction 1 as [|d donors Hd _ IH]; [done|]. simpl. unfold Pull. simpl.
  destruct (Z.ltb_spec (cfg_Num (g_cfg d)) num) as [Hlt|Hge]; [done|].
  destruct Hd as [?|[x ->]]; [lia|done].
Qed.
End migration.

Section stuck.
Context {P : Type} `{!Persister P, !Codec (persistedState groupOp)}.

(** C34: garbage collection of a shard that came back. Let a group serve a
    shard, lose it to [to] in the next version and regain it in the one after.
    Once the group has applied both and the Migrate entry that brings the shard
    back, it serves every key of it, with the data of that entry, but still has
    the shard in [leaving]: that is not cleared when a shard returns. A replica
    of [to] that has not got further than the version which gave it the shard
    and the Migrate entry that landed it then makes a leader of the group propose
    the collection; and applying it deletes the whole shard, while the group goes
    on serving its keys, as if they had never existed. *)
Theorem GC_deletes_owned_shard gid st s to new1 new2 back r0 landed :
  0 ≤ s < Z.of_nat NShards → gid ≠ 0 → to ≠ gid → to ≠ 0 →
  ownerOf (g_cfg st) s = gid → g_migrating st !! s = None →
  cfg_Num new1 = cfg_Num (g_cfg st) + 1 → ownerOf new1 s = to →
  cfg_Num new2 = cfg_Num (g_cfg st) + 2 → ownerOf new2 s = gid →
  go_Type back = "Migrate"%string → go_Shard back = s →
  g_cfg r0 = g_cfg st → go_Type landed = "Migrate"%string → go_Shard landed = s →
  ∃ st1 r st2,
    run gid st [config_entry new1; config_entry new2; back] = Ret st1 ∧
    (∀ k, Key2Shard k = s → ownsLocked gid st1 k = true) ∧
    (∀ k v, go_Data back !! k = Some v → g_store st1 !! k = Some v) ∧
    g_leaving st1 !! s = Some to ∧
    run to r0 [config_entry new1; landed] = Ret r ∧
    (∀ (sv : GroupServer P) rf i t proposed recipients, s ∉ proposed →
       Propose (s_rf sv) (gc_entry s) = Ret (rf, (i, t, true)) →
       gcLoop_shard sv proposed s to (r :: recipients) = Ret (set_rf rf sv, {[s]} ∪ proposed)) ∧
    applyGroupOp gid st1 (gc_entry s) = Ret (st2, GroupOK) ∧
    shardData s (g_store st2) = ∅ ∧
    ∀ k, Key2Shard k = s → ownsLocked gid st2 k = true ∧ g_store st2 !! k = None.
Proof.
  intros Hs Hgid Hto Hto0 Hown Hm Hn1 Ho1 Hn2 Ho2 Ht Hsh Hr0 Ht' Hsh'.
  destruct (config_applied gid st new1 s Hs Hn1) as (sa & H1 & Hc1 & _ & _ & _ & Hl1).
  rewrite Ho1, decide_True in Hl1 by done.
  destruct (config_applied gid sa new2 s Hs) as (sb & H2 & Hc2 & _ & _ & Hm2 & Hl2); [rewrite Hc1; lia|].
  rewrite Hc1, Ho1, decide_True in Hm2 by done. rewrite Hc1, Ho1, decide_False, Hl1 in Hl2 by tauto.
  destruct (migrate_applied gid sb back s to Ht Hsh Hm2) as (st1 & H3 & Hc3 & Hst3 & Hm3 & Hl3).
  rewrite <- Hl3 in Hl2. rewrite Hc2 in Hc3.
  destruct (recipient_lags to r0 new1 s landed Hs) as (r & Hr & _ & Hready); rewrite ?Hr0, ?Hown; try done.
  destruct (gc_applied gid st1 s to Hl2) as (st2 & Hgc & Hc4 & Hm4 & Hd4).
  assert (ownerOf (g_cfg st1) s = gid) as Hown1 by by rewrite Hc3.
  exists st1, r, st2. split_and!; try done.
  - by rewrite (run_step _ _ _ _ _ _ H1), (run_step _ _ _ _ _ _ H2), (run_step _ _ _ _ _ _ H3).
  - intros k. by apply ownsLocked_true.
  - intros k v Hv. rewrite Hst3. by apply lookup_union_Some_l.
  - intros sv rf i t proposed recipients Hp Hprop. unfold gcLoop_shard. rewrite decide_False by done.
    cbn [recipientReady]. rewrite Hready. cbn [mbind outcome_bind hsr_Ready]. simpl.
    fold (gc_entry s). by rewrite Hprop.
  - intros k Hk. split; [apply (ownsLocked_true _ _ s); [by rewrite Hc4|by rewrite Hm4|done]|].
    pose proof (lookup_shardData s (g_store st2) k) as Hl. rewrite Hd4, lookup_empty, decide_True in Hl by done.
    done.
Qed.

(** *** What a leader has proposed once *)

(** The ticks of one loop, with the servers each turn found and left. *)
Fixpoint migrationLoop_run (proposed : gset Z)
    (ticks : list (GroupServer P * GroupServer P * list (Turn (P:=P)))) :
    outcome (list (Turn (P:=P) * GroupServer P) * gset Z) :=
  match ticks with
  | [] => Ret ([], proposed)
  | (s1, s2, turns) :: ticks =>
      '(ss, proposed) ← migrationLoop_tick s1 s2 proposed turns;
      '(rest, proposed) ← migrationLoop_run proposed ticks;
      Ret (zip turns ss ++ rest, proposed)
  end.

Lemma migrationLoop_shard_keeps (s s' : GroupServer P) proposed proposed' shard num donors :
  migrationLoop_shard s proposed shard num donors = Ret (s', proposed') →
  proposed ⊆ proposed' ∧ (s' ≠ s → shard ∈ proposed') ∧ (shard ∈ proposed → s' = s).
Proof.
  unfold migrationLoop_shard. case_decide as Hin; [by intros [= <- <-]|].
  destruct (pullFrom _ _) as [reply|]; [|by intros [= <- <-]].
  intros ([rf [[i t] l]] & Hp & [= <- <-])%bind_Ret_inv. split; [destruct l; set_solver|].
  split; [|by intros]. intros Hne. destruct l; [set_solver|]. exfalso. apply Hne.
  unfold Propose in Hp. destruct (r_state (s_rf s)); [by injection Hp as <- _ _; destruct s..|].
  apply bind_Ret_inv in Hp as (r1 & _ & (r2 & _ & [=])%bind_Ret_inv).
Qed.

Lemma migrationLoop_turns_skip proposed num turns ss proposed' shard :
  migrationLoop_turns (P:=P) proposed num turns = Ret (ss, proposed') → shard ∈ proposed →
  shard ∈ proposed' ∧ ∀ t s', (t, s') ∈ zip turns ss → tu_shard t = shard → s' = tu_server t.
Proof.
  revert proposed ss. induction turns as [|t turns IH]; intros proposed ss; simpl.
  { intros [= <- <-] ?. split; [done|]. by intros t s' ?%not_elem_of_nil. }
  intros ([s1 p1] & H1 & ([ss1 p2] & H2 & [= <- <-])%bind_Ret_inv)%bind_Ret_inv Hin.
  destruct (migrationLoop_shard_keeps _ _ _ _ _ _ _ H1) as (Hsub & _ & Hskip).
  destruct (IH _ _ H2) as [Hin' Hall]; [set_solver|]. split; [done|]. simpl.
  intros t' s' [[= -> ->]|Ht]%elem_of_cons Hsh; [|by apply Hall]. apply Hskip. by rewrite Hsh.
Qed.

(** C36: a shard regained under the same leader is never fetched. Once a
    leader's migration loop has proposed a Migrate entry for a shard, none of
    its ticks proposes one again while the node stays leader at each of them -
    also when the entry has long landed, the group has given the shard away and
    is waiting for it anew, whatever the donors would answer. And as long as no
    such entry is in the log, the group goes on waiting and refuses every key of
    the shard. *)
Theorem regained_shard_never_fetched gid shard ticks results proposed proposed' :
  (∀ s s' p p' num donors, migrationLoop_shard (P:=P) s p shard num donors = Ret (s', p') →
     s' ≠ s → shard ∈ p') ∧
  (shard ∈ proposed → Forall (λ t, r_state (s_rf t.1.1) = Leader) ticks →
   migrationLoop_run proposed ticks = Ret (results, proposed') →
   shard ∈ proposed' ∧ ∀ t s', (t, s') ∈ results → tu_shard t = shard → s' = tu_server t) ∧
  ∀ st ops st' key, is_Some (g_migrating st !! shard) →
    Forall (λ op, is_type op "Migrate" → go_Shard op ≠ shard) ops → run gid st ops = Ret st' →
    Key2Shard key = shard → ownsLocked gid st' key = false.
Proof.
  split_and!.
  - intros s s' p p' num donors H. by apply migrationLoop_shard_keeps in H as (_ & ? & _).
  - intros Hin Hticks. revert proposed results Hin.
    induction Hticks as [|[[s1 s2] turns] ticks Hl _ IH]; intros proposed results Hin; simpl.
    { intros [= <- <-]. split; [done|]. by intros t s' ?%not_elem_of_nil. }
    intros ([ss p1] & H1 & ([rest p2] & H2 & [= <- <-])%bind_Ret_inv)%bind_Ret_inv.
    unfold migrationLoop_tick in H1. simpl in Hl. rewrite Hl in H1.
    destruct (migrationLoop_turns_skip _ _ _ _ _ shard H1 Hin) as [Hin1 Hall1].
    destruct (IH p1 rest Hin1 H2) as [Hin2 Hall2]. split; [done|].
    intros t s' [Ht|Ht]%elem_of_app; [by apply Hall1|by apply Hall2].
  - intros st ops st' key Hm Hops Hrun Hk.
    pose proof (run_still_migrating gid ops st st' shard Hm Hops Hrun) as [d Hd].
    unfold ownsLocked. rewrite Hk, Hd. by destruct (negb _).
Qed.
End stuck.

(** ** Witnesses: groups 1 and 2 and the shard of the key "x" *)
Module Witness.
Definition the_shard : Z := Key2Shard "x".

Definition config_of (num owner : Z) : Config :=
  mkConfig num (replicate NShards owner) {[1 := ["a"%string]; 2 := ["b"%string]]}.

Definition config_op (num owner : Z) : groupOp := config_entry (config_of num owner).
Definition put_op (value : string) (seq : Z) : groupOp :=
  mkGroupOp "Put" "x" value zeroConfig 0 ∅ ∅ 7 seq.
Definition noop : groupOp := mkGroupOp "Noop" "" "" zeroConfig 0 ∅ ∅ 0 0.

Definition state_after (gid : Z) (ops : list groupOp) : GroupState :=
  match run gid initState ops with Ret st => st | Panic => initState end.

(** Group 1 owned everything, wrote, and gave everything to group 2. *)
Definition gave : GroupState := state_after 1 [config_op 1 1; put_op "v" 1; config_op 2 2].

Lemma Pull_frozen_witness :
  ∃ st', run 1 gave [put_op "w" 2; noop] = Ret st' ∧
    plr_Data (Pull st' (mkPullArgs the_shard 2)) = plr_Data (Pull gave (mkPullArgs the_shard 2)).
Proof.
  destruct (returned_Ret (run 1 gave [put_op "w" 2; noop]) ltac:(vm_compute; reflexivity)) as [st' H].
  destruct (Pull_frozen 1 gave [put_op "w" 2; noop] st' the_shard 2) as (_ & _ & Hd).
  - split; by vm_compute.
  - apply Forall_cons; split; [|apply Forall_singleton]; by split_and!.
  - exact H.
  - by vm_compute.
  - exists st'. split; [exact H|exact Hd].
Defined.

(** Group 2 gained everything and waits for it. *)
Definition waiting : GroupState := state_after 2 [config_op 1 1; config_op 2 2].

Lemma migration_handoff_witness :
  ∃ st' op, applyGroupOp 2 waiting op = Ret (st', GroupOK) ∧
    g_migrating waiting !! the_shard = Some 1 ∧ g_migrating st' !! the_shard = None ∧
    shardData the_shard (g_store st') = shardData the_shard (g_store gave).
Proof.
  destruct (migration_handoff 2 waiting gave the_shard 2 1 _ eq_refl eq_refl eq_refl)
    as (st' & Hap & _ & Hmi & _ & Heq & _).
  eexists st', _. split; [exact Hap|]. split; [by vm_compute|]. split.
  - rewrite Hmi. apply lookup_delete_eq.
  - apply Heq. assert (shardData the_shard (g_store waiting) = ∅) as -> by by vm_compute.
    rewrite dom_empty. apply empty_subseteq.
Defined.

#[local] Instance group_codec : Codec (persistedState groupOp) := countable_codec.

(** A shard that went from group 1 to group 2 and back before group 2 pulled it. *)
Definition bounced (gid : Z) : GroupState :=
  state_after gid [config_op 1 1; config_op 2 2; config_op 3 1].

Definition demo_server (gid : Z) : GroupServer MemoryPersister :=
  mkGroupServer (mkRaft 0 [] None Leader 1 0 [] 0 0 [] 0 0 None ∅ ∅ false)
    gid (bounced gid) noWaiters 1 (-1).

(** Group 1 serves the shard in version 1; in version 2 it belongs to group 2 and
    in version 3 to group 1 again. *)
Definition serving : GroupState := state_after 1 [config_op 1 1; put_op "v" 1].
Definition fetch (value : string) : groupOp :=
  mkGroupOp "Migrate" "" "" zeroConfig the_shard {["x"%string := value]} ∅ 0 0.

Lemma GC_deletes_owned_witness :
  ∃ st1 r st2,
    run 1 serving [config_op 2 2; config_op 3 1; fetch "w"] = Ret st1 ∧
    ownsLocked 1 st1 "x" = true ∧ g_store st1 !! "x"%string = Some "w"%string ∧
    run 2 (state_after 2 [config_op 1 1]) [config_op 2 2; fetch "v"] = Ret r ∧
    (∃ sv, gcLoop_shard (demo_server 1) ∅ the_shard 2 [r] = Ret (sv, {[the_shard]})) ∧
    applyGroupOp 1 st1 (gc_entry the_shard) = Ret (st2, GroupOK) ∧
    ownsLocked 1 st2 "x" = true ∧ g_store st2 !! "x"%string = None.
Proof.
  destruct (GC_deletes_owned_shard (P:=MemoryPersister) 1 serving the_shard 2 (config_of 2 2) (config_of 3 1)
    (fetch "w") (state_after 2 [config_op 1 1]) (fetch "v"))
    as (st1 & r & st2 & H1 & Hserved & Hdata & _ & Hr & Hpropose & Hgc & _ & Hgone);
    [vm_compute; done..|].
  exists st1, r, st2. split; [exact H1|]. split; [by apply Hserved|]. split; [by apply Hdata|].
  split; [exact Hr|]. split.
  - destruct (Propose (s_rf (demo_server 1)) (gc_entry the_shard)) as [[rf [[i t] [|]]]|] eqn:Hp;
      [|vm_compute in Hp; discriminate Hp|vm_compute in Hp; discriminate Hp].
    pose proof (Hpropose (demo_server 1) rf i t ∅ [] (not_elem_of_empty _) Hp) as Hgc_loop.
    rewrite union_empty_r_L in Hgc_loop. eexists. exact Hgc_loop.
  - split; [exact Hgc|]. exact (Hgone "x"%string eq_refl).
Defined.

(** Group 2 fetched the shard in version 2, gave it back in version 3 and gains
    it again in version 4; group 1 would hand it over. *)
Definition regained : GroupServer MemoryPersister :=
  set_state (state_after 2 [config_op 1 1; config_op 2 2; fetch "v"; config_op 3 1; config_op 4 2])
    (demo_server 2).
Definition donor : GroupState :=
  state_after 1 [config_op 1 1; put_op "v" 1; config_op 2 2; config_op 3 1; fetch "v"; config_op 4 2].
Definition once : gset Z := {[the_shard]}.
Definition turn : Turn := mkTurn the_shard 1 regained [donor].

Lemma regained_shard_never_fetched_witness :
  is_Some (pullFrom [donor] (mkPullArgs the_shard 4)) ∧
  g_migrating (s_state regained) !! the_shard = Some 1 ∧
  ∃ results proposed', migrationLoop_run once [(regained, regained, [turn])] = Ret (results, proposed') ∧
    the_shard ∈ proposed' ∧ ∀ s', (turn, s') ∈ results → s' = regained.
Proof.
  split; [vm_compute; by eexists|]. split; [vm_compute; reflexivity|].
  destruct (returned_Ret (migrationLoop_run once [(regained, regained, [turn])])
    ltac:(vm_compute; reflexivity)) as [[results proposed'] H].
  exists results, proposed'. split; [exact H|].
  destruct (regained_shard_never_fetched 2 the_shard [(regained, regained, [turn])] results once proposed')
    as (_ & Hskip & _).
  destruct Hskip as [Hin Hall]; [unfold once; set_solver|by apply Forall_singleton|exact H|].
  split; [exact Hin|]. intros s' Hs. by apply (Hall turn s' Hs).
Defined.
End Witness.
