(* ===== verification/ReplicatedGroups.v ===== *)
(** * The replicated shard groups

    The servers of GroupServer.v as a service on a Raft cluster (Replicated.v),
    snapshots included. Under its restrictions on AppendEntries and snapshots all
    replicas of a group go through the states of one log, none of them stops at a
    known operation, and what they hand over in answer to a Pull is the same data
    whichever replica is asked, and when. *)
From S2P Require Import Prelude Persister Dedup Waiters RaftNode RaftFacts RaftDurable RaftVotes RaftLog RaftDemo RaftPositions RaftCluster RaftDivergence RaftGhost RaftSafety RaftCommitted Replicated ShardConfig GroupServer GroupFacts.
Local Open Scope Z_scope.

(** The operations the switch knows. *)
Definition gop_known (op : groupOp) : Prop :=
  go_Type op ∈ ["Noop"; "Config"; "Migrate"; "GC"; "Put"; "Append"]%string.

(** The elements after position [n] or [m] and up to the other. *)
Definition between {A} (n m : Z) (l : list A) : list A :=
  drop (Z.to_nat (Z.min n m)) (upto (Z.max n m) l).

Lemma between_sym {A} n m (l : list A) : between n m l = between m n l.
Proof. unfold between. by rewrite Z.min_comm, Z.max_comm. Qed.

Lemma between_app {A} n m (l ops : list A) :
  0 ≤ n ≤ zlen l → 0 ≤ m → upto m l = upto n l ++ ops → between n m l = ops.
Proof.
  intros Hn Hm Heq. pose proof (f_equal zlen Heq) as Hlen. rewrite zlen_app in Hlen.
  pose proof (zlen_nonneg ops). rewrite (zlen_upto n) in Hlen by lia.
  assert (n ≤ m) as Hle.
  { destruct (Z.le_ge_cases m (zlen l)) as [Hml|Hml].
    - rewrite zlen_upto in Hlen by lia. lia.
    - lia. }
  unfold between. rewrite Z.min_l, Z.max_r, Heq by lia. apply drop_app_length'.
  pose proof (zlen_upto n l Hn) as Hz. unfold zlen in Hz. lia.
Qed.

(** ** Machine and server of the group [gid] *)

Section group.
Context (gid : Z).

(** What applying one operation does to the replicated state. *)
Definition group_step (st : GroupState) (op : groupOp) : option GroupState :=
  match applyGroupOp gid st op with
  | Ret (st', _) => Some st'
  | Panic => None
  end.

Definition group_machine : Machine groupOp GroupState := {|
  m_init := initState;
  m_step := group_step
|}.
#[local] Existing Instance group_machine.

Lemma run_from_run ops (st st' : GroupState) :
  run_from (Some st) ops = Some st' ↔ run gid st ops = Ret st'.
Proof.
  revert st. induction ops as [|op ops IH]; intros st; [by split; intros [= <-]|].
  rewrite run_from_cons. simpl. unfold group_step.
  destruct (applyGroupOp gid st op) as [[st1 e]|]; simpl; [apply IH|by rewrite run_from_None].
Qed.

Lemma group_run_known ops (st : GroupState) : Forall gop_known ops → is_Some (run_from (Some st) ops).
Proof.
  revert st. induction ops as [|op ops IH]; intros st; [by eexists|].
  intros [Hop Hops]%Forall_cons. rewrite run_from_cons. simpl. unfold group_step, applyGroupOp.
  unfold gop_known in Hop. rewrite !elem_of_cons in Hop.
  repeat case_decide; try by apply IH.
  - destruct (applyWrite gid st op). by apply IH.
  - exfalso. destruct Hop as [?|[?|[?|[?|[?|[?|[]%not_elem_of_nil]]]]]]; tauto.
Qed.

Section server.
Context {P : Type} `{!Persister P, !PersisterLaws P}.
Context `{!Codec (persistedState groupOp), !Codec groupSnapshot}.
Abbreviation Raft := (Raft groupOp P).
Abbreviation GroupServer := (GroupServer P).
Implicit Type s : GroupServer.

Definition group_server : Server groupOp P GroupServer GroupState := {|
  srv_rf := s_rf;
  srv_with := set_rf;
  srv_state := s_state;
  srv_noop := s_noopAppliedTerm;
  srv_good s := s_gid s = gid;
  srv_snap st data := data = gob_encode (snapshotOf st);
  srv_process := applyLoop_msg;
  srv_boot r s := ∃ max, NewGroupServer r gid max = Ret s
|}.
#[local] Existing Instance group_server.

(** The server's own call into its node is a Snapshot of its state. *)
Lemma group_command s i t op s' :
  applyLoop_msg s (commandMsg i t op) = Ret s' →
  s_gid s' = s_gid s ∧
  (∃ e, applyGroupOp (s_gid s) (s_state s) op = Ret (s_state s', e)) ∧
  (s_noopAppliedTerm s' = s_noopAppliedTerm s ∨ s_noopAppliedTerm s' = t) ∧
  (s_rf s' = s_rf s ∨
   Snapshot (s_rf s) i (gob_encode (snapshotOf (s_state s'))) = Ret (s_rf s', None)).
Proof.
  unfold applyLoop_msg. simpl. set (s1 := if decide _ then _ else s).
  assert (s_gid s1 = s_gid s ∧ s_state s1 = s_state s ∧ s_rf s1 = s_rf s ∧
    (s_noopAppliedTerm s1 = s_noopAppliedTerm s ∨ s_noopAppliedTerm s1 = t)) as (Hg & Hst & Hrf & Hno)
    by (unfold s1; destruct (decide _); auto).
  rewrite Hg, Hst. intros ([st e] & Hap & H)%bind_Ret_inv. destruct (_ && _).
  - unfold snapshotLocked in H. apply bind_Ret_inv in H as ([rf [err|]] & Hs & H); [done|].
    injection H as <-. simpl in Hs. rewrite Hrf in Hs.
    split_and!; [done|by exists e|done|by right].
  - injection H as <-. split_and!; [done|by exists e|done|by left].
Qed.

Lemma group_restore s st data n t s' :
  applyLoop_msg s (snapshotMsg data n t) = Ret s' → data = gob_encode (snapshotOf st) →
  s' = set_state st s.
Proof.
  unfold applyLoop_msg, restoreSnapshot. simpl. intros H ->. rewrite gob_round_trip in H.
  injection H as <-. by destruct st.
Qed.

Lemma applyLoop_rf s m s' :
  applyLoop_msg s m = Ret s' →
  s_rf s' = s_rf s ∨ ∃ index data, Snapshot (s_rf s) index data = Ret (s_rf s', None).
Proof.
  destruct (am_SnapshotValid m) eqn:Hv.
  - unfold applyLoop_msg, restoreSnapshot. rewrite Hv. intros (sn & _ & [= <-])%bind_Ret_inv. by left.
  - intros H. destruct (am_Command m) as [op|] eqn:Hc.
    + assert (applyLoop_msg s (commandMsg (am_Index m) (am_Term m) op) = Ret s') as Hm
        by (rewrite <- H; unfold applyLoop_msg; by rewrite Hv, Hc).
      apply group_command in Hm as (_ & _ & _ & [?|?]); [by left|right; eauto].
    + unfold applyLoop_msg in H. by rewrite Hv, Hc in H.
Qed.

Lemma NewGroupServer_meets r max s :
  NewGroupServer r gid max = Ret s → s_gid s = gid ∧ s_noopAppliedTerm s = 0 ∧
  (r_snapshotData r = [] → s_state s = initState) ∧
  ∀ st, r_snapshotData r = gob_encode (snapshotOf st) → s_state s = st.
Proof.
  unfold NewGroupServer, ReadSnapshotData. destruct (r_snapshotData r) as [|b bs] eqn:Hd.
  { intros [= <-]. split_and!; [done..|]. intros st He. symmetry in He. by apply gob_nonempty in He. }
  unfold restoreSnapshot. intros (sn & Hs & [= <-])%bind_Ret_inv. split_and!; [done..|].
  intros st He. rewrite He, gob_round_trip in Hs. injection Hs as <-. by destruct st.
Qed.

#[local] Instance group_server_laws : ServerLaws group_machine group_server.
Proof.
  split; simpl.
  - done.
  - done.
  - apply applyLoop_rf.
  - intros s i t op s' Hg (Hg' & (e & Hap) & Hn & Hrf)%group_command. split_and!; [congruence| |done|].
    + unfold group_step. rewrite <- Hg. by rewrite Hap.
    + destruct Hrf as [?|?]; [by left|right; eauto].
  - intros s st data n t s' Hg Hd H. by rewrite (group_restore _ _ _ _ _ _ H Hd).
  - intros r s (max & H). destruct (NewGroupServer_meets _ _ _ H) as (? & ? & ? & ?). done.
Qed.

#[local] Instance group_server_total : ServerTotal group_machine group_server.
Proof.
  split; simpl.
  - intros s i t op st Hg Hst Hsnap. unfold group_step in Hst. rewrite <- Hg in Hst.
    unfold applyLoop_msg. simpl. set (s1 := if decide _ then _ else s).
    assert (s_gid s1 = s_gid s ∧ s_state s1 = s_state s ∧ s_rf s1 = s_rf s) as (-> & -> & Hrf)
      by (unfold s1; by destruct (decide _)).
    destruct (applyGroupOp _ _ op) as [[st' e]|]; [|done]. simpl. destruct (_ && _); [|done].
    unfold snapshotLocked. simpl. rewrite Hrf.
    match goal with |- context [Snapshot _ i ?d] => by destruct (Hsnap d) as [rf ->] end.
  - intros s st data n t ->. unfold applyLoop_msg, restoreSnapshot. simpl. by rewrite gob_round_trip.
  - intros r Hd. assert (returned (NewGroupServer r gid (-1)) = true) as [s Hs]%returned_Ret.
    { unfold NewGroupServer, ReadSnapshotData. destruct Hd as [->|[st ->]]; [done|].
      destruct (gob_encode _) as [|b bs] eqn:He; [done|].
      unfold restoreSnapshot. by rewrite <- He, gob_round_trip. }
    by exists s, (-1).
Qed.

(** ** One group *)

Context (members : list Z) (Hnodup : NoDup members) (Hids : ∀ i, i ∈ members → 0 ≤ i).
Abbreviation Machines := (Machines (Op:=groupOp) (P:=P) (Srv:=GroupServer)).
Implicit Type x : Machines.

(** C32: a group is one state machine. In the runs of Replicated.v -
    elections, lost, delayed and repeated messages, snapshots, crashes and
    restarts of nodes with their servers, but no AppendEntries overtaken by a
    later one is delivered, no snapshot behind what a node has applied is
    installed and no entry is handed over while a snapshot waits - each replica's
    configuration, store, migrations and duplicate table are what its first so
    many committed operations make of the initial ones. Where these are of the
    known types and saves succeed, the apply loop returns from whatever message is
    next on its channel, its own Snapshot of the node included, and a crashed node
    comes back with a server. *)
Theorem group_is_one_machine `{!PersisterTotal P} x i r a :
  machines_reachable members x →
  c_nodes x.1 !! i = Some r → x.2 !! i = Some a →
  s_gid (rp_srv a) = gid ∧
  run gid initState (upto (rp_index a) (opsOf x.1)) = Ret (s_state (rp_srv a)) ∧
  (Forall gop_known (opsOf x.1) →
   (∀ m q, rp_queue a = m :: q → returned (applyLoop_msg (set_rf r (rp_srv a)) m) = true) ∧
   ∀ p, r_persister r = Some p → ∃ r' max s',
     newRaft i (r_peers r) (Some p) = Ret r' ∧ NewGroupServer r' gid max = Ret s').
Proof.
  intros (Ld & Hok)%(machines_reachable_ok members Hnodup Hids) Hi Ha. split_and!.
  - apply (sy_replica _ _ _ _ (mo_system _ _ _ Hok) i r a Hi Ha).
  - destruct (replica_state members x Ld i r a Hok Hi Ha) as [_ Hrun]. by apply run_from_run in Hrun.
  - intros Hops. destruct (never_panics members x Ld i r a Hok) as (_ & Hmsg & Hboot); [|done..|].
    + by apply group_run_known.
    + split; [done|]. intros p Hp. destruct (Hboot p Hp) as (r' & s' & Hr & max & Hs). by exists r', max, s'.
Qed.

(** C33: every replica hands over the same shard. In the runs of Replicated.v -
    no overtaken AppendEntries delivered, no snapshot behind what a node has
    applied installed, no entry handed over while a snapshot waits - take two
    replicas of a group that has given a shard away, at the same or different
    moments, whichever leads, crashed or lags behind. Where no committed
    operation between their positions gives the shard back, collects it or
    migrates it, Pulls of the shard they have the configuration for are answered
    by both, with the same data. *)
Theorem replicas_hand_over_same_shard x x' i j r r' a b sh num :
  machines_reachable members x → rtc machine_step x x' →
  c_nodes x.1 !! i = Some r → x.2 !! i = Some a →
  c_nodes x'.1 !! j = Some r' → x'.2 !! j = Some b →
  let sta := s_state (rp_srv a) in let stb := s_state (rp_srv b) in
  given_away gid sh sta → given_away gid sh stb →
  Forall (leaves_alone gid sh) (between (rp_index a) (rp_index b) (opsOf x'.1)) →
  num ≤ cfg_Num (g_cfg sta) → num ≤ cfg_Num (g_cfg stb) →
  plr_Err (Pull sta (mkPullArgs sh num)) = GroupOK ∧
  plr_Err (Pull stb (mkPullArgs sh num)) = GroupOK ∧
  plr_Data (Pull stb (mkPullArgs sh num)) = plr_Data (Pull sta (mkPullArgs sh num)).
Proof.
  intros Hr Hrtc Hi Ha Hj Hb sta stb Hga Hgb Halone Hna Hnb.
  destruct (machines_reachable_ok members Hnodup Hids x Hr) as [Ld Hok].
  destruct (machine_steps_ok members Hnodup Hids x x' Ld Hok Hrtc) as (Ld' & Hok' & Hp%opsOf_prefix).
  destruct (replica_state members x Ld i r a Hok Hi Ha) as [Hba _].
  destruct (replica_state members x' Ld' j r' b Hok' Hj Hb) as [Hbb _].
  pose proof (prefix_zlen _ _ Hp).
  destruct (replicas_comparable members Hnodup Hids x x' Ld i j r r' a b Hok Hrtc Hi Ha Hj Hb)
    as (ops & [[Hup Hrun]|[Hup Hrun]]); apply run_from_run in Hrun;
    rewrite <- (upto_of_prefix _ _ (rp_index a) Hp) in Hup by lia.
  - rewrite (between_app _ _ _ ops) in Halone by (done || lia). by apply (Pull_frozen gid sta ops stb).
  - rewrite between_sym, (between_app _ _ _ ops) in Halone by (done || lia).
    destruct (Pull_frozen gid stb ops sta sh num) as (? & ? & ->); done.
Qed.
End server.
End group.

(** ** Witnesses: group 1 gives the shard of the key "x" to group 2 *)
Module Witness.
Import GroupFacts.Witness.
#[local] Instance op_codec : Codec (persistedState groupOp) := countable_codec.
#[local] Instance snapshot_codec : Codec groupSnapshot := countable_codec.
#[local] Existing Instances group_machine group_server group_server_laws group_server_total.

Abbreviation GroupMachines :=
  (Machines (Op:=groupOp) (P:=MemoryPersister) (Srv:=GroupServer MemoryPersister)).
Abbreviation Acts := (list (Action (Cmd:=groupOp) + ApplyAct)).

(** Node 0 is elected, commits two configurations and a Put between them with
    node 1 and applies them; a no-op is on its way. Then node 1 hears of it and
    applies all of it. *)
Definition give : Acts :=
  map inl [ ATimeout 0; ABeginElection; ADeliver 0; AVoteReply 0 0; APropose 0 (config_op 1 1);
    APropose 0 (put_op "v" 1); APropose 0 (config_op 2 2); APropose 0 noop;
    AReplicate 0 1; ADeliver 0; AReply 0 ] ++
  map inr [ETake 0; EProcess 0; ETake 0; EProcess 0; ETake 0; EProcess 0; ETake 0].
Definition follow : Acts :=
  map inl [AReplicate 0 1; ADeliver 0] ++
  map inr [ETake 1; EProcess 1; ETake 1; EProcess 1; ETake 1; EProcess 1; ETake 1; EProcess 1].

Definition new_group (r : Raft groupOp MemoryPersister) : GroupServer MemoryPersister :=
  mkGroupServer r 1 initState noWaiters 0 (-1).
Definition boot : GroupMachines := fresh_machines Demo.members new_group.
Definition given : GroupMachines := default boot (perform_machines (SV:=group_server 1) boot give).
Definition followed : GroupMachines := default boot (perform_machines (SV:=group_server 1) given follow).

Lemma given_reachable :
  machines_reachable (M:=group_machine 1) (SV:=group_server 1) Demo.members given.
Proof.
  exists boot. split; [by apply fresh_machines_init|].
  apply (perform_machines_sound (SV:=group_server 1) give). vm_compute. reflexivity.
Qed.

Lemma group_followed_after : rtc (machine_step (SV:=group_server 1)) given followed.
Proof. apply (perform_machines_sound (SV:=group_server 1) follow). vm_compute. reflexivity. Qed.

Definition node_of (x : GroupMachines) (i : Z) := default (freshRaft 0 [] None) (c_nodes x.1 !! i).
Definition replica_of (x : GroupMachines) (i : Z) :=
  default (mkReplica (new_group (freshRaft 0 [] None)) 0 []) (x.2 !! i).

Lemma replicas_hand_over_same_shard_witness :
  let sta := s_state (rp_srv (replica_of given 0)) in
  let stb := s_state (rp_srv (replica_of followed 1)) in
  rp_index (replica_of given 0) = 3 ∧ rp_index (replica_of followed 1) = 4 ∧
  plr_Data (Pull sta (mkPullArgs the_shard 2)) = {["x"%string := "v"%string]} ∧
  plr_Data (Pull stb (mkPullArgs the_shard 2)) = plr_Data (Pull sta (mkPullArgs the_shard 2)).
Proof.
  intros sta stb. split; [vm_compute; reflexivity|]. split; [vm_compute; reflexivity|].
  split; [vm_compute; reflexivity|].
  assert (between (rp_index (replica_of given 0)) (rp_index (replica_of followed 1)) (opsOf followed.1)
    = [noop]) as Hbt by (vm_compute; reflexivity).
  destruct (replicas_hand_over_same_shard 1 Demo.members (proj1 RaftSafety.Witness.members_ok)
    (proj2 RaftSafety.Witness.members_ok) given followed 0 1 (node_of given 0) (node_of followed 1)
    (replica_of given 0) (replica_of followed 1) the_shard 2 given_reachable group_followed_after)
    as (_ & _ & Hd).
  - vm_compute. reflexivity.
  - vm_compute. reflexivity.
  - vm_compute. reflexivity.
  - vm_compute. reflexivity.
  - split; by vm_compute.
  - split; by vm_compute.
  - rewrite Hbt. apply Forall_singleton. by split_and!.
  - by vm_compute.
  - by vm_compute.
  - exact Hd.
Defined.

Lemma given_ops : opsOf given.1 = [config_op 1 1; put_op "v" 1; config_op 2 2; noop].
Proof. vm_compute. reflexivity. Qed.

Lemma given_known : Forall gop_known [config_op 1 1; put_op "v" 1; config_op 2 2; noop].
Proof. repeat (apply Forall_cons; split); try apply Forall_nil_2; unfold gop_known; simpl; set_solver. Qed.

Lemma group_is_one_machine_witness :
  run 1 initState [config_op 1 1; put_op "v" 1; config_op 2 2] =
    Ret (s_state (rp_srv (replica_of given 0))) ∧
  ∃ m s', rp_queue (replica_of given 0) = [m] ∧
    applyLoop_msg (set_rf (node_of given 0) (rp_srv (replica_of given 0))) m = Ret s'.
Proof.
  destruct (group_is_one_machine 1 Demo.members (proj1 RaftSafety.Witness.members_ok)
    (proj2 RaftSafety.Witness.members_ok) given 0 (node_of given 0) (replica_of given 0)
    given_reachable) as (_ & Hrun & Hops); [vm_compute; reflexivity..|].
  rewrite given_ops in Hrun, Hops.
  assert (rp_index (replica_of given 0) = 3) as Hidx by (vm_compute; reflexivity).
  rewrite Hidx in Hrun. split; [exact Hrun|].
  destruct (Hops given_known) as [Hmsg _].
  assert (zlen (rp_queue (replica_of given 0)) = 1) as Hlen by (vm_compute; reflexivity).
  destruct (rp_queue (replica_of given 0)) as [|m [|m' q]]; [discriminate Hlen| |].
  - destruct (returned_Ret _ (Hmsg m [] eq_refl)) as [s' Hs]. exists m, s'. split; [reflexivity|exact Hs].
  - exfalso. rewrite !zlen_cons in Hlen. pose proof (zlen_nonneg q). lia.
Defined.
End Witness.
