(* ===== verification/ShardOwners.v ===== *)
(** * One owner per shard, and no write lost between owners

    All shard groups together: the committed logs of the groups of
    GroupServer.v in the order the entries are committed, with the
    configurations of one controller history (ReplicatedCtrlers.v) and Migrate
    entries that carry what a replica of the donor group answered to a Pull
    (its state is that of a prefix of its group's log, ReplicatedGroups.v). At
    most one group serves a shard, and what it serves is every write any group
    has accepted for the shard, in order. The step relation and the hypothesis
    [stays_assigned] say what this needs; [late_migrate_two_owners] and
    [abandoned_shard_is_empty] that the code does not ensure it. And two groups
    between which a shard crosses before it is fetched wait for each other for
    ever. *)
From S2P Require Import Prelude Persister Dedup Waiters RaftNode ShardConfig ShardConfigFacts Ctrler GroupServer GroupFacts.
Local Open Scope Z_scope.

(** ** The groups' logs *)

(** Entries in the order they are committed, the newest first, each with its
    group. *)
Definition GroupsLog : Type := list (Z * groupOp).

Fixpoint logOf (g : Z) (hist : GroupsLog) : list groupOp :=
  match hist with
  | [] => []
  | (g', op) :: hist => if decide (g' = g) then logOf g hist ++ [op] else logOf g hist
  end.

(** The state of a replica that has applied the whole log of its group, and of
    one that may lag behind. *)
Definition now (g : Z) (hist : GroupsLog) (st : GroupState) : Prop :=
  run g initState (logOf g hist) = Ret st.
Definition seen (g : Z) (hist : GroupsLog) (st : GroupState) : Prop :=
  ∃ ops, ops `prefix_of` logOf g hist ∧ run g initState ops = Ret st.

(** What a write makes of a store. *)
Definition wrote (store : gmap string string) (op : groupOp) : gmap string string :=
  <[go_Key op :=
      if decide (go_Type op = "Put"%string) then go_Value op
      else default "" (store !! go_Key op) +:+ go_Value op]> store.

Definition isWrite (op : groupOp) : Prop := go_Type op = "Put"%string ∨ go_Type op = "Append"%string.

(** Whether applyLoop takes the write: it owns the key and has not seen the
    request. *)
Definition takes (g : Z) (st : GroupState) (op : groupOp) : bool :=
  bool_decide (isWrite op) && ownsLocked g st (go_Key op) &&
  (seqOf (g_duplicateTable st) (go_ClientID op) <? go_SeqNum op).

(** The writes taken for a shard, by whichever group, oldest first; and what
    one sequential store makes of them. *)
Fixpoint shardWrites (s : Z) (hist : GroupsLog) : list groupOp :=
  match hist with
  | [] => []
  | (g, op) :: hist =>
      shardWrites s hist ++
      match run g initState (logOf g hist) with
      | Ret st => if bool_decide (Key2Shard (go_Key op) = s) && takes g st op then [op] else []
      | Panic => []
      end
  end.
Definition shardStore (s : Z) (hist : GroupsLog) : gmap string string :=
  foldl wrote ∅ (shardWrites s hist).

(** ** What may be committed *)

Section groups.
Context (cfgs : list Config).

(** The owner of a shard in version [n]; 0 is nobody. *)
Definition ownerAt (s n : Z) : Z :=
  match zget cfgs n with Some c => ownerOf c s | None => 0 end.

(** The data of a Migrate entry is used only if the group waits for the shard:
    then a replica of the group it waits for gave it, for a version since which
    the group has not acquired the shard again. *)
Definition fetched (hist : GroupsLog) (g : Z) (st : GroupState) (op : groupOp) : Prop :=
  let s := go_Shard op in
  ∀ d, g_migrating st !! s = Some d →
    ∃ num std, seen d hist std ∧
      Pull std (mkPullArgs s num) = mkPullReply GroupOK (go_Data op) (go_DupTable op) ∧
      ∀ j, num < j ≤ cfg_Num (g_cfg st) → ownerAt s j = g → ownerAt s (j - 1) = g.

(** A shard is collected only once a replica of the recipient says it serves it,
    in a version not before one [l] in which the group no longer owned the shard,
    and if the group has not acquired it again since [l]. *)
Definition collectable (hist : GroupsLog) (g : Z) (st : GroupState) (s : Z) : Prop :=
  ∀ to, g_leaving st !! s = Some to →
    ∃ l str, seen to hist str ∧ HasShard to str s = Ret (mkHasShardReply GroupOK true) ∧
      0 ≤ l ≤ cfg_Num (g_cfg str) ∧ l ≤ cfg_Num (g_cfg st) ∧
      ∀ j, l ≤ j ≤ cfg_Num (g_cfg st) → ownerAt s j ≠ g.

Inductive committable (hist : GroupsLog) (g : Z) (op : groupOp) : Prop :=
| co_noop : go_Type op = "Noop"%string → committable hist g op
| co_write : isWrite op → committable hist g op
| co_config : go_Type op = "Config"%string → go_Config op ∈ cfgs → committable hist g op
| co_migrate st : go_Type op = "Migrate"%string → now g hist st → fetched hist g st op →
    committable hist g op
| co_gc st : go_Type op = "GC"%string → now g hist st → collectable hist g st (go_Shard op) →
    committable hist g op.

Inductive groups_step : GroupsLog → GroupsLog → Prop :=
| gs_commit hist g op : g ≠ 0 → committable hist g op → groups_step hist ((g, op) :: hist).

Definition groups_reachable (hist : GroupsLog) : Prop := rtc groups_step [] hist.

(** From some moment on, Migrate entries of a shard that a group waits for carry
    answers to Pulls that asked for version [v] or a later one: they come from
    leaders that had applied [v]. *)
Definition asked_since (s v : Z) (hist : GroupsLog) (g : Z) (op : groupOp) : Prop :=
  go_Type op = "Migrate"%string → go_Shard op = s → ∀ st d, now g hist st → g_migrating st !! s = Some d →
  ∃ num std, v ≤ num ∧ seen d hist std ∧
    Pull std (mkPullArgs s num) = mkPullReply GroupOK (go_Data op) (go_DupTable op).

Inductive later_step (s v : Z) : GroupsLog → GroupsLog → Prop :=
| ls_commit hist g op : g ≠ 0 → committable hist g op → asked_since s v hist g op →
    later_step s v hist ((g, op) :: hist).

(** A shard with an owner keeps having one: see [history_stays_assigned]. *)
Definition stays_assigned : Prop :=
  ∀ s n, ownerAt s n ≠ 0 → is_Some (zget cfgs (n + 1)) → ownerAt s (n + 1) ≠ 0.

(** ** Logs and states *)

Lemma prefix_snoc {A} (l k : list A) x : l `prefix_of` k ++ [x] → l `prefix_of` k ∨ l = k ++ [x].
Proof.
  intros [r Hr]. destruct r as [|y r _] using rev_ind.
  - rewrite app_nil_r in Hr. by right.
  - rewrite app_assoc in Hr. apply app_inj_tail in Hr as [-> _]. left. by exists r.
Qed.

Lemma seen_cons g g' op hist st st' x : now g hist st → applyGroupOp g st op = Ret st' →
  seen g' ((g, op) :: hist) x ↔ seen g' hist x ∨ (g' = g ∧ x = st'.1).
Proof.
  unfold seen, now. intros Hn Ha. simpl. destruct (decide (g = g')) as [<-|Hne].
  - split.
    + intros (ops & [Hp| ->]%prefix_snoc & Hr); [left; by exists ops|].
      rewrite run_app, Hn in Hr. simpl in Hr. rewrite Ha in Hr. destruct st'. simpl in Hr.
      injection Hr as <-. by right.
    + intros [(ops & Hp & Hr)|[_ ->]].
      * exists ops. split; [by apply prefix_app_r|done].
      * eexists. split; [reflexivity|]. rewrite run_app, Hn. simpl. rewrite Ha. by destruct st'.
  - split; [auto|]. by intros [|[-> _]].
Qed.

Lemma now_cons g g' op hist st st' x : now g hist st → applyGroupOp g st op = Ret st' →
  now g' ((g, op) :: hist) x ↔ (g' ≠ g ∧ now g' hist x) ∨ (g' = g ∧ x = st'.1).
Proof.
  unfold now. intros Hn Ha. simpl. destruct (decide (g = g')) as [<-|Hne].
  - rewrite run_app, Hn. simpl. rewrite Ha. destruct st' as [st1 e]. simpl. split; [intros [= <-]; auto|].
    by intros [[]|[_ ->]].
  - split; [auto|]. by intros [[_ ?]|[-> _]].
Qed.

Lemma now_seen g hist st : now g hist st → seen g hist st.
Proof. intros H. by exists (logOf g hist). Qed.

Lemma now_eq g hist st st' : now g hist st → now g hist st' → st = st'.
Proof. unfold now. congruence. Qed.

(** ** What one entry does to one shard *)

Section shard.
Context (s : Z).
Implicit Types (st : GroupState) (hist : GroupsLog) (op : groupOp).
Abbreviation num st := (cfg_Num (g_cfg st)).
Abbreviation mig st := (g_migrating st !! s).
Abbreviation data st := (shardData s (g_store st)).

(** Nothing that concerns the shard, or its data dropped. *)
Record quiet (st st' : GroupState) : Prop := {
  qu_cfg : g_cfg st' = g_cfg st;
  qu_mig : mig st' = mig st;
  qu_dup c : seqOf (g_duplicateTable st) c ≤ seqOf (g_duplicateTable st') c;
  qu_data : data st' = data st ∨ data st' = ∅
}.

Lemma quiet_refl st : quiet st st.
Proof. split; [done..| |by left]. done. Qed.

Lemma shardData_wrote store op : Key2Shard (go_Key op) = s →
  shardData s (wrote store op) = wrote (shardData s store) op.
Proof.
  intros Hk. unfold wrote. apply map_eq. intros k. rewrite lookup_shardData.
  destruct (decide (k = go_Key op)) as [->|Hne].
  - rewrite !lookup_insert_eq, decide_True by done. by rewrite lookup_shardData, (decide_True _ _ Hk).
  - rewrite !lookup_insert_ne by done. by rewrite lookup_shardData.
Qed.

Lemma shardData_wrote_other store op : Key2Shard (go_Key op) ≠ s →
  shardData s (wrote store op) = shardData s store.
Proof.
  intros Hk. unfold wrote. apply map_eq. intros k. rewrite !lookup_shardData. case_decide as Hs; [|done].
  rewrite lookup_insert_ne; [done|]. by intros <-.
Qed.

(** A write, taken or not. *)
Lemma write_result g st op st' e : isWrite op → applyGroupOp g st op = Ret (st', e) →
  st' = if takes g st op
        then mkGroupState (g_cfg st) (wrote (g_store st) op) (g_migrating st) (g_leaving st)
               (<[go_ClientID op := go_SeqNum op]> (g_duplicateTable st))
        else st.
Proof.
  intros Hw. unfold applyGroupOp, takes. rewrite bool_decide_true by done. unfold isWrite in Hw.
  rewrite !decide_False by (intros H; destruct Hw; congruence). rewrite decide_True by done.
  unfold applyWrite. simpl. destruct (ownsLocked g st (go_Key op)); simpl; [|by intros [= <- _]].
  by destruct (_ <? _); intros [= <- _].
Qed.

Lemma write_quiet g st op st' e : isWrite op → applyGroupOp g st op = Ret (st', e) →
  Key2Shard (go_Key op) ≠ s ∨ takes g st op = false → quiet st st'.
Proof.
  intros Hw Ha Hno. rewrite (write_result g st op st' e Hw Ha).
  destruct (takes g st op) eqn:Ht; [|apply quiet_refl]. destruct Hno as [Hk|]; [|done].
  split; simpl; [done..| |left; by apply shardData_wrote_other].
  intros c. unfold seqOf at 2. destruct (decide (c = go_ClientID op)) as [->|Hne].
  - rewrite lookup_insert_eq. simpl. unfold takes in Ht. apply andb_prop in Ht as [_ Ht%Z.ltb_lt]. lia.
  - by rewrite lookup_insert_ne.
Qed.

(** A configuration that is not the next one is ignored. *)
Lemma config_result g st op st' e : go_Type op = "Config"%string → applyGroupOp g st op = Ret (st', e) →
  0 ≤ s < Z.of_nat NShards →
  let new := go_Config op in
  if decide (cfg_Num new = num st + 1)
  then g_cfg st' = new ∧ data st' = data st ∧ g_duplicateTable st' = g_duplicateTable st ∧
       mig st' = (if decide (ownerOf new s = g ∧ ownerOf (g_cfg st) s ≠ g ∧ ownerOf (g_cfg st) s ≠ 0)
                  then Some (ownerOf (g_cfg st) s) else mig st)
  else st' = st.
Proof.
  intros Ht Ha Hs new. unfold applyGroupOp in Ha. rewrite Ht in Ha. simpl in Ha. injection Ha as <- _.
  unfold applyConfig. fold new. case_decide as Hn; [rewrite (proj2 (Z.eqb_eq _ _) Hn)|
    by rewrite (proj2 (Z.eqb_neq _ _) Hn)].
  pose proof (adoptShards_lookup g (g_cfg st) new allShards (g_migrating st) (g_leaving st) s) as Hl.
  destruct (adoptShards g (g_cfg st) new allShards (g_migrating st) (g_leaving st)) as [mi le].
  destruct Hl as [Hmi _]. simpl. split_and!; [done..|]. rewrite Hmi. apply decide_ext.
  pose proof (elem_of_allShards s Hs). tauto.
Qed.

(** A Migrate entry the group does not wait for, or of another shard. *)
Lemma migrate_quiet hist g st op st' e : go_Type op = "Migrate"%string → applyGroupOp g st op = Ret (st', e) →
  fetched hist g st op → go_Shard op ≠ s ∨ mig st = None → quiet st st' ∧ data st' = data st.
Proof.
  intros Ht Ha Hf Hno. unfold applyGroupOp in Ha. rewrite Ht in Ha. simpl in Ha. injection Ha as <- _.
  unfold applyMigrate.
  destruct (g_migrating st !! go_Shard op) as [d|] eqn:Hm; [|split; [apply quiet_refl|done]].
  assert (go_Shard op ≠ s) as Hne by (intros <-; destruct Hno; congruence).
  destruct (Hf d Hm) as (n & std & _ & Hp & _). unfold Pull in Hp. simpl in Hp.
  destruct (_ <? _); [done|]. destruct (g_migrating std !! go_Shard op); [done|]. injection Hp as Hdata _.
  assert (data (mkGroupState (g_cfg st) (go_Data op ∪ g_store st) (delete (go_Shard op) (g_migrating st))
    (g_leaving st) (mergeDup (g_duplicateTable st) (go_DupTable op))) = data st) as Hd.
  { apply shardData_union. rewrite <- Hdata. intros k [v Hv]. rewrite lookup_shardData in Hv.
    case_decide; [congruence|done]. }
  split; [|done]. split; simpl; [done|by rewrite lookup_delete_ne| |by left].
  intros c. rewrite mergeDup_seqOf. lia.
Qed.

(** A collection. *)
Lemma gc_quiet g st op st' e : go_Type op = "GC"%string → applyGroupOp g st op = Ret (st', e) →
  quiet st st' ∧ (data st' = data st ∨ (go_Shard op = s ∧ is_Some (g_leaving st !! s))).
Proof.
  intros Ht Ha. unfold applyGroupOp in Ha. rewrite Ht in Ha. simpl in Ha. injection Ha as <- _.
  unfold applyGC. destruct (g_leaving st !! go_Shard op) as [to|] eqn:Hl; [|split; [apply quiet_refl|by left]].
  assert (if decide (go_Shard op = s)
    then data (applyGC st (go_Shard op)) = ∅ else data (applyGC st (go_Shard op)) = data st) as Hd.
  { unfold applyGC. rewrite Hl. case_decide as Hs; apply map_eq; intros k; simpl;
      rewrite ?lookup_empty, !lookup_shardData; case_decide as Hk; try done; rewrite map_lookup_filter;
      destruct (g_store st !! k); try done; simpl; [by rewrite option_guard_False by congruence|
      by rewrite option_guard_True by congruence]. }
  unfold applyGC in Hd. rewrite Hl in Hd. case_decide as Hs.
  - split; [split; simpl; [done..|by right]|]. right. by rewrite <- Hs, Hl.
  - split; [split; simpl; [done..|by left]|by left].
Qed.

(** ** The versions of the configuration *)

Context (Hhist : history_ok cfgs) (Hzero : zget cfgs 0 = Some zeroConfig).
Context (Hstay : stays_assigned) (Hs : 0 ≤ s < Z.of_nat NShards).
Abbreviation own := (ownerAt s).

(** The shard keeps its owner from version [c] on, until [j]. *)
Definition kept (c j : Z) : Prop := ∀ i, c < i ≤ j → own i = own (i - 1).

Lemma kept_own c i j : kept c j → c ≤ i ≤ j → own i = own c.
Proof.
  intros Hk Hi. replace i with (c + Z.of_nat (Z.to_nat (i - c))) by lia.
  assert (Z.of_nat (Z.to_nat (i - c)) ≤ i - c) as Hle by lia. revert Hle.
  induction (Z.to_nat (i - c)) as [|n IH]; intros Hle; [by rewrite Z.add_0_r|].
  rewrite <- IH by lia. rewrite Hk by lia. f_equal. lia.
Qed.

(** An owner that does not acquire the shard again keeps it while it has it. *)
Lemma tenure g m n j : own m = g → m ≤ j ≤ n → own j = g →
  (∀ i, m < i ≤ n → own i = g → own (i - 1) = g) → kept m j.
Proof.
  intros Hm Hj Hown Hno. assert (∀ k : nat, Z.of_nat k ≤ j - m → own (j - Z.of_nat k) = g) as Hall.
  { induction k as [|k IH]; intros Hk; [by rewrite Z.sub_0_r|].
    replace (j - Z.of_nat (S k)) with (j - Z.of_nat k - 1) by lia. apply Hno; [lia|]. apply IH. lia. }
  intros i Hi. pose proof (Hall (Z.to_nat (j - i)) ltac:(lia)) as H1.
  pose proof (Hall (Z.to_nat (j - (i - 1))) ltac:(lia)) as H2.
  replace (j - Z.of_nat (Z.to_nat (j - i))) with i in H1 by lia.
  replace (j - Z.of_nat (Z.to_nat (j - (i - 1)))) with (i - 1) in H2 by lia. congruence.
Qed.

Lemma own_zero : own 0 = 0.
Proof.
  unfold ownerAt. rewrite Hzero. unfold ownerOf, zeroConfig. cbn [cfg_Shards].
  destruct (zget (replicate NShards 0) s) as [o|] eqn:Ho; [|done].
  apply zget_elem_of, elem_of_replicate in Ho as [-> _]. done.
Qed.

Lemma own_pos c : 0 ≤ c → own c ≠ 0 → 0 < c.
Proof. intros Hc Ho. destruct (decide (c = 0)) as [->|]; [by rewrite own_zero in Ho|lia]. Qed.

Lemma assigned_mono i j : own i ≠ 0 → i ≤ j → is_Some (zget cfgs j) → own j ≠ 0.
Proof.
  intros Hi Hij. replace j with (i + Z.of_nat (Z.to_nat (j - i))) by lia.
  induction (Z.to_nat (j - i)) as [|n IH]; [by rewrite Z.add_0_r|].
  replace (i + Z.of_nat (S n)) with (i + Z.of_nat n + 1) by lia. intros Hj. apply Hstay; [|done].
  apply IH. apply zget_is_Some. apply zget_is_Some in Hj. split; [|lia].
  destruct (decide (0 ≤ i)) as [|Hn]; [lia|]. exfalso. apply Hi. unfold ownerAt.
  by rewrite (proj2 (zget_None cfgs i)) by lia.
Qed.

Lemma cfg_at c : c ∈ cfgs → zget cfgs (cfg_Num c) = Some c ∧ own (cfg_Num c) = ownerOf c s.
Proof.
  intros (i & Hi)%list_elem_of_lookup. destruct (proj2 Hhist i c Hi) as [-> _].
  assert (zget cfgs (Z.of_nat i) = Some c) as Hz.
  { unfold zget. rewrite bool_decide_true by lia. by rewrite Nat2Z.id. }
  split; [done|]. unfold ownerAt. by rewrite Hz.
Qed.

(** ** The invariant

    [c] is the version in which the present holder of the shard acquired it, 0
    before anyone did. *)
Record owners_ok hist (c : Z) : Prop := {
  oo_c : 0 ≤ c;
  oo_now g : ∃ st, now g hist st;
  oo_cfg g st : seen g hist st → zget cfgs (num st) = Some (g_cfg st);
  (* a group that waits acquired the shard in some version, and not since *)
  oo_waits g st d : seen g hist st → mig st = Some d →
    ∃ m, 1 ≤ m ≤ num st ∧ own m = g ∧ own (m - 1) = d ∧ d ≠ g ∧ d ≠ 0 ∧
      (∀ j, m < j ≤ num st → own j = g → own (j - 1) = g) ∧ (now g hist st → c < m);
  (* what a group that does not wait ever acquired, it had from the holder's line *)
  oo_done g st j : seen g hist st → mig st = None → 0 ≤ j ≤ num st → own j = g → kept c j;
  oo_past i : 0 ≤ i < c → own i ≠ 0 → ∃ st, now (own i) hist st ∧ i < num st;
  oo_dom g st : seen g hist st → dom (data st) ⊆ dom (shardStore s hist);
  oo_none : c = 0 → shardWrites s hist = [];
  oo_holder : 0 < c → own c ≠ 0 ∧ own (c - 1) ≠ own c ∧ ∃ st, now (own c) hist st ∧ c ≤ num st;
  (* the holder's data, also after it has lost the shard *)
  oo_data st : 0 < c → seen (own c) hist st → c ≤ num st → mig st = None →
    now (own c) hist st ∨ ¬ kept c (num st) →
    data st = shardStore s hist ∧
    ∀ op, op ∈ shardWrites s hist → go_SeqNum op ≤ seqOf (g_duplicateTable st) (go_ClientID op);
  oo_order ws1 op ws2 op' : shardWrites s hist = ws1 ++ op :: ws2 → op' ∈ ws1 →
    go_ClientID op' = go_ClientID op → go_SeqNum op' < go_SeqNum op
}.

Lemma now_step g op hist : (∃ st, now g hist st) → committable hist g op →
  ∃ st st' e, now g hist st ∧ applyGroupOp g st op = Ret (st', e).
Proof.
  intros (st & Hst) Hc. exists st.
  assert (is_Some (match applyGroupOp g st op with Ret x => Some x | Panic => None end)) as [[st' e] He].
  { unfold applyGroupOp. destruct Hc as [Ht|[Ht|Ht]|Ht ?|? Ht ? ?|? Ht ? ?]; rewrite Ht; simpl; by eexists. }
  exists st', e. split; [done|]. by destruct (applyGroupOp g st op); simplify_eq.
Qed.

Lemma init_ok : owners_ok [] 0.
Proof.
  assert (∀ g st, seen g [] st → st = initState) as Hi.
  { intros g st (ops & Hp & Hr). simpl in Hp. apply prefix_nil_inv in Hp. subst ops. by injection Hr as <-. }
  assert (∀ g, now g [] initState) as Hn by done.
  split; try done; try lia.
  - eauto.
  - by intros g st ->%Hi.
  - by intros g st d ->%Hi.
  - intros g st j ->%Hi _ Hj _. simpl in Hj. intros i Hi'. lia.
  - intros g st ->%Hi. done.
  - by intros [|] op ws2 op'.
Qed.

Lemma applyGroupOp_num g st op st' e : applyGroupOp g st op = Ret (st', e) → num st ≤ num st'.
Proof.
  unfold applyGroupOp. op_cases op Ht; intros H; simplify_eq; try done.
  - unfold applyConfig. destruct (Z.eqb_spec (cfg_Num (go_Config op)) (num st + 1)); [|done].
    destruct (adoptShards _ _ _ _ _ _). simpl. lia.
  - unfold applyMigrate. by destruct (g_migrating st !! _).
  - unfold applyGC. by destruct (g_leaving st !! _).
  - revert H. unfold applyWrite. destruct (negb _); [by intros [= <- _]|].
    destruct (_ <? _); by intros [= <- _].
Qed.

Lemma run_num g ops st st' : run g st ops = Ret st' → num st ≤ num st'.
Proof.
  revert st. induction ops as [|op ops IH]; intros st; simpl; [by intros [= <-]|].
  intros ([st1 e] & H1%applyGroupOp_num & H2%IH)%bind_Ret_inv. lia.
Qed.

Lemma applyGroupOp_dup g st op st' e cl : applyGroupOp g st op = Ret (st', e) →
  seqOf (g_duplicateTable st) cl ≤ seqOf (g_duplicateTable st') cl.
Proof.
  unfold applyGroupOp. op_cases op Ht; intros H; simplify_eq; try done.
  - unfold applyConfig. destruct (_ =? _); [|done]. by destruct (adoptShards _ _ _ _ _ _).
  - unfold applyMigrate. destruct (g_migrating st !! _); [|done]. simpl. rewrite mergeDup_seqOf. lia.
  - unfold applyGC. by destruct (g_leaving st !! _).
  - revert H. unfold applyWrite. destruct (negb _); [by intros [= <- _]|].
    destruct (Z.ltb_spec (seqOf (g_duplicateTable st) (go_ClientID op)) (go_SeqNum op)); intros [= <- _]; [|done].
    simpl. unfold seqOf at 2. destruct (decide (cl = go_ClientID op)) as [->|Hne]; [|by rewrite lookup_insert_ne].
    rewrite lookup_insert_eq. simpl. lia.
Qed.

Lemma run_dup g ops st st' cl : run g st ops = Ret st' →
  seqOf (g_duplicateTable st) cl ≤ seqOf (g_duplicateTable st') cl.
Proof.
  revert st. induction ops as [|op ops IH]; intros st; simpl; [by intros [= <-]|].
  intros ([st1 e] & H1%(applyGroupOp_dup _ _ _ _ _ cl) & H2%IH)%bind_Ret_inv. lia.
Qed.

(** A replica that lags behind is not ahead. *)
Lemma seen_num g hist x st : seen g hist x → now g hist st → num x ≤ num st.
Proof.
  intros (ops & [rest Hp] & Hr) Hn. unfold now in Hn. rewrite Hp, run_app, Hr in Hn. by eapply run_num.
Qed.

Lemma not_write_writes g op hist : ¬ isWrite op → shardWrites s ((g, op) :: hist) = shardWrites s hist.
Proof.
  intros Hw. simpl. destruct (run _ _ _); [|by rewrite app_nil_r].
  unfold takes. rewrite (bool_decide_false (isWrite op)) by done. simpl.
  by rewrite andb_false_r, app_nil_r.
Qed.

Section step.
Context (hist : GroupsLog) (c : Z) (Hok : owners_ok hist c).
Context (g : Z) (Hg : g ≠ 0) (op : groupOp) (st st' : GroupState) (e : GroupErr).
Context (Hn : now g hist st) (Ha : applyGroupOp g st op = Ret (st', e)).

Lemma step_seen g' x : seen g' ((g, op) :: hist) x ↔ seen g' hist x ∨ (g' = g ∧ x = st').
Proof. by apply (seen_cons _ _ _ _ st (st', e)). Qed.

Lemma step_now g' x : now g' ((g, op) :: hist) x ↔ (g' ≠ g ∧ now g' hist x) ∨ (g' = g ∧ x = st').
Proof. by apply (now_cons _ _ _ _ st (st', e)). Qed.

Lemma step_runs g' : ∃ x, now g' ((g, op) :: hist) x.
Proof.
  destruct (decide (g' = g)) as [->|Hne]; [exists st'; rewrite step_now; auto|].
  destruct (oo_now _ _ Hok g') as [x Hx]. exists x. rewrite step_now. auto.
Qed.

(** A group that was past a version still is. *)
Lemma step_past g' i : (∃ x, now g' hist x ∧ i ≤ num x) → ∃ x, now g' ((g, op) :: hist) x ∧ i ≤ num x.
Proof.
  intros (x & Hx & Hi). destruct (decide (g' = g)) as [->|Hne]; [|exists x; rewrite step_now; auto].
  exists st'. rewrite step_now. split; [auto|]. rewrite (now_eq _ _ _ _ Hx Hn) in Hi.
  apply applyGroupOp_num in Ha. lia.
Qed.

Lemma st_num : 0 ≤ num st ∧ is_Some (zget cfgs (num st)) ∧ own (num st) = ownerOf (g_cfg st) s.
Proof.
  pose proof (oo_cfg _ _ Hok g st (now_seen _ _ _ Hn)) as Hz.
  split; [apply zget_Some_bound in Hz; lia|]. split; [by eexists|]. unfold ownerAt. by rewrite Hz.
Qed.

(** Nothing beyond what the group has applied has reached it. *)
Lemma own_ahead m : own m = g → num st < m → c < m.
Proof.
  intros Hm Hlt. destruct (Z.lt_trichotomy c m) as [?|[Heq|Hgt]]; [done|exfalso..].
  - destruct (oo_holder _ _ Hok) as (_ & _ & x & Hx & Hle); [pose proof st_num; lia|].
    rewrite Heq, Hm in Hx. rewrite (now_eq _ _ _ _ Hx Hn) in Hle. lia.
  - destruct (oo_past _ _ Hok m) as (x & Hx & Hle); [pose proof st_num; lia|by rewrite Hm|].
    rewrite Hm in Hx. rewrite (now_eq _ _ _ _ Hx Hn) in Hle. lia.
Qed.

(** The parts of the invariant that every step keeps in the same way. *)
Lemma step_cfg : zget cfgs (num st') = Some (g_cfg st') →
  ∀ g' x, seen g' ((g, op) :: hist) x → zget cfgs (num x) = Some (g_cfg x).
Proof. intros Hcfg g' x [Hx|[-> ->]]%step_seen; [by eapply oo_cfg|done]. Qed.

Lemma step_oo_past i : 0 ≤ i < c → own i ≠ 0 → ∃ x, now (own i) ((g, op) :: hist) x ∧ i < num x.
Proof.
  intros Hi Ho. destruct (oo_past _ _ Hok i Hi Ho) as (x & Hx & Hlt).
  destruct (step_past (own i) (i + 1)) as (y & Hy & ?); [exists x; split; [done|lia]|].
  exists y. split; [done|lia].
Qed.

Lemma step_oo_holder : 0 < c →
  own c ≠ 0 ∧ own (c - 1) ≠ own c ∧ ∃ x, now (own c) ((g, op) :: hist) x ∧ c ≤ num x.
Proof.
  intros Hc. destruct (oo_holder _ _ Hok Hc) as (? & ? & ?). split; [done|]. split; [done|]. by apply step_past.
Qed.

(** Who waited before the step waits for the same version after it. *)
Lemma step_oo_waits g' x d : seen g' hist x → mig x = Some d →
  (g' = g → x = st' → mig st' = mig st ∧ g_cfg st' = g_cfg st) →
  ∃ m, 1 ≤ m ≤ num x ∧ own m = g' ∧ own (m - 1) = d ∧ d ≠ g' ∧ d ≠ 0 ∧
    (∀ j, m < j ≤ num x → own j = g' → own (j - 1) = g') ∧ (now g' ((g, op) :: hist) x → c < m).
Proof.
  intros Hx Hm Hsame. destruct (oo_waits _ _ Hok g' x d Hx Hm) as (m & ? & Hom & Hod & ? & ? & Hno & Hc).
  exists m. split_and!; try (done || lia). rewrite step_now. intros [[_ ?]|[-> ->]]; [by apply Hc|].
  destruct (Hsame eq_refl eq_refl) as [Hmig Hcfg]. rewrite Hmig in Hm.
  destruct (oo_waits _ _ Hok g st d (now_seen _ _ _ Hn) Hm) as (m' & ? & Hm' & ? & ? & ? & Hno' & Hc').
  rewrite Hcfg in *. specialize (Hc' Hn). destruct (decide (m < m')); [|lia].
  assert (own (m' - 1) = g); [apply Hno; [lia|done]|]. congruence.
Qed.

(** An entry that does not concern the shard. *)
Lemma quiet_ok : quiet st st' → shardWrites s ((g, op) :: hist) = shardWrites s hist →
  data st' = data st ∨ own c ≠ g → owners_ok ((g, op) :: hist) c.
Proof.
  intros [Hcfg Hmig Hdup Hdata] Hw Hkeep. pose proof (now_seen _ _ _ Hn) as Hs0.
  split; rewrite ?Hw; unfold shardStore; rewrite ?Hw; fold (shardStore s hist); try by apply Hok.
  - apply step_runs.
  - apply step_cfg. rewrite Hcfg. by eapply oo_cfg.
  - intros g' x d [Hx|[-> ->]]%step_seen Hm; [by apply step_oo_waits|].
    rewrite Hmig in Hm. destruct (oo_waits _ _ Hok g st d Hs0 Hm) as (m & ? & ? & ? & ? & ? & ? & Hc).
    exists m. rewrite Hcfg. split_and!; try (done || lia). auto.
  - intros g' x j [Hx|[-> ->]]%step_seen Hm; [by eapply oo_done|]. rewrite Hcfg. rewrite Hmig in Hm. by eapply oo_done.
  - apply step_oo_past.
  - intros g' x [Hx|[-> ->]]%step_seen; [by eapply oo_dom|].
    destruct Hdata as [->| ->]; [by eapply oo_dom|]. rewrite dom_empty. apply empty_subseteq.
  - apply step_oo_holder.
  - intros x Hc Hx Hle Hm Hor. destruct (decide (own c = g)) as [Heq|Hne].
    + destruct Hkeep as [Hkeep|]; [|done]. rewrite Heq, step_now, step_seen in *.
      assert (x = st' ∨ (seen g hist x ∧ ¬ kept c (num x))) as [->|[Hx' Hk]] by tauto.
      * rewrite Hkeep. rewrite Hcfg in Hle. rewrite Hmig in Hm.
        destruct (oo_data _ _ Hok st) as [-> Hall]; rewrite ?Heq; auto.
        split; [done|]. intros o Ho. specialize (Hall o Ho). specialize (Hdup (go_ClientID o)). lia.
      * apply (oo_data _ _ Hok x); rewrite ?Heq; auto.
    + rewrite step_now, step_seen in *. apply (oo_data _ _ Hok x); tauto.
Qed.

(** The first group ever to own the shard takes it as it is: empty. *)
Lemma first_owner_ok : ¬ isWrite op → num st' = num st + 1 → zget cfgs (num st') = Some (g_cfg st') →
  own (num st') = g → own (num st) = 0 → data st' = data st → mig st' = mig st →
  owners_ok ((g, op) :: hist) (num st').
Proof.
  intros Hw Hnum Hcfg Hown Hfree Hdata Hmig. destruct st_num as (H0 & Hsome & _).
  assert (∀ i, own i ≠ 0 → num st < i) as Hbefore.
  { intros i Hi. destruct (decide (num st < i)); [done|]. by destruct (assigned_mono i (num st) Hi); [lia|done|]. }
  assert (mig st = None) as Hnone.
  { destruct (mig st) as [d|] eqn:Hm; [|done].
    destruct (oo_waits _ _ Hok g st d (now_seen _ _ _ Hn) Hm) as (m & ? & Hm' & _).
    specialize (Hbefore m ltac:(congruence)). lia. }
  assert (c = 0) as Hc.
  { destruct (decide (c = 0)); [done|]. pose proof (oo_c _ _ Hok).
    destruct (oo_holder _ _ Hok) as (Hoc%Hbefore & _); [lia|].
    pose proof (own_ahead _ Hown). lia. }
  pose proof (oo_none _ _ Hok Hc) as Hnil.
  assert (shardStore s hist = ∅) as Hst by (unfold shardStore; by rewrite Hnil).
  pose proof (not_write_writes g op hist Hw) as Hws.
  assert (shardStore s ((g, op) :: hist) = ∅) as Hst' by (unfold shardStore; by rewrite Hws, Hnil).
  assert (∀ g' x, seen g' ((g, op) :: hist) x → data x = ∅) as Hempty.
  { intros g' x Hx%step_seen. apply dom_empty_iff_L, set_eq. intros k.
    assert (dom (data x) ⊆ ∅) as Hsub; [|set_solver].
    rewrite <- (dom_empty_L (D:=gset string) (M:=gmap string) (A:=string)), <- Hst.
    destruct Hx as [Hx|[-> ->]]; [by eapply oo_dom|]. rewrite Hdata. eapply oo_dom; [done|by apply now_seen]. }
  split; rewrite ?Hws, ?Hst', ?Hnil; try done; try lia.
  - apply step_runs.
  - by apply step_cfg.
  - intros g' x d [Hx|[-> ->]]%step_seen Hm; [|congruence].
    destruct (oo_waits _ _ Hok g' x d Hx Hm) as (m & ? & ? & ? & ? & ? & ? & _). exists m.
    split_and!; try (done || lia). intros _. pose proof (Hbefore (m - 1) ltac:(congruence)).
    destruct (decide (m - 1 = num st')) as [Heq|]; [|lia]. lia.
  - intros g' x j [Hx|[-> ->]]%step_seen Hm Hj Ho i Hi; [|lia].
    eapply (oo_done _ _ Hok g' x j); [done..|lia].
  - intros i Hi Ho%Hbefore. lia.
  - intros g' x Hx. by rewrite (Hempty g' x Hx).
  - intros _. rewrite Hown, Hnum. replace (num st + 1 - 1) with (num st) by lia. rewrite Hfree.
    split; [done|]. split; [done|]. exists st'. rewrite step_now. split; [auto|lia].
  - intros x _ Hx _ _ _. split; [by eapply Hempty|]. by intros o ?%not_elem_of_nil.
  - by intros [|].
Qed.

(** Any other next version: the group waits for the shard if it acquires it. *)
Lemma next_version_ok : ¬ isWrite op → num st' = num st + 1 → zget cfgs (num st') = Some (g_cfg st') →
  data st' = data st → g_duplicateTable st' = g_duplicateTable st →
  mig st' = (if decide (own (num st') = g ∧ own (num st) ≠ g ∧ own (num st) ≠ 0)
             then Some (own (num st)) else mig st) →
  ¬ (own (num st') = g ∧ own (num st) = 0) →
  owners_ok ((g, op) :: hist) c.
Proof.
  intros Hw Hnum Hcfg Hdata Hdup Hmig Hfirst. destruct st_num as (H0 & Hsome & _).
  pose proof (now_seen _ _ _ Hn) as Hs0. pose proof (not_write_writes g op hist Hw) as Hws.
  assert (∀ x, seen g hist x → num x ≤ num st) as Hold by (intros x Hx; by eapply seen_num).
  assert (mig st' = None → mig st = None) as Hnone.
  { rewrite Hmig. by case_decide. }
  assert (∀ i, own i = g → i ≤ num st → own (num st) ≠ 0) as Hassigned.
  { intros i Hi Hle. apply (assigned_mono i); [congruence|done|done]. }
  split; rewrite ?Hws; unfold shardStore; rewrite ?Hws; fold (shardStore s hist); try by apply Hok.
  - apply step_runs.
  - by apply step_cfg.
  - intros g' x d [Hx|[-> ->]]%step_seen Hm.
    + apply step_oo_waits; [done..|]. intros -> ->. apply Hold in Hx. lia.
    + rewrite Hmig in Hm. case_decide as Hacq.
      * injection Hm as <-. destruct Hacq as (Hown & Hne & Hnz). exists (num st').
        replace (num st' - 1) with (num st) by lia. split_and!; try (done || lia).
        intros _. apply own_ahead; [done|lia].
      * destruct (oo_waits _ _ Hok g st d Hs0 Hm) as (m & ? & ? & ? & ? & ? & Hno & Hc). exists m.
        split_and!; try (done || lia); [|auto]. intros j Hj Ho.
        destruct (decide (j = num st')) as [->|]; [|apply Hno; [lia|done]].
        replace (num st' - 1) with (num st) by lia.
        destruct (decide (own (num st) = g)); [done|]. destruct Hacq. split_and!; [done..|].
        by apply (Hassigned m); [|lia].
  - intros g' x j [Hx|[-> ->]]%step_seen Hm Hj Ho; [by eapply oo_done|].
    specialize (Hnone Hm). destruct (decide (j = num st')) as [->|]; [|eapply oo_done; (done || lia)].
    assert (own (num st) = g) as Hsame.
    { destruct (decide (own (num st) = g)); [done|]. exfalso. apply Hfirst. split; [done|].
      destruct (decide (own (num st) = 0)); [done|]. rewrite Hmig, decide_True in Hm; done. }
    intros i Hi. destruct (decide (i = num st')) as [->|]; [rewrite Ho; replace (num st' - 1) with (num st) by lia; congruence|].
    apply (oo_done _ _ Hok g st (num st)); [done..|lia|done|lia].
  - apply step_oo_past.
  - intros g' x [Hx|[-> ->]]%step_seen; [by eapply oo_dom|]. rewrite Hdata. by eapply oo_dom.
  - apply step_oo_holder.
  - intros x Hc [Hx|[Heq ->]]%step_seen Hle Hm Hor.
    + apply (oo_data _ _ Hok x); [done..|]. destruct Hor as [[[_ Hx']|[Heq ->]]%step_now|?]; [by left| |by right].
      rewrite Heq in Hx. apply Hold in Hx. lia.
    + specialize (Hnone Hm). rewrite Hdata, Hdup. apply (oo_data _ _ Hok st); try done; rewrite ?Heq; auto.
      destruct (oo_holder _ _ Hok Hc) as (_ & _ & x & Hx & Hx'). rewrite Heq in Hx.
      by rewrite <- (now_eq _ _ _ _ Hx Hn).
Qed.

(** A configuration entry. *)
Lemma config_ok : go_Type op = "Config"%string → go_Config op ∈ cfgs →
  ∃ c', owners_ok ((g, op) :: hist) c' ∧ (c' = c ∨ (c' = num st + 1 ∧ own (num st) = 0)).
Proof.
  intros Ht Hin. assert (¬ isWrite op) as Hw by (unfold isWrite; rewrite Ht; naive_solver).
  pose proof (config_result g st op st' e Ht Ha Hs) as Hr. simpl in Hr.
  destruct (cfg_at _ Hin) as [Hz Hown]. destruct st_num as (_ & _ & Hown0). case_decide as Hnext.
  - destruct Hr as (Hcfg & Hdata & Hdup & Hmig). rewrite <- Hcfg in Hz, Hown, Hnext.
    rewrite <- Hcfg, <- Hown, <- Hown0 in Hmig.
    destruct (decide (own (num st') = g ∧ own (num st) = 0)) as [[Ho Hf]|Hfirst].
    + exists (num st'). split; [|right; split; [lia|done]]. apply first_owner_ok; try done.
      rewrite Hmig, decide_False; [done|]. by intros (_ & _ & []).
    + exists c. split; [|by left]. by apply next_version_ok.
  - exists c. split; [|by left]. apply quiet_ok; [rewrite Hr; apply quiet_refl|by apply not_write_writes|left; by rewrite Hr].
Qed.

(** Who takes a write is the holder, in the tenure that made it that. *)
Lemma serves_holder : own (num st) = g → mig st = None →
  0 < c ≤ num st ∧ own c = g ∧ kept c (num st) ∧ data st = shardStore s hist ∧
  ∀ o, o ∈ shardWrites s hist → go_SeqNum o ≤ seqOf (g_duplicateTable st) (go_ClientID o).
Proof.
  intros Hown Hm. destruct st_num as (H0 & _). pose proof (now_seen _ _ _ Hn) as Hs0.
  pose proof (oo_done _ _ Hok g st (num st) Hs0 Hm ltac:(lia) Hown) as Hk.
  pose proof (oo_c _ _ Hok) as Hc0.
  assert (c ≤ num st) as Hle.
  { destruct (decide (c ≤ num st)) as [|Hgt]; [done|]. exfalso.
    destruct (oo_past _ _ Hok (num st)) as (x & Hx & Hlt); [lia|congruence|].
    rewrite Hown in Hx. rewrite (now_eq _ _ _ _ Hx Hn) in Hlt. lia. }
  pose proof (kept_own c (num st) (num st) Hk ltac:(lia)) as Hoc.
  assert (0 < c) as Hc by (apply own_pos; [done|congruence]).
  assert (own c = g) as Hog by congruence. split; [done|]. split; [done|]. split; [done|].
  apply (oo_data _ _ Hok st Hc); rewrite ?Hog; auto with lia.
Qed.

Lemma taken_ok : isWrite op → Key2Shard (go_Key op) = s → takes g st op = true →
  owners_ok ((g, op) :: hist) c.
Proof.
  intros Hw Hk Ht. pose proof (now_seen _ _ _ Hn) as Hs0.
  pose proof (write_result g st op st' e Hw Ha) as Hst'. rewrite Ht in Hst'.
  pose proof Ht as Ht'. unfold takes in Ht'. apply andb_prop in Ht' as [[_ Howns]%andb_prop Hseq%Z.ltb_lt].
  unfold ownsLocked in Howns. rewrite Hk in Howns. destruct st_num as (H0 & _ & Hown0). rewrite <- Hown0 in Howns.
  destruct (Z.eqb_spec (own (num st)) g) as [Hown|]; [|done]. simpl in Howns.
  destruct (mig st) eqn:Hm; [done|]. destruct (serves_holder Hown Hm) as ([Hc Hle] & Hog & Hkept & Hdata & Hdups).
  assert (shardWrites s ((g, op) :: hist) = shardWrites s hist ++ [op]) as Hws.
  { simpl. unfold now in Hn. rewrite Hn, Ht, bool_decide_true by done. done. }
  assert (shardStore s ((g, op) :: hist) = wrote (shardStore s hist) op) as Hstore
    by (unfold shardStore; by rewrite Hws, foldl_app).
  assert (data st' = shardStore s ((g, op) :: hist)) as Hdata'.
  { rewrite Hst', Hstore, <- Hdata. simpl. by apply shardData_wrote. }
  assert (mig st' = None) as Hm' by (by rewrite Hst').
  assert (g_cfg st' = g_cfg st) as Hcfg by (by rewrite Hst').
  assert (dom (shardStore s hist) ⊆ dom (shardStore s ((g, op) :: hist))) as Hsub.
  { rewrite Hstore. unfold wrote. set_solver. }
  split; rewrite ?Hws; try by apply Hok.
  - apply step_runs.
  - apply step_cfg. rewrite Hcfg. by eapply oo_cfg.
  - intros g' x d [Hx|[-> ->]]%step_seen Hx'; [|congruence].
    apply step_oo_waits; [done..|]. intros _ ->. congruence.
  - intros g' x j [Hx|[-> ->]]%step_seen Hx'; [by eapply oo_done|]. rewrite Hcfg. by apply (oo_done _ _ Hok g st).
  - apply step_oo_past.
  - intros g' x [Hx|[-> ->]]%step_seen; [|by rewrite Hdata'].
    etransitivity; [by eapply oo_dom|exact Hsub].
  - intros ->. lia.
  - apply step_oo_holder.
  - intros x _ Hx Hlex Hmx Hor. assert (x = st') as ->.
    { rewrite Hog in *. destruct Hor as [[[[] _]|[_ ->]]%step_now|Hno]; [done|done|].
      apply step_seen in Hx as [Hx|[_ ->]]; [|done]. exfalso. apply Hno.
      pose proof (seen_num _ _ _ _ Hx Hn). intros i Hi. apply Hkept. lia. }
    split; [done|]. rewrite Hst'. simpl. intros o [Ho| ->%list_elem_of_singleton]%elem_of_app; unfold seqOf.
    + destruct (decide (go_ClientID o = go_ClientID op)) as [Heq|Hne].
      * rewrite Heq, lookup_insert_eq. simpl. specialize (Hdups o Ho). rewrite Heq in Hdups. lia.
      * rewrite lookup_insert_ne by done. by apply Hdups.
    + by rewrite lookup_insert_eq.
  - intros ws1 o ws2 o' Hsplit Hin Hcl. destruct ws2 as [|o2 ws2 _] using rev_ind.
    + apply app_inj_tail in Hsplit as [<- <-]. specialize (Hdups o' Hin). rewrite Hcl in Hdups. lia.
    + rewrite app_comm_cons, app_assoc in Hsplit. apply app_inj_tail in Hsplit as [Hsplit _].
      by eapply (oo_order _ _ Hok ws1 o ws2).
Qed.

Lemma write_entry_ok : isWrite op → owners_ok ((g, op) :: hist) c.
Proof.
  intros Hw. destruct (decide (Key2Shard (go_Key op) = s ∧ takes g st op = true)) as [[Hk Ht]|Hno];
    [by apply taken_ok|].
  apply quiet_ok.
  - eapply write_quiet; [done..|]. destruct (takes g st op); [|by right].
    left. intros Hk. by apply Hno.
  - simpl. unfold now in Hn. rewrite Hn. destruct (bool_decide_reflect (Key2Shard (go_Key op) = s)); simpl;
      [|by rewrite app_nil_r]. destruct (takes g st op); [by destruct Hno|by rewrite app_nil_r].
  - destruct (decide (Key2Shard (go_Key op) = s)) as [Hk|Hk].
    + left. rewrite (write_result g st op st' e Hw Ha). destruct (takes g st op); [by destruct Hno|done].
    + left. rewrite (write_result g st op st' e Hw Ha). destruct (takes g st op); [|done].
      by apply shardData_wrote_other.
Qed.

(** What a Migrate entry the group waits for carries: the holder's data. *)
Lemma fetched_from_holder d : fetched hist g st op → go_Shard op = s → mig st = Some d →
  ∃ m std, seen d hist std ∧ m ≤ num std ∧ c < m ≤ num st ∧ own m = g ∧ own (m - 1) = d ∧ d ≠ g ∧
    kept c (m - 1) ∧ (∀ j, m < j ≤ num st → own j = g → own (j - 1) = g) ∧
    go_Data op = shardStore s hist ∧ (∀ k, is_Some (go_Data op !! k) → Key2Shard k = s) ∧
    ∀ o, o ∈ shardWrites s hist → go_SeqNum o ≤ seqOf (go_DupTable op) (go_ClientID o).
Proof.
  intros Hf Hsh Hm. destruct (oo_waits _ _ Hok g st d (now_seen _ _ _ Hn) Hm)
    as (m & Hm1 & Hom & Hod & Hdg & Hdz & Hno & Hcm). specialize (Hcm Hn).
  unfold fetched in Hf. rewrite Hsh in Hf. destruct (Hf d Hm) as (n & std & Hstd & Hpull & Hfresh).
  unfold Pull in Hpull. simpl in Hpull. destruct (Z.ltb_spec (num std) n) as [|Hnum]; [done|].
  destruct (g_migrating std !! s) eqn:Hmstd; [done|]. injection Hpull as Hdata Hdup.
  assert (m ≤ n) as Hmn.
  { destruct (decide (m ≤ n)) as [|Hgt]; [done|]. exfalso. apply Hdg. rewrite <- Hod. apply Hfresh; [lia|done]. }
  pose proof (oo_c _ _ Hok) as Hc0.
  pose proof (oo_done _ _ Hok d std (m - 1) Hstd Hmstd ltac:(lia) Hod) as Hk.
  pose proof (kept_own c (m - 1) (m - 1) Hk ltac:(lia)) as Hoc. rewrite Hod in Hoc.
  assert (0 < c) as Hc by (apply own_pos; [done|congruence]).
  destruct (oo_data _ _ Hok std Hc) as [Hd Hdups].
  { by rewrite <- Hoc. }
  { lia. }
  { done. }
  { right. intros Hk'. specialize (Hk' m ltac:(lia)). congruence. }
  exists m, std. split_and!; try (done || lia); [congruence| |by rewrite <- Hdup].
  rewrite <- Hdata. intros k [v Hv]. rewrite lookup_shardData in Hv. by case_decide.
Qed.

(** What a store becomes that takes over the holder's data. *)
Lemma landed_data : go_Data op = shardStore s hist →
  (∀ k, is_Some (go_Data op !! k) → Key2Shard k = s) →
  shardData s (go_Data op ∪ g_store st) = shardStore s hist.
Proof.
  intros Hdata Hkeys. apply map_eq. intros k. rewrite lookup_shardData, Hdata in *.
  case_decide as Hk.
  - rewrite lookup_union. destruct (shardStore s hist !! k) as [v|] eqn:Hv; [by destruct (g_store st !! k)|].
    destruct (g_store st !! k) as [v|] eqn:Hv'; [|done]. exfalso. apply not_elem_of_dom in Hv.
    apply Hv, (oo_dom _ _ Hok g st (now_seen _ _ _ Hn)), elem_of_dom. exists v.
    by rewrite lookup_shardData, decide_True.
  - destruct (shardStore s hist !! k) as [v|] eqn:Hv; [|done]. destruct Hk. apply Hkeys. by exists v.
Qed.

(** The shard has a new holder. *)
Lemma landed_ok d : go_Type op = "Migrate"%string → fetched hist g st op → go_Shard op = s →
  mig st = Some d →
  ∃ m, owners_ok ((g, op) :: hist) m ∧ c < m ∧ own m = g ∧ own (m - 1) = d ∧ kept c (m - 1).
Proof.
  intros Ht Hf Hsh Hm. assert (¬ isWrite op) as Hw by (unfold isWrite; rewrite Ht; naive_solver).
  destruct (fetched_from_holder d Hf Hsh Hm)
    as (m & std & Hstd & Hmstd & Hcm & Hom & Hod & Hdg & Hk & Hno & Hdata & Hkeys & Hdups).
  pose proof (not_write_writes g op hist Hw) as Hws. pose proof (now_seen _ _ _ Hn) as Hs0.
  pose proof Ha as Happ. unfold applyGroupOp in Happ. rewrite Ht in Happ. simpl in Happ. injection Happ as Hst' _.
  unfold applyMigrate in Hst'. rewrite Hsh, Hm in Hst'.
  assert (mig st' = None) as Hm' by (rewrite <- Hst'; apply lookup_delete_eq).
  assert (g_cfg st' = g_cfg st) as Hcfg by (by rewrite <- Hst').
  assert (data st' = shardStore s hist) as Hd' by (rewrite <- Hst'; simpl; by apply landed_data).
  pose proof (oo_c _ _ Hok) as Hc0.
  exists m. split; [|split_and!; [lia|done..]].
  split; rewrite ?Hws; unfold shardStore; rewrite ?Hws; fold (shardStore s hist); try (lia || by apply Hok).
  - apply step_runs.
  - apply step_cfg. rewrite Hcfg. by eapply oo_cfg.
  - intros g' x dx [Hx|[-> ->]]%step_seen Hx'; [|congruence].
    destruct (oo_waits _ _ Hok g' x dx Hx Hx') as (mx & ? & Hmx & Hdx & Hne & ? & ? & Hcx). exists mx.
    split_and!; try (done || lia). rewrite step_now. intros [[Hg' Hxn]|[_ ->]]; [|congruence].
    specialize (Hcx Hxn). destruct (Z.lt_trichotomy mx m) as [Hlt|[Heq|]]; [| |done].
    + specialize (Hk mx ltac:(lia)). congruence.
    + congruence.
  - intros g' x j [Hx|[-> ->]]%step_seen Hx' Hj Ho.
    + intros i Hi. eapply (oo_done _ _ Hok g' x j); [done..|lia].
    + rewrite Hcfg in Hj. destruct (decide (m ≤ j)); [|intros i Hi; lia].
      by apply (tenure g m (num st) j); [|lia|..].
  - intros i Hi Ho. destruct (decide (i < c)).
    + destruct (oo_past _ _ Hok i ltac:(lia) Ho) as (x & Hx & Hlt).
      destruct (step_past (own i) (i + 1)) as (y & Hy & ?); [exists x; split; [done|lia]|].
      exists y. split; [done|lia].
    + assert (own i = d) as ->.
      { rewrite (kept_own c i (m - 1) Hk) by lia. rewrite <- (kept_own c (m - 1) (m - 1) Hk) by lia. done. }
      destruct (oo_now _ _ Hok d) as [x Hx]. pose proof (seen_num _ _ _ _ Hstd Hx).
      destruct (step_past d (i + 1)) as (y & Hy & ?); [exists x; split; [done|lia]|].
      exists y. split; [done|lia].
  - intros g' x [Hx|[-> ->]]%step_seen; [by eapply oo_dom|by rewrite Hd'].
  - intros _. rewrite Hom, Hod. split; [done|]. split; [done|]. exists st'. rewrite step_now, Hcfg. split; [auto|lia].
  - intros x _ Hx Hle Hmx _. rewrite Hom in Hx. apply step_seen in Hx as [Hx|[_ ->]].
    + exfalso. pose proof (oo_c _ _ Hok). specialize (oo_done _ _ Hok g x m Hx Hmx ltac:(lia) Hom m ltac:(lia)). congruence.
    + split; [done|]. intros o Ho. specialize (Hdups o Ho). rewrite <- Hst'. simpl. rewrite mergeDup_seqOf.
      pose proof (run_dup _ _ _ _ (go_ClientID o) Hn) as H0. change (seqOf _ _) with 0 in H0 at 1.
      unfold seqOf in Hdups at 1. destruct (go_DupTable op !! go_ClientID o); simpl in *; lia.
Qed.

(** A Migrate entry that does not concern the shard. *)
Lemma migrate_ok : go_Type op = "Migrate"%string → fetched hist g st op →
  go_Shard op ≠ s ∨ mig st = None → owners_ok ((g, op) :: hist) c.
Proof.
  intros Ht Hf Hno. destruct (migrate_quiet hist g st op st' e Ht Ha Hf Hno) as [Hq Hd].
  apply quiet_ok; [done| |by left]. apply not_write_writes. unfold isWrite. rewrite Ht. naive_solver.
Qed.

(** A collection does not take the holder's data. *)
Lemma gc_ok : go_Type op = "GC"%string → collectable hist g st (go_Shard op) →
  owners_ok ((g, op) :: hist) c.
Proof.
  intros Ht Hcol. destruct (gc_quiet g st op st' e Ht Ha) as [Hq Hdata].
  apply quiet_ok; [done| |].
  - apply not_write_writes. unfold isWrite. rewrite Ht. naive_solver.
  - destruct Hdata as [?|[Hsh [to Hto]]]; [by left|right]. intros Hog. rewrite Hsh in Hcol.
    destruct (Hcol to Hto) as (l & str & Hseen & Hready & Hl & Hl' & Hlost).
    unfold HasShard in Hready. apply bind_Ret_inv in Hready as (o & Ho%or_panic_Ret & [= Hr]).
    apply andb_prop in Hr as [Hr%Z.eqb_eq Hm]. pose proof (oo_cfg _ _ Hok to str Hseen) as Hz.
    assert (own (num str) = to) as Hown by (unfold ownerAt, ownerOf; by rewrite Hz, Ho).
    assert (mig str = None) as Hnone by (by destruct (mig str)).
    pose proof (oo_done _ _ Hok to str (num str) Hseen Hnone ltac:(lia) Hown) as Hk.
    assert (0 < c) as Hc by (apply own_pos; [by apply Hok|congruence]).
    destruct (oo_holder _ _ Hok Hc) as (_ & _ & x & Hx & Hle). rewrite Hog in Hx.
    rewrite (now_eq _ _ _ _ Hx Hn) in Hle. destruct (decide (l ≤ c)).
    + by apply (Hlost c).
    + apply (Hlost l); [lia|]. rewrite (kept_own c l (num str) Hk) by lia. done.
Qed.
End step.

(** How the holder's version changes: the first group to own the shard takes it,
    or the next one after the holder lands it; nothing else. *)
Lemma committed_ok hist c g op : owners_ok hist c → g ≠ 0 → committable hist g op →
  ∃ c', owners_ok ((g, op) :: hist) c' ∧
    (c' = c ∨
     (∃ st, now g hist st ∧ c' = num st + 1 ∧ own (num st) = 0) ∨
     (c < c' ∧ own c' = g ∧ kept c (c' - 1) ∧ go_Type op = "Migrate"%string ∧ go_Shard op = s ∧
      ∃ st, now g hist st ∧ mig st = Some (own (c' - 1)))).
Proof.
  intros Hok Hg Hc.
  destruct (now_step g op hist (oo_now _ _ Hok g) Hc) as (st & st' & e & Hn & Ha).
  destruct Hc as [Ht|Hw|Ht Hin|x Ht Hx Hf|x Ht Hx Hcol].
  - exists c. split; [|by left]. pose proof Ha as Ha'. unfold applyGroupOp in Ha'. rewrite Ht in Ha'.
    injection Ha' as Hst _.
    eapply quiet_ok; [done..| | |]; rewrite <- ?Hst; [apply quiet_refl| |by left].
    apply not_write_writes. unfold isWrite. rewrite Ht. naive_solver.
  - exists c. split; [|by left]. by eapply write_entry_ok.
  - edestruct config_ok as (c' & Hok' & Hc'); [done..|]. exists c'. split; [done|].
    destruct Hc' as [?|[??]]; [by left|right; left; eauto].
  - rewrite (now_eq _ _ _ _ Hx Hn) in Hf. destruct (decide (go_Shard op = s)) as [Hsh|Hsh].
    1: destruct (mig st) as [d|] eqn:Hm.
    + destruct (landed_ok _ _ Hok _ Hg _ _ _ _ Hn Ha d Ht Hf Hsh Hm) as (m & Hok' & ? & ? & <- & ?).
      exists m. split; [done|]. right. right. eauto 10.
    + exists c. split; [|by left]. eapply migrate_ok; eauto.
    + exists c. split; [|by left]. eapply migrate_ok; eauto.
  - rewrite (now_eq _ _ _ _ Hx Hn) in Hcol. exists c. split; [|by left]. by eapply gc_ok.
Qed.

Lemma groups_reachable_ok hist : groups_reachable hist → ∃ c, owners_ok hist c.
Proof.
  intros Hr. unfold groups_reachable in Hr. assert (∃ c, owners_ok [] c) as Hi by (eexists; apply init_ok).
  revert Hi. induction Hr as [|x y z [hist' g op Hg Hc] _ IH]; [done|]. intros [c Hok]. apply IH.
  destruct (committed_ok _ c g op Hok Hg Hc) as (c' & ? & _). eauto.
Qed.

(** *** A shard that came back before anyone fetched it

    Version [n + 1] takes it from its owner and [n + 2] gives it back. *)

Section bounce.
Context (n : Z) (Hn0 : own n ≠ 0) (Hgone : own (n + 1) ≠ own n) (Hback : own (n + 2) = own n).

Lemma n_pos : 0 ≤ n.
Proof.
  destruct (decide (0 ≤ n)); [done|]. exfalso. apply Hn0. unfold ownerAt.
  by rewrite (proj2 (zget_None cfgs n)) by lia.
Qed.

Lemma kept_before c j : c ≤ n → kept c j → j ≤ n.
Proof.
  intros Hc Hk. destruct (decide (j ≤ n)); [done|]. specialize (Hk (n + 1) ltac:(lia)).
  replace (n + 1 - 1) with n in Hk by lia. done.
Qed.

(** While nobody has landed it since, whoever ever owned it from [n + 1] on waits. *)
Lemma bounced_waits hist c g x j : owners_ok hist c → c ≤ n → seen g hist x → own j = g →
  n + 1 ≤ j ≤ num x → is_Some (mig x).
Proof.
  intros Hok Hc Hx Hj Hle. destruct (mig x) eqn:Hm; [by eexists|]. exfalso. pose proof n_pos.
  pose proof (oo_done _ _ Hok g x j Hx Hm ltac:(lia) Hj) as Hk%kept_before; [lia|done].
Qed.

(** Who waits at [n + 2] and owned it in [n + 1] or [n + 2] waits for the other. *)
Lemma bounced_start hist c st d : owners_ok hist c → now (own (n + 1)) hist st → num st = n + 2 →
  mig st = Some d → c ≤ n.
Proof.
  intros Hok Hn Hnum Hm.
  destruct (oo_waits _ _ Hok _ st d (now_seen _ _ _ Hn) Hm) as (m & Hle & Hom & _ & _ & _ & _ & Hc).
  specialize (Hc Hn). destruct (decide (m = n + 2)) as [->|]; [congruence|lia].
Qed.

Lemma bounced_for hist c g x d : owners_ok hist c → seen g hist x → num x = n + 2 → mig x = Some d →
  (g = own n → d = own (n + 1)) ∧ (g = own (n + 1) → d = own n).
Proof.
  intros Hok Hx Hnum Hm. destruct (oo_waits _ _ Hok g x d Hx Hm) as (m & Hle & Hom & <- & _ & _ & Hno & _).
  split; intros ->.
  - destruct (decide (m = n + 2)) as [->|]; [f_equal; lia|]. exfalso. apply Hgone.
    specialize (Hno (n + 2) ltac:(lia) Hback). by replace (n + 2 - 1) with (n + 1) in Hno by lia.
  - destruct (decide (m = n + 2)) as [->|]; [congruence|].
    destruct (decide (m = n + 1)) as [->|]; [f_equal; lia|]. exfalso. apply Hgone.
    specialize (Hno (n + 1) ltac:(lia) eq_refl). by replace (n + 1 - 1) with n in Hno by lia.
Qed.

(** No answer from then on has the holder's data, so nobody lands it. *)
Lemma bounced_step hist c g op : owners_ok hist c → c ≤ n → g ≠ 0 → committable hist g op →
  asked_since s (n + 2) hist g op → ∃ c', owners_ok ((g, op) :: hist) c' ∧ c' ≤ n.
Proof.
  intros Hok Hc Hg Hcom Hasked.
  destruct (committed_ok hist c g op Hok Hg Hcom) as (c' & Hok' & Hcase). exists c'. split; [done|].
  destruct Hcase as [->|[(st & Hn & -> & Hfree)|(Hlt & Hoc & Hk & Ht & Hsh & st & Hn & Hm)]]; [done|..].
  - pose proof (oo_cfg _ _ Hok g st (now_seen _ _ _ Hn)) as Hz.
    destruct (decide (n ≤ num st)) as [Hle|]; [|lia].
    by destruct (assigned_mono n (num st) Hn0 Hle); [by eexists|].
  - apply kept_before in Hk; [|done]. destruct (decide (c' ≤ n)) as [|Hgt]; [done|exfalso].
    replace (c' - 1) with n in Hm by lia.
    destruct (Hasked Ht Hsh st (own n) Hn Hm) as (v & std & Hv & Hseen & Hpull).
    unfold Pull in Hpull. simpl in Hpull. destruct (Z.ltb_spec (num std) v) as [|Hle]; [done|].
    destruct (bounced_waits hist c (own n) std (n + 2) Hok Hc Hseen Hback) as [d Hd]; [lia|].
    by rewrite Hd in Hpull.
Qed.

Lemma bounced_steps hist0 hist c : owners_ok hist0 c → c ≤ n → rtc (later_step s (n + 2)) hist0 hist →
  ∃ c', owners_ok hist c' ∧ c' ≤ n.
Proof.
  intros Hok Hc Hr. revert c Hok Hc.
  induction Hr as [|x y z [hist g op Hg Hcom Ha] _ IH]; intros c Hok Hc; [eauto|].
  destruct (bounced_step hist c g op Hok Hc Hg Hcom Ha) as (c' & ? & ?). eauto.
Qed.
End bounce.

Lemma serves_iff hist c g st key : owners_ok hist c → now g hist st → g ≠ 0 → Key2Shard key = s →
  ownsLocked g st key = true →
  own c = g ∧ data st = shardStore s hist.
Proof.
  intros Hok Hn Hg Hk Howns. unfold ownsLocked in Howns. rewrite Hk in Howns.
  destruct (st_num hist c Hok g st Hn) as (_ & _ & Hown). rewrite <- Hown in Howns.
  destruct (Z.eqb_spec (own (num st)) g) as [Ho|]; [|done]. simpl in Howns.
  destruct (mig st) eqn:Hm; [done|].
  destruct (serves_holder hist c Hok g Hg st Hn Ho Hm) as (_ & ? & _ & ? & _). done.
Qed.
End shard.

(** C8: one owner per shard, and no write lost between owners. Let the
    configurations be the versions of one controller history, from the empty one
    on, in which a shard that has an owner has one in every later version
    (history_stays_assigned: no version is without groups once one has some;
    abandoned_shard_is_empty shows that the claim fails without this). However
    the groups then commit writes, these configurations, Migrate entries with
    what a replica of the group waited for answered since the shard was last
    acquired, and collections confirmed since the shard was lost: of all groups
    that are up to date with their logs at most one serves a shard, its copy of
    the shard is what one store makes of every write any group has taken for the
    shard, in the order they were committed, and no request is among these twice -
    across any number of hand-overs. *)
Theorem one_owner_has_every_write hist a sta key :
  history_ok cfgs → zget cfgs 0 = Some zeroConfig → stays_assigned →
  groups_reachable hist → a ≠ 0 → now a hist sta → ownsLocked a sta key = true →
  let s := Key2Shard key in
  shardData s (g_store sta) = shardStore s hist ∧
  (∀ b stb key', b ≠ 0 → now b hist stb → Key2Shard key' = s → ownsLocked b stb key' = true → b = a) ∧
  ∀ ws1 op ws2 op', shardWrites s hist = ws1 ++ op :: ws2 → op' ∈ ws1 →
    go_ClientID op' = go_ClientID op → go_SeqNum op' < go_SeqNum op.
Proof.
  intros Hhist Hzero Hstay Hr Hna Hn Howns s.
  destruct (groups_reachable_ok s Hhist Hzero Hstay (Key2Shard_range key) hist Hr) as [c Hok].
  destruct (serves_iff s Hzero hist c a sta key Hok Hn Hna eq_refl Howns) as [Hc Hdata].
  split; [done|]. split; [|by apply Hok].
  intros b stb key' Hnb Hb Hk Hb'.
  destruct (serves_iff s Hzero hist c b stb key' Hok Hb Hnb Hk Hb') as [Hc' _]. congruence.
Qed.
(** C35: two groups that wait for a shard from each other wait for ever. Let the
    configurations be those of one history in which a shard with an owner keeps
    having one, let version [n] give a shard to A, [n + 1] to B and [n + 2] to A
    again, and let B have applied [n + 2] and still wait for the shard: it went
    back before B had fetched it. However the groups' logs then go on, with the
    entries one_owner_has_every_write allows and with Migrate entries of the shard
    that answer Pulls for version [n + 2] or later, which is what leaders ask for
    that have applied it: every replica of A or B that has applied [n + 2] waits,
    and at [n + 2] they wait for each other; no replica of any group that has
    applied [n + 1] serves a key of the shard; and a turn of either group's
    migrationLoop for a version from [n + 2] on proposes nothing, whichever
    replicas of the other group answer it, also ones that lag behind. *)
Theorem mutual_migration_stuck {P} `{!Persister P, !Codec (persistedState groupOp)}
    n a b s hist0 hist stb :
  history_ok cfgs → zget cfgs 0 = Some zeroConfig → stays_assigned → 0 ≤ s < Z.of_nat NShards →
  ownerAt s n = a → ownerAt s (n + 1) = b → ownerAt s (n + 2) = a →
  groups_reachable hist0 → now b hist0 stb → cfg_Num (g_cfg stb) = n + 2 → g_migrating stb !! s = Some a →
  rtc (later_step s (n + 2)) hist0 hist →
  (∀ x, seen a hist x → n + 2 ≤ cfg_Num (g_cfg x) →
     is_Some (g_migrating x !! s) ∧ (cfg_Num (g_cfg x) = n + 2 → g_migrating x !! s = Some b)) ∧
  (∀ x, seen b hist x → n + 2 ≤ cfg_Num (g_cfg x) →
     is_Some (g_migrating x !! s) ∧ (cfg_Num (g_cfg x) = n + 2 → g_migrating x !! s = Some a)) ∧
  (∀ g x key, g ≠ 0 → seen g hist x → n + 1 ≤ cfg_Num (g_cfg x) → Key2Shard key = s →
     ownsLocked g x key = false) ∧
  (∀ (sv : GroupServer P) proposed v others, n + 2 ≤ v →
     Forall (seen a hist) others ∨ Forall (seen b hist) others →
     migrationLoop_shard sv proposed s v others = Ret (sv, proposed)).
Proof.
  intros Hhist Hzero Hstay Hs <- <- Hback Hr Hnb Hvb Hmb Hrun.
  destruct (groups_reachable_ok s Hhist Hzero Hstay Hs hist0 Hr) as [c0 Hok0].
  destruct (oo_waits _ _ _ Hok0 _ stb _ (now_seen _ _ _ Hnb) Hmb) as (_ & _ & _ & _ & Hne & Hnz & _).
  assert (ownerAt s (n + 1) ≠ ownerAt s n) as Hgone by congruence.
  pose proof (bounced_start s n Hgone Hback hist0 c0 stb _ Hok0 Hnb Hvb Hmb) as Hc0.
  destruct (bounced_steps s Hhist Hzero Hstay Hs n Hnz Hgone Hback hist0 hist c0 Hok0 Hc0 Hrun) as (c & Hok & Hc).
  pose proof (λ g x j, bounced_waits s n Hnz Hgone hist c g x j Hok Hc) as Hwaits.
  pose proof (λ g x d, bounced_for s n Hgone Hback hist c g x d Hok) as Hfor.
  assert (∀ x, seen (ownerAt s n) hist x → n + 2 ≤ cfg_Num (g_cfg x) → is_Some (g_migrating x !! s)) as Hwa.
  { intros x Hx Hv. apply (Hwaits (ownerAt s n) x (n + 2)); [done..|lia]. }
  assert (∀ x, seen (ownerAt s (n + 1)) hist x → n + 2 ≤ cfg_Num (g_cfg x) → is_Some (g_migrating x !! s)) as Hwb.
  { intros x Hx Hv. apply (Hwaits (ownerAt s (n + 1)) x (n + 1)); [done..|lia]. }
  split_and!.
  - intros x Hx Hv. destruct (Hwa x Hx Hv) as [d Hd]. split; [by eexists|]. intros Heq.
    rewrite Hd. f_equal. by apply (Hfor (ownerAt s n) x).
  - intros x Hx Hv. destruct (Hwb x Hx Hv) as [d Hd]. split; [by eexists|]. intros Heq.
    rewrite Hd. f_equal. by apply (Hfor (ownerAt s (n + 1)) x).
  - intros g x key Hg Hx Hv Hk. unfold ownsLocked. rewrite Hk.
    destruct (Z.eqb_spec (ownerOf (g_cfg x) s) g) as [Ho|]; [|done]. simpl.
    destruct (Hwaits g x (cfg_Num (g_cfg x)) Hx) as [d ->]; [|lia|done].
    unfold ownerAt. by rewrite (oo_cfg _ _ _ Hok g x Hx).
  - intros sv proposed v others Hv Hothers. unfold migrationLoop_shard. case_decide; [done|].
    rewrite pullFrom_migrating; [done|].
    destruct Hothers as [Hall|Hall]; eapply Forall_impl; try exact Hall; intros x Hx;
      (destruct (decide (cfg_Num (g_cfg x) < v)); [by left|right]); [apply Hwa|apply Hwb]; done || lia.
Qed.
End groups.

(** ** A controller's history keeps shards assigned

    as long as no version after the first is without groups, none names a group
    0, and no Move names it. *)

Definition manned (cfg : Config) : Prop := cfg_Groups cfg ≠ ∅ ∧ cfg_Groups cfg !! 0 = None.

Lemma rebalance_manned shards groups res : length shards = NShards → groups ≠ ∅ → groups !! 0 = None →
  rebalance shards groups = Ret res → ∀ g, g ∈ res → g ≠ 0.
Proof.
  intros Hlen Hne H0 Hr g (s & Hs)%list_elem_of_lookup ->.
  destruct (rebalance_result shards groups Hlen Hne) as (res' & ow & Hr' & Hok & _ & Hlook & _).
  rewrite Hr in Hr'. injection Hr' as <-. apply Hlook in Hs.
  destruct (decide (0 ∈ sortedGids groups)) as [Hin|Hno].
  - apply elem_of_sortedGids in Hin as [addrs Ha]. congruence.
  - apply (ow_dead _ _ _ Hok) in Hno. rewrite Hno in Hs. by apply not_elem_of_nil in Hs.
Qed.

Lemma effect_manned op cfg next : length (cfg_Shards cfg) = NShards → manned next →
  (cfg_Groups cfg ≠ ∅ → ∀ g, g ∈ cfg_Shards cfg → g ≠ 0) →
  (co_Type op = "Move"%string → co_MoveGID op ≠ 0) →
  ctrler_effect op cfg = Ret (Some next) → ∀ g, g ∈ cfg_Shards next → g ≠ 0.
Proof.
  intros Hlen [Hne H0] Hcfg Hmove. unfold ctrler_effect, Join, Leave, Move.
  repeat case_decide; try done.
  - intros (c1 & (sh & Hr & [= <-])%bind_Ret_inv & [= <-])%fmap_Ret_inv. by eapply rebalance_manned.
  - intros (c1 & (sh & Hr & [= <-])%bind_Ret_inv & [= <-])%fmap_Ret_inv. by eapply rebalance_manned.
  - destruct (bool_decide _); [|done]. intros [= <-]. simpl in *.
    intros g [Hg| ->]%list_insert_elem; [by apply Hcfg|auto].
Qed.

Lemma produces_manned cfg ops later : length (cfg_Shards cfg) = NShards →
  (cfg_Groups cfg ≠ ∅ → ∀ g, g ∈ cfg_Shards cfg → g ≠ 0) →
  Forall manned later → Forall (λ op, co_Type op = "Move"%string → co_MoveGID op ≠ 0) ops →
  produces cfg ops later → Forall (λ c, ∀ g, g ∈ cfg_Shards c → g ≠ 0) later.
Proof.
  intros Hlen Hcfg Hm Hops. revert cfg later Hlen Hcfg Hm.
  induction Hops as [|op ops Hop _ IH]; intros cfg later Hlen Hcfg Hm; simpl; [by intros ->|].
  intros ([next|] & He & Hp); [|by apply (IH cfg)]. destruct Hp as (later' & -> & Hp).
  apply Forall_cons in Hm as [Hnext Hm]. pose proof (effect_manned op cfg next Hlen Hnext Hcfg Hop He) as Hall.
  apply Forall_cons. split; [done|]. apply (IH next); try done. by eapply ctrler_effect_next.
Qed.

Lemma history_stays_assigned cfgs later ops : history_ok cfgs → cfgs = zeroConfig :: later →
  produces zeroConfig ops later → Forall manned later →
  Forall (λ op, co_Type op = "Move"%string → co_MoveGID op ≠ 0) ops → stays_assigned cfgs.
Proof.
  intros Hok Heq Hp Hm Hops s n Hn Hnext.
  pose proof (produces_manned zeroConfig ops later eq_refl ltac:(done) Hm Hops Hp) as Hall.
  destruct Hnext as [next Hnext]. unfold ownerAt in *. rewrite Hnext.
  destruct (zget cfgs n) as [cfg|] eqn:Hcfg; [|done].
  pose proof (zget_Some_bound _ _ _ Hcfg) as Hb. assert (next ∈ later) as Hin.
  { rewrite Heq in Hnext. unfold zget in Hnext. rewrite bool_decide_true in Hnext by lia.
    replace (Z.to_nat (n + 1)) with (S (Z.to_nat n)) in Hnext by lia. by eapply list_elem_of_lookup_2. }
  assert (∀ i c, zget cfgs i = Some c → zlen (cfg_Shards c) = Z.of_nat NShards) as Hlen.
  { intros i c Hc. apply zget_elem_of, list_elem_of_lookup in Hc as (k & Hk).
    unfold zlen. by rewrite (proj2 (proj2 Hok k c Hk)). }
  unfold ownerOf in *. destruct (zget (cfg_Shards cfg) s) as [o|] eqn:Ho; [|done].
  apply zget_Some_bound in Ho. rewrite (Hlen _ _ Hcfg), <- (Hlen _ _ Hnext) in Ho.
  apply zget_is_Some in Ho as [o' Ho']. rewrite Ho'. simpl. rewrite Forall_forall in Hall.
  apply (Hall next Hin). by eapply zget_elem_of.
Qed.

(** ** Witness, and what the code leaves open *)

Module Witness.
Import GroupFacts.Witness.
#[local] Existing Instance group_codec.

(** Everything belongs to group 1, then 2, then 1, then 2. *)
Definition versions : list Config :=
  [zeroConfig; config_of 1 1; config_of 2 2; config_of 3 1; config_of 4 2].
Definition config (num owner : Z) : groupOp := config_op num owner.
Definition put (value : string) (seq : Z) : groupOp := put_op value seq.
Definition migrate (value : string) (seq : Z) : groupOp :=
  mkGroupOp "Migrate" "" "" zeroConfig the_shard {["x"%string := value]} {[7 := seq]} 0 0.

(** Group 1 writes, hands the shard to group 2, which writes and hands it back;
    group 1 writes again. Newest first. *)
Definition handed : GroupsLog :=
  [(2, migrate "v" 1); (2, config 2 2); (2, config 1 1); (1, config 2 2); (1, put "v" 1); (1, config 1 1)].
Definition returned_to_1 : GroupsLog :=
  [(1, put "z" 3); (1, migrate "w" 2); (1, config 3 1); (2, config 3 1); (2, put "w" 2)] ++ handed.
Definition stale : GroupsLog := (2, config 4 2) :: returned_to_1.

Definition state_of (g : Z) (hist : GroupsLog) : GroupState := state_after g (logOf g hist).

Lemma commit {cfgs} hist g op : groups_reachable cfgs hist → g ≠ 0 → committable cfgs hist g op →
  groups_reachable cfgs ((g, op) :: hist).
Proof. intros Hr Hg Hc. eapply rtc_r; [exact Hr|by apply gs_commit]. Qed.

Lemma commit_config {cfgs} hist g num owner : groups_reachable cfgs hist → g ≠ 0 →
  config_of num owner ∈ cfgs → groups_reachable cfgs ((g, config num owner) :: hist).
Proof. intros Hr Hg Hin. apply commit; [done..|]. by apply co_config. Qed.

Lemma commit_put {cfgs} hist g value seq : groups_reachable cfgs hist → g ≠ 0 →
  groups_reachable cfgs ((g, put value seq) :: hist).
Proof. intros Hr Hg. apply commit; [done..|]. apply co_write. by left. Qed.

(** A Migrate entry with what the donor's whole log makes it answer. *)
Lemma commit_migrate hist g d value seq : groups_reachable versions hist → g ≠ 0 →
  now g hist (state_of g hist) → g_migrating (state_of g hist) !! the_shard = Some d →
  now d hist (state_of d hist) →
  Pull (state_of d hist) (mkPullArgs the_shard (cfg_Num (g_cfg (state_of g hist)))) =
    mkPullReply GroupOK {["x"%string := value]} {[7 := seq]} →
  groups_reachable versions ((g, migrate value seq) :: hist).
Proof.
  intros Hr Hg Hn Hm Hd Hp. apply commit; [done..|]. eapply co_migrate; [done|exact Hn|].
  intros d' Hd'. simpl in Hd'. rewrite Hm in Hd'. injection Hd' as <-.
  exists (cfg_Num (g_cfg (state_of g hist))), (state_of d hist).
  split; [by apply now_seen|]. split; [exact Hp|]. intros j Hj. lia.
Qed.

Ltac in_versions := unfold versions; repeat (apply elem_of_cons; first [left; reflexivity|right]).

Lemma handed_reachable : groups_reachable versions handed.
Proof.
  apply (commit_migrate _ 2 1); [|done|vm_compute; reflexivity..].
  apply commit_config; [|done|in_versions]. apply commit_config; [|done|in_versions].
  apply commit_config; [|done|in_versions]. apply commit_put; [|done].
  apply commit_config; [|done|in_versions]. apply rtc_refl.
Qed.

Lemma returned_reachable : groups_reachable versions returned_to_1.
Proof.
  apply commit_put; [|done].
  apply (commit_migrate _ 1 2); [|done|vm_compute; reflexivity..].
  apply commit_config; [|done|in_versions]. apply commit_config; [|done|in_versions].
  apply commit_put; [|done]. apply handed_reachable.
Qed.

Lemma versions_history : history_ok versions.
Proof.
  split; [done|]. intros i cfg Hi.
  do 5 (destruct i as [|i]; [injection Hi as <-; by vm_compute|]). done.
Qed.

Lemma stale_reachable : groups_reachable versions stale.
Proof. apply commit_config; [apply returned_reachable|done|in_versions]. Qed.

(** Version [n] gives every shard to [owner_in n]. *)
Definition owner_in (n : Z) : Z := nth (Z.to_nat n) [0; 1; 2; 1; 2] 0.

Lemma versions_owner s n : is_Some (zget versions n) →
  ownerAt versions s n = if decide (0 ≤ s < 10) then owner_in n else 0.
Proof.
  intros [c Hc]. pose proof (zget_Some_bound _ _ _ Hc) as Hb. change (zlen versions) with 5 in Hb.
  assert (∀ cfg g, cfg_Shards cfg = replicate NShards g →
    ownerOf cfg s = if decide (0 ≤ s < 10) then g else 0) as Hall.
  { intros cfg g Hg. unfold ownerOf. rewrite Hg. destruct (zget (replicate NShards g) s) as [o|] eqn:Ho.
    - pose proof (zget_Some_bound _ _ _ Ho) as Hr. change (zlen (replicate NShards g)) with 10 in Hr.
      rewrite decide_True by done. by apply zget_elem_of, elem_of_replicate in Ho as [-> _].
    - apply zget_None in Ho. change (zlen (replicate NShards g)) with 10 in Ho.
      rewrite decide_False; [done|lia]. }
  unfold ownerAt. rewrite Hc.
  assert (n = 0 ∨ n = 1 ∨ n = 2 ∨ n = 3 ∨ n = 4) as [->|[->|[->|[->| ->]]]] by lia;
    injection Hc as <-; by apply Hall.
Qed.

Lemma versions_assigned : stays_assigned versions.
Proof.
  intros s n Hn Hnext. pose proof (proj1 (zget_is_Some _ _) Hnext) as Hb. change (zlen versions) with 5 in Hb.
  assert (is_Some (zget versions n)) as Hsome.
  { destruct (zget versions n) eqn:Hz; [by eexists|]. exfalso. apply Hn. unfold ownerAt. by rewrite Hz. }
  rewrite (versions_owner s n Hsome) in Hn. rewrite (versions_owner s (n + 1) Hnext).
  case_decide; [|done]. pose proof (proj1 (zget_is_Some _ _) Hsome).
  assert (n = 0 ∨ n = 1 ∨ n = 2 ∨ n = 3) as [->|[->|[->| ->]]] by lia; by vm_compute.
Qed.

Lemma one_owner_has_every_write_witness :
  g_store (state_of 1 returned_to_1) !! "x"%string = Some "z"%string ∧
  shardData the_shard (g_store (state_of 1 returned_to_1)) = shardStore the_shard returned_to_1.
Proof.
  split; [vm_compute; reflexivity|].
  apply (one_owner_has_every_write versions returned_to_1 1 (state_of 1 returned_to_1) "x").
  - exact versions_history.
  - reflexivity.
  - exact versions_assigned.
  - exact returned_reachable.
  - done.
  - vm_compute. reflexivity.
  - vm_compute. reflexivity.
Defined.

(** The shard went from group 1 to group 2 and back before group 2 fetched it;
    then version 4 reaches both groups. *)
Definition crossed : GroupsLog :=
  [(1, config 3 1); (2, config 3 1); (2, config 2 2); (1, config 2 2); (2, config 1 1); (1, config 1 1)].
Definition crossed_later : GroupsLog := [(1, config 4 2); (2, config 4 2)] ++ crossed.

Lemma crossed_reachable : groups_reachable versions crossed.
Proof. repeat (apply commit_config; [|done|in_versions]). apply rtc_refl. Qed.

Lemma later_config hist g num owner : g ≠ 0 → config_of num owner ∈ versions →
  later_step versions the_shard 3 hist ((g, config num owner) :: hist).
Proof. intros Hg Hin. apply ls_commit; [done|by apply co_config|]. intros Ht. discriminate Ht. Qed.

Lemma crossed_goes_on : rtc (later_step versions the_shard 3) crossed crossed_later.
Proof.
  eapply rtc_l; [apply (later_config _ 2 4 2); [done|in_versions]|].
  eapply rtc_l; [apply (later_config _ 1 4 2); [done|in_versions]|]. apply rtc_refl.
Qed.

(** Group 2's loop asks a replica of group 1 that has applied everything, and one
    that knows only version 2, in which it had given the shard away. *)
Lemma mutual_migration_witness :
  is_Some (g_migrating (state_of 1 crossed_later) !! the_shard) ∧
  is_Some (g_migrating (state_of 2 crossed_later) !! the_shard) ∧
  ownsLocked 2 (state_of 2 crossed_later) "x" = false ∧
  migrationLoop_shard (demo_server 2) ∅ the_shard 4
    [state_of 1 crossed_later; state_after 1 [config 1 1; config 2 2]] = Ret (demo_server 2, ∅).
Proof.
  destruct (mutual_migration_stuck (P:=MemoryPersister) versions 1 1 2 the_shard crossed crossed_later (state_of 2 crossed))
    as (H1 & H2 & H3 & H4).
  - exact versions_history.
  - reflexivity.
  - exact versions_assigned.
  - split; vm_compute; [discriminate|reflexivity].
  - vm_compute. reflexivity.
  - vm_compute. reflexivity.
  - vm_compute. reflexivity.
  - exact crossed_reachable.
  - vm_compute. reflexivity.
  - vm_compute. reflexivity.
  - vm_compute. reflexivity.
  - exact crossed_goes_on.
  - assert (now 1 crossed_later (state_of 1 crossed_later)) as Hn1 by (vm_compute; reflexivity).
    assert (now 2 crossed_later (state_of 2 crossed_later)) as Hn2 by (vm_compute; reflexivity).
    split_and!.
    + apply H1; [by apply now_seen|]. vm_compute. discriminate.
    + apply H2; [by apply now_seen|]. vm_compute. discriminate.
    + apply (H3 2); [done|by apply now_seen| |done]. vm_compute. discriminate.
    + apply H4; [done|left]. apply Forall_cons; split; [by apply now_seen|]. apply Forall_singleton.
      exists [config 1 1; config 2 2]. split; [|vm_compute; reflexivity]. by exists [config 3 1; config 4 2].
Defined.

(** A Migrate entry committed late. After [stale] group 2 waits for the shard
    again and group 1 still serves it. An entry with an answer that group 2 had
    to an earlier Pull - of version 2, from a replica of group 1, as the code
    asks - has every part of what [fetched] asks but that the group has not
    acquired the shard since; the code's applyLoop takes it. Then both groups
    serve the shard, and group 2 with the old value: two acknowledged writes are
    lost to it. *)
Lemma late_migrate_two_owners :
  let late := migrate "v" 1 in let hist := (2, late) :: stale in
  groups_reachable versions stale ∧
  (∃ old, seen 1 stale old ∧
     Pull old (mkPullArgs the_shard 2) = mkPullReply GroupOK (go_Data late) (go_DupTable late)) ∧
  ∃ st1 st2, now 1 hist st1 ∧ now 2 hist st2 ∧
    ownsLocked 1 st1 "x" = true ∧ g_store st1 !! "x"%string = Some "z"%string ∧
    ownsLocked 2 st2 "x" = true ∧ g_store st2 !! "x"%string = Some "v"%string.
Proof.
  intros late hist. split; [exact stale_reachable|]. split.
  - exists (state_of 1 handed). split; [|vm_compute; reflexivity].
    exists (logOf 1 handed). split; [|vm_compute; reflexivity].
    exists (logOf 1 ([(1, put "z" 3); (1, migrate "w" 2); (1, config 3 1)])). reflexivity.
  - exists (state_of 1 hist), (state_of 2 hist). split_and!; vm_compute; reflexivity.
Qed.
(** Version 2 is without groups (all of them left), version 3 has group 2 alone:
    the shard has been nobody's in between, so group 2 takes it as it is. *)
Definition abandoned : list Config := [zeroConfig; config_of 1 1; config_of 2 0; config_of 3 2].
Definition forgotten : GroupsLog :=
  [(2, config 3 2); (2, config 2 0); (2, config 1 1); (1, config 2 0); (1, put "v" 1); (1, config 1 1)].

(** Without [stays_assigned] the holder need not have the writes: group 2 serves
    the shard without the write group 1 took. *)
Lemma abandoned_shard_is_empty :
  history_ok abandoned ∧ groups_reachable abandoned forgotten ∧
  ∃ st, now 2 forgotten st ∧ ownsLocked 2 st "x" = true ∧ g_store st !! "x"%string = None ∧
    shardStore the_shard forgotten !! "x"%string = Some "v"%string.
Proof.
  split; [split; [done|]|split].
  - intros i cfg Hi. do 4 (destruct i as [|i]; [injection Hi as <-; by vm_compute|]). done.
  - unfold forgotten. do 4 (apply commit_config; [|done|unfold abandoned; set_solver]).
    apply commit_put; [|done]. apply commit_config; [apply rtc_refl|done|unfold abandoned; set_solver].
  - exists (state_of 2 forgotten). split_and!; vm_compute; reflexivity.
Qed.
End Witness.
