(* ===== verification/Linearize.v ===== *)
(** * The linearizability checker (05-sharded-kv/history.go)

    The history recorder and the backtracking search of Wing and Gong with its
    bit mask and its memo table, against the definition of linearizability:
    the search is exact for one key, and checking key by key is exact for the
    whole history. *)
From Stdlib Require Import Sorting.Sorted.
From stdpp Require Import pretty.
From S2P Require Import Prelude.
Local Open Scope Z_scope.

(** ** Data *)

(** [type OpKind int]: other values than the three constants exist. *)
Definition OpKind := Z.
Definition OpGet : OpKind := 0.
Definition OpPut : OpKind := 1.
Definition OpAppend : OpKind := 2.

Definition OpKind_String (k : OpKind) : string :=
  if k =? OpGet then "Get"
  else if k =? OpPut then "Put"
  else if k =? OpAppend then "Append"
  else ("OpKind(" +:+ pretty k +:+ ")")%string.

(** Times are instants on the monotonic clock. *)
Record HistoryEntry := mkHistoryEntry {
  he_ClientID : Z;
  he_Key : string;
  he_Kind : OpKind;
  he_Arg : string;
  he_Result : string;
  he_Invoke : Z;
  he_Return : Z
}.

#[export] Instance HistoryEntry_eq_dec : EqDecision HistoryEntry.
Proof. solve_decision. Defined.

Definition History := list HistoryEntry.
Definition NewHistory : History := [].
Definition Record_entry (h : History) (e : HistoryEntry) : History := h ++ [e].
Definition Entries (h : History) : list HistoryEntry := h.

(** The three recording calls, once the wrapped clerk call has returned. *)
Definition RecordingGet (h : History) (clientID : Z) (key value : string) (t1 t2 : Z) : History :=
  Record_entry h (mkHistoryEntry clientID key OpGet "" value t1 t2).
Definition RecordingPut (h : History) (clientID : Z) (key value : string) (t1 t2 : Z) : History :=
  Record_entry h (mkHistoryEntry clientID key OpPut value "" t1 t2).
Definition RecordingAppend (h : History) (clientID : Z) (key value : string) (t1 t2 : Z) : History :=
  Record_entry h (mkHistoryEntry clientID key OpAppend value "" t1 t2).

(** ** The search *)

Definition happensBeforeInHistory (a b : HistoryEntry) : bool :=
  negb (he_Invoke b <? he_Return a).

(** [uint64(1) << i] *)
Definition bit64 (i : nat) : Z := Z.shiftl 1 (Z.of_nat i) mod 2 ^ 64.

Definition OnesCount64 (x : Z) : Z :=
  zlen (filter (λ i, Z.testbit x (Z.of_nat i) = true) (seq 0 64)).

Section search.
Context (entries : list HistoryEntry).

(** [for i, e := range entries] *)
Definition enumerated : list (nat * HistoryEntry) := zip (seq 0 (length entries)) entries.

Definition linearizableReadyNext (used : Z) (i : nat) (e : HistoryEntry) : bool :=
  forallb (λ '(j, ej),
    if decide (j = i) then true
    else if negb (Z.land used (bit64 j) =? 0) then true
    else negb (happensBeforeInHistory ej e)) enumerated.

(** The [switch e.Kind]: the register's next value and resultOK. *)
Definition register_step (value : string) (e : HistoryEntry) : string * bool :=
  if he_Kind e =? OpGet then (value, bool_decide (he_Result e = value))
  else if he_Kind e =? OpPut then (he_Arg e, true)
  else if he_Kind e =? OpAppend then (value +:+ he_Arg e, true)
  else (value, true).

Abbreviation Memo := (gset (Z * string)).

(** The loop over the candidates; [rec] is the recursive call. *)
Fixpoint linearizableTry (rec : Z → string → Memo → option (bool * Memo))
    (used : Z) (value : string) (cands : list (nat * HistoryEntry)) (memo : Memo) :
    option (bool * Memo) :=
  match cands with
  | [] => Some (false, {[(used, value)]} ∪ memo)
  | (i, e) :: cands =>
      if negb (Z.land used (bit64 i) =? 0) then linearizableTry rec used value cands memo
      else if negb (linearizableReadyNext used i e)
      then linearizableTry rec used value cands memo
      else
        let '(nextValue, resultOK) := register_step value e in
        if resultOK : bool then
          '(found, memo) ← rec (Z.lor used (bit64 i)) nextValue memo;
          if found : bool then Some (true, memo) else linearizableTry rec used value cands memo
        else linearizableTry rec used value cands memo
  end.

(** [None]: out of fuel. *)
Fixpoint linearizableSearch (fuel : nat) (used : Z) (value : string) (memo : Memo) :
    option (bool * Memo) :=
  match fuel with
  | O => None
  | S fuel =>
      if OnesCount64 used =? zlen entries then Some (true, memo)
      else if decide ((used, value) ∈ memo) then Some (false, memo)
      else linearizableTry (linearizableSearch fuel) used value enumerated memo
  end.

(** One level of the search for each entry is enough. *)
Definition linearizableForKey : outcome bool :=
  if 63 <? zlen entries then Panic
  else or_panic (fst <$> linearizableSearch (S (length entries)) 0 "" ∅).
End search.

Definition byKey (entries : list HistoryEntry) : gmap string (list HistoryEntry) :=
  foldl (λ m e, <[he_Key e := default [] (m !! he_Key e) ++ [e]]> m) ∅ entries.

(** The loop over the map in the order [keys]. *)
Fixpoint IsLinearizable_loop (m : gmap string (list HistoryEntry)) (keys : list string) :
    outcome bool :=
  match keys with
  | [] => Ret true
  | key :: keys =>
      ok ← linearizableForKey (default [] (m !! key));
      if negb ok then Ret false else IsLinearizable_loop m keys
  end.

(** [keys] is the order in which this run iterates over the map. *)
Definition IsLinearizable (entries : list HistoryEntry) (keys : list string) : outcome bool :=
  IsLinearizable_loop (byKey entries) keys.

(** ** What the checker decides *)

(** An order respects real time: nothing comes after an operation it had
    returned before. *)
Definition real_time (order : list HistoryEntry) : Prop :=
  StronglySorted (λ a b, happensBeforeInHistory b a = false) order.

(** A register starting at [value] explains every result of the order. *)
Fixpoint register_explains (value : string) (order : list HistoryEntry) : Prop :=
  match order with
  | [] => True
  | e :: order => snd (register_step value e) = true ∧
      register_explains (fst (register_step value e)) order
  end.

Definition linearizable_register (value : string) (es : list HistoryEntry) : Prop :=
  ∃ order, order ≡ₚ es ∧ real_time order ∧ register_explains value order.

(** The same for a store with a register per key, all initially empty. *)
Fixpoint store_explains (store : gmap string string) (order : list HistoryEntry) : Prop :=
  match order with
  | [] => True
  | e :: order =>
      let value := default "" (store !! he_Key e) in
      snd (register_step value e) = true ∧
      store_explains (<[he_Key e := fst (register_step value e)]> store) order
  end.

Definition linearizable_store (es : list HistoryEntry) : Prop :=
  ∃ order, order ≡ₚ es ∧ real_time order ∧ store_explains ∅ order.

(** ** The bit mask *)

Definition placed (used : Z) (i : nat) : bool := Z.testbit used (Z.of_nat i).

Lemma bit64_spec i : (i < 64)%nat → bit64 i = 2 ^ Z.of_nat i.
Proof.
  intros Hi. unfold bit64. rewrite Z.shiftl_1_l. apply Z.mod_small. split; [lia|].
  apply Z.pow_lt_mono_r; lia.
Qed.

Lemma placed_set used i j : (i < 64)%nat →
  placed (Z.lor used (bit64 i)) j = placed used j || bool_decide (j = i).
Proof.
  intros Hi. unfold placed. rewrite bit64_spec, Z.lor_spec by done. f_equal.
  rewrite Z.pow2_bits_eqb by lia. rewrite Z.eqb_sym.
  case_bool_decide as Hj; [subst; apply Z.eqb_refl|]. apply Z.eqb_neq. lia.
Qed.

Lemma placed_test used i : (i < 64)%nat →
  negb (Z.land used (bit64 i) =? 0) = placed used i.
Proof.
  intros Hi. unfold placed. rewrite bit64_spec by done.
  destruct (Z.testbit used (Z.of_nat i)) eqn:Ht; destruct (Z.eqb_spec (Z.land used (2 ^ Z.of_nat i)) 0)
    as [H0|Hn0]; simpl; try done; exfalso.
  - assert (Z.testbit (Z.land used (2 ^ Z.of_nat i)) (Z.of_nat i) = false) as Hf by (by rewrite H0, Z.bits_0).
    rewrite Z.land_spec, Ht, Z.pow2_bits_true in Hf by lia. done.
  - apply Hn0, Z.bits_inj. intros j. rewrite Z.land_spec, Z.bits_0, Z.pow2_bits_eqb by lia.
    destruct (Z.eqb_spec (Z.of_nat i) j) as [<-|]; [by rewrite Ht|by rewrite andb_false_r].
Qed.

(** ** The operations still to be placed *)

Section exact.
Context (entries : list HistoryEntry).
Hypothesis few : (length entries < 64)%nat.

Definition unplaced_at (used : Z) : list (nat * HistoryEntry) :=
  filter (λ p, placed used p.1 = false) (enumerated entries).
Definition unplaced (used : Z) : list HistoryEntry := map snd (unplaced_at used).

(** What the search decides in a state. *)
Definition solvable (used : Z) (value : string) : Prop :=
  linearizable_register value (unplaced used).

(** Bits beyond the entries are never set. *)
Definition mask_ok (used : Z) : Prop :=
  ∀ i, placed used i = true → (i < length entries)%nat.

Lemma enumerated_lookup i e : (i, e) ∈ enumerated entries ↔ entries !! i = Some e.
Proof.
  unfold enumerated. split.
  - intros (k & Hk)%list_elem_of_lookup_1. apply lookup_zip_Some in Hk as [Hs He].
    apply lookup_seq in Hs as [-> _]. done.
  - intros He. apply (list_elem_of_lookup_2 _ i), lookup_zip_Some. split; [|done].
    apply lookup_seq. apply lookup_lt_Some in He. lia.
Qed.

Lemma enumerated_NoDup : NoDup (map fst (enumerated entries)).
Proof.
  unfold enumerated. change (map fst) with (fmap (M:=list) (@fst nat HistoryEntry)).
  rewrite fst_zip by (rewrite length_seq; lia). apply NoDup_seq.
Qed.

Lemma unplaced_at_elem used i e :
  (i, e) ∈ unplaced_at used ↔ entries !! i = Some e ∧ placed used i = false.
Proof. unfold unplaced_at. rewrite list_elem_of_filter, enumerated_lookup. naive_solver. Qed.

Lemma unplaced_set used i e :
  entries !! i = Some e → placed used i = false →
  unplaced used ≡ₚ e :: unplaced (Z.lor used (bit64 i)).
Proof.
  intros He Hp. assert (i < 64)%nat as Hi by (apply lookup_lt_Some in He; lia).
  pose proof enumerated_NoDup as Hnd. apply enumerated_lookup in He.
  apply list_elem_of_split in He as (l1 & l2 & Heq). unfold unplaced, unplaced_at.
  rewrite Heq in *. rewrite map_app in Hnd. apply NoDup_app in Hnd as (_ & Hd & Hnd2).
  apply NoDup_cons in Hnd2 as [Hni _].
  assert (∀ l, i ∉ map fst l →
    filter (λ p : nat * HistoryEntry, placed (Z.lor used (bit64 i)) p.1 = false) l =
    filter (λ p, placed used p.1 = false) l) as Hsame.
  { induction l as [|[j x] l IH]; intros Hl; [done|]. simpl in Hl.
    apply not_elem_of_cons in Hl as [Hj Hl]. rewrite !filter_cons, IH by done. simpl.
    by rewrite placed_set, bool_decide_false, orb_false_r by done. }
  rewrite !filter_app, !filter_cons. simpl. rewrite (decide_True _ _ Hp).
  rewrite decide_False by (rewrite placed_set, bool_decide_true, orb_true_r; done).
  rewrite !Hsame; [|done|intros H; apply (Hd _ H); by left].
  rewrite !map_app. simpl. by rewrite <- Permutation_middle.
Qed.

Lemma unplaced_all used : (∀ i, (i < length entries)%nat → placed used i = true) → unplaced used = [].
Proof.
  intros H. unfold unplaced, unplaced_at.
  destruct (filter _ _) as [|[i e] l] eqn:Hf; [done|].
  assert ((i, e) ∈ unplaced_at used) as Hin by (unfold unplaced_at; rewrite Hf; by left).
  apply unplaced_at_elem in Hin as [He Hp]. rewrite H in Hp; [done|]. by apply lookup_lt_Some in He.
Qed.

(** OnesCount64 counts the placed entries. *)
Lemma OnesCount64_unplaced used : mask_ok used →
  OnesCount64 used + zlen (unplaced used) = zlen entries.
Proof.
  intros Hm. unfold OnesCount64, unplaced, unplaced_at, zlen. rewrite length_map.
  replace (length (filter (λ i, Z.testbit used (Z.of_nat i) = true) (seq 0 64)))
    with (length (filter (λ p : nat * HistoryEntry, placed used p.1 = true) (enumerated entries))).
  - assert (∀ l : list (nat * HistoryEntry),
      (length (filter (λ p, placed used p.1 = true) l) +
       length (filter (λ p, placed used p.1 = false) l) = length l)%nat) as Hsum.
    { induction l as [|p l IH]; [done|]. rewrite !filter_cons.
      destruct (placed used p.1) eqn:Hp; simpl;
        rewrite ?(decide_True (P:=true = true)), ?(decide_False (P:=false = true)),
          ?(decide_True (P:=false = false)), ?(decide_False (P:=true = false)) by done; simpl; lia. }
    specialize (Hsum (enumerated entries)). unfold enumerated in *.
    rewrite length_zip, length_seq in Hsum. lia.
  - assert (seq 0 64 = seq 0 (length entries) ++ seq (length entries) (64 - length entries)) as ->.
    { change (seq (length entries)) with (seq (0 + length entries)). rewrite <- seq_app.
      f_equal. lia. }
    rewrite filter_app, length_app.
    assert (filter (λ i, Z.testbit used (Z.of_nat i) = true)
      (seq (length entries) (64 - length entries)) = []) as ->.
    { destruct (filter _ _) as [|i l] eqn:Hf; [done|].
      assert (i ∈ i :: l) as Hin by (by left). rewrite <- Hf in Hin.
      apply list_elem_of_filter in Hin as [Ht Hs%elem_of_seq]. apply Hm in Ht. lia. }
    simpl. rewrite Nat.add_0_r.
    replace (seq 0 (length entries)) with (fst <$> enumerated entries)
      by (unfold enumerated; rewrite fst_zip; [done|rewrite length_seq; lia]).
    induction (enumerated entries) as [|p l IH]; [done|]. rewrite fmap_cons, !filter_cons.
    unfold placed at 1. simpl. destruct (decide _); simpl; by rewrite IH.
Qed.

Lemma mask_ok_set used i : mask_ok used → (i < length entries)%nat → mask_ok (Z.lor used (bit64 i)).
Proof.
  intros Hm Hi j. rewrite placed_set by lia. intros [Hj|Hj%bool_decide_eq_true]%orb_true_iff; [|lia].
  by apply Hm.
Qed.

(** ** The search is exact *)

Lemma ready_unplaced used i e : entries !! i = Some e → placed used i = false →
  linearizableReadyNext entries used i e = true ↔
  Forall (λ a, happensBeforeInHistory a e = false) (unplaced (Z.lor used (bit64 i))).
Proof.
  intros He Hp. assert (i < 64)%nat as Hi by (apply lookup_lt_Some in He; lia).
  unfold linearizableReadyNext. rewrite forallb_forall, Forall_forall. split.
  - intros Hall a ([j x] & -> & Hj)%list_elem_of_fmap. apply unplaced_at_elem in Hj as [Hj Hpj].
    rewrite placed_set in Hpj by done. apply orb_false_iff in Hpj as [Hpj Hne%bool_decide_eq_false].
    specialize (Hall (j, x)). rewrite <- list_elem_of_In, enumerated_lookup in Hall.
    specialize (Hall Hj). rewrite decide_False, placed_test, Hpj in Hall by (done || (apply lookup_lt_Some in Hj; lia)).
    by apply negb_true_iff in Hall.
  - intros Hall [j x] Hj. rewrite <- list_elem_of_In, enumerated_lookup in Hj.
    destruct (decide (j = i)) as [|Hne]; [done|].
    rewrite placed_test by (apply lookup_lt_Some in Hj; lia).
    destruct (placed used j) eqn:Hpj; [done|]. apply negb_true_iff, Hall.
    apply list_elem_of_fmap. exists (j, x). split; [done|]. apply unplaced_at_elem.
    split; [done|]. by rewrite placed_set, Hpj, bool_decide_false by done.
Qed.

(** A candidate that can be placed next and leads to a solution. *)
Definition good (used : Z) (value : string) (p : nat * HistoryEntry) : Prop :=
  placed used p.1 = false ∧ linearizableReadyNext entries used p.1 p.2 = true ∧
  snd (register_step value p.2) = true ∧
  solvable (Z.lor used (bit64 p.1)) (fst (register_step value p.2)).

Lemma solvable_next used value : unplaced used ≠ [] →
  solvable used value ↔ Exists (good used value) (enumerated entries).
Proof.
  intros Hne. rewrite Exists_exists. split.
  - intros ([|e order] & Hperm & Hrt & Hreg); [by apply Permutation_nil_l in Hperm|].
    inversion Hrt as [|? ? Hrt' Hall]; subst. destruct Hreg as [Hok Hreg].
    assert (e ∈ unplaced used) as Hin by (rewrite <- Hperm; by left).
    apply list_elem_of_fmap in Hin as ([i e'] & -> & Hin). apply unplaced_at_elem in Hin as [Hi Hp].
    exists (i, e'). split; [by apply enumerated_lookup|]. simpl in *.
    rewrite (unplaced_set used i e') in Hperm by done. apply Permutation_cons_inv in Hperm.
    split_and!; [done| |done|by exists order].
    apply ready_unplaced; [done..|]. by rewrite <- Hperm.
  - intros ([i e] & Hi & Hp & Hready & Hok & order & Hperm & Hrt & Hreg).
    apply enumerated_lookup in Hi. simpl in *. apply ready_unplaced in Hready; [|done..].
    exists (e :: order). split_and!; [|constructor; [done|by rewrite Hperm]|done].
    by rewrite (unplaced_set used i e), Hperm.
Qed.

Definition memo_ok (memo : gset (Z * string)) : Prop :=
  ∀ used value, (used, value) ∈ memo → ¬ solvable used value.

Lemma linearizableTry_exact rec used value cands memo :
  (∀ i e memo, entries !! i = Some e → placed used i = false → memo_ok memo →
    ∃ b memo', rec (Z.lor used (bit64 i)) (fst (register_step value e)) memo = Some (b, memo') ∧
      memo_ok memo' ∧ (b = true ↔ solvable (Z.lor used (bit64 i)) (fst (register_step value e)))) →
  cands ⊆ enumerated entries → memo_ok memo →
  ∃ (b : bool) memo', linearizableTry entries rec used value cands memo =
      Some (b, if b then memo' else {[(used, value)]} ∪ memo') ∧
    memo_ok memo' ∧ (b = true ↔ Exists (good used value) cands).
Proof.
  intros Hrec. revert memo. induction cands as [|[i e] cands IH]; intros memo Hsub Hm; simpl.
  { exists false, memo. split_and!; [done|done|]. by rewrite Exists_nil. }
  assert (entries !! i = Some e) as Hi by (apply enumerated_lookup, Hsub; by left).
  assert (cands ⊆ enumerated entries) as Hsub' by (intros p Hp; apply Hsub; by right).
  assert (¬ good used value (i, e) → ∀ memo, memo_ok memo →
    ∃ (b : bool) memo', linearizableTry entries rec used value cands memo =
      Some (b, if b then memo' else {[(used, value)]} ∪ memo') ∧
    memo_ok memo' ∧ (b = true ↔ Exists (good used value) ((i, e) :: cands))) as Hskip.
  { intros Hbad memo0 Hm0. destruct (IH memo0 Hsub' Hm0) as (b & m & ? & ? & ?).
    exists b, m. rewrite Exists_cons. tauto. }
  rewrite placed_test by (apply lookup_lt_Some in Hi; lia).
  destruct (placed used i) eqn:Hp; [apply Hskip; [|done]; intros (Hf & _); simpl in Hf; congruence|].
  destruct (linearizableReadyNext entries used i e) eqn:Hr; simpl;
    [|apply Hskip; [|done]; intros (_ & Hf & _); simpl in Hf; congruence].
  destruct (register_step value e) as [next ok] eqn:Hstep.
  destruct ok; [|apply Hskip; [|done]; intros (_ & _ & Hf & _); simpl in Hf; rewrite Hstep in Hf; done].
  destruct (Hrec i e memo Hi Hp Hm) as (b & m & Hcall & Hmo & Hb). rewrite Hstep in Hcall, Hb.
  simpl in *. rewrite Hcall. simpl. destruct b.
  - exists true, m. split_and!; [done|done|]. split; [|done]. intros _. constructor.
    unfold good. simpl. rewrite Hstep. simpl. tauto.
  - apply Hskip; [|done]. unfold good. simpl. rewrite Hstep. simpl. intros (_ & _ & _ & Hs).
    by apply Hb in Hs.
Qed.

Lemma linearizableSearch_exact fuel used value memo :
  mask_ok used → memo_ok memo → (length (unplaced used) < fuel)%nat →
  ∃ b memo', linearizableSearch entries fuel used value memo = Some (b, memo') ∧
    memo_ok memo' ∧ (b = true ↔ solvable used value).
Proof.
  revert used value memo. induction fuel as [|fuel IH]; intros used value memo Hmask Hm Hfuel; [lia|].
  cbn [linearizableSearch]. pose proof (OnesCount64_unplaced used Hmask) as Hcount.
  destruct (Z.eqb_spec (OnesCount64 used) (zlen entries)) as [Heq|Hne].
  { exists true, memo. split_and!; [done|done|]. split; [|done]. intros _. exists [].
    rewrite (proj1 (zlen_0 (unplaced used))) by lia. split_and!; [done|constructor|done]. }
  assert (unplaced used ≠ []) as Hun by (intros Hu; rewrite Hu, zlen_nil in Hcount; lia).
  destruct (decide _) as [Hin|_].
  { exists false, memo. split_and!; [done|done|]. split; [done|]. intros Hs. by apply Hm in Hin. }
  destruct (linearizableTry_exact (linearizableSearch entries fuel) used value
    (enumerated entries) memo) as (b & m & Htry & Hmo & Hb); [|reflexivity|exact Hm|].
  - intros i e memo' He Hp Hm'. apply IH; [apply mask_ok_set; [done|by apply lookup_lt_Some in He]|done|].
    assert (length (unplaced used) = S (length (unplaced (Z.lor used (bit64 i))))) as Hlen
      by (by rewrite (unplaced_set used i e)). lia.
  - rewrite <- solvable_next in Hb by exact Hun. rewrite Htry. exists b, (if b then m else {[(used, value)]} ∪ m).
    split; [reflexivity|]. split; [|exact Hb]. destruct b; [exact Hmo|].
    intros u v [[= -> ->]%elem_of_singleton|Hin]%elem_of_union; [naive_solver|by apply Hmo].
Qed.

Lemma linearizableForKey_meets : ∃ b,
  linearizableForKey entries = Ret b ∧ (b = true ↔ linearizable_register "" entries).
Proof.
  unfold linearizableForKey. rewrite (proj2 (Z.ltb_ge _ _)) by (unfold zlen; lia).
  assert (∀ i, placed 0 i = false) as H0 by (intros i; apply Z.bits_0).
  assert (unplaced 0 = entries) as Hall.
  { unfold unplaced, unplaced_at. assert (∀ l, filter (λ p : nat * HistoryEntry, placed 0 p.1 = false) l = l) as ->.
    { induction l as [|p l IH]; [done|]. rewrite filter_cons, decide_True, IH by apply H0. done. }
    unfold enumerated. change (map snd) with (fmap (M:=list) (@snd nat HistoryEntry)).
    apply snd_zip. rewrite length_seq. lia. }
  destruct (linearizableSearch_exact (S (length entries)) 0 "" ∅) as (b & m & -> & _ & Hb).
  - intros i. by rewrite H0.
  - intros u v. set_solver.
  - rewrite Hall. lia.
  - exists b. split; [done|]. unfold solvable in Hb. by rewrite Hall in Hb.
Qed.
End exact.

(** The checker is exact on one key. For at most 63 operations
    linearizableForKey returns (its search ends), and it returns true exactly
    when some order of all the operations respects real time and is explained
    by a register that starts empty; the bit mask and the memo table lose
    nothing. For more operations it panics. *)
Theorem linearizableForKey_exact (es : list HistoryEntry) :
  (zlen es ≤ 63 → ∃ b, linearizableForKey es = Ret b ∧
    (b = true ↔ linearizable_register "" es)) ∧
  (63 < zlen es → linearizableForKey es = Panic).
Proof.
  split; intros H.
  - apply linearizableForKey_meets. unfold zlen in H. lia.
  - unfold linearizableForKey. by rewrite (proj2 (Z.ltb_lt _ _)).
Qed.

(** ** One key at a time *)

Definition onKey (k : string) (es : list HistoryEntry) : list HistoryEntry :=
  filter (λ e, he_Key e = k) es.

Lemma byKey_lookup es k : default [] (byKey es !! k) = onKey k es.
Proof.
  unfold byKey, onKey. induction es as [|e es IH] using rev_ind; [done|].
  rewrite foldl_app, filter_app. simpl. rewrite filter_cons, filter_nil.
  destruct (decide (he_Key e = k)) as [<-|Hne].
  - by rewrite lookup_insert_eq, IH.
  - by rewrite lookup_insert_ne, IH, app_nil_r by done.
Qed.

Lemma byKey_dom es k : k ∈ dom (byKey es) ↔ onKey k es ≠ [].
Proof.
  unfold byKey, onKey. induction es as [|e es IH] using rev_ind.
  { simpl. rewrite dom_empty. set_solver. }
  rewrite foldl_app, filter_app. simpl. rewrite filter_cons, filter_nil, dom_insert, elem_of_union, IH.
  rewrite elem_of_singleton. destruct (decide (he_Key e = k)) as [<-|Hne].
  - split; [|tauto]. intros _ H. by apply app_eq_nil in H as [_ ?].
  - rewrite app_nil_r. naive_solver.
Qed.

Lemma real_time_filter k order : real_time order → real_time (onKey k order).
Proof.
  unfold real_time, onKey. induction 1 as [|e order _ IH Hall]; [constructor|].
  rewrite filter_cons. destruct (decide _); [|done]. constructor; [done|].
  rewrite Forall_forall in *. intros a [_ Ha]%list_elem_of_filter. by apply Hall.
Qed.

Lemma store_explains_filter k order store :
  store_explains store order → register_explains (default "" (store !! k)) (onKey k order).
Proof.
  revert store. induction order as [|e order IH]; intros store; [done|].
  intros [Hok Hrest]. apply IH in Hrest. unfold onKey in *. rewrite filter_cons.
  destruct (decide (he_Key e = k)) as [<-|Hne].
  - rewrite lookup_insert_eq in Hrest. by split.
  - by rewrite lookup_insert_ne in Hrest.
Qed.

Lemma earliest_return es : es ≠ [] →
  ∃ y, y ∈ es ∧ ∀ z, z ∈ es → he_Return y ≤ he_Return z.
Proof.
  induction es as [|e es IH]; [done|]. intros _. destruct es as [|e' es].
  { exists e. split; [by left|]. intros z ->%list_elem_of_singleton. lia. }
  destruct IH as (y & Hy & Hmin); [done|]. destruct (Z_le_gt_dec (he_Return e) (he_Return y)).
  - exists e. split; [by left|]. intros z [->|Hz]%elem_of_cons; [lia|]. specialize (Hmin z Hz). lia.
  - exists y. split; [by right|]. intros z [->|Hz]%elem_of_cons; [lia|]. by apply Hmin.
Qed.

(** Operations that take time, and what a merged order must satisfy. *)
Definition takes_time (es : list HistoryEntry) : Prop :=
  Forall (λ e, he_Invoke e < he_Return e) es.

(** The first operation of the key whose operation returns first can go first. *)
Lemma next_operation es (store : gmap string string) : es ≠ [] → takes_time es →
  (∀ k, linearizable_register (default "" (store !! k)) (onKey k es)) →
  ∃ h es', es ≡ₚ h :: es' ∧ Forall (λ a, happensBeforeInHistory a h = false) es' ∧
    snd (register_step (default "" (store !! he_Key h)) h) = true ∧
    ∀ k, linearizable_register (default "" (<[he_Key h :=
      fst (register_step (default "" (store !! he_Key h)) h)]> store !! k)) (onKey k es').
Proof.
  intros Hne Htime Hkeys. destruct (earliest_return es Hne) as (y & Hy & Hmin).
  destruct (Hkeys (he_Key y)) as (order & Hperm & Hrt & Hreg).
  assert (y ∈ order) as Hyo by (rewrite Hperm; by apply list_elem_of_filter).
  destruct order as [|h order]; [by apply not_elem_of_nil in Hyo|].
  assert (h ∈ onKey (he_Key y) es) as Hh by (rewrite <- Hperm; by left).
  apply list_elem_of_filter in Hh as [Hkey Hh]. apply elem_of_Permutation in Hh as [es' Hes].
  inversion Hrt as [|? ? Hrt' Hall]; subst. destruct Hreg as [Hok Hreg]. rewrite <- Hkey in *.
  unfold takes_time in Htime. rewrite Forall_forall in Htime, Hall.
  exists h, es'. split; [done|]. split; [|split; [done|]].
  - apply Forall_forall. intros z Hz. apply negb_false_iff, Z.ltb_lt.
    assert (he_Return y ≤ he_Return z) by (apply Hmin; rewrite Hes; by right).
    enough (he_Invoke h < he_Return y) by lia. apply elem_of_cons in Hyo as [->|Hyo].
    + apply Htime. rewrite Hes. by left.
    + by apply Z.ltb_lt, negb_false_iff, Hall.
  - intros k. unfold onKey in *. destruct (decide (he_Key h = k)) as [<-|Hk].
    + rewrite lookup_insert_eq. exists order. split_and!; [|done|done].
      rewrite Hes in Hperm. rewrite filter_cons, decide_True in Hperm by done.
      by apply Permutation_cons_inv in Hperm.
    + rewrite lookup_insert_ne by done. destruct (Hkeys k) as (o & Ho & ? & ?). exists o.
      split_and!; [|done|done]. rewrite Hes, filter_cons, decide_False in Ho by done. done.
Qed.

Lemma merge_orders n es (store : gmap string string) : length es = n → takes_time es →
  (∀ k, linearizable_register (default "" (store !! k)) (onKey k es)) →
  ∃ order, order ≡ₚ es ∧ real_time order ∧ store_explains store order.
Proof.
  revert es store. induction n as [|n IH]; intros es store Hn Htime Hkeys.
  { apply nil_length_inv in Hn as ->. exists []. split_and!; [done|constructor|done]. }
  destruct (next_operation es store) as (h & es' & Hes & Hall & Hok & Hkeys');
    [by intros ->|done|done|].
  destruct (IH es' _ ltac:(rewrite Hes in Hn; simpl in Hn; lia)
    ltac:(unfold takes_time in *; rewrite Hes in Htime; by inversion Htime) Hkeys')
    as (order & Hp & Hrt & Hex).
  exists (h :: order). split_and!; [by rewrite Hp, Hes| |done].
  constructor; [done|]. by rewrite Hp.
Qed.

(** Herlihy and Wing's locality, for the store of registers. *)
Lemma linearizable_local es : takes_time es →
  linearizable_store es ↔ ∀ k, linearizable_register "" (onKey k es).
Proof.
  intros Htime. split.
  - intros (order & Hp & Hrt & Hex) k. exists (onKey k order). split_and!.
    + unfold onKey. by rewrite Hp.
    + by apply real_time_filter.
    + apply (store_explains_filter k) in Hex. by rewrite lookup_empty in Hex.
  - intros Hk. apply (merge_orders (length es)); [done|done|]. intros k.
    by rewrite lookup_empty.
Qed.

Lemma IsLinearizable_loop_meets m keys :
  (∀ k, k ∈ keys → (length (default [] (m !! k)) < 64)%nat) →
  ∃ b, IsLinearizable_loop m keys = Ret b ∧
    (b = true ↔ ∀ k, k ∈ keys → linearizable_register "" (default [] (m !! k))).
Proof.
  induction keys as [|k keys IH]; intros Hfew.
  { exists true. split; [done|]. split; [by intros _ k ?%not_elem_of_nil|done]. }
  destruct (linearizableForKey_meets (default [] (m !! k))) as (b & Hb & Hiff);
    [apply Hfew; by left|].
  destruct IH as (b' & Hb' & Hiff'); [intros k' ?; apply Hfew; by right|].
  cbn [IsLinearizable_loop]. rewrite Hb. simpl. destruct b; simpl.
  - exists b'. split; [done|]. rewrite Hiff'. split; [|intros H k' ?; apply H; by right].
    intros H k' [->|?]%elem_of_cons; [by apply Hiff|by apply H].
  - exists false. split; [done|]. split; [done|]. intros H. apply (proj2 Hiff), H. by left.
Qed.

Lemma register_no_operations : linearizable_register "" [].
Proof. exists []. split_and!; [done|constructor|done]. Qed.

(** C37: checking key by key decides linearizability of the whole history.
    For operations that take time and at most 63 per key, whatever order the
    map iterates in, IsLinearizable returns, and returns true exactly when one
    order of all operations, respecting real time across keys, is explained by
    a store whose keys all start empty. *)
Theorem IsLinearizable_exact es keys :
  keys ≡ₚ elements (dom (byKey es)) → takes_time es →
  (∀ k, zlen (onKey k es) ≤ 63) →
  ∃ b, IsLinearizable es keys = Ret b ∧ (b = true ↔ linearizable_store es).
Proof.
  intros Hkeys Htime Hfew. unfold IsLinearizable.
  destruct (IsLinearizable_loop_meets (byKey es) keys) as (b & Hb & Hiff).
  { intros k _. rewrite byKey_lookup. specialize (Hfew k). unfold zlen in Hfew. lia. }
  exists b. split; [done|]. rewrite Hiff, (linearizable_local es Htime). split; intros H k.
  - destruct (decide (onKey k es = [])) as [->|Hne]; [apply register_no_operations|].
    rewrite <- byKey_lookup. apply H. by rewrite Hkeys, elem_of_elements, byKey_dom.
  - intros _. by rewrite byKey_lookup.
Qed.

Module Witness.
Definition demo : list HistoryEntry :=
  [ mkHistoryEntry 1 "x" OpPut "a" "" 0 10; mkHistoryEntry 2 "x" OpGet "" "ab" 5 20;
    mkHistoryEntry 3 "x" OpAppend "b" "" 3 15; mkHistoryEntry 1 "y" OpGet "" "" 11 12 ].

Lemma linearizableForKey_witness :
  linearizableForKey (onKey "x" demo) = Ret true ∧ linearizable_register "" (onKey "x" demo).
Proof.
  destruct (linearizableForKey_exact (onKey "x" demo)) as [Hfew _].
  destruct Hfew as (b & Hb & Hiff); [by vm_compute|].
  assert (linearizableForKey (onKey "x" demo) = Ret true) as Hv by (vm_compute; reflexivity).
  split; [exact Hv|]. apply Hiff. rewrite Hv in Hb. by injection Hb as <-.
Defined.

Lemma IsLinearizable_witness :
  IsLinearizable demo ["y"; "x"]%string = Ret true ∧ linearizable_store demo.
Proof.
  destruct (IsLinearizable_exact demo ["y"; "x"]%string) as (b & Hb & Hiff).
  - apply NoDup_Permutation; [by apply (bool_decide_unpack _)|apply NoDup_elements|].
    intros k. rewrite elem_of_elements.
    assert (dom (byKey demo) = {["y"%string; "x"%string]}) as ->
      by (apply (bool_decide_unpack _); by vm_compute). set_solver.
  - unfold takes_time, demo. repeat constructor.
  - intros k. unfold onKey, zlen. pose proof (length_filter (λ e, he_Key e = k) demo). simpl in *. lia.
  - assert (IsLinearizable demo ["y"; "x"]%string = Ret true) as Hv by (vm_compute; reflexivity).
    split; [exact Hv|]. apply Hiff. rewrite Hv in Hb. by injection Hb as <-.
Defined.
End Witness.
