(* ===== verification/Ring.v ===== *)
(** * The hash ring (06-hot-shard-splitting/ring.go, ring_config.go)

    Shards as ranges of the 32-bit hash space, their lookup by binary search,
    the split of one range, and the versioned ring configurations. *)
From Stdlib Require Import Sorting.Sorted.
From S2P Require Import Prelude ShardConfig.
Local Open Scope Z_scope.

(** ** ring.go *)

Abbreviation ShardID := Z (only parsing).

(** The size of the hash space: [uint64(1) << 32]. *)
Definition hashSpace : Z := 2 ^ 32.

Definition HashKey (key : string) : Z := fnv32a (key_bytes key).

Record RingEntry := mkRingEntry { re_Start : Z; re_Shard : ShardID }.

#[export] Instance RingEntry_eq_dec : EqDecision RingEntry.
Proof. solve_decision. Defined.

#[export] Instance RingEntry_countable : Countable RingEntry.
Proof.
  apply (inj_countable' (λ e, (re_Start e, re_Shard e)) (λ x, mkRingEntry x.1 x.2)).
  by intros [].
Defined.

Record Ring := mkRing { ring_Entries : list RingEntry }.

#[export] Instance Ring_eq_dec : EqDecision Ring.
Proof. solve_decision. Defined.

#[export] Instance Ring_countable : Countable Ring.
Proof. apply (inj_countable' ring_Entries mkRing). by intros []. Defined.

Definition NewRing (n : Z) : outcome Ring :=
  if n <=? 0 then Panic
  else
    let width := hashSpace / n in
    Ret (mkRing (map (λ i, mkRingEntry (Z.of_nat i * width mod 2 ^ 64 mod hashSpace)
                                       (Z.of_nat i + 1)) (seq 0 (Z.to_nat n)))).

Definition NextShardID (ring : Ring) : ShardID :=
  foldl (λ m e, if m <? re_Shard e then re_Shard e else m) 0 (ring_Entries ring) + 1.

(** [sort.Search]: the loop on the bounds [i] and [j]. *)
Fixpoint sortSearch_loop (fuel : nat) (f : Z → outcome bool) (i j : Z) : outcome Z :=
  match fuel with
  | O => Ret i
  | S fuel =>
      if i <? j then
        let h := (i + j) / 2 in
        yes ← f h;
        if negb yes then sortSearch_loop fuel f (h + 1) j else sortSearch_loop fuel f i h
      else Ret i
  end.

(** The bounds approach each other in every round. *)
Definition sortSearch (n : Z) (f : Z → outcome bool) : outcome Z :=
  sortSearch_loop (Z.to_nat n) f 0 n.

Definition ringAssignPoint (ring : Ring) (h : Z) : outcome ShardID :=
  let n := zlen (ring_Entries ring) in
  if n =? 0 then Panic
  else
    i ← sortSearch n (λ i, e ← or_panic (zget (ring_Entries ring) i); Ret (h <? re_Start e));
    e ← or_panic (zget (ring_Entries ring) (if i =? 0 then n - 1 else i - 1));
    Ret (re_Shard e).

Definition RingAssign (ring : Ring) (key : string) : outcome ShardID :=
  ringAssignPoint ring (HashKey key).

Definition rangeEnd (ring : Ring) (idx : Z) : outcome Z :=
  if zlen (ring_Entries ring) =? 0 then Panic
  else
    e ← or_panic (zget (ring_Entries ring) ((idx + 1) mod zlen (ring_Entries ring)));
    Ret (re_Start e).

Definition inRangeExclusive (start end_ point : Z) : bool :=
  if start <? end_ then (start <=? point) && (point <? end_)
  else (start <=? point) || (point <? end_).

Inductive RingError :=
| ErrShardNotFound (shard : ShardID)
| ErrSplitPoint (splitPoint : Z) (shard : ShardID) (start end_ : Z)
| ErrNoShards
| ErrDuplicateShard (shard : ShardID)
| ErrNotSorted (i : Z)
| ErrTooNarrow (shard : ShardID)
| ErrNoGroups
| ErrNoOwner (shard : ShardID)
| ErrNoGroup (gid : Z)
| ErrOwnerCount (owners shards : Z)
| ErrNoAddresses (shard : ShardID) (gid : Z).

(** The index of the first entry of a shard. *)
Fixpoint findShard (entries : list RingEntry) (shard : ShardID) (i : Z) : option (Z * RingEntry) :=
  match entries with
  | [] => None
  | e :: entries =>
      if re_Shard e =? shard then Some (i, e) else findShard entries shard (i + 1)
  end.

Definition startLt (a b : RingEntry) : Prop := re_Start a < re_Start b.
Definition startLe (a b : RingEntry) : Prop := re_Start a ≤ re_Start b.
#[export] Instance startLe_dec : RelDecision startLe.
Proof. unfold startLe. intros a b. apply _. Defined.
#[export] Instance startLe_total : Total startLe.
Proof. unfold startLe. intros a b. lia. Qed.
#[export] Instance startLe_trans : Transitive startLe.
Proof. unfold startLe. intros a b c. lia. Qed.

Definition Split (ring : Ring) (shard : ShardID) (splitPoint : Z) :
    outcome (Ring * ShardID + RingError) :=
  match findShard (ring_Entries ring) shard 0 with
  | None => Ret (inr (ErrShardNotFound shard))
  | Some (idx, e) =>
      let start := re_Start e in
      end_ ← rangeEnd ring idx;
      if (splitPoint =? start) || negb (inRangeExclusive start end_ splitPoint)
      then Ret (inr (ErrSplitPoint splitPoint shard start end_))
      else
        let newID := NextShardID ring in
        let entries := merge_sort startLe (ring_Entries ring ++ [mkRingEntry splitPoint newID]) in
        Ret (inl (mkRing entries, newID))
  end.

(** The loop of Validate at entry [i], whose predecessor is [prev]. *)
Fixpoint validateEntries (entries : list RingEntry) (i : Z) (prev : option RingEntry)
    (seen : gset Z) : option RingError :=
  match entries with
  | [] => None
  | e :: entries =>
      if decide (re_Shard e ∈ seen) then Some (ErrDuplicateShard (re_Shard e))
      else if match prev with Some p => re_Start e <=? re_Start p | None => false end
      then Some (ErrNotSorted i)
      else validateEntries entries (i + 1) (Some e) ({[re_Shard e]} ∪ seen)
  end.

(** The result is Go's error; [None] is nil. *)
Definition Ring_Validate (r : Ring) : option RingError :=
  match ring_Entries r with
  | [] => Some ErrNoShards
  | entries => validateEntries entries 0 None ∅
  end.

(** ** ring_config.go *)

Record RingConfig := mkRingConfig {
  rc_Num : Z;
  rc_Ring : Ring;
  rc_Owners : gmap Z Z;
  rc_Groups : gmap Z (list string)
}.

Definition zeroRingConfig : RingConfig := mkRingConfig 0 (mkRing []) ∅ ∅.

(** The loop of RingConfig.Validate over the ring's entries. *)
Fixpoint validateOwners (c : RingConfig) (entries : list RingEntry) : option RingError :=
  match entries with
  | [] => None
  | e :: entries =>
      match rc_Owners c !! re_Shard e with
      | None => Some (ErrNoOwner (re_Shard e))
      | Some gid =>
          if zlen (default [] (rc_Groups c !! gid)) =? 0
          then Some (ErrNoAddresses (re_Shard e) gid)
          else validateOwners c entries
      end
  end.

Definition RingConfig_Validate (c : RingConfig) : option RingError :=
  match Ring_Validate (rc_Ring c) with
  | Some err => Some err
  | None =>
      if negb (Z.of_nat (size (rc_Owners c)) =? zlen (ring_Entries (rc_Ring c)))
      then Some (ErrOwnerCount (Z.of_nat (size (rc_Owners c))) (zlen (ring_Entries (rc_Ring c))))
      else validateOwners c (ring_Entries (rc_Ring c))
  end.

(** The dealing loop: entry [i] goes to the [i mod len]-th group. *)
Fixpoint dealOwners (gids : list Z) (entries : list RingEntry) (i : nat) (owners : gmap Z Z) :
    gmap Z Z :=
  match entries with
  | [] => owners
  | e :: entries =>
      dealOwners gids entries (S i)
        (<[re_Shard e := default 0 (gids !! (i mod length gids)%nat)]> owners)
  end.

Definition NewRingConfig (ring : Ring) (groups : gmap Z (list string)) : RingConfig + RingError :=
  let gids := sortedGids groups in
  match gids with
  | [] => inr ErrNoGroups
  | _ =>
      let cfg := mkRingConfig 1 ring (dealOwners gids (ring_Entries ring) 0 ∅) groups in
      match RingConfig_Validate cfg with
      | Some err => inr err
      | None => inl cfg
      end
  end.

Definition SplitConfig (cfg : RingConfig) (shard : ShardID) (splitPoint : Z) :
    outcome (RingConfig * ShardID + RingError) :=
  match rc_Owners cfg !! shard with
  | None => Ret (inr (ErrNoOwner shard))
  | Some owner =>
      res ← Split (rc_Ring cfg) shard splitPoint;
      match res with
      | inr err => Ret (inr err)
      | inl (ring, newID) =>
          Ret (inl (mkRingConfig (rc_Num cfg + 1) ring (<[newID := owner]> (rc_Owners cfg))
                      (rc_Groups cfg), newID))
      end
  end.

Definition MoveRingShard (cfg : RingConfig) (shard : ShardID) (gid : Z) : RingConfig + RingError :=
  match rc_Owners cfg !! shard, rc_Groups cfg !! gid with
  | None, _ => inr (ErrNoOwner shard)
  | Some _, None => inr (ErrNoGroup gid)
  | Some _, Some _ =>
      inl (mkRingConfig (rc_Num cfg + 1) (rc_Ring cfg) (<[shard := gid]> (rc_Owners cfg))
             (rc_Groups cfg))
  end.

(** The loop stops at the shard's first entry. uint64 arithmetic: the
    difference of the bounds wraps, and adding [1 << 32] brings it back. *)
Definition Midpoint (ring : Ring) (shard : ShardID) : outcome (Z + RingError) :=
  match findShard (ring_Entries ring) shard 0 with
  | None => Ret (inr (ErrShardNotFound shard))
  | Some (i, e) =>
      end_ ← rangeEnd ring i;
      let width := (end_ - re_Start e) mod 2 ^ 64 in
      let width := if end_ <=? re_Start e then (width + hashSpace) mod 2 ^ 64 else width in
      if width <? 2 then Ret (inr (ErrTooNarrow shard))
      else Ret (inl ((re_Start e + width / 2) mod 2 ^ 64 mod hashSpace))
  end.

(** An absent owner reads as 0. *)
Definition Lookup (c : RingConfig) (key : string) : outcome Z :=
  s ← RingAssign (rc_Ring c) key;
  Ret (default 0 (rc_Owners c !! s)).
