(* ===== verification/RingFacts.v ===== *)
(** * Properties of the hash ring

    Lookup by binary search finds the entry closest below a point on the ring;
    hence the ranges partition the hash space, and a split takes exactly the
    upper part of one range. *)
From Stdlib Require Import Sorting.Sorted.
From S2P Require Import Prelude ShardConfig Ring.
Local Open Scope Z_scope.

(** ** Distances on the ring *)

Definition onRing (x : Z) : Prop := 0 ≤ x < hashSpace.

(** How far [b] lies clockwise of [a]. *)
Definition dist (a b : Z) : Z := (b - a) mod hashSpace.

Lemma dist_cases a b : onRing a → onRing b →
  (a ≤ b ∧ dist a b = b - a) ∨ (b < a ∧ dist a b = b - a + hashSpace).
Proof.
  unfold onRing, dist, hashSpace. intros Ha Hb. destruct (Z_le_gt_dec a b).
  - left. split; [done|]. apply Z.mod_small. lia.
  - right. split; [lia|]. symmetry. apply Zmod_unique with (q := -1); lia.
Qed.

Lemma inRange_dist s e x : onRing s → onRing e → onRing x → s ≠ e →
  inRangeExclusive s e x = true ↔ dist s x < dist s e.
Proof.
  intros Hs He Hx Hne. unfold inRangeExclusive.
  destruct (dist_cases s x Hs Hx), (dist_cases s e Hs He); unfold onRing, hashSpace in *;
    destruct (Z.ltb_spec s e); rewrite ?andb_true_iff, ?orb_true_iff, ?Z.leb_le, ?Z.ltb_lt; lia.
Qed.

Lemma inRange_full s x : inRangeExclusive s s x = true.
Proof. unfold inRangeExclusive. rewrite Z.ltb_irrefl, orb_true_iff, Z.leb_le, Z.ltb_lt. lia. Qed.

Ltac on_ring_lia :=
  repeat match goal with
  | Ha : onRing ?a, Hb : onRing ?b |- context [dist ?a ?b] =>
      lazymatch goal with
      | _ : (a ≤ b ∧ dist a b = _) ∨ _ |- _ => fail
      | _ => pose proof (dist_cases a b Ha Hb)
      end
  | Ha : onRing ?a, Hb : onRing ?b, _ : context [dist ?a ?b] |- _ =>
      lazymatch goal with
      | _ : (a ≤ b ∧ dist a b = _) ∨ _ |- _ => fail
      | _ => pose proof (dist_cases a b Ha Hb)
      end
  end; unfold onRing, hashSpace in *; lia.

(** ** Well-formed rings *)

Definition entries_ok (entries : list RingEntry) : Prop :=
  StronglySorted startLt entries ∧ NoDup (map re_Shard entries) ∧
  Forall (λ e, onRing (re_Start e)) entries.

Definition ring_ok (r : Ring) : Prop := ring_Entries r ≠ [] ∧ entries_ok (ring_Entries r).

Lemma sorted_lookup entries i j a b :
  StronglySorted startLt entries → entries !! i = Some a → entries !! j = Some b →
  (i < j)%nat → re_Start a < re_Start b.
Proof.
  intros Hs. revert i j. induction Hs as [|e entries _ IH Hall]; intros i j; [done|].
  destruct i as [|i], j as [|j]; simpl; intros Ha Hb Hij; try lia.
  - injection Ha as <-. rewrite Forall_forall in Hall. apply Hall. by eapply list_elem_of_lookup_2.
  - apply (IH i j Ha Hb). lia.
Qed.

Lemma sorted_zget entries i j a b :
  StronglySorted startLt entries → zget entries i = Some a → zget entries j = Some b →
  (i < j ↔ re_Start a < re_Start b) ∧ (i = j ↔ re_Start a = re_Start b).
Proof.
  unfold zget. intros Hs Ha Hb. repeat case_bool_decide; try done.
  assert (∀ k l x y, entries !! k = Some x → entries !! l = Some y → (k < l)%nat → re_Start x < re_Start y)
    as Hlt by (intros; by eapply sorted_lookup).
  destruct (Z.lt_trichotomy i j) as [?|[->|?]].
  - specialize (Hlt _ _ _ _ Ha Hb ltac:(lia)). lia.
  - simplify_eq. lia.
  - specialize (Hlt _ _ _ _ Hb Ha ltac:(lia)). lia.
Qed.

Lemma entries_unique entries a b : entries_ok entries → a ∈ entries → b ∈ entries →
  re_Start a = re_Start b ∨ re_Shard a = re_Shard b → a = b.
Proof.
  intros (Hs & Hn & _) (i & Hi)%list_elem_of_lookup_1 (j & Hj)%list_elem_of_lookup_1 [Heq|Heq].
  - destruct (Nat.lt_trichotomy i j) as [?|[->|?]]; [|congruence|].
    + pose proof (sorted_lookup entries i j a b Hs Hi Hj ltac:(lia)). lia.
    + pose proof (sorted_lookup entries j i b a Hs Hj Hi ltac:(lia)). lia.
  - assert (i = j) as ->; [|congruence]. apply (NoDup_lookup _ _ _ (re_Shard a) Hn);
      change (map re_Shard entries) with (re_Shard <$> entries); rewrite list_lookup_fmap.
    + by rewrite Hi.
    + by rewrite Hj, Heq.
Qed.

(** ** Binary search *)

Lemma sortSearch_loop_spec fuel f i j :
  0 ≤ i ≤ j → j - i ≤ Z.of_nat fuel →
  (∀ k, i ≤ k < j → ∃ b, f k = Ret b) →
  (∀ k l, i ≤ k ≤ l → l < j → f k = Ret true → f l = Ret true) →
  ∃ m, sortSearch_loop fuel f i j = Ret m ∧ i ≤ m ≤ j ∧
    (∀ k, i ≤ k < m → f k = Ret false) ∧ (∀ k, m ≤ k < j → f k = Ret true).
Proof.
  revert i j. induction fuel as [|fuel IH]; intros i j Hij Hfuel Hret Hmono; simpl.
  { exists i. split_and!; [done|lia|lia|intros; lia|intros; lia]. }
  destruct (Z.ltb_spec i j); [|exists i; split_and!; [done|lia|lia|intros; lia|intros; lia]].
  assert (i ≤ (i + j) / 2 < j) as Hh by (split; [apply Z.div_le_lower_bound|apply Z.div_lt_upper_bound]; lia).
  set (h := (i + j) / 2) in *. destruct (Hret h Hh) as [b Hb]. rewrite Hb. simpl. destruct b; simpl.
  - destruct (IH i h) as (m & ? & ? & Hlo & Hhi); [lia|lia|intros; apply Hret; lia|intros k l ? ? ?; apply (Hmono k l); [lia|lia|done]|].
    exists m. split_and!; [done|lia|lia|done|]. intros k Hk.
    destruct (Z_lt_ge_dec k h); [apply Hhi; lia|]. apply (Hmono h k); [lia|lia|done].
  - assert (∀ k, i ≤ k ≤ h → f k = Ret false) as Hbelow.
    { intros k Hk. destruct (Hret k ltac:(lia)) as [[] Hk']; [|done].
      rewrite (Hmono k h) in Hb by (lia || done). done. }
    destruct (IH (h + 1) j) as (m & ? & ? & Hlo & Hhi); [lia|lia|intros; apply Hret; lia|intros k l ? ? ?; apply (Hmono k l); [lia|lia|done]|].
    exists m. split_and!; [done|lia|lia| |done]. intros k Hk.
    destruct (Z_le_gt_dec k h); [apply Hbelow; lia|apply Hlo; lia].
Qed.

(** The entry a lookup returns is the closest one below the point. *)
Definition closest (entries : list RingEntry) (h : Z) (e : RingEntry) : Prop :=
  e ∈ entries ∧ ∀ e', e' ∈ entries → dist (re_Start e) h ≤ dist (re_Start e') h.

Lemma closest_unique entries h a b : entries_ok entries → onRing h →
  closest entries h a → closest entries h b → a = b.
Proof.
  intros Hok Hh [Ha Hca] [Hb Hcb]. apply (entries_unique entries); [done..|]. left.
  specialize (Hca b Hb). specialize (Hcb a Ha). destruct Hok as (_ & _ & Hr).
  rewrite Forall_forall in Hr. apply Hr in Ha, Hb. on_ring_lia.
Qed.

Lemma ringAssignPoint_closest r h : ring_ok r → onRing h →
  ∃ e, closest (ring_Entries r) h e ∧ ringAssignPoint r h = Ret (re_Shard e).
Proof.
  intros [Hne (Hs & Hn & Hr)] Hh. unfold ringAssignPoint. set (es := ring_Entries r) in *.
  assert (0 < zlen es) as Hpos by (pose proof (zlen_nonneg es); rewrite <- (zlen_0 es) in Hne; lia).
  rewrite (proj2 (Z.eqb_neq _ _)) by lia.
  assert (∀ i, 0 ≤ i < zlen es → ∃ e, zget es i = Some e) as Hget
    by (intros i Hi; by apply zget_is_Some in Hi).
  rewrite Forall_forall in Hr.
  destruct (sortSearch_loop_spec (Z.to_nat (zlen es))
    (λ i, e ← or_panic (zget es i); Ret (h <? re_Start e)) 0 (zlen es))
    as (m & Hsearch & Hm & Hlo & Hhi); [lia|lia| | |].
  { intros k Hk. destruct (Hget k Hk) as [e ->]. simpl. eauto. }
  { intros k l Hkl Hl. destruct (Hget k ltac:(lia)) as [a Ha], (Hget l ltac:(lia)) as [b Hb].
    rewrite Ha, Hb. simpl. intros [= Hlt%Z.ltb_lt]. do 2 f_equal. apply Z.ltb_lt.
    pose proof (sorted_zget es k l a b Hs Ha Hb). lia. }
  unfold sortSearch. rewrite Hsearch. simpl.
  set (i := if m =? 0 then zlen es - 1 else m - 1).
  assert (0 ≤ i < zlen es) as Hi by (unfold i; destruct (Z.eqb_spec m 0); lia).
  destruct (Hget i Hi) as [e He]. rewrite He. simpl. exists e. split; [|done].
  assert (onRing (re_Start e)) as Hre by (apply Hr; by eapply zget_elem_of).
  split; [by eapply zget_elem_of|]. intros e' Hin. pose proof (Hr e' Hin) as Hre'.
  apply list_elem_of_lookup_1 in Hin as [k Hk].
  assert (zget es (Z.of_nat k) = Some e') as Hk'
    by (unfold zget; rewrite bool_decide_true by lia; by rewrite Nat2Z.id).
  pose proof (zget_Some_bound _ _ _ Hk') as Hkb.
  destruct (sorted_zget es (Z.of_nat k) i e' e Hs Hk' He) as [Hord Heq].
  assert (Z.of_nat k < m → re_Start e' ≤ h) as Hbelow.
  { intros Hlt. specialize (Hlo (Z.of_nat k) ltac:(lia)). rewrite Hk' in Hlo. simpl in Hlo.
    injection Hlo as Hlo%Z.ltb_ge. lia. }
  assert (m ≤ Z.of_nat k → h < re_Start e') as Habove.
  { intros Hle. specialize (Hhi (Z.of_nat k) ltac:(lia)). rewrite Hk' in Hhi. simpl in Hhi.
    injection Hhi as Hhi%Z.ltb_lt. lia. }
  unfold i in *. destruct (Z.eqb_spec m 0) as [->|Hm0].
  - specialize (Habove ltac:(lia)). on_ring_lia.
  - specialize (Hlo (m - 1) ltac:(lia)). rewrite He in Hlo. simpl in Hlo.
    injection Hlo as Hlo%Z.ltb_ge. on_ring_lia.
Qed.

(** ** Ranges *)

(** The entry at [idx] and the exclusive end of its range. *)
Definition range_at (r : Ring) (idx : Z) (e : RingEntry) (end_ : Z) : Prop :=
  zget (ring_Entries r) idx = Some e ∧ rangeEnd r idx = Ret end_.

Lemma rangeEnd_total r idx e : ring_ok r → zget (ring_Entries r) idx = Some e →
  ∃ end_, rangeEnd r idx = Ret end_ ∧ onRing end_ ∧
    (∀ e', e' ∈ ring_Entries r → e' ≠ e →
      dist (re_Start e) end_ ≤ dist (re_Start e) (re_Start e')) ∧
    (end_ = re_Start e → ∀ e', e' ∈ ring_Entries r → e' = e).
Proof.
  intros [Hne (Hs & Hn & Hr)] He. unfold rangeEnd. set (es := ring_Entries r) in *.
  pose proof (zget_Some_bound _ _ _ He) as Hidx. rewrite (proj2 (Z.eqb_neq _ _)) by lia.
  rewrite Forall_forall in Hr.
  set (next := (idx + 1) mod zlen es).
  assert (next = idx + 1 ∧ idx + 1 < zlen es ∨ next = 0 ∧ idx + 1 = zlen es) as Hnext.
  { unfold next. destruct (Z.eq_dec (idx + 1) (zlen es)) as [->|].
    - right. by rewrite Z.mod_same by lia.
    - left. rewrite Z.mod_small by lia. lia. }
  destruct (proj2 (zget_is_Some es next) ltac:(lia)) as [e2 He2]. rewrite He2. simpl.
  exists (re_Start e2). split; [done|].
  assert (onRing (re_Start e2)) as Hr2 by (apply Hr; by eapply zget_elem_of).
  assert (onRing (re_Start e)) as Hr1 by (apply Hr; by eapply zget_elem_of).
  split; [done|].
  assert (∀ e', e' ∈ es → ∃ k, zget es k = Some e' ∧ 0 ≤ k < zlen es) as Hpos.
  { intros e' [k Hk]%list_elem_of_lookup_1. exists (Z.of_nat k).
    assert (zget es (Z.of_nat k) = Some e') as Hk'
      by (unfold zget; rewrite bool_decide_true by lia; by rewrite Nat2Z.id).
    split; [done|]. by eapply zget_Some_bound. }
  split.
  - intros e' Hin Hne'. pose proof (Hr e' Hin) as Hr'. destruct (Hpos e' Hin) as (k & Hk & Hkb).
    destruct (sorted_zget es k idx e' e Hs Hk He) as [H1 H2].
    destruct (sorted_zget es k next e' e2 Hs Hk He2) as [H3 H4].
    destruct (sorted_zget es idx next e e2 Hs He He2) as [H5 H6].
    assert (k ≠ idx) by (intros ->; congruence). on_ring_lia.
  - intros Heq e' Hin. destruct (Hpos e' Hin) as (k & Hk & Hkb).
    destruct (sorted_zget es idx next e e2 Hs He He2) as [_ H6].
    assert (k = idx) as -> by lia. congruence.
Qed.

(** A range holds exactly the points its entry is closest below. *)
Lemma range_closest r idx e end_ h : ring_ok r → onRing h → range_at r idx e end_ →
  inRangeExclusive (re_Start e) end_ h = true ↔ closest (ring_Entries r) h e.
Proof.
  intros Hok Hh [He Hend].
  destruct (rangeEnd_total r idx e Hok He) as (x & Hx & Hxr & Hgap & Hsole).
  assert (x = end_) as -> by congruence.
  pose proof (zget_elem_of _ _ _ He) as Hin. destruct Hok as (_ & Hes & Hn & Hr).
  rewrite Forall_forall in Hr. pose proof (Hr e Hin) as Hre.
  destruct (Z.eq_dec end_ (re_Start e)) as [->|Hne].
  { rewrite inRange_full. split; [|done]. intros _. split; [done|].
    intros e' He'. by rewrite (Hsole eq_refl e' He'). }
  rewrite inRange_dist by done. split.
  - intros Hlt. split; [done|]. intros e' Hin'. pose proof (Hr e' Hin').
    destruct (decide (e' = e)) as [->|Hd]; [done|]. specialize (Hgap e' Hin' Hd). on_ring_lia.
  - intros [_ Hclose]. unfold rangeEnd in Hend. destruct (_ =? 0); [done|].
    apply bind_Ret_inv in Hend as (e2 & He2%or_panic_Ret & [= <-]).
    apply zget_elem_of in He2. specialize (Hclose e2 He2). pose proof (Hr e2 He2).
    on_ring_lia.
Qed.

(** C38: the ranges partition the hash space. On a well-formed ring the binary
    search returns for every point, some range contains the point, and the
    search's answer is the shard of a range exactly when that range contains
    the point (so no two ranges do). *)
Theorem RingAssign_partition r h : ring_ok r → onRing h →
  (∃ idx e end_, range_at r idx e end_ ∧ inRangeExclusive (re_Start e) end_ h = true) ∧
  (∀ idx e end_, range_at r idx e end_ →
    inRangeExclusive (re_Start e) end_ h = true ↔ ringAssignPoint r h = Ret (re_Shard e)).
Proof.
  intros Hok Hh. destruct (ringAssignPoint_closest r h Hok Hh) as (e & Hc & Hassign). split.
  - destruct (list_elem_of_lookup_1 _ _ (proj1 Hc)) as [k Hk].
    assert (zget (ring_Entries r) (Z.of_nat k) = Some e) as Hz
      by (unfold zget; rewrite bool_decide_true by lia; by rewrite Nat2Z.id).
    destruct (rangeEnd_total r _ e Hok Hz) as (end_ & Hend & _).
    exists (Z.of_nat k), e, end_. split; [done|]. by apply (range_closest r (Z.of_nat k)).
  - intros idx e' end_ Hra. rewrite (range_closest r idx) by done. rewrite Hassign. split.
    + intros Hc'. by rewrite (closest_unique _ _ _ _ (proj2 Hok) Hh Hc Hc').
    + intros [= Hshard]. destruct Hra as [Hz%zget_elem_of _].
      by rewrite <- (entries_unique _ e e' (proj2 Hok) (proj1 Hc) Hz (or_intror Hshard)).
Qed.

(** ** Validate *)


Lemma sorted_cons2 a b l :
  StronglySorted startLt (a :: b :: l) ↔ startLt a b ∧ StronglySorted startLt (b :: l).
Proof.
  split.
  - intros H. inversion H as [|? ? Hs Hall]; subst. split; [by inversion Hall|done].
  - intros [Hab Hs]. constructor; [done|]. constructor; [done|].
    inversion Hs as [|? ? _ Hall]; subst. rewrite Forall_forall in *. intros x Hx.
    specialize (Hall x Hx). unfold startLt in *. lia.
Qed.

(** [prev] bounds the first entry. *)
Definition after (prev : option RingEntry) (entries : list RingEntry) : Prop :=
  match prev, entries with
  | Some p, e :: _ => startLt p e
  | _, _ => True
  end.

Lemma validateEntries_None entries i prev seen :
  validateEntries entries i prev seen = None ↔
  after prev entries ∧ StronglySorted startLt entries ∧ NoDup (map re_Shard entries) ∧
  ∀ e, e ∈ entries → re_Shard e ∉ seen.
Proof.
  revert i prev seen. induction entries as [|e entries IH]; intros i prev seen; simpl.
  { split; [|done]. intros _. split_and!; [by destruct prev|constructor|constructor|].
    by intros e ?%not_elem_of_nil. }
  rewrite NoDup_cons. destruct (decide (re_Shard e ∈ seen)) as [Hseen|Hseen].
  { split; [done|]. intros (_ & _ & _ & H). exfalso. by apply (H e); [left|]. }
  destruct (match prev with Some p => re_Start e <=? re_Start p | None => false end) eqn:Hprev.
  { split; [done|]. intros (H & _). destruct prev as [p|]; [|done]. simpl in H.
    apply Z.leb_le in Hprev. unfold startLt in H. lia. }
  rewrite IH. assert (match prev with Some p => startLt p e | None => True end) as Hp.
  { destruct prev as [p|]; [|done]. apply Z.leb_gt in Hprev. unfold startLt. lia. }
  split.
  - intros (Haft & Hs & Hn & Hni). split_and!; [by destruct prev| | |done|].
    + destruct entries as [|e2 entries]; [repeat constructor|]. by apply sorted_cons2.
    + intros (x & Hx & Hin)%list_elem_of_fmap. apply (Hni x Hin). set_solver.
    + intros x [->|Hx]%elem_of_cons; [done|]. apply Hni in Hx. set_solver.
  - intros (_ & Hs & [Hnin Hn] & Hni). split_and!; [| |done|].
    + destruct entries as [|e2 entries]; [done|]. by apply sorted_cons2 in Hs as [? _].
    + by inversion Hs.
    + intros x Hx [Heq%elem_of_singleton|Hin]%elem_of_union.
      * apply Hnin. rewrite <- Heq. apply list_elem_of_fmap. eauto.
      * apply (Hni x); [by right|done].
Qed.

Lemma Ring_Validate_ok r : Forall (λ e, onRing (re_Start e)) (ring_Entries r) →
  Ring_Validate r = None ↔ ring_ok r.
Proof.
  intros Hr. unfold Ring_Validate, ring_ok, entries_ok. destruct (ring_Entries r) as [|e es].
  { split; [done|]. by intros []. }
  rewrite validateEntries_None. split; [intros (_ & ? & ? & _)|intros (_ & ? & ? & _)]; split_and!; done || set_solver.
Qed.

(** ** Split *)

Lemma findShard_spec entries s i :
  match findShard entries s i with
  | Some (k, e) => i ≤ k ∧ zget entries (k - i) = Some e ∧ re_Shard e = s
  | None => ∀ e, e ∈ entries → re_Shard e ≠ s
  end.
Proof.
  revert i. induction entries as [|e entries IH]; intros i; simpl; [by intros e ?%not_elem_of_nil|].
  destruct (Z.eqb_spec (re_Shard e) s); [by rewrite Z.sub_diag|].
  specialize (IH (i + 1)). destruct (findShard _ _ _) as [[k e']|].
  - destruct IH as (Hk & Hz & Hs). split_and!; [lia| |done].
    change (e :: entries) with ([e] ++ entries). rewrite zget_app_r; unfold zlen; simpl; [|lia].
    rewrite <- Hz. f_equal. lia.
  - intros x [->|Hx]%elem_of_cons; auto.
Qed.

Lemma NextShardID_above r e : e ∈ ring_Entries r → re_Shard e < NextShardID r.
Proof.
  unfold NextShardID. set (f := λ m e, if m <? re_Shard e then re_Shard e else m).
  assert (∀ l m, m ≤ foldl f m l ∧ ∀ x, x ∈ l → re_Shard x ≤ foldl f m l) as Hf.
  { induction l as [|y l IH]; intros m; simpl; [split; [lia|by intros x ?%not_elem_of_nil]|].
    destruct (IH (f m y)) as [Hm Hl].
    assert (m ≤ f m y ∧ re_Shard y ≤ f m y) as [? ?] by (unfold f; destruct (Z.ltb_spec m (re_Shard y)); lia).
    split; [lia|]. intros x [->|Hx]%elem_of_cons; [lia|by apply Hl]. }
  intros He. apply (Hf _ 0) in He. lia.
Qed.

Lemma sorted_strict l : StronglySorted startLe l → NoDup (map re_Start l) → StronglySorted startLt l.
Proof.
  induction 1 as [|e l _ IH Hall]; intros Hn; [constructor|]. simpl in Hn.
  apply NoDup_cons in Hn as [Hnin Hn]. constructor; [by apply IH|].
  rewrite Forall_forall in *. intros x Hx. specialize (Hall x Hx). unfold startLe, startLt in *.
  enough (re_Start e ≠ re_Start x) by lia. intros Heq. apply Hnin. rewrite Heq.
  apply list_elem_of_fmap. eauto.
Qed.

(** Inserting an entry at a free point keeps a ring well-formed. *)
Lemma insert_entry_ok es p new : entries_ok es → onRing p →
  (∀ e, e ∈ es → re_Start e ≠ p ∧ re_Shard e ≠ new) →
  entries_ok (merge_sort startLe (es ++ [mkRingEntry p new])).
Proof.
  intros Hok Hp Hfree. pose proof Hok as (Hs & Hn & Hr).
  pose proof (merge_sort_Permutation startLe (es ++ [mkRingEntry p new])) as Hperm.
  split_and!.
  - apply sorted_strict; [apply StronglySorted_merge_sort; apply _|].
    rewrite Hperm, map_app. apply NoDup_app. split_and!.
    + apply NoDup_fmap_2_strong; [|by eapply NoDup_fmap_1].
      intros a b Ha Hb Heq. apply (entries_unique es); auto.
    + simpl. intros x (e & -> & He)%list_elem_of_fmap Hx%list_elem_of_singleton.
      destruct (Hfree e He); congruence.
    + apply NoDup_singleton.
  - rewrite Hperm, map_app. apply NoDup_app. split_and!; [done| |apply NoDup_singleton].
    simpl. intros x (e & -> & He)%list_elem_of_fmap Hx%list_elem_of_singleton.
    destruct (Hfree e He); congruence.
  - rewrite Hperm. apply Forall_app. split; [done|]. by apply Forall_singleton.
Qed.

(** The point [p] takes over from its owner [s] the points that follow it. *)
Lemma insert_entry_closest es p new s h e :
  entries_ok es → onRing p → onRing h → (∀ x, x ∈ es → re_Start x ≠ p) →
  closest es p s → closest es h e →
  let es' := merge_sort startLe (es ++ [mkRingEntry p new]) in
  if bool_decide (dist p h < dist (re_Start s) h ∧ e = s)
  then closest es' h (mkRingEntry p new) else closest es' h e.
Proof.
  intros Hok Hp Hh Hfree [Hs Hps] [He Hhe]. simpl.
  pose proof (merge_sort_Permutation startLe (es ++ [mkRingEntry p new])) as Hperm.
  assert (∀ x, x ∈ merge_sort startLe (es ++ [mkRingEntry p new]) ↔ x ∈ es ∨ x = mkRingEntry p new) as Hin
    by (intros x; by rewrite Hperm, elem_of_app, list_elem_of_singleton).
  pose proof (proj2 (proj2 Hok)) as Hr. rewrite Forall_forall in Hr.
  pose proof (Hr _ Hs). pose proof (Hr _ He). pose proof (Hhe _ Hs). pose proof (Hps _ He).
  case_bool_decide as Hd.
  - destruct Hd as [Hlt ->]. split; [apply Hin; by right|].
    intros x [Hx| ->]%Hin; [|simpl; lia]. pose proof (Hhe x Hx). simpl. lia.
  - split; [apply Hin; by left|]. intros x [Hx| ->]%Hin; [by apply Hhe|]. simpl.
    destruct (Z_le_gt_dec (dist (re_Start e) h) (dist p h)) as [|Hgt]; [done|]. exfalso.
    apply Hd. assert (re_Start e = re_Start s) as Heq by on_ring_lia.
    split; [rewrite <- Heq; lia|]. by apply (entries_unique es); auto.
Qed.

(** The shard's range and a point strictly inside it. *)
Definition splits_range (r : Ring) (s p end_ : Z) : Prop :=
  ∃ idx e, range_at r idx e end_ ∧ re_Shard e = s ∧ p ≠ re_Start e ∧
    inRangeExclusive (re_Start e) end_ p = true.

(** A point of a range lies in the part from [p] on or before it. *)
Lemma upper_part r s p end_ idx e h :
  ring_ok r → onRing p → onRing h → range_at r idx e end_ → re_Shard e = s →
  p ≠ re_Start e → inRangeExclusive (re_Start e) end_ p = true →
  inRangeExclusive p end_ h = true ↔
  dist p h < dist (re_Start e) h ∧ closest (ring_Entries r) h e.
Proof.
  intros Hok Hp Hh Hra Hs Hne Hin. rewrite <- (range_closest r idx e end_ h) by done.
  destruct Hra as [He Hend].
  destruct (rangeEnd_total r idx e Hok He) as (x & Hx & Hxr & _). assert (x = end_) as -> by congruence.
  assert (onRing (re_Start e)) as Hre.
  { destruct Hok as (_ & _ & _ & Hr). rewrite Forall_forall in Hr. apply Hr. by eapply zget_elem_of. }
  destruct (Z.eq_dec end_ (re_Start e)) as [->|Hne'].
  - rewrite inRange_full, inRange_dist by done. split; [|intros [? _]]; on_ring_lia.
  - rewrite inRange_dist in Hin by done. assert (p ≠ end_) by (intros ->; lia).
    rewrite !inRange_dist by done. on_ring_lia.
Qed.

(** What Split returns on every ring and argument. *)
Definition Split_post (r : Ring) (s p : Z) (res : outcome (Ring * ShardID + RingError)) : Prop :=
  match res with
  | Ret (inl (r', new)) => ∃ end_, splits_range r s p end_ ∧
      ring_ok r' ∧ (∀ e, e ∈ ring_Entries r → re_Shard e ≠ new) ∧
      ring_Entries r' ≡ₚ mkRingEntry p new :: ring_Entries r ∧
      ∀ h, onRing h →
        ringAssignPoint r' h =
          (if inRangeExclusive p end_ h then Ret new else ringAssignPoint r h) ∧
        (inRangeExclusive p end_ h = true → ringAssignPoint r h = Ret s)
  | Ret (inr _) => ∀ end_, ¬ splits_range r s p end_
  | Panic => False
  end.

Lemma findShard_range r s i e : ring_ok r → findShard (ring_Entries r) s 0 = Some (i, e) →
  zget (ring_Entries r) i = Some e ∧ re_Shard e = s ∧
  ∀ idx e' end_, range_at r idx e' end_ → re_Shard e' = s → idx = i ∧ e' = e.
Proof.
  intros [_ Hes] Hf. pose proof (findShard_spec (ring_Entries r) s 0) as H. rewrite Hf in H.
  destruct H as (_ & Hz & Hs). rewrite Z.sub_0_r in Hz. split_and!; [done|done|].
  intros idx e' end_ [Hz' _] Hs'.
  assert (e' = e) as -> by (apply (entries_unique (ring_Entries r)); [done|by eapply zget_elem_of..|right; congruence]).
  split; [|done]. destruct (sorted_zget _ idx i e e (proj1 Hes) Hz' Hz). lia.
Qed.

Lemma Split_meets r s p : ring_ok r → onRing p → Split_post r s p (Split r s p).
Proof.
  intros Hok Hp. unfold Split. destruct (findShard _ _ _) as [[i e]|] eqn:Hf.
  2:{ intros end_ (idx & e & [He%zget_elem_of _] & Hs & _).
      pose proof (findShard_spec (ring_Entries r) s 0) as H. rewrite Hf in H. by apply (H e). }
  destruct (findShard_range r s i e Hok Hf) as (Hz & Hs & Huniq).
  destruct (rangeEnd_total r i e Hok Hz) as (end_ & Hend & Hend_r & _). rewrite Hend. simpl.
  destruct (Z.eqb_spec p (re_Start e)) as [Hpe|Hpe]; simpl.
  { intros x (idx & e' & Hra & Hs' & Hne & _). by destruct (Huniq idx e' x Hra Hs') as [_ ->]. }
  destruct (inRangeExclusive (re_Start e) end_ p) eqn:Hin; simpl.
  2:{ intros x (idx & e' & Hra & Hs' & _ & Hin'). destruct (Huniq idx e' x Hra Hs') as [-> ->].
      destruct Hra as [_ Hend']. congruence. }
  set (new := NextShardID r). set (es' := merge_sort _ _). exists end_.
  assert (range_at r i e end_) as Hra by done.
  assert (closest (ring_Entries r) p e) as Hcp by (by apply (range_closest r i e end_)).
  assert (∀ x, x ∈ ring_Entries r → re_Start x ≠ p) as Hfree.
  { intros x Hx Heq. destruct Hcp as [He Hc]. specialize (Hc x Hx). apply Hpe.
    destruct Hok as (_ & _ & _ & Hr). rewrite Forall_forall in Hr. pose proof (Hr x Hx).
    pose proof (Hr e He). rewrite Heq in *. on_ring_lia. }
  assert (∀ x, x ∈ ring_Entries r → re_Shard x ≠ new) as Hnew
    by (intros x Hx; pose proof (NextShardID_above r x Hx); unfold new; lia).
  assert (es' ≡ₚ mkRingEntry p new :: ring_Entries r) as Hperm
    by (unfold es'; rewrite merge_sort_Permutation; by rewrite Permutation_app_comm).
  assert (ring_ok (mkRing es')) as Hok'.
  { split; simpl; [intros Hnil; rewrite Hnil in Hperm; by apply Permutation_nil_l in Hperm|].
    apply insert_entry_ok; [apply Hok|done|]. intros x Hx. auto. }
  split; [by exists i, e|]. split_and!; [done|done|done|]. intros h Hh.
  destruct (ringAssignPoint_closest r h Hok Hh) as (e0 & Hc & ->).
  pose proof (insert_entry_closest (ring_Entries r) p new e h e0 (proj2 Hok) Hp Hh Hfree Hcp Hc) as Hins.
  destruct (ringAssignPoint_closest (mkRing es') h Hok' Hh) as (e1 & Hc1 & ->).
  pose proof (upper_part r s p end_ i e h Hok Hp Hh Hra Hs Hpe Hin) as Hup. simpl in *.
  fold es' in Hins. case_bool_decide as Hd.
  - destruct Hd as [Hlt ->]. rewrite (proj2 Hup) by done.
    rewrite (closest_unique es' h e1 (mkRingEntry p new)) by (done || apply Hok').
    split; [done|]. by rewrite Hs.
  - destruct (inRangeExclusive p end_ h).
    + destruct (proj1 Hup eq_refl) as [Hlt Hce]. exfalso. apply Hd. split; [done|].
      by apply (closest_unique (ring_Entries r) h); [apply Hok|..].
    + by rewrite (closest_unique es' h e1 e0) by (done || apply Hok').
Qed.

(** Split takes the upper part of one range and nothing else. On a
    well-formed ring Split returns; it succeeds exactly when the point is
    strictly inside the shard's range. The new ring is well-formed and has one
    more entry, under an id no entry had; every point from the split point up
    to the range's end, all of them the split shard's before, now belongs to
    the new id, and every other point belongs to whom it did. *)
Theorem Split_divides_one_range r s p : ring_ok r → onRing p → Split_post r s p (Split r s p).
Proof. apply Split_meets. Qed.
