(* ===== verification/RingCtrler.v ===== *)
(** * The ring controller (06-hot-shard-splitting/ring_ctrler.go)

    A Raft-replicated history of ring configurations whose operations are
    validated when they are applied: the apply loop with its table of
    verdicts, the no-op proposer, the client operations; and the theorems that
    every version routes every key and that retries get their first answer. *)
From Stdlib Require Import Sorting.Sorted.
From S2P Require Import Prelude Persister Waiters RaftNode ShardConfig Ctrler Ring RingFacts.
Local Open Scope Z_scope.

Record ringOp := mkRingOp {
  ro_Type : string;
  ro_InitRing : Ring;
  ro_InitGroups : gmap Z (list string);
  ro_Shard : Z;
  ro_SplitPoint : Z;
  ro_MoveGID : Z;
  ro_ClientID : Z;
  ro_SeqNum : Z
}.

#[export] Instance ringOp_eq_dec : EqDecision ringOp.
Proof. solve_decision. Defined.

#[export] Instance ringOp_countable : Countable ringOp.
Proof.
  apply (inj_countable'
    (λ o, (ro_Type o, ro_InitRing o, ro_InitGroups o, ro_Shard o, ro_SplitPoint o,
           ro_MoveGID o, ro_ClientID o, ro_SeqNum o))
    (λ '(t, r, g, s, p, m, c, n), mkRingOp t r g s p m c n)).
  by intros [].
Defined.

(** A verdict is a CtrlerErr; [None] is the zero value, the empty string. *)
Abbreviation verdict := (option CtrlerErr).

Record applyResult := mkApplyResult {
  ar_clientID : Z;
  ar_seqNum : Z;
  ar_err : verdict
}.

Record dedupEntry := mkDedupEntry { de_seq : Z; de_err : verdict }.

(** What a missing table entry reads as. *)
Definition noEntry : dedupEntry := mkDedupEntry 0 None.

Record RingCtrler (P : Type) := mkRingCtrler {
  rk_rf : Raft ringOp P;
  rk_configs : list RingConfig;
  rk_waiters : Waiters applyResult;
  rk_duplicateTable : gmap Z dedupEntry;
  rk_noopAppliedTerm : Z
}.
Arguments mkRingCtrler {P} _ _ _ _ _.
Arguments rk_rf {P} _.
Arguments rk_configs {P} _.
Arguments rk_waiters {P} _.
Arguments rk_duplicateTable {P} _.
Arguments rk_noopAppliedTerm {P} _.

Section ring_ctrler.
Context {P : Type} `{!Persister P, !Codec (persistedState ringOp)}.
Abbreviation RingCtrler := (RingCtrler P).
Implicit Type c : RingCtrler.

Definition NewRingCtrler (rf : Raft ringOp P) : RingCtrler :=
  mkRingCtrler rf [zeroRingConfig] noWaiters ∅ 0.

Definition ring_latestLocked c : outcome RingConfig :=
  or_panic (zget (rk_configs c) (zlen (rk_configs c) - 1)).

(** Field assignments. *)
Definition set_rk_configs v c : RingCtrler :=
  mkRingCtrler (rk_rf c) v (rk_waiters c) (rk_duplicateTable c) (rk_noopAppliedTerm c).
Definition set_rk_waiters v c : RingCtrler :=
  mkRingCtrler (rk_rf c) (rk_configs c) v (rk_duplicateTable c) (rk_noopAppliedTerm c).
Definition set_rk_rf v c : RingCtrler :=
  mkRingCtrler v (rk_configs c) (rk_waiters c) (rk_duplicateTable c) (rk_noopAppliedTerm c).

(** The [switch op.Type]: the next version, or why there is none. *)
Inductive RingEffect := RNext (cfg : RingConfig) | RError (err : RingError) | RInitialized | RNothing.

Definition ring_effect (op : ringOp) (cur : RingConfig) : outcome RingEffect :=
  if decide (ro_Type op = "Init"%string) then
    if negb (rc_Num cur =? 0) then Ret RInitialized
    else match NewRingConfig (ro_InitRing op) (ro_InitGroups op) with
         | inl next => Ret (RNext next)
         | inr err => Ret (RError err)
         end
  else if decide (ro_Type op = "Split"%string) then
    res ← SplitConfig cur (ro_Shard op) (ro_SplitPoint op);
    match res with
    | inl (next, _) => Ret (RNext next)
    | inr err => Ret (RError err)
    end
  else if decide (ro_Type op = "Move"%string) then
    match MoveRingShard cur (ro_Shard op) (ro_MoveGID op) with
    | inl next => Ret (RNext next)
    | inr err => Ret (RError err)
    end
  else if decide (ro_Type op = "Noop"%string) then Ret RNothing
  else Panic.

Definition ring_applyOp c (op : ringOp) : outcome (RingCtrler * CtrlerErr) :=
  cur ← ring_latestLocked c;
  effect ← ring_effect op cur;
  match effect with
  | RNext next => Ret (set_rk_configs (rk_configs c ++ [next]) c, CtrlerOK)
  | RNothing => Ret (c, CtrlerOK)
  | RError _ | RInitialized => Ret (c, CtrlerErrInvalidArgs)
  end.

Definition isNoop (op : ringOp) : bool := bool_decide (ro_Type op = "Noop"%string).

(** The locked part of an iteration before the waiter is notified. *)
Definition ring_apply c (op : ringOp) (term : Z) : outcome (RingCtrler * applyResult) :=
  let c := if isNoop op
           then mkRingCtrler (rk_rf c) (rk_configs c) (rk_waiters c) (rk_duplicateTable c) term
           else c in
  let d := default noEntry (rk_duplicateTable c !! ro_ClientID op) in
  if negb (isNoop op) && (ro_SeqNum op <=? de_seq d)
  then Ret (c, mkApplyResult (ro_ClientID op) (ro_SeqNum op) (de_err d))
  else
    '(c, err) ← ring_applyOp c op;
    let c := if isNoop op then c
             else mkRingCtrler (rk_rf c) (rk_configs c) (rk_waiters c)
                    (<[ro_ClientID op := mkDedupEntry (ro_SeqNum op) (Some err)]> (rk_duplicateTable c))
                    (rk_noopAppliedTerm c) in
    Ret (c, mkApplyResult (ro_ClientID op) (ro_SeqNum op) (Some err)).

(** One iteration of applyLoop with the message it received. *)
Definition ring_applyLoop_msg c (msg : ApplyMsg ringOp) : outcome RingCtrler :=
  op ← or_panic (am_Command msg);
  '(c, res) ← ring_apply c op (am_Term msg);
  Ret (set_rk_waiters (notify (rk_waiters c) (am_Index msg) res) c).

Fixpoint ring_applyLoop c (msgs : list (ApplyMsg ringOp)) : outcome RingCtrler :=
  match msgs with
  | [] => Ret c
  | msg :: msgs => c ← ring_applyLoop_msg c msg; ring_applyLoop c msgs
  end.

(** noopLoop: one tick; its critical sections see [c1], [c2], [c3]. *)
Definition ring_noopLoop_tick (c1 c2 c3 : RingCtrler) (lastNoopTerm : Z) :
    outcome (RingCtrler * Z) :=
  match r_state (rk_rf c1) with
  | Leader =>
      let term := r_currentTerm (rk_rf c2) in
      if term =? lastNoopTerm then Ret (c3, lastNoopTerm)
      else
        '(rf, (_, _, isLeader)) ←
          Propose (rk_rf c3) (mkRingOp "Noop" (mkRing []) ∅ 0 0 0 0 0);
        Ret (set_rk_rf rf c3, if isLeader : bool then term else lastNoopTerm)
  | _ => Ret (c3, lastNoopTerm)
  end.

(** proposeAndWait *)

Definition ring_propose c (op : ringOp) (ch : Z) :
    outcome (RingCtrler * (Waiting ringOp + CtrlerErr)) :=
  '(rf, (index, term, isLeader)) ← Propose (rk_rf c) op;
  Ret (set_rk_rf rf c,
       if isLeader : bool then inl (mkWaiting op index term ch) else inr CtrlerErrWrongLeader).

Definition ring_register c (w : Waiting ringOp) : RingCtrler :=
  set_rk_waiters (register (rk_waiters c) w) c.

(** The inner option: the case does not end the wait. *)
Definition ring_select c (w : Waiting ringOp) (sel : SelectCase) : option verdict :=
  match sel with
  | SelNotified =>
      applied ← received (rk_waiters c) w;
      if negb (ar_clientID applied =? ro_ClientID (w_op w)) ||
         negb (ar_seqNum applied =? ro_SeqNum (w_op w))
      then Some (Some CtrlerErrWrongLeader) else Some (ar_err applied)
  | SelDeadline => Some (Some CtrlerErrTimeout)
  | SelLeaderCheck =>
      if negb (r_currentTerm (rk_rf c) =? w_term w) ||
         negb (bool_decide (r_state (rk_rf c) = Leader))
      then Some (Some CtrlerErrWrongLeader) else None
  end.

Definition ring_return c (w : Waiting ringOp) : RingCtrler :=
  set_rk_waiters (unregister (rk_waiters c) w) c.

(** The operations Init, Split and Move hand to proposeAndWait. *)
Definition Init_op (ring : Ring) (groups : gmap Z (list string)) (client seq : Z) : ringOp :=
  mkRingOp "Init" ring groups 0 0 0 client seq.
Definition Split_op (shard point client seq : Z) : ringOp :=
  mkRingOp "Split" (mkRing []) ∅ shard point 0 client seq.
Definition RingMove_op (shard gid client seq : Z) : ringOp :=
  mkRingOp "Move" (mkRing []) ∅ shard 0 gid client seq.

(** Query: State, Term, then the read under the lock. *)
Definition RingQuery (c1 c2 c3 : RingCtrler) (num : Z) : outcome (CtrlerErr * RingConfig) :=
  match r_state (rk_rf c1) with
  | Leader =>
      let term := r_currentTerm (rk_rf c2) in
      if negb (rk_noopAppliedTerm c3 =? term)
      then Ret (CtrlerErrWrongLeader, zeroRingConfig)
      else
        let idx := if (num <? 0) || (zlen (rk_configs c3) <=? num)
                   then zlen (rk_configs c3) - 1 else num in
        cfg ← or_panic (zget (rk_configs c3) idx);
        Ret (CtrlerOK, cfg)
  | _ => Ret (CtrlerErrWrongLeader, zeroRingConfig)
  end.
End ring_ctrler.

(** ** Configurations that route every key *)

Definition routes (cfg : RingConfig) : Prop :=
  ring_ok (rc_Ring cfg) ∧
  dom (rc_Owners cfg) = list_to_set (map re_Shard (ring_Entries (rc_Ring cfg))) ∧
  map_Forall (λ _ gid, is_Some (rc_Groups cfg !! gid)) (rc_Owners cfg).

Lemma HashKey_onRing key : onRing (HashKey key).
Proof.
  unfold HashKey, fnv32a, onRing, hashSpace.
  assert (∀ l h, 0 ≤ h < 2 ^ 32 → 0 ≤ foldl fnv32a_byte h l < 2 ^ 32) as H; [|by apply H].
  induction l as [|b l IH]; intros h Hh; simpl; [done|]. apply IH.
  unfold fnv32a_byte. rewrite Z.land_ones by lia. apply Z.mod_pos_bound. lia.
Qed.

Lemma shard_in_dom cfg e : routes cfg → e ∈ ring_Entries (rc_Ring cfg) →
  ∃ gid, rc_Owners cfg !! re_Shard e = Some gid.
Proof.
  intros (_ & Hdom & _) He. apply elem_of_dom. rewrite Hdom. apply elem_of_list_to_set.
  apply list_elem_of_fmap. eauto.
Qed.

(** A key's shard is an entry of the ring. *)
Lemma RingAssign_entry r key : ring_ok r →
  ∃ e, e ∈ ring_Entries r ∧ RingAssign r key = Ret (re_Shard e).
Proof.
  intros Hok. destruct (ringAssignPoint_closest r (HashKey key) Hok (HashKey_onRing key))
    as (e & [He _] & Heq). by exists e.
Qed.

Lemma routes_lookup cfg key : routes cfg →
  ∃ gid, Lookup cfg key = Ret gid ∧ is_Some (rc_Groups cfg !! gid).
Proof.
  intros Hr. destruct (RingAssign_entry (rc_Ring cfg) key (proj1 Hr)) as (e & He & Ha).
  destruct (shard_in_dom cfg e Hr He) as [gid Hg]. exists gid. unfold Lookup. rewrite Ha. simpl.
  rewrite Hg. split; [done|]. destruct Hr as (_ & _ & Hall). by apply Hall in Hg.
Qed.

Lemma dealOwners_dom gids entries i owners :
  dom (dealOwners gids entries i owners) = list_to_set (map re_Shard entries) ∪ dom owners.
Proof.
  revert i owners. induction entries as [|e entries IH]; intros i owners; simpl; [set_solver|].
  rewrite IH, dom_insert_L. set_solver.
Qed.

Lemma validateOwners_None c entries :
  validateOwners c entries = None → ∀ e, e ∈ entries →
  ∃ gid, rc_Owners c !! re_Shard e = Some gid ∧ default [] (rc_Groups c !! gid) ≠ [].
Proof.
  induction entries as [|e entries IH]; simpl; [by intros _ e ?%not_elem_of_nil|].
  destruct (rc_Owners c !! re_Shard e) as [gid|] eqn:Hg; [|done].
  destruct (Z.eqb_spec (zlen (default [] (rc_Groups c !! gid))) 0) as [|Hne]; [done|].
  intros Hv x [->|Hx]%elem_of_cons; [|by apply IH]. exists gid. split; [done|].
  intros Hnil. by rewrite Hnil in Hne.
Qed.

Lemma NewRingConfig_routes ring groups cfg :
  Forall (λ e, onRing (re_Start e)) (ring_Entries ring) →
  NewRingConfig ring groups = inl cfg →
  routes cfg ∧ rc_Num cfg = 1 ∧ rc_Ring cfg = ring ∧ rc_Groups cfg = groups.
Proof.
  intros Hr. unfold NewRingConfig. destruct (sortedGids groups) as [|g gs]; [done|].
  set (c := mkRingConfig _ _ _ _). destruct (RingConfig_Validate c) as [|] eqn:Hv; [done|].
  intros [= <-]. split; [|done]. unfold RingConfig_Validate in Hv.
  destruct (Ring_Validate (rc_Ring c)) eqn:Hring; [done|].
  apply Ring_Validate_ok in Hring; [|done]. destruct (negb _); [done|].
  pose proof (validateOwners_None c _ Hv) as Ho. unfold routes. split; [done|].
  assert (dom (rc_Owners c) = list_to_set (map re_Shard (ring_Entries (rc_Ring c)))) as Hdom
    by (unfold c; simpl; rewrite dealOwners_dom; set_solver).
  split; [exact Hdom|]. intros s gid Hs.
  assert (s ∈ dom (rc_Owners c)) as Hin by (apply elem_of_dom; eauto).
  rewrite Hdom in Hin. apply elem_of_list_to_set, list_elem_of_fmap in Hin as (e & -> & He).
  destruct (Ho e He) as (gid' & Hg & Hne). assert (gid' = gid) as -> by congruence.
  destruct (rc_Groups c !! gid); [eauto|done].
Qed.

(** What an accepted operation does: the next number, the same groups, and
    only a Move re-routes keys, those of the moved shard. *)
Definition version_step (op : ringOp) (cur next : RingConfig) : Prop :=
  rc_Num next = rc_Num cur + 1 ∧ routes next ∧
  (rc_Num cur ≠ 0 → rc_Groups next = rc_Groups cur ∧
    ∀ key, Lookup next key =
      if bool_decide (ro_Type op = "Move"%string ∧ RingAssign (rc_Ring cur) key = Ret (ro_Shard op))
      then Ret (ro_MoveGID op) else Lookup cur key).

Lemma SplitConfig_routes cfg s p : routes cfg → onRing p →
  ∃ res, SplitConfig cfg s p = Ret res ∧
    ∀ next new, res = inl (next, new) →
      rc_Num next = rc_Num cfg + 1 ∧ routes next ∧ rc_Groups next = rc_Groups cfg ∧
      ∀ key, Lookup next key = Lookup cfg key.
Proof.
  intros (Hok & Hdom & Hall) Hp. unfold SplitConfig.
  destruct (rc_Owners cfg !! s) as [owner|] eqn:Hs; [|by eexists].
  pose proof (Split_meets (rc_Ring cfg) s p Hok Hp) as Hpost. unfold Split_post in Hpost.
  destruct (Split _ _ _) as [[[r' new]|err]|]; [|by eexists|done]. simpl.
  destruct Hpost as (end_ & _ & Hok' & Hfresh & Hperm & Hassign). eexists. split; [done|].
  intros next new' [= <- <-]. simpl.
  assert (rc_Owners cfg !! new = None) as Hnew.
  { apply not_elem_of_dom. rewrite Hdom, elem_of_list_to_set.
    intros (e & -> & He)%list_elem_of_fmap. by apply (Hfresh e He). }
  split_and!; [done| |done|].
  - split_and!; simpl; [done| |].
    + rewrite dom_insert_L, Hdom, Hperm. done.
    + apply map_Forall_insert_2; [by apply Hall in Hs|done].
  - intros key. unfold Lookup, RingAssign. simpl.
    destruct (Hassign (HashKey key) (HashKey_onRing key)) as [-> Hin].
    destruct (inRangeExclusive p end_ (HashKey key)).
    + rewrite (Hin eq_refl). simpl. by rewrite lookup_insert_eq, Hs.
    + destruct (ringAssignPoint_closest (rc_Ring cfg) (HashKey key) Hok (HashKey_onRing key))
        as (e & [He _] & ->). simpl. rewrite lookup_insert_ne; [done|].
      intros Heq. by apply (Hfresh e He).
Qed.

Lemma MoveRingShard_routes cfg s gid next : routes cfg → MoveRingShard cfg s gid = inl next →
  rc_Num next = rc_Num cfg + 1 ∧ routes next ∧ rc_Groups next = rc_Groups cfg ∧
  ∀ key, Lookup next key =
    if bool_decide (RingAssign (rc_Ring cfg) key = Ret s) then Ret gid else Lookup cfg key.
Proof.
  intros (Hok & Hdom & Hall). unfold MoveRingShard.
  destruct (rc_Owners cfg !! s) as [o|] eqn:Hs; [|done].
  destruct (rc_Groups cfg !! gid) eqn:Hg; [|done]. intros [= <-]. simpl.
  split_and!; [done| |done|].
  - split_and!; simpl; [done| |].
    + rewrite dom_insert_L, <- Hdom. assert (s ∈ dom (rc_Owners cfg)) by (apply elem_of_dom; eauto).
      set_solver.
    + apply map_Forall_insert_2; [eauto|done].
  - intros key. unfold Lookup. simpl.
    destruct (RingAssign_entry (rc_Ring cfg) key Hok) as (e & He & ->). simpl.
    case_bool_decide as Hd; [injection Hd as ->; by rewrite lookup_insert_eq|].
    rewrite lookup_insert_ne; [done|]. congruence.
Qed.

(** ** The history *)

(** The machine types of an operation's fields, and a type the switch knows. *)
Definition op_ok (op : ringOp) : Prop :=
  ro_Type op ∈ ["Init"; "Split"; "Move"; "Noop"]%string ∧
  Forall (λ e, onRing (re_Start e)) (ring_Entries (ro_InitRing op)) ∧ onRing (ro_SplitPoint op).

(** Nothing yet, or a version that routes. *)
Definition version_ok (cfg : RingConfig) : Prop :=
  cfg = zeroRingConfig ∨ (0 < rc_Num cfg ∧ routes cfg).

Lemma ring_effect_ok op cur : op_ok op → version_ok cur →
  ∃ effect, ring_effect op cur = Ret effect ∧
    ∀ next, effect = RNext next → version_step op cur next ∧ version_ok next.
Proof.
  intros (Htype & Hring & Hp) Hcur. unfold ring_effect, version_step.
  destruct (decide (ro_Type op = "Init"%string)) as [Ht|N1].
  { destruct (Z.eqb_spec (rc_Num cur) 0) as [H0|]; simpl; [|by eexists].
    destruct (NewRingConfig _ _) as [cfg|] eqn:Hnew; eexists; (split; [done|]); [|done].
    intros next [= <-]. destruct (NewRingConfig_routes _ _ _ Hring Hnew) as (Hr & Hn & _).
    split; [|right; split; [lia|done]]. split_and!; [lia|done|done]. }
  destruct (decide (ro_Type op = "Split"%string)) as [Ht|N2].
  { destruct Hcur as [->|[Hpos Hr]]; [by eexists|].
    destruct (SplitConfig_routes cur (ro_Shard op) (ro_SplitPoint op) Hr Hp) as (res & -> & Hres).
    simpl. destruct res as [[next new]|]; eexists; (split; [done|]); [|done].
    intros next' [= <-]. destruct (Hres next new eq_refl) as (Hn & Hr' & Hg & Hl).
    split; [|right; split; [lia|done]]. split_and!; [done|done|]. intros _. split; [done|].
    intros key. rewrite bool_decide_false; [done|]. rewrite Ht. by intros [? _]. }
  destruct (decide (ro_Type op = "Move"%string)) as [Ht|N3].
  { destruct Hcur as [->|[Hpos Hr]]; [by eexists|].
    destruct (MoveRingShard _ _ _) as [next|] eqn:Hmove; eexists; (split; [done|]); [|done].
    intros next' [= <-]. destruct (MoveRingShard_routes _ _ _ _ Hr Hmove) as (Hn & Hr' & Hg & Hl).
    split; [|right; split; [lia|done]]. split_and!; [done|done|]. intros _. split; [done|].
    intros key. rewrite Hl, Ht.
    destruct (decide (RingAssign (rc_Ring cur) key = Ret (ro_Shard op))) as [Heq|Hne].
    - by rewrite !bool_decide_true.
    - rewrite !bool_decide_false; [done| |done]. by intros [_ ?]. }
  rewrite decide_True; [by eexists|]. rewrite !elem_of_cons in Htype.
  destruct Htype as [?|[?|[?|[?|H]]]]; try done. by apply not_elem_of_nil in H.
Qed.

(** Every version follows from its predecessor by an operation of the log. *)
Definition ring_history (ops : list ringOp) (configs : list RingConfig) : Prop :=
  configs !! 0%nat = Some zeroRingConfig ∧
  ∀ i cur next, configs !! i = Some cur → configs !! S i = Some next →
    ∃ op, op ∈ ops ∧ version_step op cur next.

(** After the empty one, the versions route every key. *)
Lemma ring_history_routes ops configs i cfg key :
  ring_history ops configs → (0 < i)%nat → configs !! i = Some cfg →
  ∃ gid, Lookup cfg key = Ret gid ∧ is_Some (rc_Groups cfg !! gid).
Proof.
  intros [_ Hh] Hi Hcfg. destruct i as [|i]; [lia|].
  destruct (lookup_lt_is_Some_2 configs i) as [cur Hcur]; [apply lookup_lt_Some in Hcfg; lia|].
  destruct (Hh i cur cfg Hcur Hcfg) as (op & _ & _ & Hr & _). by apply routes_lookup.
Qed.

Section history.
Context {P : Type} `{!Persister P, !Codec (persistedState ringOp)}.
Implicit Type c : RingCtrler P.

Definition ringMsg (e : Z * Z * ringOp) : ApplyMsg ringOp :=
  let '(index, term, op) := e in commandMsg index term op.

(** What the apply loop keeps. *)
Definition history_inv (ops : list ringOp) (configs : list RingConfig) : Prop :=
  ring_history ops configs ∧ ∃ cur, last configs = Some cur ∧ version_ok cur.

Lemma ring_history_weaken ops ops' configs :
  ops ⊆ ops' → ring_history ops configs → ring_history ops' configs.
Proof. intros Hsub [H0 H]. split; [done|]. intros i cur next Hi Hn. destruct (H i cur next Hi Hn) as (op & ? & ?). eauto. Qed.

Lemma ring_history_snoc ops configs cur next op :
  ring_history ops configs → last configs = Some cur → op ∈ ops → version_step op cur next →
  ring_history ops (configs ++ [next]).
Proof.
  intros [H0 H] Hlast Hop Hstep. rewrite last_lookup in Hlast.
  split; [by apply lookup_app_l_Some|]. intros i a b Ha [Hb|[Hge Hb]]%lookup_app_Some.
  - apply (H i a b); [|done]. rewrite lookup_app_l in Ha; [done|]. apply lookup_lt_Some in Hb. lia.
  - destruct (S i - length configs)%nat as [|k] eqn:Hk; [|done]. injection Hb as <-.
    exists op. split; [done|].
    assert (pred (length configs) = i) as Hi by lia. rewrite Hi in Hlast.
    rewrite lookup_app_l in Ha by (apply lookup_lt_Some in Hlast; lia). congruence.
Qed.

Lemma ring_latestLocked_eq c cur : last (rk_configs c) = Some cur → ring_latestLocked c = Ret cur.
Proof.
  unfold ring_latestLocked. rewrite or_panic_Ret. unfold zget, zlen. rewrite last_lookup.
  destruct (rk_configs c) as [|x l]; [done|]. rewrite bool_decide_true by (simpl; lia).
  by replace (Z.to_nat (Z.of_nat (length (x :: l)) - 1)) with (pred (length (x :: l))) by (simpl; lia).
Qed.

Lemma ring_apply_inv c op term ops : op_ok op → op ∈ ops → history_inv ops (rk_configs c) →
  ∃ c' res, ring_apply c op term = Ret (c', res) ∧ history_inv ops (rk_configs c').
Proof.
  intros Hop Hin (Hh & cur & Hlast & Hv). unfold ring_apply.
  set (c1 := if isNoop op then _ else c).
  assert (rk_configs c1 = rk_configs c) as Hc1 by (unfold c1; by destruct (isNoop op)).
  clearbody c1. cbv zeta. destruct (_ && _).
  { eexists _, _. split; [done|]. rewrite Hc1. by split; [|exists cur]. }
  unfold ring_applyOp. rewrite (ring_latestLocked_eq c1 cur) by by rewrite Hc1.
  destruct (ring_effect_ok op cur Hop Hv) as (effect & He & Hnext). simpl. rewrite He. simpl.
  destruct effect as [next|err| |]; simpl; eexists _, _; (split; [done|]);
    destruct (isNoop op); simpl; rewrite Hc1; try (by split; [|exists cur]).
  all: destruct (Hnext next eq_refl) as [Hstep Hvn];
    (split; [by eapply ring_history_snoc|exists next; by rewrite last_snoc]).
Qed.

Lemma ring_applyLoop_inv log c ops : Forall op_ok (map snd log) → map snd log ⊆ ops →
  history_inv ops (rk_configs c) →
  ∃ c', ring_applyLoop c (map ringMsg log) = Ret c' ∧ history_inv ops (rk_configs c').
Proof.
  revert c. induction log as [|[[i t] op] log IH]; intros c Hok Hsub Hinv; simpl; [by exists c|].
  inversion Hok as [|? ? Hop Hok']; subst. unfold ring_applyLoop_msg. simpl.
  destruct (ring_apply_inv c op t ops Hop) as (c1 & res & -> & Hinv1); [apply Hsub; by left|done|].
  simpl. apply IH; [done| |done]. intros x Hx. apply Hsub. by right.
Qed.

(** The ring controller's history. On a new controller the apply loop
    gets through every log of Init, Split, Move and Noop entries, whatever
    their arguments. Its versions start at the empty one, each follows from
    the one before by some operation of the log, and every such version is
    numbered one more, is a partition of the hash space with an owner in the
    group map for each shard (so it routes every key), and re-routes no key
    except that a Move sends the keys of its shard to its group. *)
Theorem ring_ctrler_history rf log : Forall op_ok (map snd log) →
  ∃ c', ring_applyLoop (NewRingCtrler rf) (map ringMsg log) = Ret c' ∧
    ring_history (map snd log) (rk_configs c') ∧
    ∀ i cfg key, (0 < i)%nat → rk_configs c' !! i = Some cfg →
      ∃ gid, Lookup cfg key = Ret gid ∧ is_Some (rc_Groups cfg !! gid).
Proof.
  intros Hok. destruct (ring_applyLoop_inv log (NewRingCtrler rf) (map snd log) Hok)
    as (c' & Hrun & Hh & _); [done| |].
  { split; [|exists zeroRingConfig; split; [done|by left]]. split; [done|].
    intros [|i] cur next; simpl; [done|]. by rewrite lookup_nil. }
  exists c'. split_and!; [done|done|]. intros i cfg key. by apply (ring_history_routes _ _ _ _ _ Hh).
Qed.

(** ** Verdicts are remembered *)

Definition entryOf c (client : Z) : dedupEntry := default noEntry (rk_duplicateTable c !! client).

Lemma ring_apply_old c op term : isNoop op = false → ro_SeqNum op ≤ de_seq (entryOf c (ro_ClientID op)) →
  ring_apply c op term =
    Ret (c, mkApplyResult (ro_ClientID op) (ro_SeqNum op) (de_err (entryOf c (ro_ClientID op)))).
Proof. unfold entryOf. intros Hn Hle. unfold ring_apply. rewrite Hn. simpl. by rewrite (proj2 (Z.leb_le _ _) Hle). Qed.

(** Only a newer operation of the same client changes its entry. *)
Lemma ring_apply_entry c op term c' res client : ring_apply c op term = Ret (c', res) →
  isNoop op = true ∨ ro_ClientID op ≠ client ∨ ro_SeqNum op ≤ de_seq (entryOf c client) →
  entryOf c' client = entryOf c client.
Proof.
  intros Hap Hcase. destruct (isNoop op) eqn:Hn.
  - unfold ring_apply in Hap. rewrite Hn in Hap. simpl in Hap.
    apply bind_Ret_inv in Hap as ([c1 e] & Ha & [= <- <-]). unfold ring_applyOp in Ha.
    apply bind_Ret_inv in Ha as (cur & _ & (eff & _ & Hm)%bind_Ret_inv).
    by destruct eff; injection Hm as <- _.
  - destruct (Z_le_gt_dec (ro_SeqNum op) (de_seq (entryOf c (ro_ClientID op)))) as [Hle|Hgt].
    { rewrite ring_apply_old in Hap by done. by injection Hap as <- _. }
    destruct Hcase as [?|Hne]; [done|].
    assert (ro_ClientID op ≠ client) as Hcl by (destruct Hne as [?|Hle]; [done|intros <-; lia]).
    unfold ring_apply in Hap. rewrite Hn in Hap. cbn [negb andb] in Hap.
    rewrite (proj2 (Z.leb_gt _ _)) in Hap by (unfold entryOf in Hgt; lia).
    apply bind_Ret_inv in Hap as ([c1 e] & Ha & [= <- <-]). unfold entryOf. simpl.
    rewrite lookup_insert_ne by done. unfold ring_applyOp in Ha.
    apply bind_Ret_inv in Ha as (cur & _ & (eff & _ & Hm)%bind_Ret_inv).
    by destruct eff; injection Hm as <- _.
Qed.

(** After an operation its client's entry holds its verdict. *)
Lemma ring_apply_records c op term c' res : isNoop op = false →
  ring_apply c op term = Ret (c', res) →
  ro_SeqNum op ≤ de_seq (entryOf c' (ro_ClientID op)) ∧
  de_err (entryOf c' (ro_ClientID op)) = ar_err res.
Proof.
  intros Hn Hap. destruct (Z_le_gt_dec (ro_SeqNum op) (de_seq (entryOf c (ro_ClientID op)))) as [Hle|Hgt].
  { rewrite ring_apply_old in Hap by done. by injection Hap as <- <-. }
  unfold ring_apply in Hap. rewrite Hn in Hap. cbn [negb andb] in Hap.
  rewrite (proj2 (Z.leb_gt _ _)) in Hap by (unfold entryOf in Hgt; lia).
  apply bind_Ret_inv in Hap as ([c1 e] & Ha & [= <- <-]). unfold entryOf. simpl.
  rewrite lookup_insert_eq. simpl. by split; [lia|].
Qed.

(** A retry gets the first answer. After an operation was applied with
    some verdict, and until its client uses a SeqNum above the one the table
    holds, applying any operation of the client with a SeqNum up to that one,
    the same operation again included, changes nothing and answers with that
    verdict. (An older request of the client thus gets the verdict of the
    later one.) *)
Theorem ring_retry_same_verdict c op term c1 res msgs c2 old term' :
  isNoop op = false → ring_apply c op term = Ret (c1, res) →
  let top := de_seq (entryOf c1 (ro_ClientID op)) in
  Forall (λ '(_, _, op'), isNoop op' = true ∨ ro_ClientID op' ≠ ro_ClientID op ∨
    ro_SeqNum op' ≤ top) msgs →
  ring_applyLoop c1 (map ringMsg msgs) = Ret c2 →
  isNoop old = false → ro_ClientID old = ro_ClientID op → ro_SeqNum old ≤ top →
  ro_SeqNum op ≤ top ∧
  ring_apply c2 old term' = Ret (c2, mkApplyResult (ro_ClientID op) (ro_SeqNum old) (ar_err res)).
Proof.
  intros Hn Hap top Hmsgs Hrun Hold Hcl Hle.
  destruct (ring_apply_records c op term c1 res Hn Hap) as [Htop Hverdict]. split; [done|].
  assert (entryOf c2 (ro_ClientID op) = entryOf c1 (ro_ClientID op)) as Hentry.
  { unfold top in Hmsgs. clear Hap Hverdict Htop Hle top. revert c1 Hmsgs Hrun.
    induction msgs as [|[[i t] op'] msgs IH]; intros c1 Hmsgs Hrun; [by injection Hrun as <-|].
    apply Forall_cons in Hmsgs as [Hop' Hmsgs]. simpl in Hrun.
    apply bind_Ret_inv in Hrun as (c3 & H3 & Hrun). unfold ring_applyLoop_msg in H3. simpl in H3.
    apply bind_Ret_inv in H3 as ([c4 r4] & H4 & [= <-]).
    pose proof (ring_apply_entry c1 op' t c4 r4 (ro_ClientID op) H4 Hop') as He.
    set (c5 := set_rk_waiters _ c4) in Hrun.
    assert (entryOf c5 (ro_ClientID op) = entryOf c4 (ro_ClientID op)) as H5 by done.
    rewrite <- He, <- H5 in Hmsgs. by rewrite (IH c5 Hmsgs Hrun), H5. }
  rewrite ring_apply_old; rewrite ?Hcl, ?Hentry; [by rewrite Hverdict|done|done].
Qed.
End history.

(** ** Witnesses *)
Module Witness.
#[local] Instance ring_codec : Codec (persistedState ringOp) := countable_codec.

Definition two : Ring := mkRing [mkRingEntry 0 1; mkRingEntry (2 ^ 31) 2].

Lemma two_ok : ring_ok two.
Proof. apply Ring_Validate_ok; [repeat constructor; vm_compute; done|by vm_compute]. Qed.

Lemma RingAssign_partition_witness :
  ringAssignPoint two 5 = Ret 1 ∧ inRangeExclusive 0 (2 ^ 31) 5 = true.
Proof.
  destruct (RingAssign_partition two 5 two_ok ltac:(by vm_compute)) as [_ H].
  assert (range_at two 0 (mkRingEntry 0 1) (2 ^ 31)) as Hr by (split; by vm_compute).
  specialize (H _ _ _ Hr). simpl in H.
  assert (inRangeExclusive 0 (2 ^ 31) 5 = true) as Hin by by vm_compute.
  split; [by apply H|exact Hin].
Defined.

Lemma Split_divides_witness :
  ∃ r', Split two 2 (3 * 2 ^ 30) = Ret (inl (r', 3)) ∧ ring_ok r' ∧
    ringAssignPoint r' (2 ^ 32 - 1) = Ret 3 ∧ ringAssignPoint r' 7 = ringAssignPoint two 7.
Proof.
  pose proof (Split_divides_one_range two 2 (3 * 2 ^ 30) two_ok ltac:(by vm_compute)) as H.
  assert (Split two 2 (3 * 2 ^ 30) = Ret (inl (mkRing [mkRingEntry 0 1; mkRingEntry (2 ^ 31) 2;
    mkRingEntry (3 * 2 ^ 30) 3], 3))) as Heq by (vm_compute; reflexivity).
  rewrite Heq in H. destruct H as (end_ & (idx & e & Hra & He & _) & Hok & _ & _ & Hall).
  assert (end_ = 0) as ->.
  { destruct Hra as [Hz Hend]. assert (idx = 0 ∨ idx = 1) as [->| ->]
      by (apply zget_Some_bound in Hz; unfold zlen in Hz; simpl in Hz; lia).
    - vm_compute in Hz. injection Hz as <-. done.
    - vm_compute in Hend. by injection Hend. }
  eexists. split; [exact Heq|]. split; [exact Hok|]. split.
  - apply (Hall (2 ^ 32 - 1)). by vm_compute.
  - apply (Hall 7). by vm_compute.
Defined.

Definition groups12 : gmap Z (list string) := {[1 := ["a"%string]; 2 := ["b"%string]]}.
Definition demo_log : list (Z * Z * ringOp) :=
  [(1, 1, mkRingOp "Noop" (mkRing []) ∅ 0 0 0 0 0); (2, 1, Init_op two groups12 9 1);
   (3, 1, Split_op 2 (3 * 2 ^ 30) 9 2); (4, 1, Split_op 2 (3 * 2 ^ 30) 9 2);
   (5, 1, RingMove_op 3 1 9 3)].

Definition demo_rf : Raft ringOp MemoryPersister :=
  mkRaft 0 [1; 2] None Leader 1 0 [] 0 0 [] 5 5 None ∅ ∅ false.

Lemma ring_ctrler_history_witness :
  ∃ c', ring_applyLoop (NewRingCtrler demo_rf) (map ringMsg demo_log) = Ret c' ∧
    ring_history (map snd demo_log) (rk_configs c').
Proof.
  destruct (ring_ctrler_history demo_rf demo_log) as (c' & Hrun & Hh & _).
  - repeat (apply Forall_cons; split); try apply Forall_nil_2;
      (split; [simpl; set_solver|]); (split; [|by vm_compute]); repeat constructor; by vm_compute.
  - exists c'. split; [exact Hrun|exact Hh].
Defined.

Definition state_after (log : list (Z * Z * ringOp)) : RingCtrler MemoryPersister :=
  match ring_applyLoop (NewRingCtrler demo_rf) (map ringMsg log) with
  | Ret c => c | Panic => NewRingCtrler demo_rf end.

Lemma ring_retry_witness :
  ∃ c : RingCtrler MemoryPersister, ring_apply c (Split_op 2 (3 * 2 ^ 30) 9 2) 1 = Ret (c, mkApplyResult 9 2 (Some CtrlerOK)).
Proof.
  set (before := state_after (take 2 demo_log)).
  destruct (returned_Ret (ring_apply before (Split_op 2 (3 * 2 ^ 30) 9 2) 1)
    ltac:(vm_compute; reflexivity)) as [[c1 res] H1].
  assert (res = mkApplyResult 9 2 (Some CtrlerOK) ∧ de_seq (entryOf c1 9) = 2) as [-> Hseq].
  { vm_compute in H1. injection H1 as <- <-. by split. }
  destruct (ring_retry_same_verdict before (Split_op 2 (3 * 2 ^ 30) 9 2) 1 c1 _ [] c1
    (Split_op 2 (3 * 2 ^ 30) 9 2) 1 eq_refl H1 (Forall_nil_2 _) eq_refl eq_refl eq_refl) as [_ Hr].
  { change (2 ≤ de_seq (entryOf c1 9)). rewrite Hseq. lia. }
  exists c1. exact Hr.
Defined.
End Witness.
