(* ===== verification/ReplicatedRings.v ===== *)
(** * The replicated ring controllers

    The controllers of RingCtrler.v as a service on a Raft cluster
    (Replicated.v): under its restrictions on AppendEntries and snapshots they
    hold initial segments of one history whose versions all route every key, and
    no well-formed committed operation stops an apply loop. *)
From S2P Require Import Prelude Persister Dedup Waiters RaftNode RaftFacts RaftVotes RaftLog RaftDemo RaftCluster RaftDivergence RaftGhost RaftSafety RaftCommitted Replicated ShardConfig Ctrler Ring RingFacts RingCtrler.
Local Open Scope Z_scope.

(** ** The machine *)

Definition RingState : Type := list RingConfig * gmap Z dedupEntry.

(** What applying one operation does to history and table of verdicts. *)
Definition ring_step (st : RingState) (op : ringOp) : option RingState :=
  if negb (isNoop op) && (ro_SeqNum op <=? de_seq (default noEntry (st.2 !! ro_ClientID op)))
  then Some st
  else
    cur ← last st.1;
    effect ← to_option (ring_effect op cur);
    let '(configs, err) :=
      match effect with
      | RNext next => (st.1 ++ [next], CtrlerOK)
      | RNothing => (st.1, CtrlerOK)
      | RError _ | RInitialized => (st.1, CtrlerErrInvalidArgs)
      end in
    Some (configs,
          if isNoop op then st.2
          else <[ro_ClientID op := mkDedupEntry (ro_SeqNum op) (Some err)]> st.2).

#[export] Instance ring_machine : Machine ringOp RingState := {
  m_init := ([zeroRingConfig], ∅);
  m_step := ring_step
}.

Lemma ring_run_prefix ops (st st' : RingState) :
  run_from (Some st) ops = Some st' → st.1 `prefix_of` st'.1.
Proof.
  revert st. induction ops as [|op ops IH]; intros st; [by intros [= <-]|].
  rewrite run_from_cons. simpl. unfold ring_step. destruct (_ && _); [apply IH|].
  destruct (last st.1) as [cur|]; simpl; [|by rewrite run_from_None].
  destruct (ring_effect _ _) as [effect|]; simpl; [|by rewrite run_from_None].
  destruct effect; intros H%IH; (etransitivity; [|exact H]); simpl; try done. by apply prefix_app_r.
Qed.

(** ** The server *)

Section server.
Context {P : Type} `{!Persister P, !PersisterLaws P, !Codec (persistedState ringOp)}.
Abbreviation Raft := (Raft ringOp P).
Abbreviation RingCtrler := (RingCtrler P).
Implicit Type c : RingCtrler.

#[export] Instance ring_server : Server ringOp P RingCtrler RingState := {
  srv_rf := rk_rf;
  srv_with := set_rk_rf;
  srv_state c := (rk_configs c, rk_duplicateTable c);
  srv_noop := rk_noopAppliedTerm;
  srv_good _ := True;
  srv_snap _ _ := False;
  srv_process := ring_applyLoop_msg;
  srv_boot r c := c = NewRingCtrler r
}.

Lemma ring_latest c cur : ring_latestLocked c = Ret cur ↔ last (rk_configs c) = Some cur.
Proof.
  split; [|apply ring_latestLocked_eq]. intros H.
  destruct (last (rk_configs c)) as [cur'|] eqn:Hl.
  - apply ring_latestLocked_eq in Hl. congruence.
  - apply last_None in Hl. unfold ring_latestLocked in H. by rewrite Hl in H.
Qed.

Lemma ring_apply_step c op term c' res :
  ring_apply c op term = Ret (c', res) →
  ring_step (rk_configs c, rk_duplicateTable c) op = Some (rk_configs c', rk_duplicateTable c') ∧
  rk_rf c' = rk_rf c ∧
  (rk_noopAppliedTerm c' = rk_noopAppliedTerm c ∨ rk_noopAppliedTerm c' = term).
Proof.
  unfold ring_apply, ring_step. simpl.
  set (c1 := if isNoop op then _ else c).
  assert (rk_configs c1 = rk_configs c ∧ rk_duplicateTable c1 = rk_duplicateTable c ∧
    rk_rf c1 = rk_rf c ∧
    (rk_noopAppliedTerm c1 = rk_noopAppliedTerm c ∨ rk_noopAppliedTerm c1 = term))
    as (<- & <- & <- & Hno) by (unfold c1; destruct (isNoop op); auto).
  cbv zeta. destruct (_ && _); [by intros [= <- _]|].
  intros ([c2 err] & H2 & [= <- _])%bind_Ret_inv. unfold ring_applyOp in H2.
  apply bind_Ret_inv in H2 as (cur & ->%ring_latest & (effect & He & H2)%bind_Ret_inv). simpl.
  rewrite He. simpl. destruct effect; injection H2 as <- <-; simpl; by destruct (isNoop op).
Qed.

Lemma ring_msg_inv c m c' :
  ring_applyLoop_msg c m = Ret c' → ∃ op c1 res, am_Command m = Some op ∧
    ring_apply c op (am_Term m) = Ret (c1, res) ∧
    c' = set_rk_waiters (notify (rk_waiters c1) (am_Index m) res) c1.
Proof.
  unfold ring_applyLoop_msg.
  intros (op & Hop%or_panic_Ret & ([c1 res] & H1 & [= <-])%bind_Ret_inv)%bind_Ret_inv. by exists op, c1, res.
Qed.

#[export] Instance ring_server_laws : ServerLaws ring_machine ring_server.
Proof.
  split; simpl.
  - done.
  - done.
  - intros c m c' (op & c1 & res & _ & (_ & Hr & _)%ring_apply_step & ->)%ring_msg_inv. by left.
  - intros c i t op c' _ (op' & c1 & res & [= <-] & (Hs & Hr & Hn)%ring_apply_step & ->)%ring_msg_inv.
    split_and!; [done|done|done|by left].
  - intros c st data n t c' _ [].
  - intros r c ->. done.
Qed.

#[export] Instance ring_server_total : ServerTotal ring_machine ring_server.
Proof.
  split; simpl; [|by intros ? ? ? ? ? []|by intros r _; eexists].
  intros c i t op st _ Hs _. unfold ring_applyLoop_msg. simpl.
  assert (returned (ring_apply c op t) = true) as [[c' res] ->]%returned_Ret; [|done].
  revert Hs. unfold ring_step, ring_apply. simpl.
  set (c1 := if isNoop op then _ else c).
  assert (rk_configs c1 = rk_configs c ∧ rk_duplicateTable c1 = rk_duplicateTable c) as [<- <-]
    by (unfold c1; by destruct (isNoop op)).
  destruct (_ && _); [done|]. unfold ring_applyOp. intros (cur & Hcur & Hs)%bind_Some.
  rewrite (proj2 (ring_latest c1 cur) Hcur). simpl. destruct (ring_effect op cur) as [effect|]; [|done].
  simpl. by destruct effect.
Qed.

(** Well-formed operations keep the history well-formed. *)
Lemma ring_run_inv (rf : Raft) all ops (st : RingState) :
  Forall op_ok ops → ops ⊆ all → history_inv all st.1 →
  ∃ st', run_from (Some st) ops = Some st' ∧ history_inv all st'.1.
Proof.
  revert st. induction ops as [|op ops IH]; intros st Hok Hsub Hinv; [by exists st|].
  apply Forall_cons in Hok as [Hop Hok].
  destruct (ring_apply_inv (mkRingCtrler rf st.1 noWaiters st.2 0) op 0 all Hop)
    as (c' & res & (Hs & _)%ring_apply_step & Hinv'); [apply Hsub; by left|done|].
  rewrite run_from_cons. destruct st as [configs dup]. simpl in *. rewrite Hs.
  apply IH; [done| |done]. intros y Hy. apply Hsub. by right.
Qed.

(** The empty history. *)
Lemma history_inv_init all : history_inv all [zeroRingConfig].
Proof.
  split; [|exists zeroRingConfig; split; [done|by left]]. split; [done|].
  intros [|k] cur next; simpl; [done|]. by rewrite lookup_nil.
Qed.
End server.

(** ** One history *)

Section agreement.
Context {P : Type} `{!Persister P, !PersisterLaws P, !Codec (persistedState ringOp)}.
Abbreviation RingCtrler := (RingCtrler P).
Abbreviation Machines := (Machines (Op:=ringOp) (P:=P) (Srv:=RingCtrler)).
Context (members : list Z) (Hnodup : NoDup members) (Hids : ∀ i, i ∈ members → 0 ≤ i).
Implicit Type x : Machines.

Lemma machine_ring_history x Ld i r a :
  machines_ok members x Ld → c_nodes x.1 !! i = Some r → x.2 !! i = Some a →
  Forall op_ok (opsOf x.1) → history_inv (opsOf x.1) (rk_configs (rp_srv a)).
Proof.
  intros Hok Hi Ha Hops. destruct (replica_state members x Ld i r a Hok Hi Ha) as [_ Hrun].
  assert (upto (rp_index a) (opsOf x.1) ⊆ opsOf x.1) as Hsub
    by (intros y Hy; eapply elem_of_prefix; [done|apply upto_prefix]).
  destruct (ring_run_inv r (opsOf x.1) (upto (rp_index a) (opsOf x.1)) m_init)
    as (st' & Hst' & Hinv); [|done|apply history_inv_init|].
  - apply Forall_forall. intros y Hy%Hsub. by eapply Forall_forall in Hops.
  - unfold run_ops in Hrun. rewrite Hst' in Hrun. by injection Hrun as ->.
Qed.

(** C39: one history of ring configurations. In the runs of Replicated.v - no
    AppendEntries overtaken by a later one is delivered, no snapshot behind what a
    node has applied is installed and no entry is handed over while a snapshot
    waits - two controllers, at the same or different moments, have histories one
    of which is a prefix of the other. Where the committed operations are
    well-formed, each history's versions follow from one another by committed
    operations and, after the empty one, route every key; and on storage whose
    saves succeed the apply loop returns from whatever message is next on its
    channel. *)
Theorem ring_controllers_share_history `{!PersisterTotal P} x x' i j r r' a b :
  machines_reachable members x → rtc machine_step x x' →
  c_nodes x.1 !! i = Some r → x.2 !! i = Some a →
  c_nodes x'.1 !! j = Some r' → x'.2 !! j = Some b →
  (rk_configs (rp_srv a) `prefix_of` rk_configs (rp_srv b) ∨
   rk_configs (rp_srv b) `prefix_of` rk_configs (rp_srv a)) ∧
  (Forall op_ok (opsOf x.1) →
   ring_history (opsOf x.1) (rk_configs (rp_srv a)) ∧
   (∀ k cfg key, (0 < k)%nat → rk_configs (rp_srv a) !! k = Some cfg →
      ∃ gid, Lookup cfg key = Ret gid ∧ is_Some (rc_Groups cfg !! gid)) ∧
   ∀ m q, rp_queue a = m :: q →
     ∃ c', ring_applyLoop_msg (set_rk_rf r (rp_srv a)) m = Ret c').
Proof.
  intros (Ld & Hok)%(machines_reachable_ok members Hnodup Hids) Hrtc Hi Ha Hj Hb. split.
  { destruct (replicas_comparable members Hnodup Hids x x' Ld i j r r' a b)
      as (ops & [[_ H]|[_ H]]); [done..|left|right]; by apply ring_run_prefix in H. }
  intros Hops. pose proof (machine_ring_history x Ld i r a Hok Hi Ha Hops) as Hinv.
  destruct (ring_run_inv r (opsOf x.1) (opsOf x.1) m_init Hops) as (st & Hst & _);
    [done|apply history_inv_init|].
  destruct (never_panics members x Ld i r a Hok) as (_ & Hmsg & _); [by exists st|done|done|].
  split_and!; [apply Hinv| |].
  - intros k cfg key. by apply (ring_history_routes (opsOf x.1)), Hinv.
  - intros m q Hq. by apply returned_Ret, (Hmsg m q).
Qed.
End agreement.

(** ** Witness *)
Module Witness.
Import RingCtrler.Witness.
#[local] Existing Instance ring_codec.

Abbreviation RingMachines :=
  (Machines (Op:=ringOp) (P:=MemoryPersister) (Srv:=RingCtrler MemoryPersister)).
Abbreviation Acts := (list (Action (Cmd:=ringOp) + ApplyAct)).

(** Node 0 is elected, commits an Init and a Split with node 1 and applies the
    first; node 1 hears of it and applies both. *)
Definition commit_split : Acts :=
  map inl [ ATimeout 0; ABeginElection; ADeliver 0; AVoteReply 0 0; APropose 0 (Init_op two groups12 9 1);
    APropose 0 (Split_op 2 (3 * 2 ^ 30) 9 2); AReplicate 0 1; ADeliver 0; AReply 0 ] ++
  map inr [ETake 0; EProcess 0; ETake 0].
Definition follow : Acts :=
  map inl [AReplicate 0 1; ADeliver 0] ++ map inr [ETake 1; EProcess 1; ETake 1; EProcess 1].

Definition boot : RingMachines := fresh_machines Demo.members NewRingCtrler.
Definition split_committed : RingMachines := default boot (perform_machines boot commit_split).
Definition followed : RingMachines := default boot (perform_machines split_committed follow).

Lemma split_reachable : machines_reachable Demo.members split_committed.
Proof.
  exists boot. split; [by apply fresh_machines_init|].
  apply (perform_machines_sound commit_split). vm_compute. reflexivity.
Qed.

Lemma rings_followed_after : rtc machine_step split_committed followed.
Proof. apply (perform_machines_sound follow). vm_compute. reflexivity. Qed.

Lemma split_ops : opsOf split_committed.1 = [Init_op two groups12 9 1; Split_op 2 (3 * 2 ^ 30) 9 2].
Proof. vm_compute. reflexivity. Qed.

Lemma split_ops_ok : Forall op_ok [Init_op two groups12 9 1; Split_op 2 (3 * 2 ^ 30) 9 2].
Proof.
  repeat (apply Forall_cons; split); try apply Forall_nil_2;
    (split; [simpl; set_solver|]); (split; [|by vm_compute]); repeat constructor; by vm_compute.
Qed.

Definition node_of (x : RingMachines) (i : Z) := default demo_rf (c_nodes x.1 !! i).
Definition replica_of (x : RingMachines) (i : Z) :=
  default (mkReplica (NewRingCtrler demo_rf) 0 []) (x.2 !! i).

(** Node 0 is behind node 1, and will get through its Split. *)
Lemma ring_controllers_share_history_witness :
  length (rk_configs (rp_srv (replica_of split_committed 0))) = 2%nat ∧
  length (rk_configs (rp_srv (replica_of followed 1))) = 3%nat ∧
  (rk_configs (rp_srv (replica_of split_committed 0)) `prefix_of` rk_configs (rp_srv (replica_of followed 1)) ∨
   rk_configs (rp_srv (replica_of followed 1)) `prefix_of` rk_configs (rp_srv (replica_of split_committed 0))) ∧
  ∃ m q c', rp_queue (replica_of split_committed 0) = m :: q ∧
    ring_applyLoop_msg (set_rk_rf (node_of split_committed 0) (rp_srv (replica_of split_committed 0))) m = Ret c'.
Proof.
  destruct (ring_controllers_share_history Demo.members (proj1 RaftSafety.Witness.members_ok)
    (proj2 RaftSafety.Witness.members_ok) split_committed followed 0 1 (node_of split_committed 0)
    (node_of followed 1) (replica_of split_committed 0) (replica_of followed 1)
    split_reachable rings_followed_after) as [Hp Hops]; [vm_compute; reflexivity..|].
  rewrite split_ops in Hops. destruct (Hops split_ops_ok) as (_ & _ & Hmsg).
  split; [vm_compute; reflexivity|]. split; [vm_compute; reflexivity|]. split; [exact Hp|].
  assert (zlen (rp_queue (replica_of split_committed 0)) = 1) as Hlen by (vm_compute; reflexivity).
  destruct (rp_queue (replica_of split_committed 0)) as [|m q]; [discriminate Hlen|].
  destruct (Hmsg m q eq_refl) as [c' Hc]. exists m, q, c'. split; [reflexivity|exact Hc].
Defined.
End Witness.
