(* ===== verification/Clerk.v ===== *)
(** * Clients that retry (02-kv-store/clerk.go, 03-connection-pooling/client.go,
      05-sharded-kv/ctrler_clerk.go, 06-hot-shard-splitting/ring_clerk.go)

    Every clerk of the repository asks the servers in turn until one answers
    definitively. The loop is defined once, over a world [W] that holds the
    servers and everything that runs beside the clerk: a call and a sleep each
    return the world they leave. *)
From S2P Require Import Prelude Persister Dedup Waiters RaftNode KVServer ShardConfig Ctrler Ring RingCtrler.
Local Open Scope Z_scope.

(** What a reply means to the loop: return, try the next server, or (Move of
    ctrler_clerk.go, the [default] of ring_clerk.go) give up. *)
Inductive judgement (A : Type) :=
| Answer (a : A)
| TryNext
| Reject.
Arguments Answer {A} a.
Arguments TryNext {A}.
Arguments Reject {A}.

(** ** The round-robin loop *)

Section retry.
Context {W Srv Req Reply A : Type}.
(** One call: [None] is a Go error other than nil. *)
Variable call : Srv → Req → W → option Reply * W.
Variable sleep : W → W.
(** The index the next round starts from. *)
Variable startIndex : W → Z.
Variable judge : Reply → judgement A.
Variable servers : list Srv.
Variable req : Req.

(** [for i := ..; i < len(servers); i++]: the [k] iterations from [i] on. *)
Fixpoint sweep (start : Z) (k : nat) (i : Z) (w : W) : outcome (W * option (Z * A)) :=
  match k with
  | O => Ret (w, None)
  | S k =>
      let idx := Z.rem (start + i) (zlen servers) in
      srv ← or_panic (zget servers idx);
      let '(reply, w) := call srv req w in
      match judge <$> reply with
      | Some (Answer a) => Ret (w, Some (idx, a))
      | Some Reject => Panic
      | Some TryNext | None => sweep start k (i + 1) w
      end
  end.

(** [for { ... time.Sleep(...) }]; [None]: not returned within [fuel] rounds. *)
Fixpoint retry (fuel : nat) (w : W) : option (outcome (W * (Z * A))) :=
  match fuel with
  | O => None
  | S fuel =>
      match sweep (startIndex w) (length servers) 0 w with
      | Panic => Some Panic
      | Ret (w, Some answer) => Some (Ret (w, answer))
      | Ret (w, None) => retry fuel (sleep w)
      end
  end.
End retry.

(** ** 02-kv-store/clerk.go *)

Record Clerk (Srv : Type) := mkClerk {
  ck_servers : list Srv;
  ck_clientID : Z;
  ck_seqNum : Z;
  ck_lastKnown : Z
}.
Arguments mkClerk {Srv} _ _ _ _.
Arguments ck_servers {Srv} _.
Arguments ck_clientID {Srv} _.
Arguments ck_seqNum {Srv} _.
Arguments ck_lastKnown {Srv} _.

(** [n]: the number drawn from crypto/rand. *)
Definition NewClerk {Srv} (servers : list Srv) (n : Z) : Clerk Srv := mkClerk servers n 0 0.

Definition judgeGet (reply : GetReply) : judgement string :=
  match gr_Err reply with
  | OK => Answer (gr_Value reply)
  | ErrNoKey => Answer ""%string
  | _ => TryNext
  end.

Definition judgePutAppend (reply : Err) : judgement unit :=
  match reply with
  | OK => Answer tt
  | _ => TryNext
  end.

Section clerk.
Context {W Srv : Type}.
Variable callGet : Srv → string → W → option GetReply * W.
Variable callPutAppend : Srv → PutAppendArgs → W → option Err * W.
Variable sleep : W → W.
Implicit Type ck : Clerk Srv.

Definition Clerk_Get (fuel : nat) ck (key : string) (w : W) :
    option (outcome (W * Clerk Srv * string)) :=
  res ← retry callGet sleep (λ _, ck_lastKnown ck) judgeGet (ck_servers ck) key fuel w;
  Some ('(w, (idx, value)) ← res;
        Ret (w, mkClerk (ck_servers ck) (ck_clientID ck) (ck_seqNum ck) idx, value)).

Definition Clerk_putAppend (fuel : nat) ck (key value op : string) (w : W) :
    option (outcome (W * Clerk Srv)) :=
  let seqNum := ck_seqNum ck + 1 in
  let args := mkPutAppendArgs key value op (ck_clientID ck) seqNum in
  res ← retry callPutAppend sleep (λ _, ck_lastKnown ck) judgePutAppend (ck_servers ck) args fuel w;
  Some ('(w, (idx, _)) ← res;
        Ret (w, mkClerk (ck_servers ck) (ck_clientID ck) seqNum idx)).

(** A program that writes one (op, key, value) after the other. *)
Fixpoint Clerk_writes (fuel : nat) ck (writes : list (string * string * string)) (w : W) :
    option (outcome (W * Clerk Srv)) :=
  match writes with
  | [] => Some (Ret (w, ck))
  | (op, key, value) :: writes =>
      res ← Clerk_putAppend fuel ck key value op w;
      match res with
      | Ret (w, ck) => Clerk_writes fuel ck writes w
      | Panic => Some Panic
      end
  end.
End clerk.

(** ** 03-connection-pooling/client.go

    The shared client: its lastKnown, which concurrent calls also set, is part
    of the world and read again in every round; writeMu makes the writes of one
    client a sequence, so seqNum is a field. *)

Record client := mkClient {
  cl_addrs : list string;
  cl_clientID : Z;
  cl_seqNum : Z
}.

Definition newClient (addrs : list string) (n : Z) : client := mkClient addrs n 0.

Section client.
Context {W : Type}.
Variable callGet : string → string → W → option GetReply * W.
Variable callPutAppend : string → PutAppendArgs → W → option Err * W.
Variable sleep : W → W.
Variable startIndex : W → Z.
Variable setLastKnown : Z → W → W.
Implicit Type c : client.

Definition client_Get (fuel : nat) c (key : string) (w : W) : option (outcome (W * string)) :=
  res ← retry callGet sleep startIndex judgeGet (cl_addrs c) key fuel w;
  Some ('(w, (idx, value)) ← res; Ret (setLastKnown idx w, value)).

Definition client_putAppend (fuel : nat) c (key value op : string) (w : W) :
    option (outcome (W * client)) :=
  let c := mkClient (cl_addrs c) (cl_clientID c) (cl_seqNum c + 1) in
  let args := mkPutAppendArgs key value op (cl_clientID c) (cl_seqNum c) in
  res ← retry callPutAppend sleep startIndex judgePutAppend (cl_addrs c) args fuel w;
  Some ('(w, (idx, _)) ← res; Ret (setLastKnown idx w, c)).
End client.

(** ** 05-sharded-kv/ctrler_clerk.go *)

Record CtrlerClerk (Srv : Type) := mkCtrlerClerk {
  cc_servers : list Srv;
  cc_clientID : Z;
  cc_seqNum : Z;
  cc_lastKnown : Z
}.
Arguments mkCtrlerClerk {Srv} _ _ _ _.
Arguments cc_servers {Srv} _.
Arguments cc_clientID {Srv} _.
Arguments cc_seqNum {Srv} _.
Arguments cc_lastKnown {Srv} _.

Definition NewCtrlerClerk {Srv} (servers : list Srv) (n : Z) : CtrlerClerk Srv :=
  mkCtrlerClerk servers n 0 0.

Definition judgeJoinLeave (reply : CtrlerErr) : judgement unit :=
  match reply with
  | CtrlerOK => Answer tt
  | _ => TryNext
  end.

Definition judgeMove (reply : CtrlerErr) : judgement unit :=
  match reply with
  | CtrlerOK => Answer tt
  | CtrlerErrInvalidArgs => Reject
  | _ => TryNext
  end.

Definition judgeQuery (reply : QueryReply) : judgement Config :=
  match qr_Err reply with
  | CtrlerOK => Answer (qr_Config reply)
  | _ => TryNext
  end.

Section ctrlerClerk.
Context {W Srv : Type}.
Variable callJoin : Srv → JoinArgs → W → option CtrlerErr * W.
Variable callLeave : Srv → LeaveArgs → W → option CtrlerErr * W.
Variable callMove : Srv → MoveArgs → W → option CtrlerErr * W.
Variable callQuery : Srv → Z → W → option QueryReply * W.
Variable sleep : W → W.
Implicit Type ck : CtrlerClerk Srv.

(** The loop all four share; a write has taken its SeqNum already. *)
Definition cc_retry {Req Reply A} (call : Srv → Req → W → option Reply * W)
    (judge : Reply → judgement A) ck (args : Req) (fuel : nat) (w : W) :
    option (outcome (W * CtrlerClerk Srv * A)) :=
  res ← retry call sleep (λ _, cc_lastKnown ck) judge (cc_servers ck) args fuel w;
  Some ('(w, (idx, a)) ← res;
        Ret (w, mkCtrlerClerk (cc_servers ck) (cc_clientID ck) (cc_seqNum ck) idx, a)).

Definition cc_nextSeq ck : CtrlerClerk Srv :=
  mkCtrlerClerk (cc_servers ck) (cc_clientID ck) (cc_seqNum ck + 1) (cc_lastKnown ck).

Definition CtrlerClerk_Join (fuel : nat) ck (groups : gmap Z (list string)) (w : W) :=
  let ck := cc_nextSeq ck in
  cc_retry callJoin judgeJoinLeave ck (mkJoinArgs groups (cc_clientID ck) (cc_seqNum ck)) fuel w.

Definition CtrlerClerk_Leave (fuel : nat) ck (gids : list Z) (w : W) :=
  let ck := cc_nextSeq ck in
  cc_retry callLeave judgeJoinLeave ck (mkLeaveArgs gids (cc_clientID ck) (cc_seqNum ck)) fuel w.

Definition CtrlerClerk_Move (fuel : nat) ck (shard gid : Z) (w : W) :=
  let ck := cc_nextSeq ck in
  cc_retry callMove judgeMove ck (mkMoveArgs shard gid (cc_clientID ck) (cc_seqNum ck)) fuel w.

Definition CtrlerClerk_Query (fuel : nat) ck (num : Z) (w : W) :=
  cc_retry callQuery judgeQuery ck num fuel w.
End ctrlerClerk.
