(* ===== verification/Cache.v ===== *)
(** * The read cache in front of a store (04-caching/cache.go)

    The cache's own heap (list elements and flights are shared, mutable
    objects named by integers), its operations split at the points where they
    release the lock, and the system of all its concurrent callers. *)
From S2P Require Import Prelude.
Local Open Scope Z_scope.

(** ** Data *)

Record Stats := mkStats {
  Hits : Z;
  Misses : Z;
  Evictions : Z;
  Expirations : Z;
  Invalidations : Z;
  Coalesced : Z;
  StaleFillsDiscarded : Z
}.

Definition noStats : Stats := mkStats 0 0 0 0 0 0 0.

(** Any int can be passed; only the two constants are policies. *)
Definition WritePolicy := Z.
Definition WriteInvalidate : WritePolicy := 0.
Definition WriteThrough : WritePolicy := 1.

(** The store and the clock are arguments of the operations that use them. *)
Record Options := mkOptions {
  opt_Capacity : Z;
  opt_TTL : Z;
  opt_WritePolicy : WritePolicy
}.

Record entry := mkEntry { e_key : string; e_value : string; e_expires : Z }.

#[export] Instance entry_eq_dec : EqDecision entry.
Proof. solve_decision. Defined.

Record flight := mkFlight {
  f_done : bool;
  f_value : string;
  f_ok : bool;
  f_stale : bool
}.

(** [c_elems] holds the list's elements, [c_order] the list itself, front
    first; [c_flights] the flights ever made. *)
Record Cache := mkCache {
  c_capacity : Z;
  c_ttl : Z;
  c_policy : WritePolicy;
  c_entries : gmap string Z;
  c_elems : gmap Z entry;
  c_order : list Z;
  c_nextElem : Z;
  c_inflight : gmap string Z;
  c_flights : gmap Z flight;
  c_nextFlight : Z;
  c_stats : Stats
}.

Definition New (opts : Options) : outcome Cache :=
  if opt_Capacity opts <? 1 then Panic
  else if opt_TTL opts <? 0 then Panic
  else if negb (opt_WritePolicy opts =? WriteInvalidate) &&
          negb (opt_WritePolicy opts =? WriteThrough) then Panic
  else Ret (mkCache (opt_Capacity opts) (opt_TTL opts) (opt_WritePolicy opts)
              ∅ ∅ [] 0 ∅ ∅ 0 noStats).

(** ** The fields an operation assigns *)

Definition set_lru (entries : gmap string Z) (elems : gmap Z entry) (order : list Z) (next : Z)
    (stats : Stats) (c : Cache) : Cache :=
  mkCache (c_capacity c) (c_ttl c) (c_policy c) entries elems order next
    (c_inflight c) (c_flights c) (c_nextFlight c) stats.

Definition set_flights (inflight : gmap string Z) (flights : gmap Z flight) (next : Z)
    (stats : Stats) (c : Cache) : Cache :=
  mkCache (c_capacity c) (c_ttl c) (c_policy c) (c_entries c) (c_elems c) (c_order c) (c_nextElem c)
    inflight flights next stats.

Definition count_hit (s : Stats) : Stats :=
  mkStats (Hits s + 1) (Misses s) (Evictions s) (Expirations s) (Invalidations s) (Coalesced s)
    (StaleFillsDiscarded s).
Definition count_miss (s : Stats) : Stats :=
  mkStats (Hits s) (Misses s + 1) (Evictions s) (Expirations s) (Invalidations s) (Coalesced s)
    (StaleFillsDiscarded s).
Definition count_eviction (s : Stats) : Stats :=
  mkStats (Hits s) (Misses s) (Evictions s + 1) (Expirations s) (Invalidations s) (Coalesced s)
    (StaleFillsDiscarded s).
Definition count_expiration (s : Stats) : Stats :=
  mkStats (Hits s) (Misses s) (Evictions s) (Expirations s + 1) (Invalidations s) (Coalesced s)
    (StaleFillsDiscarded s).
Definition count_invalidation (s : Stats) : Stats :=
  mkStats (Hits s) (Misses s) (Evictions s) (Expirations s) (Invalidations s + 1) (Coalesced s)
    (StaleFillsDiscarded s).
Definition count_coalesced (s : Stats) : Stats :=
  mkStats (Hits s) (Misses s) (Evictions s) (Expirations s) (Invalidations s) (Coalesced s + 1)
    (StaleFillsDiscarded s).
Definition count_discarded (s : Stats) : Stats :=
  mkStats (Hits s) (Misses s) (Evictions s) (Expirations s) (Invalidations s) (Coalesced s)
    (StaleFillsDiscarded s + 1).

(** ** Operations under the lock; [now] is what the clock answers *)

(** container/list: Remove, MoveToFront. *)
Definition listRemove (n : Z) (l : list Z) : list Z := filter (λ m, m ≠ n) l.
Definition moveToFront (n : Z) (l : list Z) : list Z := n :: listRemove n l.

(** [c.now()]; the zero time when no TTL is configured. *)
Definition cache_now (c : Cache) (now : Z) : Z := if c_ttl c =? 0 then 0 else now.

Definition expiredLocked (c : Cache) (now : Z) (e : entry) : bool :=
  if c_ttl c =? 0 then false else negb (now <? e_expires e).

Definition insertLocked (c : Cache) (key value : string) (fetchStart : Z) : outcome Cache :=
  let expires := if 0 <? c_ttl c then fetchStart + c_ttl c else 0 in
  match c_entries c !! key with
  | Some n =>
      Ret (set_lru (c_entries c) (<[n := mkEntry key value expires]> (c_elems c))
             (moveToFront n (c_order c)) (c_nextElem c) (c_stats c) c)
  | None =>
      let n := c_nextElem c in
      let elems := <[n := mkEntry key value expires]> (c_elems c) in
      let entries := <[key := n]> (c_entries c) in
      let order := n :: c_order c in
      if c_capacity c <? zlen order then
        oldest ← or_panic (last order);
        e ← or_panic (elems !! oldest);
        Ret (set_lru (delete (e_key e) entries) elems (listRemove oldest order) (n + 1)
               (count_eviction (c_stats c)) c)
      else Ret (set_lru entries elems order (n + 1) (c_stats c) c)
  end.

Definition invalidateLocked (c : Cache) (key : string) : Cache :=
  match c_entries c !! key with
  | Some n =>
      set_lru (delete key (c_entries c)) (c_elems c) (listRemove n (c_order c)) (c_nextElem c)
        (count_invalidation (c_stats c)) c
  | None => c
  end.

Definition markStaleLocked (c : Cache) (key : string) : Cache :=
  match c_inflight c !! key with
  | Some f =>
      let mark fl := mkFlight (f_done fl) (f_value fl) (f_ok fl) true in
      set_flights (delete key (c_inflight c)) (alter mark f (c_flights c)) (c_nextFlight c)
        (c_stats c) c
  | None => c
  end.

(** ** Get and lead, between two acquisitions of the lock *)

Inductive GetResult :=
| GotHit (value : string)
| GotJoin (f : Z)
| GotLead (f : Z) (start : Z).

(** The miss path, once an expired entry is gone. *)
Definition Get_miss (c : Cache) (key : string) (now : Z) : Cache * GetResult :=
  let stats := count_miss (c_stats c) in
  match c_inflight c !! key with
  | Some f =>
      (set_flights (c_inflight c) (c_flights c) (c_nextFlight c) (count_coalesced stats) c, GotJoin f)
  | None =>
      let f := c_nextFlight c in
      (set_flights (<[key := f]> (c_inflight c)) (<[f := mkFlight false "" false false]> (c_flights c))
         (f + 1) stats c, GotLead f (cache_now c now))
  end.

(** One turn of Get's loop up to the unlock. The clock is read for the expiry
    check ([now1]) and again for the start of the fetch ([now2]). *)
Definition Get_locked (c : Cache) (key : string) (now1 now2 : Z) : outcome (Cache * GetResult) :=
  match c_entries c !! key with
  | Some n =>
      e ← or_panic (c_elems c !! n);
      if negb (expiredLocked c now1 e) then
        Ret (set_lru (c_entries c) (c_elems c) (moveToFront n (c_order c)) (c_nextElem c)
               (count_hit (c_stats c)) c, GotHit (e_value e))
      else
        let c := set_lru (delete key (c_entries c)) (c_elems c) (listRemove n (c_order c))
                   (c_nextElem c) (count_expiration (c_stats c)) c in
        Ret (Get_miss c key now2)
  | None => Ret (Get_miss c key now2)
  end.

(** A waiter looks at a closed flight; [None]: go round the loop again. *)
Definition Get_joined (c : Cache) (f : Z) : option string :=
  match c_flights c !! f with
  | Some fl => if f_ok fl then Some (f_value fl) else None
  | None => None
  end.

(** lead, after the Store answered [v]. *)
Definition lead_fill (c : Cache) (key : string) (f : Z) (start : Z) (v : string) : outcome Cache :=
  fl ← or_panic (c_flights c !! f);
  let c := set_flights (c_inflight c)
             (<[f := mkFlight (f_done fl) v true (f_stale fl)]> (c_flights c))
             (c_nextFlight c) (c_stats c) c in
  if f_stale fl
  then Ret (set_lru (c_entries c) (c_elems c) (c_order c) (c_nextElem c)
              (count_discarded (c_stats c)) c)
  else insertLocked c key v start.

(** lead's deferred cleanup, also run when the Store panicked; closing the
    channel comes after the unlock. *)
Definition lead_detach (c : Cache) (key : string) (f : Z) : Cache :=
  if decide (c_inflight c !! key = Some f)
  then set_flights (delete key (c_inflight c)) (c_flights c) (c_nextFlight c) (c_stats c) c
  else c.
Definition lead_close (c : Cache) (f : Z) : Cache :=
  set_flights (c_inflight c)
    (alter (λ fl, mkFlight true (f_value fl) (f_ok fl) (f_stale fl)) f (c_flights c))
    (c_nextFlight c) (c_stats c) c.

(** ** Put and Append, after the Store's answer *)

Definition Put_locked (c : Cache) (key value : string) (start : Z) : outcome Cache :=
  let c := markStaleLocked c key in
  if c_policy c =? WriteThrough then insertLocked c key value start
  else Ret (invalidateLocked c key).

Definition Append_locked (c : Cache) (key : string) : Cache :=
  invalidateLocked (markStaleLocked c key) key.

Definition Len (c : Cache) : Z := zlen (c_order c).

(** ** Every interleaving of callers *)

(** What one goroutine is doing. [d] is a ghost: how many writes to its key had
    completed when it called. *)
Inductive Reader :=
| RCall (key : string) (d : nat)
| RJoin (key : string) (d : nat) (f : Z)
| RLead (key : string) (d : nat) (f : Z) (start : Z)
| RFetched (key : string) (d : nat) (f : Z) (start : Z) (v : string)
| RFilled (key : string) (d : nat) (f : Z) (ret : option string)
| RDetached (key : string) (d : nat) (f : Z) (ret : option string)
| RDone (key : string) (d : nat) (ret : option string).

(** The holder of writeMu. *)
Record Writer := mkWriter {
  w_put : bool;            (* Put, else Append *)
  w_key : string;
  w_value : string;
  w_start : Z;
  w_landed : bool          (* the Store has it *)
}.

(** The values each key has had in the store, oldest first, and how many of
    the writes that made them have returned from the cache. *)
Record System := mkSystem {
  sy_cache : Cache;
  sy_store : gmap string string;
  sy_readers : gmap nat Reader;
  sy_writer : option Writer;
  sy_versions : gmap string (list string);
  sy_completed : gmap string nat
}.

Definition versionsOf (s : System) (key : string) : list string :=
  default [""%string] (sy_versions s !! key).
Definition completedOf (s : System) (key : string) : nat := default 0%nat (sy_completed s !! key).
Definition storeGet (store : gmap string string) (key : string) : string := default "" (store !! key).

Definition set_reader (t : nat) (r : Reader) (c : Cache) (s : System) : System :=
  mkSystem c (sy_store s) (<[t := r]> (sy_readers s)) (sy_writer s) (sy_versions s) (sy_completed s).

Definition landValue (w : Writer) (old : string) : string :=
  if w_put w then w_value w else old +:+ w_value w.

Inductive cache_step : System → System → Prop :=
| cs_call s t key : sy_readers s !! t = None →
    cache_step s (set_reader t (RCall key (completedOf s key)) (sy_cache s) s)
| cs_locked s t key d now1 now2 c r : sy_readers s !! t = Some (RCall key d) →
    Get_locked (sy_cache s) key now1 now2 = Ret (c, r) →
    cache_step s (set_reader t
      match r with
      | GotHit v => RDone key d (Some v)
      | GotJoin f => RJoin key d f
      | GotLead f start => RLead key d f start
      end c s)
| cs_joined s t key d f fl : sy_readers s !! t = Some (RJoin key d f) →
    c_flights (sy_cache s) !! f = Some fl → f_done fl = true →
    cache_step s (set_reader t
      match Get_joined (sy_cache s) f with
      | Some v => RDone key d (Some v)
      | None => RCall key d
      end (sy_cache s) s)
| cs_fetch s t key d f start : sy_readers s !! t = Some (RLead key d f start) →
    cache_step s (set_reader t (RFetched key d f start (storeGet (sy_store s) key)) (sy_cache s) s)
| cs_fetch_panics s t key d f start : sy_readers s !! t = Some (RLead key d f start) →
    cache_step s (set_reader t (RFilled key d f None) (sy_cache s) s)
| cs_fill s t key d f start v c : sy_readers s !! t = Some (RFetched key d f start v) →
    lead_fill (sy_cache s) key f start v = Ret c →
    cache_step s (set_reader t (RFilled key d f (Some v)) c s)
| cs_detach s t key d f ret : sy_readers s !! t = Some (RFilled key d f ret) →
    cache_step s (set_reader t (RDetached key d f ret) (lead_detach (sy_cache s) key f) s)
| cs_close s t key d f ret : sy_readers s !! t = Some (RDetached key d f ret) →
    cache_step s (set_reader t (RDone key d ret) (lead_close (sy_cache s) f) s)
| cs_write s w : sy_writer s = None → w_landed w = false →
    cache_step s (mkSystem (sy_cache s) (sy_store s) (sy_readers s) (Some w) (sy_versions s)
                    (sy_completed s))
| cs_land s w : sy_writer s = Some w → w_landed w = false →
    let v := landValue w (storeGet (sy_store s) (w_key w)) in
    cache_step s (mkSystem (sy_cache s) (<[w_key w := v]> (sy_store s)) (sy_readers s)
      (Some (mkWriter (w_put w) (w_key w) (w_value w) (w_start w) true))
      (<[w_key w := versionsOf s (w_key w) ++ [v]]> (sy_versions s)) (sy_completed s))
| cs_written s w c : sy_writer s = Some w → w_landed w = true →
    (if w_put w then Put_locked (sy_cache s) (w_key w) (w_value w) (w_start w) = Ret c
     else Append_locked (sy_cache s) (w_key w) = c) →
    cache_step s (mkSystem c (sy_store s) (sy_readers s) None (sy_versions s)
      (<[w_key w := (length (versionsOf s (w_key w)) - 1)%nat]> (sy_completed s))).
