(* ===== verification/CacheFacts.v ===== *)
(** * Properties of the read cache

    The map and the linked list of the cache implement a bounded list in order
    of recency; and with every interleaving of readers and writers no Get
    returns a value older than the last write that completed before it began. *)
From S2P Require Import Prelude Cache.
Local Open Scope Z_scope.

(** ** The abstract cache: a list of entries, most recently used first *)

Definition without (key : string) (l : list entry) : list entry :=
  filter (λ e, e_key e ≠ key) l.
Definition lru_get (key : string) (l : list entry) : option entry :=
  head (filter (λ e, e_key e = key) l).

Definition elemOf (c : Cache) (n : Z) : entry := default (mkEntry "" "" 0) (c_elems c !! n).
Definition contents (c : Cache) : list entry := elemOf c <$> c_order c.

Record cache_ok (c : Cache) : Prop := {
  co_nodup : NoDup (c_order c);
  co_elem n : n ∈ c_order c → is_Some (c_elems c !! n) ∧ c_entries c !! e_key (elemOf c n) = Some n;
  co_entry k n : c_entries c !! k = Some n → n ∈ c_order c ∧ e_key (elemOf c n) = k;
  co_fresh n : n ∈ c_order c → n < c_nextElem c;
  co_capacity : zlen (c_order c) ≤ c_capacity c
}.

Lemma listRemove_elem n m l : m ∈ listRemove n l ↔ m ∈ l ∧ m ≠ n.
Proof. unfold listRemove. rewrite list_elem_of_filter. tauto. Qed.

Lemma listRemove_absent n l : n ∉ l → listRemove n l = l.
Proof.
  unfold listRemove. induction l as [|m l IH]; intros Hn; [done|].
  apply not_elem_of_cons in Hn as [? ?]. rewrite filter_cons, decide_True by congruence. by rewrite IH.
Qed.

Lemma listRemove_last l n : NoDup (l ++ [n]) → listRemove n (l ++ [n]) = l.
Proof.
  intros (_ & Hd & _)%NoDup_app. unfold listRemove. rewrite filter_app, filter_cons, filter_nil.
  rewrite decide_False by (intros H; by apply H). rewrite app_nil_r.
  apply listRemove_absent. intros Hin. apply (Hd n Hin). by left.
Qed.

Lemma zlen_filter_le {A} (P : A → Prop) `{!∀ x, Decision (P x)} (l : list A) : zlen (filter P l) ≤ zlen l.
Proof. unfold zlen. pose proof (length_filter P l). lia. Qed.

(** Taking a node out of the list takes its key out of the contents. *)
Lemma without_listRemove c k n l : cache_ok c → l ⊆ c_order c → c_entries c !! k = Some n →
  without k (elemOf c <$> l) = elemOf c <$> listRemove n l.
Proof.
  intros Hok Hsub Hk. induction l as [|m l IH]; [done|].
  unfold without, listRemove in *. rewrite fmap_cons, !filter_cons, IH by (intros x ?; apply Hsub; by right).
  assert (e_key (elemOf c m) = k ↔ m = n) as Hiff.
  { split; [|intros ->; by apply (co_entry c Hok)]. intros <-.
    destruct (co_elem c Hok m) as [_ Hm]; [apply Hsub; by left|congruence]. }
  repeat case_decide; naive_solver.
Qed.

Lemma without_absent c k : cache_ok c → c_entries c !! k = None → without k (contents c) = contents c.
Proof.
  intros Hok Hk. unfold without, contents.
  assert (∀ l, l ⊆ c_order c → filter (λ e, e_key e ≠ k) (elemOf c <$> l) = elemOf c <$> l) as H;
    [|by apply H].
  induction l as [|m l IH]; intros Hsub; [done|]. rewrite fmap_cons, filter_cons.
  rewrite decide_True, IH; [done|intros x ?; apply Hsub; by right|].
  intros <-. destruct (co_elem c Hok m) as [_ Hm]; [apply Hsub; by left|congruence].
Qed.

(** The map finds what the list holds. *)
Lemma lru_get_contents c k : cache_ok c →
  lru_get k (contents c) = elemOf c <$> c_entries c !! k.
Proof.
  intros Hok. unfold lru_get, contents. destruct (c_entries c !! k) as [n|] eqn:Hk.
  - destruct (co_entry c Hok k n Hk) as [Hin Hkey].
    assert (∀ l, n ∈ l → l ⊆ c_order c →
      head (filter (λ e, e_key e = k) (elemOf c <$> l)) = Some (elemOf c n)) as H; [|by apply H].
    induction l as [|m l IH]; intros Hn Hsub; [by apply not_elem_of_nil in Hn|].
    rewrite fmap_cons, filter_cons. case_decide as Hm.
    + destruct (co_elem c Hok m) as [_ Hm']; [apply Hsub; by left|]. rewrite Hm in Hm'. simpl. congruence.
    + apply IH; [|intros x ?; apply Hsub; by right]. apply elem_of_cons in Hn as [->|]; [done|done].
  - destruct (filter _ _) as [|e l] eqn:Hf; [done|].
    assert (e ∈ e :: l) as He by (by left). rewrite <- Hf in He.
    apply list_elem_of_filter in He as [Hkey (n & -> & Hn)%list_elem_of_fmap].
    destruct (co_elem c Hok n Hn) as [_ Hn']. congruence.
Qed.

(** ** Operations on the list part *)

(** Dropping the node of a key. *)
Lemma drop_key_ok c k n stats : cache_ok c → c_entries c !! k = Some n →
  let c' := set_lru (delete k (c_entries c)) (c_elems c) (listRemove n (c_order c)) (c_nextElem c) stats c in
  cache_ok c' ∧ contents c' = without k (contents c).
Proof.
  intros Hok Hk. simpl. destruct (co_entry c Hok k n Hk) as [Hin Hkey]. split.
  - split; simpl.
    + apply NoDup_filter, Hok.
    + intros m [Hm Hne]%listRemove_elem. destruct (co_elem c Hok m Hm) as [? Hm'].
      split; [done|]. unfold elemOf in *. simpl. rewrite lookup_delete_ne; [done|]. intros Heq. congruence.
    + intros k' m [Hne Hm]%lookup_delete_Some. destruct (co_entry c Hok k' m Hm) as [? Hkm].
      split; [|done]. apply listRemove_elem. split; [done|]. intros ->. congruence.
    + intros m [Hm _]%listRemove_elem. by apply (co_fresh c Hok).
    + pose proof (co_capacity c Hok). pose proof (zlen_filter_le (λ m, m ≠ n) (c_order c)).
      unfold listRemove. lia.
  - unfold contents at 2. by rewrite (without_listRemove c k n) by done.
Qed.

(** Using the node of a key. *)
Lemma touch_ok c k n e stats : cache_ok c → c_entries c !! k = Some n → e_key e = k →
  let c' := set_lru (c_entries c) (<[n := e]> (c_elems c)) (moveToFront n (c_order c)) (c_nextElem c) stats c in
  cache_ok c' ∧ contents c' = e :: without k (contents c).
Proof.
  intros Hok Hk He. simpl. destruct (co_entry c Hok k n Hk) as [Hin Hkey].
  set (c' := set_lru _ _ _ _ _ c).
  assert (∀ m, m ≠ n → elemOf c' m = elemOf c m) as Hother
    by (intros m Hm; unfold elemOf; simpl; by rewrite lookup_insert_ne).
  assert (elemOf c' n = e) as Hn by (unfold elemOf; simpl; by rewrite lookup_insert_eq).
  assert (∀ m, m ∈ moveToFront n (c_order c) ↔ m ∈ c_order c) as Hmem.
  { intros m. unfold moveToFront. rewrite elem_of_cons, listRemove_elem.
    destruct (decide (m = n)) as [->|]; tauto. }
  split.
  - split.
    + simpl. apply NoDup_cons. split; [by intros [_ ?]%listRemove_elem|]. apply NoDup_filter, Hok.
    + intros m Hm%Hmem. destruct (decide (m = n)) as [->|Hne].
      * rewrite Hn, He. split; [simpl; rewrite lookup_insert_eq; eauto|done].
      * rewrite Hother by done. simpl. rewrite lookup_insert_ne by done. by apply (co_elem c Hok).
    + intros k' m Hm. simpl in Hm. destruct (co_entry c Hok k' m Hm) as [Hmi Hmk].
      split; [by apply Hmem|]. destruct (decide (m = n)) as [->|Hne]; [congruence|].
      by rewrite Hother.
    + intros m Hm%Hmem. by apply (co_fresh c Hok).
    + simpl. unfold moveToFront. rewrite zlen_cons.
      pose proof (zlen_without (c_order c) n (co_nodup c Hok) Hin). pose proof (co_capacity c Hok).
      unfold listRemove. lia.
  - unfold contents at 2. rewrite (without_listRemove c k n) by done.
    unfold contents. change (c_order c') with (n :: listRemove n (c_order c)).
    rewrite fmap_cons, Hn. f_equal. apply list_fmap_ext. intros i m Hm.
    apply Hother. apply list_elem_of_lookup_2, listRemove_elem in Hm. tauto.
Qed.

(** What insertLocked leaves alone. *)
Definition same_flights (c c' : Cache) : Prop :=
  c_capacity c' = c_capacity c ∧ c_ttl c' = c_ttl c ∧ c_policy c' = c_policy c ∧
  c_inflight c' = c_inflight c ∧ c_flights c' = c_flights c ∧ c_nextFlight c' = c_nextFlight c.

(** The abstract insertion: to the front, and the least recently used out. *)
Definition expiryOf (c : Cache) (start : Z) : Z := if 0 <? c_ttl c then start + c_ttl c else 0.
Definition lru_insert (c : Cache) (key value : string) (start : Z) (l : list entry) : list entry :=
  take (Z.to_nat (c_capacity c)) (mkEntry key value (expiryOf c start) :: without key l).

(** A new node in front, before any eviction. *)
Lemma push_front_ok c e stats : cache_ok c → c_entries c !! e_key e = None →
  zlen (c_order c) < c_capacity c →
  let n := c_nextElem c in
  let c' := set_lru (<[e_key e := n]> (c_entries c)) (<[n := e]> (c_elems c)) (n :: c_order c) (n + 1) stats c in
  cache_ok c' ∧ contents c' = e :: contents c.
Proof.
  intros Hok Hk Hcap. simpl. set (n := c_nextElem c). set (c' := set_lru _ _ _ _ _ c).
  assert (n ∉ c_order c) as Hnin by (intros H%(co_fresh c Hok); unfold n in H; lia).
  assert (∀ m, m ∈ c_order c → elemOf c' m = elemOf c m) as Hother.
  { intros m Hm. unfold elemOf. simpl. rewrite lookup_insert_ne; [done|]. by intros <-. }
  assert (elemOf c' n = e) as Hn by (unfold elemOf; simpl; by rewrite lookup_insert_eq).
  split.
  - split.
    + simpl. apply NoDup_cons. split; [done|]. apply Hok.
    + intros m [->|Hm]%elem_of_cons.
      * rewrite Hn. simpl. by rewrite !lookup_insert_eq.
      * destruct (co_elem c Hok m Hm) as [? Hmk]. rewrite Hother by done. simpl.
        rewrite lookup_insert_ne by (by intros <-). split; [done|]. rewrite lookup_insert_ne; [done|].
        intros Heq. congruence.
    + intros k' m Hkm. simpl in Hkm. apply lookup_insert_Some in Hkm as [[<- <-]|[Hne Hm]]; [split; [by left|by rewrite Hn]|].
      destruct (co_entry c Hok k' m Hm) as [Hmi Hmk]. split; [by right|by rewrite Hother].
    + intros m [->|Hm]%elem_of_cons; simpl; [lia|]. apply (co_fresh c Hok) in Hm. unfold n. lia.
    + simpl. rewrite zlen_cons. lia.
  - unfold contents. change (c_order c') with (n :: c_order c). rewrite fmap_cons, Hn. f_equal.
    apply list_fmap_ext. intros i m Hm. apply Hother. by eapply list_elem_of_lookup_2.
Qed.

(** Evicting the back node before pushing gives the same cache as after. *)
Lemma insertLocked_meets c key value start : cache_ok c → 1 ≤ c_capacity c →
  ∃ c', insertLocked c key value start = Ret c' ∧ cache_ok c' ∧ same_flights c c' ∧
    contents c' = lru_insert c key value start (contents c).
Proof.
  intros Hok Hcap1. unfold insertLocked, lru_insert. fold (expiryOf c start). set (e := mkEntry key value _).
  destruct (c_entries c !! key) as [n|] eqn:Hk.
  { destruct (touch_ok c key n e (c_stats c) Hok Hk eq_refl) as [Hok' Hc']. eexists. split; [done|].
    split; [exact Hok'|]. split; [done|]. etrans; [exact Hc'|]. rewrite take_ge; [done|].
    rewrite <- Hc'. unfold contents. rewrite length_fmap. pose proof (co_capacity _ Hok') as Hl.
    unfold zlen in Hl. simpl in *. lia. }
  rewrite (without_absent c key) by done. rewrite zlen_cons.
  destruct (Z.ltb_spec (c_capacity c) (zlen (c_order c) + 1)) as [Hfull|Hroom].
  2:{ destruct (push_front_ok c e (c_stats c) Hok Hk ltac:(lia)) as [Hok' Hc']. eexists. split; [done|].
      split; [exact Hok'|]. split; [done|]. etrans; [exact Hc'|]. rewrite take_ge; [done|].
      rewrite <- Hc'. unfold contents. rewrite length_fmap. pose proof (co_capacity _ Hok') as Hl.
      unfold zlen in Hl. simpl in *. lia. }
  pose proof (co_capacity c Hok) as Hle.
  destruct (c_order c) as [|o l _] eqn:Horder using rev_ind; [unfold zlen in *; simpl in *; lia|].
  change (c_nextElem c :: l ++ [o]) with ((c_nextElem c :: l) ++ [o]). rewrite last_snoc. simpl.
  assert (o ∈ c_order c) as Hoin by (rewrite Horder; apply elem_of_app; right; by left).
  destruct (co_elem c Hok o Hoin) as [[eo Heo] Hok_o].
  assert (o < c_nextElem c) as Hon by by apply (co_fresh c Hok).
  assert (elemOf c o = eo) as Helo by (unfold elemOf; by rewrite Heo).
  rewrite lookup_insert_ne by lia. rewrite Heo. simpl. eexists. split; [done|].
  rewrite Helo in Hok_o.
  destruct (drop_key_ok c (e_key eo) o (c_stats c) Hok Hok_o) as [Hok1 Hc1].
  set (c1 := set_lru (delete _ _) _ _ _ _ c) in *.
  assert (NoDup (l ++ [o])) as Hnd by (rewrite <- Horder; apply Hok).
  assert (c_order c1 = l) as Ho1 by (unfold c1; simpl; rewrite Horder; by apply listRemove_last).
  assert (key ≠ e_key eo) as Hkne by congruence.
  destruct (push_front_ok c1 e (count_eviction (c_stats c)) Hok1) as [Hok2 Hc2].
  { unfold c1. simpl. by rewrite lookup_delete_ne. }
  { rewrite Ho1. unfold c1. simpl. rewrite zlen_app in *. unfold zlen in *. simpl in *. lia. }
  replace (set_lru (delete (e_key eo) (<[key:=c_nextElem c]> (c_entries c))) _ _ _ _ c)
    with (set_lru (<[e_key e := c_nextElem c1]> (c_entries c1)) (<[c_nextElem c1 := e]> (c_elems c1))
            (c_nextElem c1 :: c_order c1) (c_nextElem c1 + 1) (count_eviction (c_stats c)) c1).
  2:{ rewrite Ho1. unfold c1. cbn [set_lru c_nextElem c_entries c_elems e_key e c_capacity c_ttl c_policy
        c_inflight c_flights c_nextFlight].
      change (c_nextElem c :: l ++ [o]) with ((c_nextElem c :: l) ++ [o]).
      rewrite delete_insert_ne by done. unfold set_lru. simpl. f_equal.
      symmetry. change (c_nextElem c :: l ++ [o]) with ((c_nextElem c :: l) ++ [o]).
      apply listRemove_last. simpl. apply NoDup_cons. split; [|done].
      rewrite <- Horder. intros H%(co_fresh c Hok). lia. }
  split; [exact Hok2|]. split; [done|]. rewrite Hc2.
  assert (contents c1 = elemOf c <$> l) as ->.
  { unfold contents. rewrite Ho1. by apply list_fmap_ext. }
  unfold contents. rewrite Horder, fmap_app, app_comm_cons, take_app_length'; [done|].
  simpl. rewrite length_fmap. rewrite zlen_app in *. unfold zlen in *. simpl in *. lia.
Qed.

Lemma set_flights_ok i fl n st c : cache_ok c → cache_ok (set_flights i fl n st c).
Proof. by intros []. Qed.

Lemma set_stats_ok c st : cache_ok c →
  cache_ok (set_lru (c_entries c) (c_elems c) (c_order c) (c_nextElem c) st c).
Proof. by intros []. Qed.

Lemma invalidateLocked_meets c key : cache_ok c →
  cache_ok (invalidateLocked c key) ∧ same_flights c (invalidateLocked c key) ∧
  contents (invalidateLocked c key) = without key (contents c).
Proof.
  intros Hok. unfold invalidateLocked. destruct (c_entries c !! key) as [n|] eqn:Hk.
  - destruct (drop_key_ok c key n (count_invalidation (c_stats c)) Hok Hk) as [? ?]. done.
  - by rewrite without_absent.
Qed.

Lemma Get_miss_lru c key now : cache_ok c →
  cache_ok (Get_miss c key now).1 ∧ contents (Get_miss c key now).1 = contents c ∧
  c_capacity (Get_miss c key now).1 = c_capacity c.
Proof. intros Hok. unfold Get_miss. destruct (c_inflight c !! key); simpl; (split; [by apply set_flights_ok|done]). Qed.

(** A turn of Get on the list. *)
Definition Get_lru (c : Cache) (key : string) (now1 : Z) (c' : Cache) (r : GetResult) : Prop :=
  match lru_get key (contents c) with
  | Some e =>
      if expiredLocked c now1 e then contents c' = without key (contents c) ∧ ∀ v, r ≠ GotHit v
      else contents c' = e :: without key (contents c) ∧ r = GotHit (e_value e)
  | None => contents c' = contents c ∧ ∀ v, r ≠ GotHit v
  end.

Lemma Get_miss_nohit c key now v : (Get_miss c key now).2 ≠ GotHit v.
Proof. unfold Get_miss. by destruct (c_inflight c !! key). Qed.

Lemma Get_locked_meets c key now1 now2 : cache_ok c →
  ∃ c' r, Get_locked c key now1 now2 = Ret (c', r) ∧ cache_ok c' ∧
    c_capacity c' = c_capacity c ∧ Get_lru c key now1 c' r.
Proof.
  intros Hok. unfold Get_locked, Get_lru. rewrite lru_get_contents by done.
  destruct (c_entries c !! key) as [n|] eqn:Hk; simpl.
  - destruct (co_entry c Hok key n Hk) as [Hin Hkey]. destruct (co_elem c Hok n Hin) as [[e He] _].
    assert (elemOf c n = e) as Hel by (unfold elemOf; by rewrite He).
    rewrite Hel in *. rewrite He. simpl. destruct (expiredLocked c now1 e); simpl.
    + destruct (drop_key_ok c key n (count_expiration (c_stats c)) Hok Hk) as [Hok1 Hc1].
      set (c1 := set_lru _ _ _ _ _ c) in *. destruct (Get_miss_lru c1 key now2 Hok1) as (? & Hc & ?).
      pose proof (Get_miss_nohit c1 key now2) as Hno. destruct (Get_miss c1 key now2) as [c2 r].
      exists c2, r. simpl in *. split_and!; [done|done|done|congruence|done].
    + destruct (touch_ok c key n e (count_hit (c_stats c)) Hok Hk Hkey) as [Hok1 Hc1].
      rewrite insert_id in Hok1, Hc1 by done. eexists _, _. split_and!; [done|done|done|done|done].
  - destruct (Get_miss_lru c key now2 Hok) as (? & Hc & ?).
    pose proof (Get_miss_nohit c key now2) as Hno. destruct (Get_miss c key now2) as [c2 r].
    exists c2, r. simpl in *. split_and!; done.
Qed.

(** C25: the map and the linked list implement a bounded list of entries in
    order of use. On a consistent cache every locked operation returns and
    leaves a consistent cache of at most Capacity entries; inserting puts the
    key in front and drops what no longer fits at the back, a hit moves its
    entry to the front and returns its value, an expired entry is removed and
    not served, and invalidating removes exactly the key's entry. *)
Theorem cache_refines_lru c : cache_ok c → 1 ≤ c_capacity c →
  (∀ key value start, ∃ c', insertLocked c key value start = Ret c' ∧ cache_ok c' ∧
     contents c' = lru_insert c key value start (contents c)) ∧
  (∀ key, cache_ok (invalidateLocked c key) ∧
     contents (invalidateLocked c key) = without key (contents c)) ∧
  (∀ key now1 now2, ∃ c' r, Get_locked c key now1 now2 = Ret (c', r) ∧ cache_ok c' ∧
     Get_lru c key now1 c' r).
Proof.
  intros Hok Hcap. split_and!.
  - intros key value start. destruct (insertLocked_meets c key value start Hok Hcap) as (c' & ? & ? & _ & ?). eauto.
  - intros key. destruct (invalidateLocked_meets c key Hok) as (? & _ & ?). done.
  - intros key now1 now2. destruct (Get_locked_meets c key now1 now2 Hok) as (c' & r & ? & ? & _ & ?). eauto 6.
Qed.

(** ** Coherence *)

(** [v] is a version of the key no older than its [n]-th. *)
Definition fresh (s : System) (key : string) (n : nat) (v : string) : Prop :=
  ∃ i, (n ≤ i)%nat ∧ versionsOf s key !! i = Some v.

(** The flight a reader must still settle, with what it fetched. *)
Definition leads (r : Reader) : option (string * Z * option string) :=
  match r with
  | RLead k _ f _ => Some (k, f, None)
  | RFetched k _ f _ v => Some (k, f, Some v)
  | RFilled k _ f None => Some (k, f, None)
  | _ => None
  end.

Definition joins (r : Reader) : option (string * nat * Z) :=
  match r with RJoin k d f => Some (k, d, f) | _ => None end.

Definition calledAt (r : Reader) : string * nat :=
  match r with
  | RCall k d | RJoin k d _ | RLead k d _ _ | RFetched k d _ _ _ | RFilled k d _ _
  | RDetached k d _ _ | RDone k d _ => (k, d)
  end.

(** What a reader is going to return, once it knows. *)
Definition answers (r : Reader) : option string :=
  match r with
  | RFetched _ _ _ _ v => Some v
  | RFilled _ _ _ ret | RDetached _ _ _ ret | RDone _ _ ret => ret
  | _ => None
  end.

(** A leader's flight is joinable unless a write made it stale; until then
    what it fetched is as new as the last completed write. *)
Definition leader_ok (s : System) (c : Cache) (key : string) (f : Z) (v : option string) : Prop :=
  ∃ fl, c_flights c !! f = Some fl ∧ f_ok fl = false ∧
    (f_stale fl = false → c_inflight c !! key = Some f ∧
      ∀ x, v = Some x → fresh s key (completedOf s key) x).

Record reader_ok (s : System) (c : Cache) (r : Reader) : Prop := {
  ro_called : ((calledAt r).2 ≤ completedOf s (calledAt r).1)%nat;
  ro_answers v : answers r = Some v → fresh s (calledAt r).1 (calledAt r).2 v;
  ro_leads key f v : leads r = Some (key, f, v) → leader_ok s c key f v;
  ro_joins key d f : joins r = Some (key, d, f) → ∃ fl, c_flights c !! f = Some fl ∧
    (f_ok fl = true → fresh s key d (f_value fl));
  ro_filled key d f v : r = RFilled key d f (Some v) →
    ∃ fl, c_flights c !! f = Some fl ∧ f_ok fl = true
}.

(** Two readers: a flight has one leader, whose value suits every joiner. *)
Definition pair_ok (s : System) (r r' : Reader) : Prop :=
  ∀ k' f v, leads r' = Some (k', f, v) →
    (∀ k v', leads r ≠ Some (k, f, v')) ∧
    (∀ key d, joins r = Some (key, d, f) → k' = key ∧ ∀ x, v = Some x → fresh s key d x).

Record cache_coherent (s : System) (c : Cache) : Prop := {
  cc_ok : cache_ok c;
  cc_capacity : 1 ≤ c_capacity c;
  cc_entries e : e ∈ contents c → fresh s (e_key e) (completedOf s (e_key e)) (e_value e);
  cc_inflight key f : c_inflight c !! key = Some f → ∃ fl,
    c_flights c !! f = Some fl ∧ f_stale fl = false ∧
    (f_ok fl = true → fresh s key (completedOf s key) (f_value fl));
  cc_inj k1 k2 f : c_inflight c !! k1 = Some f → c_inflight c !! k2 = Some f → k1 = k2;
  cc_flights f : is_Some (c_flights c !! f) → f < c_nextFlight c
}.

(** The store holds the last version; at most one write is unreported. *)
Definition writer_ok (s : System) : Prop :=
  match sy_writer s with
  | Some w =>
      (∀ key, (completedOf s key + (if w_landed w && bool_decide (key = w_key w) then 1 else 0)
               = length (versionsOf s key) - 1)%nat) ∧
      (w_landed w = true → w_put w = true → last (versionsOf s (w_key w)) = Some (w_value w))
  | None => ∀ key, completedOf s key = (length (versionsOf s key) - 1)%nat
  end.

Record coherent (s : System) : Prop := {
  ch_cache : cache_coherent s (sy_cache s);
  ch_store key : last (versionsOf s key) = Some (storeGet (sy_store s) key);
  ch_writer : writer_ok s;
  ch_readers t r : sy_readers s !! t = Some r → reader_ok s (sy_cache s) r;
  ch_pairs t t' r r' : t ≠ t' → sy_readers s !! t = Some r → sy_readers s !! t' = Some r' → pair_ok s r r'
}.

(** ** Freshness *)

Lemma fresh_le s key n m v : (m ≤ n)%nat → fresh s key n v → fresh s key m v.
Proof. intros Hle (i & ? & ?). exists i. split; [lia|done]. Qed.

Lemma fresh_last s key n v : (n < length (versionsOf s key))%nat →
  last (versionsOf s key) = Some v → fresh s key n v.
Proof. intros Hn Hl. rewrite last_lookup in Hl. exists (pred (length (versionsOf s key))). split; [lia|done]. Qed.

(** At most the last version is not completed. *)
Lemma completed_lt s key : coherent s → (completedOf s key < length (versionsOf s key))%nat.
Proof.
  intros Hs. pose proof (ch_store s Hs key) as Hl. pose proof (ch_writer s Hs) as Hw.
  assert (0 < length (versionsOf s key))%nat by (destruct (versionsOf s key); [done|simpl; lia]).
  unfold writer_ok in Hw. destruct (sy_writer s) as [w|]; [destruct Hw as [Hw _]|]; specialize (Hw key); lia.
Qed.

Lemma store_fresh s key n : coherent s → (n ≤ completedOf s key)%nat →
  fresh s key n (storeGet (sy_store s) key).
Proof.
  intros Hs Hn. apply fresh_last; [|by apply ch_store]. pose proof (completed_lt s key Hs). lia.
Qed.

(** ** One reader moves *)

Lemma set_reader_coherent s t r c : coherent s → cache_coherent s c → reader_ok s c r →
  (∀ t' r', t' ≠ t → sy_readers s !! t' = Some r' →
     reader_ok s c r' ∧ pair_ok s r r' ∧ pair_ok s r' r) →
  coherent (set_reader t r c s).
Proof.
  intros Hs Hc Hr Hothers.
  assert (∀ r', reader_ok s c r' → reader_ok (set_reader t r c s) c r') as Hframe.
  { intros r' [H1 H2 H3 H4 H5]. by split. }
  split; simpl.
  - by destruct Hc.
  - apply Hs.
  - apply Hs.
  - intros t' r' [[<- <-]|[Hne Ht']]%lookup_insert_Some; [by apply Hframe|].
    apply Hframe. by apply (Hothers t' r').
  - intros t1 t2 r1 r2 Hne [[<- <-]|[Hn1 H1]]%lookup_insert_Some [[Heq <-]|[Hn2 H2]]%lookup_insert_Some.
    + done.
    + by apply (Hothers t2 r2).
    + subst. by apply (Hothers t1 r1).
    + by apply (ch_pairs s Hs t1 t2).
Qed.

(** A reader that neither leads nor joins has nothing to share. *)
Lemma pair_ok_plain s r r' : leads r = None → joins r = None → pair_ok s r r' ∧ pair_ok s r' r.
Proof.
  intros Hl Hj. split.
  - intros k f v _. rewrite Hl, Hj. done.
  - intros k f v. by rewrite Hl.
Qed.

Lemma reader_ok_same_flights s c c' r : c_inflight c' = c_inflight c → c_flights c' = c_flights c →
  reader_ok s c r → reader_ok s c' r.
Proof. intros Hi Hf [H1 H2 H3 H4 H5]. split; unfold leader_ok in *; rewrite ?Hi, ?Hf; done. Qed.

(** A change of the list that inserts fresh values only. *)
Lemma cache_coherent_lru s c c' : cache_coherent s c → cache_ok c' → same_flights c c' →
  (∀ e, e ∈ contents c' → e ∈ contents c ∨ fresh s (e_key e) (completedOf s (e_key e)) (e_value e)) →
  cache_coherent s c'.
Proof.
  intros [H1 H2 H3 H4 H5 H6] Hok (Hcap & _ & _ & Hi & Hf & Hn) He.
  split; rewrite ?Hcap, ?Hi, ?Hf, ?Hn; try done.
  intros e Hin. destruct (He e Hin); auto.
Qed.

Lemma without_elem k l e : e ∈ without k l ↔ e ∈ l ∧ e_key e ≠ k.
Proof. unfold without. rewrite list_elem_of_filter. tauto. Qed.

Lemma lru_insert_elem c k v st l e : e ∈ lru_insert c k v st l →
  e ∈ l ∨ (e_key e = k ∧ e_value e = v).
Proof.
  unfold lru_insert. intros Hin. assert (e ∈ mkEntry k v (expiryOf c st) :: without k l) as H.
  { apply list_elem_of_lookup_1 in Hin as [i Hi]. apply lookup_take_Some in Hi as [Hi _].
    by eapply list_elem_of_lookup_2. }
  apply elem_of_cons in H as [->|[? _]%without_elem]; auto.
Qed.

Lemma lru_get_elem k l e : lru_get k l = Some e → e ∈ l ∧ e_key e = k.
Proof.
  unfold lru_get. destruct (filter _ l) as [|x l'] eqn:Hf; [done|]. intros [= ->].
  assert (e ∈ filter (λ e, e_key e = k) l) as Hin by (rewrite Hf; by left).
  apply list_elem_of_filter in Hin. tauto.
Qed.

(** A locked turn of Get: a hit, or a miss on a cache with no new entries. *)
Lemma Get_locked_cases c key now1 now2 c' r : cache_ok c → Get_locked c key now1 now2 = Ret (c', r) →
  ∃ c1, cache_ok c1 ∧ same_flights c c1 ∧ (∀ e, e ∈ contents c1 → e ∈ contents c) ∧
    ((c' = c1 ∧ ∃ e, e ∈ contents c ∧ e_key e = key ∧ r = GotHit (e_value e)) ∨
     (c', r) = Get_miss c1 key now2).
Proof.
  intros Hok. unfold Get_locked. destruct (c_entries c !! key) as [n|] eqn:Hk.
  2:{ intros Hr. exists c. split_and!; [done|done|done|]. right. by injection Hr. }
  destruct (co_entry c Hok key n Hk) as [Hin Hkey]. destruct (co_elem c Hok n Hin) as [[e He] _].
  assert (elemOf c n = e) as Hel by (unfold elemOf; by rewrite He).
  assert (e ∈ contents c) as Hec by (rewrite <- Hel; by apply list_elem_of_fmap_2).
  rewrite He. simpl. destruct (expiredLocked c now1 e); simpl; intros Hr.
  - destruct (drop_key_ok c key n (count_expiration (c_stats c)) Hok Hk) as [Hok1 Hc1].
    set (c1 := set_lru _ _ _ _ _ c) in *. exists c1. split_and!; [done|done| |right; by injection Hr].
    intros x. rewrite Hc1. intros [? _]%without_elem. done.
  - rewrite Hel in Hkey. destruct (touch_ok c key n e (count_hit (c_stats c)) Hok Hk Hkey) as [Hok1 Hc1].
    rewrite insert_id in Hok1, Hc1 by done. injection Hr as <- <-. set (c1 := set_lru _ _ _ _ _ c) in *.
    exists c1. split_and!; [done|done| |left; eauto].
    intros x. rewrite Hc1. intros [->|[? _]%without_elem]%elem_of_cons; done.
Qed.

Section steps.
Context (s : System) (Hs : coherent s).

Lemma hit_step t key d e c1 : sy_readers s !! t = Some (RCall key d) →
  cache_ok c1 → same_flights (sy_cache s) c1 → (∀ x, x ∈ contents c1 → x ∈ contents (sy_cache s)) →
  e ∈ contents (sy_cache s) → e_key e = key →
  coherent (set_reader t (RDone key d (Some (e_value e))) c1 s).
Proof using Hs.
  intros Ht Hok Hsame Hsub He Hkey. pose proof (ch_readers s Hs t _ Ht) as Hr.
  apply set_reader_coherent; [done| | |].
  - apply (cache_coherent_lru s (sy_cache s)); [apply Hs|done|done|]. intros x Hx. left. auto.
  - pose proof (ro_called _ _ _ Hr) as Hd. simpl in Hd. split; simpl; try done.
    intros v [= <-]. rewrite <- Hkey in *. apply (fresh_le s _ (completedOf s (e_key e))); [done|].
    by apply (cc_entries s _ (ch_cache s Hs)).
  - intros t' r' Hne Ht'. split.
    + apply (reader_ok_same_flights s (sy_cache s)); [apply Hsame..|]. by apply (ch_readers s Hs t').
    + by apply pair_ok_plain.
Qed.

Lemma join_step t key d f c1 : sy_readers s !! t = Some (RCall key d) →
  cache_coherent s c1 → c_inflight c1 = c_inflight (sy_cache s) → c_flights c1 = c_flights (sy_cache s) →
  c_inflight c1 !! key = Some f →
  coherent (set_reader t (RJoin key d f) c1 s).
Proof using Hs.
  intros Ht Hc Hi Hf Hkey. pose proof (ro_called _ _ _ (ch_readers s Hs t _ Ht)) as Hd. simpl in Hd.
  destruct (cc_inflight s c1 Hc key f Hkey) as (fl & Hfl & Hst & Hfresh).
  apply set_reader_coherent; [done|done| |].
  - split; simpl; try done. intros k' d' f' [= <- <- <-]. exists fl. split; [done|].
    intros Hok. by apply (fresh_le s _ (completedOf s key)); auto.
  - intros t' r' Hne Ht'. pose proof (ch_readers s Hs t' r' Ht') as Hr'.
    split; [by apply (reader_ok_same_flights s (sy_cache s))|]. split; [|by intros k f' v].
    intros k' f' v Hl. split; [done|]. intros k2 d2 [= <- <- <-].
    destruct (ro_leads _ _ _ Hr' k' f v Hl) as (fl' & Hfl' & _ & Hlead).
    rewrite Hf, Hfl' in Hfl. injection Hfl as ->. destruct (Hlead Hst) as [Hin Hv].
    rewrite <- Hi in Hin. assert (k' = key) as -> by (by apply (cc_inj s c1 Hc k' key f)).
    split; [done|]. intros x Hx. by apply (fresh_le s _ (completedOf s key)); auto.
Qed.

Lemma lead_step t key d start c1 st : sy_readers s !! t = Some (RCall key d) →
  cache_coherent s c1 → c_inflight c1 = c_inflight (sy_cache s) → c_flights c1 = c_flights (sy_cache s) →
  c_nextFlight c1 = c_nextFlight (sy_cache s) → c_inflight c1 !! key = None →
  let f := c_nextFlight c1 in
  coherent (set_reader t (RLead key d f start)
    (set_flights (<[key := f]> (c_inflight c1)) (<[f := mkFlight false "" false false]> (c_flights c1))
       (f + 1) st c1) s).
Proof using Hs.
  intros Ht Hc Hi Hf Hn Hnone f. pose proof (ro_called _ _ _ (ch_readers s Hs t _ Ht)) as Hd. simpl in Hd.
  assert (c_flights c1 !! f = None) as Hnew.
  { destruct (c_flights c1 !! f) eqn:Hfl; [|done]. pose proof (cc_flights s c1 Hc f ltac:(eauto)). unfold f in *. lia. }
  assert (∀ k' f', c_inflight c1 !! k' = Some f' → f' ≠ f) as Hne.
  { intros k' f' Hk' ->. destruct (cc_inflight s c1 Hc k' f Hk') as (? & ? & _). congruence. }
  apply set_reader_coherent; [done| | |].
  - destruct Hc as [H1 H2 H3 H4 H5 H6]. split; simpl; [by apply set_flights_ok|done|done| | |].
    + intros k' f' [[<- <-]|[_ Hk']]%lookup_insert_Some; [eexists; rewrite lookup_insert_eq; by split_and!|].
      destruct (H4 k' f' Hk') as (fl & Hfl & ?). exists fl.
      rewrite lookup_insert_ne; [done|]. intros <-. by apply (Hne k' f).
    + intros k1 k2 f' [[<- <-]|[_ Hk1]]%lookup_insert_Some [[<- Heq]|[_ Hk2]]%lookup_insert_Some; [done| | |].
      * exfalso. by apply (Hne k2 f).
      * subst. exfalso. by apply (Hne k1 f).
      * by apply (H5 k1 k2 f').
    + intros f' [x [[<- _]|[_ Hx]]%lookup_insert_Some]; [lia|]. specialize (H6 f' ltac:(eauto)). lia.
  - split; simpl; try done. intros k' f' v [= <- <- <-]. unfold leader_ok. simpl. eexists.
    rewrite !lookup_insert_eq. split_and!; [done|done|]. intros _. split; [done|]. done.
  - intros t' r' Hnt Ht'. destruct (ch_readers s Hs t' r' Ht') as [H1 H2 H3 H4 H5].
    assert (∀ f' fl, c_flights (sy_cache s) !! f' = Some fl →
      <[f := mkFlight false "" false false]> (c_flights c1) !! f' = Some fl) as Hkeep.
    { intros f' fl Hfl. rewrite Hf. rewrite lookup_insert_ne; [done|]. intros <-. rewrite Hf in Hnew. congruence. }
    split; [|split].
    + split; simpl; [done|done| | |].
      * intros k' f' v Hl. destruct (H3 k' f' v Hl) as (fl & Hfl & Hok & Hst). exists fl. simpl.
        split; [by apply Hkeep|]. split; [done|]. intros Hs'. destruct (Hst Hs') as [Hin Hv]. split; [|done].
        rewrite Hi, lookup_insert_ne; [done|]. intros <-. rewrite Hi in Hnone. congruence.
      * intros k' d' f' Hj. destruct (H4 k' d' f' Hj) as (fl & Hfl & ?). exists fl. auto.
      * intros k' d' f' v Hr'. destruct (H5 k' d' f' v Hr') as (fl & Hfl & ?). exists fl. auto.
    + intros k' f' v Hl. destruct (H3 k' f' v Hl) as (fl & Hfl & _). split; [|done].
      intros k v' [= -> <- <-]. rewrite Hf in Hnew. congruence.
    + intros k' f' v [= <- <- <-]. split.
      * intros k v' Hl. destruct (H3 k f v' Hl) as (fl & Hfl & _). rewrite Hf in Hnew. congruence.
      * intros k d' Hj. destruct (H4 k d' f Hj) as (fl & Hfl & _). rewrite Hf in Hnew. congruence.
Qed.

Lemma locked_step t key d now1 now2 c r : sy_readers s !! t = Some (RCall key d) →
  Get_locked (sy_cache s) key now1 now2 = Ret (c, r) →
  coherent (set_reader t
      match r with
      | GotHit v => RDone key d (Some v)
      | GotJoin f => RJoin key d f
      | GotLead f start => RLead key d f start
      end c s).
Proof using Hs.
  intros Ht Hget. pose proof (ch_cache s Hs) as Hc.
  destruct (Get_locked_cases _ _ _ _ _ _ (cc_ok _ _ Hc) Hget) as (c1 & Hok & Hsame & Hsub & Hcase).
  destruct Hcase as [(-> & e & He & Hkey & ->)|Hmiss]; [by apply hit_step|].
  assert (cache_coherent s c1) as Hc1 by (apply (cache_coherent_lru s (sy_cache s)); auto).
  destruct Hsame as (_ & _ & _ & Hi & Hf & Hn). unfold Get_miss in Hmiss.
  destruct (c_inflight c1 !! key) as [f|] eqn:Hin; injection Hmiss as -> ->.
  - apply join_step; simpl; try done. destruct Hc1. split; simpl; try done. by apply set_flights_ok.
  - by apply lead_step.
Qed.
(** ** The other steps of a reader *)

(** What every move that keeps the cache needs from the others. *)
Lemma keep_cache_coherent t r : reader_ok s (sy_cache s) r →
  (∀ t' r', t' ≠ t → sy_readers s !! t' = Some r' → pair_ok s r r' ∧ pair_ok s r' r) →
  coherent (set_reader t r (sy_cache s) s).
Proof using Hs.
  intros Hr Hp. apply set_reader_coherent; [done|apply Hs|done|]. intros t' r' Hne Ht'.
  destruct (Hp t' r' Hne Ht'). split_and!; [by apply (ch_readers s Hs t')|done|done].
Qed.

Lemma call_step t key :
  coherent (set_reader t (RCall key (completedOf s key)) (sy_cache s) s).
Proof using Hs.
  apply keep_cache_coherent; [by split|]. intros t' r' _ _. by apply pair_ok_plain.
Qed.

Lemma joined_step t key d f : sy_readers s !! t = Some (RJoin key d f) →
  coherent (set_reader t
      match Get_joined (sy_cache s) f with
      | Some v => RDone key d (Some v)
      | None => RCall key d
      end (sy_cache s) s).
Proof using Hs.
  intros Ht. destruct (ch_readers s Hs t _ Ht) as [H1 _ _ H4 _].
  destruct (H4 key d f eq_refl) as (fl & Hfl & Hfresh). unfold Get_joined. rewrite Hfl.
  destruct (f_ok fl); (apply keep_cache_coherent; [|intros t' r' _ _; by apply pair_ok_plain]);
    split; simpl; try done. intros v [= <-]. by apply Hfresh.
Qed.

Lemma fetch_step t key d f start : sy_readers s !! t = Some (RLead key d f start) →
  coherent (set_reader t (RFetched key d f start (storeGet (sy_store s) key)) (sy_cache s) s).
Proof using Hs.
  intros Ht. destruct (ch_readers s Hs t _ Ht) as [H1 _ H3 _ _]. simpl in H1.
  apply keep_cache_coherent.
  - split; simpl; try done.
    + intros v [= <-]. by apply store_fresh.
    + intros k f' v [= <- <- <-]. destruct (H3 key f None eq_refl) as (fl & Hfl & Hok & Hst).
      exists fl. split_and!; [done|done|]. intros Hf. split; [by apply Hst|].
      intros x [= <-]. by apply store_fresh.
  - intros t' r' Hne Ht'. split.
    + intros k f' v Hl. split; [|done]. intros k2 v' [= <- -> <-].
      by destruct (ch_pairs s Hs t t' _ _ (not_eq_sym Hne) Ht Ht' k f' v Hl) as [Hno _]; apply (Hno key None).
    + intros k f' v [= <- <- <-].
      destruct (ch_pairs s Hs t' t _ _ Hne Ht' Ht key f None eq_refl) as [Hno Hj]. split; [done|].
      intros k d' Hjoin. destruct (Hj k d' Hjoin) as [<- _]. split; [done|]. intros x [= <-].
      apply store_fresh; [done|]. pose proof (ro_called _ _ _ (ch_readers s Hs t' r' Ht')) as Hd.
      destruct r'; simpl in *; by simplify_eq.
Qed.

Lemma fetch_panics_step t key d f start : sy_readers s !! t = Some (RLead key d f start) →
  coherent (set_reader t (RFilled key d f None) (sy_cache s) s).
Proof using Hs.
  intros Ht. destruct (ch_readers s Hs t _ Ht) as [H1 _ H3 _ _].
  apply keep_cache_coherent; [by split|]. intros t' r' Hne Ht'. split.
  - intros k f' v Hl. by apply (ch_pairs s Hs t t' _ _ (not_eq_sym Hne) Ht Ht').
  - by apply (ch_pairs s Hs t' t _ _ Hne Ht' Ht).
Qed.

Lemma fill_step t key d f start v c : sy_readers s !! t = Some (RFetched key d f start v) →
  lead_fill (sy_cache s) key f start v = Ret c →
  coherent (set_reader t (RFilled key d f (Some v)) c s).
Proof using Hs.
  intros Ht Hfill. pose proof (ch_cache s Hs) as Hc. destruct (ch_readers s Hs t _ Ht) as [H1 H2 H3 _ _].
  destruct (H3 key f (Some v) eq_refl) as (fl & Hfl & Hok & Hst). unfold lead_fill in Hfill.
  rewrite Hfl in Hfill. simpl in Hfill. set (fl' := mkFlight (f_done fl) v true (f_stale fl)) in Hfill.
  set (c0 := set_flights _ _ _ _ _) in Hfill.
  assert (cache_coherent s c0) as Hc0.
  { destruct Hc as [C1 C2 C3 C4 C5 C6]. split; simpl; try done; [by apply set_flights_ok| |].
    - intros k f' Hk. destruct (decide (f' = f)) as [->|Hne].
      + destruct (C4 k f Hk) as (fl2 & Hfl2 & Hs2 & _). rewrite Hfl in Hfl2. injection Hfl2 as <-.
        destruct (Hst Hs2) as [Hin Hv]. assert (k = key) as -> by (by apply (C5 k key f)).
        exists fl'. rewrite lookup_insert_eq. split_and!; [done|done|]. intros _. by apply Hv.
      + rewrite lookup_insert_ne by done. by apply C4.
    - intros f' [x [[<- _]|[_ Hx]]%lookup_insert_Some]; apply C6; eauto. }
  assert (cache_coherent s c ∧ c_inflight c = c_inflight c0 ∧ c_flights c = c_flights c0) as (Hcc & Hci & Hcf).
  { destruct (f_stale fl) eqn:Hstale.
    - injection Hfill as <-. split; [|done].
      apply (cache_coherent_lru s c0); [done|apply (set_stats_ok c0), Hc0|done|by left].
    - destruct (insertLocked_meets c0 key v start (cc_ok _ _ Hc0) (cc_capacity _ _ Hc0))
        as (c2 & Hins & Hok2 & Hsame & Hcont). rewrite Hfill in Hins. injection Hins as <-.
      split; [|by destruct Hsame as (_ & _ & _ & ? & ? & _)].
      apply (cache_coherent_lru s c0); [done|done|done|]. rewrite Hcont.
      intros e [He|[<- <-]]%lru_insert_elem; [by left|right]. by apply Hst. }
  assert (∀ f' x, f' ≠ f → c_flights (sy_cache s) !! f' = Some x → c_flights c !! f' = Some x) as Hkeep
    by (intros f' x Hne Hx; rewrite Hcf; simpl; by rewrite lookup_insert_ne).
  assert (c_flights c !! f = Some fl') as Hnewf by (rewrite Hcf; simpl; by rewrite lookup_insert_eq).
  apply set_reader_coherent; [done|done| |].
  - split; simpl; try done. intros k d' f' x [= <- <- <- <-]. exists fl'. done.
  - intros t' r' Hne Ht'. destruct (ch_readers s Hs t' r' Ht') as [R1 R2 R3 R4 R5].
    destruct (ch_pairs s Hs t' t _ _ Hne Ht' Ht key f (Some v) eq_refl) as [Hno Hj].
    split; [|by apply pair_ok_plain]. split; [done|done| | |].
    + intros k f' x Hl. destruct (R3 k f' x Hl) as (y & Hy & Hyok & Hyst).
      assert (f' ≠ f) as Hff by (intros ->; by apply (Hno k x)).
      exists y. rewrite Hci. simpl. auto.
    + intros k d' f' Hjoin. destruct (R4 k d' f' Hjoin) as (y & Hy & Hyok).
      destruct (decide (f' = f)) as [->|Hff]; [|exists y; auto].
      destruct (Hj k d' Hjoin) as [_ Hv]. exists fl'. split; [done|]. intros _. by apply Hv.
    + intros k d' f' x Hr'. destruct (R5 k d' f' x Hr') as (y & Hy & Hyok).
      destruct (decide (f' = f)) as [->|Hff]; [exists fl'; done|exists y; auto].
Qed.

Lemma detach_step t key d f ret : sy_readers s !! t = Some (RFilled key d f ret) →
  coherent (set_reader t (RDetached key d f ret) (lead_detach (sy_cache s) key f) s).
Proof using Hs.
  intros Ht. pose proof (ch_cache s Hs) as Hc. destruct (ch_readers s Hs t _ Ht) as [H1 H2 H3 _ H5].
  unfold lead_detach. destruct (decide _) as [Hin|Hnin].
  2:{ apply keep_cache_coherent; [by split|]. intros t' r' _ _. by apply pair_ok_plain. }
  set (c := set_flights _ _ _ _ _). destruct Hc as [C1 C2 C3 C4 C5 C6].
  apply set_reader_coherent; [done| | |].
  - split; simpl; try done; [by apply set_flights_ok| |].
    + intros k f' [_ Hk]%lookup_delete_Some. by apply C4.
    + intros k1 k2 f' [_ Hk1]%lookup_delete_Some [_ Hk2]%lookup_delete_Some. by apply (C5 k1 k2 f').
  - by split.
  - intros t' r' Hne Ht'. destruct (ch_readers s Hs t' r' Ht') as [R1 R2 R3 R4 R5].
    split; [|by apply pair_ok_plain]. split; [done|done| |done|done].
    intros k f' v Hl. destruct (R3 k f' v Hl) as (fl & Hfl & Hok & Hst). exists fl.
    split_and!; [done|done|]. intros Hs'. destruct (Hst Hs') as [Hk Hv]. split; [|done]. simpl.
    rewrite lookup_delete_ne; [done|]. intros <-. rewrite Hin in Hk. injection Hk as <-.
    destruct ret as [x|].
    + destruct (H5 key d f x eq_refl) as (y & Hy & Hyok). congruence.
    + by destruct (ch_pairs s Hs t' t _ _ Hne Ht' Ht key f None eq_refl) as [Hno _]; apply (Hno key v).
Qed.

Lemma close_step t key d f ret : sy_readers s !! t = Some (RDetached key d f ret) →
  coherent (set_reader t (RDone key d ret) (lead_close (sy_cache s) f) s).
Proof using Hs.
  intros Ht. destruct (ch_readers s Hs t _ Ht) as [H1 H2 _ _ _]. destruct (ch_cache s Hs) as [C1 C2 C3 C4 C5 C6].
  unfold lead_close. set (g := λ fl, mkFlight true (f_value fl) (f_ok fl) (f_stale fl)).
  set (c := set_flights _ _ _ _ _).
  assert (∀ f' y, c_flights (sy_cache s) !! f' = Some y → ∃ y', c_flights c !! f' = Some y' ∧
    f_ok y' = f_ok y ∧ f_value y' = f_value y ∧ f_stale y' = f_stale y) as Hkeep.
  { intros f' y Hy. simpl. destruct (decide (f' = f)) as [->|Hne].
    - exists (g y). by rewrite lookup_alter_eq, Hy.
    - exists y. by rewrite lookup_alter_ne. }
  apply set_reader_coherent; [done| |by split|].
  - split; simpl; try done; [by apply set_flights_ok| |].
    + intros k f' Hk. destruct (C4 k f' Hk) as (y & Hy & Hst & Hok).
      destruct (Hkeep f' y Hy) as (y' & Hy' & Ho & Hv & Hs'). exists y'. rewrite Ho, Hv, Hs'. done.
    + intros f' [y Hy]. apply lookup_alter_Some in Hy as [(-> & x & Hx & _)|[_ Hx]]; apply C6; eauto.
  - intros t' r' Hne Ht'. destruct (ch_readers s Hs t' r' Ht') as [R1 R2 R3 R4 R5].
    split; [|by apply pair_ok_plain]. split; [done|done| | |].
    + intros k f' v Hl. destruct (R3 k f' v Hl) as (y & Hy & Hok & Hst).
      destruct (Hkeep f' y Hy) as (y' & Hy' & Ho & Hv & Hs'). exists y'. rewrite Ho, Hs'. done.
    + intros k d' f' Hj. destruct (R4 k d' f' Hj) as (y & Hy & Hok).
      destruct (Hkeep f' y Hy) as (y' & Hy' & Ho & Hv & Hs'). exists y'. rewrite Ho, Hv. done.
    + intros k d' f' v Hr. destruct (R5 k d' f' v Hr) as (y & Hy & Hok).
      destruct (Hkeep f' y Hy) as (y' & Hy' & Ho & _). exists y'. by rewrite Ho.
Qed.
End steps.

(** ** The steps of the writer *)

(** A change of the system that keeps the completed writes and what is fresh. *)
Lemma coherent_mono s s' : coherent s → sy_cache s' = sy_cache s → sy_readers s' = sy_readers s →
  (∀ k n v, fresh s k n v → fresh s' k n v) → (∀ k, completedOf s' k = completedOf s k) →
  (∀ k, last (versionsOf s' k) = Some (storeGet (sy_store s') k)) → writer_ok s' → coherent s'.
Proof.
  intros Hs Hc Hr Hf Hd Hst Hw.
  assert (∀ c k f v, leader_ok s c k f v → leader_ok s' c k f v) as Hlead.
  { intros c k f v (fl & ? & ? & H). exists fl. split_and!; [done|done|]. intros Hs'.
    destruct (H Hs') as [? Hv]. split; [done|]. intros x Hx. rewrite Hd. by apply Hf, Hv. }
  split; [| done|done| |].
  - rewrite Hc. destruct (ch_cache s Hs) as [C1 C2 C3 C4 C5 C6]. split; try done.
    + intros e He. rewrite Hd. by apply Hf, C3.
    + intros k f Hk. destruct (C4 k f Hk) as (fl & ? & ? & H). exists fl. rewrite Hd.
      split_and!; [done|done|]. intros Hok. by apply Hf, H.
  - rewrite Hc, Hr. intros t r Ht. destruct (ch_readers s Hs t r Ht) as [R1 R2 R3 R4 R5]. split.
    + by rewrite Hd.
    + intros v Hv. by apply Hf, R2.
    + intros k f v Hl. by apply Hlead, R3.
    + intros k d f Hj. destruct (R4 k d f Hj) as (fl & ? & H). exists fl. split; [done|].
      intros Hok. by apply Hf, H.
    + done.
  - rewrite Hr. intros t t' r r' Hne Ht Ht' k f v Hl.
    destruct (ch_pairs s Hs t t' r r' Hne Ht Ht' k f v Hl) as [Hno Hj]. split; [done|].
    intros k2 d Hjoin. destruct (Hj k2 d Hjoin) as [-> Hv]. split; [done|]. intros x Hx. by apply Hf, Hv.
Qed.

Lemma versionsOf_nonempty s key : coherent s → versionsOf s key ≠ [].
Proof. intros Hs Hnil. pose proof (ch_store s Hs key) as H. by rewrite Hnil in H. Qed.

Lemma land_step s w : coherent s → sy_writer s = Some w → w_landed w = false →
  let v := landValue w (storeGet (sy_store s) (w_key w)) in
  coherent (mkSystem (sy_cache s) (<[w_key w := v]> (sy_store s)) (sy_readers s)
    (Some (mkWriter (w_put w) (w_key w) (w_value w) (w_start w) true))
    (<[w_key w := versionsOf s (w_key w) ++ [v]]> (sy_versions s)) (sy_completed s)).
Proof.
  intros Hs Hw Hl v. set (s' := mkSystem _ _ _ _ _ _).
  assert (∀ k, versionsOf s' k = versionsOf s k ++ (if bool_decide (k = w_key w) then [v] else [])) as Hv.
  { intros k. unfold versionsOf at 1. simpl. case_bool_decide as Hk.
    - subst. by rewrite lookup_insert_eq.
    - rewrite lookup_insert_ne by congruence. by rewrite app_nil_r. }
  apply (coherent_mono s); try done.
  - intros k n x (i & Hn & Hi). exists i. split; [done|]. rewrite Hv. by apply lookup_app_l_Some.
  - intros k. rewrite Hv. unfold storeGet. simpl. case_bool_decide as Hk.
    + subst. by rewrite last_snoc, lookup_insert_eq.
    + rewrite app_nil_r, lookup_insert_ne by congruence. by apply ch_store.
  - pose proof (ch_writer s Hs) as Hwo. unfold writer_ok in *. rewrite Hw, Hl in Hwo. simpl in Hwo.
    destruct Hwo as [Hcount _]. simpl. split.
    + intros k. specialize (Hcount k). pose proof (versionsOf_nonempty s k Hs) as Hne.
      assert (0 < length (versionsOf s k))%nat by (destruct (versionsOf s k); [done|simpl; lia]).
      change (completedOf s' k) with (completedOf s k). rewrite Hv, length_app.
      repeat case_bool_decide; simpl in *; try done; lia.
    + intros _ Hput. rewrite Hv, bool_decide_true, last_snoc by done. unfold v, landValue. by rewrite Hput.
Qed.

(** The cache after the write: what it lost, and the fresh value it may have. *)
Lemma written_cache s w c : cache_coherent s (sy_cache s) → 
  (if w_put w then Put_locked (sy_cache s) (w_key w) (w_value w) (w_start w) = Ret c
   else Append_locked (sy_cache s) (w_key w) = c) →
  let c0 := markStaleLocked (sy_cache s) (w_key w) in
  cache_ok c ∧ same_flights c0 c ∧
  ∀ e, e ∈ contents c → (e ∈ contents (sy_cache s) ∧ e_key e ≠ w_key w) ∨
    (w_put w = true ∧ e_key e = w_key w ∧ e_value e = w_value w).
Proof.
  intros Hc Hw c0.
  assert (cache_ok c0 ∧ contents c0 = contents (sy_cache s) ∧ c_capacity c0 = c_capacity (sy_cache s)) as (Hok0 & Hc0 & Hcap).
  { unfold c0, markStaleLocked. destruct (c_inflight _ !! _); (split; [|done]); [apply set_flights_ok|]; apply Hc. }
  assert (cache_ok (invalidateLocked c0 (w_key w)) ∧ same_flights c0 (invalidateLocked c0 (w_key w)) ∧
    ∀ e, e ∈ contents (invalidateLocked c0 (w_key w)) →
      e ∈ contents (sy_cache s) ∧ e_key e ≠ w_key w) as Hinv.
  { destruct (invalidateLocked_meets c0 (w_key w) Hok0) as (? & ? & Heq). split_and!; [done|done|].
    intros e. rewrite Heq, Hc0. by intros ?%without_elem. }
  destruct (w_put w) eqn:Hput.
  - unfold Put_locked in Hw. fold c0 in Hw. destruct (_ =? _).
    + pose proof (cc_capacity s _ Hc) as Hcap1.
      destruct (insertLocked_meets c0 (w_key w) (w_value w) (w_start w) Hok0 ltac:(lia))
        as (c2 & Hins & Hok2 & Hsame & Hcont). rewrite Hw in Hins. injection Hins as <-.
      split_and!; [done|done|]. intros e. rewrite Hcont, Hc0. unfold lru_insert. intros Hin.
      apply list_elem_of_lookup_1 in Hin as [i Hi]. apply lookup_take_Some in Hi as [Hi _].
      apply list_elem_of_lookup_2, elem_of_cons in Hi as [->|Hi%without_elem]; auto.
    + injection Hw as <-. destruct Hinv as (? & ? & H). split_and!; [done|done|]. intros e He. left. by apply H.
  - subst c. destruct Hinv as (? & ? & H). split_and!; [done|done|]. intros e He. left. by apply H.
Qed.

Lemma written_step s w c : coherent s → sy_writer s = Some w → w_landed w = true →
  (if w_put w then Put_locked (sy_cache s) (w_key w) (w_value w) (w_start w) = Ret c
   else Append_locked (sy_cache s) (w_key w) = c) →
  coherent (mkSystem c (sy_store s) (sy_readers s) None (sy_versions s)
    (<[w_key w := (length (versionsOf s (w_key w)) - 1)%nat]> (sy_completed s))).
Proof.
  intros Hs Hw Hl Hc. set (s' := mkSystem _ _ _ _ _ _).
  destruct (written_cache s w c (ch_cache s Hs) Hc) as (Hok & Hsame & Hcont).
  pose proof (ch_writer s Hs) as Hwo. unfold writer_ok in Hwo. rewrite Hw, Hl in Hwo. simpl in Hwo.
  destruct Hwo as [Hcount Hput]. set (key := w_key w) in *.
  assert (∀ k, k ≠ key → completedOf s' k = completedOf s k) as Hother
    by (intros k Hk; unfold completedOf; simpl; by rewrite lookup_insert_ne).
  assert (completedOf s' key = (length (versionsOf s key) - 1)%nat) as Hkey
    by (unfold completedOf; simpl; by rewrite lookup_insert_eq).
  assert (∀ k, (completedOf s k ≤ completedOf s' k)%nat) as Hgrow.
  { intros k. destruct (decide (k = key)) as [->|Hk]; [|by rewrite Hother].
    rewrite Hkey. specialize (Hcount key). lia. }
  destruct Hsame as (Hcap & _ & _ & Hi & Hf & Hn).
  destruct (ch_cache s Hs) as [C1 C2 C3 C4 C5 C6].
  (* the flight of the key, if any, is stale and detached; the others are untouched *)
  assert (∀ k f, c_inflight c !! k = Some f ↔ k ≠ key ∧ c_inflight (sy_cache s) !! k = Some f) as Hin.
  { intros k f. rewrite Hi. unfold markStaleLocked. fold key.
    destruct (c_inflight (sy_cache s) !! key) as [f0|] eqn:Hk0; simpl.
    - rewrite lookup_delete_Some. split; intros [? ?]; split; auto.
    - split; [|by intros [_ ?]]. intros Hk. split; [congruence|done]. }
  assert (∀ f fl, c_flights (sy_cache s) !! f = Some fl → ∃ fl', c_flights c !! f = Some fl' ∧
    f_ok fl' = f_ok fl ∧ f_value fl' = f_value fl ∧
    (f_stale fl' = false → f_stale fl = false ∧ c_inflight (sy_cache s) !! key ≠ Some f) ∧
    (c_inflight (sy_cache s) !! key ≠ Some f → fl' = fl)) as Hfl.
  { intros f fl Hfl. rewrite Hf. unfold markStaleLocked. fold key.
    destruct (c_inflight (sy_cache s) !! key) as [f0|] eqn:Hk0; simpl; [|exists fl; split_and!; done].
    destruct (decide (f0 = f)) as [->|Hne].
    - eexists. rewrite lookup_alter_eq, Hfl. split_and!; try done.
    - exists fl. rewrite lookup_alter_ne by done. split_and!; try done. intros Hx. split; [exact Hx|]. congruence. }
  assert (c_capacity c = c_capacity (sy_cache s) ∧ c_nextFlight c = c_nextFlight (sy_cache s)) as [Hcap' Hn'].
  { rewrite Hcap, Hn. unfold markStaleLocked. by destruct (c_inflight _ !! _). }
  split.
  - split; simpl; [done|lia| | | |].
    + intros e He. destruct (Hcont e He) as [[He' Hne]|(Hp & Hek & Hev)].
      * rewrite (Hother (e_key e) Hne). by apply C3.
      * fold key in Hek. rewrite Hek, Hev, Hkey. apply fresh_last.
        -- pose proof (versionsOf_nonempty s key Hs). change (versionsOf s' key) with (versionsOf s key).
           destruct (versionsOf s key); [done|simpl; lia].
        -- by apply Hput.
    + intros k f Hk. apply Hin in Hk as [Hne Hk]. destruct (C4 k f Hk) as (fl & Hfl1 & Hst & Hfr).
      destruct (Hfl f fl Hfl1) as (fl' & Hfl' & _ & _ & _ & Hsame').
      rewrite Hsame' in Hfl' by (intros Hk2; apply Hne; by apply (C5 k key f)).
      exists fl. rewrite (Hother k Hne). done.
    + intros k1 k2 f [_ Hk1]%Hin [_ Hk2]%Hin. by apply (C5 k1 k2 f).
    + intros f [x Hx]. rewrite Hn'. apply C6. rewrite Hf in Hx. unfold markStaleLocked in Hx.
      destruct (c_inflight _ !! _); simpl in Hx; [|eauto].
      apply lookup_alter_Some in Hx as [(-> & y & Hy & _)|[_ Hy]]; eauto.
  - apply Hs.
  - intros k. unfold writer_ok. simpl. destruct (decide (k = key)) as [->|Hne]; [done|].
    rewrite Hother by done. specialize (Hcount k). rewrite bool_decide_false in Hcount by done.
    change (versionsOf s' k) with (versionsOf s k). lia.
  - intros t r Ht. simpl in *. destruct (ch_readers s Hs t r Ht) as [R1 R2 R3 R4 R5]. split.
    + etrans; [exact R1|apply Hgrow].
    + done.
    + intros k f v Hlead. destruct (R3 k f v Hlead) as (fl & Hfl1 & Hok1 & Hst).
      destruct (Hfl f fl Hfl1) as (fl' & Hfl' & Ho & _ & Hst' & _). exists fl'. rewrite Ho.
      split_and!; [done|done|]. intros Hs1. destruct (Hst' Hs1) as [Hs2 Hnk]. destruct (Hst Hs2) as [Hk Hv].
      assert (k ≠ key) as Hne by congruence. split; [by apply Hin|]. intros x Hx.
      rewrite (Hother k Hne). by apply Hv.
    + intros k d f Hj. destruct (R4 k d f Hj) as (fl & Hfl1 & Hfr).
      destruct (Hfl f fl Hfl1) as (fl' & Hfl' & Ho & Hv & _). exists fl'. by rewrite Ho, Hv.
    + intros k d f v Hr. destruct (R5 k d f v Hr) as (fl & Hfl1 & Hok1).
      destruct (Hfl f fl Hfl1) as (fl' & Hfl' & Ho & _). exists fl'. by rewrite Ho.
  - apply Hs.
Qed.

Lemma cache_step_coherent s s' : coherent s → cache_step s s' → coherent s'.
Proof.
  intros Hs H. destruct H as [ | | | | | | | |s w Hw Hl| | ].
  - by apply call_step.
  - by eapply locked_step.
  - by eapply joined_step.
  - by apply fetch_step.
  - by eapply fetch_panics_step.
  - by eapply fill_step.
  - by apply detach_step.
  - by apply close_step.
  - apply (coherent_mono s); try done; [exact (ch_store s Hs)|].
    pose proof (ch_writer s Hs) as Hwo. unfold writer_ok in *. rewrite Hw in Hwo. simpl. rewrite Hl. simpl.
    split; [|done]. intros k. specialize (Hwo k). change (completedOf _ k) with (completedOf s k).
    change (versionsOf _ k) with (versionsOf s k). lia.
  - by apply land_step.
  - by eapply written_step.
Qed.

(** A new cache over a store, nobody calling yet. *)
Definition initSystem (c : Cache) (store : gmap string string) : System :=
  mkSystem c store ∅ None ((λ v, [v]) <$> store) ∅.

Lemma initSystem_coherent opts c store : New opts = Ret c → coherent (initSystem c store).
Proof.
  unfold New. destruct (Z.ltb_spec (opt_Capacity opts) 1) as [|Hcap]; [done|]. destruct (_ <? 0); [done|].
  destruct (_ && _); [done|]. intros [= <-].
  assert (∀ k, versionsOf (initSystem (mkCache (opt_Capacity opts) (opt_TTL opts) (opt_WritePolicy opts)
    ∅ ∅ [] 0 ∅ ∅ 0 noStats) store) k = [storeGet store k]) as Hv.
  { intros k. unfold versionsOf, storeGet. simpl. rewrite lookup_fmap. by destruct (store !! k). }
  split; simpl.
  - split; simpl; [|lia|by intros e ?%not_elem_of_nil|done|done|by intros f [? ?]].
    split; simpl; [constructor|by intros n ?%not_elem_of_nil|done|by intros n ?%not_elem_of_nil|].
    rewrite zlen_nil. lia.
  - intros k. by rewrite Hv.
  - intros k. unfold writer_ok. simpl. rewrite Hv. done.
  - done.
  - done.
Qed.

(** C24: reads through the cache are never older than the last completed
    write. For every option, clock, capacity and write policy, and every
    interleaving of concurrent Gets, Puts and Appends through one cache over a
    store nobody else writes, a finished Get returned a value the key had in
    the store no earlier than after the last write of the key that had
    returned when the Get was called: hits, coalesced waiters and fetches that
    overtake writes included. The cache stays consistent and bounded. *)
Theorem no_stale_read opts c0 store s : New opts = Ret c0 → rtc cache_step (initSystem c0 store) s →
  (∀ t key d v, sy_readers s !! t = Some (RDone key d (Some v)) →
    ∃ i, (d ≤ i)%nat ∧ versionsOf s key !! i = Some v) ∧
  (∀ key, last (versionsOf s key) = Some (storeGet (sy_store s) key)) ∧
  cache_ok (sy_cache s).
Proof.
  intros Hnew Hrtc. assert (coherent s) as Hs.
  { apply initSystem_coherent with (store := store) in Hnew.
    induction Hrtc; eauto using cache_step_coherent. }
  split_and!; [|apply Hs|apply (ch_cache s Hs)].
  intros t key d v Ht. destruct (ro_answers _ _ _ (ch_readers s Hs t _ Ht) v eq_refl) as (i & ? & ?). eauto.
Qed.

(** ** Witnesses *)
Module Witness.
Definition opts1 : Options := mkOptions 1 5 WriteThrough.
Definition c0 : Cache := mkCache 1 5 WriteThrough ∅ ∅ [] 0 ∅ ∅ 0 noStats.
Definition c0_made : New opts1 = Ret c0 := eq_refl.

(** "x" cached at capacity one; inserting "y" pushes it out. *)
Lemma cache_refines_lru_witness :
  ∃ c1 c2, insertLocked c0 "x" "1" 0 = Ret c1 ∧ insertLocked c1 "y" "2" 1 = Ret c2 ∧
    contents c2 = [mkEntry "y" "2" 6].
Proof.
  assert (cache_ok c0) as Hok by exact (cc_ok _ _ (ch_cache _ (initSystem_coherent opts1 c0 ∅ c0_made))).
  destruct (cache_refines_lru c0 Hok ltac:(by vm_compute)) as [Hins _].
  destruct (Hins "x"%string "1"%string 0) as (c1 & H1 & Hok1 & Hc1).
  assert (c_capacity c1 = 1) as Hcap by (vm_compute in H1; by injection H1 as <-).
  destruct (cache_refines_lru c1 Hok1 ltac:(by rewrite Hcap)) as [Hins1 _].
  destruct (Hins1 "y"%string "2"%string 1) as (c2 & H2 & _ & Hc2).
  exists c1, c2. split; [exact H1|]. split; [exact H2|]. rewrite Hc2.
  vm_compute in H1. injection H1 as <-. by vm_compute.
Defined.

(** One Get through the empty cache, every step of it. *)
Lemma no_stale_read_witness :
  ∃ s, rtc cache_step (initSystem c0 {["x" := "v"]}%string) s ∧
    sy_readers s !! 7%nat = Some (RDone "x" 0 (Some "v"%string)) ∧
    ∃ i, (0 ≤ i)%nat ∧ versionsOf s "x" !! i = Some "v"%string.
Proof.
  eassert (∃ s, rtc cache_step (initSystem c0 {["x" := "v"]}%string) s ∧
    sy_readers s !! 7%nat = Some (RDone "x" 0 (Some "v"%string))) as (s & Hrtc & Hs).
  { eexists. split.
    - eapply rtc_l; [by apply (cs_call _ 7%nat "x"%string)|].
      eapply rtc_l; [by eapply (cs_locked _ 7%nat "x"%string 0%nat 1 2)|].
      eapply rtc_l; [by eapply (cs_fetch _ 7%nat "x"%string 0%nat 0 2)|].
      eapply rtc_l; [by eapply (cs_fill _ 7%nat "x"%string 0%nat 0 2 "v"%string)|].
      eapply rtc_l; [by eapply (cs_detach _ 7%nat "x"%string 0%nat 0)|].
      eapply rtc_l; [by eapply (cs_close _ 7%nat "x"%string 0%nat 0)|].
      apply rtc_refl.
    - by vm_compute. }
  exists s. split; [exact Hrtc|]. split; [exact Hs|].
  destruct (no_stale_read opts1 c0 {["x" := "v"]}%string s c0_made Hrtc) as [Hget _].
  exact (Hget 7%nat "x"%string 0%nat "v"%string Hs).
Defined.
End Witness.
