(* ===== verification/Pool.v ===== *)
(** * The elastic connection pool (03-connection-pooling/pooled_client.go)

    The pool's counter and free list, every goroutine that works on them
    (callers, the evictor of idle connections, the redialers) as a program
    counter with one function for its next step, and all their interleavings:
    the count is exact and bounded, so no send into the free list blocks; and
    an execution after which nobody restores the promised minimum. *)
From S2P Require Import Prelude.
Local Open Scope Z_scope.

(** ** Data *)

(** The address, the dialer and the checkout and redial timers are not state:
    what they answer is an event of the step below. *)
Record PoolOptions := mkPoolOptions {
  MinSize : Z;
  MaxSize : Z;
  IdleTimeout : Z
}.

(** A connection is named by an integer. *)
Record pooledConn := mkPooledConn { pc_client : Z; pc_returnedAt : Z }.

Record Pool := mkPool {
  p_opts : PoolOptions;
  p_free : list pooledConn;
  p_count : Z
}.

Definition set_free (l : list pooledConn) (p : Pool) : Pool := mkPool (p_opts p) l (p_count p).
Definition set_count (n : Z) (p : Pool) : Pool := mkPool (p_opts p) (p_free p) n.

(** ** Operations under the lock *)

Definition tryReserveGrowth (p : Pool) : Pool * bool :=
  if p_count p <? MaxSize (p_opts p) then (set_count (p_count p + 1) p, true) else (p, false).

Definition releaseGrowthReservation (p : Pool) : Pool := set_count (p_count p - 1) p.

Definition tryReserveRestore (p : Pool) : Pool * bool :=
  if (p_count p <? MinSize (p_opts p)) && (p_count p <? MaxSize (p_opts p))
  then (set_count (p_count p + 1) p, true) else (p, false).

(** A send into the free list, which has room for MaxSize; [None] blocks. *)
Definition sendFree (p : Pool) (pc : pooledConn) : option Pool :=
  if zlen (p_free p) <? MaxSize (p_opts p) then Some (set_free (p_free p ++ [pc]) p) else None.

Definition recvFree (p : Pool) : option (pooledConn * Pool) :=
  match p_free p with
  | [] => None
  | pc :: free => Some (pc, set_free free p)
  end.

(** The evictor's decision about one connection, in its critical section. *)
Definition evictDecision (p : Pool) (pc : pooledConn) (now : Z) : Pool * bool :=
  if (MinSize (p_opts p) <? p_count p) && (IdleTimeout (p_opts p) <? now - pc_returnedAt pc)
  then (set_count (p_count p - 1) p, true) else (p, false).

Definition idleCheckInterval (opts : PoolOptions) (millisecond : Z) : Z :=
  let interval := Z.quot (IdleTimeout opts) 4 in
  if interval <? millisecond then millisecond else interval.

(** ** NewPool *)

Inductive PoolError := ErrMaxSize (n : Z) | ErrMinSize (min max : Z) | ErrDialing (i : Z).

(** The dialing loop: [dials] are the answers of rpc.Dial, in order. *)
Fixpoint dialInitial (p : Pool) (n : nat) (dials : list (option pooledConn)) : Pool + PoolError :=
  match n with
  | O => inl p
  | S n =>
      match dials with
      | Some pc :: dials =>
          dialInitial (mkPool (p_opts p) (p_free p ++ [pc]) (p_count p + 1)) n dials
      | _ => inr (ErrDialing (p_count p + 1))
      end
  end.

Definition NewPool (opts : PoolOptions) (dials : list (option pooledConn)) : Pool + PoolError :=
  if MaxSize opts <? 1 then inr (ErrMaxSize (MaxSize opts))
  else if (MinSize opts <? 0) || (MaxSize opts <? MinSize opts)
  then inr (ErrMinSize (MinSize opts) (MaxSize opts))
  else dialInitial (mkPool opts [] 0) (Z.to_nat (MinSize opts)) dials.

(** ** Goroutines *)

Inductive Goroutine :=
| GCheckout                            (* Call entered checkout *)
| GTryGrow                             (* nothing idle: before tryReserveGrowth *)
| GDial                                (* growth slot reserved, dialing *)
| GDialFailed                          (* before releaseGrowthReservation *)
| GWait                                (* the bounded wait of checkout *)
| GUse (c : Z)                         (* making the RPC *)
| GCheckin (c : Z) (err : bool)        (* before the send of checkin; whether the RPC failed *)
| GBroken                              (* connection closed, before count-- *)
| GTryRestore                          (* before tryReserveRestore *)
| GRestoring                           (* restore slot reserved, dialing *)
| GRestoreFailed                       (* before releaseGrowthReservation *)
| GRedial                              (* redialUntilMinRestored: waiting for a tick *)
| GRedialing                           (* slot reserved, dialing *)
| GRedialFailed                        (* before releaseGrowthReservation *)
| GRedialSend (c : Z)                  (* the select between send and stop *)
| GRedialStop                          (* stopped: before releaseGrowthReservation *)
| GIdle                                (* runIdleEvictor: waiting for a tick *)
| GSweep (n : nat)                     (* evictIdleConnections: [n] turns left *)
| GSweepHas (pc : pooledConn) (n : nat)   (* before the decision *)
| GSweepKeep (pc : pooledConn) (n : nat)  (* before the send back *)
| GDone (err : bool).                  (* returned; [true]: with an error *)

(** What the world contributes to a step. *)
Inductive PoolEvent :=
| EGo (now : Z)                        (* the next statement runs, at this time *)
| EDialed (c : Z) | EDialError
| ECallOK | ECallError
| ETimeout                             (* of checkout *)
| ETick                                (* of the goroutine's ticker *)
| EStop.                               (* stopCh is closed *)

(** ** The next step of a goroutine

    The pool, the goroutine and those it starts. [None]: the event is not one
    it waits for, or it blocks. *)

(** Call: checkout, the RPC, checkin, evictAndReplace. *)
Definition call_step (p : Pool) (g : Goroutine) (ev : PoolEvent) :
    option (Pool * Goroutine * list Goroutine) :=
  match g, ev with
  | GCheckout, EGo _ =>
      match recvFree p with
      | Some (pc, p) => Some (p, GUse (pc_client pc), [])
      | None => Some (p, GTryGrow, [])
      end
  | GTryGrow, EGo _ =>
      let '(p, ok) := tryReserveGrowth p in Some (p, if ok : bool then GDial else GWait, [])
  | GDial, EDialed c => Some (p, GUse c, [])
  | GDial, EDialError => Some (p, GDialFailed, [])
  | GDialFailed, EGo _ => Some (releaseGrowthReservation p, GWait, [])
  | GWait, EGo _ => '(pc, p) ← recvFree p; Some (p, GUse (pc_client pc), [])
  | GWait, ETimeout => Some (p, GDone true, [])
  | GUse c, ECallOK => Some (p, GCheckin c false, [])
  | GUse _, ECallError => Some (p, GBroken, [])
  | GCheckin c err, EGo now => p ← sendFree p (mkPooledConn c now); Some (p, GDone err, [])
  | GBroken, EGo _ => Some (set_count (p_count p - 1) p, GTryRestore, [])
  | GTryRestore, EGo _ =>
      let '(p, ok) := tryReserveRestore p in
      Some (p, if ok : bool then GRestoring else GDone true, [])
  | GRestoring, EDialed c => Some (p, GCheckin c true, [])
  | GRestoring, EDialError => Some (p, GRestoreFailed, [])
  | GRestoreFailed, EGo _ => Some (releaseGrowthReservation p, GDone true, [GRedial])
  | _, _ => None
  end.

(** redialUntilMinRestored. *)
Definition redialer_step (p : Pool) (g : Goroutine) (ev : PoolEvent) :
    option (Pool * Goroutine * list Goroutine) :=
  match g, ev with
  | GRedial, EStop => Some (p, GDone false, [])
  | GRedial, ETick =>
      let '(p, ok) := tryReserveRestore p in
      Some (p, if ok : bool then GRedialing else GDone false, [])
  | GRedialing, EDialed c => Some (p, GRedialSend c, [])
  | GRedialing, EDialError => Some (p, GRedialFailed, [])
  | GRedialFailed, EGo _ => Some (releaseGrowthReservation p, GRedial, [])
  | GRedialSend c, EGo now => p ← sendFree p (mkPooledConn c now); Some (p, GDone false, [])
  | GRedialSend _, EStop => Some (p, GRedialStop, [])
  | GRedialStop, EGo _ => Some (releaseGrowthReservation p, GDone false, [])
  | _, _ => None
  end.

(** runIdleEvictor and evictIdleConnections. *)
Definition evictor_step (p : Pool) (g : Goroutine) (ev : PoolEvent) :
    option (Pool * Goroutine * list Goroutine) :=
  match g, ev with
  | GIdle, EStop => Some (p, GDone false, [])
  | GIdle, ETick => Some (p, GSweep (length (p_free p)), [])
  | GSweep O, EGo _ => Some (p, GIdle, [])
  | GSweep (S n), EGo _ =>
      match recvFree p with
      | Some (pc, p) => Some (p, GSweepHas pc n, [])
      | None => Some (p, GIdle, [])
      end
  | GSweepHas pc n, EGo now =>
      let '(p, evict) := evictDecision p pc now in
      Some (p, if evict : bool then GSweep n else GSweepKeep pc n, [])
  | GSweepKeep pc n, EGo _ => p ← sendFree p pc; Some (p, GSweep n, [])
  | _, _ => None
  end.

Definition goroutine_step (p : Pool) (g : Goroutine) (ev : PoolEvent) :
    option (Pool * Goroutine * list Goroutine) :=
  match g with
  | GRedial | GRedialing | GRedialFailed | GRedialSend _ | GRedialStop => redialer_step p g ev
  | GIdle | GSweep _ | GSweepHas _ _ | GSweepKeep _ _ => evictor_step p g ev
  | _ => call_step p g ev
  end.

(** The pool and every goroutine ever started, by its number. *)
Definition PoolSystem : Type := Pool * list Goroutine.

(** Goroutine [i] takes a step. *)
Definition pool_run1 (s : PoolSystem) (i : nat) (ev : PoolEvent) : option PoolSystem :=
  g ← s.2 !! i;
  '(p, g', started) ← goroutine_step s.1 g ev;
  Some (p, <[i := g']> s.2 ++ started).

Inductive pool_step : PoolSystem → PoolSystem → Prop :=
| ps_call p gs : pool_step (p, gs) (p, gs ++ [GCheckout])
| ps_run s i ev s' : pool_run1 s i ev = Some s' → pool_step s s'.

(** What NewPool leaves: its connections, and the idle evictor. *)
Definition newSystem (p : Pool) : PoolSystem := (p, [GIdle]).

(** Close, once every goroutine has finished: [closeErr] is what closing a
    connection answers. The result is the first error's connection, if any. *)
Definition Close (p : Pool) (closeErr : Z → bool) : option Z :=
  head (filter (λ c, closeErr c = true) (map pc_client (p_free p))).

(** ** The count *)

(** Whether a goroutine holds one of the counted slots. *)
Definition holds (g : Goroutine) : Z :=
  match g with
  | GDial | GDialFailed | GUse _ | GCheckin _ _ | GBroken | GRestoring | GRestoreFailed
  | GRedialing | GRedialFailed | GRedialSend _ | GRedialStop | GSweepHas _ _ | GSweepKeep _ _ => 1
  | _ => 0
  end.

Definition held (gs : list Goroutine) : Z := foldr (λ g n, holds g + n) 0 gs.

Definition opts_ok (opts : PoolOptions) : Prop := 1 ≤ MaxSize opts ∧ 0 ≤ MinSize opts ≤ MaxSize opts.

Definition pool_ok (s : PoolSystem) : Prop :=
  opts_ok (p_opts s.1) ∧ p_count s.1 = zlen (p_free s.1) + held s.2 ∧
  p_count s.1 ≤ MaxSize (p_opts s.1).

Lemma holds_bounds g : 0 ≤ holds g ≤ 1.
Proof. destruct g; simpl; lia. Qed.

Lemma held_nonneg gs : 0 ≤ held gs.
Proof. induction gs as [|g gs IH]; simpl; [done|]. pose proof (holds_bounds g). lia. Qed.

Lemma held_app gs1 gs2 : held (gs1 ++ gs2) = held gs1 + held gs2.
Proof. induction gs1 as [|g gs1 IH]; simpl; [done|]. rewrite IH. lia. Qed.

Lemma held_insert gs i g g' : gs !! i = Some g → held (<[i := g']> gs) = held gs - holds g + holds g'.
Proof.
  revert i. induction gs as [|x gs IH]; intros [|i]; simpl; try done.
  - intros [= ->]. lia.
  - intros Hi. rewrite (IH i Hi). lia.
Qed.

Lemma held_elem gs i g : gs !! i = Some g → holds g ≤ held gs.
Proof.
  revert i. induction gs as [|x gs IH]; intros [|i]; simpl; try done.
  - intros [= ->]. pose proof (held_nonneg gs). lia.
  - intros Hi. specialize (IH i Hi). pose proof (holds_bounds x). lia.
Qed.

(** A step moves the count by as much as it moves the slots. *)
Lemma goroutine_step_count p g ev p' g' started :
  goroutine_step p g ev = Some (p', g', started) →
  p_opts p' = p_opts p ∧
  p_count p' - zlen (p_free p') - holds g' - held started = p_count p - zlen (p_free p) - holds g ∧
  (p_count p ≤ MaxSize (p_opts p) → p_count p' ≤ MaxSize (p_opts p)).
Proof.
  unfold goroutine_step, call_step, redialer_step, evictor_step. intros H. destruct g, ev; try done;
    unfold recvFree, sendFree, tryReserveGrowth, tryReserveRestore, evictDecision,
      releaseGrowthReservation in H;
    repeat match type of H with
    | context [match p_free p with _ => _ end] => destruct (p_free p) eqn:?
    | context [if ?b then _ else _] => destruct b eqn:?
    | context [match ?n with O => _ | S _ => _ end] => destruct n
    end; simplify_eq/=; rewrite ?zlen_app, ?zlen_cons, ?zlen_nil;
    repeat match goal with H : (_ && _) = true |- _ => apply andb_prop in H as [? ?] end;
    repeat match goal with H : (_ <? _) = true |- _ => apply Z.ltb_lt in H end;
    repeat match goal with H : p_free ?q = _ |- _ => rewrite H end;
    rewrite ?zlen_cons, ?zlen_nil; split_and!; (done || lia).
Qed.

Lemma pool_step_ok s s' : pool_ok s → pool_step s s' → pool_ok s'.
Proof.
  intros (Hopts & Hcount & Hmax) H. destruct H as [p gs|[p gs] i ev s' H]; simpl in *.
  - split_and!; simpl; [done| |done]. rewrite held_app. simpl. lia.
  - unfold pool_run1 in H. simpl in H. destruct (gs !! i) as [g|] eqn:Hi; [|done]. simpl in H.
    destruct (goroutine_step p g ev) as [[[p' g'] started]|] eqn:Hs; [|done]. injection H as <-.
    destruct (goroutine_step_count _ _ _ _ _ _ Hs) as (Ho & Hc & Hm). split_and!; simpl.
    + by rewrite Ho.
    + rewrite held_app, (held_insert gs i g g' Hi). lia.
    + rewrite Ho. by apply Hm.
Qed.

Lemma dialInitial_ok p n dials p' : dialInitial p n dials = inl p' →
  p_opts p' = p_opts p ∧ p_count p' = p_count p + Z.of_nat n ∧
  zlen (p_free p') = zlen (p_free p) + Z.of_nat n.
Proof.
  revert p dials. induction n as [|n IH]; intros p dials; simpl; [intros [= <-]; split_and!; (done || lia)|].
  destruct dials as [|[pc|] dials]; try done. intros (? & ? & Hl)%IH. simpl in *.
  rewrite zlen_app, zlen_cons, zlen_nil in Hl. split_and!; [done|lia|lia].
Qed.

Lemma NewPool_ok opts dials p : NewPool opts dials = inl p →
  pool_ok (newSystem p) ∧ p_opts p = opts ∧ p_count p = MinSize opts.
Proof.
  unfold NewPool. destruct (Z.ltb_spec (MaxSize opts) 1); [done|].
  destruct (Z.ltb_spec (MinSize opts) 0); [done|]. destruct (Z.ltb_spec (MaxSize opts) (MinSize opts)); [done|].
  simpl. intros (Ho & Hc & Hl)%dialInitial_ok. simpl in *. rewrite zlen_nil in Hl.
  split; [|split; [done|lia]]. unfold newSystem, pool_ok, opts_ok. simpl. rewrite Ho. split_and!; lia.
Qed.

Lemma pool_reachable_ok opts dials p s : NewPool opts dials = inl p → rtc pool_step (newSystem p) s →
  pool_ok s ∧ p_opts s.1 = opts.
Proof.
  intros (Hok & Ho & _)%NewPool_ok Hrtc.
  assert (∀ a b, rtc pool_step a b → p_opts b.1 = p_opts a.1 ∧ (pool_ok a → pool_ok b)) as Hkeep.
  { intros a b H. induction H as [a|a b c Hab Hbc [IH1 IH2]]; [done|]. split.
    - rewrite IH1. destruct Hab as [q gs|[q gs] i ev b Hrun]; [done|]. unfold pool_run1 in Hrun. simpl in Hrun.
      destruct (gs !! i) as [g|]; [|done]. simpl in Hrun.
      destruct (goroutine_step q g ev) as [[[q' g'] st]|] eqn:Hs; [|done]. injection Hrun as <-.
      by destruct (goroutine_step_count _ _ _ _ _ _ Hs).
    - intros Ha. apply IH2. by apply (pool_step_ok a). }
  destruct (Hkeep _ _ Hrtc) as [Ho' Hok']. split; [by apply Hok'|]. rewrite Ho'. done.
Qed.

(** Goroutines about to send a connection into the free list. *)
Definition sends (g : Goroutine) : bool :=
  match g with GCheckin _ _ | GRedialSend _ | GSweepKeep _ _ => true | _ => false end.

(** C26: the pool's count is exact and bounded. Whatever goroutines call,
    dial, fail, time out, evict and redial in whatever order, count is the
    number of idle connections plus the slots goroutines hold, it stays
    between 0 and MaxSize, and so a goroutine that returns a connection to the
    free list (checkin, a redialer, the idle evictor) never blocks on it. *)
Theorem pool_count_exact opts dials p s :
  NewPool opts dials = inl p → rtc pool_step (newSystem p) s →
  p_count s.1 = zlen (p_free s.1) + held s.2 ∧
  0 ≤ p_count s.1 ≤ MaxSize opts ∧
  ∀ i g now, s.2 !! i = Some g → sends g = true →
    ∃ p' g', goroutine_step s.1 g (EGo now) = Some (p', g', []) ∧
      zlen (p_free p') = zlen (p_free s.1) + 1.
Proof.
  intros Hnew Hrtc. destruct (pool_reachable_ok opts dials p s Hnew Hrtc) as [(Hopts & Hc & Hmax) Ho].
  rewrite Ho in Hmax. split_and!; [done| |done|].
  - rewrite Hc. pose proof (held_nonneg s.2). pose proof (zlen_nonneg (p_free s.1)). lia.
  - intros i g now Hi Hg. pose proof (held_elem _ _ _ Hi) as Hh.
    assert (holds g = 1) as Hg1 by (by destruct g).
    assert (∀ pc, sendFree s.1 pc = Some (set_free (p_free s.1 ++ [pc]) s.1)) as Hsend.
    { intros pc. unfold sendFree. rewrite Ho, (proj2 (Z.ltb_lt _ _)); [done|]. lia. }
    destruct g; try done; simpl; rewrite Hsend; simpl; eexists _, _; (split; [done|]); simpl;
      by rewrite zlen_app, zlen_cons, zlen_nil.
Qed.

(** ** The minimum *)

(** Somebody is going to restore the minimum: a goroutine that has still to
    try, or is trying, or holds a slot. *)
Definition restores (g : Goroutine) : bool :=
  match g with
  | GBroken | GTryRestore | GRestoring | GRestoreFailed | GRedial | GRedialing | GRedialFailed
  | GRedialSend _ => true
  | _ => false
  end.

Fixpoint pool_runs (s : PoolSystem) (steps : list (option (nat * PoolEvent))) : option PoolSystem :=
  match steps with
  | [] => Some s
  | None :: steps => pool_runs (s.1, s.2 ++ [GCheckout]) steps
  | Some (i, ev) :: steps => s ← pool_run1 s i ev; pool_runs s steps
  end.

Lemma pool_runs_rtc steps s s' : pool_runs s steps = Some s' → rtc pool_step s s'.
Proof.
  revert s. induction steps as [|[[i ev]|] steps IH]; intros s; simpl.
  - intros [= <-]. apply rtc_refl.
  - destruct (pool_run1 s i ev) as [s1|] eqn:H1; [|done]. intros H.
    eapply rtc_l; [by eapply ps_run|by apply IH].
  - destruct s as [p gs]. intros H. eapply rtc_l; [apply ps_call|by apply IH].
Qed.

Definition opts1 : PoolOptions := mkPoolOptions 1 2 10.
Definition pool1 : Pool := mkPool opts1 [mkPooledConn 0 0] 1.

(** The only connection breaks and cannot be redialed; while the redialer
    waits for its tick, a caller reserves the free slot to grow; the tick finds
    the minimum met and the redialer ends; then the caller's dial fails. *)
Definition lost_minimum : list (option (nat * PoolEvent)) :=
  [ None; Some (1%nat, EGo 1); Some (1%nat, ECallError); Some (1%nat, EGo 1); Some (1%nat, EGo 1);
    Some (1%nat, EDialError); Some (1%nat, EGo 1);
    None; Some (3%nat, EGo 2); Some (3%nat, EGo 2);
    Some (2%nat, ETick);
    Some (3%nat, EDialError); Some (3%nat, EGo 3); Some (3%nat, ETimeout) ].

(** Steps of the goroutines there are, without a new call. *)
Definition quiet_step (s s' : PoolSystem) : Prop := ∃ i ev, pool_run1 s i ev = Some s'.

(** Nobody is left but the evictor, with nothing to evict. *)
Definition abandoned (s : PoolSystem) : Prop :=
  p_count s.1 = 0 ∧ p_free s.1 = [] ∧
  Forall (λ g, match g with GIdle | GSweep _ | GDone _ => True | _ => False end) s.2.

Lemma abandoned_step s s' : abandoned s → quiet_step s s' → abandoned s'.
Proof.
  intros (Hc & Hf & Hall) (i & ev & Hrun). destruct s as [p gs]. unfold pool_run1 in Hrun. simpl in *.
  destruct (gs !! i) as [g|] eqn:Hi; [|done]. simpl in Hrun.
  assert (match g with GIdle | GSweep _ | GDone _ => True | _ => False end) as Hg
    by (rewrite Forall_forall in Hall; apply Hall; by eapply list_elem_of_lookup_2).
  destruct g; try done; destruct ev; try done; simpl in Hrun;
    repeat match type of Hrun with
    | context [match ?n with O => _ | S _ => _ end] => destruct n
    end; unfold recvFree in Hrun; rewrite ?Hf in Hrun; simplify_eq/=;
    rewrite app_nil_r; (split_and!; [done|done|]); by apply Forall_insert.
Qed.

(** The minimum can be lost for good. There is an execution of a pool
    with MinSize 1 after which it has no connection, every goroutine but the
    idle evictor has returned, and no later step of the goroutines there are
    ever changes that: nothing restores the minimum until somebody calls. *)
Theorem minimum_lost : ∃ s,
  NewPool opts1 [Some (mkPooledConn 0 0)] = inl pool1 ∧ rtc pool_step (newSystem pool1) s ∧
  s.2 = [GIdle; GDone true; GDone false; GDone true] ∧
  ∀ s', rtc quiet_step s s' →
    p_count s'.1 < MinSize opts1 ∧ ∀ i g, s'.2 !! i = Some g → restores g = false.
Proof.
  destruct (pool_runs (newSystem pool1) lost_minimum) as [s|] eqn:Hrun; [|by vm_compute in Hrun].
  exists s. split; [done|]. split; [by apply (pool_runs_rtc lost_minimum)|].
  vm_compute in Hrun. injection Hrun as <-. split; [done|]. intros s' Hrtc.
  assert (abandoned s') as (Hc & _ & Hall).
  { assert (∀ a b, rtc quiet_step a b → abandoned a → abandoned b) as Hkeep.
    { intros a b H. induction H; eauto using abandoned_step. }
    apply (Hkeep _ _ Hrtc). split_and!; [done|done|]. repeat constructor. }
  split; [rewrite Hc; by vm_compute|]. intros i g Hi. rewrite Forall_forall in Hall.
  specialize (Hall g (list_elem_of_lookup_2 _ _ _ Hi)). by destruct g.
Qed.

(** ** One pool per address *)

(** The loop of newPooledCaller: [dials addr] are the dialer's answers. On an
    error the pools made so far are closed and the error returned. *)
Fixpoint newPooledCaller (opts : PoolOptions) (addrs : list string)
    (dials : string → list (option pooledConn)) (pools : gmap string Pool) :
    gmap string Pool + PoolError :=
  match addrs with
  | [] => inl pools
  | addr :: addrs =>
      match NewPool opts (dials addr) with
      | inl p => newPooledCaller opts addrs dials (<[addr := p]> pools)
      | inr err => inr err
      end
  end.

Module Witness.
Lemma pool_count_exact_witness :
  NewPool opts1 [Some (mkPooledConn 0 0)] = inl pool1 ∧ 0 ≤ p_count pool1 ≤ 2.
Proof.
  split; [reflexivity|].
  destruct (pool_count_exact opts1 [Some (mkPooledConn 0 0)] pool1 (newSystem pool1) eq_refl
    (rtc_refl _ _)) as (_ & Hb & _). exact Hb.
Defined.
End Witness.
