(* ===== verification/ClerkFacts.v ===== *)
(** * What the clients guarantee

    The round-robin loop returns once some server answers for good, and asks
    every server once per round; and a client's writes take effect exactly once
    and in call order whatever was retried, against the interface of a
    replicated log of operations with duplicate detection. *)
From S2P Require Import Prelude Persister Dedup Waiters RaftNode KVServer KVServerFacts Clerk.
Local Open Scope Z_scope.

(** ** Round robin *)

Section retry.
Context {W Srv Req Reply A : Type}.
Variable call : Srv → Req → W → option Reply * W.
Variable sleep : W → W.
Variable startIndex : W → Z.
Variable judge : Reply → judgement A.
Variable servers : list Srv.
Variable req : Req.
Abbreviation sweep := (sweep call judge servers req).
Abbreviation retry := (retry call sleep startIndex judge servers req).
Let n := zlen servers.

(** The worlds of consecutive rounds, as long as nobody answers. *)
Fixpoint rounds (m : nat) (w : W) : option W :=
  match m with
  | O => Some w
  | S m =>
      match sweep (startIndex w) (length servers) 0 w with
      | Ret (w, None) => rounds m (sleep w)
      | _ => None
      end
  end.

(** From [stable] worlds on, server [srv] answers for good and no call or
    sleep changes that. *)
Record stable (srv : Srv) (I : W → Prop) : Prop := {
  stable_call s w : I w → I (call s req w).2;
  stable_sleep w : I w → I (sleep w);
  stable_answers w : I w → ∃ reply a, (call srv req w).1 = Some reply ∧ judge reply = Answer a
}.

Lemma zget_in_range (i : Z) : 0 ≤ i < n → ∃ s, zget servers i = Some s.
Proof. unfold n. intros Hi. by apply zget_is_Some. Qed.

(** A sweep that still has [srv]'s index ahead of it returns an answer, or
    some reply made it give up. *)
Lemma sweep_answers srv I start k i j w : stable srv I → I w →
  0 ≤ start → 0 ≤ i ≤ j → j < i + Z.of_nat k → zget servers (Z.rem (start + j) n) = Some srv →
  sweep start k i w ≠ Panic → ∃ w' idx a, sweep start k i w = Ret (w', Some (idx, a)) ∧ 0 ≤ idx < n.
Proof.
  intros Hst. revert i w. induction k as [|k IH]; intros i w HI Hs Hi Hj Hsrv Hnp; [lia|].
  assert (0 < n) as Hn.
  { unfold n, zlen. destruct servers; [|simpl; lia]. revert Hsrv. unfold zget. by case_bool_decide. }
  simpl in *. fold n in Hnp |- *.
  destruct (zget_in_range (Z.rem (start + i) n)) as (s & Hgs); [pose proof (Z.rem_bound_pos (start + i) n); lia|].
  rewrite Hgs in Hnp |- *. simpl in *.
  pose proof (stable_call _ _ Hst s w HI) as HI'. destruct (call s req w) as [reply w1] eqn:Hc. simpl in HI'.
  assert (i = j → ∃ a, judge <$> reply = Some (Answer a)) as Hhit.
  { intros ->. rewrite Hsrv in Hgs. injection Hgs as ->.
    destruct (stable_answers _ _ Hst w HI) as (r & a & Hr & Ha). rewrite Hc in Hr. simpl in Hr. subst.
    exists a. simpl. by rewrite Ha. }
  destruct (decide (i = j)) as [Heq|Hne].
  { destruct (Hhit Heq) as (a & ->). pose proof (Z.rem_bound_pos (start + i) n). eauto 10 with lia. }
  destruct (judge <$> reply) as [[a| |]|] eqn:Hjd; try (by destruct Hnp); try (apply IH; auto; lia).
  pose proof (Z.rem_bound_pos (start + i) n). eauto 10 with lia.
Qed.

Lemma sweep_no_panic start k i w : (∀ reply, judge reply ≠ Reject) → 0 < n → 0 ≤ start → 0 ≤ i →
  sweep start k i w ≠ Panic.
Proof.
  intros Hj Hn Hs. revert i w. induction k as [|k IH]; intros i w Hi; simpl; [done|]. fold n.
  destruct (zget_in_range (Z.rem (start + i) n)) as (s & ->); [pose proof (Z.rem_bound_pos (start + i) n); lia|].
  simpl. destruct (call s req w) as [[reply|] w1]; simpl; [|apply IH; lia].
  pose proof (Hj reply). destruct (judge reply); [done|apply IH; lia|done].
Qed.

Lemma sweep_index start k i w w' idx a : sweep start k i w = Ret (w', Some (idx, a)) →
  0 < n → 0 ≤ start → 0 ≤ i → 0 ≤ idx < n.
Proof.
  intros Hr Hn Hs. revert i w Hr. induction k as [|k IH]; intros i w Hr Hi; simpl in Hr; [done|].
  fold n in Hr. apply bind_Ret_inv in Hr as (s & _ & Hr). destruct (call s req w) as [reply w1].
  destruct (judge <$> reply) as [[a'| |]|]; try done; try (eapply IH; [exact Hr|lia]).
  injection Hr as <- <- <-. apply Z.rem_bound_pos; lia.
Qed.

(** One round in a stable world. *)
Lemma round_answers L srv I w : (∀ reply, judge reply ≠ Reject) → (∀ w, 0 ≤ startIndex w < n) →
  zget servers L = Some srv → stable srv I → I w →
  ∃ w' idx a, sweep (startIndex w) (length servers) 0 w = Ret (w', Some (idx, a)) ∧ 0 ≤ idx < n.
Proof.
  intros Hj Hstart HL Hst HI. pose proof (zget_Some_bound _ _ _ HL) as HLn. fold n in HLn.
  pose proof (Hstart w) as Hs. set (start := startIndex w) in *.
  pose proof (Z.mod_pos_bound (L - start) n) as Hb.
  assert (Z.rem (start + (L - start) mod n) n = L) as HjL.
  { rewrite Z.rem_mod_nonneg by lia. rewrite Z.add_mod_idemp_r by lia.
    replace (start + (L - start)) with L by lia. by apply Z.mod_small. }
  apply (sweep_answers srv I start _ 0 ((L - start) mod n)); auto; try lia.
  - unfold n, zlen in *. lia.
  - by rewrite HjL.
  - apply sweep_no_panic; auto; lia.
Qed.

(** C21: The loop of the clients terminates. If by the [m]-th round the world
    is one from which on some server answers for good (a stable leader), or the
    call has returned before, then the call returns within [m + 1] rounds,
    with any larger bound alike, whichever server it started from: a round
    asks every server of the list before it sleeps. The index it returns, the
    next lastKnown, is an index into the server list. *)
Theorem retry_returns m L srv I w : (∀ reply, judge reply ≠ Reject) → (∀ w, 0 ≤ startIndex w < n) →
  zget servers L = Some srv → stable srv I → (∀ w', rounds m w = Some w' → I w') →
  ∃ w' idx a, (∀ fuel, (m < fuel)%nat → retry fuel w = Some (Ret (w', (idx, a)))) ∧ 0 ≤ idx < n.
Proof.
  intros Hj Hstart HL Hst. pose proof (zget_Some_bound _ _ _ HL) as HLn. fold n in HLn.
  revert w. induction m as [|m IH]; intros w HI; simpl in HI.
  - destruct (round_answers L srv I w) as (w' & idx & a & Hr & Hi); auto.
    exists w', idx, a. split; [|done]. intros [|fuel] Hf; [lia|]. simpl. by rewrite Hr.
  - pose proof (Hstart w). pose proof (sweep_no_panic (startIndex w) (length servers) 0 w) as Hnp.
    destruct (sweep _ _ _ w) as [[w1 [[idx a]|]]|] eqn:Hr; [| |by destruct Hnp; auto; lia].
    + exists w1, idx, a. split.
      * intros [|fuel] Hf; [lia|]. simpl. by rewrite Hr.
      * destruct (sweep_index _ _ _ _ _ _ _ Hr); auto; lia.
    + destruct (IH (sleep w1) HI) as (w' & idx & a & Hret & Hi). exists w', idx, a. split; [|done].
      intros [|fuel] Hf; [lia|]. simpl. rewrite Hr. apply Hret. lia.
Qed.
End retry.

(** ** Exactly once *)

(** What the clients of a replicated log of operations are promised, for the
    client with id [c], which no other client uses. [committed] only grows; an
    operation of [c] is committed only if [c] sent it, then or before (it may
    be [inflight]: proposed by a server that answered with an error or not at
    all), maybe many times; and an OK means it is committed. *)
Class ReplicatedLog {W Srv : Type} (c : Z) (call : Srv → PutAppendArgs → W → option Err * W)
    (sleep : W → W) := {
  committed : W → list Op;
  inflight : W → list Op;
  advances (w w' : W) (sent : list Op) : Prop :=
    ∃ new, committed w' = committed w ++ new ∧
      ∀ op, clientOf op = c → op ∈ new ∨ op ∈ inflight w' → op ∈ inflight w ∨ op ∈ sent;
  call_advances s args w : advances w (call s args w).2 [opOf args];
  sleep_advances w : advances w (sleep w) [];
  call_OK s args w : (call s args w).1 = Some OK → opOf args ∈ committed (call s args w).2
}.

(** The operations of one client. *)
Definition ofClient (c : Z) (ops : list Op) : list Op := filter (λ op, clientOf op = c) ops.

Lemma accepted_app seen l1 l2 :
  accepted seen (l1 ++ l2) = accepted seen l1 ++ accepted (reverse l1 ++ seen) l2.
Proof.
  revert seen. induction l1 as [|o l1 IH]; intros seen; simpl; [done|].
  rewrite IH, reverse_cons, <- (assoc_L (++)). simpl. by destruct (_ <? _).
Qed.

Lemma maxSeq_reverse c l : maxSeq c (reverse l) = maxSeq c l.
Proof.
  induction l as [|o l IH]; [done|]. rewrite reverse_cons, maxSeq_app, IH. simpl.
  pose proof (maxSeq_nonneg c l). destruct (decide _); lia.
Qed.

(** What happens to the log when the only request of a client that can be new
    is [op]: it is accepted once, if it is there. *)
Lemma accepted_retried c n op new seen : clientOf op = c → seqNum op = n + 1 → maxSeq c seen = n →
  (∀ o, o ∈ new → clientOf o = c → o = op ∨ seqNum o ≤ n) →
  ofClient c (accepted seen new) = (if decide (op ∈ new) then [op] else []).
Proof.
  intros Hc Hseq. revert seen.
  assert (∀ new seen, (∀ o, o ∈ new → clientOf o = c → seqNum o ≤ maxSeq c seen) →
    ofClient c (accepted seen new) = []) as Hold.
  { clear. induction new as [|o new IH]; intros seen Hall; [done|]. simpl.
    assert (ofClient c (accepted (o :: seen) new) = []) as Hrest.
    { apply IH. intros p Hp Hcp. etransitivity; [apply Hall; [by right|done]|].
      simpl. destruct (decide _); lia. }
    destruct (Z.ltb_spec (maxSeq (clientOf o) seen) (seqNum o)) as [Hlt|]; [|done].
    unfold ofClient. rewrite filter_cons_False; [done|]. intros Hco.
    pose proof (Hall o ltac:(by left) Hco). rewrite Hco in Hlt. lia. }
  induction new as [|o new IH]; intros seen Hmax Hall; [by rewrite decide_False by apply not_elem_of_nil|].
  simpl. destruct (decide (o = op)) as [->|Hne].
  - rewrite Hc, Hmax, (proj2 (Z.ltb_lt _ _)) by lia. rewrite decide_True by (by left).
    unfold ofClient at 1. rewrite filter_cons_True by done. f_equal. apply Hold.
    intros o Ho Hco. simpl. rewrite decide_True, Hmax by done.
    destruct (Hall o ltac:(by right) Hco) as [->|]; lia.
  - assert (ofClient c (accepted (o :: seen) new) = (if decide (op ∈ new) then [op] else [])) as Hrest.
    { apply IH.
      - simpl. destruct (decide (clientOf o = c)) as [Hco|]; [|done].
        destruct (Hall o ltac:(by left) Hco) as [|]; [done|]. lia.
      - intros p Hp. apply Hall. by right. }
    replace (if decide (op ∈ o :: new) then [op] else []) with (if decide (op ∈ new) then [op] else [])
      by (destruct (decide (op ∈ new)), (decide (op ∈ o :: new)) as [Hin|]; set_solver).
    rewrite <- Hrest. destruct (Z.ltb_spec (maxSeq (clientOf o) seen) (seqNum o)) as [Hlt|]; [|done].
    unfold ofClient. rewrite filter_cons_False; [done|]. intros Hco.
    destruct (Hall o ltac:(by left) Hco) as [|]; [done|]. rewrite Hco in Hlt. lia.
Qed.

Section exactly_once.
Context {W Srv : Type} {c : Z} {call : Srv → PutAppendArgs → W → option Err * W} {sleep : W → W}.
Context `{!ReplicatedLog c call sleep}.
Implicit Type w : W.

Lemma advances_refl w sent : advances w w sent.
Proof.
  exists []. rewrite app_nil_r. split; [done|]. intros op _ [Hin|Hin]; [by apply not_elem_of_nil in Hin|by left].
Qed.

Lemma advances_weaken w w' sent sent' : sent ⊆ sent' → advances w w' sent → advances w w' sent'.
Proof.
  intros Hsub (new & Hc & Hnew). exists new. split; [done|]. intros op Ho Hin.
  destruct (Hnew op Ho Hin); [by left|right; by apply Hsub].
Qed.

Lemma advances_trans w1 w2 w3 sent : advances w1 w2 sent → advances w2 w3 sent → advances w1 w3 sent.
Proof.
  intros (new1 & H1 & Hn1) (new2 & H2 & Hn2). exists (new1 ++ new2). rewrite H2, H1, (assoc_L (++)).
  split; [done|]. intros op Ho [[Hin|Hin]%elem_of_app|Hin]; [by apply Hn1; [|left]|..];
    (destruct (Hn2 op Ho) as [Hi|]; [by auto|by apply Hn1; [|right]|by right]).
Qed.

Lemma advances_keeps w w' sent op : advances w w' sent → op ∈ committed w → op ∈ committed w'.
Proof. intros (new & -> & _) Hin. apply elem_of_app. by left. Qed.

Abbreviation loop start := (retry call sleep (λ _, start) judgePutAppend).

Lemma sweep_advances servers args start k i w w' r :
  sweep call judgePutAppend servers args start k i w = Ret (w', r) →
  advances w w' [opOf args] ∧ (is_Some r → opOf args ∈ committed w').
Proof.
  revert i w. induction k as [|k IH]; intros i w; simpl.
  { intros [= <- <-]. split; [apply advances_refl|by intros []]. }
  intros (s & _ & H)%bind_Ret_inv. pose proof (call_advances s args w) as Ha.
  pose proof (call_OK s args w) as Hok. destruct (call s args w) as [reply w1]. simpl in Ha, Hok.
  assert (sweep call judgePutAppend servers args start k (i + 1) w1 = Ret (w', r) →
    advances w w' [opOf args] ∧ (is_Some r → opOf args ∈ committed w')) as Hnext.
  { intros [Ha2 Hok2]%IH. split; [by eapply advances_trans|done]. }
  destruct reply as [[| | |]|]; simpl in H; try by apply Hnext.
  injection H as <- <-. auto.
Qed.

Lemma retry_advances servers args start fuel w w' r :
  loop start servers args fuel w = Some (Ret (w', r)) →
  advances w w' [opOf args] ∧ opOf args ∈ committed w'.
Proof.
  revert w. induction fuel as [|fuel IH]; intros w; simpl; [done|].
  destruct (sweep _ _ _ _ _ _ _ w) as [[w1 [a|]]|] eqn:Hs; [| |done]; apply sweep_advances in Hs as [Ha Hok].
  - intros [= <- _]. auto.
  - intros [Ha2 Hin]%IH. split; [|done]. eapply advances_trans; [exact Ha|].
    eapply advances_trans; [|exact Ha2]. eapply advances_weaken, sleep_advances. set_solver.
Qed.

(** Every request the client has made so far is committed, [hist] is what of
    it took effect, and nothing newer is under way. *)
Definition settled (w : W) (n : Z) (hist : list Op) : Prop :=
  ofClient c (accepted [] (committed w)) = hist ∧ maxSeq c (committed w) = n ∧
  ∀ op, op ∈ inflight w → clientOf op = c → seqNum op ≤ n.

Lemma maxSeq_le m ops : 0 ≤ m → (∀ op, op ∈ ops → clientOf op = c → seqNum op ≤ m) → maxSeq c ops ≤ m.
Proof.
  intros Hm. induction ops as [|o ops IH]; intros Hall; simpl; [done|].
  assert (maxSeq c ops ≤ m) by (apply IH; intros op Hop; apply Hall; by right).
  destruct (decide _) as [Ho|]; [|done]. pose proof (Hall o ltac:(by left) Ho). lia.
Qed.

Lemma settled_request w w' n hist op : settled w n hist → clientOf op = c → seqNum op = n + 1 →
  advances w w' [op] → op ∈ committed w' → settled w' (n + 1) (hist ++ [op]).
Proof.
  intros (Hacc & Hmax & Hin) Hc Hseq (new & Hcom & Hnew) Hop.
  assert (0 ≤ n) as Hn by (rewrite <- Hmax; apply maxSeq_nonneg).
  assert (∀ o, clientOf o = c → o ∈ new ∨ o ∈ inflight w' → o = op ∨ seqNum o ≤ n) as Hnew'.
  { intros o Ho Hio. destruct (Hnew o Ho Hio) as [Hi|Hi]; [right; auto|left; by apply list_elem_of_singleton]. }
  assert (op ∈ new) as Hopn.
  { rewrite Hcom in Hop. apply elem_of_app in Hop as [Hop|]; [|done].
    apply maxSeq_in in Hop. rewrite Hc, Hmax in Hop. lia. }
  unfold settled. rewrite Hcom. split_and!.
  - rewrite accepted_app. unfold ofClient in *. rewrite filter_app, Hacc. f_equal.
    change (ofClient c (accepted (reverse (committed w) ++ []) new) = [op]). rewrite app_nil_r.
    rewrite (accepted_retried c n op); [by rewrite decide_True|done|done|by rewrite maxSeq_reverse|].
    intros o Ho Hco. auto.
  - apply Z.le_antisymm.
    + rewrite maxSeq_app, Hmax. apply Z.max_lub; [lia|]. apply maxSeq_le; [lia|].
      intros o Ho Hco. destruct (Hnew' o Hco) as [->|]; [by left|lia|lia].
    + pose proof (maxSeq_in op new Hopn) as Hle. rewrite Hc in Hle. rewrite maxSeq_app. lia.
  - intros o Ho Hco. destruct (Hnew' o Hco) as [->|]; [by right|lia|lia].
Qed.

(** The operations a list of writes asks for. *)
Definition requests (n : Z) (writes : list (string * string * string)) : list Op :=
  imap (λ i '(op, key, value), mkOp op key value c (n + 1 + Z.of_nat i)) writes.

Lemma requests_cons n op key value writes :
  requests n ((op, key, value) :: writes) = mkOp op key value c (n + 1) :: requests (n + 1) writes.
Proof.
  unfold requests. rewrite imap_cons. f_equal; [f_equal; lia|].
  apply imap_ext. intros i [[o k] v] _. simpl. f_equal. lia.
Qed.

Lemma writes_settled fuel ck writes w w' ck' hist : ck_clientID ck = c →
  settled w (ck_seqNum ck) hist → Clerk_writes call sleep fuel ck writes w = Some (Ret (w', ck')) →
  settled w' (ck_seqNum ck') (hist ++ requests (ck_seqNum ck) writes) ∧
  ck_seqNum ck' = ck_seqNum ck + zlen writes.
Proof.
  intros Hid. revert ck w hist Hid. induction writes as [|[[op key] value] writes IH]; intros ck w hist Hid Hset; simpl.
  { intros [= <- <-]. unfold requests. simpl. rewrite app_nil_r, Z.add_0_r. done. }
  unfold Clerk_putAppend. destruct (retry _ _ _ _ _ _ _ w) as [[[w1 [idx []]]|]|] eqn:Hr; simpl; try done.
  apply retry_advances in Hr as [Ha Hin]. cbn [opOf pa_Op pa_Key pa_Value pa_ClientID pa_SeqNum] in Ha, Hin.
  rewrite Hid in Ha, Hin. intros H. eapply (settled_request _ _ _ hist) in Ha; [|done..].
  eapply IH in H as [Hset' Hlen]; [|exact Hid|exact Ha]. cbn [ck_seqNum] in *.
  rewrite requests_cons, zlen_cons. split; [|lia]. by rewrite <- (assoc_L (++)) in Hset'.
Qed.

(** What happens once the program of the client is done. *)
Lemma settled_later w w' n hist : settled w n hist → advances w w' [] → settled w' n hist.
Proof.
  intros (Hacc & Hmax & Hin) (new & Hcom & Hnew).
  assert (0 ≤ n) as Hn by (rewrite <- Hmax; apply maxSeq_nonneg).
  assert (∀ o, clientOf o = c → o ∈ new ∨ o ∈ inflight w' → seqNum o ≤ n) as Hnew'.
  { intros o Ho Hio. destruct (Hnew o Ho Hio) as [Hi|Hi]; [auto|by apply not_elem_of_nil in Hi]. }
  set (op := mkOp "" "" "" c (n + 1)).
  assert (op ∉ new) as Hno.
  { intros Hop. pose proof (Hnew' op eq_refl (or_introl Hop)) as Hle. unfold seqNum in Hle. simpl in Hle. lia. }
  unfold settled. rewrite Hcom. split_and!; [|rewrite maxSeq_app, Hmax; apply Z.max_l, maxSeq_le; auto|auto].
  rewrite accepted_app. unfold ofClient in *. rewrite filter_app, Hacc. rewrite <- (app_nil_r hist) at 2. f_equal.
  change (ofClient c (accepted (reverse (committed w) ++ []) new) = []). rewrite app_nil_r.
  rewrite (accepted_retried c n op); [by rewrite decide_False|done|done|by rewrite maxSeq_reverse|auto].
Qed.

(** Exactly once. A client with an id of its own whose program of writes
    has returned has had exactly these writes take effect, each once and in
    the order of the calls, whichever servers failed, timed out or committed a
    request twice on the way; this is still so at any later time, when delayed
    copies of its requests are committed; and every replica that applies the
    log holds the store that running the accepted operations without any
    duplicate table gives. *)
Theorem writes_exactly_once {P} `{!Persister P, !Codec (persistedState Op), !Codec kvSnapshot}
    fuel servers writes w w1 ck' w2 log (kv kv' : KVServer P) :
  (∀ op, op ∈ committed w ∨ op ∈ inflight w → clientOf op ≠ c) →
  Clerk_writes call sleep fuel (NewClerk servers c) writes w = Some (Ret (w1, ck')) →
  advances w1 w2 [] →
  map snd log = committed w2 → kv_duplicateTable kv = ∅ → applyLoop kv (map entryMsg log) = Ret kv' →
  kv_store kv' = replay (kv_store kv) (accepted [] (committed w2)) ∧
  ofClient c (accepted [] (committed w2)) = requests 0 writes ∧ ck_seqNum ck' = zlen writes.
Proof.
  intros Hnew Hrun Hlater Hlog Hdup Happly.
  assert (settled w 0 []) as H0.
  { split_and!.
    - destruct (ofClient c (accepted [] (committed w))) as [|op ops] eqn:Hof; [done|]. exfalso.
      assert (op ∈ ofClient c (accepted [] (committed w))) as Hop by (rewrite Hof; by left).
      apply list_elem_of_filter in Hop as [Hc [Hin _]%accepted_above]. by eapply Hnew; [left|].
    - apply Z.le_antisymm; [|apply maxSeq_nonneg]. apply maxSeq_le; [done|]. naive_solver.
    - naive_solver. }
  destruct (writes_settled _ _ _ _ _ _ _ (eq_refl : ck_clientID (NewClerk servers c) = c) H0 Hrun) as [H1 Hn].
  destruct (settled_later _ _ _ _ H1 Hlater) as (H2 & _). split_and!; [|done|done].
  rewrite <- Hlog. apply (applyLoop_log _ _ []); [|done]. rewrite Hdup. apply tracks_nil.
Qed.
End exactly_once.

Module Witness.

#[local] Instance op_codec : Codec (persistedState Op) := countable_codec.
#[local] Instance snapshot_codec : Codec kvSnapshot := countable_codec.

(** A small service: two servers in front of one log, and a plan of how the
    next requests fare. [Refuse]: not the leader; [TimeOut]: proposed, no
    answer in time; [Lost]: committed, but the answer is lost. *)
Inductive fate := Refuse | TimeOut | Lost.

Record world := mkWorld { w_log : list Op; w_pending : list Op; w_plan : list fate }.

Definition call (server : Z) (args : PutAppendArgs) (w : world) : option Err * world :=
  let op := opOf args in
  match w_plan w with
  | Refuse :: plan => (Some ErrWrongLeader, mkWorld (w_log w) (w_pending w) plan)
  | TimeOut :: plan => (Some ErrTimeout, mkWorld (w_log w) (w_pending w ++ [op]) plan)
  | Lost :: plan => (None, mkWorld (w_log w ++ [op]) (w_pending w) plan)
  | [] => (Some OK, mkWorld (w_log w ++ [op]) (w_pending w) [])
  end.

(** Everything proposed is committed (again). *)
Definition sleep (w : world) : world := mkWorld (w_log w ++ w_pending w) (w_pending w) (w_plan w).

#[export] Program Instance service : ReplicatedLog 7 call sleep := {
  committed := w_log;
  inflight := w_pending
}.
Next Obligation.
  intros s args w. unfold call. destruct (w_plan w) as [|[] plan]; simpl.
  - exists [opOf args]. split; [done|]. set_solver.
  - exists []. rewrite app_nil_r. set_solver.
  - exists []. rewrite app_nil_r. set_solver.
  - exists [opOf args]. split; [done|]. set_solver.
Qed.
Next Obligation. intros w. exists (w_pending w). set_solver. Qed.
Next Obligation.
  intros s args w. unfold call. destruct (w_plan w) as [|[] plan]; simpl; set_solver.
Qed.

Definition servers : list Z := [0; 1].
Definition w0 : world := mkWorld [] [] [Refuse; TimeOut; Lost; Refuse].
Definition writes : list (string * string * string) :=
  [("Put", "x", "a"); ("Append", "x", "b")]%string.
Definition args1 : PutAppendArgs := mkPutAppendArgs "x" "a" "Put" 7 1.

(** Two rounds without an answer; from then on either server answers. *)
Lemma retry_returns_witness : ∃ w' idx a,
  retry call sleep (λ _, 1) judgePutAppend servers args1 3 w0 = Some (Ret (w', (idx, a))) ∧ 0 ≤ idx < 2.
Proof.
  destruct (retry_returns call sleep (λ _, 1) judgePutAppend servers args1 2 0 0 (λ w, w_plan w = []) w0)
    as (w' & idx & a & Hr & Hi).
  - by intros [].
  - intros w. done.
  - done.
  - split.
    + intros s w Hw. unfold call. by rewrite Hw.
    + intros w Hw. exact Hw.
    + intros w Hw. unfold call. rewrite Hw. by exists OK, tt.
  - intros w' Hw'. vm_compute in Hw'. by injection Hw' as <-.
  - exists w', idx, a. split; [apply Hr; lia|exact Hi].
Defined.

Definition end_of (r : option (outcome (world * Clerk Z))) : world * Clerk Z :=
  match r with Some (Ret x) => x | _ => (w0, NewClerk [] 0) end.
Definition run := end_of (Clerk_writes call sleep 5 (NewClerk servers 7) writes w0).

Definition entries : list (Z * Z * Op) := imap (λ i op, (Z.of_nat i + 1, 1, op)) (committed (sleep run.1)).
Definition kv0 : KVServer MemoryPersister := KVServerFacts.Witness.demo_kv KVServerFacts.Witness.demo_rf.

(** The first write is committed three times, once after its client has
    moved on; the store is that of one Put and one Append. *)
Lemma writes_exactly_once_witness : ∃ kv',
  applyLoop kv0 (map entryMsg entries) = Ret kv' ∧
  kv_store kv' = {["x"%string := "ab"%string]} ∧ committed (sleep run.1) ≠ requests (c:=7) 0 writes ∧
  ofClient 7 (accepted [] (committed (sleep run.1))) = requests (c:=7) 0 writes.
Proof.
  assert (∃ kv', applyLoop kv0 (map entryMsg entries) = Ret kv') as (kv' & Hk)
    by (apply returned_Ret; vm_compute; reflexivity).
  destruct (writes_exactly_once (c:=7) (call:=call) (sleep:=sleep) 5 servers writes w0 run.1 run.2
    (sleep run.1) entries kv0 kv') as (Hs & Ho & _).
  - intros op [Hin|Hin]; vm_compute in Hin; by apply not_elem_of_nil in Hin.
  - vm_compute. reflexivity.
  - apply sleep_advances.
  - vm_compute. reflexivity.
  - vm_compute. reflexivity.
  - exact Hk.
  - exists kv'. split_and!; [exact Hk|rewrite Hs; vm_compute; reflexivity|by vm_compute|exact Ho].
Defined.

End Witness.
