(* ===== verification/ServedKV.v ===== *)
(** * A clerk against the replicated servers

    The system of ReplicatedKV.v, with the restrictions it has from Replicated.v,
    as the clerk of Clerk.v sees it. What an OK
    means there, that only what clients sent is committed, and so that the
    system is a [ReplicatedLog]: a clerk's writes take effect exactly once and
    in order, in the one log that every server's store comes from. *)
From S2P Require Import Prelude Persister Dedup Waiters RaftNode RaftFacts RaftDurable RaftVotes RaftLog RaftDemo RaftPositions RaftCommit RaftCluster RaftDivergence RaftGhost RaftLogMatching RaftChosen RaftSafety RaftCommitted Replicated KVServer KVServerFacts ReplicatedKV Clerk ClerkFacts.
Local Open Scope Z_scope.

Section served.
Context {P : Type} `{!Persister P, !PersisterLaws P}.
Context `{!Codec (persistedState Op), !Codec kvSnapshot}.
Abbreviation Raft := (Raft Op P).
Abbreviation KVServer := (KVServer P).
Abbreviation Cluster := (Cluster (Cmd:=Op) (P:=P)).
Abbreviation Replica := (Replica (Op:=Op) (Srv:=Service (P:=P))).
Abbreviation System := (System (P:=P)).
Abbreviation Log := (list (LogEntry Op)).
Implicit Type r : Raft.
Implicit Type c : Cluster.
Implicit Type kv : KVServer.
Implicit Type a : Replica.
Implicit Type s : System.
Implicit Type K : Log.
Implicit Type Ld : gmap Z Log.

(** ** Only what clients sent is in the logs *)

(** [op] is the no-op loop's, or was asked for. *)
Definition sourced (reqs : list (Z * PutAppendArgs)) (op : Op) : Prop :=
  op = noop ∨ ∃ i args, (i, args) ∈ reqs ∧ op = opOf args.

Record all_sourced c (reqs : list (Z * PutAppendArgs)) : Prop := {
  so_node i r e : c_nodes c !! i = Some r → e ∈ r_log r → sourced reqs (le_Command e);
  so_hist h e : h ∈ c_hist c → e ∈ r_log h → sourced reqs (le_Command e);
  so_msg to args e : MAppendReq to args ∈ c_net c → e ∈ ae_Entries args →
    sourced reqs (le_Command e)
}.

Lemma sourced_mono reqs reqs' op : reqs ⊆ reqs' → sourced reqs op → sourced reqs' op.
Proof. intros Hs [?|(i & args & ? & ?)]; [by left|right]. exists i, args. auto. Qed.

Lemma all_sourced_mono c reqs reqs' : reqs ⊆ reqs' → all_sourced c reqs → all_sourced c reqs'.
Proof. intros Hs [H1 H2 H3]. split; eauto using sourced_mono. Qed.

Lemma sourced_step c c' reqs :
  step_view c c' → (∀ op, proposes c c' op → sourced reqs op) →
  all_sourced c reqs → all_sourced c' reqs.
Proof.
  intros [Hnet Hmove] Hprop [Hn Hh Hm].
  assert (∀ to args e, MAppendReq to args ∈ c_net c' → e ∈ ae_Entries args →
    sourced reqs (le_Command e)) as Hm'.
  { intros to args e [Hin|(i & r & Hi & Hsub)]%Hnet He; eauto. }
  destruct Hmove as [[Hnn Hhh]|(i & r & r' & Hi & Hnn & Hhh & _ & Hent)].
  { split; [by rewrite Hnn|by rewrite Hhh|done]. }
  assert (∀ e, e ∈ r_log r' → sourced reqs (le_Command e)) as Hr'.
  { intros e [?|[(args & ? & ?)|?]]%Hent; eauto. }
  split; [| |done].
  - intros j rj e. rewrite Hnn. intros [[_ <-]|[_ Hj]]%lookup_insert_Some; eauto.
  - intros h e. rewrite Hhh. intros [->|Hin]%elem_of_cons; eauto.
Qed.

Lemma sourced_update c i r r' msgs reqs :
  c_nodes c !! i = Some r →
  (∀ e, e ∈ r_log r' → e ∈ r_log r ∨ sourced reqs (le_Command e)) →
  (∀ to args, MAppendReq to args ∉ msgs) →
  all_sourced c reqs → all_sourced (update c i r' msgs) reqs.
Proof.
  intros Hi Hr' Hmsgs [Hn Hh Hm].
  assert (∀ e, e ∈ r_log r' → sourced reqs (le_Command e)) as H
    by (intros e [?|?]%Hr'; eauto).
  split; simpl.
  - intros j rj e [[_ <-]|[_ Hj]]%lookup_insert_Some; eauto.
  - intros h e [->|?]%elem_of_cons; eauto.
  - intros to args e [Hin|?]%elem_of_app; [by apply Hmsgs in Hin|eauto].
Qed.

Lemma no_message (to : Z) (args : AppendEntriesArgs Op) : MAppendReq to args ∉ [].
Proof. apply not_elem_of_nil. Qed.

Section step.
Context (members : list Z) (Hnodup : NoDup members) (Hids : ∀ i, i ∈ members → 0 ≤ i).

Lemma apply_sourced x x' reqs :
  apply_step x x' → all_sourced x.1 reqs → all_sourced x'.1 reqs.
Proof.
  intros [c R i r args r' reply Hi _ _ H|c R i r a r' m Hi _ _ H|c R i r a m Hi _ _
    |c R i r a m q sv Hi _ _ H] Hso; simpl in *; (eapply sourced_update; [exact Hi| | |exact Hso]);
    try (apply no_message).
  - intros e He. left. by eapply InstallSnapshot_entries.
  - by intros to args' Hx%list_elem_of_singleton.
  - intros e He. left. by rewrite (applyNext_same _ _ _ H) in He.
  - intros e He. by left.
  - intros e He. left. apply bind_Ret_inv in H as (kv & H & [= <-]).
    destruct (applyLoop_raft _ _ _ H) as [Hrf|[_ Hs]]; simpl in *; [by rewrite Hrf in He|].
    by eapply Snapshot_entries.
Qed.

Lemma restart_sourced i x x' reqs :
  inv members x.1 → restart_step i x x' → all_sourced x.1 reqs → all_sourced x'.1 reqs.
Proof.
  intros Hinv Hs Hso. destruct Hs as [c R r p r' sv Hi Hp H _]. simpl in *.
  assert (all_sourced (update c i r' []) reqs) as [? ? ?]; [|by split].
  eapply sourced_update; [done| |apply no_message|done]. intros e He. left.
  destruct (inv_node _ _ Hinv _ _ Hi) as (_ & _ & _ & Hd & _).
  destruct (newRaft_recovers r p i (r_peers r) Hd Hp) as (r2 & H2 & _ & _ & _ & Hps & _).
  rewrite H in H2. injection H2 as <-. apply persisted_same_log in Hps as [Hlog _].
  by rewrite Hlog in He.
Qed.

Lemma repl_sourced s s' :
  inv members (st_cluster s) → repl_step s s' →
  all_sourced (st_cluster s) (st_requests s) → all_sourced (st_cluster s') (st_requests s').
Proof.
  intros Hinv Hstep Hso.
  destruct Hstep as [c' Hc _ Hno|i r r' res Hi H|x Hs|i x Hs|i args|i r a args kv' w Hi Ha Hin H
    |i r a args kv' e Hi Ha Hin H|i a call Ha _ _|i r a call calls case e Hi Ha _ _ _ _
    |i a call calls e Ha _ _]; simpl; try done.
  - eapply sourced_step; [by eapply cluster_view| |done]. intros op Hp. by apply Hno in Hp.
  - eapply sourced_update; [done| |apply no_message|done]. intros e He.
    destruct (Propose_entries _ _ _ _ _ H He) as [?|[_ ->]]; [by left|right; by left].
  - exact (apply_sourced _ _ _ Hs Hso).
  - exact (restart_sourced i (machines s) x _ Hinv Hs Hso).
  - eapply all_sourced_mono; [|done]. intros x Hx. by right.
  - eapply sourced_update; [done| |apply no_message|done]. intros e He.
    destruct (propose_inv _ _ _ _ _ H) as (index & term & l & Hp & _).
    destruct (Propose_entries _ _ _ _ _ Hp He) as [?|[_ ->]]; [by left|right; right].
    by exists i, args.
Qed.

(** ** What a call's OK means *)

(** [op] is in the committed log the cluster shows. *)
Definition op_agreed c Ld (op : Op) : Prop :=
  ∃ k K e, agreed members c Ld k (K ++ [e]) ∧ le_Command e = op.

Definition call_ok c Ld (W : list (Waiting Op)) (call : Call) : Prop :=
  ca_w call ∈ W ∧ w_op (ca_w call) = opOf (ca_args call) ∧
  (ca_answer call = Some OK → op_agreed c Ld (opOf (ca_args call))).

(** A server's calls wait as in Waiters.v for what it applied. *)
Definition calls_ok c Ld (chans : Z) a : Prop :=
  ∃ W H, waits_ok (mkWaitSys (kv_waiters (rp_kv a)) W H chans) ∧
    (∀ call, call ∈ rp_calls a → call_ok c Ld W call) ∧
    (∀ k op, (k, op) ∈ H → op_agreed c Ld op).

Record serves_ok s Ld : Prop := {
  se_sourced : all_sourced (st_cluster s) (st_requests s);
  se_calls i a : st_replicas s !! i = Some a → calls_ok (st_cluster s) Ld (st_chans s) a;
  se_reply i args : (i, args, OK) ∈ st_replies s → op_agreed (st_cluster s) Ld (opOf args)
}.

Lemma op_agreed_mono c Ld c' Ld' op : later c Ld c' Ld' → op_agreed c Ld op → op_agreed c' Ld' op.
Proof. intros Hl (k & K & e & ? & ?). exists k, K, e. split; [by eapply agreed_mono|done]. Qed.

Lemma call_ok_mono c Ld c' Ld' W call : later c Ld c' Ld' → call_ok c Ld W call → call_ok c' Ld' W call.
Proof. intros Hl (? & ? & ?). split_and!; [done|done|]. eauto using op_agreed_mono. Qed.

Lemma waits_ok_later {Res} (wt : Waiters Res) (W : list (Waiting Op)) H n m :
  n ≤ m → waits_ok (mkWaitSys wt W H n) → waits_ok (mkWaitSys wt W H m).
Proof.
  intros Hle [H1 H2 H3 H4]. split; try done. intros w Hw. apply H3 in Hw. simpl in *. lia.
Qed.

Lemma calls_ok_mono c Ld c' Ld' n m a :
  later c Ld c' Ld' → n ≤ m → calls_ok c Ld n a → calls_ok c' Ld' m a.
Proof.
  intros Hl Hle (W & H & Hw & Hc & HH). exists W, H.
  split_and!; [by eapply waits_ok_later|eauto using call_ok_mono|eauto using op_agreed_mono].
Qed.

(** Messages and queue do not matter to the calls. *)
Lemma calls_ok_same c Ld n a a' :
  kv_waiters (rp_kv a') = kv_waiters (rp_kv a) → rp_calls a' = rp_calls a →
  calls_ok c Ld n a → calls_ok c Ld n a'.
Proof. unfold calls_ok. by intros -> ->. Qed.

(** A server's own step of the waiting protocol. *)
Lemma waits_server kv W H n kv' W' H' n' :
  kv_step (mkKVSys kv W H n) (mkKVSys kv' W' H' n') →
  waits_ok (mkWaitSys (kv_waiters kv) W H n) → waits_ok (mkWaitSys (kv_waiters kv') W' H' n').
Proof. intros Hs%kv_step_waits Hok. by eapply wait_steps_ok. Qed.

Lemma calls_process c Ld n a m q i j r kv' :
  (∃ j, queue_ok members c Ld i (m :: q) j) →
  applyLoop_msg (set_rf r (rp_kv a)) m = Ret kv' →
  calls_ok c Ld n a → calls_ok c Ld n (mkReplica (mkService kv' (rp_calls a)) j q).
Proof.
  intros (j' & Hq) H (W & HH & Hw & Hc & Hops).
  destruct Hq as [(K & e & HK & -> & _)|(k & data & t & _ & -> & _ & _)].
  - exists W, ((i + 1, le_Command e) :: HH). simpl. split_and!; [|done|].
    + eapply (waits_server (set_rf r (rp_kv a)) W HH n); [|exact Hw].
      by apply (kvs_apply _ W HH n (commandMsg (i + 1) (le_Term e) (le_Command e))).
    + intros k op [[= -> ->]|?]%elem_of_cons; [|eauto]. by exists (i + 1), K, e.
  - exists W, HH. simpl. split_and!; [|done|done].
    eapply (waits_server (set_rf r (rp_kv a)) W HH n); [|exact Hw].
    by apply (kvs_install _ W HH n (snapshotMsg data k t)).
Qed.

Lemma waits_ok_none {Res} n : waits_ok (mkWaitSys (noWaiters (Res:=Res)) ([] : list (Waiting Op)) [] n).
Proof. apply (waits_ok_later _ [] [] (Z.min 0 n)); [lia|]. split; simpl; set_solver. Qed.

Lemma calls_restart c Ld n r max kv j q :
  NewKVServer r max = Ret kv → calls_ok c Ld n (mkReplica (mkService kv []) j q).
Proof.
  intros (_ & Hn & _)%NewKVServer_meets. exists [], []. unfold rp_kv. simpl. rewrite Hn.
  split_and!; [apply waits_ok_none|by intros call []%not_elem_of_nil|by intros k op []%not_elem_of_nil].
Qed.

Lemma calls_propose c Ld n a r args kv' w :
  PutAppend_propose (set_rf r (rp_kv a)) args n = Ret (kv', inl w) →
  calls_ok c Ld n a → calls_ok c Ld (n + 1) (handling kv' (mkCall args w None :: rp_calls a) a).
Proof.
  intros H (W & HH & Hw & Hc & Hops). exists (w :: W), HH. simpl. split_and!; [|..|done].
  - eapply (waits_server (set_rf r (rp_kv a)) W HH n); [|exact Hw]. by eapply kvs_propose.
  - intros call [->|Hin]%elem_of_cons.
    + split_and!; [by left| |done]. simpl.
      destruct (propose_inv _ _ _ _ _ H) as (index & term & [] & _ & _ & Hw'); [|done].
      by injection Hw' as ->.
    + destruct (Hc call Hin) as (? & ? & ?). split_and!; [by right|done|done].
Qed.

Lemma calls_register c Ld n a call :
  call ∈ rp_calls a → wt_chans (kv_waiters (rp_kv a)) !! w_ch (ca_w call) = None →
  calls_ok c Ld n a →
  calls_ok c Ld n (handling (PutAppend_register (rp_kv a) (ca_w call)) (rp_calls a) a).
Proof.
  intros Hin Hno (W & HH & Hw & Hc & Hops). exists W, HH. simpl. split_and!; [|done|done].
  eapply wait_step_ok; [exact Hw|]. apply ws_register; [apply (Hc call Hin)|done].
Qed.

(** A handler that gets OK was handed its own operation. *)
Lemma calls_select c Ld n a r call calls case e :
  rp_calls a ≡ₚ call :: calls → PutAppend_select (set_rf r (rp_kv a)) (ca_w call) case = Some e →
  calls_ok c Ld n a →
  calls_ok c Ld n (handling (rp_kv a) (mkCall (ca_args call) (ca_w call) (Some e) :: calls) a).
Proof.
  intros Hp Hsel (W & HH & Hw & Hc & Hops). exists W, HH. simpl. split_and!; [done| |done].
  destruct (Hc call) as (HW & Hop & _); [rewrite Hp; by left|].
  intros call' [->|Hin]%elem_of_cons; [|apply Hc; rewrite Hp; by right].
  split_and!; [done|done|]. simpl. intros [= ->]. rewrite <- Hop.
  destruct case; simpl in Hsel; [|done|by destruct (_ || _)].
  apply bind_Some in Hsel as (op & Hr & Hsel). destruct (decide (op = w_op (ca_w call))) as [<-|]; [|done].
  by apply (received_applied _ _ _ Hw HW), Hops in Hr.
Qed.

Lemma calls_return c Ld n a call calls :
  rp_calls a ≡ₚ call :: calls → calls_ok c Ld n a →
  calls_ok c Ld n (handling (PutAppend_return (rp_kv a) (ca_w call)) calls a).
Proof.
  intros Hp (W & HH & Hw & Hc & Hops). exists W, HH. simpl. split_and!; [| |done].
  - eapply wait_step_ok; [exact Hw|]. apply ws_return. apply (Hc call). rewrite Hp. by left.
  - intros call' Hin. apply Hc. rewrite Hp. by right.
Qed.

Lemma calls_insert (R : gmap Z Replica) c Ld n i b :
  (∀ j a, R !! j = Some a → calls_ok c Ld n a) → calls_ok c Ld n b →
  ∀ j a, <[i := b]> R !! j = Some a → calls_ok c Ld n a.
Proof. intros HR Hb j a [[_ <-]|[_ Ha]]%lookup_insert_Some; eauto. Qed.

Lemma calls_apply x x' Ld Ld' n :
  system_ok members x.1 x.2 Ld → later x.1 Ld x'.1 Ld' → apply_step x x' →
  (∀ j a, x.2 !! j = Some a → calls_ok x'.1 Ld' n a) →
  ∀ j a, x'.2 !! j = Some a → calls_ok x'.1 Ld' n a.
Proof.
  intros Hsy Hl Hstep HR. destruct Hstep as [c R i r args r' reply Hi _ _ H|c R i r a r' m Hi Ha _ H
    |c R i r a m Hi Ha H|c R i r a m q sv Hi Ha Hq H]; simpl in *; [done|apply calls_insert; [done|]..].
  - by eapply calls_ok_same; [..|apply (HR _ _ Ha)].
  - by eapply calls_ok_same; [..|apply (HR _ _ Ha)].
  - apply bind_Ret_inv in H as (kv & H & [= <-]). simpl in *.
    destruct (sy_replica _ _ _ _ Hsy i r a Hi Ha) as [_ _ (j & Hj & _) _]. rewrite Hq in Hj.
    eapply calls_process; [|exact H|by eapply HR]. exists j. by eapply queue_ok_mono.
Qed.

Lemma calls_restarted i x x' c Ld n :
  restart_step i x x' → (∀ j a, x.2 !! j = Some a → calls_ok c Ld n a) →
  ∀ j a, x'.2 !! j = Some a → calls_ok c Ld n a.
Proof.
  intros [c0 R r p r' [kv calls] Hi Hp H (Hno & max & Hnew)] HR. simpl in *. subst calls.
  apply calls_insert; [done|]. by eapply calls_restart.
Qed.

Lemma serves_step s s' Ld Ld' :
  inv members (st_cluster s) → system_ok members (st_cluster s) (st_replicas s) Ld →
  later (st_cluster s) Ld (st_cluster s') Ld' → serves_ok s Ld → repl_step s s' →
  serves_ok s' Ld'.
Proof.
  intros Hinv Hsy Hl [Hso Hcalls Hrep] Hstep.
  pose proof (repl_sourced _ _ Hinv Hstep Hso) as Hso'.
  assert (∀ n j a, st_chans s ≤ n → st_replicas s !! j = Some a →
    calls_ok (st_cluster s') Ld' n a) as HR by eauto using calls_ok_mono.
  assert (∀ i args, (i, args, OK) ∈ st_replies s → op_agreed (st_cluster s') Ld' (opOf args)) as Hrep'
    by eauto using op_agreed_mono.
  clear Hrep. split; [done| |].
  - destruct Hstep as [c' Hc _ Hno|i r r' res Hi H|x Hs|i x Hs|i args|i r a args kv' w Hi Ha Hin H
      |i r a args kv' e Hi Ha Hin H|i a call Ha Hin Hno
      |i r a call calls case e Hi Ha Hp _ _ H|i a call calls e Ha Hp _]; simpl in *; try by eauto using Z.le_refl.
    + apply (calls_apply (machines s) x Ld Ld'); eauto using Z.le_refl.
    + apply (calls_restarted i (machines s) x); eauto using Z.le_refl.
    + apply calls_insert; [intros j b; apply HR; lia|].
      eapply calls_propose; [exact H|]. by eapply HR.
    + apply calls_insert; [intros j b; apply HR; lia|]. apply calls_register; [done|done|]. by eapply HR.
    + apply calls_insert; [intros j b; apply HR; lia|]. eapply calls_select; [done|exact H|]. by eapply HR.
    + apply calls_insert; [intros j b; apply HR; lia|]. apply calls_return; [done|]. by eapply HR.
  - destruct Hstep as [c' Hc _ Hno|i r r' res Hi H|x Hs|i x Hs|i args|i r a args kv' w Hi Ha Hin H
      |i r a args kv' e Hi Ha Hin H|i a call Ha Hin Hno
      |i r a call calls case e Hi Ha Hp _ _ H|i a call calls e Ha Hp Han]; simpl in *; try done.
    + destruct (propose_inv _ _ _ _ _ H) as (index & term & [] & _ & _ & He); [done|].
      injection He as ->. intros j args' [[=]|?]%elem_of_cons. by eapply Hrep'.
    + intros j args' [[= -> -> <-]|?]%elem_of_cons; [|by eapply Hrep'].
      destruct (HR (st_chans s) i a (Z.le_refl _) Ha) as (W & HH & _ & Hc & _).
      destruct (Hc call) as (_ & _ & Hok); [rewrite Hp; by left|]. auto.
Qed.

Lemma serves_init s : repl_init members s → serves_ok s ∅.
Proof.
  intros [[(_ & _ & Hnet & Hh & Hnodes) _] (Hreq & Hrep & HR)]. simpl in *. split.
  - split.
    + intros i r e Hi. destruct (Hnodes i r Hi) as (_ & op & -> & _). by intros []%not_elem_of_nil.
    + intros h e. rewrite Hh. by intros []%not_elem_of_nil.
    + intros to args e. rewrite Hnet. by intros []%not_elem_of_nil.
  - intros i a Ha. destruct (HR i a Ha) as [Hw Hc]. exists [], [].
    rewrite Hw, Hc. split_and!; [apply waits_ok_none|by intros call []%not_elem_of_nil
      |by intros k op []%not_elem_of_nil].
  - intros i args. rewrite Hrep. by intros []%not_elem_of_nil.
Qed.

(** Everything at once. *)
Record service_ok s Ld : Prop := {
  sk_machines : machines_ok members (machines s) Ld;
  sk_serves : serves_ok s Ld
}.

Lemma service_step s s' Ld :
  service_ok s Ld → repl_step s s' →
  ∃ Ld', service_ok s' Ld' ∧ committedOps s `prefix_of` committedOps s'.
Proof.
  intros [Hok Hse] Hstep.
  destruct (machine_step_ok members Hnodup Hids _ _ Ld Hok (repl_machine_step _ _ Hstep))
    as (Ld' & Hok' & Hl & Hp).
  exists Ld'. split; [split; [done|]|by apply opsOf_prefix].
  eapply (serves_step s s' Ld Ld'); [apply Hok|apply Hok|done..].
Qed.

Lemma service_steps s s' Ld :
  service_ok s Ld → rtc repl_step s s' →
  ∃ Ld', service_ok s' Ld' ∧ committedOps s `prefix_of` committedOps s'.
Proof.
  intros Hok Hrtc. revert Ld Hok.
  induction Hrtc as [s|s s1 s2 Hstep _ IH]; intros Ld Hok; [by exists Ld|].
  destruct (service_step s s1 Ld Hok Hstep) as (Ld1 & Hok1 & ?).
  destruct (IH Ld1 Hok1) as (Ld2 & ? & ?). exists Ld2. split; [done|by etransitivity].
Qed.

Lemma service_reachable s : repl_reachable members s → ∃ Ld, service_ok s Ld.
Proof.
  intros (s0 & H0 & Hrtc).
  assert (service_ok s0 ∅) as Hok.
  { pose proof (serves_init _ H0). destruct H0 as [H0 _]. split; [by apply machines_init_ok|done]. }
  destruct (service_steps _ _ _ Hok Hrtc) as (Ld & ? & _). by exists Ld.
Qed.

Lemma committed_sourced s Ld op :
  service_ok s Ld → op ∈ committedOps s → sourced (st_requests s) op.
Proof.
  intros Hok Hin. apply list_elem_of_In, in_map_iff in Hin as (e & <- & He%list_elem_of_In).
  unfold committedLog in He. simpl in He. apply list_elem_of_omap in He as (n & _ & He).
  apply committedAt_Some in He as (h & Hh & _ & He).
  eapply (so_hist _ _ (se_sourced _ _ (sk_serves _ _ Hok))); [exact Hh|].
  unfold entryAt, zget in He. case_bool_decide; [|done]. by eapply list_elem_of_lookup_2.
Qed.

Lemma agreed_committed s Ld op :
  service_ok s Ld → op_agreed (st_cluster s) Ld op → op ∈ committedOps s.
Proof.
  intros Hok (k & K & e & (Hk & Hmax & t & HK) & <-).
  assert (K ++ [e] `prefix_of` committedLog (c_hist (st_cluster s))) as [l Hl]
    by (eapply committed_in_log; [apply Hok|apply Hok|exact HK|lia]).
  unfold committedOps, opsOf. rewrite Hl. apply list_elem_of_In, in_map, list_elem_of_In. set_solver.
Qed.
(** C9: no server stops. In the runs of ReplicatedKV.v - no AppendEntries
    overtaken by a later one is delivered, no snapshot behind what a node has
    applied is installed, and no entry is handed over while a snapshot waits -
    where clients only ask for Puts and Appends, on storage whose saves succeed:
    in every state the apply goroutine of every node takes the next entry without
    a panic, the server's apply loop gets through whatever message is next on its
    channel, its own Snapshot of the node included, and a crashed node comes
    back - its Raft state and its server's snapshot can be decoded and restored. *)
Theorem replicas_never_panic `{!PersisterTotal P} s i r a :
  repl_reachable members s →
  (∀ j args, (j, args) ∈ st_requests s → pa_Op args ∈ ["Put"; "Append"]%string) →
  c_nodes (st_cluster s) !! i = Some r → st_replicas s !! i = Some a →
  returned (applyPending_next r) = true ∧
  (∀ m q, rp_queue a = m :: q → returned (applyLoop_msg (set_rf r (rp_kv a)) m) = true) ∧
  ∀ p, r_persister r = Some p → ∃ r' max kv',
    newRaft i (r_peers r) (Some p) = Ret r' ∧ NewKVServer r' max = Ret kv'.
Proof.
  intros (Ld & Hok)%service_reachable Hreq Hi Ha.
  assert (is_Some (run_ops (St:=KVState) (committedOps s))) as Hops.
  { apply run_ops_known, Forall_forall. intros op Hop.
    destruct (committed_sourced s Ld op Hok Hop) as [->|(j & args & Hin & ->)].
    - unfold op_known. simpl. set_solver.
    - apply Hreq in Hin. unfold op_known. simpl. set_solver. }
  destruct (never_panics members (machines s) Ld i r a (sk_machines _ _ Hok) Hops Hi Ha)
    as (Htake & Hproc & Hboot).
  split_and!; [done| |].
  - intros m q Hq. specialize (Hproc m q Hq). simpl in Hproc. unfold rp_kv.
    by destruct (applyLoop_msg _ _).
  - intros p Hp. destruct (Hboot p Hp) as (r' & sv & Hr & _ & max & Hkv). by exists r', max, (sv_kv sv).
Qed.
End step.

(** ** The client's view *)

Section client.
Context (id : Z).

(** Anything may happen, but nobody else uses the client's id. *)
Definition others_step s s' : Prop :=
  repl_step s s' ∧ ∀ i args, pa_ClientID args = id →
    (i, args) ∈ st_requests s' → (i, args) ∈ st_requests s.

(** A call: the request is sent, or could not be; whatever happens happens;
    the reply, if there is one, is one the server sent for these arguments. *)
Definition call_outcome (i : Z) (args : PutAppendArgs) s (reply : option Err) s' : Prop :=
  ∃ s0, (s0 = s ∨ s0 = request i args s) ∧ rtc others_step s0 s' ∧
    ∀ e, reply = Some e → (i, args, e) ∈ st_replies s'.

Lemma others_steps s s' : rtc others_step s s' → rtc repl_step s s'.
Proof. intros Hrtc. induction Hrtc as [|s s1 s2 [? _] _ IH]; [done|]. by eapply rtc_l. Qed.

Lemma others_requests s s' i args :
  rtc others_step s s' → pa_ClientID args = id →
  (i, args) ∈ st_requests s' → (i, args) ∈ st_requests s.
Proof. intros Hrtc Hc. induction Hrtc as [|s s1 s2 [_ H] _ IH]; auto. Qed.

Lemma requests_grow s s' : rtc repl_step s s' → st_requests s ⊆ st_requests s'.
Proof.
  intros Hrtc. induction Hrtc as [|s s1 s2 Hstep _ IH]; [done|]. etransitivity; [|exact IH].
  destruct Hstep; simpl; try done. intros x Hx. by right.
Qed.

Lemma others_silent s s' :
  rtc repl_step s s' → st_requests s' ⊆ st_requests s → rtc others_step s s'.
Proof.
  intros Hrtc. induction Hrtc as [|s s1 s2 Hstep Hrtc IH]; intros Hsub; [done|].
  pose proof (requests_grow _ _ Hrtc). pose proof (requests_grow _ _ (rtc_once _ _ Hstep)).
  eapply rtc_l; [|apply IH; set_solver]. split; [done|]. intros i args _ Hin. set_solver.
Qed.

Context (members : list Z) (Hnodup : NoDup members) (Hids : ∀ i, i ∈ members → 0 ≤ i).
Context (Hid : id ≠ 0).

(** Worlds of the clerk that are moments of one of the system's executions. *)
Class Serves {W : Type} (view : W → System) (call : Z → PutAppendArgs → W → option Err * W)
    (sleep : W → W) := {
  serves_reachable w : repl_reachable members (view w);
  serves_call i args w : call_outcome i args (view w) (call i args w).1 (view (call i args w).2);
  serves_sleep w : rtc others_step (view w) (view (sleep w))
}.

(** What was asked for. *)
Definition requested s : list Op := map (opOf ∘ snd) (st_requests s).

Lemma elem_of_requested s op : op ∈ requested s ↔ ∃ i args, (i, args) ∈ st_requests s ∧ op = opOf args.
Proof.
  unfold requested. rewrite list_elem_of_In, in_map_iff. split.
  - intros ([i args] & <- & Hin%list_elem_of_In). by exists i, args.
  - intros (i & args & Hin & ->). exists (i, args). split; [done|by apply list_elem_of_In].
Qed.

(** Committed operations of the client were asked for. *)
Lemma committed_requested s op :
  repl_reachable members s → clientOf op = id → op ∈ committedOps s → op ∈ requested s.
Proof.
  intros (Ld & Hok)%(service_reachable members Hnodup Hids) Hc Hin.
  destruct (committed_sourced members s Ld op Hok Hin) as [->|?]; [by destruct Hid|].
  by apply elem_of_requested.
Qed.

(** What a stretch of execution does to log and requests. *)
Lemma others_advance s s' (sent : list Op) :
  repl_reachable members s' → rtc repl_step s s' → repl_reachable members s →
  (∀ i args, pa_ClientID args = id → (i, args) ∈ st_requests s' →
    (i, args) ∈ st_requests s ∨ opOf args ∈ sent) →
  ∃ new, committedOps s' = committedOps s ++ new ∧
    ∀ op, clientOf op = id → op ∈ new ∨ op ∈ requested s' → op ∈ requested s ∨ op ∈ sent.
Proof.
  intros Hr' Hrtc Hr Hreq.
  assert (∀ op, clientOf op = id → op ∈ requested s' → op ∈ requested s ∨ op ∈ sent) as Hback.
  { intros op Hc (i & args & Hin & ->)%elem_of_requested.
    destruct (Hreq i args Hc Hin) as [?|?]; [left|by right]. apply elem_of_requested. by exists i, args. }
  destruct (service_reachable members Hnodup Hids s Hr) as (Ld & Hok).
  destruct (service_steps members Hnodup Hids s s' Ld Hok Hrtc) as (Ld' & Hok' & [new Hnew]).
  exists new. split; [done|]. intros op Hc [Hin|Hin]; [|auto].
  apply Hback, committed_requested; [done|done|done|]. rewrite Hnew. apply elem_of_app. by right.
Qed.

Lemma request_reachable s i args : repl_reachable members s → repl_reachable members (request i args s).
Proof. intros (s0 & ? & ?). exists s0. split; [done|]. eapply rtc_r; [done|apply rs_send]. Qed.

#[export] Program Instance served_log {W : Type} (view : W → System) call sleep
    `{HS : !Serves view call sleep} : ReplicatedLog id call sleep := {
  committed := λ w, committedOps (view w);
  inflight := λ w, requested (view w)
}.
Next Obligation.
  intros W view call sleep HS i args w.
  destruct (serves_call i args w) as (s0 & Hs0 & Hrtc & _).
  pose proof (serves_reachable w) as Hr. pose proof (serves_reachable (call i args w).2) as Hr'.
  apply others_advance; [done| |done|].
  - destruct Hs0 as [->| ->]; [by apply others_steps|].
    eapply rtc_l; [apply rs_send|by apply others_steps].
  - intros j args' Hc Hin. eapply others_requests in Hin; [|exact Hrtc|done].
    destruct Hs0 as [->| ->]; [by left|].
    apply elem_of_cons in Hin as [[= -> ->]|Hin]; [right; by apply list_elem_of_singleton|by left].
Qed.
Next Obligation.
  intros W view call sleep HS w. pose proof (serves_sleep w) as Hrtc.
  apply others_advance; [apply serves_reachable|by apply others_steps|apply serves_reachable|].
  intros j args Hc Hin. left. by eapply others_requests.
Qed.
Next Obligation.
  intros W view call sleep HS i args w Hok.
  destruct (serves_call i args w) as (s0 & _ & _ & Hrep). apply Hrep in Hok.
  destruct (service_reachable members Hnodup Hids _ (serves_reachable (call i args w).2)) as (Ld & Hs).
  eapply (agreed_committed members Hnodup Hids); [exact Hs|]. by eapply (se_reply _ _ _ (sk_serves _ _ _ Hs)).
Qed.

(** The moments of the executions, for what happens after the program. *)
Definition moments : Type := { s : System | repl_reachable members s }.

#[local] Instance moments_serve :
  Serves (W:=moments) proj1_sig (λ _ _ w, (None, w)) (λ w, w).
Proof.
  split; [by intros []| |done]. intros i args w. exists (`w). split_and!; [by left|done|done].
Qed.

(** [settled] of the system behind a world. *)
Definition settled_at s (n : Z) (hist : list Op) : Prop :=
  ofClient id (accepted [] (committedOps s)) = hist ∧ maxSeq id (committedOps s) = n ∧
  ∀ op, op ∈ requested s → clientOf op = id → seqNum op ≤ n.

Lemma settled_view {W : Type} (view : W → System) call sleep `{HS : !Serves view call sleep} w n hist :
  settled (c:=id) (call:=call) (sleep:=sleep) w n hist ↔ settled_at (view w) n hist.
Proof. done. Qed.

Lemma settled_after n hist s s' :
  repl_reachable members s → repl_reachable members s' →
  settled_at s n hist → rtc others_step s s' → settled_at s' n hist.
Proof.
  intros Hr Hr' Hset Hrtc.
  apply (proj1 (settled_view (W:=moments) proj1_sig (λ _ _ w, (None, w)) (λ w, w)
    (exist _ s' Hr') n hist)).
  apply (proj2 (settled_view (W:=moments) proj1_sig (λ _ _ w, (None, w)) (λ w, w)
    (exist _ s Hr) n hist)) in Hset.
  eapply settled_later; [exact Hset|].
  apply (others_advance s s' [] Hr' (others_steps _ _ Hrtc) Hr).
  intros j args Hc Hin. left. by eapply others_requests.
Qed.

(** Nothing of a client that never asked. *)
Lemma settled_new s :
  repl_reachable members s →
  (∀ i args, (i, args) ∈ st_requests s → pa_ClientID args ≠ id) → settled_at s 0 [].
Proof.
  intros Hr Hnew. assert (∀ op, op ∈ requested s → clientOf op ≠ id) as Hreq.
  { intros op (i & args & Hin & ->)%elem_of_requested. by apply (Hnew i args). }
  assert (∀ op, op ∈ committedOps s → clientOf op ≠ id) as Hcom
    by (intros op Hin Hc; by eapply Hreq, Hc; apply committed_requested).
  split_and!.
  - destruct (ofClient id (accepted [] (committedOps s))) as [|op ops] eqn:Hof; [done|]. exfalso.
    assert (op ∈ ofClient id (accepted [] (committedOps s))) as Hop by (rewrite Hof; by left).
    apply list_elem_of_filter in Hop as [Hc [Hin _]%accepted_above]. by eapply Hcom.
  - apply Z.le_antisymm; [|apply maxSeq_nonneg]. apply maxSeq_le; [done|].
    intros op Hin Hc. by apply Hcom in Hin.
  - intros op Hin Hc. by apply Hreq in Hin.
Qed.

(** C7: end to end. A clerk with an id of its own writes through a cluster of
    replicated servers, where servers crash and restart, messages are lost,
    delayed and repeated, requests time out and arrive late - anything the
    system of ReplicatedKV.v does, with its restrictions on AppendEntries and
    snapshots. Once its program of writes has returned, and at any later
    moment, exactly these writes of it have taken effect in the committed log,
    each once and in the order of the calls; and every server's store is what
    at-most-once application of an initial segment of that one log gives. *)
Theorem clerk_writes_through_cluster {W : Type} (view : W → System) call sleep
    `{HS : !Serves view call sleep} fuel servers writes w w1 ck' s :
  (∀ i args, (i, args) ∈ st_requests (view w) → pa_ClientID args ≠ id) →
  Clerk_writes call sleep fuel (NewClerk servers id) writes w = Some (Ret (w1, ck')) →
  rtc others_step (view w1) s →
  ofClient id (accepted [] (committedOps s)) = requests (c:=id) 0 writes ∧
  ∀ i r a, c_nodes (st_cluster s) !! i = Some r → st_replicas s !! i = Some a →
    0 ≤ rp_index a ≤ zlen (committedOps s) ∧
    kv_store (rp_kv a) = replay ∅ (accepted [] (upto (rp_index a) (committedOps s))).
Proof.
  intros Hnew Hrun Hlater. pose proof (serves_reachable w) as Hr0.
  pose proof (serves_reachable w1) as Hr1.
  assert (repl_reachable members s) as Hr.
  { destruct Hr1 as (s0 & ? & ?). exists s0. split; [done|]. etransitivity; [done|by apply others_steps]. }
  pose proof (proj2 (settled_view view call sleep w 0 []) (settled_new _ Hr0 Hnew)) as H0.
  destruct (writes_settled fuel (NewClerk servers id) writes w w1 ck' [] eq_refl H0 Hrun)
    as [H1%settled_view _].
  destruct (settled_after _ _ _ _ Hr1 Hr H1 Hlater) as (Hacc & _). split; [exact Hacc|].
  destruct (service_reachable members Hnodup Hids s Hr) as (Ld & Hok).
  intros i r a Hi Ha. eapply replica_store; by (apply Hok || done).
Qed.
End client.
End served.

(** ** Witness *)
Module Witness.
Import ReplicatedKV.Witness.
#[local] Existing Instances op_codec snapshot_codec.

(** Before and after the system served the client's Put; node 1 cannot be
    dialled. *)
Definition view (served : bool) : KVSystem := if served then kv_served else kv_elected.

Definition call (i : Z) (args : PutAppendArgs) (served : bool) : option Err * bool :=
  if decide (i = 0 ∧ args = put_args ∧ served = false) then (Some OK, true) else (None, served).

Lemma call_served : call_outcome 7 0 put_args kv_elected (Some OK) kv_served.
Proof.
  exists (request 0 put_args kv_elected). split; [by right|]. split.
  - apply others_silent.
    + eapply (do_acts_sound (tail serve_put)). vm_compute. reflexivity.
    + vm_compute. done.
  - intros e [= <-]. vm_compute. by left.
Qed.

Lemma run_serves : Serves 7 Demo.members view call (λ w, w).
Proof.
  split.
  - intros []; [apply kv_served_reachable|apply kv_elected_reachable].
  - intros i args w. unfold call. destruct (decide _) as [(-> & -> & ->)|_].
    + apply call_served.
    + exists (view w). split_and!; [by left|done|done].
  - done.
Qed.

Lemma clerk_writes_through_cluster_witness :
  ∃ ck', Clerk_writes call (λ w, w) 1 (NewClerk [1; 0] 7) [("Put", "x", "a")]%string false =
      Some (Ret (true, ck')) ∧
    ofClient 7 (accepted [] (committedOps kv_served)) = [mkOp "Put" "x" "a" 7 1].
Proof.
  destruct (Clerk_writes call (λ w, w) 1 (NewClerk [1; 0] 7) [("Put", "x", "a")]%string false)
    as [[[w1 ck']|]|] eqn:Hrun; [|by vm_compute in Hrun..].
  assert (w1 = true) as -> by (vm_compute in Hrun; by injection Hrun as <- _).
  exists ck'. split; [done|].
  destruct (clerk_writes_through_cluster 7 Demo.members (proj1 RaftSafety.Witness.members_ok)
    (proj2 RaftSafety.Witness.members_ok) ltac:(done) view call (λ w, w) (HS := run_serves)
    1 [1; 0] [("Put", "x", "a")]%string false true ck' kv_served) as [Hops _].
  - intros i args Hin. vm_compute in Hin. by apply not_elem_of_nil in Hin.
  - exact Hrun.
  - apply rtc_refl.
  - exact Hops.
Defined.
(** The Put is committed and on its way to the server of node 0. *)
Definition kv_taken : KVSystem := system_of (do_acts kv_elected (take 5 serve_put)).

Lemma kv_taken_reachable : repl_reachable Demo.members kv_taken.
Proof.
  destruct kv_elected_reachable as (s0 & H0 & Hrtc). exists s0. split; [done|].
  etransitivity; [exact Hrtc|]. eapply (do_acts_sound (take 5 serve_put)). vm_compute. reflexivity.
Qed.

Lemma kv_taken_requests i args :
  (i, args) ∈ st_requests kv_taken → pa_Op args ∈ ["Put"; "Append"]%string.
Proof.
  assert (st_requests kv_taken = [(0, put_args)]) as -> by (vm_compute; reflexivity).
  intros [= -> ->]%list_elem_of_singleton. by left.
Qed.

Lemma replicas_never_panic_witness :
  ∃ r a m q kv', c_nodes (st_cluster kv_taken) !! 0 = Some r ∧ st_replicas kv_taken !! 0 = Some a ∧
    rp_queue a = m :: q ∧ applyLoop_msg (set_rf r (rp_kv a)) m = Ret kv'.
Proof.
  pose proof (replicas_never_panic Demo.members (proj1 RaftSafety.Witness.members_ok)
    (proj2 RaftSafety.Witness.members_ok) kv_taken 0) as Hno.
  assert (map (λ a, zlen (rp_queue a)) (option_list (st_replicas kv_taken !! 0)) = [1]) as Hq
    by (vm_compute; reflexivity).
  assert (length (option_list (c_nodes (st_cluster kv_taken) !! 0)) = 1%nat) as Hn
    by (vm_compute; reflexivity).
  destruct (c_nodes (st_cluster kv_taken) !! 0) as [r|]; [|discriminate Hn].
  destruct (st_replicas kv_taken !! 0) as [a|]; [|discriminate Hq].
  destruct (Hno r a kv_taken_reachable kv_taken_requests eq_refl eq_refl) as (_ & Hmsg & _).
  destruct (rp_queue a) as [|m q] eqn:Hqa; [simpl in Hq; rewrite Hqa in Hq; discriminate Hq|].
  destruct (returned_Ret _ (Hmsg m q eq_refl)) as [kv' Hkv].
  exists r, a, m, q, kv'. split_and!; [reflexivity|reflexivity|exact Hqa|exact Hkv].
Defined.
End Witness.
