(* ===== verification/ShardClerk.v ===== *)
(** * The client that follows the shard controller (05-sharded-kv/group_clerk.go,
      client.go)

    ShardClerk routes by a cached configuration and fetches a new one when a
    group says it does not own the key; ShardedClient routes by a fixed one. As
    in Clerk.v the servers, and all that runs beside the clerk, are a world the
    calls take to the next one. A clerk whose cached configuration is stale
    finds the group that owns the key. *)
From S2P Require Import Prelude Persister Dedup Waiters RaftNode KVServer ShardConfig Ctrler Clerk ClerkFacts GroupServer.
Local Open Scope Z_scope.

(** What a reply of a replica means to the loop over the replicas. *)
Inductive groupJudgement (A : Type) :=
| GAnswer (a : A)
| GWrongGroup
| GNext.
Arguments GAnswer {A} a.
Arguments GWrongGroup {A}.
Arguments GNext {A}.

Definition judgeGroupGet (reply : GroupGetReply) : groupJudgement string :=
  match ggr_Err reply with
  | GroupOK => GAnswer (ggr_Value reply)
  | GroupErrNoKey => GAnswer ""%string
  | GroupErrWrongGroup => GWrongGroup
  | _ => GNext
  end.

Definition judgeGroupPutAppend (reply : GroupErr) : groupJudgement unit :=
  match reply with
  | GroupOK => GAnswer tt
  | GroupErrWrongGroup => GWrongGroup
  | _ => GNext
  end.

Record ShardClerk (Srv CSrv : Type) := mkShardClerk {
  sc_ctrl : CtrlerClerk CSrv;
  sc_groups : gmap Z (list Srv);
  sc_clientID : Z;
  sc_seqNum : Z;
  sc_cfg : Config
}.
Arguments mkShardClerk {Srv CSrv} _ _ _ _ _.
Arguments sc_ctrl {Srv CSrv} _.
Arguments sc_groups {Srv CSrv} _.
Arguments sc_clientID {Srv CSrv} _.
Arguments sc_seqNum {Srv CSrv} _.
Arguments sc_cfg {Srv CSrv} _.

Section loop.
Context {W Srv Req Reply A : Type}.
Variable call : Srv → Req → W → option Reply * W.
Variable judge : Reply → groupJudgement A.

(** The replicas of one group in order; the flag is [wrongGroup]. *)
Fixpoint groupSweep (replicas : list Srv) (req : Req) (wrong : bool) (w : W) : W * bool * option A :=
  match replicas with
  | [] => (w, wrong, None)
  | srv :: replicas =>
      let '(reply, w) := call srv req w in
      match judge <$> reply with
      | Some (GAnswer a) => (w, wrong, Some a)
      | Some GWrongGroup => groupSweep replicas req true w
      | Some GNext | None => groupSweep replicas req wrong w
      end
  end.
End loop.

Section shard_clerk.
Context {W Srv CSrv : Type}.
Variable callGet : Srv → string → W → option GroupGetReply * W.
Variable callPutAppend : Srv → GroupPutAppendArgs → W → option GroupErr * W.
Variable callQuery : CSrv → Z → W → option QueryReply * W.
Variable sleep : W → W.
Abbreviation ShardClerk := (ShardClerk Srv CSrv).
Implicit Type ck : ShardClerk.

(** [ck.cfg = ck.ctrl.Query(-1)] *)
Definition sc_refresh (fuel : nat) ck (w : W) : option (outcome (W * ShardClerk)) :=
  res ← CtrlerClerk_Query callQuery sleep fuel (sc_ctrl ck) (-1) w;
  Some ('(w, ctrl, cfg) ← res;
        Ret (w, mkShardClerk ctrl (sc_groups ck) (sc_clientID ck) (sc_seqNum ck) cfg)).

Definition NewShardClerk (fuel : nat) (ctrl : CtrlerClerk CSrv) (groups : gmap Z (list Srv)) (n : Z) (w : W) :
    option (outcome (W * ShardClerk)) :=
  sc_refresh fuel (mkShardClerk ctrl groups n 0 zeroConfig) w.

(** The replicas of the group the cached configuration names for the key. *)
Definition sc_replicas ck (key : string) : outcome (list Srv) :=
  gid ← or_panic (zget (cfg_Shards (sc_cfg ck)) (Key2Shard key));
  Ret (default [] (sc_groups ck !! gid)).

(** The loop of Get and putAppend; [fuel] bounds its rounds and those of each
    Query. *)
Fixpoint sc_retry {Req Reply A} (call : Srv → Req → W → option Reply * W)
    (judge : Reply → groupJudgement A) (fuel : nat) ck (key : string) (req : Req) (w : W) :
    option (outcome (W * ShardClerk * A)) :=
  match fuel with
  | O => None
  | S fuel =>
      match sc_replicas ck key with
      | Panic => Some Panic
      | Ret replicas =>
          let '(w, wrong, answer) := groupSweep call judge replicas req false w in
          match answer with
          | Some a => Some (Ret (w, ck, a))
          | None =>
              if wrong : bool then
                res ← sc_refresh fuel ck w;
                match res with
                | Panic => Some Panic
                | Ret (w, ck) => sc_retry call judge fuel ck key req (sleep w)
                end
              else sc_retry call judge fuel ck key req (sleep w)
          end
      end
  end.

Definition ShardClerk_Get (fuel : nat) ck (key : string) (w : W) :
    option (outcome (W * ShardClerk * string)) :=
  sc_retry callGet judgeGroupGet fuel ck key key w.

Definition ShardClerk_putAppend (fuel : nat) ck (key value op : string) (w : W) :
    option (outcome (W * ShardClerk * unit)) :=
  let ck := mkShardClerk (sc_ctrl ck) (sc_groups ck) (sc_clientID ck) (sc_seqNum ck + 1) (sc_cfg ck) in
  let args := mkGroupPutAppendArgs key value op (sc_clientID ck) (sc_seqNum ck) in
  sc_retry callPutAppend judgeGroupPutAppend fuel ck key args w.
End shard_clerk.

(** ** client.go *)

(** [newPooled gid addrs]: the pooled client NewPooledClient makes from a
    group's addresses, or its error; [order] is the order Go's map iteration
    takes. *)
Definition NewShardedClient {C E} (newPooled : Z → list string → C + E) (cfg : Config)
    (order : list (Z * list string)) : Config * gmap Z C + (ConfigError + Z * E) :=
  match Validate cfg with
  | Some err => inr (inl err)
  | None =>
      (fix dial (order : list (Z * list string)) (clients : gmap Z C) :=
        match order with
        | [] => inl (cfg, clients)
        | (gid, addrs) :: order =>
            match newPooled gid addrs with
            | inr err => inr (inr (gid, err))
            | inl c => dial order (<[gid := c]> clients)
            end
        end) order ∅
  end.

(** A missing client is Go's nil. *)
Definition groupFor {C} (c : Config * gmap Z C) (key : string) : outcome (option C) :=
  gid ← or_panic (zget (cfg_Shards c.1) (Key2Shard key)); Ret (c.2 !! gid).

(** ** Finding the owner of a key *)

Section follow.
Context {W Srv CSrv Req Reply A : Type}.
Variable call : Srv → Req → W → option Reply * W.
Variable judge : Reply → groupJudgement A.
Variable callQuery : CSrv → Z → W → option QueryReply * W.
Variable sleep : W → W.
Abbreviation ShardClerk := (ShardClerk Srv CSrv).
Implicit Type ck : ShardClerk.
Abbreviation sc_retry := (sc_retry callQuery sleep call judge).

(** From [I] worlds on, requests for the key do not change what this says: the
    controller is at version [cfg] and its server [leader] answers. *)
Record settled_on (I : W → Prop) (req : Req) (leader : CSrv) (cfg : Config) : Prop := {
  so_query : stable callQuery sleep judgeQuery (-1) leader I;
  so_latest s w reply : I w → (callQuery s (-1) w).1 = Some reply → qr_Err reply = CtrlerOK → qr_Config reply = cfg;
  so_call s w : I w → I (call s req w).2
}.

(** A replica that does not leave the clerk in the dark. *)
Definition answers (I : W → Prop) (req : Req) (good : groupJudgement A → Prop) (srv : Srv) : Prop :=
  ∀ w, I w → ∃ reply, (call srv req w).1 = Some reply ∧ good (judge reply).
Definition isAnswer (j : groupJudgement A) : Prop := ∃ a, j = GAnswer a.
Definition notNext (j : groupJudgement A) : Prop := j ≠ GNext.

Lemma groupSweep_finds I req leader cfg replicas srv wrong w : settled_on I req leader cfg → I w →
  srv ∈ replicas → answers I req notNext srv →
  let '(w', wrong', answer) := groupSweep call judge replicas req wrong w in
  I w' ∧ (is_Some answer ∨ wrong' = true).
Proof.
  intros Hs. revert wrong w. induction replicas as [|s replicas IH]; intros wrong w HI; [by intros ?%not_elem_of_nil|].
  assert (∀ replicas w, I w → let '(w', wrong', answer) := groupSweep call judge replicas req true w in
    I w' ∧ (is_Some answer ∨ wrong' = true)) as Htrue.
  { clear -Hs. induction replicas as [|s replicas IH]; intros w HI; simpl; [auto|].
    pose proof (so_call _ _ _ _ Hs s w HI) as HI'. destruct (call s req w) as [reply w1]. simpl in HI'.
    destruct (judge <$> reply) as [[a| |]|]; [by auto|by apply IH..]. }
  intros Hin Ha. simpl. pose proof (so_call _ _ _ _ Hs s w HI) as HI'.
  apply elem_of_cons in Hin as [<-|Hin].
  - destruct (Ha w HI) as (reply & Hr & Hg). destruct (call srv req w) as [r w1]. simpl in *. subst r. simpl.
    destruct (judge reply) as [a| |]; [by eauto|by apply Htrue|by destruct Hg].
  - destruct (call s req w) as [reply w1]. simpl in HI'.
    destruct (judge <$> reply) as [[a| |]|]; [by eauto|by apply Htrue|by apply IH..].
Qed.

Lemma groupSweep_answers I req leader cfg replicas srv wrong w : settled_on I req leader cfg → I w →
  srv ∈ replicas → answers I req isAnswer srv →
  ∃ w' wrong' a, groupSweep call judge replicas req wrong w = (w', wrong', Some a).
Proof.
  intros Hs. revert wrong w. induction replicas as [|s replicas IH]; intros wrong w HI; [by intros ?%not_elem_of_nil|].
  intros Hin Ha. simpl. pose proof (so_call _ _ _ _ Hs s w HI) as HI'.
  apply elem_of_cons in Hin as [<-|Hin].
  - destruct (Ha w HI) as (reply & Hr & (a & Hg)). destruct (call srv req w) as [r w1]. simpl in *. subst r. simpl.
    rewrite Hg. eauto.
  - destruct (call s req w) as [reply w1]. simpl in HI'. destruct (judge <$> reply) as [[a| |]|]; eauto.
Qed.

(** The answer of a query in a settled world. *)
Lemma query_latest I req leader cfg servers start k i w w' idx c : settled_on I req leader cfg → I w →
  sweep callQuery judgeQuery servers (-1) start k i w = Ret (w', Some (idx, c)) → I w' ∧ c = cfg.
Proof.
  intros Hs. revert i w. induction k as [|k IH]; intros i w HI; simpl; [done|].
  intros (s & _ & H)%bind_Ret_inv. pose proof (stable_call _ _ _ _ _ _ (so_query _ _ _ _ Hs) s w HI) as HI'.
  pose proof (so_latest _ _ _ _ Hs s w) as Hl. destruct (callQuery s (-1) w) as [[reply|] w1]; simpl in *; [|eauto].
  unfold judgeQuery in H. destruct (qr_Err reply) eqn:He; try by eapply IH.
  injection H as <- <- <-. split; [done|]. by eapply Hl.
Qed.

Lemma refresh_latest I req leader cfg ck i fuel w : settled_on I req leader cfg → I w →
  zget (cc_servers (sc_ctrl ck)) i = Some leader →
  0 ≤ cc_lastKnown (sc_ctrl ck) < zlen (cc_servers (sc_ctrl ck)) →
  ∃ w' ctrl, sc_refresh callQuery sleep (S fuel) ck w =
    Some (Ret (w', mkShardClerk ctrl (sc_groups ck) (sc_clientID ck) (sc_seqNum ck) cfg)) ∧ I w'.
Proof.
  intros Hs HI Hi Hk. unfold sc_refresh, CtrlerClerk_Query, cc_retry. cbn [retry].
  destruct (round_answers callQuery sleep (λ _, cc_lastKnown (sc_ctrl ck)) judgeQuery (cc_servers (sc_ctrl ck)) (-1)
    i leader I w) as (w1 & idx & c & Hr & _); [|done|done|by apply Hs|done|].
  - intros reply. unfold judgeQuery. by destruct (qr_Err reply).
  - rewrite Hr. destruct (query_latest _ _ _ _ _ _ _ _ _ _ _ _ Hs HI Hr) as [HI1 ->]. simpl. eauto.
Qed.

(** C22: A client finds the group that owns its key, and when it cannot. In a
    world where the controller's latest version names a group with a replica
    that answers for good, a call of a clerk with any cached configuration
    returns within two rounds, provided some replica of the group it has cached
    tells it that it is wrong (or answers). A clerk whose cached configuration
    names a group it knows no replica of - the zero configuration it fetched
    before the first Join - never returns, whatever the servers do and however
    often the configuration changes: nothing makes it fetch another one. *)
Theorem shard_clerk_follows I req leader cfg ck key i gid old oldReplica new owner w :
  settled_on I req leader cfg → I w →
  zget (cc_servers (sc_ctrl ck)) i = Some leader →
  0 ≤ cc_lastKnown (sc_ctrl ck) < zlen (cc_servers (sc_ctrl ck)) →
  sc_replicas ck key = Ret old → oldReplica ∈ old → answers I req notNext oldReplica →
  zget (cfg_Shards cfg) (Key2Shard key) = Some gid → sc_groups ck !! gid = Some new →
  owner ∈ new → answers I req isAnswer owner →
  (∀ fuel, ∃ w' ck' a, sc_retry (S (S fuel)) ck key req w = Some (Ret (w', ck', a))) ∧
  ∀ ck0 fuel w0, sc_replicas ck0 key = Ret [] → sc_retry fuel ck0 key req w0 = None.
Proof.
  intros Hs HI Hi Hk Hold Hin Hspeak Hgid Hnew Hown Hans. split.
  - intros fuel. remember (S fuel) as f eqn:Hf. cbn [ShardClerk.sc_retry]. rewrite Hold.
    pose proof (groupSweep_finds I req leader cfg old oldReplica false w Hs HI Hin Hspeak) as Hsw.
    destruct (groupSweep call judge old req false w) as [[w1 wrong] [a|]]; [eauto|].
    destruct Hsw as [HI1 [[? [=]]| ->]]. rewrite Hf.
    destruct (refresh_latest I req leader cfg ck i fuel w1 Hs HI1 Hi Hk) as (w2 & ctrl & -> & HI2).
    simpl. cbn [ShardClerk.sc_retry]. unfold sc_replicas. simpl. rewrite Hgid. simpl. rewrite Hnew. simpl.
    destruct (groupSweep_answers I req leader cfg new owner false (sleep w2) Hs) as (w3 & wr & a & ->); [|done|done|eauto].
    by apply (stable_sleep _ _ _ _ _ _ (so_query _ _ _ _ Hs)).
  - intros ck0 fuel. induction fuel as [|fuel IH]; intros w0 Hno; [done|]. simpl. rewrite Hno. simpl. by apply IH.
Qed.
End follow.

Module Witness.

(** Replica 10 lost its shards to group 2, whose replica is 20; the world
    counts the calls. *)
Definition call (srv : Z) (args : GroupPutAppendArgs) (w : Z) : option GroupErr * Z :=
  (Some (if srv =? 10 then GroupErrWrongGroup else GroupOK), w + 1).
Definition cfgOf (gid : Z) : Config := mkConfig gid (replicate NShards gid) ∅.
Definition callQuery (srv num w : Z) : option QueryReply * Z := (Some (mkQueryReply CtrlerOK (cfgOf 2)), w + 1).
Definition sleep (w : Z) : Z := w.
Definition args : GroupPutAppendArgs := mkGroupPutAppendArgs "x" "a" "Put" 7 1.
Definition groups : gmap Z (list Z) := {[1 := [10]; 2 := [20]]}.
Definition stale : ShardClerk Z Z := mkShardClerk (NewCtrlerClerk [100] 5) groups 7 1 (cfgOf 1).
(** Made before the first Join. *)
Definition early : ShardClerk Z Z := mkShardClerk (NewCtrlerClerk [100] 5) groups 7 1 zeroConfig.

Lemma shard_clerk_follows_witness :
  (∃ w' ck' a, sc_retry callQuery sleep call judgeGroupPutAppend 2 stale "x" args 0 = Some (Ret (w', ck', a))) ∧
  sc_retry callQuery sleep call judgeGroupPutAppend 1000 early "x" args 0 = None.
Proof.
  destruct (shard_clerk_follows call judgeGroupPutAppend callQuery sleep (λ _, True) args 100 (cfgOf 2) stale "x"
    0 2 [10] 10 [20] 20 0) as [H1 H2].
  - split; [split|..].
    + done.
    + done.
    + intros w _. by exists (mkQueryReply CtrlerOK (cfgOf 2)), (cfgOf 2).
    + intros s w reply _ [= <-] _. done.
    + done.
  - exact I.
  - reflexivity.
  - vm_compute. split; [discriminate|reflexivity].
  - vm_compute. reflexivity.
  - by left.
  - intros w _. by exists GroupErrWrongGroup.
  - vm_compute. reflexivity.
  - vm_compute. reflexivity.
  - by left.
  - intros w _. exists GroupOK. split; [done|]. by exists tt.
  - split; [exact (H1 0%nat)|apply H2; vm_compute; reflexivity].
Defined.

End Witness.
