(* ===== verification/Clients.v ===== *)
(** * The clients over RPC (03-connection-pooling/client.go, pooled_client.go,
      server.go, 05-sharded-kv/client.go)

    How the shared client of Clerk.v is put together with one pool per address
    (Pool.v) or a dial per call, served over net/rpc, and made one per shard
    group: a sharded client sends every key to a client of the group that owns
    it. *)
From S2P Require Import Prelude Dedup Waiters Persister RaftNode RaftTimer KVServer ShardConfig ShardConfigFacts Clerk ClerkFacts Pool ShardClerk.
Local Open Scope Z_scope.

(** ** client.go: the shared client *)

Section shared.
Context {W : Type}.

(** Where calls leave their lastKnown: beside the world. *)
Record Shared := mkShared { sh_lastKnown : Z; sh_world : W }.

Definition startIndex (w : Shared) : Z := sh_lastKnown w.
Definition setLastKnown (idx : Z) (w : Shared) : Shared := mkShared idx (sh_world w).

Variable callPutAppend : string → PutAppendArgs → Shared → option Err * Shared.
Variable sleep : Shared → Shared.

Definition client_Put (fuel : nat) (c : client) (key value : string) (w : Shared) :=
  client_putAppend callPutAppend sleep startIndex setLastKnown fuel c key value "Put" w.
Definition client_Append (fuel : nat) (c : client) (key value : string) (w : Shared) :=
  client_putAppend callPutAppend sleep startIndex setLastKnown fuel c key value "Append" w.
End shared.

(** *** One dial per call *)

Section naive.
Context {C W Req Reply : Type}.
(** rpc.Dial, Call and Close of the connection. *)
Variable dial : string → W → option C * W.
Variable callConn : C → Req → W → option Reply * W.
Variable closeConn : C → W → W.

Definition dialPerCall (addr : string) (req : Req) (w : W) : option Reply * W :=
  let '(c, w) := dial addr w in
  match c with
  | None => (None, w)
  | Some c => let '(reply, w) := callConn c req w in (reply, closeConn c w)
  end.

(** What is open is open again afterwards: a dial opens the connection it
    returns and no other, calls open and close nothing. *)
Lemma dialPerCall_leaks_nothing `{Countable C} (open : W → gset C) addr req w :
  (∀ a w c w', dial a w = (Some c, w') → c ∉ open w ∧ open w' = {[c]} ∪ open w) →
  (∀ a w w', dial a w = (None, w') → open w' = open w) →
  (∀ c q w, open (callConn c q w).2 = open w) →
  (∀ c w, open (closeConn c w) = open w ∖ {[c]}) →
  open (dialPerCall addr req w).2 = open w.
Proof.
  intros Hd Hn Hc Hcl. unfold dialPerCall. destruct (dial addr w) as [[c|] w1] eqn:Hdial; [|by eapply Hn].
  apply Hd in Hdial as [Hfresh Hopen]. pose proof (Hc c req w1) as Hcall.
  destruct (callConn c req w1) as [reply w2]. simpl in *. rewrite Hcl, Hcall, Hopen. set_solver.
Qed.
End naive.

Definition NewNaiveClient (addrs : list string) (n : Z) : client := newClient addrs n.

(** ** pooled_client.go: one pool per address *)

Definition defaultCheckoutTimeout : Z := 10 * HeartbeatInterval.
Definition defaultRedialInterval : Z := ElectionTimeoutMin.
Definition defaultIdleTimeout : Z := 20 * ElectionTimeoutMax.

(** A missing pool is Go's nil. *)
Definition pooledCaller_call {Req Reply W : Type}
    (poolCall : Pool → Req → W → option Reply * W)
    (pools : gmap string Pool) (addr : string) (req : Req) (w : W) :
    outcome (option Reply * W) :=
  p ← or_panic (pools !! addr); Ret (poolCall p req w).

(** [order]: the pools as Go's map iteration visits them. *)
Definition pooledCaller_close (order : list Pool) (closeErr : Z → bool) : option Z :=
  head (omap (λ p, Close p closeErr) order).

Record PooledClient := mkPooledClient { pcl_client : client; pcl_pooled : gmap string Pool }.

(** [n]: the number drawn for the client's id. *)
Definition NewPooledClient (addrs : list string) (minSize maxSize n : Z)
    (dials : string → list (option pooledConn)) : PooledClient + PoolError :=
  match newPooledCaller (mkPoolOptions minSize maxSize defaultIdleTimeout) addrs dials ∅ with
  | inl pools => inl (mkPooledClient (newClient addrs n) pools)
  | inr err => inr err
  end.

Definition PooledClient_Close (order : list Pool) (closeErr : Z → bool) : option Z :=
  pooledCaller_close order closeErr.

(** ** server.go: serving over net/rpc

    [registerName] answers whether net/rpc takes the service, [listen] what
    net.Listen does; the goroutine that accepts is net/rpc's. *)
Definition ServeKVServer {L S E : Type} (registerName : string → S → option E)
    (listen : string → L + E) (addr : string) (kv : S) : L + E :=
  match registerName "KVServer" kv with
  | Some err => inr err
  | None => listen addr
  end.

(** ** 05-sharded-kv/client.go

    Every group's client has its own lastKnown and its own connections, so what
    they read and do is indexed by the group. *)

Section sharded.
Context {W : Type}.
Variable callGet : Z → string → string → W → option GetReply * W.
Variable callPutAppend : Z → string → PutAppendArgs → W → option Err * W.
Variable sleep : W → W.
Variable startIndex : Z → W → Z.
Variable setLastKnown : Z → Z → W → W.

Abbreviation ShardedClient := (Config * gmap Z PooledClient)%type.
Implicit Type c : ShardedClient.

(** The group of a key and its client; a nil client is a nil dereference. *)
Definition ownerClient c (key : string) : outcome (Z * PooledClient) :=
  gid ← or_panic (zget (cfg_Shards c.1) (Key2Shard key));
  pc ← groupFor c key;
  pc ← or_panic pc;
  Ret (gid, pc).

Definition ShardedClient_Get (fuel : nat) c (key : string) (w : W) : option (outcome (W * string)) :=
  match ownerClient c key with
  | Panic => Some Panic
  | Ret (gid, pc) =>
      client_Get (callGet gid) sleep (startIndex gid) (setLastKnown gid) fuel (pcl_client pc) key w
  end.

Definition ShardedClient_putAppend (fuel : nat) c (key value op : string) (w : W) :
    option (outcome (W * ShardedClient)) :=
  match ownerClient c key with
  | Panic => Some Panic
  | Ret (gid, pc) =>
      res ← client_putAppend (callPutAppend gid) sleep (startIndex gid) (setLastKnown gid) fuel
        (pcl_client pc) key value op w;
      Some ('(w, cl) ← res; Ret (w, (c.1, <[gid := mkPooledClient cl (pcl_pooled pc)]> c.2)))
  end.

Definition ShardedClient_Put fuel c key value w := ShardedClient_putAppend fuel c key value "Put" w.
Definition ShardedClient_Append fuel c key value w := ShardedClient_putAppend fuel c key value "Append" w.
End sharded.

(** A pooled client per group, as NewShardedClient asks for them: [n] are the
    numbers drawn for their ids, [dials] what dialing their addresses answers. *)
Definition dialGroup (n : Z → Z) (dials : Z → string → list (option pooledConn))
    (gid : Z) (addrs : list string) : PooledClient + PoolError :=
  NewPooledClient addrs 1 4 (n gid) (dials gid).

(** ** Every address has its pool *)

(** A pool filled to its minimum for every address. *)
Definition fully_pooled (opts : PoolOptions) (addrs : list string) (pools : gmap string Pool) : Prop :=
  ∀ addr, addr ∈ addrs → ∃ p, pools !! addr = Some p ∧
    p_opts p = opts ∧ p_count p = MinSize opts ∧ zlen (p_free p) = MinSize opts.

Lemma NewPool_filled opts dials p : NewPool opts dials = inl p →
  p_opts p = opts ∧ p_count p = MinSize opts ∧ zlen (p_free p) = MinSize opts.
Proof.
  intros ((_ & Hcount & _) & Ho & Hc)%NewPool_ok. unfold newSystem in Hcount. simpl in Hcount.
  split_and!; [done..|lia].
Qed.

Lemma newPooledCaller_pools opts addrs dials pools pools' a :
  newPooledCaller opts addrs dials pools = inl pools' →
  if decide (a ∈ addrs) then fully_pooled opts [a] pools' else pools' !! a = pools !! a.
Proof.
  revert pools. induction addrs as [|addr addrs IH]; intros pools; simpl; [by intros [= <-]|].
  destruct (NewPool opts (dials addr)) as [p|] eqn:Hp; [|done]. intros Hrest%IH.
  destruct (decide (a ∈ addrs)) as [Ha|Ha]; [by rewrite decide_True by by right|].
  destruct (decide (a = addr)) as [->|Hne].
  - rewrite decide_True by by left. rewrite lookup_insert_eq in Hrest.
    intros b ->%list_elem_of_singleton. exists p. split; [done|by eapply NewPool_filled].
  - rewrite lookup_insert_ne in Hrest by done. by rewrite decide_False by by intros [|]%elem_of_cons.
Qed.

Lemma NewPooledClient_pooled addrs minSize maxSize n dials pc :
  NewPooledClient addrs minSize maxSize n dials = inl pc →
  cl_addrs (pcl_client pc) = addrs ∧ cl_clientID (pcl_client pc) = n ∧
  fully_pooled (mkPoolOptions minSize maxSize defaultIdleTimeout) addrs (pcl_pooled pc).
Proof.
  unfold NewPooledClient. destruct (newPooledCaller _ _ _ _) as [pools|] eqn:Hp; [|done].
  intros [= <-]. split; [done|]. split; [done|]. intros a Ha.
  pose proof (newPooledCaller_pools _ _ _ _ _ a Hp) as Hpools. rewrite decide_True in Hpools by done.
  apply Hpools. by left.
Qed.

(** ** What NewShardedClient builds *)

Section build.
Context {C E : Type}.
Variable newPooled : Z → list string → C + E.

(** The loop over the groups. *)
Lemma NewShardedClient_groups cfg order c : NewShardedClient newPooled cfg order = inl c →
  order ≡ₚ map_to_list (cfg_Groups cfg) →
  Validate cfg = None ∧ c.1 = cfg ∧
  ∀ gid addrs, cfg_Groups cfg !! gid = Some addrs → ∃ pc, newPooled gid addrs = inl pc ∧ c.2 !! gid = Some pc.
Proof.
  unfold NewShardedClient. destruct (Validate cfg) as [|]; [done|]. intros Hdial Hperm.
  assert (NoDup order.*1) as Hnd by (rewrite Hperm; apply NoDup_fst_map_to_list).
  split; [done|]. enough (c.1 = cfg ∧ (∀ gid addrs, (gid, addrs) ∈ order →
      ∃ pc, newPooled gid addrs = inl pc ∧ c.2 !! gid = Some pc) ∧
    ∀ gid, gid ∉ order.*1 → c.2 !! gid = (∅ : gmap Z C) !! gid) as (Hc & Hin & _).
  { split; [done|]. intros gid addrs Hg. apply Hin. rewrite Hperm. by apply elem_of_map_to_list. }
  clear Hperm. revert Hdial Hnd. generalize (∅ : gmap Z C).
  induction order as [|[gid addrs] order IH]; intros clients; simpl.
  { intros [= <-] _. split_and!; [done|by intros ?? ?%not_elem_of_nil|done]. }
  destruct (newPooled gid addrs) as [pc|] eqn:Hpc; [|done].
  intros Hdial [Hno Hnd]%NoDup_cons. destruct (IH _ Hdial Hnd) as (Hc & Hin & Hout). split_and!; [done|..].
  - intros g a [[= -> ->]|Hg]%elem_of_cons; [|by apply Hin].
    exists pc. split; [done|]. rewrite Hout by done. by rewrite lookup_insert_eq.
  - intros g [Hne Hg]%not_elem_of_cons. rewrite Hout by done. by rewrite lookup_insert_ne.
Qed.

(** It fails only if the configuration is invalid or a group cannot be
    dialed. *)
Lemma NewShardedClient_returns cfg order : Validate cfg = None →
  (∀ gid addrs, (gid, addrs) ∈ order → ∃ pc, newPooled gid addrs = inl pc) →
  ∃ c, NewShardedClient newPooled cfg order = inl c.
Proof.
  unfold NewShardedClient. intros -> Hall. generalize (∅ : gmap Z C).
  induction order as [|[gid addrs] order IH]; intros clients; [eauto|].
  destruct (Hall gid addrs) as (pc & ->); [by left|]. apply IH. intros g a Hg. apply Hall. by right.
Qed.
End build.

(** ** A client that finds a server returns *)

Section client_returns.
Context {W : Type}.
Variable callGet : string → string → W → option GetReply * W.
Variable callPutAppend : string → PutAppendArgs → W → option Err * W.
Variable sleep : W → W.
Variable startIndex : W → Z.
Variable setLastKnown : Z → W → W.
Implicit Type cl : client.

Lemma retry_first_round {Req Reply A} (call : string → Req → W → option Reply * W)
    (judge : Reply → judgement A) addrs req srv I w :
  (∀ reply, judge reply ≠ Reject) → (∀ w, 0 ≤ startIndex w < zlen addrs) → srv ∈ addrs →
  stable call sleep judge req srv I → I w →
  ∃ w' idx a, ∀ fuel, retry call sleep startIndex judge addrs req (S fuel) w = Some (Ret (w', (idx, a))).
Proof.
  intros Hj Hstart (i & Hi)%list_elem_of_lookup Hst HI.
  destruct (round_answers call sleep startIndex judge addrs req (Z.of_nat i) srv I w)
    as (w' & idx & a & Hr & _); [done|done| |done|done|].
  - unfold zget. rewrite bool_decide_true by lia. by rewrite Nat2Z.id.
  - exists w', idx, a. intros fuel. simpl. by rewrite Hr.
Qed.

Lemma client_Get_returns cl key srv I w :
  (∀ w, 0 ≤ startIndex w < zlen (cl_addrs cl)) → srv ∈ cl_addrs cl →
  stable callGet sleep judgeGet key srv I → I w →
  ∃ w' v, ∀ fuel, client_Get callGet sleep startIndex setLastKnown (S fuel) cl key w = Some (Ret (w', v)).
Proof.
  intros Hstart Hsrv Hst HI.
  destruct (retry_first_round callGet judgeGet (cl_addrs cl) key srv I w) as (w' & idx & a & Hr); [|done..|].
  - intros reply. unfold judgeGet. by destruct (gr_Err reply).
  - exists (setLastKnown idx w'), a. intros fuel. unfold client_Get. by rewrite Hr.
Qed.

Lemma client_putAppend_returns cl key value op srv I w :
  let cl' := mkClient (cl_addrs cl) (cl_clientID cl) (cl_seqNum cl + 1) in
  (∀ w, 0 ≤ startIndex w < zlen (cl_addrs cl)) → srv ∈ cl_addrs cl →
  stable callPutAppend sleep judgePutAppend
    (mkPutAppendArgs key value op (cl_clientID cl') (cl_seqNum cl')) srv I → I w →
  ∃ w', ∀ fuel, client_putAppend callPutAppend sleep startIndex setLastKnown (S fuel) cl key value op w =
    Some (Ret (w', cl')).
Proof.
  intros cl' Hstart Hsrv Hst HI.
  destruct (retry_first_round callPutAppend judgePutAppend (cl_addrs cl)
    (mkPutAppendArgs key value op (cl_clientID cl') (cl_seqNum cl')) srv I w) as (w' & idx & [] & Hr); [|done..|].
  - by intros [].
  - exists (setLastKnown idx w'). intros fuel. unfold client_putAppend.
    change (cl_addrs (mkClient _ _ _)) with (cl_addrs cl). by rewrite Hr.
Qed.
End client_returns.

(** The client for a key of a sharded client NewShardedClient returned. *)
Lemma ownerClient_owner n dials cfg order c key :
  length (cfg_Shards cfg) = NShards → order ≡ₚ map_to_list (cfg_Groups cfg) →
  NewShardedClient (dialGroup n dials) cfg order = inl c →
  ∃ gid addrs pc, zget (cfg_Shards cfg) (Key2Shard key) = Some gid ∧
    cfg_Groups cfg !! gid = Some addrs ∧ addrs ≠ [] ∧ ownerClient c key = Ret (gid, pc) ∧
    cl_addrs (pcl_client pc) = addrs ∧
    fully_pooled (mkPoolOptions 1 4 defaultIdleTimeout) addrs (pcl_pooled pc).
Proof.
  intros Hlen Hperm Hnew. apply NewShardedClient_groups in Hnew as (Hval & Hc & Hall); [|done].
  apply Validate_None in Hval as [_ Hval].
  destruct (proj2 (zget_is_Some (cfg_Shards cfg) (Key2Shard key))) as [gid Hgid].
  { unfold zlen. rewrite Hlen. apply Key2Shard_range. }
  destruct (Hval gid) as (a & addrs & Hg); [by eapply zget_elem_of|].
  destruct (Hall gid _ Hg) as (pc & (Haddrs & _ & Hpools)%NewPooledClient_pooled & Hcl).
  exists gid, (a :: addrs), pc. split_and!; try done.
  unfold ownerClient, groupFor. by rewrite Hc, Hgid; simpl; rewrite Hcl.
Qed.

(** C23: A sharded client sends every key to the group that owns it. Built from
    a configuration, it has for every key the client of the group the
    configuration assigns the key's shard, over exactly that group's addresses
    and with a pool filled to its minimum for each of them: no key runs into a
    nil client or a nil pool. A Get or a write of the key returns in the first
    round in which one of that group's servers keeps answering for good, and a
    write takes the next SeqNum of that group's client and of no other. *)
Theorem sharded_client_reaches_owner {W} n dials cfg order c key value op
    (callGet : Z → string → string → W → option GetReply * W)
    (callPutAppend : Z → string → PutAppendArgs → W → option Err * W) sleep startIndex setLastKnown :
  length (cfg_Shards cfg) = NShards → order ≡ₚ map_to_list (cfg_Groups cfg) →
  NewShardedClient (dialGroup n dials) cfg order = inl c →
  ∃ gid addrs pc, zget (cfg_Shards cfg) (Key2Shard key) = Some gid ∧
    cfg_Groups cfg !! gid = Some addrs ∧ ownerClient c key = Ret (gid, pc) ∧
    cl_addrs (pcl_client pc) = addrs ∧
    fully_pooled (mkPoolOptions 1 4 defaultIdleTimeout) addrs (pcl_pooled pc) ∧
    let cl := pcl_client pc in
    let cl' := mkClient addrs (cl_clientID cl) (cl_seqNum cl + 1) in
    ∀ srv I w, srv ∈ addrs → (∀ w, 0 ≤ startIndex gid w < zlen addrs) → I w →
      (stable (callGet gid) sleep judgeGet key srv I → ∃ w' v, ∀ fuel,
        ShardedClient_Get callGet sleep startIndex setLastKnown (S fuel) c key w = Some (Ret (w', v))) ∧
      (stable (callPutAppend gid) sleep judgePutAppend
         (mkPutAppendArgs key value op (cl_clientID cl') (cl_seqNum cl')) srv I → ∃ w', ∀ fuel,
        ShardedClient_putAppend callPutAppend sleep startIndex setLastKnown (S fuel) c key value op w =
        Some (Ret (w', (cfg, <[gid := mkPooledClient cl' (pcl_pooled pc)]> c.2)))).
Proof.
  intros Hlen Hperm Hnew. pose proof Hnew as (_ & Hcfg & _)%NewShardedClient_groups; [|done].
  destruct (ownerClient_owner n dials cfg order c key) as (gid & addrs & pc & Hs & Hg & _ & Hown & Ha & Hp); [done..|].
  exists gid, addrs, pc. split_and!; try done. simpl. intros srv I w Hsrv Hstart HI. subst addrs. split; intros Hst.
  - destruct (client_Get_returns (callGet gid) sleep (startIndex gid) (setLastKnown gid) (pcl_client pc)
      key srv I w) as (w' & v & Hret); [done..|].
    exists w', v. intros fuel. unfold ShardedClient_Get. by rewrite Hown.
  - destruct (client_putAppend_returns (callPutAppend gid) sleep (startIndex gid) (setLastKnown gid)
      (pcl_client pc) key value op srv I w) as (w' & Hret); [done..|].
    exists w'. intros fuel. unfold ShardedClient_putAppend. rewrite Hown, Hret. simpl. by rewrite Hcfg.
Qed.

Module Witness.

(** Two groups, the shards dealt between them; every dial succeeds, and every
    server answers. The world counts the calls. *)
Definition groups : gmap Z (list string) := {[1 := ["a1"; "a2"]; 2 := ["b1"]]}%string.
Definition cfg : Config := NewStaticConfig groups.
Definition dials (gid : Z) (addr : string) : list (option pooledConn) := [Some (mkPooledConn gid 0)].
Definition built : Config * gmap Z PooledClient :=
  match NewShardedClient (dialGroup (λ gid, 70 + gid) dials) cfg (map_to_list groups) with
  | inl c => c
  | inr _ => (cfg, ∅)
  end.
Definition callGet (gid : Z) (addr key : string) (w : Z) : option GetReply * Z :=
  (Some (mkGetReply OK "v"), w + 1).
Definition callPutAppend (gid : Z) (addr : string) (args : PutAppendArgs) (w : Z) : option Err * Z :=
  (Some OK, w + 1).
Definition sleep (w : Z) : Z := w.

Lemma sharded_client_reaches_owner_witness :
  NewShardedClient (dialGroup (λ gid, 70 + gid) dials) cfg (map_to_list groups) = inl built ∧
  ∃ gid pc, ownerClient built "x" = Ret (gid, pc) ∧
    ∃ w v, ShardedClient_Get callGet sleep (λ _ _, 0) (λ _ _ w, w) 1 built "x" 0 = Some (Ret (w, v)).
Proof.
  split; [vm_compute; reflexivity|].
  destruct (sharded_client_reaches_owner (λ gid, 70 + gid) dials cfg (map_to_list groups) built "x" "1" "Put"
    callGet callPutAppend sleep (λ _ _, 0) (λ _ _ w, w)) as (gid & addrs & pc & Hs & Hg & Hown & Ha & Hp & Hrun).
  - vm_compute. reflexivity.
  - change (cfg_Groups cfg) with groups. reflexivity.
  - vm_compute. reflexivity.
  - exists gid, pc. split; [exact Hown|].
    assert (∃ a rest, addrs = a :: rest) as (a & rest & ->).
    { change (cfg_Groups cfg) with groups in Hg. revert Hg. unfold groups.
      intros [[<- <-]|[_ [<- <-]%lookup_singleton_Some]]%lookup_insert_Some; eauto. }
    destruct (Hrun a (λ _, True) 0) as [Hget _].
    + by left.
    + intros _. rewrite zlen_cons. pose proof (zlen_nonneg rest). lia.
    + done.
    + destruct Hget as (w & v & Hv); [|exists w, v; apply Hv].
      split; [done|done|]. intros w _. by exists (mkGetReply OK "v"), "v"%string.
Defined.

End Witness.
