(* ===== verification/AutoSplit.v ===== *)
(** * Load tracking, hot shards and the auto-splitter
      (06-hot-shard-splitting/load.go, detect.go, autosplit.go, ring_clerk.go)

    Counters, the detector in IEEE double arithmetic, the clerk of the ring
    controller with its deadline, and one step of the auto-splitter over the
    [RingAPI] interface. *)
From Stdlib Require Import SpecFloat.
From S2P Require Import Prelude Persister Dedup Waiters RaftNode ShardConfig Ctrler Ring RingCtrler.
Local Open Scope Z_scope.

(** ** load.go *)

Abbreviation Loads := (gmap Z Z).

(** [m[k]] of a Go map of ints. *)
Definition loadOf (loads : Loads) (s : ShardID) : Z := default 0 (loads !! s).

Record LoadTracker := mkLoadTracker { lt_counts : Loads }.

Definition NewLoadTracker : LoadTracker := mkLoadTracker ∅.

Definition LoadTracker_Record (lt : LoadTracker) (shard : ShardID) : LoadTracker :=
  mkLoadTracker (<[shard := loadOf (lt_counts lt) shard + 1]> (lt_counts lt)).

Definition LoadTracker_Snapshot (lt : LoadTracker) : LoadTracker * Loads :=
  (mkLoadTracker ∅, lt_counts lt).

(** ** detect.go *)

(** float64 arithmetic: IEEE binary64, round to nearest even. *)
Abbreviation float64 := spec_float.
Definition float64_of_int (n : Z) : float64 := binary_normalize 53 1024 n 0 false.
Definition float64_div (x y : float64) : float64 := SFdiv 53 1024 x y.
Definition float64_mul (x y : float64) : float64 := SFmul 53 1024 x y.

Record HotPolicy := mkHotPolicy { hp_Factor : float64; hp_MinLoad : Z }.

Definition MergeLoads (reports : list Loads) : Loads :=
  foldl (λ total r, map_fold (λ s n total, <[s := loadOf total s + n]> total) total r) ∅ reports.

(** The order sort.Slice sorts by: hottest first, then ascending ids. *)
Definition hotter (loads : Loads) (a b : ShardID) : Prop :=
  loadOf loads b < loadOf loads a ∨ (loadOf loads a = loadOf loads b ∧ a ≤ b).
#[export] Instance hotter_dec loads : RelDecision (hotter loads).
Proof. unfold hotter. intros a b. apply _. Defined.
#[export] Instance hotter_total loads : Total (hotter loads).
Proof. unfold hotter. intros a b. lia. Qed.
#[export] Instance hotter_trans loads : Transitive (hotter loads).
Proof. unfold hotter. intros a b c. lia. Qed.

(** The threshold: Factor times the mean over all shards. *)
Definition hotThreshold (loads : Loads) (shards : list ShardID) (policy : HotPolicy) : float64 :=
  let total := foldl (λ total s, total + loadOf loads s) 0 shards in
  let mean := float64_div (float64_of_int total) (float64_of_int (zlen shards)) in
  float64_mul (hp_Factor policy) mean.

Definition isHot (loads : Loads) (shards : list ShardID) (policy : HotPolicy) (s : ShardID) : bool :=
  let n := loadOf loads s in
  (hp_MinLoad policy <=? n) && SFltb (hotThreshold loads shards policy) (float64_of_int n) && (0 <? n).

Definition DetectHot (loads : Loads) (shards : list ShardID) (policy : HotPolicy) : list ShardID :=
  match shards with
  | [] => []
  | _ => merge_sort (hotter loads) (filter (λ s, isHot loads shards policy s = true) shards)
  end.

(** ** The interface of the controller: RingAPI of ring_clerk.go *)

Inductive ClerkError := ErrRejected (err : verdict) | ErrNoLeader | ErrMoving (shard gid : Z).

(** Each call takes the world to the one it leaves; [None] is a nil error. *)
Class RingAPI (W : Type) := {
  api_Query : W → W * (RingConfig * option ClerkError);
  api_Split : ShardID → Z → W → W * option ClerkError;
  api_Move : ShardID → Z → W → W * option ClerkError
}.

(** ** ring_clerk.go *)

Section ring_clerk.
Context {W Srv X : Type}.
(** The closure passed to retry: it may assign a captured variable of type [X]. *)
Variable call : Srv → X → W → verdict * X * W.
Variable sleep : W → W.
(** [time.Now().Before(deadline)] *)
Variable before : W → bool.

(** One pass over the controllers; the result is what retry returns, if it does. *)
Fixpoint ring_sweep (ctrlers : list Srv) (x : X) (w : W) : W * X * option (option ClerkError) :=
  match ctrlers with
  | [] => (w, x, None)
  | c :: ctrlers =>
      let '(err, x, w) := call c x w in
      match err with
      | Some CtrlerOK => (w, x, Some None)
      | Some CtrlerErrWrongLeader | Some CtrlerErrTimeout => ring_sweep ctrlers x w
      | _ => (w, x, Some (Some (ErrRejected err)))
      end
  end.

(** [None]: the deadline has not passed within [fuel] rounds. *)
Fixpoint ring_retry (fuel : nat) (ctrlers : list Srv) (x : X) (w : W) : option (W * X * option ClerkError) :=
  if before w then
    match fuel with
    | O => None
    | S fuel =>
        match ring_sweep ctrlers x w with
        | (w, x, Some err) => Some (w, x, err)
        | (w, x, None) => ring_retry fuel ctrlers x (sleep w)
        end
    end
  else Some (w, x, Some ErrNoLeader).
End ring_clerk.

Record RingClerk (Srv : Type) := mkRingClerk {
  rcl_ctrlers : list Srv;
  rcl_clientID : Z;
  rcl_timeout : Z;
  rcl_seq : Z
}.
Arguments mkRingClerk {Srv} _ _ _ _.
Arguments rcl_ctrlers {Srv} _.
Arguments rcl_clientID {Srv} _.
Arguments rcl_timeout {Srv} _.
Arguments rcl_seq {Srv} _.

Section ring_clerk_calls.
Context {W Srv : Type}.
(** The controllers' methods, by what they leave in the reply. *)
Variable callQuery : Srv → W → verdict * RingConfig * W.
Variable callSplit : Srv → ShardID → Z → Z → Z → W → verdict * W.
Variable callMove : Srv → ShardID → Z → Z → Z → W → verdict * W.
Variable sleep : W → W.
Variable now : W → Z.
Implicit Type ck : RingClerk Srv.

Definition beforeDeadline (deadline : Z) (w : W) : bool := now w <? deadline.

Definition RingClerk_Query (fuel : nat) ck (w : W) : option (W * RingConfig * option ClerkError) :=
  ring_retry (λ c _ w, callQuery c w) sleep (beforeDeadline (now w + rcl_timeout ck)) fuel
    (rcl_ctrlers ck) zeroRingConfig w.

Definition nextSeq ck : RingClerk Srv :=
  mkRingClerk (rcl_ctrlers ck) (rcl_clientID ck) (rcl_timeout ck) (rcl_seq ck + 1).

Definition RingClerk_Split (fuel : nat) ck (shard : ShardID) (point : Z) (w : W) :
    option (W * RingClerk Srv * option ClerkError) :=
  let ck := nextSeq ck in
  '(w, _, err) ← ring_retry
    (λ c _ w, let '(e, w) := callSplit c shard point (rcl_clientID ck) (rcl_seq ck) w in (e, tt, w))
    sleep (beforeDeadline (now w + rcl_timeout ck)) fuel (rcl_ctrlers ck) tt w;
  Some (w, ck, err).

Definition RingClerk_Move (fuel : nat) ck (shard : ShardID) (gid : Z) (w : W) :
    option (W * RingClerk Srv * option ClerkError) :=
  let ck := nextSeq ck in
  '(w, _, err) ← ring_retry
    (λ c _ w, let '(e, w) := callMove c shard gid (rcl_clientID ck) (rcl_seq ck) w in (e, tt, w))
    sleep (beforeDeadline (now w + rcl_timeout ck)) fuel (rcl_ctrlers ck) tt w;
  Some (w, ck, err).
End ring_clerk_calls.

(** ** autosplit.go *)

Definition ringStart (r : Ring) (s : ShardID) : Z :=
  match findShard (ring_Entries r) s 0 with
  | Some (_, e) => re_Start e
  | None => 0
  end.

Definition byGroup (cfg : RingConfig) (loads : Loads) : Loads :=
  map_fold (λ s gid m, <[gid := loadOf m gid + loadOf loads s]> m)
    ((λ _, 0) <$> rc_Groups cfg) (rc_Owners cfg).

(** The last loop, over the group ids in ascending order. *)
Definition coolest (m : Loads) (gids : list Z) (best : Z) : Z :=
  foldl (λ best gid, if (best =? 0) || (loadOf m gid <? loadOf m best) then gid else best) best gids.

Definition coolestGroup (cfg : RingConfig) (loads : Loads) : Z :=
  let m := byGroup cfg loads in
  coolest m (merge_sort Z.le (elements (dom m))) 0.

Record AutoSplitter (W : Type) := mkAutoSplitter {
  as_Policy : HotPolicy;
  as_Loads : W → W * Loads;
  as_MaxShards : Z
}.
Arguments mkAutoSplitter {W} _ _ _.
Arguments as_Policy {W} _.
Arguments as_Loads {W} _.
Arguments as_MaxShards {W} _.

Record StepResult := mkStepResult { st_Split : ShardID; st_NewShard : ShardID; st_MovedTo : Z }.

Section step.
Context {W : Type} `{!RingAPI W}.

Definition Step (a : AutoSplitter W) (w : W) : outcome (W * (StepResult * option ClerkError)) :=
  let nothing := mkStepResult 0 0 0 in
  let '(w, (cfg, err)) := api_Query w in
  match err with
  | Some err => Ret (w, (nothing, Some err))
  | None =>
      let shards := map re_Shard (ring_Entries (rc_Ring cfg)) in
      let '(w, loads) := as_Loads a w in
      let hot := DetectHot loads shards (as_Policy a) in
      match hot with
      | [] => Ret (w, (nothing, None))
      | victim :: _ =>
          if (0 <? as_MaxShards a) && (as_MaxShards a <=? zlen shards)
          then Ret (w, (nothing, None))
          else
            mid ← Midpoint (rc_Ring cfg) victim;
            match mid with
            | inr _ => Ret (w, (nothing, None))
            | inl point =>
                let newID := NextShardID (rc_Ring cfg) in
                let owner := loadOf (rc_Owners cfg) victim in
                let '(w, err) := api_Split victim point w in
                match err with
                | Some err => Ret (w, (nothing, Some err))
                | None =>
                    let res := mkStepResult victim newID 0 in
                    let '(w, (after, err)) := api_Query w in
                    match err with
                    | Some err => Ret (w, (res, Some err))
                    | None =>
                        if negb (loadOf (rc_Owners after) newID =? owner) ||
                           negb (ringStart (rc_Ring after) newID =? point)
                        then Ret (w, (res, None))
                        else
                          let target := coolestGroup cfg loads in
                          if (target =? owner) || (target =? 0) then Ret (w, (res, None))
                          else
                            let '(w, err) := api_Move newID target w in
                            match err with
                            | Some _ => Ret (w, (res, Some (ErrMoving newID target)))
                            | None => Ret (w, (mkStepResult victim newID target, None))
                            end
                    end
                end
            end
      end
  end.
End step.
