(* ===== verification/AutoSplitFacts.v ===== *)
(** * What the detector and the auto-splitter guarantee

    DetectHot against its description; the deadline of the ring controller's
    clerk; and a whole step of the auto-splitter against a controller that
    applies its requests: half of the hottest shard's range moves, every other
    key stays where it was, and the ring does not outgrow its bound. *)
From Stdlib Require Import SpecFloat Sorting.Sorted.
From S2P Require Import Prelude Persister Dedup Waiters RaftNode ShardConfig Ctrler Ring RingFacts RingCtrler AutoSplit.
Local Open Scope Z_scope.

(** ** The counters *)

Lemma loadOf_insert loads s n s' :
  loadOf (<[s := n]> loads) s' = if decide (s = s') then n else loadOf loads s'.
Proof.
  unfold loadOf. destruct (decide (s = s')) as [->|]; [by rewrite lookup_insert_eq|by rewrite lookup_insert_ne].
Qed.

(** A snapshot holds how often each shard was recorded since the last one,
    and nothing for a shard that was not. *)
Lemma Snapshot_counts shards s :
  let lt := foldl LoadTracker_Record NewLoadTracker shards in
  loadOf (LoadTracker_Snapshot lt).2 s = Z.of_nat (length (filter (λ x, x = s) shards)) ∧
  dom (LoadTracker_Snapshot lt).2 = list_to_set shards ∧
  (LoadTracker_Snapshot lt).1 = NewLoadTracker.
Proof.
  assert (∀ lt, let lt' := foldl LoadTracker_Record lt shards in
    loadOf (lt_counts lt') s = loadOf (lt_counts lt) s + Z.of_nat (length (filter (λ x, x = s) shards)) ∧
    dom (lt_counts lt') = dom (lt_counts lt) ∪ list_to_set shards) as H.
  { induction shards as [|x shards IH]; intros lt; simpl; [split; [lia|set_solver]|].
    destruct (IH (LoadTracker_Record lt x)) as [-> ->]. simpl. rewrite loadOf_insert, dom_insert_L. split; [|set_solver].
    rewrite filter_cons. destruct (decide (x = s)) as [->|]; cbn [length]; lia. }
  destruct (H NewLoadTracker) as [Hc Hd]. simpl in *. split_and!; [done| |done]. rewrite Hd. set_solver.
Qed.

(** The merged load of a shard is the sum over the reports. *)
Lemma MergeLoads_sum reports s : loadOf (MergeLoads reports) s = foldr Z.add 0 (map (λ r, loadOf r s) reports).
Proof.
  assert (∀ (r total : Loads), loadOf (map_fold (λ s n total, <[s := loadOf total s + n]> total) total r) s =
    loadOf total s + loadOf r s) as Hone.
  { intros r total. apply (map_fold_weak_ind (λ m (r : Loads), loadOf m s = loadOf total s + loadOf r s)).
    - unfold loadOf. rewrite lookup_empty. simpl. lia.
    - intros x n r' m Hx IH. rewrite !loadOf_insert. destruct (decide (x = s)) as [->|]; [|done].
      rewrite IH. unfold loadOf. rewrite Hx. simpl. lia. }
  assert (∀ total, loadOf (foldl (λ total r, map_fold (λ s n total, <[s := loadOf total s + n]> total) total r) total reports) s =
    loadOf total s + foldr Z.add 0 (map (λ r, loadOf r s) reports)) as Hall.
  { induction reports as [|r reports IH]; intros total; simpl; [lia|]. rewrite IH, Hone. lia. }
  unfold MergeLoads. rewrite Hall. unfold loadOf. by rewrite lookup_empty.
Qed.

(** ** The detector *)

Lemma total_load loads shards n :
  foldl (λ total s, total + loadOf loads s) n shards = n + foldr Z.add 0 (map (loadOf loads) shards).
Proof. revert n. induction shards as [|s shards IH]; intros n; simpl; [lia|]. rewrite IH. lia. Qed.

Lemma hotter_antisym loads a b : hotter loads a b → hotter loads b a → a = b.
Proof. unfold hotter. lia. Qed.

#[export] Instance hotter_AntiSymm loads : AntiSymm (=) (hotter loads).
Proof. intros a b. apply hotter_antisym. Qed.

Lemma DetectHot_Permutation loads shards policy :
  DetectHot loads shards policy ≡ₚ filter (λ s, isHot loads shards policy s = true) shards.
Proof. unfold DetectHot. destruct shards; [done|]. by rewrite merge_sort_Permutation. Qed.

Lemma DetectHot_in loads shards policy s :
  s ∈ DetectHot loads shards policy ↔ s ∈ shards ∧ isHot loads shards policy s = true.
Proof. rewrite DetectHot_Permutation, list_elem_of_filter. tauto. Qed.

(** DetectHot returns the shards that are hot, and nothing else: those of
    the list whose own load is positive, reaches MinLoad and exceeds, in double
    arithmetic, Factor times the mean over all listed shards (shards without
    traffic count, reports for other shards do not); each as often as it is
    listed, hottest first with ties by ascending id; and this order leaves one
    possible result, whatever sorting sort.Slice does. *)
Theorem DetectHot_exact loads shards policy :
  let mean := float64_div (float64_of_int (foldr Z.add 0 (map (loadOf loads) shards)))
                          (float64_of_int (zlen shards)) in
  let hot := DetectHot loads shards policy in
  (∀ s, s ∈ hot ↔ s ∈ shards ∧ 0 < loadOf loads s ∧ hp_MinLoad policy ≤ loadOf loads s ∧
    SFltb (float64_mul (hp_Factor policy) mean) (float64_of_int (loadOf loads s)) = true) ∧
  StronglySorted (hotter loads) hot ∧ (NoDup shards → NoDup hot) ∧
  ∀ l, l ≡ₚ filter (λ s, isHot loads shards policy s = true) shards → Sorted (hotter loads) l → l = hot.
Proof.
  intros mean hot. split_and!.
  - intros s. unfold hot. rewrite DetectHot_in. unfold isHot, hotThreshold. rewrite total_load, Z.add_0_l.
    fold mean. rewrite !andb_true_iff, Z.leb_le, Z.ltb_lt. tauto.
  - unfold hot, DetectHot. destruct shards; [constructor|]. apply (StronglySorted_merge_sort _).
  - unfold hot. rewrite DetectHot_Permutation. apply NoDup_filter.
  - intros l Hp Hs. unfold hot. apply (Sorted_unique (hotter loads)); [done| |by rewrite DetectHot_Permutation].
    unfold DetectHot. destruct shards; [constructor|]. apply (Sorted_merge_sort _).
Qed.

(** ** The midpoint *)

(** The width Midpoint computes in uint64 and the point it halves it at. *)
Lemma halfway st en : onRing st → onRing en →
  let w := (en - st) mod 2 ^ 64 in
  let w := if en <=? st then (w + hashSpace) mod 2 ^ 64 else w in
  let p := (st + w / 2) mod 2 ^ 64 mod hashSpace in
  onRing p ∧ (2 ≤ w → p ≠ st ∧ inRangeExclusive st en p = true).
Proof.
  unfold onRing, hashSpace. intros Hs He. cbv zeta.
  assert ((if en <=? st then ((en - st) mod 2 ^ 64 + 2 ^ 32) mod 2 ^ 64 else (en - st) mod 2 ^ 64) =
    if en <=? st then en - st + 2 ^ 32 else en - st) as ->.
  { destruct (Z.leb_spec en st).
    - destruct (decide (en = st)) as [->|]; [by rewrite Z.sub_diag|].
      rewrite <- (Zmod_unique (en - st) (2 ^ 64) (-1) (en - st + 2 ^ 64)) by lia.
      symmetry. apply Zmod_unique with (q := 1); lia.
    - apply Z.mod_small. lia. }
  set (w := if en <=? st then en - st + 2 ^ 32 else en - st).
  assert (0 ≤ w ≤ 2 ^ 32) as Hw by (unfold w; destruct (Z.leb_spec en st); lia).
  pose proof (Z.div_mod w 2 ltac:(lia)) as Hdiv. pose proof (Z.mod_pos_bound w 2 ltac:(lia)) as Hmod.
  set (h := w / 2) in *. rewrite (Z.mod_small (st + h) (2 ^ 64)) by lia.
  split; [by apply Z.mod_pos_bound|]. intros Hge.
  assert ((st + h) mod 2 ^ 32 = if st + h <? 2 ^ 32 then st + h else st + h - 2 ^ 32) as ->.
  { destruct (Z.ltb_spec (st + h) (2 ^ 32)); [apply Z.mod_small; lia|].
    symmetry. apply Zmod_unique with (q := 1); lia. }
  clearbody h. unfold inRangeExclusive. revert Hdiv Hmod Hge Hw. subst w.
  destruct (Z.leb_spec en st), (Z.ltb_spec st en); try lia; intros Hdiv Hmod Hge Hw;
    destruct (Z.ltb_spec (st + h) (2 ^ 32));
    rewrite ?andb_true_iff, ?orb_true_iff, ?Z.leb_le, ?Z.ltb_lt; lia.
Qed.

Lemma Midpoint_meets r s : ring_ok r → s ∈ map re_Shard (ring_Entries r) →
  ∃ m, Midpoint r s = Ret m ∧ ∀ p, m = inl p → onRing p ∧ ∃ end_, splits_range r s p end_.
Proof.
  intros Hok Hs. unfold Midpoint. destruct (findShard _ _ _) as [[i e]|] eqn:Hf; [|by eexists].
  destruct (findShard_range r s i e Hok Hf) as (Hz & Hse & _).
  destruct (rangeEnd_total r i e Hok Hz) as (end_ & Hend & Hon & _). rewrite Hend. simpl.
  assert (onRing (re_Start e)) as Hone.
  { destruct Hok as (_ & _ & _ & Hall). rewrite Forall_forall in Hall. by eapply Hall, zget_elem_of. }
  pose proof (halfway (re_Start e) end_ Hone Hon) as [Hp Hin]. cbv zeta in Hp, Hin.
  set (width := if end_ <=? re_Start e then _ else _) in *.
  destruct (Z.ltb_spec width 2) as [|Hw]; [by eexists|]. eexists. split; [done|].
  intros p [= <-]. destruct (Hin Hw) as [Hne Hrange]. split; [done|]. by exists end_, i, e.
Qed.

(** ** The coolest group *)

Lemma byGroup_dom cfg loads g : g ∈ dom (byGroup cfg loads) →
  is_Some (rc_Groups cfg !! g) ∨ ∃ s, rc_Owners cfg !! s = Some g.
Proof.
  unfold byGroup. revert g.
  apply (map_fold_weak_ind (λ m (owners : gmap Z Z), ∀ g, g ∈ dom m →
    is_Some (rc_Groups cfg !! g) ∨ ∃ s, owners !! s = Some g)).
  - intros g Hg. left. apply elem_of_dom in Hg as [x Hx]. rewrite lookup_fmap in Hx.
    destruct (rc_Groups cfg !! g); [by eexists|done].
  - intros s gid owners m Hs IH g. rewrite dom_insert_L. intros [->%elem_of_singleton|Hg]%elem_of_union.
    + right. exists s. by rewrite lookup_insert_eq.
    + destruct (IH g Hg) as [|(s' & Hs')]; [by left|right]. exists s'. rewrite lookup_insert_ne; [done|].
      by intros ->; rewrite Hs in Hs'.
Qed.

Lemma byGroup_groups cfg loads g : is_Some (rc_Groups cfg !! g) → g ∈ dom (byGroup cfg loads).
Proof.
  unfold byGroup. intros Hg.
  apply (map_fold_weak_ind (λ m (owners : gmap Z Z), g ∈ dom m)).
  - rewrite dom_fmap_L. by apply elem_of_dom.
  - intros s gid owners m _ IH. rewrite dom_insert_L. set_solver.
Qed.

Lemma coolest_spec m gids best : 0 ∉ gids → best ≠ 0 ∨ gids ≠ [] →
  let c := coolest m gids best in
  (c = best ∧ best ≠ 0 ∨ c ∈ gids) ∧ (best ≠ 0 → loadOf m c ≤ loadOf m best) ∧
  ∀ g, g ∈ gids → loadOf m c ≤ loadOf m g.
Proof.
  revert best. induction gids as [|g gids IH]; intros best Hz Hne; simpl.
  { destruct Hne as [|]; [|done]. split_and!; [by left|lia|by intros g ?%not_elem_of_nil]. }
  apply not_elem_of_cons in Hz as [Hg Hz].
  destruct (Z.eqb_spec best 0) as [->|Hb]; simpl.
  - destruct (IH g Hz) as (Hin & Hle & Hall); [left; congruence|]. split_and!; [|done|].
    + destruct Hin as [[-> _]|]; right; [by left|by right].
    + intros x [->|]%elem_of_cons; [apply Hle; congruence|auto].
  - destruct (Z.ltb_spec (loadOf m g) (loadOf m best)).
    + destruct (IH g Hz) as (Hin & Hle & Hall); [left; congruence|]. unfold coolest in *. split_and!.
      * destruct Hin as [[-> _]|]; right; [by left|by right].
      * intros _. transitivity (loadOf m g); [apply Hle; congruence|lia].
      * intros x [->|]%elem_of_cons; [apply Hle; congruence|auto].
    + destruct (IH best Hz) as (Hin & Hle & Hall); [by left|]. unfold coolest in *. split_and!.
      * destruct Hin as [|]; [by left|by right; right].
      * done.
      * intros x [->|]%elem_of_cons; [transitivity (loadOf m best); auto|auto].
Qed.

(** Among the groups of a configuration that routes every key, none with id 0,
    coolestGroup is one that carries the least load. *)
Lemma coolestGroup_meets cfg loads : routes cfg → rc_Groups cfg !! 0 = None → rc_Groups cfg ≠ ∅ →
  is_Some (rc_Groups cfg !! coolestGroup cfg loads) ∧ ∀ g, is_Some (rc_Groups cfg !! g) →
    loadOf (byGroup cfg loads) (coolestGroup cfg loads) ≤ loadOf (byGroup cfg loads) g.
Proof.
  intros (_ & _ & Hown) H0 Hne. unfold coolestGroup. set (m := byGroup cfg loads).
  set (gids := merge_sort Z.le (elements (dom m))).
  assert (∀ g, g ∈ gids ↔ is_Some (rc_Groups cfg !! g)) as Hg.
  { intros g. unfold gids. rewrite merge_sort_Permutation, elem_of_elements. split.
    - intros [|(s & Hs)]%byGroup_dom; [done|by apply Hown in Hs].
    - apply byGroup_groups. }
  destruct (coolest_spec m gids 0) as (Hin & _ & Hall).
  - rewrite Hg, H0. by intros [].
  - right. intros Hnil. apply map_choose in Hne as (g & x & Hx).
    assert (g ∈ gids) as Hgin by (apply Hg; eauto). rewrite Hnil in Hgin. by apply not_elem_of_nil in Hgin.
  - split; [apply Hg; by destruct Hin as [[? []]|]|]. intros g Hg'. by apply Hall, Hg.
Qed.

(** ** A step *)

(** What a splitter is promised while nobody else changes the ring: a query
    returns the latest configuration, and a request that the configuration
    admits is applied to it. *)
Class QuietRing (W : Type) `{RingAPI W} := {
  config : W → RingConfig;
  quiet_Query w : ∃ w', api_Query w = (w', (config w, None)) ∧ config w' = config w;
  quiet_Split s p w next new : SplitConfig (config w) s p = Ret (inl (next, new)) →
    ∃ w', api_Split s p w = (w', None) ∧ config w' = next;
  quiet_Move s gid w next : MoveRingShard (config w) s gid = inl next →
    ∃ w', api_Move s gid w = (w', None) ∧ config w' = next
}.

(** The shards of a configuration, and the upper part of a range: the keys
    from [p] up to [end_]. *)
Definition shardsOf (cfg : RingConfig) : list ShardID := map re_Shard (ring_Entries (rc_Ring cfg)).
Definition inUpper (p end_ : Z) (key : string) : bool := inRangeExclusive p end_ (HashKey key).

Lemma SplitConfig_upper cfg s p end_ : routes cfg → onRing p → splits_range (rc_Ring cfg) s p end_ →
  ∃ next end_, SplitConfig cfg s p = Ret (inl (next, NextShardID (rc_Ring cfg))) ∧
    splits_range (rc_Ring cfg) s p end_ ∧ routes next ∧ rc_Groups next = rc_Groups cfg ∧
    rc_Owners next !! NextShardID (rc_Ring cfg) = Some (loadOf (rc_Owners cfg) s) ∧
    ringStart (rc_Ring next) (NextShardID (rc_Ring cfg)) = p ∧
    ring_Entries (rc_Ring next) ≡ₚ mkRingEntry p (NextShardID (rc_Ring cfg)) :: ring_Entries (rc_Ring cfg) ∧
    ∀ key, Lookup next key = Lookup cfg key ∧
      (RingAssign (rc_Ring next) key = Ret (NextShardID (rc_Ring cfg)) ↔ inUpper p end_ key = true).
Proof.
  intros Hr Hp Hsr. set (new := NextShardID (rc_Ring cfg)).
  destruct (SplitConfig_routes cfg s p Hr Hp) as (res & Hres & Hroutes).
  pose proof (Split_meets (rc_Ring cfg) s p (proj1 Hr) Hp) as Hpost.
  assert (∃ idx e, zget (ring_Entries (rc_Ring cfg)) idx = Some e ∧ re_Shard e = s) as (idx & e & He%zget_elem_of & Hse).
  { destruct Hsr as (idx & e & [Hz _] & Hse & _). eauto. }
  destruct (shard_in_dom cfg e Hr He) as [owner Ho]. rewrite Hse in Ho.
  unfold SplitConfig in *. rewrite Ho in *. unfold Split_post in Hpost.
  destruct (Split (rc_Ring cfg) s p) as [[[r' n]|err]|] eqn:Hsplit; [|by destruct (Hpost end_)|done].
  assert (n = new) as ->.
  { unfold Split in Hsplit. destruct (findShard _ _ _) as [[i x]|]; [|done].
    apply bind_Ret_inv in Hsplit as (y & _ & Hsplit). destruct (_ || _); [done|]. by injection Hsplit as _ <-. }
  simpl in Hres |- *. injection Hres as <-. destruct Hpost as (end' & Hsr' & Hok' & Hfresh & Hperm & Hassign).
  destruct (Hroutes _ _ eq_refl) as (_ & Hr' & _ & Hlook). eexists _, end'. split; [done|].
  split; [done|]. split; [done|]. split; [done|]. simpl in *. split; [by rewrite lookup_insert_eq; unfold loadOf; rewrite Ho|].
  split; [|split; [done|]].
  - unfold ringStart. pose proof (findShard_spec (ring_Entries r') new 0) as Hf.
    destruct (findShard (ring_Entries r') new 0) as [[k x]|].
    + destruct Hf as (_ & Hz%zget_elem_of & Hx). rewrite Hperm in Hz.
      apply elem_of_cons in Hz as [->|Hz]; [done|]. by destruct (Hfresh x Hz).
    + exfalso. apply (Hf (mkRingEntry p new)); [|done]. rewrite Hperm. by left.
  - intros key. split; [apply Hlook|]. unfold RingAssign, inUpper.
    destruct (Hassign (HashKey key) (HashKey_onRing key)) as [-> _].
    destruct (inRangeExclusive p end' (HashKey key)); [by split|].
    destruct (RingAssign_entry (rc_Ring cfg) key (proj1 Hr)) as (x & Hx & Ha). unfold RingAssign in Ha. rewrite Ha.
    split; [intros [= Hxn]; by destruct (Hfresh x Hx)|done].
Qed.

(** What one step did to the ring. *)
Inductive step_post (policy : HotPolicy) (loads : Loads) (max : Z) (cfg : RingConfig) :
    StepResult → RingConfig → Prop :=
| step_nothing :
    (DetectHot loads (shardsOf cfg) policy = [] ∨ 0 < max ≤ zlen (shardsOf cfg) ∨
     ∃ victim err, head (DetectHot loads (shardsOf cfg) policy) = Some victim ∧
       Midpoint (rc_Ring cfg) victim = Ret (inr err)) →
    step_post policy loads max cfg (mkStepResult 0 0 0) cfg
| step_split victim p end_ new target moved cfg' :
    head (DetectHot loads (shardsOf cfg) policy) = Some victim → (max ≤ 0 ∨ zlen (shardsOf cfg) < max) →
    Midpoint (rc_Ring cfg) victim = Ret (inl p) → splits_range (rc_Ring cfg) victim p end_ →
    new ∉ shardsOf cfg →
    ring_Entries (rc_Ring cfg') ≡ₚ mkRingEntry p new :: ring_Entries (rc_Ring cfg) →
    is_Some (rc_Groups cfg !! target) →
    (∀ g, is_Some (rc_Groups cfg !! g) → loadOf (byGroup cfg loads) target ≤ loadOf (byGroup cfg loads) g) →
    (∀ key, Lookup cfg' key = if inUpper p end_ key then Ret target else Lookup cfg key) →
    moved = (if loadOf (rc_Owners cfg) victim =? target then 0 else target) →
    step_post policy loads max cfg (mkStepResult victim new moved) cfg'.

Section step.
Context {W : Type} `{QuietRing W}.

(** The part after the point is known. *)
Lemma Step_meets policy loads max w : routes (config w) → rc_Groups (config w) !! 0 = None →
  ∃ w' res, Step (mkAutoSplitter policy (λ w, (w, loads)) max) w = Ret (w', (res, None)) ∧
    routes (config w') ∧ rc_Groups (config w') = rc_Groups (config w) ∧
    step_post policy loads max (config w) res (config w').
Proof.
  intros Hr Hz. unfold Step. set (cfg := config w) in *.
  destruct (quiet_Query w) as (w1 & -> & Hw1). fold cfg in Hw1 |- *. simpl. fold (shardsOf cfg).
  destruct (DetectHot loads (shardsOf cfg) policy) as [|victim rest] eqn:Hhot.
  { exists w1, (mkStepResult 0 0 0). rewrite Hw1. split_and!; [done..|]. constructor. by left. }
  assert (victim ∈ shardsOf cfg) as Hv.
  { apply (DetectHot_in loads (shardsOf cfg) policy). rewrite Hhot. by left. }
  replace (zlen (map re_Shard (ring_Entries (rc_Ring cfg)))) with (zlen (shardsOf cfg)) by done.
  destruct ((0 <? max) && (max <=? zlen (shardsOf cfg))) eqn:Hmax.
  { apply andb_true_iff in Hmax as [?%Z.ltb_lt ?%Z.leb_le].
    exists w1, (mkStepResult 0 0 0). rewrite Hw1. split_and!; [done..|]. constructor. right. by left. }
  assert (max ≤ 0 ∨ zlen (shardsOf cfg) < max) as Hroom.
  { apply andb_false_iff in Hmax as [?%Z.ltb_ge|?%Z.leb_gt]; lia. }
  destruct (Midpoint_meets (rc_Ring cfg) victim (proj1 Hr) Hv) as (mid & Hmid & Hpoint). rewrite Hmid. simpl.
  destruct mid as [p|err].
  2:{ exists w1, (mkStepResult 0 0 0). rewrite Hw1. split_and!; [done..|]. constructor. right. right.
      exists victim, err. by rewrite Hhot. }
  destruct (Hpoint p eq_refl) as (Hp & end0 & Hsr0).
  destruct (SplitConfig_upper cfg victim p end0 Hr Hp Hsr0)
    as (next & end_ & Hsplit & Hsr & Hr2 & Hgr & Hown & Hstart & Hperm & Hlook).
  set (new := NextShardID (rc_Ring cfg)) in *.
  assert (new ∉ shardsOf cfg) as Hnew.
  { intros (e & Heq & He)%list_elem_of_fmap. pose proof (NextShardID_above _ _ He). unfold new in Heq. lia. }
  rewrite <- Hw1 in Hsplit. destruct (quiet_Split victim p w1 next new Hsplit) as (w2 & -> & Hw2).
  destruct (quiet_Query w2) as (w3 & -> & Hw3). rewrite Hw2 in Hw3 |- *.
  assert (loadOf (rc_Owners next) new = loadOf (rc_Owners cfg) victim) as -> by (unfold loadOf; by rewrite Hown).
  rewrite Hstart, !Z.eqb_refl. cbn [negb orb].
  destruct (coolestGroup_meets cfg loads Hr Hz) as [Htg Hmin].
  { intros He. apply list_elem_of_fmap in Hv as (e & -> & Hin).
    destruct (shard_in_dom cfg e Hr Hin) as [gid Hg]. destruct Hr as (_ & _ & Hall).
    apply Hall in Hg. rewrite He, lookup_empty in Hg. by destruct Hg. }
  set (target := coolestGroup cfg loads) in *.
  assert (∀ w' cfg', config w' = cfg' → ring_Entries (rc_Ring cfg') ≡ₚ mkRingEntry p new :: ring_Entries (rc_Ring cfg) →
    (∀ key, Lookup cfg' key = if inUpper p end_ key then Ret target else Lookup cfg key) →
    step_post policy loads max cfg (mkStepResult victim new
      (if loadOf (rc_Owners cfg) victim =? target then 0 else target)) (config w')) as Hpost.
  { intros w' cfg' -> Hpm Hl. by eapply step_split; [rewrite Hhot|..]. }
  rewrite (Z.eqb_sym target), (proj2 (Z.eqb_neq target 0)), orb_false_r
    by (intros Ht; rewrite Ht, Hz in Htg; by destruct Htg).
  destruct (Z.eqb_spec (loadOf (rc_Owners cfg) victim) target) as [Heq|Hne].
  - exists w3. eexists. split; [done|]. rewrite Hw3. split_and!; [done|done|]. rewrite <- Hw3.
    eapply Hpost; [exact Hw3|done|]. intros key. destruct (Hlook key) as [Hl Hin]. rewrite Hl.
    destruct (inUpper p end_ key); [|done]. rewrite <- Hl. unfold Lookup. rewrite (proj2 Hin) by done. simpl.
    rewrite Hown. simpl. by rewrite Heq.
  - destruct (rc_Groups cfg !! target) as [addrs|] eqn:Htgt; [|by destruct Htg].
    assert (∃ moved, MoveRingShard next new target = inl moved) as [moved Hmove].
    { unfold MoveRingShard. rewrite Hown, Hgr, Htgt. by eexists. }
    rewrite <- Hw3 in Hmove. destruct (quiet_Move new target w3 moved Hmove) as (w4 & -> & Hw4).
    rewrite Hw3 in Hmove. destruct (MoveRingShard_routes next new target moved Hr2 Hmove) as (_ & Hr4 & Hg4 & Hl4).
    exists w4. eexists. split; [done|]. rewrite Hw4. split_and!; [done|by rewrite Hg4|]. rewrite <- Hw4.
    eapply Hpost; [exact Hw4| |].
    + unfold MoveRingShard in Hmove. rewrite Hown, Hgr, Htgt in Hmove. by injection Hmove as <-.
    + intros key. rewrite Hl4. destruct (Hlook key) as [Hl Hin]. rewrite Hl.
      case_bool_decide as Hd; [by rewrite (proj1 Hin Hd)|]. destruct (inUpper p end_ key); [|done].
      destruct Hd. by apply Hin.
Qed.
End step.

(** C40: One step of the auto-splitter where nobody else changes the ring and
    the controllers carry out what they are asked: a Query answers with the
    ring's configuration, and a Split or Move that is valid for it succeeds and
    does nothing else ([QuietRing]). If every key has a registered group and there
    is no group 0, the step does not panic or fail and does one of two things.
    Nothing, if no shard is hot, the ring has reached MaxShards, or the hottest
    shard is too narrow to divide. Or it splits the hottest shard at its midpoint:
    the ring gains one shard with a new id, the keys of the upper half of that
    range are served by a group that carried the least load, and every other key
    is served by the group that served it before. Either way every key has a
    registered group afterwards, and a ring within MaxShards stays within it. *)
Theorem auto_split_step {W} `{QuietRing W} policy loads max w :
  routes (config w) → rc_Groups (config w) !! 0 = None →
  ∃ w' res, Step (mkAutoSplitter policy (λ w, (w, loads)) max) w = Ret (w', (res, None)) ∧
    step_post policy loads max (config w) res (config w') ∧
    (∀ key, ∃ gid, Lookup (config w') key = Ret gid ∧ is_Some (rc_Groups (config w) !! gid)) ∧
    (0 < max → zlen (shardsOf (config w)) ≤ max → zlen (shardsOf (config w')) ≤ max).
Proof.
  intros Hr Hz. destruct (Step_meets policy loads max w Hr Hz) as (w' & res & Hs & Hr' & Hg & Hpost).
  exists w', res. split_and!; [done|done| |].
  - intros key. rewrite <- Hg. by apply routes_lookup.
  - intros Hmax Hle. inversion Hpost as [|v p e n t m c Hh Hroom Hm Hsr Hn Hperm]; subst; [done|].
    apply Permutation_length in Hperm. simpl in Hperm. unfold shardsOf, zlen in *. rewrite !length_map in *. lia.
Qed.

(** ** The deadline of the ring controller's clerk *)

Section deadline.
Context {W Srv X : Type}.
Variable call : Srv → X → W → verdict * X * W.
Variable sleep : W → W.
Variable now : W → Z.
Hypothesis call_time : ∀ c x w, now w ≤ now (call c x w).2.
Hypothesis sleep_time : ∀ w, now w < now (sleep w).

Lemma ring_sweep_time ctrlers x w : now w ≤ now (ring_sweep call ctrlers x w).1.1.
Proof.
  revert x w. induction ctrlers as [|c ctrlers IH]; intros x w; simpl; [done|].
  pose proof (call_time c x w). destruct (call c x w) as [[err x1] w1]. simpl in *.
  pose proof (IH x1 w1). destruct err as [[| | |]|]; simpl; lia.
Qed.

(** The clerk answers by its deadline, if only with an error, whatever the
    controllers do: in as many rounds as the clock has ticks left. *)
Lemma ring_retry_returns fuel deadline ctrlers x w : deadline - now w ≤ Z.of_nat fuel →
  ∃ w' x' err, ring_retry call sleep (beforeDeadline now deadline) fuel ctrlers x w = Some (w', x', err).
Proof.
  revert x w. induction fuel as [|fuel IH]; intros x w Hf; simpl; unfold beforeDeadline.
  - rewrite (proj2 (Z.ltb_ge _ _)) by lia. eauto.
  - destruct (now w <? deadline); [|eauto]. pose proof (ring_sweep_time ctrlers x w).
    destruct (ring_sweep call ctrlers x w) as [[w1 x1] [err|]]; [eauto|]. simpl in *.
    apply IH. pose proof (sleep_time w1). lia.
Qed.
End deadline.

Module Witness.

(** A controller that applies each request at once. *)
#[export] Instance direct_api : RingAPI RingConfig := {
  api_Query cfg := (cfg, (cfg, None));
  api_Split s p cfg :=
    match SplitConfig cfg s p with
    | Ret (inl (next, _)) => (next, None)
    | _ => (cfg, Some (ErrRejected (Some CtrlerErrInvalidArgs)))
    end;
  api_Move s gid cfg :=
    match MoveRingShard cfg s gid with
    | inl next => (next, None)
    | inr _ => (cfg, Some (ErrRejected (Some CtrlerErrInvalidArgs)))
    end
}.

#[export] Program Instance direct_quiet : QuietRing RingConfig := { config w := w }.
Next Obligation. intros w. by exists w. Qed.
Next Obligation. intros s p w next new Hs. exists next. simpl. by rewrite Hs. Qed.
Next Obligation. intros s gid w next Hm. exists next. simpl. by rewrite Hm. Qed.

Definition groups12 : gmap Z (list string) := {[1 := ["a"%string]; 2 := ["b"%string]]}.
Definition cfg0 : RingConfig :=
  mkRingConfig 1 (mkRing [mkRingEntry 0 1; mkRingEntry (2 ^ 31) 2]) {[1 := 1; 2 := 2]} groups12.
(** Factor 3/2. *)
Definition policy0 : HotPolicy :=
  mkHotPolicy (float64_div (float64_of_int 3) (float64_of_int 2)) 10.
Definition loads0 : Loads := {[1 := 90; 2 := 10]}.

Lemma cfg0_routes : routes cfg0.
Proof.
  split; [|split].
  - split; [done|]. split_and!; simpl.
    + apply Sorted_StronglySorted; [unfold startLt; intros ???; lia|].
      repeat constructor; unfold startLt; simpl; lia.
    + apply (bool_decide_unpack _). by vm_compute.
    + repeat constructor; unfold onRing, hashSpace; simpl; lia.
  - apply (bool_decide_unpack _). by vm_compute.
  - apply (bool_decide_unpack _). by vm_compute.
Qed.

(** Shard 1 is hot; the upper half of its range goes to group 2 as shard 3. *)
Lemma auto_split_step_witness : ∃ w' res,
  Step (mkAutoSplitter policy0 (λ w, (w, loads0)) 4) cfg0 = Ret (w', (res, None)) ∧
  res = mkStepResult 1 3 2 ∧ step_post policy0 loads0 4 cfg0 res w'.
Proof.
  destruct (auto_split_step (H0:=direct_quiet) policy0 loads0 4 cfg0 cfg0_routes) as (w' & res & Hs & Hp & _);
    [vm_compute; reflexivity|].
  exists w', res. split; [exact Hs|]. split; [|exact Hp]. vm_compute in Hs. by injection Hs as _ <-.
Defined.

End Witness.
